(* ===== verification/_CoqProject ===== *)
-Q . S2P
Prelude.v
TaskState.v
Task.v
Coop.v
Notify.v
Semaphore.v
Mpsc.v
Broadcast.v
Oneshot.v
Mutex.v
RwLock.v
Watch.v
Barrier.v
Cells.v
Timer.v
AsyncIo.v
Buffered.v
Pipes.v
Files.v
Join.v
Blocking.v
Scheduler.v
BlockOn.v
Runtime.v
Readiness.v
Macros.v
Local.v
TaskLocal.v
UringSim.v
UringRing.v
Signal.v
Process.v
Reactors.v
Streams.v
Net.v
Sockets.v
Sockaddr.v
Stdio.v
ReadDir.v
Ambient.v
SpawnBlocking.v
Resolve.v
Descriptors.v
Bytes.v
WaitOutput.v
Split.v
Attributes.v
FsOps.v
