(* ===== verification/Prelude.v ===== *)
(** * A verification library for the rusty_tokio runtime

    rusty_tokio is an asynchronous runtime: a multi-threaded and a
    current-thread scheduler of tasks, a reactor, a timer driver, a pool of
    blocking threads, synchronisation primitives, channels, I/O traits and
    adaptors.  This library translates the logic of those parts into
    executable definitions and proves what makes them correct.

    ** How the program is modelled

    - A critical section (the life of one mutex guard) is a computation of the
      monad [M] below: it replaces the protected state, may panic, and lists
      the wakers it called.  The callers' loops and the order of several
      critical sections of one operation are kept as in the source.
    - Where the interleaving of single accesses matters (the task state, the
      blocking pool, [Notify], readiness, the scheduler, [block_on]) an
      operation is an automaton whose program points are its accesses; the
      system of all callers is a step relation, and theorems are about its
      [reachable] configurations.  All accesses are sequentially consistent.
    - Elsewhere a system is the relation of all calls that any number of
      tasks may make, cancellation (the drop of a future) included.
    - Machine integers are [Z] with their width; [uadd] and [usub]
      panic on overflow in the [dev] profile and wrap in [release]
      ([BuildProfile]).
    - A waker is the number of the task it wakes; a future's identity is the
      number under which the code keeps it.
    - Many systems are executable: a function [move -> state -> option state],
      whose [moves] is the step relation and which [run_moves] runs, so that a
      concrete history is checked by computation.
    - What the code relies on outside its own files (the kernel's calls, the
      files, processes and sockets of the standard library, crossbeam_deque,
      the crate bytes, the resolver of names) is a type class of operations
      with the documented laws a theorem needs, an argument, or the
      environment's choice of the answer; every such theorem is used at a
      concrete instance.

    ** The files

    Tasks and their scheduling:
    - [Prelude]: the monad, integers, counting in lists, reachability.
    - [TaskState], [Task] (task/state.rs, task/mod.rs): the atomic byte and
      [Task::run] with any number of workers, wakers and aborters.  A task is
      polled by one thread at a time; a wake is answered by a poll, unless an
      abort makes the worker that began the task panic ([begin_poll]) or the
      scheduler itself panics; the end of a task is reported once; the byte
      takes legal values only.
    - [Local], [TaskLocal] (task/local.rs, task/local_key.rs): local tasks
      refine [Task] and stay on their thread; scopes of task-local values do
      not see each other.
    - [Join] (task/join.rs, join_set.rs): the result of a task reaches its
      handle or its set, once.
    - [Scheduler] (runtime/mod.rs, worker.rs, thread_per_core.rs): queues,
      stealing, workers, their death by that panic, parking,
      [block_in_place].  No task is duplicated or lost; none is left where no
      worker looks, but for the tasks of a worker that died.  [Deque] and [LawfulDeque] are what
      crossbeam_deque provides, a parameter with its documented laws.
    - [BlockOn], [Runtime], [Blocking] (runtime/): the loops that drive a
      future, over any [LawfulRunQueue], [LocalRuntime]'s over two queues
      included, and the parker of [block_on] with its condition variable;
      builder, placement, shutdown; the pool of blocking threads, threads that
      cannot be started included, its bound and its progress.
    - [Ambient] (runtime/context.rs, task/id.rs, task/builder.rs, the current
      set of task/local.rs): what is current on a thread is a stack of guards;
      the futures of a [LocalSet] are polled on the thread they were made on.
    - [SpawnBlocking] (runtime/context.rs): one [spawn_blocking], the
      composition of [Oneshot] and [Join] through the pool: what the handle
      says really happened, and nobody sleeps through it.
    - [Coop] (coop.rs, task/coop.rs, task/yield_now.rs): the budget.
    - [Macros] (macros.rs): [select!], [join!], [try_join!].
    - [Attributes] (rusty_tokio-macros): what the attributes accept, and the
      runtime their expansion builds.

    Synchronisation and time:
    - [Semaphore], [Mutex], [RwLock], [Notify], [Barrier], [Cells] (sync/):
      conservation of permits, exclusion (a panic in the closure of an owned
      guard's [map] leaves the lock held by nobody), no lost wakeups, rounds,
      write-once.
    - [Mpsc], [Broadcast], [Oneshot], [Watch] (sync/): order and delivery of
      messages, capacity (kept unless a [reserve_many] has wrapped), closing;
      broadcast and watch refine logs.
    - [Timer] (time/): the clock, the heap, sleeps, timeouts, intervals; the
      event loop with its condition variable as a state machine, beside the
      sleeps, pauses, advances, resumes and the shutdown.

    I/O:
    - [AsyncIo], [Buffered], [Bytes], [Split], [Pipes] (io/): I/O as type
      classes with laws -- [AsyncRead]/[LawfulRead],
      [AsyncWrite]/[LawfulWrite], [LawfulBufRead], [FlushedWrite],
      [LawfulDuplex] -- under which the loops (copying, reading lines,
      integers, strings and buffers of the crate bytes) are proved, and whose
      instances are the adaptors, the buffers, the in-memory pipes, the halves
      of a stream.
    - [Readiness] (io/reactor/mod.rs, readiness.rs, interest.rs, async_fd.rs):
      readiness flags and wakers of a descriptor, [poll_io], and one direction
      of it with any number of tasks, reactor and kernel as a step relation: a
      task that waits has its waker in the slot, or another displaced it.
    - [Reactors] (io/reactor/): what an event marks in each back end; the
      registry, queues and polls of the io_uring one ([Uring]), descriptors
      closed while they are registered and fatal errors included, and the poll
      requests of the Windows one ([Afd]).
    - [Streams], [Net], [Sockets], [Sockaddr] (tcp.rs, udp.rs, unix.rs,
      unix_datagram.rs, pipe.rs, socket/): reads and writes of a descriptor
      through [poll_io]; the sockets a program holds, their owners and their
      registration ([Halves]: splitting and reuniting); every operation of
      theirs, each poll of a [connect] too, refines [Net], and which of them may
      leave a registration behind; packing and reading of addresses and
      options.
    - [Descriptors]: every function that opens descriptors, call by call: on
      every error path it closes what it opened, and with which flags it
      succeeds.
    - [Resolve] (addr.rs, lookup.rs): the forms of addresses, the resolver, the
      loops over what it gives.
    - [Files], [ReadDir], [Stdio] (fs/, stdio.rs): the state machines that send
      blocking operations to the pool refine the operations themselves.
    - [FsOps] (fs/mod.rs): the functions on paths, each a program of several
      system calls (the class [StdFs]) on a thread of the pool: any number of
      them at once, their system calls interleaved, give their own answers.
    - [UringSim], [UringRing] (uring_fs.rs): positional files over a class of
      drivers, the simulated disk with faults and crashes; the io_uring driver,
      the kernel and the futures: buffers are not freed while the kernel may
      use them.
    - [Process], [WaitOutput], [Signal] (process/, signal.rs): the life of a
      child, its status and its reaping; [wait_with_output] put together from
      [Process], [Macros] and [Bytes], which panics after a [wait] that was
      dropped or failed; the handler, the pipe, the reading task
      and the listeners of signals.

    ** Flaws

    Where the code does not do what it means to, the model has the step that
    does it, the theorem about it states the case as an exception, and a theorem
    or an example reaches it ("A flaw").  The exceptions: panics that kill a
    worker ([Task], [Scheduler]) or leave a lock held ([Mutex], [RwLock]); a
    second waiter that displaces the first ([Readiness]); a [connect] that fails
    or is dropped, and a registration that fails late on Windows ([Net],
    [Sockets]); a pause, resume or shutdown between the event loop's look at the
    clock and its wait ([Timer]); a thread of the pool that cannot be started
    ([Blocking]); permits that wrap ([Mpsc]); the flags of macOS's signal pipe
    ([Descriptors]).

    ** Fuel

    A loop the code leaves open takes fuel and panics (or gives [None])
    without it, so every theorem that says a computation returns covers its
    termination.  The fuels are: for the copying loops, the bytes there are to
    move and the polls a reader or a writer may be pending for; for
    [read_until] and [read_to_end] the bytes of the stream plus one; for a
    buffered flush the bytes in the buffer; for the file's loop three rounds,
    one per state it can be in; for the loops of the scheduler and of
    [block_on], the entries in the queues.  Each theorem states the bound it
    needs.

    ** Not modelled, and why

    System calls themselves, which this code only makes; what it does before
    and after each is.  The setters that only forward an option to the kernel
    or a field to the standard library (socket options beyond the conversion of
    their values, the methods of [Command]), the names and the affinity of
    threads, the metrics that read one counter.  The
    optional [tracing] spans.  The parser of Rust behind the macros.  Values
    protected by a lock are not part of a lock's state; only who may reach
    them is.  Weak memory orders: every access is sequentially consistent, so
    the theorems do not say which [Ordering] an access needs. *)

From stdpp Require Export prelude list gmap relations.
From Stdlib Require Export ZArith Lia.

#[global] Open Scope Z_scope.

(** ** Build profile

    Cargo's [dev] profile turns both overflow checks and [debug_assert!] on,
    [release] turns both off; the manifest of the crate overrides neither. *)

Class BuildProfile := { debug_build : bool }.

Definition dev_profile : BuildProfile := {| debug_build := true |}.
Definition release_profile : BuildProfile := {| debug_build := false |}.

(** ** Effects

    A critical section (one [std::sync::Mutex] guard's life, or one atomic
    access) is a computation [M S A]: it reads and replaces the protected
    state [S], may panic ([None]), and returns the identities of the tasks
    whose wakers it called, in order. *)

Abbreviation waker := nat (only parsing).

Definition M (S A : Type) : Type := S → option (A * S * list waker).

Definition ret {S A} (a : A) : M S A := λ s, Some (a, s, []).
Definition bind {S A B} (m : M S A) (k : A → M S B) : M S B := λ s,
  match m s with
  | Some (a, s1, w1) =>
      match k a s1 with
      | Some (b, s2, w2) => Some (b, s2, w1 ++ w2)
      | None => None
      end
  | None => None
  end.
Definition get {S} : M S S := λ s, Some (s, s, []).
Definition put {S} (s' : S) : M S unit := λ _, Some (tt, s', []).
Definition panic {S A} : M S A := λ _, None.
Definition wake {S} (w : waker) : M S unit := λ s, Some (tt, s, [w]).
Definition wake_all {S} (ws : list waker) : M S unit := λ s, Some (tt, s, ws).
Definition wake_opt {S} (o : option waker) : M S unit :=
  wake_all (match o with Some w => [w] | None => [] end).
Definition assert {S} (b : bool) : M S unit := if b then ret tt else panic.
Definition lift {S A} (o : option A) : M S A :=
  match o with Some a => ret a | None => panic end.

Lemma bind_silent {S A B} (m : M S A) (k : A → M S B) s a s' :
  m s = Some (a, s', []) → bind m k s = k a s'.
Proof. unfold bind. intros ->. by destruct (k a s') as [[[??]?]|]. Qed.

Lemma bind_some {S A B} (m : M S A) (k : A → M S B) s a s1 w1 b s2 w2 :
  m s = Some (a, s1, w1) → k a s1 = Some (b, s2, w2) → bind m k s = Some (b, s2, w1 ++ w2).
Proof. unfold bind. by intros -> ->. Qed.

Lemma bind_inv {S A B} (m : M S A) (k : A → M S B) s b s2 w :
  bind m k s = Some (b, s2, w) →
  ∃ a s1 w1 w2, m s = Some (a, s1, w1) ∧ k a s1 = Some (b, s2, w2) ∧ w = w1 ++ w2.
Proof.
  unfold bind. destruct (m s) as [[[a s1] w1]|]; [|done].
  destruct (k a s1) as [[[b' s2'] w2]|] eqn:E; [|done]. intros. simplify_eq. by exists a, s1, w1, w2.
Qed.

Lemma ret_inv {S A} (a b : A) (s s' : S) w : ret a s = Some (b, s', w) → b = a ∧ s' = s ∧ w = [].
Proof. by intros [= -> -> ->]. Qed.

Lemma put_inv {S} (s0 s s' : S) u w : put s0 s = Some (u, s', w) → s' = s0 ∧ w = [].
Proof. by intros [= _ -> ->]. Qed.

Lemma get_inv {S} (s a s' : S) w : get s = Some (a, s', w) → a = s ∧ s' = s ∧ w = [].
Proof. by intros [= -> -> ->]. Qed.

Lemma assert_inv {S} (b : bool) (s s' : S) u w :
  assert b s = Some (u, s', w) → b = true ∧ s' = s ∧ w = [].
Proof. destruct b; [|done]. by intros [= _ <- <-]. Qed.

Lemma lift_inv {S A} (o : option A) (s s' : S) a w :
  lift o s = Some (a, s', w) → o = Some a ∧ s' = s ∧ w = [].
Proof. destruct o; [|done]. by intros [= <- <- <-]. Qed.

(** Take a run of a computation apart, from the end to the steps. *)
Ltac M_inv_step :=
  match goal with
  | E : bind _ _ _ = Some (_, _, _) |- _ =>
      let E1 := fresh E in
      apply bind_inv in E as (? & ? & ? & ? & E1 & E & ?); subst; cbv beta zeta in E
  | E : ret _ _ = Some (_, _, _) |- _ => apply ret_inv in E as (? & ? & ?); simplify_eq
  | E : get _ = Some (_, _, _) |- _ => apply get_inv in E as (? & ? & ?); simplify_eq
  | E : put _ _ = Some (_, _, _) |- _ => apply put_inv in E as (? & ?); subst
  | E : panic _ = Some (_, _, _) |- _ => discriminate E
  | E : assert _ _ = Some (_, _, _) |- _ => apply assert_inv in E as (? & ? & ?); subst
  | E : lift _ _ = Some (_, _, _) |- _ => apply lift_inv in E as (? & ? & ?); subst
  | E : (match ?x with _ => _ end) _ = Some (_, _, _) |- _ =>
      let Eq := fresh "Eq" in destruct x eqn:Eq
  end.
Ltac M_inv := repeat M_inv_step.

Declare Scope rust_scope.
Delimit Scope rust_scope with rust.
Notation "'let!' x := m 'in' k" := (bind m (λ x, k))
  (at level 10, x pattern, m at level 100, k at level 200,
   format "'[v' 'let!'  x  :=  m  'in' '/' k ']'") : rust_scope.
Notation "m ;! k" := (bind m (λ _, k))
  (at level 100, k at level 200, right associativity) : rust_scope.
#[global] Open Scope rust_scope.

(** Unfold a computation to the state transformer it is. *)
Ltac run_M :=
  unfold bind, get, put, ret, wake, wake_opt, wake_all, assert, panic, lift in *; simpl in *.

(** What [Future::poll] returns. *)
Inductive poll (A : Type) : Type :=
| Ready (a : A)
| Pending.
Arguments Ready {A} a.
Arguments Pending {A}.

Definition is_ready {A} (p : poll A) : bool :=
  match p with Ready _ => true | Pending => false end.

(** [Result<A, E>]. *)
Inductive result (A E : Type) : Type :=
| Ok (a : A)
| Err (e : E).
Arguments Ok {A E} a.
Arguments Err {A E} e.

#[export] Instance poll_eq_dec `{EqDecision A} : EqDecision (poll A).
Proof. solve_decision. Defined.
#[export] Instance result_eq_dec `{EqDecision A} `{EqDecision E} : EqDecision (result A E).
Proof. solve_decision. Defined.

(** What one atomic access leads to. *)
Inductive next (P A : Type) : Type :=
| Continue (p : P)
| Return (a : A)
| Panicked.
Arguments Continue {P A} p.
Arguments Return {P A} a.
Arguments Panicked {P A}.

(** Run a computation on a part of the state. *)
Definition zoom {T S A} (view : T → S) (update : S → T → T) (m : M S A) : M T A := λ t,
  match m (view t) with
  | Some (a, s, ws) => Some (a, update s t, ws)
  | None => None
  end.

Lemma zoom_some {T S A} (view : T → S) (update : S → T → T) (m : M S A) t a s ws :
  m (view t) = Some (a, s, ws) → zoom view update m t = Some (a, update s t, ws).
Proof. unfold zoom. by intros ->. Qed.

(** A future polled with one waker after another until it resolves: [step] is
    its [poll], [St] what it remembers between polls. *)
Fixpoint run_polls {S St A} (step : waker → St → M S (poll A * St)) (polls : list waker) (st : St)
    : M S (poll A * St) :=
  match polls with
  | [] => ret (Pending, st)
  | cx :: polls =>
      let! res := step cx st in
      match res with
      | (Ready a, st') => ret (Ready a, st')
      | (Pending, st') => run_polls step polls st'
      end
  end.

Lemma run_polls_inv {S St A} (step : waker → St → M S (poll A * St))
    (P : St → S → Prop) (Q : A → St → S → Prop) :
  (∀ cx st s, P st s → ∃ p st' s' ws, step cx st s = Some ((p, st'), s', ws) ∧
     match p with Ready a => Q a st' s' | Pending => P st' s' end) →
  ∀ polls st s, P st s → ∃ p st' s' ws, run_polls step polls st s = Some ((p, st'), s', ws) ∧
     match p with Ready a => Q a st' s' | Pending => P st' s' end.
Proof.
  intros Hstep polls. induction polls as [|cx polls IH]; intros st s HP; simpl.
  - by do 4 eexists.
  - destruct (Hstep cx st s HP) as (p & st1 & s1 & ws1 & E & Hp). unfold bind. rewrite E.
    destruct p as [a|]; [by do 4 eexists|].
    destruct (IH _ _ Hp) as (p & st2 & s2 & ws2 & E2 & ?). rewrite E2. by do 4 eexists.
Qed.

(** ** Machine integers *)

Definition usize_bits : Z := 64.
Definition u64_bits : Z := 64.
Definition usize_max : Z := 2 ^ usize_bits - 1.

(** [a + b] and [a - b] on [w]-bit unsigned integers, as Rust compiles the
    plain operators: checked in a debug build, wrapping in a release one. *)
Definition uadd `{BuildProfile} (w a b : Z) : option Z :=
  if a + b <? 2 ^ w then Some (a + b)
  else if debug_build then None else Some ((a + b) `mod` 2 ^ w).
Definition usub `{BuildProfile} (w a b : Z) : option Z :=
  if b <=? a then Some (a - b)
  else if debug_build then None else Some ((a - b) `mod` 2 ^ w).

Definition in_range (w a : Z) : Prop := 0 ≤ a < 2 ^ w.

Lemma uadd_in_range `{BuildProfile} w a b :
  a + b < 2 ^ w → uadd w a b = Some (a + b).
Proof. intros Hab. unfold uadd. by destruct (Z.ltb_spec (a + b) (2 ^ w)); [|lia]. Qed.

Lemma usub_in_range `{BuildProfile} w a b :
  b ≤ a → usub w a b = Some (a - b).
Proof. intros Hab. unfold usub. by destruct (Z.leb_spec b a); [|lia]. Qed.

Lemma uadd_range `{BuildProfile} w a b c :
  0 ≤ w → 0 ≤ a → 0 ≤ b → uadd w a b = Some c → in_range w c.
Proof.
  unfold uadd, in_range. intros.
  pose proof (Z.pow_pos_nonneg 2 w ltac:(lia) ltac:(lia)).
  destruct (Z.ltb_spec (a + b) (2 ^ w)); [simplify_eq; lia|].
  destruct debug_build; simplify_eq. by apply Z.mod_pos_bound.
Qed.

Lemma uadd_mod `{BuildProfile} w a b c :
  0 ≤ a + b → uadd w a b = Some c → c = (a + b) `mod` 2 ^ w.
Proof.
  unfold uadd. intros ?. destruct (Z.ltb_spec (a + b) (2 ^ w)).
  - intros [= <-]. by rewrite Z.mod_small by lia.
  - destruct debug_build; by intros; simplify_eq.
Qed.

Lemma usub_mod `{BuildProfile} w a b c :
  0 ≤ b → a < 2 ^ w → usub w a b = Some c → c = (a - b) `mod` 2 ^ w.
Proof.
  unfold usub. intros ??. destruct (Z.leb_spec b a).
  - intros [= <-]. by rewrite Z.mod_small by lia.
  - destruct debug_build; by intros; simplify_eq.
Qed.

(** ** Flag words *)

Definition has (s f : Z) : bool := negb (Z.land s f =? 0).
Definition not_u8 (f : Z) : Z := Z.land (Z.lnot f) 255.
Definition is_flag (f : Z) : Prop := ∃ k, 0 ≤ k < 8 ∧ f = 2 ^ k.

Lemma has_testbit s k : 0 ≤ k → has s (2 ^ k) = Z.testbit s k.
Proof.
  intros Hk. unfold has. destruct (Z.testbit s k) eqn:E.
  - apply negb_true_iff, Z.eqb_neq. intros H0.
    assert (Z.testbit (Z.land s (2 ^ k)) k = false) as Hf by (rewrite H0; apply Z.bits_0).
    by rewrite Z.land_spec, E, Z.pow2_bits_true in Hf.
  - apply negb_false_iff, Z.eqb_eq. apply Z.bits_inj_iff. intros n.
    rewrite Z.land_spec, Z.bits_0. destruct (decide (n = k)) as [->|].
    + by rewrite E.
    + rewrite Z.pow2_bits_false by done. by destruct (Z.testbit s n).
Qed.

Lemma has_lor s f g : is_flag g → has (Z.lor s f) g = has s g || has f g.
Proof. intros (k & Hk & ->). rewrite !has_testbit by lia. apply Z.lor_spec. Qed.

Lemma has_land s f g : is_flag g → has (Z.land s f) g = has s g && has f g.
Proof. intros (k & Hk & ->). rewrite !has_testbit by lia. apply Z.land_spec. Qed.

(** ** Lists *)

(** How many elements of a list satisfy a test. *)
Definition count {A} (p : A → bool) (l : list A) : nat := length (filter p l).

Lemma count_nil {A} (p : A → bool) : count p [] = 0%nat.
Proof. done. Qed.

Lemma count_cons {A} (p : A → bool) x l :
  count p (x :: l) = ((if p x then 1 else 0) + count p l)%nat.
Proof. unfold count. rewrite filter_cons. destruct (p x) eqn:E; case_decide; simpl; naive_solver. Qed.

Lemma count_app {A} (p : A → bool) l k : count p (l ++ k) = (count p l + count p k)%nat.
Proof. unfold count. by rewrite filter_app, length_app. Qed.

Lemma count_insert {A} (p : A → bool) l i x y :
  l !! i = Some x →
  (count p (<[i := y]> l) + (if p x then 1 else 0) = count p l + (if p y then 1 else 0))%nat.
Proof.
  revert i. induction l as [|z l IH]; intros [|i]; simpl; intros Hi; simplify_eq.
  - rewrite !count_cons. lia.
  - rewrite !count_cons. specialize (IH _ Hi). lia.
Qed.

Lemma count_pos {A} (p : A → bool) l i x :
  l !! i = Some x → p x = true → (1 ≤ count p l)%nat.
Proof.
  revert i. induction l as [|z l IH]; intros [|i] Hi Hp; simplify_eq/=; rewrite count_cons, ?Hp.
  - lia.
  - specialize (IH i Hi Hp). lia.
Qed.

Lemma count_lt {A} (p : A → bool) l i x :
  l !! i = Some x → p x = false → (count p l < length l)%nat.
Proof.
  revert i. induction l as [|z l IH]; intros [|i] Hi Hp; simplify_eq/=; rewrite count_cons.
  - rewrite Hp. unfold count. pose proof (length_filter (λ x, p x) l). lia.
  - specialize (IH i Hi Hp). destruct (p z); lia.
Qed.

Lemma count_two {A} (p : A → bool) l i j x y :
  i ≠ j → l !! i = Some x → l !! j = Some y → p x = true → p y = true →
  (2 ≤ count p l)%nat.
Proof.
  revert i j. induction l as [|z l IH]; intros [|i] [|j] Hij Hi Hj Hx Hy; simplify_eq/=;
    rewrite count_cons, ?Hx, ?Hy.
  - pose proof (count_pos p l j y Hj Hy). lia.
  - pose proof (count_pos p l i x Hi Hx). lia.
  - specialize (IH i j ltac:(congruence) Hi Hj Hx Hy). lia.
Qed.

Lemma count_exists {A} (l : list A) (p : A → bool) :
  count p l = 0%nat ∨ ∃ i x, l !! i = Some x ∧ p x = true.
Proof.
  induction l as [|y l IH]; [by left|]. rewrite count_cons.
  destruct (p y) eqn:Hy; [right; by exists 0%nat, y|].
  destruct IH as [->|(i & x & ? & ?)]; [by left|right; by exists (S i), x].
Qed.

(** How often an element occurs, as sums that [lia] can work with. *)
Definition is1 `{EqDecision A} (x e : A) : nat := if bool_decide (x = e) then 1 else 0.
Definition cnt `{EqDecision A} (e : A) (l : list A) : nat := count (λ x, bool_decide (x = e)) l.
Arguments is1 : simpl never.
Arguments cnt : simpl never.

Section cnt.
Context `{EqDecision A}.
Implicit Types (x e : A) (l k : list A).

Lemma cnt_app e l k : cnt e (l ++ k) = (cnt e l + cnt e k)%nat.
Proof. apply count_app. Qed.

Lemma cnt_cons e x l : cnt e (x :: l) = (is1 x e + cnt e l)%nat.
Proof. unfold cnt. rewrite count_cons. done. Qed.

Lemma cnt_nil e : cnt e [] = 0%nat.
Proof. done. Qed.

Lemma is1_same e : is1 e e = 1%nat.
Proof. unfold is1. by rewrite bool_decide_eq_true_2. Qed.

Lemma is1_ne x e : x ≠ e → is1 x e = 0%nat.
Proof. intros. unfold is1. by rewrite bool_decide_eq_false_2. Qed.

Lemma is1_pos x e : (1 ≤ is1 x e)%nat → x = e.
Proof. unfold is1. case_bool_decide; [done|lia]. Qed.

Lemma cnt_in e l : e ∈ l → (1 ≤ cnt e l)%nat.
Proof. intros (l1 & l2 & ->)%list_elem_of_split. rewrite cnt_app, cnt_cons, is1_same. lia. Qed.

Lemma cnt_pos e l : (1 ≤ cnt e l)%nat → e ∈ l.
Proof.
  induction l as [|x l IH]; [rewrite cnt_nil; lia|]. rewrite cnt_cons. intros Hc.
  destruct (decide (x = e)) as [->|Hne]; [left|]. rewrite is1_ne in Hc by done. right. by apply IH.
Qed.

Lemma cnt_NoDup e l : NoDup l → (cnt e l ≤ 1)%nat.
Proof.
  induction 1 as [|x l Hx _ IH]; [rewrite cnt_nil; lia|]. rewrite cnt_cons.
  destruct (decide (x = e)) as [->|Hne]; [|rewrite is1_ne by done; lia].
  rewrite is1_same. destruct (decide (1 ≤ cnt e l)%nat) as [Hc%cnt_pos|]; [done|lia].
Qed.
End cnt.

Lemma filter_all {A} (P : A → Prop) `{∀ x, Decision (P x)} l : Forall P l → filter P l = l.
Proof. induction 1; [done|]. rewrite filter_cons_True by done. by f_equal. Qed.

Lemma filter_none {A} (P : A → Prop) `{∀ x, Decision (P x)} l :
  Forall (λ x, ¬ P x) l → filter P l = [].
Proof. induction 1; [done|]. by rewrite filter_cons_False. Qed.

Lemma lookup_snoc_inv {A} (l : list A) x i y :
  (l ++ [x]) !! i = Some y → l !! i = Some y ∨ y = x.
Proof.
  intros [|[? Hx]]%lookup_app_Some; [by left|]. right.
  by apply list_lookup_singleton_Some in Hx as [].
Qed.

Lemma tail_drop {A} (l : list A) n : tail (drop n l) = drop (S n) l.
Proof. revert l. induction n as [|n IH]; intros [|x l]; [done..|]. apply IH. Qed.

Definition sumZ (l : list Z) : Z := foldr Z.add 0 l.

Lemma sumZ_app l k : sumZ (l ++ k) = sumZ l + sumZ k.
Proof. unfold sumZ. induction l; simpl; lia. Qed.

#[export] Instance sumZ_Permutation : Proper ((≡ₚ) ==> (=)) sumZ.
Proof. induction 1; simpl in *; unfold sumZ in *; simpl; lia. Qed.

Lemma sumZ_nonneg l : Forall (λ n, 0 ≤ n) l → 0 ≤ sumZ l.
Proof. unfold sumZ. induction 1; simpl; lia. Qed.

(** ** Maps of quantities *)

Section msum.
Context `{Countable K}.

Definition msum (m : gmap K Z) : Z := map_fold (λ _ n acc, n + acc) 0 m.

Lemma msum_empty : msum ∅ = 0.
Proof. apply map_fold_empty. Qed.

Lemma msum_insert m k n : m !! k = None → msum (<[k := n]> m) = n + msum m.
Proof. intros. unfold msum. rewrite map_fold_insert_L; [done| |done]. intros; lia. Qed.

Lemma msum_delete m k n : m !! k = Some n → msum m = n + msum (delete k m).
Proof. intros. unfold msum. rewrite (map_fold_delete_L _ 0 k n m); [done| |done]. intros; lia. Qed.

Lemma msum_nonneg m : (∀ k n, m !! k = Some n → 0 ≤ n) → 0 ≤ msum m.
Proof.
  induction m as [|k n m Hk IH] using map_ind; intros Hm; [by rewrite msum_empty|].
  rewrite msum_insert by done.
  assert (0 ≤ n) by (eapply Hm; by rewrite lookup_insert_eq).
  assert (0 ≤ msum m); [|lia]. apply IH. intros k' n' Hk'.
  eapply Hm. rewrite lookup_insert_ne; [done|]. by intros ->; simplify_map_eq.
Qed.
End msum.

(** ** Transition systems *)

Section transition.
Context {C : Type} (init : C → Prop) (step : relation C).

Definition reachable (c : C) : Prop := ∃ c0, init c0 ∧ rtc step c0 c.

(** The induction every safety theorem of the development goes through. *)
Lemma invariant_reachable (I : C → Prop) :
  (∀ c, init c → I c) → (∀ c c', I c → step c c' → I c') →
  ∀ c, reachable c → I c.
Proof.
  intros Hinit Hstep c (c0 & H0 & Hrtc). specialize (Hinit _ H0).
  clear H0. induction Hrtc; eauto.
Qed.

Lemma reachable_step c c' : reachable c → step c c' → reachable c'.
Proof. intros (c0 & H0 & Hr) Hs. exists c0. split; [done|]. by eapply rtc_r. Qed.

Lemma reachable_init c : init c → reachable c.
Proof. intros. exists c. split; [done|apply rtc_refl]. Qed.
End transition.

(** Transition systems whose steps are executable: [move] picks the step. *)
Section moves.
Context {C Mv : Type} (move : Mv → C → option C).

Definition moves : relation C := λ c c', ∃ m, move m c = Some c'.

Fixpoint run_moves (ms : list Mv) (c : C) : option C :=
  match ms with [] => Some c | m :: ms => match move m c with Some c => run_moves ms c | None => None end end.

Lemma run_moves_rtc (step : relation C) ms c c' :
  (∀ m c c', move m c = Some c' → step c c') → run_moves ms c = Some c' → rtc step c c'.
Proof.
  intros Hstep. revert c. induction ms as [|m ms IH]; simpl; intros c E; [by simplify_eq|].
  destruct (move m c) as [c1|] eqn:E1; [|done]. eapply rtc_l; [by eapply Hstep|]. by apply IH.
Qed.

Lemma run_moves_app ms1 ms2 c c1 c2 :
  run_moves ms1 c = Some c1 → run_moves ms2 c1 = Some c2 → run_moves (ms1 ++ ms2) c = Some c2.
Proof.
  revert c. induction ms1 as [|m ms1 IH]; simpl; intros c E1 E2; [by simplify_eq|].
  destruct (move m c); [|done]. by eapply IH.
Qed.

(** A run from the start that succeeds and whose end passes a test. *)
Lemma run_ends (init : C → Prop) (step : relation C) c0 (ms : list Mv) (P : C → Prop) (test : C → bool) :
  (∀ m c c', move m c = Some c' → step c c') → init c0 → (∀ c, test c = true → P c) →
  match run_moves ms c0 with Some c => test c | None => false end = true →
  ∃ c, reachable init step c ∧ P c.
Proof.
  intros Hstep H0 HP. destruct (run_moves ms c0) as [c|] eqn:E; [|done]. intros H. exists c.
  split; [|by apply HP]. exists c0. split; [done|]. by eapply run_moves_rtc.
Qed.
End moves.
