(* ===== verification/TaskState.v ===== *)
(** The atomic bit state of a task ([src/src/task/state.rs]).

    Every operation is a small automaton whose program points are the atomic
    accesses of the source: a [_pc] value says which access comes next and
    carries the locals ([state]) the code holds there, and a [_step] function
    performs exactly one access on the shared byte.  [Task.v] interleaves
    these automata; this file gives their uncontended behaviour. *)

From S2P Require Import Prelude.

Definition QUEUED : Z := Z.shiftl 1 0.
Definition RUNNING : Z := Z.shiftl 1 1.
Definition NOTIFIED : Z := Z.shiftl 1 2.
Definition COMPLETE : Z := Z.shiftl 1 3.
Definition ABORTED : Z := Z.shiftl 1 4.

Lemma flag_QUEUED : is_flag QUEUED. Proof. by exists 0. Qed.
Lemma flag_RUNNING : is_flag RUNNING. Proof. by exists 1. Qed.
Lemma flag_NOTIFIED : is_flag NOTIFIED. Proof. by exists 2. Qed.
Lemma flag_COMPLETE : is_flag COMPLETE. Proof. by exists 3. Qed.
Lemma flag_ABORTED : is_flag ABORTED. Proof. by exists 4. Qed.

Create HintDb task_flags.
#[export] Hint Resolve flag_QUEUED flag_RUNNING flag_NOTIFIED flag_COMPLETE flag_ABORTED
  : task_flags.

Inductive StateSnapshot := ShouldSchedule | NoOp.

#[export] Instance StateSnapshot_eq_dec : EqDecision StateSnapshot.
Proof. solve_decision. Defined.

(** The byte is its own state type: [AtomicU8]. *)
Definition new_state : Z := QUEUED.

Definition is_aborted (s : Z) : bool := has s ABORTED.

(** ** [State::begin_poll] *)

Inductive begin_poll_pc :=
| bp_load
| bp_cas (state : Z).

Definition begin_poll_step `{BuildProfile} (p : begin_poll_pc) (s : Z)
    : Z * next begin_poll_pc bool :=
  match p with
  | bp_load =>
      if debug_build && negb (has s QUEUED && negb (has s RUNNING))
      then (s, Panicked)
      else (s, Continue (bp_cas s))
  | bp_cas state =>
      let new := Z.lor (Z.land state (not_u8 (Z.lor QUEUED NOTIFIED))) RUNNING in
      if s =? state
      then (new, Return (negb (has state ABORTED)))
      else (s, Panicked)
  end.

(** ** [State::end_poll] *)

Inductive end_poll_pc :=
| ep_or_complete
| ep_and_not_running
| ep_load
| ep_cas (state : Z).

Definition end_poll (ready : bool) : end_poll_pc :=
  if ready then ep_or_complete else ep_load.

Definition end_poll_step (p : end_poll_pc) (s : Z) : Z * next end_poll_pc bool :=
  match p with
  | ep_or_complete => (Z.lor s COMPLETE, Continue ep_and_not_running)
  | ep_and_not_running => (Z.land s (not_u8 RUNNING), Return false)
  | ep_load => (s, Continue (ep_cas s))
  | ep_cas state =>
      if has state NOTIFIED then
        let new := Z.lor (Z.land state (not_u8 (Z.lor RUNNING NOTIFIED))) QUEUED in
        if s =? state then (new, Return true) else (s, Continue (ep_cas s))
      else
        let new := Z.land state (not_u8 RUNNING) in
        if s =? state then (new, Return false) else (s, Continue (ep_cas s))
  end.

(** ** [State::wake]

    [wake_examine] is the top of the loop body: what the code decides from
    the value it holds before it attempts its next [compare_exchange]. *)

Inductive wake_pc :=
| wk_load
| wk_cas (state : Z).

Definition wake_examine (state : Z) : next wake_pc StateSnapshot :=
  if has state COMPLETE then Return NoOp
  else if has state RUNNING then
    if has state NOTIFIED then Return NoOp else Continue (wk_cas state)
  else if has state QUEUED then Return NoOp
  else Continue (wk_cas state).

Definition wake_step (p : wake_pc) (s : Z) : Z * next wake_pc StateSnapshot :=
  match p with
  | wk_load => (s, wake_examine s)
  | wk_cas state =>
      if s =? state then
        if has state RUNNING
        then (Z.lor state NOTIFIED, Return NoOp)
        else (Z.lor state QUEUED, Return ShouldSchedule)
      else (s, wake_examine s)
  end.

(** ** [State::request_abort] *)

Inductive request_abort_pc :=
| ra_or
| ra_wake (p : wake_pc).

Definition request_abort_step (p : request_abort_pc) (s : Z)
    : Z * next request_abort_pc bool :=
  match p with
  | ra_or =>
      let new := Z.lor s ABORTED in
      if has s COMPLETE || has s ABORTED
      then (new, Return false)
      else (new, Continue (ra_wake wk_load))
  | ra_wake p =>
      match wake_step p s with
      | (s', Continue p') => (s', Continue (ra_wake p'))
      | (s', Return r) => (s', Return (bool_decide (r = ShouldSchedule)))
      | (s', Panicked) => (s', Panicked)
      end
  end.

(** ** Flag reasoning *)

(** Push [has] through the flag arithmetic of the operations, then evaluate
    the tests between constants. *)
Lemma has_set s f g : is_flag g → has (Z.lor s f) g = has s g || has f g.
Proof. apply has_lor. Qed.

Lemma has_clear s f g : is_flag g → has (Z.land s (not_u8 f)) g = has s g && has (not_u8 f) g.
Proof. apply has_land. Qed.

Ltac eval_flag_tests :=
  repeat match goal with
  | |- context [has ?f ?g] =>
      first [is_const f | lazymatch f with not_u8 _ => idtac | Z.lor _ _ => idtac end];
      is_const g;
      let b := eval vm_compute in (has f g) in
      lazymatch b with true => idtac | false => idtac end;
      change (has f g) with b
  end.

Ltac flags :=
  repeat first [rewrite has_set by eauto with task_flags
               |rewrite has_clear by eauto with task_flags];
  eval_flag_tests;
  rewrite ?andb_true_r, ?andb_false_r, ?orb_true_r, ?orb_false_r.

Ltac flags_in H := revert H; flags; intros H.

(** ** Uncontended execution *)

(** Run an automaton with no interference from other threads, at most [n]
    accesses. *)
Fixpoint run_alone {P A} (step : P → Z → Z * next P A) (n : nat) (p : P) (s : Z)
    : option (Z * A) :=
  match n with
  | O => None
  | S n =>
      match step p s with
      | (s', Continue p') => run_alone step n p' s'
      | (s', Return a) => Some (s', a)
      | (_, Panicked) => None
      end
  end.

Example fresh_state_is_queued_and_pollable :
  run_alone (@begin_poll_step dev_profile) 2 bp_load new_state = Some (RUNNING, true).
Proof. reflexivity. Qed.

Example abort_before_first_poll :
  run_alone request_abort_step 2 ra_or new_state = Some (Z.lor QUEUED ABORTED, false) ∧
  run_alone (@begin_poll_step dev_profile) 2 bp_load (Z.lor QUEUED ABORTED)
    = Some (Z.lor RUNNING ABORTED, false).
Proof. split; reflexivity. Qed.

(** What an uncontended [wake] answers and does, on each branch. *)
Definition wake_spec (s : Z) : Z * StateSnapshot :=
  if has s COMPLETE then (s, NoOp)
  else if has s RUNNING then (Z.lor s NOTIFIED, NoOp)
  else if has s QUEUED then (s, NoOp)
  else (Z.lor s QUEUED, ShouldSchedule).

Lemma lor_absorb s f : is_flag f → has s f = true → Z.lor s f = s.
Proof.
  intros (k & Hk & ->). rewrite has_testbit by lia. intros Hb.
  apply Z.bits_inj_iff. intros n. rewrite Z.lor_spec.
  destruct (decide (n = k)) as [->|]; [by rewrite Hb|].
  by rewrite Z.pow2_bits_false, orb_false_r by done.
Qed.

Lemma wake_alone s : run_alone wake_step 2 wk_load s = Some (wake_spec s).
Proof.
  unfold wake_spec; simpl; unfold wake_examine.
  destruct (has s COMPLETE) eqn:HC; [done|].
  destruct (has s RUNNING) eqn:HR; simpl.
  - destruct (has s NOTIFIED) eqn:HN; simpl.
    + by rewrite lor_absorb by eauto with task_flags.
    + by rewrite Z.eqb_refl, HR.
  - destruct (has s QUEUED) eqn:HQ; simpl; [done|]. by rewrite Z.eqb_refl, HR.
Qed.

Definition end_poll_spec (ready : bool) (s : Z) : Z * bool :=
  if ready then (Z.land (Z.lor s COMPLETE) (not_u8 RUNNING), false)
  else if has s NOTIFIED
       then (Z.lor (Z.land s (not_u8 (Z.lor RUNNING NOTIFIED))) QUEUED, true)
       else (Z.land s (not_u8 RUNNING), false).

Lemma end_poll_alone ready s :
  run_alone end_poll_step 2 (end_poll ready) s = Some (end_poll_spec ready s).
Proof.
  destruct ready; simpl; [done|].
  unfold end_poll_spec; simpl. rewrite Z.eqb_refl. by destruct (has s NOTIFIED).
Qed.
