(* ===== verification/Task.v ===== *)
(** Tasks ([src/src/task/mod.rs]): [Task::run], wakers, aborts, and the
    interleaving of any number of worker, waker and aborter threads on one
    task.

    A thread is the program point it has reached; each step performs one
    atomic access of [TaskState] or one [Mutex] critical section of
    [Task::run].  Threads are never removed from the configuration, so the
    ones that have returned (or panicked) stay visible to the theorems. *)

From S2P Require Import Prelude TaskState.

(** Why a task ended ([join::Outcome]); [Completed] is the normal path, where
    the wrapped future itself calls [JoinInner::complete]. *)
Inductive Outcome := Completed | Aborted | PanickedWith.

#[export] Instance Outcome_eq_dec : EqDecision Outcome.
Proof. solve_decision. Defined.

(** The fields of [Task] that change.  [scheduler] is the [Weak<Shared>]:
    [None] once the scheduler is gone, otherwise the number of entries of this
    task in its run queues.  [notified] lists the calls this task made into
    its [JoinInner] and [task_finished] counts those into [Shared]. *)
Record Task := mkTask {
  state : Z;
  future : bool;
  abnormal_hook : bool;
  scheduler : option nat;
  notified : list Outcome;
  task_finished : nat;
}.

Definition set_state (t : Task) (s : Z) : Task :=
  mkTask s t.(future) t.(abnormal_hook) t.(scheduler) t.(notified) t.(task_finished).
Definition set_future (t : Task) (b : bool) : Task :=
  mkTask t.(state) b t.(abnormal_hook) t.(scheduler) t.(notified) t.(task_finished).
Definition set_scheduler (t : Task) (q : option nat) : Task :=
  mkTask t.(state) t.(future) t.(abnormal_hook) q t.(notified) t.(task_finished).
Definition notify_join (t : Task) (o : Outcome) : Task :=
  mkTask t.(state) t.(future) t.(abnormal_hook) t.(scheduler) (t.(notified) ++ [o]) t.(task_finished).
Definition take_abnormal_hook (t : Task) : Task :=
  mkTask t.(state) t.(future) false t.(scheduler) t.(notified) t.(task_finished).

(** [Task::schedule]: push one entry if the scheduler is still there. *)
Definition schedule (t : Task) : Task :=
  match t.(scheduler) with
  | Some n => set_scheduler t (Some (S n))
  | None => t
  end.

(** [Task::mark_finished]. *)
Definition mark_finished (t : Task) : Task :=
  match t.(scheduler) with
  | Some _ => mkTask t.(state) t.(future) t.(abnormal_hook) t.(scheduler) t.(notified)
                     (S t.(task_finished))
  | None => t
  end.

(** [Task::fire_abnormal_hook]: the hook is an [Option] taken once. *)
Definition fire_abnormal_hook (o : Outcome) (t : Task) : Task :=
  if t.(abnormal_hook) then notify_join (take_abnormal_hook t) o else t.

(** [spawn_named]: a fresh task, handed to the scheduler by its creator. *)
Definition spawn_named : Task :=
  schedule (mkTask new_state true true (Some O) [] O).

(** ** [Task::run] *)

(** Where [run] calls [end_poll] from, which decides what follows. *)
Inductive ending := end_aborted | end_ready | end_pending | end_panicked.

Inductive run_pc :=
| r_begin (p : begin_poll_pc)
| r_unpolled_take
| r_unpolled_fire
| r_unpolled_mark
| r_unpolled_return
| r_check_aborted
| r_aborted_take
| r_take_slot
| r_poll
| r_put_back
| r_drop_panicked
| r_end (k : ending) (p : end_poll_pc)
| r_fire (o : Outcome)
| r_take_hook
| r_mark
| r_return_finished
| r_schedule
| r_return
| r_panicked.

(** What [future.poll] did: the one answer the code does not decide. *)
Inductive poll_answer := polled_ready | polled_pending | polled_panic.

(** What [run] does once [end_poll] returned [woken]. *)
Definition after_end (k : ending) (woken : bool) : run_pc :=
  match k with
  | end_aborted => r_fire Aborted
  | end_ready => r_take_hook
  | end_pending => if woken then r_schedule else r_return
  | end_panicked => r_fire PanickedWith
  end.

Definition run_step `{BuildProfile} (a : poll_answer) (p : run_pc) (t : Task)
    : Task * run_pc :=
  match p with
  | r_begin b =>
      match begin_poll_step b t.(state) with
      | (s, Continue b') => (set_state t s, r_begin b')
      | (s, Return true) => (set_state t s, r_check_aborted)
      | (s, Return false) => (set_state t s, r_unpolled_take)
      | (s, Panicked) => (set_state t s, r_panicked)
      end
  | r_unpolled_take => (set_future t false, r_unpolled_fire)
  | r_unpolled_fire => (fire_abnormal_hook Aborted t, r_unpolled_mark)
  | r_unpolled_mark => (mark_finished t, r_unpolled_return)
  | r_check_aborted =>
      (t, if is_aborted t.(state) then r_aborted_take else r_take_slot)
  | r_aborted_take => (set_future t false, r_end end_aborted (end_poll true))
  | r_take_slot =>
      if t.(future)
      then (set_future t false, r_poll)
      else (t, r_end end_aborted (end_poll true))
  | r_poll =>
      match a with
      | polled_ready => (notify_join t Completed, r_end end_ready (end_poll true))
      | polled_pending => (t, r_put_back)
      | polled_panic => (t, r_drop_panicked)
      end
  | r_put_back => (set_future t true, r_end end_pending (end_poll false))
  | r_drop_panicked => (set_future t false, r_end end_panicked (end_poll true))
  | r_end k e =>
      match end_poll_step e t.(state) with
      | (s, Continue e') => (set_state t s, r_end k e')
      | (s, Return woken) => (set_state t s, after_end k woken)
      | (s, Panicked) => (set_state t s, r_panicked)
      end
  | r_fire o => (fire_abnormal_hook o t, r_mark)
  | r_take_hook => (take_abnormal_hook t, r_mark)
  | r_mark => (mark_finished t, r_return_finished)
  | r_schedule => (schedule t, r_return)
  | r_unpolled_return | r_return_finished | r_return | r_panicked => (t, p)
  end.

(** ** Wakers and aborters

    [Wake::wake_by_ref] and [Task::abort]. *)

Inductive wake_by_ref_pc :=
| w_wake (p : wake_pc)
| w_schedule
| w_return
| w_panicked.

Definition wake_by_ref_step (p : wake_by_ref_pc) (t : Task) : Task * wake_by_ref_pc :=
  match p with
  | w_wake k =>
      match wake_step k t.(state) with
      | (s, Continue k') => (set_state t s, w_wake k')
      | (s, Return ShouldSchedule) => (set_state t s, w_schedule)
      | (s, Return NoOp) => (set_state t s, w_return)
      | (s, Panicked) => (set_state t s, w_return)
      end
  | w_schedule => (schedule t, w_return)
  | w_return | w_panicked => (t, p)
  end.

Inductive abort_pc :=
| a_request (p : request_abort_pc)
| a_schedule
| a_return
| a_panicked.

Definition abort_step (p : abort_pc) (t : Task) : Task * abort_pc :=
  match p with
  | a_request k =>
      match request_abort_step k t.(state) with
      | (s, Continue k') => (set_state t s, a_request k')
      | (s, Return true) => (set_state t s, a_schedule)
      | (s, Return false) => (set_state t s, a_return)
      | (s, Panicked) => (set_state t s, a_return)
      end
  | a_schedule => (schedule t, a_return)
  | a_return | a_panicked => (t, p)
  end.

(** ** Interleaving *)

Inductive thread :=
| T_run (p : run_pc)
| T_wake (p : wake_by_ref_pc)
| T_abort (p : abort_pc).

Definition thread_step `{BuildProfile} (a : poll_answer) (th : thread) (t : Task)
    : Task * thread :=
  match th with
  | T_run p => let '(t', p') := run_step a p t in (t', T_run p')
  | T_wake p => let '(t', p') := wake_by_ref_step p t in (t', T_wake p')
  | T_abort p => let '(t', p') := abort_step p t in (t', T_abort p')
  end.

(** [Shared::schedule] can panic: on a thread inside the [block_on] of a
    current-thread runtime, for the task of a multi-threaded one (theorem
    schedule_inside_block_on_panics of Scheduler.v).  The waker or aborter then
    unwinds with the task not queued.  A worker that schedules the task it has
    just polled is on a thread of the task's own runtime. *)
Definition schedule_panics (th : thread) : option thread :=
  match th with
  | T_wake w_schedule => Some (T_wake w_panicked)
  | T_abort a_schedule => Some (T_abort a_panicked)
  | _ => None
  end.

(** [owed] is a ghost: a wake has taken effect since the last poll began.  It
    is raised by the access at which a call of [State::wake] decides its
    answer and lowered by the one at which [begin_poll] claims the task. *)
Definition owed_after (th th' : thread) (owed : bool) : bool :=
  match th, th' with
  | T_wake (w_wake _), T_wake (w_schedule | w_return) => true
  | T_abort (a_request (ra_wake _)), T_abort (a_schedule | a_return) => true
  | T_run (r_begin _), T_run (r_check_aborted | r_unpolled_take) => false
  | _, _ => owed
  end.

Record config := mkConfig {
  task : Task;
  threads : list thread;
  owed : bool;
}.

Definition config_init : config := mkConfig spawn_named [] false.

Inductive step `{BuildProfile} : config → config → Prop :=
| step_thread i th a c t' th' :
    c.(threads) !! i = Some th →
    thread_step a th c.(task) = (t', th') →
    step c (mkConfig t' (<[i := th']> c.(threads)) (owed_after th th' c.(owed)))
| step_wake c :
    step c (mkConfig c.(task) (c.(threads) ++ [T_wake (w_wake wk_load)]) c.(owed))
| step_abort c :
    step c (mkConfig c.(task) (c.(threads) ++ [T_abort (a_request ra_or)]) c.(owed))
| step_dequeue c n :
    c.(task).(scheduler) = Some (S n) →
    step c (mkConfig (set_scheduler c.(task) (Some n))
                     (c.(threads) ++ [T_run (r_begin bp_load)]) c.(owed))
| step_schedule_panics i th c th' :
    c.(threads) !! i = Some th → schedule_panics th = Some th' →
    step c (mkConfig c.(task) (<[i := th']> c.(threads)) c.(owed))
| step_drop_scheduler c :
    step c (mkConfig (set_scheduler c.(task) None) c.(threads) c.(owed)).

Definition run_reachable `{BuildProfile} : config → Prop :=
  reachable (.= config_init) step.

(** ** The invariant *)

(** What a thread holds: the QUEUED token (it is about to push the task on a
    run queue, or has just popped it), the RUNNING bit, or the right to
    report the task's end.  A worker that died in [begin_poll]'s [expect], or a
    waker that panicked in [schedule], never gives its token back: it holds it,
    but will do nothing with it. *)
Inductive role := queue_token | running | reporting | bystander.

#[export] Instance role_eq_dec : EqDecision role.
Proof. solve_decision. Defined.

Definition thread_role (th : thread) : role :=
  match th with
  | T_run (r_begin _ | r_schedule | r_panicked) => queue_token
  | T_run (r_unpolled_take | r_unpolled_fire | r_unpolled_mark | r_unpolled_return
          | r_check_aborted | r_aborted_take | r_take_slot | r_poll | r_put_back
          | r_drop_panicked | r_end _ _) => running
  | T_run (r_fire _ | r_take_hook | r_mark | r_return_finished) => reporting
  | T_run r_return => bystander
  | T_wake (w_schedule | w_panicked) | T_abort (a_schedule | a_panicked) => queue_token
  | T_wake _ | T_abort _ => bystander
  end.

Definition holds (r : role) (th : thread) : bool := bool_decide (thread_role th = r).
Definition aborter (th : thread) : bool :=
  match th with T_abort _ => true | _ => false end.

Definition b2n (b : bool) : nat := if b then 1 else 0.

(** The task as [spawn] made it, as far as its end is concerned. *)
Definition pristine (t : Task) : Prop :=
  t.(future) = true ∧ t.(abnormal_hook) = true ∧ t.(notified) = [] ∧ t.(task_finished) = O.
Definition in_hand (t : Task) : Prop :=
  t.(future) = false ∧ t.(abnormal_hook) = true ∧ t.(notified) = [] ∧ t.(task_finished) = O.
Definition reported (n : nat) (t : Task) : Prop :=
  t.(future) = false ∧ (∃ o, t.(notified) = [o]) ∧ t.(abnormal_hook) = false ∧
  (t.(task_finished) ≤ n)%nat.

(** What each program point of [run] knows about the task it owns. *)
Definition run_knows (p : run_pc) (t : Task) : Prop :=
  match p with
  | r_unpolled_take => pristine t ∧ has t.(state) COMPLETE = false
  | r_unpolled_fire => in_hand t ∧ has t.(state) COMPLETE = false
  | r_unpolled_mark => reported 0 t ∧ has t.(state) COMPLETE = false
  | r_unpolled_return => reported 1 t ∧ has t.(state) COMPLETE = false
  | r_check_aborted | r_take_slot => pristine t ∧ has t.(state) COMPLETE = false
  | r_aborted_take => pristine t ∧ has t.(state) COMPLETE = false
  | r_poll | r_put_back | r_drop_panicked => in_hand t ∧ has t.(state) COMPLETE = false
  | r_end end_pending (ep_load | ep_cas _) => pristine t ∧ has t.(state) COMPLETE = false
  | r_end (end_aborted | end_panicked) ep_or_complete =>
      in_hand t ∧ has t.(state) COMPLETE = false
  | r_end (end_aborted | end_panicked) ep_and_not_running =>
      in_hand t ∧ has t.(state) COMPLETE = true
  | r_end end_ready ep_or_complete =>
      t.(future) = false ∧ t.(abnormal_hook) = true ∧ t.(notified) = [Completed] ∧
      t.(task_finished) = O ∧ has t.(state) COMPLETE = false
  | r_end end_ready ep_and_not_running =>
      t.(future) = false ∧ t.(abnormal_hook) = true ∧ t.(notified) = [Completed] ∧
      t.(task_finished) = O ∧ has t.(state) COMPLETE = true
  | r_end _ _ => False
  | r_fire o => in_hand t
  | r_take_hook =>
      t.(future) = false ∧ t.(abnormal_hook) = true ∧ t.(notified) = [Completed] ∧
      t.(task_finished) = O
  | r_mark => reported 0 t
  | r_return_finished => reported 1 t
  | r_begin _ | r_schedule | r_return | r_panicked => True
  end.

(** A [wake] that is about to [compare_exchange] saw a state that needs it. *)
Definition wake_knows (p : wake_pc) : Prop :=
  match p with
  | wk_load => True
  | wk_cas v => wake_examine v = Continue (wk_cas v)
  end.

(** The value [begin_poll] loaded is still there, unless an abort has flagged
    the task in between. *)
Definition begin_knows (v s : Z) (aborters : Prop) : Prop :=
  v = s ∨ (aborters ∧ s = Z.lor v ABORTED).

Definition thread_knows (aborters : Prop) (th : thread) (t : Task) : Prop :=
  match th with
  | T_run (r_begin (bp_cas v)) => begin_knows v t.(state) aborters
  | T_run p => run_knows p t
  | T_wake (w_wake k) | T_abort (a_request (ra_wake k)) => wake_knows k
  | _ => True
  end.

Definition has_aborter (ths : list thread) : Prop :=
  ∃ i th, ths !! i = Some th ∧ aborter th = true.

Definition queue_len (t : Task) : nat :=
  match t.(scheduler) with Some n => n | None => O end.

Record Inv (c : config) : Prop := {
  inv_queue_le : (queue_len c.(task) + count (holds queue_token) c.(threads)
                  ≤ b2n (has c.(task).(state) QUEUED))%nat;
  inv_queue_eq : c.(task).(scheduler) ≠ None →
    (queue_len c.(task) + count (holds queue_token) c.(threads)
     = b2n (has c.(task).(state) QUEUED))%nat;
  inv_running : count (holds running) c.(threads) = b2n (has c.(task).(state) RUNNING);
  inv_reporting : count (holds reporting) c.(threads)
    = b2n (has c.(task).(state) COMPLETE && negb (has c.(task).(state) RUNNING));
  inv_bits : has c.(task).(state) QUEUED = true →
    has c.(task).(state) RUNNING = false ∧ has c.(task).(state) COMPLETE = false;
  inv_idle : has c.(task).(state) RUNNING = false →
    has c.(task).(state) COMPLETE = false → pristine c.(task);
  inv_threads : ∀ i th, c.(threads) !! i = Some th →
    thread_knows (has_aborter c.(threads)) th c.(task);
  inv_owed : c.(owed) = true →
    has c.(task).(state) QUEUED = true ∨ has c.(task).(state) COMPLETE = true ∨
    (has c.(task).(state) RUNNING = true ∧ has c.(task).(state) NOTIFIED = true);
  inv_panicked : ∀ i, c.(threads) !! i = Some (T_run r_panicked) → has_aborter c.(threads);
}.

(** Two states of the task that agree on everything its end is about. *)
Definition same_end (t t' : Task) : Prop :=
  t'.(future) = t.(future) ∧ t'.(abnormal_hook) = t.(abnormal_hook) ∧
  t'.(notified) = t.(notified) ∧ t'.(task_finished) = t.(task_finished) ∧
  has t'.(state) COMPLETE = has t.(state) COMPLETE.

Lemma run_knows_same p t t' : same_end t t' → run_knows p t → run_knows p t'.
Proof.
  intros (Hf & Hh & Hn & Hd & Hc). unfold run_knows, pristine, in_hand, reported.
  destruct p as [| | | | | | | | | | |[] []| | | | | | |]; rewrite ?Hf, ?Hh, ?Hn, ?Hd, ?Hc; done.
Qed.

(** A thread keeps what it knows across a step of another thread, provided
    the step left alone what its role entitles it to. *)
Lemma thread_knows_frame (A A' : Prop) th t t' :
  (A → A') →
  (thread_role th = running ∨ thread_role th = reporting → same_end t t') →
  (thread_role th = queue_token → ∀ v, begin_knows v t.(state) A → begin_knows v t'.(state) A') →
  thread_knows A th t → thread_knows A' th t'.
Proof.
  intros HA Hend Hq. destruct th as [p|[]|[[]| | |]]; try done.
  destruct p as [[|v]| | | | | | | | | | | | | | | | | |];
    lazymatch goal with
    | |- thread_knows _ (T_run (r_begin (bp_cas _))) _ → _ => by apply Hq
    | |- thread_knows _ (T_run ?p) _ → _ =>
        first [exact (λ _, I)
              |exact (run_knows_same p t t' (Hend (or_introl eq_refl)))
              |exact (run_knows_same p t t' (Hend (or_intror eq_refl)))]
    end.
Qed.

Lemma has_aborter_insert ths i th th' :
  ths !! i = Some th → aborter th' = aborter th →
  has_aborter ths → has_aborter (<[i := th']> ths).
Proof.
  intros Hi Ha (j & th2 & Hj & H2). destruct (decide (i = j)) as [->|].
  - exists j, th'. rewrite list_lookup_insert_eq by (by eapply lookup_lt_Some).
    split; [done|]. congruence.
  - exists j, th2. by rewrite list_lookup_insert_ne.
Qed.

Lemma thread_step_aborter `{BuildProfile} a th t t' th' :
  thread_step a th t = (t', th') → aborter th' = aborter th.
Proof.
  destruct th; simpl; [destruct (run_step a p t)|destruct (wake_by_ref_step p t)
    |destruct (abort_step p t)]; intros; by simplify_eq.
Qed.

Lemma begin_knows_abort v s (A : Prop) :
  A → begin_knows v s A → begin_knows v (Z.lor s ABORTED) A.
Proof.
  intros HA [->|[_ ->]]; right; [done|]. split; [done|].
  rewrite <- Z.lor_assoc. by rewrite Z.lor_diag.
Qed.

Definition held (r : role) (th : thread) : nat := b2n (holds r th).

Lemma count_held r ths i th th' :
  ths !! i = Some th →
  (count (holds r) (<[i := th']> ths) + held r th = count (holds r) ths + held r th')%nat.
Proof. apply count_insert. Qed.

Lemma held_count r ths i th :
  ths !! i = Some th → thread_role th = r → (1 ≤ count (holds r) ths)%nat.
Proof. intros Hi Hr. eapply count_pos; [done|]. by apply bool_decide_eq_true_2. Qed.

Section inv_facts.
Context (c : config) (HI : Inv c).

Lemma inv_token_bits i th :
  c.(threads) !! i = Some th → thread_role th = queue_token →
  has c.(task).(state) QUEUED = true ∧ has c.(task).(state) RUNNING = false ∧ has c.(task).(state) COMPLETE = false.
Proof.
  intros Hi Hr. pose proof (held_count _ _ _ _ Hi Hr). destruct HI.
  destruct (has c.(task).(state) QUEUED); simpl in *; [naive_solver|lia].
Qed.

Lemma inv_running_bits i th :
  c.(threads) !! i = Some th → thread_role th = running →
  has c.(task).(state) RUNNING = true ∧ has c.(task).(state) QUEUED = false.
Proof.
  intros Hi Hr. pose proof (held_count _ _ _ _ Hi Hr). destruct HI.
  destruct (has c.(task).(state) RUNNING) eqn:HR; simpl in *; [|lia].
  destruct (has c.(task).(state) QUEUED); naive_solver.
Qed.

Lemma inv_reporting_bits i th :
  c.(threads) !! i = Some th → thread_role th = reporting →
  has c.(task).(state) COMPLETE = true ∧ has c.(task).(state) RUNNING = false ∧ has c.(task).(state) QUEUED = false.
Proof.
  intros Hi Hr. pose proof (held_count _ _ _ _ Hi Hr). destruct HI.
  destruct (has c.(task).(state) QUEUED) eqn:?, (has c.(task).(state) COMPLETE) eqn:HC, (has c.(task).(state) RUNNING) eqn:HR;
    simpl in *; naive_solver lia.
Qed.

Lemma inv_owner_unique i j th th' :
  c.(threads) !! i = Some th → c.(threads) !! j = Some th' →
  thread_role th ∈ [running; reporting] → thread_role th' ∈ [running; reporting] → i = j.
Proof.
  intros Hi Hj Hr Hr'. destruct (decide (i = j)) as [|Hne]; [done|]. exfalso.
  assert (∀ r, thread_role th = r → thread_role th' = r →
    (2 ≤ count (holds r) c.(threads))%nat) as H2.
  { intros r ??. eapply count_two; [exact Hne|exact Hi|exact Hj|..];
      by apply bool_decide_eq_true_2. }
  destruct HI. set_unfold in Hr. set_unfold in Hr'.
  destruct Hr as [Hr|[Hr|[]]], Hr' as [Hr'|[Hr'|[]]].
  - specialize (H2 _ Hr Hr'). destruct (has c.(task).(state) RUNNING); simpl in *; lia.
  - pose proof (inv_running_bits _ _ Hi Hr). pose proof (inv_reporting_bits _ _ Hj Hr').
    intuition congruence.
  - pose proof (inv_reporting_bits _ _ Hi Hr). pose proof (inv_running_bits _ _ Hj Hr').
    intuition congruence.
  - specialize (H2 _ Hr Hr').
    destruct (has c.(task).(state) COMPLETE && negb (has c.(task).(state) RUNNING)); simpl in *; lia.
Qed.

Lemma inv_token_unique i j th th' :
  c.(threads) !! i = Some th → c.(threads) !! j = Some th' →
  thread_role th = queue_token → thread_role th' = queue_token → i = j.
Proof.
  intros Hi Hj Hr Hr'. destruct (decide (i = j)) as [|Hne]; [done|]. exfalso.
  assert (2 ≤ count (holds queue_token) c.(threads))%nat as H2.
  { eapply count_two; [exact Hne|exact Hi|exact Hj|..]; by apply bool_decide_eq_true_2. }
  destruct HI. destruct (has c.(task).(state) QUEUED); simpl in *; lia.
Qed.
End inv_facts.

(** What a step of one thread has to satisfy to preserve the invariant. *)
Record step_ok (c : config) (th : thread) (t' : Task) (th' : thread) (o' : bool) : Prop := {
  so_queue_le : (queue_len t' + held queue_token th' + b2n (has c.(task).(state) QUEUED)
    ≤ queue_len c.(task) + held queue_token th + b2n (has t'.(state) QUEUED))%nat;
  so_queue_eq : t'.(scheduler) ≠ None → c.(task).(scheduler) ≠ None ∧
    (queue_len t' + held queue_token th' + b2n (has c.(task).(state) QUEUED)
    = queue_len c.(task) + held queue_token th + b2n (has t'.(state) QUEUED))%nat;
  so_running : (held running th' + b2n (has c.(task).(state) RUNNING)
    = held running th + b2n (has t'.(state) RUNNING))%nat;
  so_reporting : (held reporting th'
      + b2n (has c.(task).(state) COMPLETE && negb (has c.(task).(state) RUNNING))
    = held reporting th + b2n (has t'.(state) COMPLETE && negb (has t'.(state) RUNNING)))%nat;
  so_bits : has t'.(state) QUEUED = true →
    has t'.(state) RUNNING = false ∧ has t'.(state) COMPLETE = false;
  so_idle : has t'.(state) RUNNING = false → has t'.(state) COMPLETE = false → pristine t';
  so_knows : thread_knows (has_aborter c.(threads)) th' t';
  so_end : thread_role th ∈ [running; reporting] ∨ same_end c.(task) t';
  so_begin : t'.(state) = c.(task).(state) ∨ thread_role th = queue_token ∨
    has c.(task).(state) QUEUED = false ∨
    (aborter th = true ∧ t'.(state) = Z.lor c.(task).(state) ABORTED);
  so_owed : o' = true →
    has t'.(state) QUEUED = true ∨ has t'.(state) COMPLETE = true ∨
    (has t'.(state) RUNNING = true ∧ has t'.(state) NOTIFIED = true);
  so_panicked : th' = T_run r_panicked → has_aborter c.(threads);
}.

Lemma step_ok_inv c i th t' th' o' :
  Inv c → c.(threads) !! i = Some th → aborter th' = aborter th →
  step_ok c th t' th' o' → Inv (mkConfig t' (<[i := th']> c.(threads)) o').
Proof.
  intros HI Hi Hab [Sle Seq Srun Srep Sbits Sidle Sknows Send Sbegin Sowed Span].
  pose proof (count_held queue_token _ _ _ th' Hi).
  pose proof (count_held running _ _ _ th' Hi).
  pose proof (count_held reporting _ _ _ th' Hi).
  assert (has_aborter c.(threads) → has_aborter (<[i := th']> c.(threads))) as HA
    by (by eapply has_aborter_insert).
  pose proof (inv_queue_le _ HI). pose proof (inv_queue_eq _ HI).
  pose proof (inv_running _ HI). pose proof (inv_reporting _ HI).
  split; simpl; try done; try lia.
  - intros Hs. destruct (Seq Hs) as [Hs' ?]. specialize (H3 Hs'). lia.
  - intros j thj Hj. destruct (decide (i = j)) as [<-|Hne].
    + rewrite list_lookup_insert_eq in Hj by (by eapply lookup_lt_Some). simplify_eq.
      eapply thread_knows_frame; [exact HA| | |exact Sknows].
      * intros _. by repeat split.
      * intros _ v [|[]]; [by left|right; auto].
    + rewrite list_lookup_insert_ne in Hj by done.
      eapply thread_knows_frame; [exact HA| | |exact (inv_threads _ HI _ _ Hj)].
      * intros Hr. destruct Send as [Ho|?]; [|done]. exfalso. apply Hne.
        eapply (inv_owner_unique c HI i j); eauto. set_solver.
      * intros Hr v Hv. destruct Sbegin as [Heq|[Hq|[Hq|[Hab' Heq]]]].
        -- rewrite Heq. destruct Hv as [|[]]; [by left|right; auto].
        -- exfalso. apply Hne. by eapply (inv_token_unique c HI i j).
        -- pose proof (inv_token_bits c HI _ _ Hj Hr). intuition congruence.
        -- rewrite Heq. apply begin_knows_abort; [apply HA; by exists i, th|].
           destruct Hv as [|[]]; [by left|right; auto].
  - intros j Hj. destruct (decide (i = j)) as [<-|Hne].
    + rewrite list_lookup_insert_eq in Hj by (by eapply lookup_lt_Some). simplify_eq. auto.
    + rewrite list_lookup_insert_ne in Hj by done. apply HA. by eapply (inv_panicked _ HI).
Qed.

(** Steps that leave the task alone. *)
Lemma step_ok_stutter c i th th' o' :
  Inv c → c.(threads) !! i = Some th → thread_role th' = thread_role th →
  thread_knows (has_aborter c.(threads)) th' c.(task) →
  (o' = true → c.(owed) = true ∨
    has c.(task).(state) QUEUED = true ∨ has c.(task).(state) COMPLETE = true ∨
    (has c.(task).(state) RUNNING = true ∧ has c.(task).(state) NOTIFIED = true)) →
  (th' = T_run r_panicked → has_aborter c.(threads)) →
  step_ok c th c.(task) th' o'.
Proof.
  intros HI Hi Hr Hk Ho Hp. split; unfold held, holds; try rewrite Hr; try done; try lia.
  - exact (inv_bits _ HI).
  - exact (inv_idle _ HI).
  - right. by repeat split.
  - intros ->. destruct Ho as [Ho|]; [done|by apply (inv_owed _ HI)|done].
Qed.

(** Steps of the owner that touch only the task's end, not its bits. *)
Lemma step_ok_owner c i th t' th' :
  Inv c → c.(threads) !! i = Some th →
  thread_role th ∈ [running; reporting] → thread_role th' = thread_role th →
  t'.(state) = c.(task).(state) → t'.(scheduler) = c.(task).(scheduler) →
  thread_knows (has_aborter c.(threads)) th' t' →
  step_ok c th t' th' c.(owed).
Proof.
  intros HI Hi Ho Hr Hs Hq Hk. split; unfold held, holds, queue_len; rewrite ?Hr, ?Hs, ?Hq; try done; try lia.
  - exact (inv_bits _ HI).
  - intros H1 H2. exfalso. set_unfold in Ho. destruct Ho as [Ho|[Ho|[]]].
    + pose proof (inv_running_bits c HI _ _ Hi Ho). intuition congruence.
    + pose proof (inv_reporting_bits c HI _ _ Hi Ho). intuition congruence.
  - by left.
  - exact (inv_owed _ HI).
  - intros ->. rewrite <- Hr in Ho. set_unfold in Ho. naive_solver.
Qed.

(** Pushing the task on the run queue spends the token. *)
Lemma step_ok_schedule c i th th' :
  Inv c → c.(threads) !! i = Some th →
  thread_role th = queue_token → thread_role th' = bystander →
  thread_knows (has_aborter c.(threads)) th' (schedule c.(task)) →
  th' ≠ T_run r_panicked →
  step_ok c th (schedule c.(task)) th' c.(owed).
Proof.
  intros HI Hi Ho Hr Hk Hp.
  pose proof (inv_token_bits c HI _ _ Hi Ho) as (HQ & HR & HC).
  pose proof (inv_idle _ HI HR HC) as Hidle. pose proof (inv_owed _ HI).
  unfold schedule in *. destruct (scheduler (task c)) eqn:Hq;
    split; unfold held, holds, queue_len, pristine in *; simpl;
    rewrite ?Ho, ?Hr, ?Hq, ?HQ, ?HR, ?HC; simpl; try done; try lia.
  all: try (by right); try (by left); try (split; [done|lia]).
  all: right; by repeat split.
Qed.

Lemma set_state_id t : set_state t t.(state) = t.
Proof. by destruct t. Qed.

(** The four things an access of [State::wake] can do. *)
Inductive wake_case (s : Z) : Z → next wake_pc StateSnapshot → Prop :=
| wc_retry k : wake_knows k → wake_case s s (Continue k)
| wc_noop : has s COMPLETE = true ∨ (has s RUNNING = true ∧ has s NOTIFIED = true) ∨
    has s QUEUED = true → wake_case s s (Return NoOp)
| wc_notify : has s RUNNING = true → has s COMPLETE = false →
    wake_case s (Z.lor s NOTIFIED) (Return NoOp)
| wc_queue : has s RUNNING = false → has s COMPLETE = false → has s QUEUED = false →
    wake_case s (Z.lor s QUEUED) (Return ShouldSchedule).

Lemma wake_examine_case s : wake_case s s (wake_examine s).
Proof.
  assert (wake_examine s = Continue (wk_cas s) → wake_case s s (wake_examine s)) as Hc.
  { intros H. rewrite H. by constructor. }
  unfold wake_examine in *.
  destruct (has s COMPLETE) eqn:HC; [constructor; by left|].
  destruct (has s RUNNING) eqn:HR.
  - destruct (has s NOTIFIED) eqn:HN; [constructor; by right; left|by apply Hc].
  - destruct (has s QUEUED) eqn:HQ; [constructor; by right; right|by apply Hc].
Qed.

Lemma wake_step_case k s : wake_knows k →
  wake_case s (wake_step k s).1 (wake_step k s).2.
Proof.
  destruct k as [|v]; simpl; intros Hk; [apply wake_examine_case|].
  destruct (Z.eqb_spec s v) as [->|]; [|apply wake_examine_case].
  unfold wake_examine in Hk. destruct (has v COMPLETE) eqn:HC; [done|].
  destruct (has v RUNNING) eqn:HR; simpl; [by constructor|].
  destruct (has v QUEUED) eqn:HQ; [done|by constructor].
Qed.

(** Steps that change the state byte only: what the flags must satisfy is read
    off the new value. *)
Ltac byte_step :=
  split; unfold held, holds, queue_len, set_state; simpl; flags; try done; try lia.

Ltac finish_byte :=
  try done; try lia; try (intuition congruence); try (intros; split; [assumption|lia]);
  try (right; unfold same_end; simpl; repeat split; by flags).

Lemma step_ok_notify c i th th' :
  Inv c → c.(threads) !! i = Some th → thread_role th = bystander → thread_role th' = bystander →
  has c.(task).(state) RUNNING = true → has c.(task).(state) COMPLETE = false →
  thread_knows (has_aborter c.(threads)) th' (set_state c.(task) (Z.lor c.(task).(state) NOTIFIED)) →
  th' ≠ T_run r_panicked →
  step_ok c th (set_state c.(task) (Z.lor c.(task).(state) NOTIFIED)) th' true.
Proof.
  intros HI Hi Ho Hr HR HC Hk Hp.
  assert (has c.(task).(state) QUEUED = false) as HQ.
  { destruct (has _ QUEUED) eqn:HQ; [|done]. destruct (inv_bits _ HI HQ). congruence. }
  byte_step; rewrite ?Ho, ?Hr, ?HR, ?HC, ?HQ; simpl; finish_byte.
Qed.

Lemma step_ok_queue c i th th' :
  Inv c → c.(threads) !! i = Some th → thread_role th = bystander → thread_role th' = queue_token →
  has c.(task).(state) RUNNING = false → has c.(task).(state) COMPLETE = false →
  has c.(task).(state) QUEUED = false →
  thread_knows (has_aborter c.(threads)) th' (set_state c.(task) (Z.lor c.(task).(state) QUEUED)) →
  th' ≠ T_run r_panicked →
  step_ok c th (set_state c.(task) (Z.lor c.(task).(state) QUEUED)) th' true.
Proof.
  intros HI Hi Ho Hr HR HC HQ Hk Hp.
  pose proof (inv_idle _ HI HR HC) as Hidle. unfold pristine in Hidle.
  byte_step; rewrite ?Ho, ?Hr, ?HR, ?HC, ?HQ; simpl; finish_byte.
Qed.

Lemma wake_thread_ok `{BuildProfile} c i a k t' th' :
  Inv c → c.(threads) !! i = Some (T_wake k) →
  thread_step a (T_wake k) c.(task) = (t', th') →
  step_ok c (T_wake k) t' th' (owed_after (T_wake k) th' c.(owed)).
Proof.
  intros HI Hi. pose proof (inv_threads _ HI _ _ Hi) as Hk.
  destruct k as [k| | |]; simpl.
  - pose proof (wake_step_case k c.(task).(state) Hk) as Hc.
    destruct (wake_step k c.(task).(state)) as [s r]. simpl in Hc.
    destruct Hc; intros; simplify_eq/=; rewrite ?set_state_id.
    + by eapply step_ok_stutter; eauto.
    + eapply step_ok_stutter; eauto; [done|tauto|done].
    + by eapply step_ok_notify; eauto.
    + by eapply step_ok_queue; eauto.
  - intros [= <- <-]. by eapply step_ok_schedule.
  - intros [= <- <-]. by eapply step_ok_stutter; eauto.
  - intros [= <- <-]. by eapply step_ok_stutter; eauto.
Qed.

(** [request_abort]'s first access. *)
Lemma step_ok_abort c i th' :
  Inv c → c.(threads) !! i = Some (T_abort (a_request ra_or)) →
  thread_role th' = bystander → th' ≠ T_run r_panicked →
  thread_knows (has_aborter c.(threads)) th' (set_state c.(task) (Z.lor c.(task).(state) ABORTED)) →
  step_ok c (T_abort (a_request ra_or))
    (set_state c.(task) (Z.lor c.(task).(state) ABORTED)) th' c.(owed).
Proof.
  intros HI Hi Hr Hp Hk.
  pose proof (inv_bits _ HI). pose proof (inv_idle _ HI). pose proof (inv_owed _ HI).
  byte_step; rewrite ?Hr; simpl; finish_byte.
Qed.

Lemma abort_thread_ok `{BuildProfile} c i a k t' th' :
  Inv c → c.(threads) !! i = Some (T_abort k) →
  thread_step a (T_abort k) c.(task) = (t', th') →
  step_ok c (T_abort k) t' th' (owed_after (T_abort k) th' c.(owed)).
Proof.
  intros HI Hi. pose proof (inv_threads _ HI _ _ Hi) as Hk.
  destruct k as [[|k]| | |]; simpl.
  - destruct (_ || _); intros [= <- <-]; by eapply step_ok_abort.
  - pose proof (wake_step_case k c.(task).(state) Hk) as Hc.
    destruct (wake_step k c.(task).(state)) as [s r]. simpl in Hc.
    destruct Hc; intros; simplify_eq/=; rewrite ?set_state_id.
    + by eapply step_ok_stutter; eauto.
    + eapply step_ok_stutter; eauto; [done|tauto|done].
    + by eapply step_ok_notify; eauto.
    + by eapply step_ok_queue; eauto.
  - intros [= <- <-]. by eapply step_ok_schedule.
  - intros [= <- <-]. by eapply step_ok_stutter; eauto.
  - intros [= <- <-]. by eapply step_ok_stutter; eauto.
Qed.

(** [begin_poll]'s [compare_exchange]. *)
Lemma step_ok_begin c i b th' s' :
  Inv c → c.(threads) !! i = Some (T_run (r_begin b)) →
  thread_role th' = running → th' ≠ T_run r_panicked →
  s' = Z.lor (Z.land c.(task).(state) (not_u8 (Z.lor QUEUED NOTIFIED))) RUNNING →
  (pristine c.(task) → has c.(task).(state) COMPLETE = false →
   thread_knows (has_aborter c.(threads)) th' (set_state c.(task) s')) →
  step_ok c (T_run (r_begin b)) (set_state c.(task) s') th' false.
Proof.
  intros HI Hi Hr Hp -> Hk.
  pose proof (inv_token_bits c HI _ _ Hi eq_refl) as (HQ & HR & HC).
  pose proof (inv_idle _ HI HR HC) as Hidle.
  byte_step; rewrite ?Hr, ?HR, ?HC, ?HQ; simpl; finish_byte; eauto.
Qed.

(** [end_poll]'s closing accesses. *)
Lemma step_ok_end c i k e th' s' :
  Inv c → c.(threads) !! i = Some (T_run (r_end k e)) → th' ≠ T_run r_panicked →
  (thread_role th' = reporting ∧ has c.(task).(state) COMPLETE = true ∧
     s' = Z.land c.(task).(state) (not_u8 RUNNING) ∨
   thread_role th' = queue_token ∧ has c.(task).(state) COMPLETE = false ∧
     s' = Z.lor (Z.land c.(task).(state) (not_u8 (Z.lor RUNNING NOTIFIED))) QUEUED ∨
   thread_role th' = bystander ∧ has c.(task).(state) COMPLETE = false ∧
     has c.(task).(state) NOTIFIED = false ∧
     s' = Z.land c.(task).(state) (not_u8 RUNNING)) →
  (has c.(task).(state) COMPLETE = false → pristine c.(task)) →
  thread_knows (has_aborter c.(threads)) th' (set_state c.(task) s') →
  step_ok c (T_run (r_end k e)) (set_state c.(task) s') th' c.(owed).
Proof.
  intros HI Hi Hp Hcase Hpr Hk.
  pose proof (inv_running_bits c HI _ _ Hi eq_refl) as (HR & HQ).
  pose proof (inv_owed _ HI) as Ho.
  destruct Hcase as [(Hr & HC & ->)|[(Hr & HC & ->)|(Hr & HC & HN & ->)]];
    byte_step; rewrite ?Hr, ?HR, ?HC, ?HQ; simpl; finish_byte; eauto.
  all: try (left; set_solver).
Qed.

Lemma begin_thread_ok `{BuildProfile} c i b a t' p' :
  Inv c → c.(threads) !! i = Some (T_run (r_begin b)) →
  run_step a (r_begin b) c.(task) = (t', p') →
  step_ok c (T_run (r_begin b)) t' (T_run p')
    (owed_after (T_run (r_begin b)) (T_run p') c.(owed)).
Proof.
  intros HI Hi. pose proof (inv_threads _ HI _ _ Hi) as Hk.
  pose proof (inv_token_bits c HI _ _ Hi eq_refl) as (HQ & HR & HC).
  destruct b as [|v]; simpl in *.
  - rewrite HQ, HR; simpl. rewrite andb_false_r, set_state_id. intros [= <- <-].
    eapply step_ok_stutter; eauto; [by left|done].
  - destruct (Z.eqb_spec c.(task).(state) v) as [<-|Hne].
    + destruct (has _ ABORTED); simpl; intros [= <- <-];
        eapply step_ok_begin; eauto; intros Hpr ?; split; simpl; flags; try done; apply Hpr.
    + rewrite set_state_id. intros [= <- <-].
      eapply step_ok_stutter; eauto; [done|]. intros _. destruct Hk as [|[]]; [congruence|done].
Qed.

Lemma step_ok_complete c i k th' :
  Inv c → c.(threads) !! i = Some (T_run (r_end k ep_or_complete)) →
  thread_role th' = running → th' ≠ T_run r_panicked →
  thread_knows (has_aborter c.(threads)) th' (set_state c.(task) (Z.lor c.(task).(state) COMPLETE)) →
  step_ok c (T_run (r_end k ep_or_complete))
    (set_state c.(task) (Z.lor c.(task).(state) COMPLETE)) th' c.(owed).
Proof.
  intros HI Hi Hr Hp Hk.
  pose proof (inv_running_bits c HI _ _ Hi eq_refl) as (HR & HQ).
  byte_step; rewrite ?Hr, ?HR, ?HQ; simpl; rewrite ?andb_false_r; finish_byte.
  left. set_solver.
Qed.

Lemma end_thread_ok `{BuildProfile} c i k e a t' p' :
  Inv c → c.(threads) !! i = Some (T_run (r_end k e)) →
  run_step a (r_end k e) c.(task) = (t', p') →
  step_ok c (T_run (r_end k e)) t' (T_run p')
    (owed_after (T_run (r_end k e)) (T_run p') c.(owed)).
Proof.
  intros HI Hi. pose proof (inv_threads _ HI _ _ Hi) as Hk.
  destruct e as [| | |v]; simpl.
  - intros [= <- <-]. eapply step_ok_complete; eauto.
    destruct k; simpl in *; try done; flags; tauto.
  - intros [= <- <-]. destruct k; simpl in *; try done; eapply step_ok_end; eauto; simpl;
      unfold in_hand in *; intuition congruence.
  - rewrite set_state_id. intros [= <- <-]. by eapply step_ok_stutter; eauto.
  - destruct k; try done. destruct Hk as [Hpr HC].
    destruct (has v NOTIFIED) eqn:HN, (Z.eqb_spec c.(task).(state) v) as [<-|Hne];
      rewrite ?set_state_id; intros [= <- <-].
    2,4: by eapply step_ok_stutter; eauto.
    all: eapply step_ok_end; eauto; simpl; intuition.
Qed.

Lemma run_thread_ok `{BuildProfile} c i p a t' p' :
  Inv c → c.(threads) !! i = Some (T_run p) →
  run_step a p c.(task) = (t', p') →
  step_ok c (T_run p) t' (T_run p') (owed_after (T_run p) (T_run p') c.(owed)).
Proof.
  intros HI Hi. pose proof (inv_threads _ HI _ _ Hi) as Hk.
  pose proof (inv_panicked _ HI i) as Hp.
  destruct p; try (by eapply begin_thread_ok); try (by eapply end_thread_ok); simpl in *;
    unfold pristine, in_hand, reported, fire_abnormal_hook, mark_finished in *;
    repeat case_match; intros [= <- <-];
    first [by eapply step_ok_schedule
          |by eapply step_ok_stutter; eauto
          |eapply step_ok_owner; [exact HI|exact Hi|set_solver|done|done|done|simpl]];
    unfold pristine, in_hand, reported; simpl; destruct_and?;
    repeat match goal with H : ∃ _, _ |- _ => destruct H end;
    try congruence; repeat match goal with H : _ = [] |- _ => rewrite H end;
    repeat (split || eexists); first [done|lia].
Qed.

Lemma Inv_init : Inv config_init.
Proof. by split. Qed.

(** A thread enters: a new waker or aborter, or a worker that popped the
    task. *)
Lemma Inv_enter c q th :
  Inv c →
  thread_role th = bystander ∨ thread_role th = queue_token →
  (queue_len (set_scheduler (task c) q) + held queue_token th)%nat = queue_len (task c) →
  (q ≠ None → scheduler (task c) ≠ None) →
  (∀ A t, thread_knows A th t) → th ≠ T_run r_panicked →
  Inv (mkConfig (set_scheduler (task c) q) (threads c ++ [th]) (owed c)).
Proof.
  intros HI Hr Hq Hsome Hk Hp.
  assert (has_aborter (threads c) → has_aborter (threads c ++ [th])) as HA.
  { intros (j & th2 & Hj & ?). exists j, th2. split; [by apply lookup_app_l_Some|done]. }
  assert (∀ r, count (holds r) (threads c ++ [th]) = count (holds r) (threads c) + held r th)%nat
    as Ec by (intros; rewrite count_app, count_cons, count_nil; unfold held, b2n; lia).
  assert (∀ r, r ≠ bystander → r ≠ queue_token → held r th = O) as E0.
  { intros r ??. unfold held, holds. rewrite bool_decide_eq_false_2; [done|].
    destruct Hr; congruence. }
  pose proof (inv_queue_le _ HI). pose proof (inv_queue_eq _ HI).
  split; simpl; rewrite ?Ec, ?E0 by done; rewrite ?Nat.add_0_r.
  - lia.
  - intros Hq'. specialize (H0 (Hsome Hq')). lia.
  - apply HI.
  - apply HI.
  - apply HI.
  - apply HI.
  - intros i th' [Hi| ->]%lookup_snoc_inv; [|apply Hk].
    eapply thread_knows_frame; [exact HA| | |exact (inv_threads _ HI _ _ Hi)].
    + by repeat split.
    + intros _ v [|[]]; [by left|right; auto].
  - apply HI.
  - intros i [Hi|Hi]%lookup_snoc_inv; [|by destruct Hp].
    apply HA. by eapply (inv_panicked _ HI).
Qed.

Lemma set_scheduler_id t : set_scheduler t t.(scheduler) = t.
Proof. by destruct t. Qed.

Lemma Inv_bystander c th :
  Inv c → thread_role th = bystander → (∀ A t, thread_knows A th t) → th ≠ T_run r_panicked →
  Inv (mkConfig (task c) (threads c ++ [th]) (owed c)).
Proof.
  intros HI Hr Hk Hp. pose proof (Inv_enter c (scheduler (task c)) th HI (or_introl Hr)) as HE.
  rewrite set_scheduler_id in HE. apply HE; try done.
  unfold held, holds. by rewrite Hr.
Qed.

Lemma Inv_step `{BuildProfile} c c' : Inv c → step c c' → Inv c'.
Proof.
  intros HI Hs. destruct Hs as [i th a c t' th' Hi Hstep|c|c|c n Hn|i th c th' Hi Hp|c].
  - eapply step_ok_inv; eauto using thread_step_aborter. destruct th as [p|k|k].
    + simpl in Hstep. destruct (run_step a p (task c)) eqn:E. simplify_eq.
      by eapply run_thread_ok.
    + by eapply (wake_thread_ok c i a).
    + by eapply (abort_thread_ok c i a).
  - apply Inv_bystander; [done|done|by intros|done].
  - apply Inv_bystander; [done|done|by intros|done].
  - apply Inv_enter; auto; try done; [|by rewrite Hn].
    unfold queue_len; simpl. rewrite Hn. unfold held; simpl. lia.
  - eapply step_ok_inv; [done|exact Hi|by destruct th as [|[]|[]]; simplify_eq/=|].
    apply (step_ok_stutter c i); auto; by destruct th as [|[]|[]]; simplify_eq/=.
  - pose proof (inv_queue_le _ HI). destruct HI. split; simpl; try done; lia.
Qed.

Lemma reachable_Inv `{BuildProfile} c : run_reachable c → Inv c.
Proof.
  apply invariant_reachable; [|eauto using Inv_step]. intros ? ->. apply Inv_init.
Qed.

(** What is known of the task's end at any time. *)
Lemma end_known c : Inv c →
  (length c.(task).(notified) ≤ 1)%nat ∧ (c.(task).(task_finished) ≤ 1)%nat.
Proof.
  intros HI.
  assert (∀ i th, threads c !! i = Some th → thread_role th = running ∨ thread_role th = reporting →
    (length c.(task).(notified) ≤ 1)%nat ∧ (c.(task).(task_finished) ≤ 1)%nat) as Ho.
  { intros i th Hi Hr. pose proof (inv_threads _ HI _ _ Hi) as Hk.
    destruct th as [p|[]|[]]; simpl in Hr; try (destruct Hr; discriminate).
    destruct p as [| | | | | | | | | | |[] []| | | | | | |]; simpl in *;
      try (destruct Hr; discriminate); try done;
      unfold pristine, in_hand, reported in Hk; destruct_and?;
      repeat match goal with
      | H : ∃ _, _ |- _ => destruct H
      | H : notified _ = _ |- _ => rewrite H; clear H
      | H : task_finished _ = _ |- _ => rewrite H; clear H
      end; simpl; lia. }
  pose proof (inv_running _ HI) as HR. pose proof (inv_reporting _ HI) as HP.
  destruct (count_exists (threads c) (holds running)) as [Hz|(i & th & Hi & Hh)];
    [|apply (Ho i th Hi); left; by apply bool_decide_eq_true_1 in Hh].
  destruct (count_exists (threads c) (holds reporting)) as [Hz'|(i & th & Hi & Hh)];
    [|apply (Ho i th Hi); right; by apply bool_decide_eq_true_1 in Hh].
  destruct (has _ RUNNING) eqn:E1, (has _ COMPLETE) eqn:E2; simpl in *; try lia.
  destruct (inv_idle _ HI E1 E2) as (_ & _ & -> & ->). simpl; lia.
Qed.

(** ** Scripts: executable runs *)

Inductive choice :=
| do_thread (i : nat) (a : poll_answer)
| do_wake
| do_abort
| do_dequeue
| do_drop_scheduler.

Definition exec `{BuildProfile} (ch : choice) (c : config) : option config :=
  match ch with
  | do_thread i a =>
      th ← c.(threads) !! i;
      let '(t', th') := thread_step a th c.(task) in
      Some (mkConfig t' (<[i := th']> c.(threads)) (owed_after th th' c.(owed)))
  | do_wake => Some (mkConfig c.(task) (c.(threads) ++ [T_wake (w_wake wk_load)]) c.(owed))
  | do_abort => Some (mkConfig c.(task) (c.(threads) ++ [T_abort (a_request ra_or)]) c.(owed))
  | do_dequeue =>
      match c.(task).(scheduler) with
      | Some (S n) => Some (mkConfig (set_scheduler c.(task) (Some n))
                              (c.(threads) ++ [T_run (r_begin bp_load)]) c.(owed))
      | _ => None
      end
  | do_drop_scheduler => Some (mkConfig (set_scheduler c.(task) None) c.(threads) c.(owed))
  end.

Fixpoint exec_all `{BuildProfile} (chs : list choice) (c : config) : option config :=
  match chs with
  | [] => Some c
  | ch :: chs => c' ← exec ch c; exec_all chs c'
  end.

Lemma exec_step `{BuildProfile} ch c c' : exec ch c = Some c' → step c c'.
Proof.
  destruct ch; simpl; intros He.
  - destruct (threads c !! i) as [th|] eqn:Hi; simpl in He; [|done].
    destruct (thread_step a th (task c)) eqn:E. simplify_eq. by eapply step_thread.
  - simplify_eq. constructor.
  - simplify_eq. constructor.
  - destruct (scheduler (task c)) as [[|n]|] eqn:Hn; simplify_eq. by constructor.
  - simplify_eq. constructor.
Qed.

Lemma exec_all_reachable `{BuildProfile} chs c :
  exec_all chs config_init = Some c → run_reachable c.
Proof.
  assert (∀ c0, run_reachable c0 → exec_all chs c0 = Some c → run_reachable c) as Hg.
  { induction chs as [|ch chs IH]; simpl; intros c0 H0 He; [by simplify_eq|].
    destruct (exec ch c0) as [c1|] eqn:E; [|done]. apply (IH c1); [|done].
    eapply reachable_step; [exact H0|by eapply exec_step]. }
  apply Hg. by apply reachable_init.
Qed.

Definition thread_runs (k : nat) (i : nat) (a : poll_answer) : list choice :=
  replicate k (do_thread i a).

(** ** The properties *)

(** The thread has the QUEUED token and is going on: it is about to push the
    task on a run queue, or is in [begin_poll] having just popped it. *)
Definition brings_poll (th : thread) : bool :=
  match th with
  | T_run (r_begin _ | r_schedule) | T_wake w_schedule | T_abort a_schedule => true
  | _ => false
  end.

(** The thread died with the token: in [begin_poll]'s [expect], or in
    [schedule]. *)
Definition died_in_begin (th : thread) : bool :=
  match th with T_run r_panicked => true | _ => false end.
Definition died_in_schedule (th : thread) : bool :=
  match th with T_wake w_panicked | T_abort a_panicked => true | _ => false end.

Lemma queue_token_cases th :
  thread_role th = queue_token →
  brings_poll th = true ∨ died_in_begin th = true ∨ died_in_schedule th = true.
Proof. destruct th as [p|p|p]; destruct p; simpl; auto; discriminate. Qed.

(** The task is on its way to a poll: it sits in a run queue, a thread that
    goes on is about to push it there or has just popped it, or the worker
    polling it will find NOTIFIED when the poll ends. *)
Definition poll_coming (c : config) : Prop :=
  c.(task).(scheduler) = Some 1%nat ∨
  (∃ i th, c.(threads) !! i = Some th ∧ brings_poll th = true) ∨
  (∃ i th, c.(threads) !! i = Some th ∧ thread_role th = running ∧
     has c.(task).(state) NOTIFIED = true).

(** No poll is coming any more because of a panic: [abort] raced a
    [begin_poll] and the worker that had popped the task died in the [expect],
    or [schedule] panicked under the waker that was to queue it. *)
Definition lost_to_panic (c : config) : Prop :=
  ∃ i th, c.(threads) !! i = Some th ∧
    (died_in_begin th = true ∧ has_aborter c.(threads) ∨ died_in_schedule th = true).

(** A dead thread's token is the only one there is: nothing is queued, nobody
    else is about to queue or begin the task, and nobody polls it. *)
Lemma lost_token_alone c i x :
  Inv c → c.(threads) !! i = Some x → died_in_begin x = true ∨ died_in_schedule x = true →
  ¬ poll_coming c.
Proof.
  intros HI Hi Hx. pose proof (inv_queue_le _ HI) as Hle.
  assert (holds queue_token x = true) as Hxq by (by destruct x as [[]|[]|[]], Hx).
  pose proof (inv_running _ HI) as Hr. pose proof (inv_bits _ HI) as Hb.
  pose proof (count_pos (holds queue_token) _ i _ Hi Hxq) as Hc.
  destruct (has (state (task c)) QUEUED) eqn:HQ; [|simpl in Hle; lia].
  destruct (Hb eq_refl) as [HR _]. rewrite HR in Hr. simpl in Hle, Hr.
  intros [Hs|[(j & th & Hj & Ht)|(j & th & Hj & Ht & _)]].
  - unfold queue_len in Hle. rewrite Hs in Hle. lia.
  - assert (i ≠ j) by (intros ->; simplify_eq; destruct x as [[]|[]|[]], Hx; done).
    assert (holds queue_token th = true) by (by destruct th as [[]|[]|[]]).
    pose proof (count_two (holds queue_token) (threads c) i j x th). naive_solver lia.
  - assert (holds running th = true) as Hh by (by apply bool_decide_eq_true_2).
    pose proof (count_pos _ _ _ _ Hj Hh). lia.
Qed.

(** C1: no wakeup is lost.  In every interleaving of wakers, aborters and
    workers, once a [wake] has taken effect and no poll has begun since, the
    task is on its way to another poll, unless it completed or its scheduler
    is gone.  The exceptions are two panics, and each really loses the wake:
    an [abort] was requested and the worker that had popped the task has died
    in [begin_poll]'s [expect] (begin_poll_abort_panics reaches that state), or
    [schedule] has panicked on the thread that was to queue the task. *)
Theorem no_lost_wakeup `{BuildProfile} c :
  run_reachable c → c.(owed) = true → has c.(task).(state) COMPLETE = false →
  c.(task).(scheduler) ≠ None →
  poll_coming c ∨ (lost_to_panic c ∧ ¬ poll_coming c).
Proof.
  intros HI%reachable_Inv Ho HC Hs.
  pose proof (inv_queue_eq _ HI Hs) as Hq. pose proof (inv_running _ HI) as Hr.
 
  destruct (inv_owed _ HI Ho) as [HQ|[|[HR HN]]]; [|congruence|].
  - rewrite HQ in Hq. unfold queue_len in Hq. destruct (scheduler (task c)) as [n|] eqn:En; [|done].
    destruct (count_exists (threads c) (holds queue_token)) as [Hz|(i & th & Hi & Hh)].
    + left; left. rewrite En. f_equal. simpl in Hq. lia.
    + apply bool_decide_eq_true_1 in Hh. destruct (queue_token_cases _ Hh) as [Hp|[Hd|Hd]].
      * left; right; left. by exists i, th.
      * right. split; [|eapply lost_token_alone; eauto].
        exists i, th. split; [done|]. left. split; [done|]. destruct th as [[]|?|?]; try done.
        by apply (inv_panicked _ HI i).
      * right. split; [|eapply lost_token_alone; eauto]. exists i, th. auto.
  - rewrite HR in Hr. destruct (count_exists (threads c) (holds running)) as [Hz|(i & th & Hi & Hh)].
    + simpl in Hr. lia.
    + left; right; right. exists i, th. by apply bool_decide_eq_true_1 in Hh.
Qed.

Lemma no_lost_wakeup_witness :
  ∃ c, @run_reachable dev_profile c ∧ c.(owed) = true ∧ (poll_coming c ∨ (lost_to_panic c ∧ ¬ poll_coming c)).
Proof.
  (* dequeue, begin, check, take, and a waker that fires during the poll *)
  destruct (@exec_all dev_profile
    (do_dequeue :: thread_runs 4 0 polled_pending ++ do_wake :: thread_runs 2 1 polled_pending)
    config_init) as [c|] eqn:E; [|discriminate E].
  exists c. pose proof (@exec_all_reachable dev_profile _ _ E) as Hr.
  vm_compute in E. injection E as <-.
  split; [exact Hr|split; [reflexivity|]].
  apply (@no_lost_wakeup dev_profile _ Hr); [reflexivity|reflexivity|discriminate].
Defined.

(** C2: mutual exclusion and single enqueueing.  At most one thread is
    between [begin_poll] and [end_poll]; while it is, the task is in no run
    queue; and the queue entries plus the threads about to push or just
    popping it never exceed one. *)
Theorem poll_exclusive `{BuildProfile} c :
  run_reachable c →
  (count (holds running) c.(threads) ≤ 1)%nat ∧
  (queue_len c.(task) + count (holds queue_token) c.(threads)
    + count (holds running) c.(threads) ≤ 1)%nat.
Proof.
  intros HI%reachable_Inv.
  pose proof (inv_queue_le _ HI). pose proof (inv_running _ HI). pose proof (inv_bits _ HI).
  destruct (has _ QUEUED), (has _ RUNNING); simpl in *; intuition lia.
Qed.

Lemma poll_exclusive_witness :
  ∃ c, @run_reachable dev_profile c ∧ (count (holds running) c.(threads) = 1)%nat ∧
  (count (holds running) c.(threads) ≤ 1)%nat.
Proof.
  destruct (@exec_all dev_profile
    (do_dequeue :: thread_runs 4 0 polled_pending ++ do_wake :: thread_runs 2 1 polled_pending)
    config_init) as [c|] eqn:E; [|discriminate E].
  exists c. pose proof (@exec_all_reachable dev_profile _ _ E) as Hr.
  vm_compute in E. injection E as <-.
  split; [exact Hr|split; [reflexivity|]]. apply (@poll_exclusive dev_profile _ Hr).
Defined.

(** C19: a task reports its end exactly once.  Whatever happens, its
    [JoinInner] hears at most one outcome and [task_finished] is counted at
    most once; a worker that has returned from a terminal path of [run] has
    delivered exactly one outcome, the future is gone and the abnormal hook is
    disarmed; and a worker about to take the future out of its slot always
    finds it there (the defensive branch is dead). *)
Theorem end_reported_once `{BuildProfile} c :
  run_reachable c →
  (length c.(task).(notified) ≤ 1)%nat ∧ (c.(task).(task_finished) ≤ 1)%nat ∧
  (∀ i p, c.(threads) !! i = Some (T_run p) → p = r_return_finished ∨ p = r_unpolled_return →
    length c.(task).(notified) = 1%nat ∧ c.(task).(future) = false ∧
    c.(task).(abnormal_hook) = false) ∧
  (∀ i, c.(threads) !! i = Some (T_run r_take_slot) → c.(task).(future) = true).
Proof.
  intros HI%reachable_Inv.
  assert (∀ i p, c.(threads) !! i = Some (T_run p) → run_knows p c.(task)) as Hk.
  { intros i p Hi. pose proof (inv_threads _ HI _ _ Hi). by destruct p. }
  destruct (end_known c HI) as [Hn Hf]. split_and!; [done|done| |].
  - intros i p Hi Hp. specialize (Hk _ _ Hi).
    destruct Hp as [-> | ->];
      [destruct Hk as (? & (o & ->) & ? & _)|destruct Hk as ((? & (o & ->) & ? & _) & _)]; done.
  - intros i Hi. specialize (Hk _ _ Hi). by destruct Hk as [[? _] _].
Qed.

Lemma end_reported_once_witness :
  ∃ c, @run_reachable dev_profile c ∧ c.(threads) !! 0%nat = Some (T_run r_return_finished) ∧
    length c.(task).(notified) = 1%nat.
Proof.
  destruct (@exec_all dev_profile
    (do_dequeue :: thread_runs 10 0 polled_panic) config_init) as [c|] eqn:E; [|discriminate E].
  exists c. pose proof (@exec_all_reachable dev_profile _ _ E) as Hr.
  vm_compute in E. injection E as <-. split; [exact Hr|split; [reflexivity|]].
  destruct (@end_reported_once dev_profile _ Hr) as (_ & _ & H & _).
  apply (H 0%nat r_return_finished); [reflexivity|left; reflexivity].
Defined.

(** [begin_poll] never panics on its own account.  Neither its
    [debug_assert!] nor its single [compare_exchange] can fail in any
    interleaving of wakers and workers: a worker that panicked there proves
    that some thread called [abort]. *)
Theorem begin_poll_panic_needs_abort `{BuildProfile} c i :
  run_reachable c → c.(threads) !! i = Some (T_run r_panicked) → has_aborter c.(threads).
Proof. intros HI%reachable_Inv. apply (inv_panicked _ HI). Qed.

Definition abort_race : list choice :=
  [do_dequeue; do_thread 0 polled_ready; do_abort; do_thread 1 polled_ready;
   do_thread 0 polled_ready; do_thread 1 polled_ready].

(** The converse, a flaw of the code.  With an [abort] between the load and
    the [compare_exchange], [begin_poll]'s [expect] does fire, in both build
    profiles.  The worker dies holding the task's only queue token, so the
    task can never be polled again and its joiner never hears of it. *)
Theorem begin_poll_abort_panics `{BuildProfile} :
  ∃ c, run_reachable c ∧ c.(threads) = [T_run r_panicked; T_abort a_return] ∧
    c.(task).(scheduler) = Some O ∧ c.(task).(notified) = [] ∧
    has c.(task).(state) COMPLETE = false ∧ c.(owed) = true.
Proof.
  destruct (exec_all abort_race config_init) as [c|] eqn:E.
  - exists c. split; [by eapply exec_all_reachable|].
    revert E. cbv -[debug_build]. destruct debug_build; by intros [= <-].
  - revert E. cbv -[debug_build]. by destruct debug_build.
Qed.

Lemma begin_poll_panic_needs_abort_witness :
  ∃ c, @run_reachable dev_profile c ∧ c.(threads) !! 0%nat = Some (T_run r_panicked) ∧
    has_aborter c.(threads).
Proof.
  destruct (@exec_all dev_profile abort_race config_init) as [c|] eqn:E; [|discriminate E].
  exists c. pose proof (@exec_all_reachable dev_profile _ _ E) as Hr.
  vm_compute in E. injection E as <-. split; [exact Hr|split; [reflexivity|]].
  apply (@begin_poll_panic_needs_abort dev_profile _ 0%nat Hr). reflexivity.
Defined.

(** ** What values the byte takes *)

(** Five flags of the eight bits; [QUEUED] with neither [RUNNING] nor
    [COMPLETE]; [NOTIFIED] with one of them. *)
Definition byte_ok (s : Z) : bool :=
  (0 <=? s) && (s <? 32) && implb (has s NOTIFIED) (has s RUNNING || has s COMPLETE).
Definition legal_bytes : list Z :=
  filter (λ s, byte_ok s && implb (has s QUEUED) (negb (has s RUNNING) && negb (has s COMPLETE))) (seqZ 0 32).

Lemma byte_cases (P : Z → bool) s :
  forallb (λ s, implb (byte_ok s) (P s)) (seqZ 0 32) = true → byte_ok s = true → P s = true.
Proof.
  intros H Hs. rewrite forallb_forall in H. assert (s ∈ seqZ 0 32) as Hin.
  { apply elem_of_seqZ. unfold byte_ok in Hs. lia. }
  apply list_elem_of_In, H in Hin. by rewrite Hs in Hin.
Qed.

Lemma wake_byte p s : byte_ok s = true → byte_ok (wake_step p s).1 = true.
Proof.
  destruct p as [|v]; [done|]. intros Hs. destruct (Z.eqb_spec s v) as [<-|Hne].
  - revert Hs. apply (byte_cases (λ s, byte_ok (wake_step (wk_cas s) s).1)). by vm_compute.
  - unfold wake_step. by rewrite (proj2 (Z.eqb_neq _ _) Hne).
Qed.
Lemma abort_byte p s : byte_ok s = true → byte_ok (request_abort_step p s).1 = true.
Proof.
  destruct p as [|p].
  - apply (byte_cases (λ s, byte_ok (request_abort_step ra_or s).1)). by vm_compute.
  - intros Hs%(wake_byte p). unfold request_abort_step. by destruct (wake_step p s) as [? []].
Qed.
Lemma begin_byte `{BuildProfile} p s : byte_ok s = true → byte_ok (begin_poll_step p s).1 = true.
Proof.
  destruct p as [|v]; [unfold begin_poll_step; by destruct (_ && _)|]. intros Hs. destruct (Z.eqb_spec s v) as [<-|Hne].
  - revert Hs. apply (byte_cases (λ s, byte_ok (begin_poll_step (bp_cas s) s).1)). by vm_compute.
  - unfold begin_poll_step. by rewrite (proj2 (Z.eqb_neq _ _) Hne).
Qed.
(** [RUNNING] goes with [COMPLETE] set before it, or with [NOTIFIED] clear. *)
Lemma end_byte p s : byte_ok s = true → (p = ep_and_not_running → has s COMPLETE = true) →
  byte_ok (end_poll_step p s).1 = true.
Proof.
  destruct p as [| | |v]; intros Hs Hc.
  - revert Hs. apply (byte_cases (λ s, byte_ok (end_poll_step ep_or_complete s).1)). by vm_compute.
  - specialize (Hc eq_refl). revert Hs Hc. intros Hs. apply implb_true_iff. revert Hs.
    apply (byte_cases (λ s, implb (has s COMPLETE) (byte_ok (end_poll_step ep_and_not_running s).1))). by vm_compute.
  - done.
  - destruct (Z.eqb_spec s v) as [<-|Hne].
    + revert Hs. apply (byte_cases (λ s, byte_ok (end_poll_step (ep_cas s) s).1)). by vm_compute.
    + unfold end_poll_step. rewrite (proj2 (Z.eqb_neq _ _) Hne). by destruct (has v NOTIFIED).
Qed.

Lemma schedule_state t : (schedule t).(state) = t.(state).
Proof. unfold schedule. by destruct (scheduler t). Qed.

Lemma run_byte `{BuildProfile} a p t :
  byte_ok t.(state) = true → (match p with r_begin _ => True | _ => run_knows p t end) → byte_ok (run_step a p t).1.(state) = true.
Proof.
  intros Hs Hk. destruct p as [b| | | | | | | | | | |k e| | | | | | |]; unfold run_step.
  1: pose proof (begin_byte b _ Hs) as Hb; by destruct (begin_poll_step b (state t)) as [? [|[]|]].
  all: try done.
  all: try (unfold fire_abnormal_hook, mark_finished; by repeat case_match).
  - pose proof (end_byte e _ Hs) as He. destruct (end_poll_step e (state t)) as [s []]; apply He; intros ->; by destruct k; simpl in Hk; tauto.
  - simpl. by rewrite schedule_state.
Qed.

Lemma byte_step `{BuildProfile} c c' : Inv c ∧ byte_ok c.(task).(state) = true → step c c' → Inv c' ∧ byte_ok c'.(task).(state) = true.
Proof.
  intros [HI Hb] Hs. split; [by eapply Inv_step|]. destruct Hs as [i th a c t' th' Hi Hstep|c|c|c n Hn|i th c th2 Hi Hpan|c]; try done.
  simpl. assert (t' = (thread_step a th (task c)).1) as -> by by rewrite Hstep. clear Hstep.
  pose proof (inv_threads _ HI _ _ Hi) as Hk. destruct th as [p|p|p]; simpl.
  - destruct (run_step a p (task c)) as [t1 p1] eqn:E. simpl. replace t1 with (run_step a p (task c)).1 by by rewrite E.
    apply run_byte; [done|]. by destruct p.
  - destruct p as [k| | |]; simpl; [|by rewrite schedule_state|done..].
    pose proof (wake_byte k _ Hb) as Hw. by destruct (wake_step k (state (task c))) as [? [|[]|]].
  - destruct p as [k| | |]; simpl; [|by rewrite schedule_state|done..].
    pose proof (abort_byte k _ Hb) as Hw. by destruct (request_abort_step k (state (task c))) as [? [|[]|]].
Qed.

(** C3: whatever wakers, workers and aborters do, the byte of a task is always
    one of sixteen values: of its eight bits five are used, a task is not
    queued while it is polled or once it is complete, and one that is neither
    is not notified.  So [AtomicU8] holds it, and every [match] on the flags is
    of one of these. *)
Theorem task_byte_typed `{BuildProfile} c :
  run_reachable c → c.(task).(state) ∈ legal_bytes ∧ length legal_bytes = 16%nat.
Proof.
  intros HR. split; [|by vm_compute].
  assert (Inv c ∧ byte_ok c.(task).(state) = true) as [HI Hb].
  { revert c HR. apply invariant_reachable; [|eauto using byte_step]. intros ? ->. split; [apply Inv_init|done]. }
  apply list_elem_of_filter. split.
  - rewrite Hb. pose proof (inv_bits _ HI) as Hq. destruct (has _ QUEUED); [|done]. by destruct (Hq eq_refl) as [-> ->].
  - apply elem_of_seqZ. unfold byte_ok in Hb. lia.
Qed.

Lemma task_byte_typed_witness :
  ∃ c, @run_reachable dev_profile c ∧ c.(task).(state) = Z.lor RUNNING NOTIFIED ∧ c.(task).(state) ∈ legal_bytes.
Proof.
  destruct (@exec_all dev_profile
    (do_dequeue :: thread_runs 4 0 polled_pending ++ do_wake :: thread_runs 2 1 polled_pending)
    config_init) as [c|] eqn:E; [|discriminate E].
  exists c. pose proof (@exec_all_reachable dev_profile _ _ E) as Hr.
  split; [exact Hr|split; [vm_compute in E; injection E as <-; reflexivity|]]. apply (@task_byte_typed dev_profile _ Hr).
Defined.
