(* ===== verification/Coop.v ===== *)
(** The cooperative budget ([src/src/coop.rs], [src/src/task/coop.rs],
    [src/src/task/yield_now.rs]).

    The thread-local [BUDGET] cell is the state of the computations here:
    [None] outside any task's poll, otherwise the units left. *)

From S2P Require Import Prelude.

Definition BUDGET : Type := option Z.

Definition DEFAULT_BUDGET : Z := 128.

Definition budget {A} (f : M BUDGET A) : M BUDGET A :=
  let! previous := get in
  put (Some DEFAULT_BUDGET) ;!
  let! result := f in
  put previous ;!
  ret result.

Definition poll_proceed (cx : waker) : M BUDGET (poll unit) :=
  let! b := get in
  match b with
  | None => ret (Ready tt)
  | Some 0 => wake cx ;! ret Pending
  | Some n => put (Some (n - 1)) ;! ret (Ready tt)
  end.

Definition has_budget_remaining : M BUDGET bool :=
  let! b := get in
  ret (match b with Some 0 => false | _ => true end).

Definition with_unconstrained {A} (f : M BUDGET A) : M BUDGET A :=
  let! previous := get in
  put None ;!
  let! result := f in
  put previous ;!
  ret result.

(** [ConsumeBudget::poll] and [Unconstrained::poll]. *)
Definition consume_budget_poll (cx : waker) : M BUDGET (poll unit) := poll_proceed cx.
Definition unconstrained_poll {A} (inner : M BUDGET (poll A)) : M BUDGET (poll A) :=
  with_unconstrained inner.

(** [YieldNow::poll], on its [yielded] flag. *)
Definition yield_now : bool := false.
Definition yield_now_poll (cx : waker) : M bool (poll unit) :=
  let! yielded := get in
  if yielded : bool then ret (Ready tt)
  else put true ;! wake cx ;! ret Pending.

(** A poll that performs [n] charged operations in a row, whatever each
    answers: the answers, in order. *)
Fixpoint charge (n : nat) (cx : waker) : M BUDGET (list (poll unit)) :=
  match n with
  | O => ret []
  | S n =>
      let! r := poll_proceed cx in
      let! rs := charge n cx in
      ret (r :: rs)
  end.

Lemma charge_spec n cx b :
  0 ≤ b →
  charge n cx (Some b) =
    Some (replicate (n `min` Z.to_nat b) (Ready tt) ++ replicate (n - Z.to_nat b) Pending,
          Some (b - Z.of_nat (n `min` Z.to_nat b)),
          replicate (n - Z.to_nat b) cx).
Proof.
  revert b. induction n as [|n IH]; intros b Hb; simpl charge.
  - unfold ret. simpl. by rewrite Z.sub_0_r.
  - unfold bind at 1. unfold poll_proceed at 1. unfold bind at 1 2, get at 1.
    destruct (decide (b = 0)) as [->|Hne].
    + run_M. rewrite IH by done. simpl. rewrite Nat.min_0_r, Nat.sub_0_r, app_nil_r. done.
    + destruct b as [|p|p]; [done| |lia]. run_M. rewrite IH by lia. simpl.
      rewrite app_nil_r.
      remember (Z.to_nat (Z.pos p)) as q eqn:Eq. destruct q as [|q]; [lia|].
      assert (Z.to_nat (Z.pos p - 1) = q) as -> by lia.
      simpl. do 3 f_equal. f_equal. lia.
Qed.

(** The budget does break a tight loop.  However many charged operations a
    task's poll performs, exactly the first 128 go through; every later one is
    told [Pending] with the task woken for another turn; and the budget that
    was in effect around the poll is restored.  Inside [unconstrained] none is
    refused, and outside any task nothing is charged. *)
Theorem budget_forces_yield n cx b :
  budget (charge n cx) b =
    Some (replicate (n `min` 128) (Ready tt) ++ replicate (n - 128) Pending, b,
          replicate (n - 128) cx) ∧
  (∀ b', with_unconstrained (charge n cx) b' = Some (replicate n (Ready tt), b', [])) ∧
  charge n cx None = Some (replicate n (Ready tt), None, []).
Proof.
  assert (charge n cx None = Some (replicate n (Ready tt), None, [])) as HN.
  { induction n as [|n IH]; [done|]. simpl. unfold bind at 1. unfold poll_proceed at 1. run_M.
    by rewrite IH. }
  split_and!; [| |done].
  - unfold budget. run_M. rewrite charge_spec by done. run_M. by rewrite app_nil_r.
  - intros b'. unfold with_unconstrained. run_M. by rewrite HN.
Qed.
