(* ===== verification/Notify.v ===== *)
(** The async condition variable ([src/src/sync/notify.rs]).

    Notifications reach a waiter through three separate accesses -- the queue
    under the [Inner] lock, the [woken] flag, the stored waker -- and a poll
    looks at them in its own order; here each access is one step and any
    number of polls, [enable]s and notifiers interleave.  A future and its
    [WaiterState] share an identity, which also stands for the waker of the
    task that polls it. *)

From S2P Require Import Prelude Coop.

Record WaiterState := mkWaiterState {
  woken : bool;
  stored : option waker;
}.

Record Inner := mkInner {
  permits : Z;
  waiters : list nat;
}.

Definition new : Inner := mkInner 0 [].
Definition WaiterState_new : WaiterState := mkWaiterState false None.

(** ** [poll_notified] and [enable] *)

Inductive poll_pc := pn_coop | pn_woken | pn_lock | pn_store | pn_recheck.

(** One access of [poll_notified] by future [id]; [b] is the budget in scope
    at [pn_coop].  Returns the new lock content, [registered] flag and waiter
    state, what comes next, and the wakes done. *)
Definition poll_notified (b : BUDGET) (id : nat) (pc : poll_pc)
    (i : Inner) (registered : bool) (st : WaiterState)
    : Inner * bool * WaiterState * next poll_pc (poll unit) * list waker :=
  match pc with
  | pn_coop =>
      match poll_proceed id b with
      | Some (Pending, _, ws) => (i, registered, st, Return Pending, ws)
      | Some (Ready _, _, ws) => (i, registered, st, Continue pn_woken, ws)
      | None => (i, registered, st, Panicked, [])
      end
  | pn_woken =>
      (i, registered, st, if st.(woken) then Return (Ready tt) else Continue pn_lock, [])
  | pn_lock =>
      if registered then (i, registered, st, Continue pn_store, [])
      else if 0 <? i.(permits)
           then (mkInner (i.(permits) - 1) i.(waiters), registered, st, Return (Ready tt), [])
           else (mkInner i.(permits) (i.(waiters) ++ [id]), true, st, Continue pn_store, [])
  | pn_store =>
      (i, registered, mkWaiterState st.(woken) (Some id), Continue pn_recheck, [])
  | pn_recheck =>
      (i, registered, st, Return (if st.(woken) then Ready tt else Pending), [])
  end.

Inductive enable_pc := en_woken | en_lock.

Definition enable (id : nat) (pc : enable_pc) (i : Inner) (registered : bool) (st : WaiterState)
    : Inner * bool * WaiterState * next enable_pc bool :=
  match pc with
  | en_woken =>
      (i, registered, st,
        if st.(woken) then Return true
        else if registered then Return false else Continue en_lock)
  | en_lock =>
      if 0 <? i.(permits)
      then (mkInner (i.(permits) - 1) i.(waiters), registered, mkWaiterState true st.(stored),
            Return true)
      else (mkInner i.(permits) (i.(waiters) ++ [id]), true, st, Return false)
  end.

(** ** Notifiers *)

Inductive notify_kind := notify_one | notify_last | notify_waiters.

(** The critical section of each notifier: the waiters it has popped and will
    fire, in order. *)
Definition notify_pop `{BuildProfile} (k : notify_kind) : M Inner (list nat) :=
  let! i := get in
  match k with
  | notify_one =>
      match i.(waiters) with
      | id :: rest => put (mkInner i.(permits) rest) ;! ret [id]
      | [] =>
          let! p := lift (uadd usize_bits i.(permits) 1) in
          put (mkInner p []) ;! ret []
      end
  | notify_last =>
      match last i.(waiters) with
      | Some id => put (mkInner i.(permits) (take (pred (length i.(waiters))) i.(waiters))) ;! ret [id]
      | None =>
          let! p := lift (uadd usize_bits i.(permits) 1) in
          put (mkInner p []) ;! ret []
      end
  | notify_waiters =>
      put (mkInner i.(permits) []) ;! ret i.(waiters)
  end.

(** [fire], in two accesses: store [woken], then take the waker and wake it. *)
Definition fire_store (st : WaiterState) : WaiterState := mkWaiterState true st.(stored).
Definition fire_take (st : WaiterState) : WaiterState * list waker :=
  (mkWaiterState st.(woken) None, match st.(stored) with Some w => [w] | None => [] end).

(** ** The system *)

(** What a [Notified] future is doing; [Parked] once a poll told its task to
    wait. *)
Inductive phase := Idle | Parked | Polling (pc : poll_pc) | Enabling (pc : enable_pc) | Done | Dropped.

(** [ready]: its task has been woken since it last began a poll. *)
Record fut := mkFut {
  fstate : WaiterState;
  registered : bool;
  fphase : phase;
  ready : bool;
}.

(** A notifier past its critical section: the waiters left to fire, and
    whether the first one's [woken] has been stored already. *)
Record notifier := mkNotifier { to_fire : list nat; stored_first : bool }.

Record world := mkWorld {
  inner : Inner;
  futs : list fut;
  notifiers : list notifier;
}.

Definition wake1 (fs : list fut) (w : waker) : list fut :=
  match fs !! w with
  | Some f => <[w := mkFut f.(fstate) f.(registered) f.(fphase) true]> fs
  | None => fs
  end.

Definition after_poll (n : next poll_pc (poll unit)) (p : phase) : phase :=
  match n with
  | Continue pc => Polling pc
  | Return (Ready _) => Done
  | Return Pending => Parked
  | Panicked => p
  end.

Definition after_enable (n : next enable_pc bool) (p : phase) : phase :=
  match n with
  | Continue pc => Enabling pc
  | Return _ => Idle
  | Panicked => p
  end.

Inductive wstep `{BuildProfile} : world → world → Prop :=
| w_notified W :
    wstep W (mkWorld W.(inner) (W.(futs) ++ [mkFut WaiterState_new false Idle false]) W.(notifiers))
| w_poll_begin W id f :
    W.(futs) !! id = Some f → f.(fphase) = Idle ∨ f.(fphase) = Parked →
    wstep W (mkWorld W.(inner)
      (<[id := mkFut f.(fstate) f.(registered) (Polling pn_coop) false]> W.(futs)) W.(notifiers))
| w_poll W id f pc b i r st n ws :
    W.(futs) !! id = Some f → f.(fphase) = Polling pc →
    poll_notified b id pc W.(inner) f.(registered) f.(fstate) = (i, r, st, n, ws) →
    wstep W (mkWorld i
      (foldl wake1 (<[id := mkFut st r (after_poll n f.(fphase)) f.(ready)]> W.(futs)) ws)
      W.(notifiers))
| w_enable_begin W id f :
    W.(futs) !! id = Some f → f.(fphase) = Idle →
    wstep W (mkWorld W.(inner)
      (<[id := mkFut f.(fstate) f.(registered) (Enabling en_woken) f.(ready)]> W.(futs)) W.(notifiers))
| w_enable W id f pc i r st n :
    W.(futs) !! id = Some f → f.(fphase) = Enabling pc →
    enable id pc W.(inner) f.(registered) f.(fstate) = (i, r, st, n) →
    wstep W (mkWorld i
      (<[id := mkFut st r (after_enable n f.(fphase)) f.(ready)]> W.(futs)) W.(notifiers))
| w_drop W id f :
    W.(futs) !! id = Some f → f.(fphase) = Idle ∨ f.(fphase) = Parked ∨ f.(fphase) = Done →
    wstep W (mkWorld W.(inner)
      (<[id := mkFut f.(fstate) f.(registered) Dropped f.(ready)]> W.(futs)) W.(notifiers))
| w_notify W k i popped ws :
    notify_pop k W.(inner) = Some (popped, i, ws) →
    wstep W (mkWorld i W.(futs) (W.(notifiers) ++ [mkNotifier popped false]))
| w_fire_store W j id rest f :
    W.(notifiers) !! j = Some (mkNotifier (id :: rest) false) →
    W.(futs) !! id = Some f →
    wstep W (mkWorld W.(inner)
      (<[id := mkFut (fire_store f.(fstate)) f.(registered) f.(fphase) f.(ready)]> W.(futs))
      (<[j := mkNotifier (id :: rest) true]> W.(notifiers)))
| w_fire_take W j id rest f st ws :
    W.(notifiers) !! j = Some (mkNotifier (id :: rest) true) →
    W.(futs) !! id = Some f → fire_take f.(fstate) = (st, ws) →
    wstep W (mkWorld W.(inner)
      (foldl wake1 (<[id := mkFut st f.(registered) f.(fphase) f.(ready)]> W.(futs)) ws)
      (<[j := mkNotifier rest false]> W.(notifiers))).

Definition notify_reachable `{BuildProfile} : world → Prop :=
  reachable (.= mkWorld new [] []) wstep.

(** A notifier has popped [id] and has yet to finish firing it. *)
Definition firing (W : world) (id : nat) : Prop :=
  ∃ j nt, W.(notifiers) !! j = Some nt ∧ id ∈ nt.(to_fire).

(** A notifier is about to take [id]'s waker. *)
Definition taking (W : world) (id : nat) : Prop :=
  ∃ j rest, W.(notifiers) !! j = Some (mkNotifier (id :: rest) true).

(** ** The invariant *)

Record fut_ok (W : world) (id : nat) (f : fut) : Prop := {
  (* a registered waiter that was not notified can be reached by a notifier *)
  fo_registered : f.(registered) = true → f.(fstate).(woken) = false →
    id ∈ W.(inner).(waiters) ∨ firing W id;
  (* a task told to wait is woken already, or will be: its waker is stored *)
  fo_parked : f.(fphase) = Parked → f.(ready) = true ∨
    (f.(registered) = true ∧ f.(fstate).(stored) = Some id ∧
     (f.(fstate).(woken) = true → taking W id));
  fo_store : f.(fphase) = Polling pn_store → f.(registered) = true;
  fo_recheck : f.(fphase) = Polling pn_recheck → f.(registered) = true ∧
    (f.(fstate).(woken) = false → f.(fstate).(stored) = Some id);
}.

Record WInv (W : world) : Prop := {
  wi_permits : 0 ≤ W.(inner).(permits) ∧ (0 < W.(inner).(permits) → W.(inner).(waiters) = []);
  wi_futs : ∀ id f, W.(futs) !! id = Some f → fut_ok W id f;
  wi_taking : ∀ id, taking W id → ∃ f, W.(futs) !! id = Some f ∧ f.(fstate).(woken) = true;
}.

Lemma wake1_lookup fs w id :
  wake1 fs w !! id =
    (if decide (id = w)
     then (λ f, mkFut f.(fstate) f.(registered) f.(fphase) true) <$> fs !! id else fs !! id).
Proof.
  unfold wake1. destruct (fs !! w) as [f|] eqn:E; case_decide as Hd; subst.
  - rewrite list_lookup_insert_eq by (by eapply lookup_lt_Some). by rewrite E.
  - by rewrite list_lookup_insert_ne.
  - by rewrite E.
  - done.
Qed.

(** Moving to a world where the notifiers can do at least as much. *)
Lemma fut_ok_mono W W' id f :
  (id ∈ W.(inner).(waiters) ∨ firing W id → id ∈ W'.(inner).(waiters) ∨ firing W' id) →
  (taking W id → taking W' id) →
  fut_ok W id f → fut_ok W' id f.
Proof. intros Hf Ht [H1 H2 H3 H4]. split; [auto| |done|done]. intros Hp. destruct (H2 Hp); naive_solver. Qed.

(** A step of future [id] alone, on the lock content and its own record. *)
Lemma WInv_fut W id f f' i :
  WInv W → W.(futs) !! id = Some f →
  (0 ≤ i.(permits) ∧ (0 < i.(permits) → i.(waiters) = [])) →
  (∀ k, k ∈ W.(inner).(waiters) → k ∈ i.(waiters)) →
  (f.(fstate).(woken) = true → f'.(fstate).(woken) = true) →
  fut_ok (mkWorld i (<[id := f']> W.(futs)) W.(notifiers)) id f' →
  WInv (mkWorld i (<[id := f']> W.(futs)) W.(notifiers)).
Proof.
  intros [Hp Hf Ht] Hid Hi Hw Hwk Hok. pose proof (lookup_lt_Some _ _ _ Hid).
  split; simpl; [done| |].
  - intros k g. destruct (decide (id = k)) as [<-|Hne].
    + rewrite list_lookup_insert_eq by done. by intros [= <-].
    + rewrite list_lookup_insert_ne by done. intros Hg.
      eapply fut_ok_mono; [| |exact (Hf _ _ Hg)]; simpl; [|done].
      intros [|]; [left; auto|by right].
  - intros k Hk. destruct (Ht k Hk) as (g & Hg & Hgw). destruct (decide (id = k)) as [<-|Hne].
    + rewrite list_lookup_insert_eq by done. eexists; split; [done|]. apply Hwk. congruence.
    + rewrite list_lookup_insert_ne by done. eauto.
Qed.

Lemma WInv_wake W w : WInv W → WInv (mkWorld W.(inner) (wake1 W.(futs) w) W.(notifiers)).
Proof.
  intros [Hp Hf Ht]. split; simpl; [done| |].
  - intros id f. rewrite wake1_lookup. case_decide as Hd.
    + destruct (futs W !! id) as [g|] eqn:E; [|done]. intros [= <-].
      destruct (Hf _ _ E) as [H1 H2 H3 H4]. by split; simpl; [|left| |].
    + intros Hid. by destruct (Hf _ _ Hid) as [H1 H2 H3 H4].
  - intros id Hk. destruct (Ht id Hk) as (g & Hg & Hgw). rewrite wake1_lookup, Hg.
    case_decide; eexists; split; done.
Qed.

Ltac fut_tac := split; simpl in *; intros; try congruence; auto.

(** The accesses of a poll and of an [enable]. *)
Lemma WInv_poll W id f pc b i r st n ws :
  WInv W → W.(futs) !! id = Some f → f.(fphase) = Polling pc →
  poll_notified b id pc W.(inner) f.(registered) f.(fstate) = (i, r, st, n, ws) →
  WInv (mkWorld i
      (foldl wake1 (<[id := mkFut st r (after_poll n f.(fphase)) f.(ready)]> W.(futs)) ws)
      W.(notifiers)).
Proof.
  intros HW Hid Hph Hpoll. pose proof (wi_futs _ HW _ _ Hid) as [Hr Hpk Hs Hre].
  pose proof (wi_permits _ HW) as [Hp0 Hp1]. pose proof (lookup_lt_Some _ _ _ Hid).
  destruct pc; simpl in Hpoll.
  - assert (∀ p, p ≠ Polling pn_store → p ≠ Polling pn_recheck → p ≠ Parked →
      WInv (mkWorld (inner W) (<[id := mkFut (fstate f) (registered f) p (ready f)]> (futs W))
              (notifiers W))) as Hother.
    { intros p ???. apply WInv_fut with f; auto. fut_tac. }
    unfold poll_proceed in Hpoll. revert Hpoll. run_M.
    destruct b as [[|q|q]|]; intros ?; simplify_eq/=; try (by apply Hother).
    unfold wake1. rewrite list_lookup_insert_eq by done. simpl. rewrite list_insert_insert_eq.
    apply WInv_fut with f; auto. fut_tac.
  - simplify_eq. simpl. apply WInv_fut with f; auto. destruct (woken (fstate f)) eqn:Ew; fut_tac.
  - destruct (registered f) eqn:Er; simplify_eq; simpl.
    { apply WInv_fut with f; auto. fut_tac. }
    destruct (Z.ltb_spec 0 (permits (inner W))); simplify_eq; simpl.
    + apply WInv_fut with f; simpl; auto; [intuition lia|]. fut_tac.
    + apply WInv_fut with f; simpl; auto; [intuition lia|set_solver|].
      fut_tac. left. set_solver.
  - simplify_eq. simpl. apply WInv_fut with f; auto. fut_tac.
  - simplify_eq. simpl. apply WInv_fut with f; auto. destruct (Hre Hph) as [Hreg Hst].
    destruct (woken (fstate f)) eqn:Ew; fut_tac. right. intuition congruence.
Qed.

Lemma WInv_enable W id f pc i r st n :
  WInv W → W.(futs) !! id = Some f → f.(fphase) = Enabling pc →
  enable id pc W.(inner) f.(registered) f.(fstate) = (i, r, st, n) →
  WInv (mkWorld i (<[id := mkFut st r (after_enable n f.(fphase)) f.(ready)]> W.(futs)) W.(notifiers)).
Proof.
  intros HW Hid Hph Hen. pose proof (wi_futs _ HW _ _ Hid) as [Hr Hpk Hs Hre].
  pose proof (wi_permits _ HW) as [Hp0 Hp1].
  destruct pc; simpl in Hen.
  - simplify_eq. apply WInv_fut with f; auto.
    destruct (woken (fstate f)) eqn:Ew; [|destruct (registered f) eqn:Er]; fut_tac.
  - destruct (Z.ltb_spec 0 (permits (inner W))); simplify_eq; simpl.
    + apply WInv_fut with f; simpl; auto; [intuition lia|]. fut_tac.
    + apply WInv_fut with f; simpl; auto; [intuition lia|set_solver|].
      fut_tac. left. set_solver.
Qed.

(** A notifier leaves nobody behind. *)
Lemma notify_pop_covers `{BuildProfile} k i popped i' ws :
  notify_pop k i = Some (popped, i', ws) →
  (∀ id, id ∈ i.(waiters) → id ∈ popped ∨ id ∈ i'.(waiters)) ∧
  (0 ≤ i.(permits) → (0 < i.(permits) → i.(waiters) = []) →
   0 ≤ i'.(permits) ∧ (0 < i'.(permits) → i'.(waiters) = [])).
Proof.
  destruct k; simpl; unfold notify_pop.
  - destruct (waiters i) as [|id rest] eqn:E; run_M; rewrite E; simpl.
    + destruct (uadd usize_bits (permits i) 1) eqn:Eu; run_M; intros; simplify_eq/=.
      split; [set_solver|]. intros. eapply uadd_range in Eu; [|done|done|done].
      unfold in_range in Eu. split; [lia|done].
    + intros; simplify_eq; simpl. split; [set_solver|]. intros ? Hw. split; [done|]. intros Hlt.
      discriminate (Hw Hlt).
  - destruct (last (waiters i)) as [id|] eqn:E; run_M; rewrite E; simpl.
    + intros; simplify_eq; simpl. apply last_Some in E as [l' ->].
      rewrite length_app, Nat.add_comm. simpl. rewrite take_app_length.
      split; [set_solver|]. intros ? Hw. split; [done|]. intros Hlt. specialize (Hw Hlt).
      by destruct l'.
    + apply last_None in E. rewrite E.
      destruct (uadd usize_bits (permits i) 1) eqn:Eu; run_M; intros; simplify_eq/=.
      split; [set_solver|]. intros. eapply uadd_range in Eu; [|done|done|done].
      unfold in_range in Eu. split; [lia|done].
  - run_M. intros; simplify_eq; simpl. split; [auto|]. done.
Qed.

Lemma firing_notifiers W W' id j nt :
  W.(notifiers) !! j = Some nt →
  (∀ k nt', k ≠ j → W.(notifiers) !! k = Some nt' → W'.(notifiers) !! k = Some nt') →
  firing W id → id ∈ nt.(to_fire) ∨ firing W' id.
Proof.
  intros Hj Hk (k & nt' & Hk' & Hin). destruct (decide (k = j)) as [->|].
  - left. by simplify_eq.
  - right. exists k, nt'. auto.
Qed.

(** The three accesses of a notifier. *)
Lemma WInv_notify `{BuildProfile} W k i popped ws :
  WInv W → notify_pop k W.(inner) = Some (popped, i, ws) →
  WInv (mkWorld i W.(futs) (W.(notifiers) ++ [mkNotifier popped false])).
Proof.
  intros [[Hp0 Hp1] Hf Ht] Hpop. apply notify_pop_covers in Hpop as [Hcov Hperm].
  split; simpl; [auto| |].
  - intros id f Hid. eapply fut_ok_mono; [| |exact (Hf _ _ Hid)]; simpl.
    + intros [Hin|(j & nt & Hj & Hin)].
      * destruct (Hcov _ Hin) as [Hin'|]; [right|by left].
        exists (length (notifiers W)), (mkNotifier popped false). split; [by apply list_lookup_middle|done].
      * right. exists j, nt. split; [by apply lookup_app_l_Some|done].
    + intros (j & rest & Hj). exists j, rest. by apply lookup_app_l_Some.
  - intros id (j & rest & Hj). apply Ht. simpl in Hj. apply lookup_snoc_inv in Hj as [Hj|Hj]; [|done].
    by exists j, rest.
Qed.

Lemma WInv_fire_store W j id rest f :
  WInv W → W.(notifiers) !! j = Some (mkNotifier (id :: rest) false) → W.(futs) !! id = Some f →
  WInv (mkWorld W.(inner)
      (<[id := mkFut (fire_store f.(fstate)) f.(registered) f.(fphase) f.(ready)]> W.(futs))
      (<[j := mkNotifier (id :: rest) true]> W.(notifiers))).
Proof.
  intros [Hp Hf Ht] Hj Hid.
  pose proof (lookup_lt_Some _ _ _ Hj). pose proof (lookup_lt_Some _ _ _ Hid).
  set (W' := mkWorld _ _ _).
  assert (∀ k, firing W k → firing W' k) as Hfi.
  { intros k (l & nt & Hl & Hin). destruct (decide (j = l)) as [<-|].
    - simplify_eq. exists j, (mkNotifier (id :: rest) true). split; [by apply list_lookup_insert_eq|done].
    - exists l, nt. split; [by rewrite <- Hl; apply list_lookup_insert_ne|done]. }
  assert (∀ k, taking W k → taking W' k) as Hta.
  { intros k (l & r & Hl). exists l, r. rewrite <- Hl. apply list_lookup_insert_ne. congruence. }
  assert (taking W' id) as Hid' by (exists j, rest; by apply list_lookup_insert_eq).
  split; [done| |].
  - intros k g. unfold W' at 1; simpl. destruct (decide (id = k)) as [<-|Hne].
    + rewrite list_lookup_insert_eq by done. intros [= <-].
      destruct (Hf _ _ Hid) as [H1 H2 H3 H4]. split; simpl; try done; [|naive_solver].
      intros Hph. destruct (H2 Hph) as [|(? & ? & ?)]; [by left|by right].
    + rewrite list_lookup_insert_ne by done. intros Hg.
      eapply fut_ok_mono; [| |exact (Hf _ _ Hg)]; auto. intros [|]; [by left|right; auto].
  - intros k (l & r & Hl). unfold W' in *; simpl in *. destruct (decide (id = k)) as [<-|Hne].
    + rewrite list_lookup_insert_eq by done. eexists; split; done.
    + rewrite list_lookup_insert_ne by done. apply Ht. exists l, r.
      destruct (decide (j = l)) as [<-|]; [rewrite list_lookup_insert_eq in Hl by done; congruence|].
      by rewrite list_lookup_insert_ne in Hl.
Qed.

Lemma WInv_taken W j id rest f rdy :
  WInv W → W.(notifiers) !! j = Some (mkNotifier (id :: rest) true) → W.(futs) !! id = Some f →
  (f.(fphase) = Parked → rdy = true) →
  WInv (mkWorld W.(inner)
      (<[id := mkFut (mkWaiterState f.(fstate).(woken) None) f.(registered) f.(fphase) rdy]> W.(futs))
      (<[j := mkNotifier rest false]> W.(notifiers))).
Proof.
  intros [Hp Hf Ht] Hj Hid Hrdy.
  pose proof (lookup_lt_Some _ _ _ Hj). pose proof (lookup_lt_Some _ _ _ Hid).
  assert (woken (fstate f) = true) as Hwk.
  { destruct (Ht id) as (g & Hg & ?); [by exists j, rest|congruence]. }
  set (W' := mkWorld _ _ _).
  assert (∀ k, k ≠ id → firing W k → firing W' k) as Hfi.
  { intros k Hk (l & nt & Hl & Hin). destruct (decide (j = l)) as [<-|].
    - simplify_eq. exists j, (mkNotifier rest false). split; [by apply list_lookup_insert_eq|].
      simpl in *. set_solver.
    - exists l, nt. split; [by rewrite <- Hl; apply list_lookup_insert_ne|done]. }
  assert (∀ k, k ≠ id → taking W k → taking W' k) as Hta.
  { intros k Hk (l & r & Hl). exists l, r. rewrite <- Hl. apply list_lookup_insert_ne. congruence. }
  split; [done| |].
  - intros k g. unfold W' at 1; simpl. destruct (decide (id = k)) as [<-|Hne].
    + rewrite list_lookup_insert_eq by done. intros [= <-].
      destruct (Hf _ _ Hid) as [H1 H2 H3 H4]. split; simpl; rewrite ?Hwk; try done.
      * intros Hph. left. auto.
      * intros Hph. split; [|done]. by apply H4.
    + rewrite list_lookup_insert_ne by done. intros Hg.
      eapply fut_ok_mono; [| |exact (Hf _ _ Hg)]; auto. intros [|]; [by left|right; auto].
  - intros k (l & r & Hl). unfold W' in *; simpl in *.
    destruct (decide (j = l)) as [<-|]; [rewrite list_lookup_insert_eq in Hl by done; congruence|].
    rewrite list_lookup_insert_ne in Hl by done. destruct (decide (id = k)) as [<-|Hne].
    + rewrite list_lookup_insert_eq by done. eexists; split; done.
    + rewrite list_lookup_insert_ne by done. apply Ht. by exists l, r.
Qed.

Lemma WInv_fire_take W j id rest f st ws :
  WInv W → W.(notifiers) !! j = Some (mkNotifier (id :: rest) true) →
  W.(futs) !! id = Some f → fire_take f.(fstate) = (st, ws) →
  WInv (mkWorld W.(inner)
      (foldl wake1 (<[id := mkFut st f.(registered) f.(fphase) f.(ready)]> W.(futs)) ws)
      (<[j := mkNotifier rest false]> W.(notifiers))).
Proof.
  intros HW Hj Hid. unfold fire_take. intros [= <- <-].
  pose proof (lookup_lt_Some _ _ _ Hid).
  pose proof (fo_parked _ _ _ (wi_futs _ HW _ _ Hid)) as Hpk.
  destruct (stored (fstate f)) as [w|] eqn:Est; simpl.
  - destruct (decide (w = id)) as [->|Hne].
    + unfold wake1. rewrite list_lookup_insert_eq by done. simpl. rewrite list_insert_insert_eq.
      by eapply WInv_taken.
    + eapply (WInv_wake (mkWorld _ _ _) w). eapply WInv_taken; eauto.
      intros Hph. destruct (Hpk Hph) as [|(_ & ? & _)]; [done|congruence].
  - eapply WInv_taken; eauto. intros Hph. destruct (Hpk Hph) as [|(_ & ? & _)]; [done|congruence].
Qed.

Lemma notify_WInv_step `{BuildProfile} W W' : WInv W → wstep W W' → WInv W'.
Proof.
  intros HW Hs. destruct Hs as [W|W id f Hid Hph|W id f pc b i r st n ws Hid Hph Hpo|W id f Hid Hph
    |W id f pc i r st n Hid Hph Hen|W id f Hid Hph|W k i popped ws Hpop|W j id rest f Hj Hid
    |W j id rest f st ws Hj Hid Hft].
  - destruct HW as [Hp Hf Ht]. split; simpl; [done| |].
    + intros id f [Hid|Hid]%lookup_snoc_inv.
      * eapply fut_ok_mono; [| |exact (Hf _ _ Hid)]; done.
      * subst f. fut_tac.
    + intros id Hk. destruct (Ht id Hk) as (f & Hf' & ?). exists f.
      split; [by apply lookup_app_l_Some|done].
  - apply WInv_fut with f; auto; [apply HW|].
    destruct (wi_futs _ HW _ _ Hid) as [H1 H2 H3 H4]. fut_tac.
  - by eapply WInv_poll.
  - apply WInv_fut with f; auto; [apply HW|].
    destruct (wi_futs _ HW _ _ Hid) as [H1 H2 H3 H4]. fut_tac.
  - by eapply WInv_enable.
  - apply WInv_fut with f; auto; [apply HW|].
    destruct (wi_futs _ HW _ _ Hid) as [H1 H2 H3 H4]. fut_tac.
  - by eapply WInv_notify.
  - by apply WInv_fire_store.
  - by eapply WInv_fire_take.
Qed.

Lemma notify_reachable_inv `{BuildProfile} W : notify_reachable W → WInv W.
Proof.
  apply invariant_reachable; [|eauto using notify_WInv_step]. intros ? ->. split; simpl.
  - done.
  - done.
  - by intros id (j & rest & Hj).
Qed.

(** C11: no notification is lost in the window between the three accesses of a
    poll and the three of a notifier.  A future whose task was told to wait,
    and has not been woken since, is still in the queue for the next
    notification or is being fired by a notifier right now, and its waker is
    in place for that notifier to find; and no permit is banked while anyone
    is queued. *)
Theorem parked_not_forgotten `{BuildProfile} W id f :
  notify_reachable W → W.(futs) !! id = Some f → f.(fphase) = Parked → f.(ready) = false →
  f.(fstate).(stored) = Some id ∧ (id ∈ W.(inner).(waiters) ∨ firing W id) ∧
  (0 < W.(inner).(permits) → W.(inner).(waiters) = []).
Proof.
  intros HW%notify_reachable_inv Hid Hph Hrdy.
  destruct (wi_futs _ HW _ _ Hid) as [H1 H2 _ _].
  destruct (H2 Hph) as [|(Hreg & Hst & Htk)]; [congruence|].
  split_and!; [done| |apply HW]. destruct (woken (fstate f)) eqn:Ew; [|by auto].
  right. destruct (Htk eq_refl) as (j & rest & Hj).
  exists j, (mkNotifier (id :: rest) true). split; [done|]. simpl. set_solver.
Qed.

(** A future parks, then a notifier pops it and stores its flag. *)
Definition notify_demo : world :=
  mkWorld (mkInner 0 []) [mkFut (mkWaiterState true (Some 0%nat)) true Parked false]
    [mkNotifier [0%nat] true].

Lemma notify_demo_reachable : @notify_reachable dev_profile notify_demo.
Proof.
  eexists. split; [reflexivity|].
  eapply rtc_l; [eapply w_notified|].
  eapply rtc_l; [eapply (w_poll_begin _ 0%nat); [reflexivity|by left]|].
  do 5 (eapply rtc_l; [eapply (w_poll _ 0%nat _ _ None); reflexivity|]).
  eapply rtc_l; [eapply (w_notify _ notify_one); reflexivity|].
  eapply rtc_l; [eapply (w_fire_store _ 0%nat); reflexivity|].
  apply rtc_refl.
Qed.

Lemma parked_not_forgotten_witness :
  @notify_reachable dev_profile notify_demo ∧ (0%nat ∈ notify_demo.(inner).(waiters) ∨ firing notify_demo 0%nat).
Proof.
  split; [exact notify_demo_reachable|].
  apply (@parked_not_forgotten dev_profile notify_demo 0%nat
    (mkFut (mkWaiterState true (Some 0%nat)) true Parked false) notify_demo_reachable);
    reflexivity.
Defined.

(** A flaw.  [Notified] has no destructor: one dropped while it is queued
    swallows the [notify_one] meant for whoever waits behind it -- nothing is
    banked and the live waiter is not woken. *)
Theorem dropped_notified_swallows `{BuildProfile} :
  ∃ W f, notify_reachable W ∧ W.(notifiers) = [mkNotifier [] false] ∧
    W.(inner) = mkInner 0 [1%nat] ∧
    fphase <$> W.(futs) !! 0%nat = Some Dropped ∧
    W.(futs) !! 1%nat = Some f ∧ f.(fphase) = Parked ∧ f.(ready) = false.
Proof.
  do 2 eexists. split; [eexists; split; [reflexivity|]|].
  - do 2 (eapply rtc_l; [eapply w_notified|]; simpl).
    eapply rtc_l; [eapply (w_poll_begin _ 0%nat); [reflexivity|by left]|]; simpl.
    do 5 (eapply rtc_l; [eapply (w_poll _ 0%nat _ _ None); reflexivity|]; simpl).
    eapply rtc_l; [eapply (w_poll_begin _ 1%nat); [reflexivity|by left]|]; simpl.
    do 5 (eapply rtc_l; [eapply (w_poll _ 1%nat _ _ None); reflexivity|]; simpl).
    eapply rtc_l; [eapply (w_drop _ 0%nat); [reflexivity|by right; left]|]; simpl.
    eapply rtc_l; [eapply (w_notify _ notify_one); reflexivity|]; simpl.
    eapply rtc_l; [eapply (w_fire_store _ 0%nat); reflexivity|]; simpl.
    eapply rtc_l; [eapply (w_fire_take _ 0%nat); reflexivity|]; simpl.
    apply rtc_refl.
  - simpl. repeat split.
Qed.
