(* ===== verification/Semaphore.v ===== *)
(** The counting semaphore ([src/src/sync/semaphore.rs]).

    [State] is the content of the [StdMutex]; the [Arc<AtomicU8>] outcome
    cells shared by a queued waiter and its future live in [outcomes], keyed
    by the identity of the acquire call that allocated them.  One critical
    section is one computation of the [M] monad; the outcome stores of
    [close], which follow its critical section, touch cells that no other
    operation can write any more and belong to the same step. *)

From S2P Require Import Prelude.

Definition WAITER_PENDING : Z := 0.
Definition WAITER_GRANTED : Z := 1.
Definition WAITER_CLOSED : Z := 2.

Record Waiter := mkWaiter {
  needed : Z;
  outcome : nat;
  waiter_waker : waker;
}.

Record State := mkState {
  permits : Z;
  closed : bool;
  waiters : list Waiter;
  outcomes : gmap nat Z;
}.

Inductive TryAcquireError := TryClosed | NoPermits.

Definition MAX_PERMITS : Z := Z.shiftr usize_max 3.

Definition const_new (n : Z) : State := mkState n false [] ∅.
Definition new (n : Z) : option State :=
  if n <=? MAX_PERMITS then Some (const_new n) else None.

Definition available_permits : M State Z :=
  let! s := get in ret s.(permits).

Definition is_closed : M State bool :=
  let! s := get in ret s.(closed).

Definition forget_permits (n : Z) : M State Z :=
  let! s := get in
  let forgotten := Z.min n s.(permits) in
  put (mkState (s.(permits) - forgotten) s.(closed) s.(waiters) s.(outcomes)) ;!
  ret forgotten.

(** The loop of [release]: pop and pay waiters from the front while the front
    one fits; returns the popped waiters, in order, the permits left and the
    queue left. *)
Fixpoint grant_waiters (p : Z) (ws : list Waiter) : list Waiter * Z * list Waiter :=
  match ws with
  | [] => ([], p, [])
  | front :: rest =>
      if p <? front.(needed) then ([], p, ws)
      else let '(popped, p', remaining) := grant_waiters (p - front.(needed)) rest in
           (front :: popped, p', remaining)
  end.

Definition store_outcomes (v : Z) (ws : list Waiter) (cells : gmap nat Z) : gmap nat Z :=
  foldl (λ m w, <[w.(outcome) := v]> m) cells ws.

Definition release `{BuildProfile} (n : Z) : M State unit :=
  let! s := get in
  let! p := lift (uadd usize_bits s.(permits) n) in
  let '(popped, p', remaining) := grant_waiters p s.(waiters) in
  put (mkState p' s.(closed) remaining (store_outcomes WAITER_GRANTED popped s.(outcomes))) ;!
  wake_all (map waiter_waker popped).

Definition add_permits `{BuildProfile} (n : Z) : M State unit := release n.

Definition close : M State unit :=
  let! s := get in
  if s.(closed) then ret tt
  else
    put (mkState s.(permits) true [] (store_outcomes WAITER_CLOSED s.(waiters) s.(outcomes))) ;!
    wake_all (map waiter_waker s.(waiters)).

(** [try_acquire_many]; the answer is the permit count of the guard. *)
Definition try_acquire_many (n : Z) : M State (result Z TryAcquireError) :=
  let! s := get in
  if s.(closed) then ret (Err TryClosed)
  else if bool_decide (s.(waiters) = []) && (n <=? s.(permits)) then
    put (mkState (s.(permits) - n) s.(closed) s.(waiters) s.(outcomes)) ;!
    ret (Ok n)
  else ret (Err NoPermits).

Definition try_acquire : M State (result Z TryAcquireError) := try_acquire_many 1.

(** The locals of an [acquire_permits] future. *)
Record Acquire := mkAcquire {
  acq_needed : Z;
  acq_outcome : nat;
  registered : bool;
}.

(** The statements of [acquire_permits] before its [poll_fn]: the assertion
    and the allocation of the outcome cell. *)
Definition acquire_start (n : Z) (id : nat) : M State Acquire :=
  assert (0 <? n) ;!
  let! s := get in
  put (mkState s.(permits) s.(closed) s.(waiters) (<[id := WAITER_PENDING]> s.(outcomes))) ;!
  ret (mkAcquire n id false).

(** The closure of [acquire_permits]'s [poll_fn], polled with waker [w]. *)
Definition acquire_poll (w : waker) (f : Acquire)
    : M State (poll (result unit unit) * Acquire) :=
  let! s := get in
  let o := default WAITER_PENDING (s.(outcomes) !! f.(acq_outcome)) in
  if o =? WAITER_GRANTED then ret (Ready (Ok tt), f)
  else if o =? WAITER_CLOSED then ret (Ready (Err tt), f)
  else if f.(registered) then ret (Pending, f)
  else if s.(closed) then ret (Ready (Err tt), f)
  else if bool_decide (s.(waiters) = []) && (f.(acq_needed) <=? s.(permits)) then
    put (mkState (s.(permits) - f.(acq_needed)) s.(closed) s.(waiters) s.(outcomes)) ;!
    ret (Ready (Ok tt), f)
  else
    put (mkState s.(permits) s.(closed)
      (s.(waiters) ++ [mkWaiter f.(acq_needed) f.(acq_outcome) w]) s.(outcomes)) ;!
    ret (Pending, mkAcquire f.(acq_needed) f.(acq_outcome) true).

(** [SemaphorePermit] and [OwnedSemaphorePermit]: what a guard remembers is
    its permit count; [semaphore] distinguishes owners for [merge]. *)
Record OwnedSemaphorePermit := mkPermit { semaphore : nat; num_permits : Z }.

Definition drop_permit `{BuildProfile} (g : OwnedSemaphorePermit) : M State unit :=
  release g.(num_permits).

Definition merge `{BuildProfile} (self other : OwnedSemaphorePermit)
    : option OwnedSemaphorePermit :=
  if bool_decide (self.(semaphore) = other.(semaphore)) then
    n ← uadd usize_bits self.(num_permits) other.(num_permits);
    Some (mkPermit self.(semaphore) n)
  else None.

(** ** The granting loop *)

Definition needs (ws : list Waiter) : Z := foldr (λ w acc, w.(needed) + acc) 0 ws.

Lemma needs_app ws vs : needs (ws ++ vs) = needs ws + needs vs.
Proof. induction ws; simpl; lia. Qed.

(** [release] grants exactly the longest prefix of the queue that fits:
    the queue splits into the granted waiters and the rest in order, the
    granted are paid in full out of the permits, never by more than there
    are, and the first one left does not fit what remains. *)
Theorem grant_waiters_spec p ws :
  0 ≤ p →
  let '(popped, p', remaining) := grant_waiters p ws in
  ws = popped ++ remaining ∧ p' = p - needs popped ∧ 0 ≤ p' ∧
  match remaining with [] => True | w :: _ => p' < w.(needed) end.
Proof.
  revert p. induction ws as [|w ws IH]; intros p Hp; simpl; [split_and!; simpl; lia || done|].
  destruct (Z.ltb_spec p w.(needed)) as [Hlt|Hge]; [split_and!; simpl; lia || done|].
  specialize (IH (p - needed w) ltac:(lia)).
  destruct (grant_waiters (p - needed w) ws) as [[popped p'] remaining].
  destruct IH as (-> & -> & ? & ?). split_and!; simpl; lia || done.
Qed.

Lemma grant_waiters_spec_witness :
  let ws := [mkWaiter 2 0 7%nat; mkWaiter 3 1 8%nat; mkWaiter 1 2 9%nat] in
  grant_waiters 4 ws = ([mkWaiter 2 0 7%nat], 2, [mkWaiter 3 1 8%nat; mkWaiter 1 2 9%nat]) ∧
  (0 ≤ 4 ∧ let '(popped, p', remaining) := grant_waiters 4 ws in
   ws = popped ++ remaining ∧ p' = 4 - needs popped ∧ 0 ≤ p' ∧
   match remaining with [] => True | w :: _ => p' < w.(needed) end).
Proof.
  intros ws. split; [reflexivity|]. split; [lia|].
  apply (grant_waiters_spec 4 ws). lia.
Defined.

(** ** The whole system

    Any number of acquire futures, guards and callers around one semaphore.
    [paid] is a ghost: the grants that no future has collected yet, by
    outcome cell; [total] the permits ever put in, minus those taken out for
    good. *)

Record world := mkWorld {
  sem : State;
  futures : gmap nat Acquire;
  guards : list Z;
  paid : gmap nat Z;
  total : Z;
}.

Definition paid_after (popped : list Waiter) (m : gmap nat Z) : gmap nat Z :=
  foldl (λ m w, <[w.(outcome) := w.(needed)]> m) m popped.

(** The waiters a release of [n] permits pops in state [s]. *)
Definition popped_by (n : Z) (s : State) : list Waiter :=
  (grant_waiters (s.(permits) + n) s.(waiters)).1.1.

Inductive wstep `{BuildProfile} : world → world → Prop :=
| ws_start W id n f s' ws :
    W.(sem).(outcomes) !! id = None → n < 2 ^ usize_bits →
    acquire_start n id W.(sem) = Some (f, s', ws) →
    wstep W (mkWorld s' (<[id := f]> W.(futures)) W.(guards) W.(paid) W.(total))
| ws_pending W id w f f' s' ws :
    W.(futures) !! id = Some f → acquire_poll w f W.(sem) = Some ((Pending, f'), s', ws) →
    wstep W (mkWorld s' (<[id := f']> W.(futures)) W.(guards) W.(paid) W.(total))
| ws_acquired W id w f f' s' ws :
    W.(futures) !! id = Some f → acquire_poll w f W.(sem) = Some ((Ready (Ok tt), f'), s', ws) →
    wstep W (mkWorld s' (delete id W.(futures)) (f.(acq_needed) :: W.(guards))
               (delete id W.(paid)) W.(total))
| ws_failed W id w f f' s' ws :
    W.(futures) !! id = Some f → acquire_poll w f W.(sem) = Some ((Ready (Err tt), f'), s', ws) →
    wstep W (mkWorld s' (delete id W.(futures)) W.(guards) W.(paid) W.(total))
| ws_cancel W id f :
    W.(futures) !! id = Some f →
    wstep W (mkWorld W.(sem) (delete id W.(futures)) W.(guards) W.(paid) W.(total))
| ws_try W n g s' ws :
    0 ≤ n → try_acquire_many n W.(sem) = Some (Ok g, s', ws) →
    wstep W (mkWorld s' W.(futures) (g :: W.(guards)) W.(paid) W.(total))
| ws_drop W g gs gs' o s' ws :
    W.(guards) = gs ++ g :: gs' →
    drop_permit (mkPermit o g) W.(sem) = Some (tt, s', ws) →
    wstep W (mkWorld s' W.(futures) (gs ++ gs')
               (paid_after (popped_by g W.(sem)) W.(paid)) W.(total))
| ws_merge W g1 g2 g gs :
    W.(guards) ≡ₚ g1 :: g2 :: gs →
    num_permits <$> merge (mkPermit 0 g1) (mkPermit 0 g2) = Some g →
    wstep W (mkWorld W.(sem) W.(futures) (g :: gs) W.(paid) W.(total))
| ws_add W n s' ws :
    0 ≤ n → W.(total) + n < 2 ^ usize_bits → add_permits n W.(sem) = Some (tt, s', ws) →
    wstep W (mkWorld s' W.(futures) W.(guards)
               (paid_after (popped_by n W.(sem)) W.(paid)) (W.(total) + n))
| ws_forget W n k s' ws :
    0 ≤ n → forget_permits n W.(sem) = Some (k, s', ws) →
    wstep W (mkWorld s' W.(futures) W.(guards) W.(paid) (W.(total) - k))
| ws_close W s' ws :
    close W.(sem) = Some (tt, s', ws) →
    wstep W (mkWorld s' W.(futures) W.(guards) W.(paid) W.(total)).

Definition winit (W : world) : Prop :=
  ∃ n, 0 ≤ n ∧ new n = Some W.(sem) ∧ W.(futures) = ∅ ∧ W.(guards) = [] ∧
       W.(paid) = ∅ ∧ W.(total) = n.

Record WInv (W : world) : Prop := {
  wi_permits : 0 ≤ W.(sem).(permits);
  wi_head : match W.(sem).(waiters) with [] => True | w :: _ => W.(sem).(permits) < w.(needed) end;
  wi_closed : W.(sem).(closed) = true → W.(sem).(waiters) = [];
  wi_conserve : W.(sem).(permits) + sumZ W.(guards) + msum W.(paid) = W.(total);
  wi_total : W.(total) < 2 ^ usize_bits;
  wi_guards : Forall (λ n, 0 ≤ n) W.(guards);
  wi_paid : ∀ id n, W.(paid) !! id = Some n →
    0 ≤ n ∧ W.(sem).(outcomes) !! id = Some WAITER_GRANTED;
  wi_nodup : NoDup (map outcome W.(sem).(waiters));
  wi_waiters : ∀ w, w ∈ W.(sem).(waiters) →
    0 < w.(needed) ∧ W.(sem).(outcomes) !! w.(outcome) = Some WAITER_PENDING ∧
    (∀ f, W.(futures) !! w.(outcome) = Some f → f.(acq_needed) = w.(needed));
  wi_futures : ∀ id f, W.(futures) !! id = Some f →
    f.(acq_outcome) = id ∧ 0 < f.(acq_needed) ∧
    (if f.(registered)
     then W.(sem).(outcomes) !! id = Some WAITER_PENDING ∧
            id ∈ map outcome W.(sem).(waiters) ∨
          W.(sem).(outcomes) !! id = Some WAITER_GRANTED ∧
            W.(paid) !! id = Some f.(acq_needed) ∨
          W.(sem).(outcomes) !! id = Some WAITER_CLOSED ∧ W.(sem).(closed) = true
     else W.(sem).(outcomes) !! id = Some WAITER_PENDING ∧
            id ∉ map outcome W.(sem).(waiters));
}.

Lemma store_outcomes_in v ws m id :
  id ∈ map outcome ws → store_outcomes v ws m !! id = Some v.
Proof.
  unfold store_outcomes. revert m. induction ws as [|w ws IH] using rev_ind; intros m Hin; [by apply elem_of_nil in Hin|].
  rewrite foldl_app; simpl. destruct (decide (outcome w = id)) as [->|Hne].
  - by rewrite lookup_insert_eq.
  - rewrite lookup_insert_ne by done. apply IH. rewrite map_app in Hin. simpl in Hin. set_solver.
Qed.

Lemma store_outcomes_out v ws m id :
  id ∉ map outcome ws → store_outcomes v ws m !! id = m !! id.
Proof.
  unfold store_outcomes. revert m. induction ws as [|w ws IH]; intros m Hin; [done|].
  simpl in *. rewrite IH by set_solver. rewrite lookup_insert_ne; [done|]. set_solver.
Qed.

Lemma paid_after_out ws m id :
  id ∉ map outcome ws → paid_after ws m !! id = m !! id.
Proof.
  unfold paid_after. revert m. induction ws as [|w ws IH]; intros m Hin; [done|].
  simpl in *. rewrite IH by set_solver. rewrite lookup_insert_ne; [done|]. set_solver.
Qed.

Lemma paid_after_in ws m w :
  NoDup (map outcome ws) → w ∈ ws → paid_after ws m !! w.(outcome) = Some w.(needed).
Proof.
  revert m. induction ws as [|v ws IH]; intros m Hnd Hin; [by apply elem_of_nil in Hin|].
  simpl in Hnd. apply NoDup_cons in Hnd as [Hv Hnd].
  apply elem_of_cons in Hin as [->|Hin].
  - change (paid_after ws (<[outcome v := needed v]> m) !! outcome v = Some (needed v)).
    rewrite paid_after_out by done. by rewrite lookup_insert_eq.
  - by apply (IH (<[outcome v := needed v]> m)).
Qed.

Lemma paid_after_sum ws m :
  NoDup (map outcome ws) → (∀ w, w ∈ ws → m !! w.(outcome) = None) →
  msum (paid_after ws m) = needs ws + msum m.
Proof.
  revert m. induction ws as [|w ws IH]; intros m Hnd Hm; [simpl; lia|].
  simpl in Hnd. apply NoDup_cons in Hnd as [Hw Hnd].
  change (msum (paid_after ws (<[outcome w := needed w]> m)) = needed w + needs ws + msum m).
  rewrite IH; [|done|].
  - rewrite msum_insert; [lia|]. apply Hm. set_solver.
  - intros v Hv. rewrite lookup_insert_ne; [apply Hm; set_solver|].
    intros Heq. apply Hw. rewrite Heq. apply list_elem_of_fmap. by exists v.
Qed.

Lemma release_eq `{BuildProfile} n s :
  s.(permits) + n < 2 ^ usize_bits →
  release n s =
    let '(popped, p', remaining) := grant_waiters (s.(permits) + n) s.(waiters) in
    Some (tt, mkState p' s.(closed) remaining
                (store_outcomes WAITER_GRANTED popped s.(outcomes)), map waiter_waker popped).
Proof.
  intros Hn. unfold release, bind, get, lift. rewrite uadd_in_range by done. simpl.
  by destruct (grant_waiters _ _) as [[popped p'] remaining].
Qed.

(** Giving [n] permits back, whoever they come from. *)
Lemma release_inv `{BuildProfile} W n gs t s' ws :
  WInv W → 0 ≤ n → W.(sem).(permits) + n + sumZ gs + msum W.(paid) = t →
  t < 2 ^ usize_bits → Forall (λ n, 0 ≤ n) gs →
  release n W.(sem) = Some (tt, s', ws) →
  WInv (mkWorld s' W.(futures) gs (paid_after (popped_by n W.(sem)) W.(paid)) t).
Proof.
  intros HW Hn Ht Hlt Hgs. destruct HW as [Hp Hh Hc Hsum Htot _ Hpaid Hnd Hw Hf].
  pose proof (sumZ_nonneg _ Hgs). pose proof (msum_nonneg (paid W) (λ k n H, proj1 (Hpaid k n H))).
  rewrite release_eq by lia.
  pose proof (grant_waiters_spec (permits (sem W) + n) (waiters (sem W)) ltac:(lia)) as Hg.
  unfold popped_by. destruct (grant_waiters _ _) as [[popped p'] remaining]. simpl.
  destruct Hg as (Hws & -> & Hp' & Hhead). intros [= <- <-].
  rewrite Hws in *. rewrite map_app in Hnd. apply NoDup_app in Hnd as (Hnd1 & Hnd12 & Hnd2).
  assert (∀ w, w ∈ popped → paid W !! outcome w = None) as Hnone.
  { intros w Hin. destruct (paid W !! outcome w) eqn:E; [|done].
    apply Hpaid in E as [_ E]. destruct (Hw w) as (_ & E' & _); [set_solver|].
    rewrite E in E'. discriminate. }
  assert (∀ id, id ∈ map outcome remaining → id ∉ map outcome popped) as Hout by set_solver.
  split; simpl; try done.
  - intros Hcl. by apply Hc, app_eq_nil in Hcl as [_ ->].
  - rewrite paid_after_sum by done. lia.
  - intros id m Hm. destruct (decide (id ∈ map outcome popped)) as [Hin|Hnin].
    + rewrite store_outcomes_in by done. split; [|done].
      apply list_elem_of_fmap in Hin as (w & -> & Hin).
      rewrite paid_after_in in Hm by done. simplify_eq. destruct (Hw w); [set_solver|lia].
    + rewrite paid_after_out in Hm by done. rewrite store_outcomes_out by done. by apply Hpaid.
  - intros w Hin. destruct (Hw w) as (? & Ho & ?); [set_solver|]. split_and!; try done.
    rewrite store_outcomes_out; [done|]. apply Hout, list_elem_of_fmap. by exists w.
  - intros id f Hfut. destruct (Hf id f Hfut) as (Hid & Hpos & Hreg). split_and!; try done.
    rewrite map_app in Hreg.
    destruct (decide (id ∈ map outcome popped)) as [Hin|Hnin].
    + pose proof Hin as Hin'. apply list_elem_of_fmap in Hin' as (w & -> & Hin').
      destruct (Hw w) as (_ & Ho & Hneed); [set_solver|]. rewrite (Hneed f Hfut) in *.
      destruct (registered f); [|by destruct Hreg as [_ []]; apply elem_of_app; left].
      right; left. rewrite store_outcomes_in, paid_after_in by done. done.
    + rewrite store_outcomes_out, paid_after_out by done.
      pose proof (elem_of_app (map outcome popped) (map outcome remaining) id) as Happ.
      destruct (registered f); tauto.
Qed.

Lemma acquire_poll_cases `{BuildProfile} W id w f r s' ws :
  WInv W → W.(futures) !! id = Some f → acquire_poll w f W.(sem) = Some (r, s', ws) →
  ws = [] ∧
  ((r = (Ready (Ok tt), f) ∧ s' = W.(sem) ∧ W.(sem).(outcomes) !! id = Some WAITER_GRANTED ∧
      W.(paid) !! id = Some f.(acq_needed)) ∨
   (r = (Ready (Ok tt), f) ∧ f.(registered) = false ∧ W.(sem).(waiters) = [] ∧
      f.(acq_needed) ≤ W.(sem).(permits) ∧
      s' = mkState (permits W.(sem) - f.(acq_needed)) (closed W.(sem)) [] (outcomes W.(sem))) ∨
   (r = (Ready (Err tt), f) ∧ s' = W.(sem) ∧ W.(sem).(closed) = true) ∨
   (r = (Pending, f) ∧ s' = W.(sem) ∧ f.(registered) = true) ∨
   (r = (Pending, mkAcquire f.(acq_needed) f.(acq_outcome) true) ∧ f.(registered) = false ∧
      W.(sem).(closed) = false ∧
      (W.(sem).(waiters) ≠ [] ∨ W.(sem).(permits) < f.(acq_needed)) ∧
      s' = mkState (permits W.(sem)) (closed W.(sem))
        (waiters W.(sem) ++ [mkWaiter f.(acq_needed) f.(acq_outcome) w]) (outcomes W.(sem)))).
Proof.
  intros HW Hf. destruct (wi_futures _ HW _ _ Hf) as (Hid & Hpos & Hreg).
  unfold acquire_poll, bind, get, put, ret; simpl. rewrite Hid.
  destruct (registered f) eqn:Er.
  - destruct Hreg as [[-> ?]|[[-> ?]|[-> ?]]]; simpl; intros [= <- <- <-]; naive_solver.
  - destruct Hreg as [-> ?]; simpl. destruct (closed (sem W)) eqn:Ec; simpl.
    { intros [= <- <- <-]. naive_solver. }
    case_bool_decide as Ew; simpl; [|intros [= <- <- <-]; naive_solver].
    destruct (Z.leb_spec (acq_needed f) (permits (sem W))); simpl; intros [= <- <- <-].
    + rewrite Ew. naive_solver.
    + split; [done|]. do 4 right. naive_solver.
Qed.

Lemma WInv_start W id n :
  WInv W → W.(sem).(outcomes) !! id = None → 0 < n →
  WInv (mkWorld (mkState W.(sem).(permits) W.(sem).(closed) W.(sem).(waiters)
                   (<[id := WAITER_PENDING]> W.(sem).(outcomes)))
          (<[id := mkAcquire n id false]> W.(futures)) W.(guards) W.(paid) W.(total)).
Proof.
  intros HW Hid Hn. destruct HW as [Hp Hh Hc Hsum Htot Hgs Hpaid Hnd Hw Hf].
  split; simpl; try done.
  - intros k m Hk. destruct (Hpaid _ _ Hk). rewrite lookup_insert_ne; [done|congruence].
  - intros w Hin. destruct (Hw _ Hin) as (? & Ho & ?).
    assert (id ≠ outcome w) by congruence. by rewrite !lookup_insert_ne.
  - intros k f. rewrite lookup_insert_Some. intros [[<- <-]|[Hne Hk]]; simpl.
    + rewrite lookup_insert_eq. split_and!; try done.
      intros (w & -> & Hin)%list_elem_of_fmap. destruct (Hw _ Hin) as (_ & Ho & _). congruence.
    + rewrite lookup_insert_ne by done. by apply Hf.
Qed.

(** A future goes away, with or without its permits. *)
Lemma WInv_remove W id f gs' pd' p' :
  WInv W → W.(futures) !! id = Some f →
  0 ≤ p' → p' ≤ W.(sem).(permits) →
  p' + sumZ gs' + msum pd' = W.(total) → Forall (λ n, 0 ≤ n) gs' →
  pd' = W.(paid) ∨ pd' = delete id W.(paid) →
  WInv (mkWorld (mkState p' W.(sem).(closed) W.(sem).(waiters) W.(sem).(outcomes))
          (delete id W.(futures)) gs' pd' W.(total)).
Proof.
  intros HW Hid Hp0 Hple Hsum' Hgs' Hpd. destruct HW as [Hp Hh Hc Hsum Htot Hgs Hpaid Hnd Hw Hf].
  assert (∀ k, k ≠ id → pd' !! k = W.(paid) !! k) as Hk.
  { intros k Hne. destruct Hpd as [-> | ->]; [done|by rewrite lookup_delete_ne]. }
  split; simpl; try done.
  - destruct (waiters (sem W)); [done|lia].
  - intros k n Hn. apply Hpaid. destruct Hpd as [-> | ->]; [done|].
    by apply lookup_delete_Some in Hn as [].
  - intros w Hin. destruct (Hw _ Hin) as (? & ? & Hfut). split_and!; try done.
    intros g [_ Hg]%lookup_delete_Some. by apply Hfut.
  - intros k g [Hne Hg]%lookup_delete_Some. rewrite Hk by done. by apply Hf.
Qed.

Lemma WInv_enqueue W id f w :
  WInv W → W.(futures) !! id = Some f → f.(registered) = false →
  W.(sem).(closed) = false →
  W.(sem).(waiters) ≠ [] ∨ W.(sem).(permits) < f.(acq_needed) →
  WInv (mkWorld (mkState W.(sem).(permits) W.(sem).(closed)
                  (W.(sem).(waiters) ++ [mkWaiter f.(acq_needed) f.(acq_outcome) w])
                  W.(sem).(outcomes))
          (<[id := mkAcquire f.(acq_needed) f.(acq_outcome) true]> W.(futures))
          W.(guards) W.(paid) W.(total)).
Proof.
  intros HW Hid Hr Hcl Hfit. destruct HW as [Hp Hh Hc Hsum Htot Hgs Hpaid Hnd Hw Hf].
  destruct (Hf _ _ Hid) as (Hout & Hpos & Hreg). rewrite Hr in Hreg. destruct Hreg as [Ho Hnin].
  split; simpl; try done.
  - destruct (waiters (sem W)); simpl; [|done]. destruct Hfit; [done|lia].
  - congruence.
  - rewrite map_app. simpl. apply NoDup_app. split_and!; [done| |apply NoDup_singleton].
    intros x Hx Hx2. apply list_elem_of_singleton in Hx2 as ->. congruence.
  - intros v [Hin|Hin]%elem_of_app.
    + destruct (Hw _ Hin) as (? & ? & Hfut). split_and!; try done.
      intros g [[Heq <-]|[? Hg]]%lookup_insert_Some; [|by apply Hfut].
      destruct Hnin. rewrite Heq. apply list_elem_of_fmap. by exists v.
    + apply list_elem_of_singleton in Hin as ->. simpl. rewrite Hout. split_and!; try done.
      intros g. rewrite lookup_insert_eq. by intros [= <-].
  - intros k g [[<- <-]|[Hne Hg]]%lookup_insert_Some; simpl.
    + split_and!; try done. left. split; [done|]. rewrite map_app. simpl.
      apply elem_of_app. right. rewrite Hout. apply list_elem_of_singleton. done.
    + destruct (Hf _ _ Hg) as (? & ? & Hreg). split_and!; try done.
      pose proof (elem_of_app (map outcome (waiters (sem W))) [acq_outcome f] k) as Happ.
      rewrite list_elem_of_singleton in Happ. rewrite map_app. simpl.
      destruct (registered g); [tauto|]. split; [tauto|]. rewrite Happ, Hout.
      intros [Hin|Heq]; [tauto|congruence].
Qed.

Lemma WInv_close W :
  WInv W → W.(sem).(closed) = false →
  WInv (mkWorld (mkState W.(sem).(permits) true []
                  (store_outcomes WAITER_CLOSED W.(sem).(waiters) W.(sem).(outcomes)))
          W.(futures) W.(guards) W.(paid) W.(total)).
Proof.
  intros HW Hcl. destruct HW as [Hp Hh Hc Hsum Htot Hgs Hpaid Hnd Hw Hf].
  assert (∀ k, k ∈ map outcome (waiters (sem W)) →
    outcomes (sem W) !! k = Some WAITER_PENDING) as Hpend.
  { intros k (w & -> & Hin)%list_elem_of_fmap. by apply Hw. }
  split; simpl; try done.
  - intros k n Hk. destruct (Hpaid _ _ Hk) as [? Ho]. split; [done|].
    rewrite store_outcomes_out; [done|]. intros Hin. apply Hpend in Hin.
    rewrite Ho in Hin. discriminate.
  - apply NoDup_nil_2.
  - intros w Hin. by apply elem_of_nil in Hin.
  - intros k f Hk. destruct (Hf _ _ Hk) as (? & ? & Hreg). split_and!; try done.
    destruct (decide (k ∈ map outcome (waiters (sem W)))) as [Hin|Hnin].
    + rewrite store_outcomes_in by done. destruct (registered f); [tauto|].
      by destruct Hreg as [_ []].
    + rewrite store_outcomes_out by done. pose proof (not_elem_of_nil k).
      pose proof (eq_refl true). destruct (registered f); tauto.
Qed.

Lemma State_eta s : s = mkState s.(permits) s.(closed) s.(waiters) s.(outcomes).
Proof. by destruct s. Qed.

(** Permits move between the semaphore and the guards. *)
Lemma WInv_permits W gs' p' t' :
  WInv W → 0 ≤ p' → p' ≤ W.(sem).(permits) →
  p' + sumZ gs' + msum W.(paid) = t' → t' < 2 ^ usize_bits → Forall (λ n, 0 ≤ n) gs' →
  WInv (mkWorld (mkState p' W.(sem).(closed) W.(sem).(waiters) W.(sem).(outcomes))
          W.(futures) gs' W.(paid) t').
Proof.
  intros [Hp Hh Hc Hsum Htot Hgs Hpaid Hnd Hw Hf] ?????. split; simpl; try done.
  destruct (waiters (sem W)); [done|lia].
Qed.

Lemma sem_WInv_step `{BuildProfile} W W' : WInv W → wstep W W' → WInv W'.
Proof.
  intros HW Hs. pose proof HW as HW'. destruct HW' as [Hp Hh Hc Hsum Htot Hgs Hpaid Hnd Hw Hf].
  assert (0 ≤ msum (paid W)) as Hpd by (apply msum_nonneg; naive_solver).
  pose proof (sumZ_nonneg _ Hgs) as Hg0.
  destruct Hs as [W id n f s' ws Hid Hlt Hst|W id w f f' s' ws Hid Hpo|W id w f f' s' ws Hid Hpo
    |W id w f f' s' ws Hid Hpo|W id f Hid|W n g s' ws Hn Htry|W g gs gs' o s' ws Hg Hdrop
    |W g1 g2 g gs Hg Hm|W n s' ws Hn Hlt Hadd|W n k s' ws Hn Hfo|W s' ws Hcl].
  - unfold acquire_start, assert, bind, get, put, ret in Hst.
    destruct (Z.ltb_spec 0 n); simplify_eq/=. by apply WInv_start.
  - apply (acquire_poll_cases W id) in Hpo as [-> Hpo]; [|done..].
    destruct Hpo as [[]|[[]|[[]|[(? & -> & ?)|(? & ? & ? & ? & ->)]]]]; simplify_eq.
    + rewrite insert_id by done. by destruct W.
    + by apply WInv_enqueue.
  - apply (acquire_poll_cases W id) in Hpo as [-> Hpo]; [|done..].
    destruct (Hf _ _ Hid) as (Ho & Hpos & Hreg).
    destruct Hpo as [(? & -> & Hgr & Hin)|[(? & Hr & Hws & Hle & ->)|[[]|[[]|[]]]]]; simplify_eq.
    + pose proof (msum_delete _ _ _ Hin).
      rewrite (State_eta (sem W)).
      eapply WInv_remove; eauto; [lia|simpl; lia|constructor; [lia|done]].
    + assert (paid W !! acq_outcome f = None) as Hnone.
      { destruct (paid W !! acq_outcome f) eqn:E; [|done]. apply Hpaid in E as [_ E].
        rewrite Hr in Hreg. destruct Hreg as [E' _]. rewrite E in E'. discriminate. }
      rewrite <- Hws. rewrite (delete_id (paid W)) by done.
      eapply WInv_remove; eauto; [lia|lia|simpl; lia|constructor; [lia|done]].
  - apply (acquire_poll_cases W id) in Hpo as [-> Hpo]; [|done..].
    destruct Hpo as [[]|[[]|[(? & -> & ?)|[[]|[]]]]]; simplify_eq.
    rewrite (State_eta (sem W)). eapply WInv_remove; eauto; lia.
  - rewrite (State_eta (sem W)). eapply WInv_remove; eauto; lia.
  - unfold try_acquire_many, bind, get, put, ret in Htry.
    destruct (closed (sem W)) eqn:Ec; [done|]. case_bool_decide as Ew; simpl in Htry; [|done].
    destruct (Z.leb_spec n (permits (sem W))); simplify_eq/=.
    rewrite <- Ec. apply WInv_permits; simpl; try done; try lia. by constructor.
  - eapply release_inv; eauto.
    + rewrite Hg in Hgs. apply Forall_app in Hgs as [_ Hgs]. by inversion Hgs.
    + rewrite Hg in Hsum. rewrite sumZ_app in *. simpl in *. lia.
    + rewrite Hg in Hgs. apply Forall_app in Hgs as [? Hgs]. inversion Hgs. by apply Forall_app.
  - assert (Forall (λ n, 0 ≤ n) (g1 :: g2 :: gs)) as Hgs' by (by rewrite <- Hg).
    inversion_clear Hgs' as [|?? H1 Hgs'']. inversion_clear Hgs'' as [|?? H2 H3].
    rewrite Hg in Hsum. simpl in Hsum.
    pose proof (sumZ_nonneg _ H3). unfold merge in Hm. simpl in Hm.
    rewrite uadd_in_range in Hm by lia. simplify_eq/=.
    rewrite (State_eta (sem W)). apply WInv_permits; simpl; try done; try lia.
    constructor; [lia|done].
  - eapply release_inv; eauto; lia.
  - unfold forget_permits, bind, get, put, ret in Hfo. simplify_eq/=.
    apply WInv_permits; simpl; try done; lia.
  - unfold close in Hcl. run_M. destruct (closed (sem W)) eqn:Ec; simplify_eq.
    + by destruct W.
    + by apply WInv_close.
Qed.

Definition sem_reachable `{BuildProfile} : world → Prop := reachable winit wstep.

Lemma sem_reachable_inv `{BuildProfile} W : sem_reachable W → WInv W.
Proof.
  apply invariant_reachable; [|eauto using sem_WInv_step].
  intros W0 (n & Hn & Hnew & Hfu & Hgu & Hpa & Hto). unfold new in Hnew.
  destruct (Z.leb_spec n MAX_PERMITS) as [Hle|]; [|done]. injection Hnew as Hs.
  destruct W0 as [s fu gu pa to]; simpl in *; subst. split; simpl; try done.
  - change (msum (∅ : gmap nat Z)) with 0. simpl. lia.
  - assert (MAX_PERMITS < 2 ^ usize_bits) by reflexivity. lia.
  - apply NoDup_nil_2.
  - intros w Hin. by apply elem_of_nil in Hin.
Qed.

(** ** Properties *)

(** C7: permits are conserved.  Whatever the interleaving of acquires,
    cancellations, guard drops, merges, [add_permits], [forget_permits] and
    [close]: the permits left, those held by guards and those granted to
    waiters that have not collected them yet sum to the total put in, so the
    guards never hold more than the total; and no waiter that could be served
    is left in the queue: the front one does not fit the permits there are. *)
Theorem permits_conserved `{BuildProfile} W :
  sem_reachable W →
  W.(sem).(permits) + sumZ W.(guards) + msum W.(paid) = W.(total) ∧
  0 ≤ W.(sem).(permits) ∧ sumZ W.(guards) ≤ W.(total) ∧
  match W.(sem).(waiters) with [] => True | w :: _ => W.(sem).(permits) < w.(needed) end.
Proof.
  intros HW%sem_reachable_inv. pose proof (wi_conserve _ HW). pose proof (wi_permits _ HW).
  pose proof (msum_nonneg (paid W) (λ k n H, proj1 (wi_paid _ HW k n H))).
  split_and!; [done|done|lia|apply HW].
Qed.

(** A run with two permits: one caller takes both, a second queues for one,
    the first guard is dropped. *)
Definition sem_demo0 : world := mkWorld (const_new 2) ∅ [] ∅ 2.

Lemma sem_demo0_init : winit sem_demo0.
Proof. by exists 2. Qed.

Definition sem_demo1 : world :=
  let q := {[ 5%nat := mkAcquire 1 5 true ]} in
  mkWorld (mkState 0 false [mkWaiter 1 5 9%nat] {[ 5%nat := WAITER_PENDING ]}) q [2] ∅ 2.

Lemma sem_demo1_reachable : @sem_reachable dev_profile sem_demo1.
Proof.
  exists sem_demo0. split; [apply sem_demo0_init|].
  eapply rtc_l; [eapply (ws_try _ 2); [lia|reflexivity]|].
  eapply rtc_l; [eapply (ws_start _ 5%nat 1); [reflexivity|reflexivity|reflexivity]|].
  eapply rtc_l; [eapply (ws_pending _ 5%nat 9%nat); [reflexivity|reflexivity]|].
  apply rtc_refl.
Qed.

Lemma permits_conserved_witness :
  @sem_reachable dev_profile sem_demo1 ∧
  0 + sumZ [2] + msum (∅ : gmap nat Z) = 2 ∧ sumZ [2] ≤ 2.
Proof.
  pose proof (@permits_conserved dev_profile sem_demo1 sem_demo1_reachable) as (H1 & _ & H3 & _).
  split; [exact sem_demo1_reachable|]. split; [exact H1|exact H3].
Defined.

(** What a poll of an acquire future answers, in every reachable state.
    A granted call succeeds even if the semaphore has been closed since; once
    the semaphore is closed every other call fails at its next poll; on an
    open semaphore a new call succeeds immediately exactly if nobody is queued
    and the permits suffice, and a call that is told to wait is in the queue,
    where a release or a close will find it. *)
Theorem acquire_poll_outcome `{BuildProfile} W id w f :
  sem_reachable W → W.(futures) !! id = Some f →
  ∃ r f' s', acquire_poll w f W.(sem) = Some ((r, f'), s', []) ∧
  match r with
  | Ready (Ok _) =>
      W.(paid) !! id = Some f.(acq_needed) ∨
      (f.(registered) = false ∧ W.(sem).(closed) = false ∧ W.(sem).(waiters) = [] ∧
       s'.(permits) = W.(sem).(permits) - f.(acq_needed) ∧ 0 ≤ s'.(permits))
  | Ready (Err _) => W.(sem).(closed) = true ∧ W.(paid) !! id = None
  | Pending => W.(sem).(closed) = false ∧ f'.(registered) = true ∧
      ∃ v, v ∈ s'.(waiters) ∧ v.(outcome) = id ∧ v.(needed) = f.(acq_needed)
  end.
Proof.
  intros HW%sem_reachable_inv Hf.
  destruct (wi_futures _ HW _ _ Hf) as (Hid & Hpos & Hreg).
  unfold acquire_poll. run_M. rewrite Hid.
  assert (W.(sem).(outcomes) !! id ≠ Some WAITER_GRANTED → W.(paid) !! id = None) as Hnp.
  { intros Hn. destruct (paid W !! id) eqn:E; [|done]. by apply (wi_paid _ HW) in E as [_ ?]. }
  destruct (registered f) eqn:Er.
  - destruct Hreg as [[Ho Hin]|[[Ho ?]|[Ho ?]]]; rewrite Ho; simpl.
    + do 3 eexists. split; [reflexivity|]. simpl.
      pose proof Hin as (v & Hv & Hin')%list_elem_of_fmap.
      destruct (wi_waiters _ HW _ Hin') as (_ & _ & Hneed).
      split; [|split; [done|]].
      * destruct (closed (sem W)) eqn:Ec; [|done]. rewrite (wi_closed _ HW Ec) in Hin'.
        by apply elem_of_nil in Hin'.
      * exists v. split_and!; [done|done|]. symmetry. apply Hneed. by rewrite <- Hv.
    + do 3 eexists. split; [reflexivity|]. by left.
    + do 3 eexists. split; [reflexivity|]. split; [done|]. apply Hnp. rewrite Ho. discriminate.
  - destruct Hreg as [Ho Hnin]; rewrite Ho; simpl.
    destruct (closed (sem W)) eqn:Ec; simpl.
    { do 3 eexists. split; [reflexivity|]. split; [done|]. apply Hnp. rewrite Ho. discriminate. }
    case_bool_decide as Ew; simpl.
    + destruct (Z.leb_spec (acq_needed f) (permits (sem W))); simpl.
      * do 3 eexists. split; [reflexivity|]. right. simpl. split_and!; done || lia.
      * do 3 eexists. split; [reflexivity|]. simpl. split_and!; [done|done|].
        exists (mkWaiter (acq_needed f) id w). split; [set_solver|done].
    + do 3 eexists. split; [reflexivity|]. simpl. split_and!; [done|done|].
      exists (mkWaiter (acq_needed f) id w). split; [set_solver|done].
Qed.

Lemma acquire_poll_outcome_witness :
  @sem_reachable dev_profile sem_demo1 ∧
  ∃ r f' s', acquire_poll 9%nat (mkAcquire 1 5 true) sem_demo1.(sem) = Some ((r, f'), s', []) ∧
    r = Pending.
Proof.
  split; [exact sem_demo1_reachable|].
  destruct (@acquire_poll_outcome dev_profile sem_demo1 5%nat 9%nat (mkAcquire 1 5 true)
    sem_demo1_reachable ltac:(reflexivity)) as (r & f' & s' & E & _).
  exists r, f', s'. split; [exact E|]. vm_compute in E. injection E as <- _ _. reflexivity.
Defined.

(** A flaw.  An acquire future has no destructor, so one dropped while it
    is queued stays in the queue, is granted permits by a later release, and
    nobody can ever collect or return them: with every guard dropped and no
    caller left, the semaphore is down to no permits for good. *)
Theorem cancelled_acquire_leaks `{BuildProfile} :
  ∃ W, sem_reachable W ∧ W.(total) = 2 ∧ W.(guards) = [] ∧ W.(futures) = ∅ ∧
    W.(sem).(waiters) = [] ∧ W.(sem).(permits) = 0.
Proof.
  eexists. split; [exists sem_demo0; split; [apply sem_demo0_init|]|].
  - eapply rtc_l; [eapply (ws_try _ 2); [lia|reflexivity]|].
    eapply rtc_l; [eapply (ws_start _ 5%nat 2); [reflexivity|reflexivity|reflexivity]|].
    eapply rtc_l; [eapply (ws_pending _ 5%nat 9%nat); [reflexivity|reflexivity]|].
    eapply rtc_l; [eapply (ws_cancel _ 5%nat); reflexivity|].
    eapply rtc_l; [eapply (ws_drop _ 2 [] [] O); [reflexivity|]|apply rtc_refl].
    unfold drop_permit. rewrite release_eq by reflexivity. reflexivity.
  - by repeat split.
Qed.
