(* ===== verification/Mpsc.v ===== *)
(** The multi-producer channels ([src/src/sync/mpsc.rs]): the bounded channel
    with its permits and weak senders, and the unbounded one.

    [Inner] is the content of the single lock each channel has; an operation
    is one critical section and the wakes after it.  [VecDeque] lengths are
    the lengths of lists; sums on [usize] keep their width. *)

From S2P Require Import Prelude Coop.

Section channel.
Context {T : Type}.

Record Inner := mkInner {
  queue : list T;
  capacity : Z;
  reserved : Z;
  send_waiters : list waker;
  recv_waker : option waker;
  senders_alive : Z;
  receiver_alive : bool;
}.

Definition len (q : list T) : Z := Z.of_nat (length q).

Definition set_queue (i : Inner) (q : list T) (rw : option waker) : Inner :=
  mkInner q i.(capacity) i.(reserved) i.(send_waiters) rw i.(senders_alive) i.(receiver_alive).
Definition set_reserved (i : Inner) (r : Z) : Inner :=
  mkInner i.(queue) i.(capacity) r i.(send_waiters) i.(recv_waker) i.(senders_alive) i.(receiver_alive).
Definition set_waiters (i : Inner) (ws : list waker) : Inner :=
  mkInner i.(queue) i.(capacity) i.(reserved) ws i.(recv_waker) i.(senders_alive) i.(receiver_alive).
Definition set_recv_waker (i : Inner) (rw : option waker) : Inner :=
  mkInner i.(queue) i.(capacity) i.(reserved) i.(send_waiters) rw i.(senders_alive) i.(receiver_alive).
Definition set_senders (i : Inner) (n : Z) : Inner :=
  mkInner i.(queue) i.(capacity) i.(reserved) i.(send_waiters) i.(recv_waker) n i.(receiver_alive).

Definition channel (cap : Z) : option Inner :=
  if 0 <? cap then Some (mkInner [] cap 0 [] None 1 true) else None.

(** ** The sending side *)

Inductive TrySendError (A : Type) := Full (a : A) | Closed (a : A).
#[global] Arguments Full {A} a.
#[global] Arguments Closed {A} a.

(** [TrySendError::into_inner]. *)
Definition into_inner {A} (e : TrySendError A) : A :=
  match e with Full a | Closed a => a end.
Definition is_full {A} (e : TrySendError A) : bool :=
  match e with Full _ => true | Closed _ => false end.

(** Push a value and wake the receiver: shared by every path that fills a
    slot. *)
Definition push (value : T) : M Inner unit :=
  let! i := get in
  put (set_queue i (i.(queue) ++ [value]) None) ;!
  wake_opt i.(recv_waker).

(** [guard.queue.len() + guard.reserved < guard.capacity]. *)
Definition has_room `{BuildProfile} : M Inner bool :=
  let! i := get in
  let! used := lift (uadd usize_bits (len i.(queue)) i.(reserved)) in
  ret (used <? i.(capacity)).

(** The poll of [send]'s future; the value comes back on failure. *)
Definition send `{BuildProfile} (value : T) (cx : waker) : M Inner (poll (result unit T)) :=
  let! i := get in
  if negb i.(receiver_alive) then ret (Ready (Err value))
  else
    let! room := has_room in
    if room : bool then push value ;! ret (Ready (Ok tt))
    else put (set_waiters i (i.(send_waiters) ++ [cx])) ;! ret Pending.

Definition try_send `{BuildProfile} (value : T) : M Inner (result unit (TrySendError T)) :=
  let! i := get in
  if negb i.(receiver_alive) then ret (Err (Closed value))
  else
    let! room := has_room in
    if room : bool then push value ;! ret (Ok tt)
    else ret (Err (Full value)).

(** [poll_reserve], the body of [reserve] ([n = 1]), [reserve_owned] and
    [reserve_many]. *)
Definition poll_reserve `{BuildProfile} (cx : waker) (n : Z) : M Inner (poll bool) :=
  let! i := get in
  if negb i.(receiver_alive) then ret (Ready false)
  else
    let! used := lift (uadd usize_bits (len i.(queue)) i.(reserved)) in
    let! wanted := lift (uadd usize_bits used n) in
    if wanted <=? i.(capacity) then
      let! r := lift (uadd usize_bits i.(reserved) n) in
      put (set_reserved i r) ;! ret (Ready true)
    else put (set_waiters i (i.(send_waiters) ++ [cx])) ;! ret Pending.

(** [try_reserve] and [try_reserve_owned]. *)
Definition try_reserve `{BuildProfile} : M Inner (result unit (TrySendError unit)) :=
  let! i := get in
  if negb i.(receiver_alive) then ret (Err (Closed tt))
  else
    let! room := has_room in
    if room : bool then
      let! r := lift (uadd usize_bits i.(reserved) 1) in
      put (set_reserved i r) ;! ret (Ok tt)
    else ret (Err (Full tt)).

(** [Shared::release_reserved]: give [n] slots back, waking up to [n] queued
    senders. *)
Definition release_reserved `{BuildProfile} (n : Z) : M Inner unit :=
  let! i := get in
  let! r := lift (usub usize_bits i.(reserved) n) in
  let k := Z.to_nat n in
  put (set_waiters (set_reserved i r) (drop k i.(send_waiters))) ;!
  wake_all (take k i.(send_waiters)).

(** [Shared::fill_reserved]. *)
Definition fill_reserved `{BuildProfile} (value : T) : M Inner unit :=
  let! i := get in
  let! r := lift (usub usize_bits i.(reserved) 1) in
  put (set_reserved i r) ;!
  push value.

(** [Permit]: [used] tells [Drop] that the slot was filled. *)
Definition permit_send `{BuildProfile} (value : T) : M Inner bool :=
  fill_reserved value ;! ret true.
Definition permit_drop `{BuildProfile} (used : bool) : M Inner unit :=
  if used then ret tt else release_reserved 1.

(** [PermitIterator::next] and its [Drop], on the [remaining] count. *)
Definition permits_next `{BuildProfile} (remaining : Z) : option (option unit * Z) :=
  if remaining =? 0 then Some (None, remaining)
  else r ← usub usize_bits remaining 1; Some (Some tt, r).
Definition permits_drop `{BuildProfile} (remaining : Z) : M Inner unit :=
  if 0 <? remaining then release_reserved remaining else ret tt.

Definition sender_clone `{BuildProfile} : M Inner unit :=
  let! i := get in
  let! n := lift (uadd usize_bits i.(senders_alive) 1) in
  put (set_senders i n).

Definition sender_drop `{BuildProfile} : M Inner unit :=
  let! i := get in
  let! n := lift (usub usize_bits i.(senders_alive) 1) in
  if n =? 0 then
    put (set_recv_waker (set_senders i n) None) ;! wake_opt i.(recv_waker)
  else put (set_senders i n).

(** [OwnedPermit]: filling or releasing hands the sender back; dropping it
    releases the slot and then drops the sender. *)
Definition owned_permit_send `{BuildProfile} (value : T) : M Inner unit := fill_reserved value.
Definition owned_permit_release `{BuildProfile} : M Inner unit := release_reserved 1.
Definition owned_permit_drop `{BuildProfile} : M Inner unit :=
  release_reserved 1 ;! sender_drop.

(** [WeakSender::upgrade], the channel being still allocated. *)
Definition weak_upgrade `{BuildProfile} : M Inner bool :=
  let! i := get in
  if i.(senders_alive) =? 0 then ret false
  else
    let! n := lift (uadd usize_bits i.(senders_alive) 1) in
    put (set_senders i n) ;! ret true.

(** [send_timeout]: [send] through a permit, given what the timed [reserve]
    came to ([None]: the timeout elapsed first). *)
Inductive SendTimeoutError := TimedOut (a : T) | TimeoutClosed (a : T).

Definition send_timeout `{BuildProfile} (value : T) (reserve : option bool)
    : M Inner (result unit SendTimeoutError) :=
  match reserve with
  | Some true =>
      let! used := permit_send value in
      permit_drop used ;! ret (Ok tt)
  | Some false => ret (Err (TimeoutClosed value))
  | None => ret (Err (TimedOut value))
  end.

(** ** The receiving side *)

(** The poll of [recv]'s future, with the coop budget in scope. *)
Definition recv (cx : waker) : M (BUDGET * Inner) (poll (option T)) :=
  let! p := zoom fst (λ b s, (b, s.2)) (poll_proceed cx) in
  match p with
  | Pending => ret Pending
  | Ready _ =>
      zoom snd (λ i s, (s.1, i))
        (let! i := get in
         match i.(queue) with
         | v :: rest =>
             put (set_waiters (set_queue i rest i.(recv_waker)) (tail i.(send_waiters))) ;!
             wake_opt (head i.(send_waiters)) ;!
             ret (Ready (Some v))
         | [] =>
             if i.(senders_alive) =? 0 then ret (Ready None)
             else put (set_recv_waker i (Some cx)) ;! ret Pending
         end)
  end.

Definition receiver_drop : M Inner unit :=
  let! i := get in
  put (mkInner i.(queue) i.(capacity) i.(reserved) [] i.(recv_waker) i.(senders_alive) false) ;!
  wake_all i.(send_waiters).
End channel.
Arguments Inner : clear implicits.
Arguments SendTimeoutError : clear implicits.

(** ** The channel and its users

    [sent] and [received] are the histories of accepted and delivered values;
    [permits] counts the slots held by [Permit]s, [OwnedPermit]s and
    [PermitIterator]s; [handles] the live [Sender]s.  Sender futures are
    positions in [sends]; their wakers and the receiver's are task
    identities.  [wrapped] records that a release build's [poll_reserve] has
    granted a request on a sum that wrapped.  In a debug build that sum panics
    under the lock, which it poisons: from then on every operation panics, and
    there are no further steps. *)

Section system.
Context {T : Type}.

Inductive send_op := SendOp (v : T) | ReserveOp (n : Z).
Inductive send_phase := Waiting | Finished.

Inductive rx_phase :=
| RxIdle                     (* no [recv] waiting *)
| RxWaiting (w : waker) (ready : bool)   (* told to wait; woken since? *)
| RxDropped.

Record world := mkWorld {
  inner : Inner T;
  sends : list (send_op * send_phase);
  permits : Z;
  handles : Z;
  sent : list T;
  received : list T;
  rx : rx_phase;
  wrapped : bool;
}.

Definition wake_rx (r : rx_phase) (ws : list waker) : rx_phase :=
  match r with
  | RxWaiting w ready => RxWaiting w (ready || bool_decide (w ∈ ws))
  | _ => r
  end.

(** Replace the channel state, delivering the wakes. *)
Definition after (W : world) (i : Inner T) (ws : list waker) : world :=
  mkWorld i W.(sends) W.(permits) W.(handles) W.(sent) W.(received) (wake_rx W.(rx) ws) W.(wrapped).

Definition set_sends (W : world) (l : list (send_op * send_phase)) : world :=
  mkWorld W.(inner) l W.(permits) W.(handles) W.(sent) W.(received) W.(rx) W.(wrapped).
Definition add_permits (W : world) (n : Z) : world :=
  mkWorld W.(inner) W.(sends) (W.(permits) + n) W.(handles) W.(sent) W.(received) W.(rx) W.(wrapped).
Definition add_handles (W : world) (n : Z) : world :=
  mkWorld W.(inner) W.(sends) W.(permits) (W.(handles) + n) W.(sent) W.(received) W.(rx) W.(wrapped).
Definition log_sent (W : world) (v : T) : world :=
  mkWorld W.(inner) W.(sends) W.(permits) W.(handles) (W.(sent) ++ [v]) W.(received) W.(rx) W.(wrapped).
Definition set_rx (W : world) (r : rx_phase) : world :=
  mkWorld W.(inner) W.(sends) W.(permits) W.(handles) W.(sent) W.(received) r W.(wrapped).
Definition log_received (W : world) (v : T) : world :=
  mkWorld W.(inner) W.(sends) W.(permits) W.(handles) W.(sent) (W.(received) ++ [v]) RxIdle W.(wrapped).
Definition log_wrapped (W : world) (b : bool) : world :=
  mkWorld W.(inner) W.(sends) W.(permits) W.(handles) W.(sent) W.(received) W.(rx) (W.(wrapped) || b).

(** The argument of [reserve_many] is a [usize]. *)
Definition is_usize (op : send_op) : Prop :=
  match op with SendOp _ => True | ReserveOp n => 0 ≤ n ≤ usize_max end.

(** The sum of [poll_reserve] leaves the [usize]s. *)
Definition overflows (i : Inner T) (n : Z) : bool :=
  usize_max <? len i.(queue) + i.(reserved) + n.

Definition waits (p : send_op * send_phase) : bool :=
  match p.2 with Waiting => true | Finished => false end.

Inductive wstep `{BuildProfile} : world → world → Prop :=
| w_start W op :
    0 < W.(handles) → is_usize op →
    wstep W (set_sends W (W.(sends) ++ [(op, Waiting)]))
| w_send W t v cx i ws :
    W.(sends) !! t = Some (SendOp v, Waiting) →
    send v cx W.(inner) = Some (Ready (Ok tt), i, ws) →
    wstep W (log_sent (after (set_sends W (<[t := (SendOp v, Finished)]> W.(sends))) i ws) v)
| w_send_closed W t v v' cx i ws :
    W.(sends) !! t = Some (SendOp v, Waiting) →
    send v cx W.(inner) = Some (Ready (Err v'), i, ws) →
    wstep W (after (set_sends W (<[t := (SendOp v, Finished)]> W.(sends))) i ws)
| w_send_pending W t v cx i ws :
    W.(sends) !! t = Some (SendOp v, Waiting) →
    send v cx W.(inner) = Some (Pending, i, ws) →
    wstep W (after W i ws)
| w_reserve W t n cx (b : bool) i ws :
    W.(sends) !! t = Some (ReserveOp n, Waiting) →
    poll_reserve cx n W.(inner) = Some (Ready b, i, ws) →
    wstep W (add_permits
      (log_wrapped (after (set_sends W (<[t := (ReserveOp n, Finished)]> W.(sends))) i ws)
         (b && overflows W.(inner) n))
      (if b then n else 0))
| w_reserve_pending W t n cx i ws :
    W.(sends) !! t = Some (ReserveOp n, Waiting) →
    poll_reserve cx n W.(inner) = Some (Pending, i, ws) →
    wstep W (after W i ws)
| w_cancel W t op :
    W.(sends) !! t = Some (op, Waiting) →
    wstep W (set_sends W (<[t := (op, Finished)]> W.(sends)))
| w_try_send W v i ws :
    0 < W.(handles) → try_send v W.(inner) = Some (Ok tt, i, ws) →
    wstep W (log_sent (after W i ws) v)
| w_try_reserve W i ws :
    0 < W.(handles) → try_reserve W.(inner) = Some (Ok tt, i, ws) →
    wstep W (add_permits (after W i ws) 1)
| w_permit_send W v i ws :
    0 < W.(permits) → fill_reserved v W.(inner) = Some (tt, i, ws) →
    wstep W (add_permits (log_sent (after W i ws) v) (-1))
| w_permit_release W n i ws :
    0 < n ≤ W.(permits) → n ≤ usize_max → release_reserved n W.(inner) = Some (tt, i, ws) →
    wstep W (add_permits (after W i ws) (- n))
| w_clone W i ws :                     (* as many [Arc]s abort the process *)
    0 < W.(handles) → W.(handles) < usize_max → sender_clone W.(inner) = Some (tt, i, ws) →
    wstep W (add_handles (after W i ws) 1)
| w_upgrade W i ws :
    W.(handles) < usize_max → weak_upgrade W.(inner) = Some (true, i, ws) →
    wstep W (add_handles (after W i ws) 1)
| w_sender_drop W i ws :
    (* the borrows of permits and futures keep one sender alive *)
    0 < W.(handles) → (W.(permits) = 0 ∧ existsb waits W.(sends) = false ∨ 1 < W.(handles)) →
    sender_drop W.(inner) = Some (tt, i, ws) →
    wstep W (add_handles (after W i ws) (-1))
| w_recv W cx b b' v i ws :
    W.(rx) ≠ RxDropped → recv cx (b, W.(inner)) = Some (Ready (Some v), (b', i), ws) →
    wstep W (log_received (after W i ws) v)
| w_recv_end W cx b b' i ws :
    W.(rx) ≠ RxDropped → recv cx (b, W.(inner)) = Some (Ready None, (b', i), ws) →
    wstep W (set_rx (after W i ws) RxIdle)
| w_recv_pending W cx b b' i ws :
    W.(rx) ≠ RxDropped → recv cx (b, W.(inner)) = Some (Pending, (b', i), ws) →
    wstep W (set_rx (after W i ws) (RxWaiting cx (bool_decide (cx ∈ ws))))
| w_recv_cancel W w r :
    W.(rx) = RxWaiting w r → wstep W (set_rx W RxIdle)
| w_receiver_drop W i ws :
    W.(rx) ≠ RxDropped → receiver_drop W.(inner) = Some (tt, i, ws) →
    wstep W (set_rx (after W i ws) RxDropped).

Definition mpsc_reachable `{BuildProfile} (cap : Z) : world → Prop :=
  reachable (λ W, ∃ i, channel cap = Some i ∧ cap ≤ usize_max ∧ W = mkWorld i [] 0 1 [] [] RxIdle false) wstep.

(** A receiver told to wait, and not woken since, has nothing to receive, a
    sender that could still send, and its waker where the senders look. *)
Definition rx_ok (i : Inner T) (h : Z) (r : rx_phase) : Prop :=
  match r with
  | RxIdle => i.(receiver_alive) = true
  | RxDropped => i.(receiver_alive) = false
  | RxWaiting w ready => i.(receiver_alive) = true ∧
      (ready = false → i.(queue) = [] ∧ 0 < h ∧ i.(recv_waker) = Some w)
  end.

Record WInv `{BuildProfile} (cap : Z) (W : world) : Prop := {
  wi_cap : W.(inner).(capacity) = cap ∧ 0 < cap ≤ usize_max;
  wi_reserved : W.(inner).(reserved) = W.(permits) `mod` 2 ^ usize_bits ∧ 0 ≤ W.(permits);
  wi_room : W.(wrapped) = false → len W.(inner).(queue) + W.(permits) ≤ cap;
  wi_fifo : W.(sent) = W.(received) ++ W.(inner).(queue);
  wi_handles : W.(inner).(senders_alive) = W.(handles) ∧ 0 ≤ W.(handles) ≤ usize_max;
  wi_borrow : W.(handles) = 0 → W.(permits) = 0 ∧ existsb waits W.(sends) = false;
  wi_rx : rx_ok W.(inner) W.(handles) W.(rx);
  wi_usize : ∀ t op, W.(sends) !! t = Some (op, Waiting) → is_usize op;
  wi_debug : debug_build = true → W.(wrapped) = false;
}.
End system.
Arguments world : clear implicits.
Arguments send_op : clear implicits.

Section proofs.
Context {T : Type} `{BuildProfile}.

(** ** What each operation does when the sums fit *)

Definition within (i : Inner T) : Prop :=
  0 ≤ i.(reserved) ∧ len i.(queue) + i.(reserved) ≤ i.(capacity) ∧ i.(capacity) ≤ usize_max.

Definition wakes (o : option waker) : list waker := match o with Some w => [w] | None => [] end.

Lemma len_nonneg (q : list T) : 0 ≤ len q.
Proof. unfold len. lia. Qed.

Lemma len_app (q : list T) v : len (q ++ [v]) = len q + 1.
Proof. unfold len. rewrite length_app. simpl. lia. Qed.

Lemma has_room_eq i : within i →
  has_room i = Some (len i.(queue) + i.(reserved) <? i.(capacity), i, []).
Proof.
  intros (? & ? & ?). unfold has_room. run_M. unfold usize_max in *.
  rewrite uadd_in_range by lia. by run_M.
Qed.

Definition pushed (i : Inner T) (v : T) : Inner T := set_queue i (i.(queue) ++ [v]) None.
Definition enqueued (i : Inner T) (cx : waker) : Inner T := set_waiters i (i.(send_waiters) ++ [cx]).

Lemma send_eq v cx i : within i →
  send v cx i = Some
    (if i.(receiver_alive) then
       if len i.(queue) + i.(reserved) <? i.(capacity)
       then (Ready (Ok tt), pushed i v, wakes i.(recv_waker))
       else (Pending, enqueued i cx, [])
     else (Ready (Err v), i, [])).
Proof.
  intros Hi. unfold send, push. run_M. destruct (receiver_alive i); simpl; [|done].
  rewrite has_room_eq by done. destruct (_ <? _); simpl; [|done]. by rewrite app_nil_r.
Qed.

Lemma try_send_eq v i : within i →
  try_send v i = Some
    (if i.(receiver_alive) then
       if len i.(queue) + i.(reserved) <? i.(capacity)
       then (Ok tt, pushed i v, wakes i.(recv_waker)) else (Err (Full v), i, [])
     else (Err (Closed v), i, [])).
Proof.
  intros Hi. unfold try_send, push. run_M. destruct (receiver_alive i); simpl; [|done].
  rewrite has_room_eq by done. destruct (_ <? _); simpl; [|done]. by rewrite app_nil_r.
Qed.

Lemma poll_reserve_eq cx n i : within i → 0 ≤ n → i.(capacity) + n ≤ usize_max →
  poll_reserve cx n i = Some
    (if i.(receiver_alive) then
       if len i.(queue) + i.(reserved) + n <=? i.(capacity)
       then (Ready true, set_reserved i (i.(reserved) + n), [])
       else (Pending, enqueued i cx, [])
     else (Ready false, i, [])).
Proof.
  intros (? & ? & ?) ? Hn. pose proof (len_nonneg i.(queue)). unfold usize_max in *.
  unfold poll_reserve. run_M. destruct (receiver_alive i); simpl; [|done].
  rewrite uadd_in_range by lia. run_M. rewrite uadd_in_range by lia. run_M.
  destruct (_ <=? _); simpl; [|done]. by rewrite uadd_in_range by lia.
Qed.

Lemma try_reserve_eq i : within i →
  try_reserve i = Some
    (if i.(receiver_alive) then
       if len i.(queue) + i.(reserved) <? i.(capacity)
       then (Ok tt, set_reserved i (i.(reserved) + 1), []) else (Err (Full tt), i, [])
     else (Err (Closed tt), i, [])).
Proof.
  intros Hi. pose proof Hi as (? & ? & ?). pose proof (len_nonneg i.(queue)).
  unfold try_reserve. run_M. destruct (receiver_alive i); simpl; [|done].
  rewrite has_room_eq by done. destruct (Z.ltb_spec (len (queue i) + reserved i) (capacity i)); simpl; [|done].
  unfold usize_max in *. by rewrite uadd_in_range by lia.
Qed.

Lemma fill_reserved_eq v i : 1 ≤ i.(reserved) →
  fill_reserved v i = Some (tt, pushed (set_reserved i (i.(reserved) - 1)) v, wakes i.(recv_waker)).
Proof. intros Hi. unfold fill_reserved, push. run_M. rewrite usub_in_range by done. by run_M. Qed.

Lemma release_reserved_eq n (i : Inner T) : n ≤ i.(reserved) →
  release_reserved n i = Some
    (tt, set_waiters (set_reserved i (i.(reserved) - n)) (drop (Z.to_nat n) i.(send_waiters)),
     take (Z.to_nat n) i.(send_waiters)).
Proof. intros Hi. unfold release_reserved. run_M. rewrite usub_in_range by done. by run_M. Qed.

Lemma sender_drop_eq (i : Inner T) : 1 ≤ i.(senders_alive) →
  sender_drop i = Some
    (if i.(senders_alive) =? 1
     then (tt, set_recv_waker (set_senders i (i.(senders_alive) - 1)) None, wakes i.(recv_waker))
     else (tt, set_senders i (i.(senders_alive) - 1), [])).
Proof.
  intros Hi. unfold sender_drop. run_M. rewrite usub_in_range by done. run_M.
  destruct (Z.eqb_spec (senders_alive i - 1) 0), (Z.eqb_spec (senders_alive i) 1); try lia; done.
Qed.

Lemma sender_clone_eq (i : Inner T) : i.(senders_alive) < usize_max →
  sender_clone i = Some (tt, set_senders i (i.(senders_alive) + 1), []).
Proof.
  intros Hi. unfold usize_max in Hi. unfold sender_clone. run_M.
  rewrite uadd_in_range by lia. by run_M.
Qed.

Lemma weak_upgrade_eq (i : Inner T) : i.(senders_alive) < usize_max →
  weak_upgrade i = Some
    (if i.(senders_alive) =? 0 then (false, i, [])
     else (true, set_senders i (i.(senders_alive) + 1), [])).
Proof.
  intros Hi. unfold usize_max in Hi. unfold weak_upgrade. run_M. destruct (_ =? 0); [done|].
  rewrite uadd_in_range by lia. by run_M.
Qed.

(** ** What they do whether the sums fit or not *)

Lemma has_room_inv i b i' ws : has_room i = Some (b, i', ws) →
  i' = i ∧ ws = [] ∧ (b = true → within i → len i.(queue) + i.(reserved) < i.(capacity)).
Proof.
  intros E. assert (i' = i ∧ ws = []) as [-> ->].
  { revert E. unfold has_room. run_M. destruct (uadd _ _ _); run_M; by intros; simplify_eq. }
  split_and!; [done..|]. intros -> Hi. rewrite has_room_eq in E by done.
  destruct (Z.ltb_spec (len (queue i) + reserved i) (capacity i)); [done|by simplify_eq].
Qed.

Lemma send_inv v cx i r i' ws : send v cx i = Some (r, i', ws) →
  if i.(receiver_alive) then
    r = Ready (Ok tt) ∧ i' = pushed i v ∧ ws = wakes i.(recv_waker) ∧
      (within i → len i.(queue) + i.(reserved) < i.(capacity)) ∨
    r = Pending ∧ i' = enqueued i cx ∧ ws = []
  else r = Ready (Err v) ∧ i' = i ∧ ws = [].
Proof.
  unfold send, push. run_M. destruct (receiver_alive i); simpl; [|by intros; simplify_eq].
  destruct (has_room i) as [[[[] i1] w1]|] eqn:E; simpl; [| |done];
    destruct (has_room_inv _ _ _ _ E) as (-> & -> & Hroom); run_M; intros; simplify_eq/=.
  - left. rewrite ?app_nil_r. split_and!; auto.
  - right. by split_and!.
Qed.

Lemma try_send_inv v i i' ws : try_send v i = Some (Ok tt, i', ws) →
  i' = pushed i v ∧ ws = wakes i.(recv_waker) ∧ (within i → len i.(queue) + i.(reserved) < i.(capacity)).
Proof.
  unfold try_send, push. run_M. destruct (receiver_alive i); simpl; [|by intros; simplify_eq].
  destruct (has_room i) as [[[[] i1] w1]|] eqn:E; simpl; [| |done];
    destruct (has_room_inv _ _ _ _ E) as (-> & -> & Hroom); run_M; intros; simplify_eq/=.
  rewrite ?app_nil_r. split_and!; auto.
Qed.

Lemma uadd_fits a b c : 0 ≤ a + b → uadd usize_bits a b = Some c →
  c = (a + b) `mod` 2 ^ usize_bits ∧ (debug_build = true → a + b ≤ usize_max ∧ c = a + b).
Proof.
  intros Hab E. split; [by apply uadd_mod|]. intros Hd. revert E. unfold uadd, usize_max. rewrite Hd.
  destruct (Z.ltb_spec (a + b) (2 ^ usize_bits)); intros; simplify_eq. lia.
Qed.

Lemma try_reserve_inv i i' ws : 0 ≤ i.(reserved) → try_reserve i = Some (Ok tt, i', ws) →
  i' = set_reserved i ((i.(reserved) + 1) `mod` 2 ^ usize_bits) ∧ ws = [] ∧
  (within i → len i.(queue) + i.(reserved) < i.(capacity)).
Proof.
  intros Hr. unfold try_reserve. run_M. destruct (receiver_alive i); simpl; [|by intros; simplify_eq].
  destruct (has_room i) as [[[[] i1] w1]|] eqn:E; simpl; [| |done];
    destruct (has_room_inv _ _ _ _ E) as (-> & -> & Hroom); run_M; [|by intros; simplify_eq].
  destruct (uadd _ _ _) as [c|] eqn:Ec; run_M; intros; simplify_eq/=.
  apply uadd_fits in Ec as [-> _]; [|lia]. split_and!; auto.
Qed.

Lemma poll_reserve_inv cx n i r i' ws : 0 ≤ i.(reserved) → 0 ≤ n →
  poll_reserve cx n i = Some (r, i', ws) →
  if i.(receiver_alive) then
    r = Ready true ∧ i' = set_reserved i ((i.(reserved) + n) `mod` 2 ^ usize_bits) ∧ ws = [] ∧
      (overflows i n = false → len i.(queue) + i.(reserved) + n ≤ i.(capacity)) ∧
      (debug_build = true → overflows i n = false) ∨
    r = Pending ∧ i' = enqueued i cx ∧ ws = []
  else r = Ready false ∧ i' = i ∧ ws = [].
Proof.
  intros Hr Hn. pose proof (len_nonneg i.(queue)).
  unfold poll_reserve, overflows. run_M. destruct (receiver_alive i); simpl; [|by intros; simplify_eq].
  destruct (uadd _ (len _) _) as [u|] eqn:Eu; run_M; [|done].
  apply uadd_fits in Eu as [Hu Hud]; [|lia].
  assert (0 ≤ u) by (rewrite Hu; apply Z.mod_pos_bound; done).
  destruct (uadd _ u n) as [x|] eqn:Ex; run_M; [|done]. apply uadd_fits in Ex as [Hx Hxd]; [|lia].
  destruct (Z.leb_spec x (capacity i)); run_M; [|intros [= <- <- <-]; by right; split_and!].
  destruct (uadd _ (reserved i) n) as [c|] eqn:Ec; run_M; [|done]. apply uadd_fits in Ec as [-> _]; [|lia].
  intros [= <- <- <-]. left. split_and!; [done..| |].
  - intros Ho%Z.ltb_ge. unfold usize_max in Ho. rewrite Z.mod_small in Hu by lia. rewrite Z.mod_small in Hx by lia. lia.
  - intros Hd. destruct (Hud Hd), (Hxd Hd). apply Z.ltb_ge. lia.
Qed.

Lemma usub_wraps a n r : 0 ≤ n ≤ usize_max → usub usize_bits (a `mod` 2 ^ usize_bits) n = Some r →
  r = (a - n) `mod` 2 ^ usize_bits.
Proof.
  intros Hn E%usub_mod; [|lia|apply Z.mod_pos_bound; done]. by rewrite Zminus_mod_idemp_l in E.
Qed.

Lemma fill_reserved_inv a v i i' ws : i.(reserved) = a `mod` 2 ^ usize_bits →
  fill_reserved v i = Some (tt, i', ws) →
  i' = pushed (set_reserved i ((a - 1) `mod` 2 ^ usize_bits)) v ∧ ws = wakes i.(recv_waker).
Proof.
  intros Ha. unfold fill_reserved, push. run_M. rewrite Ha.
  destruct (usub _ _ _) as [c|] eqn:Ec; run_M; [|done]. apply usub_wraps in Ec as ->; [|done].
  by intros; simplify_eq.
Qed.

Lemma release_reserved_inv a n (i i' : Inner T) ws : i.(reserved) = a `mod` 2 ^ usize_bits →
  0 ≤ n ≤ usize_max → release_reserved n i = Some (tt, i', ws) →
  i' = set_waiters (set_reserved i ((a - n) `mod` 2 ^ usize_bits)) (drop (Z.to_nat n) i.(send_waiters)).
Proof.
  intros Ha Hn. unfold release_reserved. run_M. rewrite Ha.
  destruct (usub _ _ _) as [c|] eqn:Ec; run_M; [|done]. apply usub_wraps in Ec as ->; [|done].
  by intros; simplify_eq.
Qed.

(** [recv]: either the budget refuses it, waking the caller, or it looks at
    the queue. *)
Lemma recv_cases cx b (i : Inner T) r b' i' ws : recv cx (b, i) = Some (r, (b', i'), ws) →
  (r = Pending ∧ i' = i ∧ ws = [cx]) ∨
  match i.(queue) with
  | v :: rest =>
      r = Ready (Some v) ∧ ws = wakes (head i.(send_waiters)) ∧
      i' = set_waiters (set_queue i rest i.(recv_waker)) (tail i.(send_waiters))
  | [] => ws = [] ∧
      if i.(senders_alive) =? 0 then r = Ready None ∧ i' = i
      else r = Pending ∧ i' = set_recv_waker i (Some cx)
  end.
Proof.
  unfold recv, poll_proceed, zoom. run_M. destruct b as [[|n|n]|]; simpl.
  1: intros; simplify_eq; by left.
  all: destruct (queue i) eqn:Eq; simpl; [destruct (_ =? 0) eqn:Es; simpl|]; intros; simplify_eq/=; right; try done.
  all: rewrite ?app_nil_r; by split_and!.
Qed.

(** ** Preservation *)

Lemma rx_ok_push (i i' : Inner T) h r v :
  i'.(recv_waker) = i.(recv_waker) → i'.(receiver_alive) = i.(receiver_alive) →
  rx_ok i h r → rx_ok (pushed i' v) h (wake_rx r (wakes i.(recv_waker))).
Proof.
  intros Hw Ha. destruct r as [|w ready|]; simpl; rewrite ?Ha; [done| |done].
  intros [Hal Hr]. split; [done|]. destruct ready; [done|]. simpl.
  destruct (Hr eq_refl) as (_ & _ & ->). simpl.
  rewrite bool_decide_eq_true_2 by set_solver. done.
Qed.

Lemma rx_ok_same (i i' : Inner T) h h' r ws :
  i'.(queue) = i.(queue) → i'.(recv_waker) = i.(recv_waker) →
  i'.(receiver_alive) = i.(receiver_alive) → (0 < h → 0 < h') →
  rx_ok i h r → rx_ok i' h' (wake_rx r ws).
Proof.
  intros Hq Hw Ha Hh. destruct r as [|w ready|]; simpl; rewrite ?Ha, ?Hq, ?Hw; try done.
  intros [Hal Hr]. split; [done|]. intros Hf. destruct ready; [done|]. naive_solver.
Qed.

Lemma rx_ok_closed (i : Inner T) h h' r :
  rx_ok i h r → rx_ok (set_recv_waker (set_senders i h') None) h' (wake_rx r (wakes i.(recv_waker))).
Proof.
  destruct r as [|w ready|]; simpl; try done.
  intros [Hal Hr]. split; [done|]. destruct ready; [done|]. simpl.
  destruct (Hr eq_refl) as (_ & _ & ->). simpl. rewrite bool_decide_eq_true_2 by set_solver. done.
Qed.

Lemma existsb_insert (l : list (send_op T * send_phase)) t x y :
  l !! t = Some x → waits y = false → existsb waits l = false → existsb waits (<[t := y]> l) = false.
Proof.
  revert t. induction l as [|z l IH]; intros [|t] Ht Hy; simpl in *; simplify_eq/=;
    rewrite ?orb_false_iff; naive_solver.
Qed.

Lemma waiting_in (l : list (send_op T * send_phase)) t op :
  l !! t = Some (op, Waiting) → existsb waits l = true.
Proof.
  revert t. induction l as [|z l IH]; intros [|t] Ht; simplify_eq/=; [done|].
  rewrite (IH _ Ht). apply orb_true_r.
Qed.

(** A sender future ends; the rest of the world is up to the caller. *)
Lemma usize_finish (l : list (send_op T * send_phase)) t op :
  (∀ t op, l !! t = Some (op, Waiting) → is_usize op) →
  ∀ t' op', <[t := (op, Finished)]> l !! t' = Some (op', Waiting) → is_usize op'.
Proof.
  intros Hf t' op' Ht'. apply list_lookup_insert_Some in Ht' as [(_ & ? & _)|[_ Ht']]; [done|]. eauto.
Qed.

Ltac inv_tac := split; simpl in *; rewrite ?len_app; try done; try lia; try tauto.

(** An accepted value. *)
Lemma WInv_push cap (W : world T) l i0 p v :
  WInv cap W → 0 < W.(handles) →
  i0 = set_reserved W.(inner) (p `mod` 2 ^ usize_bits) → 0 ≤ p →
  (W.(wrapped) = false → len W.(inner).(queue) + 1 + p ≤ cap) →
  (∀ t op, l !! t = Some (op, Waiting) → is_usize op) →
  WInv cap (mkWorld (pushed i0 v) l p W.(handles) (W.(sent) ++ [v]) W.(received)
    (wake_rx W.(rx) (wakes W.(inner).(recv_waker))) W.(wrapped)).
Proof.
  intros [Hc Hr Hro Hf Hh Hb Hx Hu Hd] Hpos -> Hp Hroom Hl. inv_tac.
  - by rewrite Hf, app_assoc.
  - by apply rx_ok_push.
Qed.

(** A step that leaves the queue and the receiver's waker alone. *)
Lemma WInv_quiet cap (W : world T) l i p h ws wr :
  WInv cap W →
  i.(capacity) = W.(inner).(capacity) → i.(queue) = W.(inner).(queue) →
  i.(recv_waker) = W.(inner).(recv_waker) → i.(receiver_alive) = W.(inner).(receiver_alive) →
  i.(reserved) = p `mod` 2 ^ usize_bits → 0 ≤ p →
  (wr = false → W.(wrapped) = false ∧ len W.(inner).(queue) + p ≤ cap) → (debug_build = true → wr = false) →
  i.(senders_alive) = h → 0 ≤ h ≤ usize_max → (0 < W.(handles) → 0 < h) →
  (h = 0 → p = 0 ∧ existsb waits l = false) →
  (∀ t op, l !! t = Some (op, Waiting) → is_usize op) →
  WInv cap (mkWorld i l p h W.(sent) W.(received) (wake_rx W.(rx) ws) wr).
Proof.
  intros [Hc Hr Hro Hf Hh Hb Hx Hu Hd] Ec Eq Ew Ea Er Hp Hroom Hdb <- Hhr Hhp Hbor Hl.
  split; simpl; rewrite ?Ec, ?Eq; try done; try lia.
  - intros Hw. by apply Hroom.
  - eapply rx_ok_same; [..|exact Hx]; done.
Qed.

Ltac world_tac :=
  unfold log_sent, after, set_sends, add_permits, add_handles, set_rx, log_received, log_wrapped; simpl; rewrite ?orb_false_r.

Lemma wake_rx_nil r : wake_rx r [] = r.
Proof. destruct r; simpl; [done| |done]. by rewrite orb_false_r. Qed.

Lemma set_reserved_id (i : Inner T) r : i.(reserved) = r → set_reserved i r = i.
Proof. intros <-. by destruct i. Qed.

(** While nothing has wrapped the counters are exact. *)
Lemma WInv_within cap (W : world T) :
  WInv cap W → W.(wrapped) = false → within W.(inner) ∧ W.(inner).(reserved) = W.(permits).
Proof.
  intros [Hc [Hr Hp] Hro Hf Hh Hb Hx Hu Hd] Hw. specialize (Hro Hw).
  pose proof (len_nonneg W.(inner).(queue)). unfold within, usize_max in *.
  rewrite Z.mod_small in Hr by lia. lia.
Qed.

Lemma reserved_nonneg cap (W : world T) : WInv cap W → 0 ≤ W.(inner).(reserved).
Proof. intros HW. rewrite (proj1 (wi_reserved _ _ HW)). by apply Z.mod_pos_bound. Qed.

Lemma waiting_handles cap (W : world T) t op :
  WInv cap W → W.(sends) !! t = Some (op, Waiting) → 0 < W.(handles).
Proof.
  intros HW Ht. pose proof (wi_handles _ _ HW). pose proof (wi_borrow _ _ HW) as Hb.
  pose proof (waiting_in _ _ _ Ht). destruct (decide (handles W = 0)) as [Hz|]; [|lia].
  destruct (Hb Hz). congruence.
Qed.

Lemma permits_handles cap (W : world T) : WInv cap W → 0 < W.(permits) → 0 < W.(handles).
Proof.
  intros HW Hp. pose proof (wi_handles _ _ HW). pose proof (wi_borrow _ _ HW) as Hb.
  destruct (decide (handles W = 0)) as [Hz|]; [destruct (Hb Hz)|]; lia.
Qed.

Lemma WInv_receive cap (W : world T) v rest ws :
  WInv cap W → W.(inner).(queue) = v :: rest → W.(rx) ≠ RxDropped →
  WInv cap (log_received (after W
    (set_waiters (set_queue W.(inner) rest W.(inner).(recv_waker)) (tail W.(inner).(send_waiters))) ws) v).
Proof.
  intros [Hc Hr Hro Hf Hh Hb Hx Hu Hd] Eq Hrx. rewrite Eq in *.
  assert (len (v :: rest) = len rest + 1) as El by (unfold len; simpl; lia). rewrite El in *.
  inv_tac.
  - intros Hw. specialize (Hro Hw). lia.
  - by rewrite <- app_assoc.
  - destruct (rx W); [done|by destruct Hx|done].
Qed.

(** The sending steps. *)
Lemma WInv_send cap (W : world T) t op r v cx i ws :
  WInv cap W → W.(sends) !! t = Some (op, Waiting) →
  send v cx W.(inner) = Some (r, i, ws) →
  match r with
  | Ready (Ok _) => WInv cap (log_sent (after (set_sends W (<[t := (op, Finished)]> W.(sends))) i ws) v)
  | Ready (Err _) => WInv cap (after (set_sends W (<[t := (op, Finished)]> W.(sends))) i ws)
  | Pending => WInv cap (after W i ws)
  end.
Proof.
  intros HW Ht Hs. pose proof (waiting_handles _ _ _ _ HW Ht). pose proof (WInv_within _ _ HW) as Hin.
  pose proof HW as [Hc Hr Hro Hf Hh Hb Hx Hu Hd]. apply send_inv in Hs.
  destruct (receiver_alive (inner W)) eqn:Ea; [destruct Hs as [(-> & -> & -> & Hroom)|(-> & -> & ->)]|destruct Hs as (-> & -> & ->)];
    world_tac.
  - apply (WInv_push cap W _ (inner W) (permits W) v); auto;
      [by rewrite set_reserved_id by apply Hr|lia| |by apply usize_finish].
    intros Hw. destruct (Hin Hw) as [Hin' <-]. specialize (Hroom Hin'). lia.
  - apply WInv_quiet; simpl; auto; try lia; tauto.
  - apply WInv_quiet; simpl; auto; try lia; try tauto. by apply usize_finish.
Qed.

Lemma WInv_reserve cap (W : world T) t n r cx i ws :
  WInv cap W → W.(sends) !! t = Some (ReserveOp n, Waiting) →
  poll_reserve cx n W.(inner) = Some (r, i, ws) →
  match r with
  | Ready b => WInv cap (add_permits
      (log_wrapped (after (set_sends W (<[t := (ReserveOp n, Finished)]> W.(sends))) i ws)
         (b && overflows W.(inner) n))
      (if b : bool then n else 0))
  | Pending => WInv cap (after W i ws)
  end.
Proof.
  intros HW Ht Hs. pose proof (waiting_handles _ _ _ _ HW Ht). pose proof (WInv_within _ _ HW) as Hin.
  pose proof HW as [Hc [Hr Hp] Hro Hf Hh Hb Hx Hu Hd]. pose proof (Hu _ _ Ht) as Hn. simpl in Hn.
  apply poll_reserve_inv in Hs; [|by eapply reserved_nonneg|lia].
  destruct (receiver_alive (inner W)) eqn:Ea; [destruct Hs as [(-> & -> & -> & Hroom & Hdb)|(-> & -> & ->)]|destruct Hs as (-> & -> & ->)];
    world_tac.
  - apply WInv_quiet; simpl; auto; try lia; try by apply usize_finish.
    + by rewrite Hr, Zplus_mod_idemp_l.
    + intros [Hw Ho]%orb_false_iff. destruct (Hin Hw) as [_ <-]. specialize (Hroom Ho). split; [done|lia].
    + intros Hdbg. by rewrite (Hd Hdbg), (Hdb Hdbg).
  - apply WInv_quiet; simpl; auto; try lia; tauto.
  - rewrite Z.add_0_r. apply WInv_quiet; simpl; auto; try lia; try tauto. by apply usize_finish.
Qed.

Lemma mpsc_WInv_step cap (W W' : world T) : WInv cap W → wstep W W' → WInv cap W'.
Proof.
  intros HW Hs. pose proof (WInv_within _ _ HW) as Hin.
  pose proof HW as [Hc Hr Hro Hf Hh Hb Hx Hu Hd].
  destruct Hs as [W op Hpos Hfit|W t v cx i ws Ht Hs|W t v v' cx i ws Ht Hs|W t v cx i ws Ht Hs
    |W t n cx b i ws Ht Hs|W t n cx i ws Ht Hs|W t op Ht|W v i ws Hpos Hs|W i ws Hpos Hs
    |W v i ws Hpos Hs|W n i ws Hn Hn' Hs|W i ws Hpos Hlt Hs|W i ws Hlt Hs|W i ws Hpos Hbor Hs
    |W cx b b' v i ws Hrx Hs|W cx b b' i ws Hrx Hs|W cx b b' i ws Hrx Hs|W w r Hrx|W i ws Hrx Hs].
  - unfold set_sends. rewrite <- (wake_rx_nil (rx W)). apply WInv_quiet; auto; try lia; try tauto.
    intros t op' [Ht|Ht]%lookup_snoc_inv; [by eapply Hu|congruence].
  - exact (WInv_send _ _ _ _ _ _ _ _ _ HW Ht Hs).
  - exact (WInv_send _ _ _ _ _ _ _ _ _ HW Ht Hs).
  - exact (WInv_send _ _ _ _ _ _ _ _ _ HW Ht Hs).
  - exact (WInv_reserve _ _ _ _ _ _ _ _ HW Ht Hs).
  - exact (WInv_reserve _ _ _ _ _ _ _ _ HW Ht Hs).
  - pose proof (waiting_handles _ _ _ _ HW Ht).
    unfold set_sends. rewrite <- (wake_rx_nil (rx W)). apply WInv_quiet; auto; try lia; try tauto.
    by apply usize_finish.
  - apply try_send_inv in Hs as (-> & -> & Hroom). world_tac.
    apply (WInv_push cap W _ (inner W) (permits W) v); auto; [by rewrite set_reserved_id by apply Hr|lia|].
    intros Hw. destruct (Hin Hw) as [Hin' <-]. specialize (Hroom Hin'). lia.
  - apply try_reserve_inv in Hs as (-> & -> & Hroom); [|by eapply reserved_nonneg]. world_tac.
    apply WInv_quiet; simpl; auto; try lia.
    + by rewrite (proj1 Hr), Zplus_mod_idemp_l.
    + intros Hw. split; [done|]. destruct (Hin Hw) as [Hin' <-]. specialize (Hroom Hin'). lia.
  - pose proof (permits_handles _ _ HW Hpos). destruct (fill_reserved_inv _ _ _ _ _ (proj1 Hr) Hs) as [-> ->].
    world_tac. apply (WInv_push cap W); auto; [lia|]. intros Hw. specialize (Hro Hw). lia.
  - pose proof (permits_handles _ _ HW ltac:(lia)).
    pose proof (release_reserved_inv _ n _ _ _ (proj1 Hr) ltac:(lia) Hs) as ->. world_tac.
    apply WInv_quiet; simpl; auto; try lia. intros Hw. split; [done|]. specialize (Hro Hw). lia.
  - rewrite sender_clone_eq in Hs by lia. simplify_eq. world_tac. apply WInv_quiet; simpl; auto; try lia; tauto.
  - rewrite weak_upgrade_eq in Hs by lia. revert Hs. destruct (Z.eqb_spec (senders_alive (inner W)) 0); [done|].
    intros; simplify_eq. world_tac. apply WInv_quiet; simpl; auto; try lia; tauto.
  - rewrite sender_drop_eq in Hs by lia. revert Hs.
    destruct (Z.eqb_spec (senders_alive (inner W)) 1) as [E1|]; intros; simplify_eq; world_tac.
    + assert (permits W = 0 ∧ existsb waits (sends W) = false) by (destruct Hbor; [done|lia]).
      inv_tac. replace (handles W + -1) with (senders_alive (inner W) - 1) by lia.
      by apply (rx_ok_closed _ (handles W)).
    + apply WInv_quiet; simpl; auto; try lia; tauto.
  - apply recv_cases in Hs as [(? & _)|Hs]; [done|].
    destruct (queue (inner W)) eqn:Eq; [destruct Hs as [_ Hs]; by destruct (_ =? 0); destruct Hs|].
    destruct Hs as (? & -> & ->). simplify_eq. by apply WInv_receive.
  - apply recv_cases in Hs as [(? & _)|Hs]; [done|].
    destruct (queue (inner W)) eqn:Eq; [|by destruct Hs].
    destruct Hs as [_ Hs]. destruct (_ =? 0); destruct Hs as [? ->]; [|done].
    inv_tac; rewrite ?Eq; try done. destruct (rx W); simpl in *; try done; tauto.
  - apply recv_cases in Hs as [(_ & -> & ->)|Hs].
    + inv_tac. rewrite bool_decide_eq_true_2 by set_solver. split; [destruct (rx W); simpl in *; try done; tauto|done].
    + destruct (queue (inner W)) eqn:Eq; [|by destruct Hs]. destruct Hs as [-> Hs].
      destruct (Z.eqb_spec (senders_alive (inner W)) 0); destruct Hs as [? ->]; [done|].
      inv_tac; rewrite ?Eq; try done. split; [destruct (rx W); simpl in *; try done; tauto|]. intros _.
      split_and!; [done|lia|done].
  - inv_tac. rewrite Hrx in Hx. apply Hx.
  - unfold receiver_drop in Hs. run_M. simplify_eq. by inv_tac.
Qed.

Lemma mpsc_reachable_inv cap (W : world T) : mpsc_reachable cap W → WInv cap W.
Proof.
  apply invariant_reachable; [|eauto using mpsc_WInv_step].
  intros W0 (i & Hi & Hcap & ->). unfold channel in Hi.
  destruct (Z.ltb_spec 0 cap); [|done]. simplify_eq. split; simpl; unfold len; simpl; try done; try lia.
Qed.

(** C8: the bounded channel is a FIFO of its capacity.  However its users
    interleave -- blocking, failing and permit sends, dropped futures and
    permits, sender clones, drops and upgrades, the receiver leaving -- the
    values accepted are the values delivered followed by the queue, in order
    (nothing lost, duplicated or reordered); the sender count is exact, and the
    count of reserved slots is that of the outstanding permits, to the width of
    a [usize].  The queue and the outstanding permits together never exceed the
    capacity unless a [reserve_many] was granted on a sum that wrapped
    ([poll_reserve] does not check it: reserve_many_overflow), which no debug
    build does. *)
Theorem mpsc_fifo cap (W : world T) :
  mpsc_reachable cap W →
  W.(sent) = W.(received) ++ W.(inner).(queue) ∧
  W.(inner).(senders_alive) = W.(handles) ∧
  W.(inner).(reserved) = W.(permits) `mod` 2 ^ usize_bits ∧
  (W.(wrapped) = false →
     len W.(inner).(queue) + W.(permits) ≤ cap ∧ W.(inner).(reserved) = W.(permits)) ∧
  (debug_build = true → W.(wrapped) = false).
Proof.
  intros HW%mpsc_reachable_inv. pose proof HW as [Hc Hr Hro Hf Hh Hb Hx Hu Hd].
  split_and!; [done|tauto..| |done]. intros Hw. destruct (WInv_within _ _ HW Hw). auto.
Qed.

(** C9: the receiver's wakeups are not lost.  A receiver told to wait, and not
    woken since, has an empty queue before it, at least one live sender, and
    its waker where every sender looks. *)
Theorem mpsc_receiver_waits_rightly cap (W : world T) w :
  mpsc_reachable cap W → W.(rx) = RxWaiting w false →
  W.(inner).(queue) = [] ∧ 0 < W.(handles) ∧ W.(inner).(recv_waker) = Some w.
Proof.
  intros HW%mpsc_reachable_inv Hrx. pose proof (wi_rx _ _ HW) as Hx. rewrite Hrx in Hx.
  by apply Hx.
Qed.

Lemma no_handles_forever cap (W W' : world T) :
  WInv cap W → W.(handles) = 0 → wstep W W' → W'.(handles) = 0 ∧ W'.(sent) = W.(sent).
Proof.
  intros HW Hz Hs. pose proof HW as [Hc Hr Hro Hf Hh Hb Hx Hu Hd]. destruct (Hb Hz) as [Hp Hw].
  assert (∀ t op, sends W !! t ≠ Some (op, Waiting)) as Hno.
  { intros t op Ht. rewrite (waiting_in _ _ _ Ht) in Hw. done. }
  destruct Hs; try (by exfalso; eapply Hno); try lia; try done.
  exfalso. rewrite weak_upgrade_eq in * by lia.
  destruct (Z.eqb_spec (senders_alive (inner W)) 0); [done|lia].
Qed.

(** [None] is final.  When [recv] answers [None], everything ever sent has
    been received, no permit is outstanding, and nothing that happens later --
    weak senders included -- can send again. *)
Theorem mpsc_recv_none_final cap (W : world T) cx b b' i ws W' :
  mpsc_reachable cap W → recv cx (b, W.(inner)) = Some (Ready None, (b', i), ws) →
  W.(sent) = W.(received) ∧ W.(permits) = 0 ∧ (rtc wstep W W' → W'.(sent) = W.(sent)).
Proof.
  intros HW%mpsc_reachable_inv Hrecv. apply recv_cases in Hrecv as [(? & _)|Hrecv]; [done|].
  destruct (queue (inner W)) eqn:Eq; [|by destruct Hrecv]. destruct Hrecv as [_ Hrecv].
  destruct (Z.eqb_spec (senders_alive (inner W)) 0) as [Hz|]; [|by destruct Hrecv].
  pose proof HW as [Hc Hr Hro Hf Hh Hb Hx Hu Hd].
  assert (handles W = 0) as Hh0 by lia. destruct (Hb Hh0) as [Hp _].
  split_and!; [by rewrite Hf, Eq, app_nil_r|done|].
  clear -HW Hh0. intros Hs. induction Hs as [|W W1 W2 Hs _ IH]; [done|].
  destruct (no_handles_forever _ _ _ HW Hh0 Hs) as [H1 H2].
  rewrite IH; [done| |done]. by eapply mpsc_WInv_step.
Qed.
End proofs.

(** ** The unbounded channel *)

Section unbounded.
Context {T : Type} `{BuildProfile}.

Record UnboundedInner := mkUnbounded {
  u_queue : list T;
  u_recv_waker : option waker;
  u_senders_alive : Z;
  u_receiver_alive : bool;
}.

Definition unbounded_channel : UnboundedInner := mkUnbounded [] None 1 true.

(** [UnboundedSender::send]; the value comes back if the receiver is gone. *)
Definition unbounded_send (value : T) : M UnboundedInner (result unit T) :=
  let! u := get in
  if negb u.(u_receiver_alive) then ret (Err value)
  else
    put (mkUnbounded (u.(u_queue) ++ [value]) None u.(u_senders_alive) u.(u_receiver_alive)) ;!
    wake_opt u.(u_recv_waker) ;!
    ret (Ok tt).

Definition unbounded_clone : M UnboundedInner unit :=
  let! u := get in
  let! n := lift (uadd usize_bits u.(u_senders_alive) 1) in
  put (mkUnbounded u.(u_queue) u.(u_recv_waker) n u.(u_receiver_alive)).

Definition unbounded_sender_drop : M UnboundedInner unit :=
  let! u := get in
  let! n := lift (usub usize_bits u.(u_senders_alive) 1) in
  if n =? 0 then
    put (mkUnbounded u.(u_queue) None n u.(u_receiver_alive)) ;! wake_opt u.(u_recv_waker)
  else put (mkUnbounded u.(u_queue) u.(u_recv_waker) n u.(u_receiver_alive)).

Definition unbounded_upgrade : M UnboundedInner bool :=
  let! u := get in
  if u.(u_senders_alive) =? 0 then ret false
  else
    let! n := lift (uadd usize_bits u.(u_senders_alive) 1) in
    put (mkUnbounded u.(u_queue) u.(u_recv_waker) n u.(u_receiver_alive)) ;! ret true.

Definition unbounded_recv (cx : waker) : M (BUDGET * UnboundedInner) (poll (option T)) :=
  let! p := zoom fst (λ b s, (b, s.2)) (poll_proceed cx) in
  match p with
  | Pending => ret Pending
  | Ready _ =>
      zoom snd (λ u s, (s.1, u))
        (let! u := get in
         match u.(u_queue) with
         | v :: rest =>
             put (mkUnbounded rest u.(u_recv_waker) u.(u_senders_alive) u.(u_receiver_alive)) ;!
             ret (Ready (Some v))
         | [] =>
             if u.(u_senders_alive) =? 0 then ret (Ready None)
             else
               put (mkUnbounded u.(u_queue) (Some cx) u.(u_senders_alive) u.(u_receiver_alive)) ;!
               ret Pending
         end)
  end.

Definition unbounded_receiver_drop : M UnboundedInner unit :=
  let! u := get in
  put (mkUnbounded u.(u_queue) u.(u_recv_waker) u.(u_senders_alive) false).

(** The bounded channel that an unbounded one looks like: any capacity, no
    permit outstanding, no sender waiting. *)
Definition as_bounded (cap : Z) (u : UnboundedInner) : Inner T :=
  mkInner u.(u_queue) cap 0 [] u.(u_recv_waker) u.(u_senders_alive) u.(u_receiver_alive).

(** [m] on the unbounded channel and [m'] on the bounded one answer the same,
    wake the same and stay related. *)
Definition simulates {A B} (rel : A → B → Prop) (cap : Z)
    (m : option (A * UnboundedInner * list waker)) (m' : option (B * Inner T * list waker)) : Prop :=
  match m, m' with
  | Some (a, u, ws), Some (b, i, ws') => rel a b ∧ i = as_bounded cap u ∧ ws = ws'
  | None, None => True
  | _, _ => False
  end.

(** The unbounded channel is the bounded one that is never full.  Every
    operation answers, wakes and changes its channel as the bounded channel's
    operation does as long as the bounded one has room. *)
Theorem unbounded_refines_bounded u cap v cx b :
  len u.(u_queue) < cap ≤ usize_max →
  simulates (λ a r, r = Ready a) cap (unbounded_send v u) (send v cx (as_bounded cap u)) ∧
  simulates eq cap (unbounded_clone u) (sender_clone (as_bounded cap u)) ∧
  simulates eq cap (unbounded_sender_drop u) (sender_drop (as_bounded cap u)) ∧
  simulates eq cap (unbounded_upgrade u) (weak_upgrade (as_bounded cap u)) ∧
  simulates eq cap (unbounded_receiver_drop u) (receiver_drop (as_bounded cap u)) ∧
  match unbounded_recv cx (b, u), recv cx (b, as_bounded cap u) with
  | Some (a, (b1, u'), ws), Some (a', (b2, i'), ws') =>
      a = a' ∧ b1 = b2 ∧ i' = as_bounded cap u' ∧ ws = ws'
  | None, None => True
  | _, _ => False
  end.
Proof.
  intros Hlen. assert (within (as_bounded cap u)) as Hin.
  { unfold within, as_bounded; simpl. pose proof (len_nonneg u.(u_queue)). lia. }
  split_and!.
  - rewrite send_eq by done. unfold unbounded_send. run_M. rewrite Z.add_0_r.
    destruct (u_receiver_alive u) eqn:Ea; simpl; [|done].
    destruct (Z.ltb_spec (len (u_queue u)) cap); [|lia]. simpl. rewrite app_nil_r.
    unfold as_bounded, pushed, set_queue; simpl. by rewrite Ea.
  - unfold unbounded_clone, sender_clone. run_M. by destruct (uadd _ _ _); run_M.
  - unfold unbounded_sender_drop, sender_drop. run_M. destruct (usub _ _ _); run_M; [|done].
    by destruct (_ =? 0).
  - unfold unbounded_upgrade, weak_upgrade. run_M. destruct (_ =? 0); [done|].
    by destruct (uadd _ _ _); run_M.
  - done.
  - unfold unbounded_recv, recv, poll_proceed, zoom. run_M.
    destruct b as [[|n|n]|]; simpl; try done;
      (destruct (u_queue u) eqn:Eq; simpl; [destruct (_ =? 0)|]; simpl; unfold as_bounded; simpl;
        rewrite ?Eq; done).
Qed.
End unbounded.
Arguments UnboundedInner : clear implicits.

Lemma unbounded_refines_bounded_witness :
  let u := mkUnbounded [1%nat] (Some 4%nat) 1 true in
  len u.(u_queue) < 5 ≤ usize_max ∧
  simulates (λ a r, r = Ready a) 5 (unbounded_send 2%nat u)
    (@send nat dev_profile 2%nat 3%nat (as_bounded 5 u)).
Proof.
  intros u. assert (len u.(u_queue) < 5 ≤ usize_max) as Hu by (split; [reflexivity|discriminate]).
  split; [exact Hu|]. apply (@unbounded_refines_bounded nat dev_profile u 5 2%nat 3%nat None Hu).
Defined.

(** ** Concrete runs *)

Definition mpsc_init : world nat := mkWorld (mkInner [] 1 0 [] None 1 true) [] 0 1 [] [] RxIdle false.

(** The receiver waits, then a value is sent: the receiver is woken. *)
Lemma mpsc_fifo_witness :
  let W := mkWorld (mkInner [7%nat] 1 0 [] None 1 true) [] 0 1 [7%nat] [] (RxWaiting 3%nat true) false in
  @mpsc_reachable nat dev_profile 1 W ∧ W.(sent) = W.(received) ++ W.(inner).(queue) ∧
  len W.(inner).(queue) + W.(permits) ≤ 1.
Proof.
  intros W. assert (@mpsc_reachable nat dev_profile 1 W) as HW.
  { exists mpsc_init. split; [eexists; split_and!; [reflexivity|discriminate|reflexivity]|].
    eapply rtc_l; [eapply (w_recv_pending _ 3%nat None); [discriminate|reflexivity]|].
    eapply rtc_l; [eapply (w_try_send _ 7%nat); reflexivity|]. apply rtc_refl. }
  split; [exact HW|]. pose proof (@mpsc_fifo nat dev_profile 1 W HW) as (H1 & _ & _ & H2 & _).
  split; [exact H1|exact (proj1 (H2 eq_refl))].
Defined.

Lemma mpsc_receiver_waits_rightly_witness :
  let W := mkWorld (mkInner [] 1 0 [] (Some 3%nat) 1 true) [] 0 1 [] [] (RxWaiting 3%nat false) false in
  @mpsc_reachable nat dev_profile 1 W ∧ W.(rx) = RxWaiting 3%nat false ∧
  W.(inner).(queue) = [] ∧ 0 < W.(handles) ∧ W.(inner).(recv_waker) = Some 3%nat.
Proof.
  intros W. assert (@mpsc_reachable nat dev_profile 1 W) as HW.
  { exists mpsc_init. split; [eexists; split_and!; [reflexivity|discriminate|reflexivity]|].
    eapply rtc_l; [eapply (w_recv_pending _ 3%nat None); [discriminate|reflexivity]|]. apply rtc_refl. }
  split; [exact HW|]. split; [reflexivity|].
  apply (@mpsc_receiver_waits_rightly nat dev_profile 1 W 3%nat HW). reflexivity.
Defined.

Lemma mpsc_recv_none_final_witness :
  let W := mkWorld (mkInner [] 1 0 [] None 0 true) [] 0 0 [7%nat] [7%nat] RxIdle false in
  @mpsc_reachable nat dev_profile 1 W ∧
  (∃ b' i ws, recv 3%nat (None, W.(inner)) = Some (Ready None, (b', i), ws)) ∧
  W.(sent) = W.(received) ∧ W.(permits) = 0.
Proof.
  intros W. assert (@mpsc_reachable nat dev_profile 1 W) as HW.
  { exists mpsc_init. split; [eexists; split_and!; [reflexivity|discriminate|reflexivity]|].
    eapply rtc_l; [eapply (w_try_send _ 7%nat); reflexivity|].
    eapply rtc_l; [eapply (w_recv _ 3%nat None); [discriminate|reflexivity]|].
    eapply rtc_l; [eapply w_sender_drop; [reflexivity|by left|reflexivity]|]. apply rtc_refl. }
  split; [exact HW|]. split; [by do 3 eexists|].
  destruct (@mpsc_recv_none_final nat dev_profile 1 W 3%nat None None _ _ W HW eq_refl) as (H1 & H2 & _).
  split; [exact H1|exact H2].
Defined.

(** A flaw.  [recv] wakes one queued sender per value, whoever it is; a
    [reserve_many] asking for more than is free puts itself back behind the
    others and the wake is spent.  Here it asks for more than the capacity:
    the channel is empty, the receiver waits for a value, a sender waits to
    send one into the free slot, and nobody is left to wake anyone. *)
Theorem mpsc_reserve_many_starves `{BuildProfile} :
  ∃ W : world nat, mpsc_reachable 1 W ∧
    W.(inner).(queue) = [] ∧ W.(permits) = 0 ∧ W.(rx) = RxWaiting 9%nat false ∧
    W.(sends) = [(ReserveOp 2, Waiting); (SendOp 8%nat, Waiting)] ∧
    W.(inner).(send_waiters) = [2%nat; 1%nat].
Proof.
  eexists. split; [exists mpsc_init; split; [eexists; split_and!; [reflexivity|discriminate|reflexivity]|]|].
  - eapply rtc_l; [eapply (w_try_send _ 7%nat); [reflexivity|by rewrite try_send_eq]|].
    eapply rtc_l; [eapply (w_start _ (ReserveOp 2)); done|].
    eapply rtc_l; [eapply (w_reserve_pending _ 0%nat 2 1%nat); [reflexivity|]|].
    { rewrite poll_reserve_eq; done. }
    eapply rtc_l; [eapply (w_start _ (SendOp 8%nat)); done|].
    eapply rtc_l; [eapply (w_send_pending _ 1%nat 8%nat 2%nat); [reflexivity|]|].
    { rewrite send_eq; done. }
    eapply rtc_l; [eapply (w_recv _ 9%nat None); [done|reflexivity]|].
    (* the woken [reserve_many] polls again and goes to the back *)
    eapply rtc_l; [eapply (w_reserve_pending _ 0%nat 2 1%nat); [reflexivity|]|].
    { rewrite poll_reserve_eq; done. }
    eapply rtc_l; [eapply (w_recv_pending _ 9%nat None); [done|reflexivity]|].
    apply rtc_refl.
  - by repeat split.
Qed.

(** In a release build the sum in [poll_reserve] wraps: on a channel of
    capacity 1 with one value queued, asking for [usize::MAX] slots succeeds. *)
Example reserve_many_overflow :
  @poll_reserve nat release_profile 1%nat usize_max (mkInner [7%nat] 1 0 [] None 1 true)
    = Some (Ready true, mkInner [7%nat] 1 usize_max [] None 1 true, []).
Proof. reflexivity. Qed.

(** So the exception of the capacity is reached. *)
Example mpsc_overflow_reached :
  ∃ W : world nat, @mpsc_reachable nat release_profile 1 W ∧ W.(wrapped) = true ∧
    1 < len W.(inner).(queue) + W.(permits) ∧ W.(permits) = usize_max.
Proof.
  eexists. split; [exists mpsc_init; split; [eexists; split_and!; [reflexivity|discriminate|reflexivity]|]|].
  - eapply rtc_l; [eapply (w_try_send _ 7%nat); reflexivity|].
    eapply rtc_l; [eapply (w_start _ (ReserveOp usize_max)); [reflexivity|by split]|].
    eapply rtc_l; [eapply (w_reserve _ 0%nat usize_max 1%nat true); [reflexivity|exact reserve_many_overflow]|].
    apply rtc_refl.
  - done.
Qed.
