(* ===== verification/Broadcast.v ===== *)
(** The broadcast channel ([src/src/sync/broadcast.rs]): a ring buffer with
    sequence numbers, refined to an unbounded log of everything ever sent with
    one cursor per receiver. *)

From S2P Require Import Prelude.

Inductive RecvError := Closed | Lagged (n : Z).
Inductive TryRecvError := TryEmpty | TryClosed | TryLagged (n : Z).

Section broadcast.
Context {T : Type}.

Record Inner := mkInner {
  buffer : list T;
  capacity : Z;
  next_seq : Z;
  waiters : list waker;
  senders_alive : Z;
  receivers_alive : Z;
}.

Definition len (q : list T) : Z := Z.of_nat (length q).

(** A [Receiver] is its [next_to_read]; both start at sequence number 0. *)
Definition channel (cap : Z) : option (Inner * Z) :=
  if 0 <? cap then Some (mkInner [] cap 0 [] 1 1, 0) else None.

Definition send `{BuildProfile} (value : T) : M Inner (result Z T) :=
  let! i := get in
  if i.(receivers_alive) =? 0 then ret (Err value)
  else
    let buffer := if len i.(buffer) =? i.(capacity) then tail i.(buffer) else i.(buffer) in
    let! seq := lift (uadd u64_bits i.(next_seq) 1) in
    put (mkInner (buffer ++ [value]) i.(capacity) seq [] i.(senders_alive) i.(receivers_alive)) ;!
    wake_all i.(waiters) ;!
    ret (Ok i.(receivers_alive)).

Definition subscribe `{BuildProfile} : M Inner Z :=
  let! i := get in
  let! n := lift (uadd usize_bits i.(receivers_alive) 1) in
  put (mkInner i.(buffer) i.(capacity) i.(next_seq) i.(waiters) i.(senders_alive) n) ;!
  ret i.(next_seq).

Definition receiver_count : M Inner Z :=
  let! i := get in ret i.(receivers_alive).

Definition sender_clone `{BuildProfile} : M Inner unit :=
  let! i := get in
  let! n := lift (uadd usize_bits i.(senders_alive) 1) in
  put (mkInner i.(buffer) i.(capacity) i.(next_seq) i.(waiters) n i.(receivers_alive)).

Definition sender_drop `{BuildProfile} : M Inner unit :=
  let! i := get in
  let! n := lift (usub usize_bits i.(senders_alive) 1) in
  if n =? 0 then
    put (mkInner i.(buffer) i.(capacity) i.(next_seq) [] n i.(receivers_alive)) ;!
    wake_all i.(waiters)
  else put (mkInner i.(buffer) i.(capacity) i.(next_seq) i.(waiters) n i.(receivers_alive)).

Definition weak_upgrade `{BuildProfile} : M Inner bool :=
  let! i := get in
  if i.(senders_alive) =? 0 then ret false
  else
    let! n := lift (uadd usize_bits i.(senders_alive) 1) in
    put (mkInner i.(buffer) i.(capacity) i.(next_seq) i.(waiters) n i.(receivers_alive)) ;!
    ret true.

(** What [poll_recv] and [try_recv] share: what the cursor finds, and where it
    goes.  [None] is a cursor that has seen everything. *)
Definition read `{BuildProfile} (next_to_read : Z) : M Inner (option (result T Z) * Z) :=
  let! i := get in
  let! base_seq := lift (usub u64_bits i.(next_seq) (len i.(buffer))) in
  if next_to_read <? base_seq then
    let! lagged := lift (usub u64_bits base_seq next_to_read) in
    ret (Some (Err lagged), base_seq)
  else if next_to_read <? i.(next_seq) then
    let! idx := lift (usub u64_bits next_to_read base_seq) in
    let! value := lift (i.(buffer) !! Z.to_nat idx) in
    let! next := lift (uadd u64_bits next_to_read 1) in
    ret (Some (Ok value), next)
  else ret (None, next_to_read).

Definition poll_recv `{BuildProfile} (next_to_read : Z) (cx : waker)
    : M Inner (poll (result T RecvError) * Z) :=
  let! r := read next_to_read in
  match r with
  | (Some (Err n), p) => ret (Ready (Err (Lagged n)), p)
  | (Some (Ok v), p) => ret (Ready (Ok v), p)
  | (None, p) =>
      let! i := get in
      if i.(senders_alive) =? 0 then ret (Ready (Err Closed), p)
      else
        put (mkInner i.(buffer) i.(capacity) i.(next_seq) (i.(waiters) ++ [cx])
               i.(senders_alive) i.(receivers_alive)) ;!
        ret (Pending, p)
  end.

Definition try_recv `{BuildProfile} (next_to_read : Z) : M Inner (result T TryRecvError * Z) :=
  let! r := read next_to_read in
  match r with
  | (Some (Err n), p) => ret (Err (TryLagged n), p)
  | (Some (Ok v), p) => ret (Ok v, p)
  | (None, p) =>
      let! i := get in
      ret (Err (if i.(senders_alive) =? 0 then TryClosed else TryEmpty), p)
  end.

Definition receiver_drop `{BuildProfile} : M Inner unit :=
  let! i := get in
  let! n := lift (usub usize_bits i.(receivers_alive) 1) in
  put (mkInner i.(buffer) i.(capacity) i.(next_seq) i.(waiters) i.(senders_alive) n).

(** ** The specification: a log and cursors *)

(** The number of messages of a log that the ring has dropped. *)
Definition oldest (cap : Z) (log : list T) : Z := Z.max 0 (len log - cap).

Definition spec_read (cap : Z) (log : list T) (p : Z) : option (result T Z) * Z :=
  if p <? oldest cap log then (Some (Err (oldest cap log - p)), oldest cap log)
  else match log !! Z.to_nat p with
       | Some v => (Some (Ok v), p + 1)
       | None => (None, p)
       end.

(** The ring holds the end of the log. *)
Record represents (log : list T) (i : Inner) : Prop := {
  rp_cap : 0 < i.(capacity);
  rp_seq : i.(next_seq) = len log;
  rp_seq_range : len log < 2 ^ u64_bits;
  rp_buffer : i.(buffer) = drop (Z.to_nat (oldest i.(capacity) log)) log;
}.

Lemma represents_len log i : represents log i → len i.(buffer) = len log - oldest i.(capacity) log.
Proof.
  intros [Hc Hs Hr Hb]. rewrite Hb. unfold len. rewrite length_drop.
  unfold oldest, len in *. lia.
Qed.

Lemma represents_new cap i p : channel cap = Some (i, p) → represents [] i ∧ p = 0.
Proof.
  unfold channel. destruct (Z.ltb_spec 0 cap); [|done]. intros [= <- <-].
  split; [|done]. split; simpl; try done. by rewrite drop_nil.
Qed.

Lemma represents_send `{BuildProfile} log i v :
  represents log i → i.(receivers_alive) ≠ 0 → len log + 1 < 2 ^ u64_bits →
  ∃ i', send v i = Some (Ok i.(receivers_alive), i', i.(waiters)) ∧ represents (log ++ [v]) i' ∧
    i'.(capacity) = i.(capacity) ∧ i'.(waiters) = [] ∧ i'.(senders_alive) = i.(senders_alive) ∧
    i'.(receivers_alive) = i.(receivers_alive).
Proof.
  intros HR Hn Hlt. pose proof (represents_len _ _ HR) as Hl. destruct HR as [Hc Hs Hr Hb].
  unfold send. run_M. destruct (Z.eqb_spec (receivers_alive i) 0); [done|].
  rewrite uadd_in_range by lia. run_M. rewrite app_nil_r.
  eexists. split; [reflexivity|]. split; [|by simpl].
  assert (len (log ++ [v]) = len log + 1) as Hlv by (unfold len; rewrite length_app; simpl; lia).
  split; simpl; [done|lia|lia|].
  unfold oldest in *. rewrite Hlv.
  destruct (Z.eqb_spec (len (buffer i)) (capacity i)) as [Heq|Hne].
  - rewrite Hb. assert (Z.to_nat (Z.max 0 (len log + 1 - capacity i))
      = S (Z.to_nat (Z.max 0 (len log - capacity i)))) as -> by lia.
    rewrite drop_app_le by (unfold len in *; lia). f_equal.
    by rewrite tail_drop.
  - rewrite Hb. assert (Z.to_nat (Z.max 0 (len log + 1 - capacity i)) = O) as -> by lia.
    assert (Z.to_nat (Z.max 0 (len log - capacity i)) = O) as -> by lia. done.
Qed.

Lemma read_spec `{BuildProfile} log i p :
  represents log i → 0 ≤ p ≤ len log →
  read p i = Some (spec_read i.(capacity) log p, i, []).
Proof.
  intros HR Hp. pose proof (represents_len _ _ HR) as Hl. destruct HR as [Hc Hs Hr Hb].
  assert (0 ≤ oldest (capacity i) log) as Ho by (unfold oldest; lia).
  assert (0 ≤ len log) by (unfold len; lia).
  unfold read, spec_read. run_M. rewrite Hs, Hl.
  assert (oldest (capacity i) log ≤ len log) by (unfold oldest; lia).
  rewrite usub_in_range by lia. run_M.
  replace (len log - (len log - oldest (capacity i) log)) with (oldest (capacity i) log) by lia.
  destruct (Z.ltb_spec p (oldest (capacity i) log)).
  - rewrite usub_in_range by lia. by run_M.
  - destruct (Z.ltb_spec p (len log)).
    + rewrite usub_in_range by lia. run_M. rewrite Hb, lookup_drop.
      rewrite <- Z2Nat.inj_add by lia.
      replace (oldest (capacity i) log + (p - oldest (capacity i) log)) with p by lia.
      destruct (log !! Z.to_nat p) eqn:E.
      * run_M. rewrite uadd_in_range by lia. by run_M.
      * apply lookup_ge_None in E. unfold len in *. lia.
    + rewrite (lookup_ge_None_2 log) by (unfold len in *; lia). done.
Qed.

(** C24: the ring buffer refines the log.  In a channel whose ring represents a
    log, [recv] and [try_recv] of any receiver answer exactly as a cursor into
    the unbounded log would: the message under the cursor while the ring still
    holds it, otherwise the exact number of messages missed with the cursor
    moved to the oldest one kept; [Closed] only with nothing unread; and a
    receiver told to wait is among those the next send wakes. *)
Theorem recv_refines_log `{BuildProfile} log i p cx :
  represents log i → 0 ≤ p ≤ len log →
  (∃ i' r p', poll_recv p cx i = Some ((r, p'), i', []) ∧ represents log i' ∧
     p' = (spec_read i.(capacity) log p).2 ∧
     match (spec_read i.(capacity) log p).1 with
     | Some (Ok v) => r = Ready (Ok v) ∧ i' = i
     | Some (Err n) => r = Ready (Err (Lagged n)) ∧ i' = i
     | None => p = len log ∧
         if i.(senders_alive) =? 0 then r = Ready (Err Closed) ∧ i' = i
         else r = Pending ∧ cx ∈ i'.(waiters)
     end) ∧
  (∃ r, try_recv p i = Some ((r, (spec_read i.(capacity) log p).2), i, []) ∧
     match (spec_read i.(capacity) log p).1 with
     | Some (Ok v) => r = Ok v
     | Some (Err n) => r = Err (TryLagged n)
     | None => r = Err (if i.(senders_alive) =? 0 then TryClosed else TryEmpty)
     end).
Proof.
  intros HR Hp. unfold poll_recv, try_recv, bind. rewrite (read_spec log) by done.
  assert (∀ q, spec_read (capacity i) log p = (None, q) → q = p ∧ p = len log) as HN.
  { intros q. unfold spec_read. destruct (p <? _); [done|].
    destruct (log !! Z.to_nat p) eqn:E; [done|]. intros [= <-].
    apply lookup_ge_None in E. unfold len in *. lia. }
  destruct (spec_read (capacity i) log p) as [[[v|n]|] q] eqn:E; simpl; run_M.
  - split; [by exists i, (Ready (Ok v)), q|by exists (Ok v)].
  - split; [by exists i, (Ready (Err (Lagged n))), q|by exists (Err (TryLagged n))].
  - destruct (HN q eq_refl) as [-> ->]. destruct (_ =? 0).
    + split; [by exists i, (Ready (Err Closed)), (len log)|by eexists].
    + split; [|by eexists]. do 3 eexists. split; [reflexivity|]. destruct HR.
      split; [by split|]. split_and!; try done. simpl. set_solver.
Qed.

(** ** Histories *)

(** Following a receiver from cursor [p]: what it was told brings it to [q],
    every message it was given being the log's at that position and every lag
    being the number of positions skipped. *)
Inductive follows (log : list T) : Z → list (result T Z) → Z → Prop :=
| follows_nil p : follows log p [] p
| follows_ok p v h q :
    follows log p h q → log !! Z.to_nat q = Some v → follows log p (h ++ [Ok v]) (q + 1)
| follows_lag p n h q :
    follows log p h q → 0 < n → follows log p (h ++ [Err n]) (q + n).

Lemma follows_snoc log p h q v : 0 ≤ p → follows log p h q → follows (log ++ [v]) p h q.
Proof.
  intros _. induction 1 as [p|p w h q _ IH Hl|p n h q _ IH Hn].
  - constructor.
  - constructor; [exact IH|by apply lookup_app_l_Some].
  - by constructor.
Qed.

Record receiver := mkReceiver {
  cursor : Z;
  start : Z;
  history : list (result T Z);
  parked : option waker;
}.

Record world := mkWorld {
  inner : Inner;
  log : list T;
  receivers : list (option receiver);   (* [None] once dropped *)
}.

Definition deliver (ws : list waker) (r : option receiver) : option receiver :=
  match r with
  | Some r =>
      Some (mkReceiver r.(cursor) r.(start) r.(history)
        (match r.(parked) with
         | Some w => if bool_decide (w ∈ ws) then None else Some w
         | None => None
         end))
  | None => None
  end.

Definition told (r : poll (result T RecvError)) (h : list (result T Z)) : list (result T Z) :=
  match r with
  | Ready (Ok v) => h ++ [Ok v]
  | Ready (Err (Lagged n)) => h ++ [Err n]
  | _ => h
  end.

Inductive wstep `{BuildProfile} : world → world → Prop :=
| w_send W v n i ws :
    len W.(log) + 1 < 2 ^ u64_bits → send v W.(inner) = Some (Ok n, i, ws) →
    wstep W (mkWorld i (W.(log) ++ [v]) (map (deliver ws) W.(receivers)))
| w_subscribe W p i ws :
    subscribe W.(inner) = Some (p, i, ws) →
    wstep W (mkWorld i W.(log) (W.(receivers) ++ [Some (mkReceiver p p [] None)]))
| w_sender_clone W i ws :
    0 < W.(inner).(senders_alive) < usize_max → sender_clone W.(inner) = Some (tt, i, ws) →
    wstep W (mkWorld i W.(log) W.(receivers))
| w_sender_drop W i ws :
    sender_drop W.(inner) = Some (tt, i, ws) →
    wstep W (mkWorld i W.(log) (map (deliver ws) W.(receivers)))
| w_recv W k r cx res p i ws :
    W.(receivers) !! k = Some (Some r) →
    poll_recv r.(cursor) cx W.(inner) = Some ((res, p), i, ws) →
    wstep W (mkWorld i W.(log)
      (<[k := Some (mkReceiver p r.(start) (told res r.(history))
              (if is_ready res then None else Some cx))]> W.(receivers)))
| w_receiver_drop W k r i ws :
    W.(receivers) !! k = Some (Some r) → receiver_drop W.(inner) = Some (tt, i, ws) →
    wstep W (mkWorld i W.(log) (<[k := None]> W.(receivers))).

Definition broadcast_reachable `{BuildProfile} (cap : Z) : world → Prop :=
  reachable (λ W, ∃ i p, channel cap = Some (i, p) ∧
    W = mkWorld i [] [Some (mkReceiver p p [] None)]) wstep.

Definition receiver_ok (lg : list T) (i : Inner) (r : receiver) : Prop :=
  0 ≤ r.(start) ∧ follows lg r.(start) r.(history) r.(cursor) ∧
  0 ≤ r.(cursor) ≤ len lg ∧
  (∀ w, r.(parked) = Some w → r.(cursor) = len lg ∧ w ∈ i.(waiters) ∧ i.(senders_alive) ≠ 0).

Definition WInv (W : world) : Prop :=
  represents W.(log) W.(inner) ∧
  ∀ k r, W.(receivers) !! k = Some (Some r) → receiver_ok W.(log) W.(inner) r.

Lemma broadcast_deliver_ok lg lg' i i' rs ws :
  (∀ r, receiver_ok lg i r → receiver_ok lg' i' (mkReceiver r.(cursor) r.(start) r.(history) None)) →
  (∀ r w, receiver_ok lg i r → r.(parked) = Some w → w ∈ ws) →
  (∀ k r, rs !! k = Some (Some r) → receiver_ok lg i r) →
  ∀ k r, map (deliver ws) rs !! k = Some (Some r) → receiver_ok lg' i' r.
Proof.
  intros Hmono Hpk Hrs k r Hk. rewrite list_lookup_fmap in Hk.
  destruct (rs !! k) as [[r0|]|] eqn:E; simplify_eq/=.
  pose proof (Hrs _ _ E) as H0. specialize (Hmono _ H0).
  destruct (parked r0) as [w|] eqn:Ep; [|done].
  rewrite bool_decide_eq_true_2 by (by eapply Hpk). done.
Qed.

(** A step that neither sends nor removes waiters. *)
Lemma receiver_ok_quiet lg i i' r :
  (∀ w, w ∈ i.(waiters) → w ∈ i'.(waiters)) → (i.(senders_alive) ≠ 0 → i'.(senders_alive) ≠ 0) →
  receiver_ok lg i r → receiver_ok lg i' r.
Proof.
  intros Hw Hs (? & ? & ? & Hp). split_and!; try done; try lia. intros w Hpk.
  destruct (Hp _ Hpk) as (? & ? & ?). auto.
Qed.

Lemma spec_read_follows cap lg st h p :
  0 < cap → follows lg st h p → 0 ≤ p ≤ len lg →
  match spec_read cap lg p with
  | (Some r, q) => follows lg st (h ++ [r]) q ∧ 0 ≤ q ≤ len lg
  | (None, q) => q = p ∧ p = len lg
  end.
Proof.
  intros Hc Hf Hp. assert (0 ≤ len lg) by (unfold len; lia).
  assert (0 ≤ oldest cap lg ≤ len lg) by (unfold oldest; lia).
  unfold spec_read. destruct (Z.ltb_spec p (oldest cap lg)) as [Hlt|Hge].
  - split; [|done]. remember (oldest cap lg) as o. clear Heqo.
    replace o with (p + (o - p)) at 2 by lia. constructor; [done|lia].
  - destruct (lg !! Z.to_nat p) as [v|] eqn:E.
    + split; [by constructor|]. apply lookup_lt_Some in E. unfold len in *. lia.
    + split; [done|]. apply lookup_ge_None in E. unfold len in *. lia.
Qed.

Lemma poll_recv_ok `{BuildProfile} lg i r cx res p i' ws :
  represents lg i → receiver_ok lg i r →
  poll_recv r.(cursor) cx i = Some ((res, p), i', ws) →
  represents lg i' ∧
  receiver_ok lg i' (mkReceiver p r.(start) (told res r.(history))
                       (if is_ready res then None else Some cx)) ∧
  (∀ r', receiver_ok lg i r' → receiver_ok lg i' r').
Proof.
  intros HR (Hs & Hf & Hc & Hpk). unfold poll_recv, bind.
  rewrite (read_spec lg) by done.
  pose proof (spec_read_follows i.(capacity) _ _ _ _ (rp_cap _ _ HR) Hf Hc) as Hsp.
  destruct (spec_read (capacity i) lg (cursor r)) as [[[v|n]|] q] eqn:E; simpl; run_M.
  - intros [= <- <- <- <-]. destruct Hsp. split_and!; try done; auto.
  - intros [= <- <- <- <-]. destruct Hsp. split_and!; try done; auto.
  - destruct Hsp as [-> Hp]. destruct (Z.eqb_spec (senders_alive i) 0) as [Hz|Hz];
      intros [= <- <- <- <-].
    + split_and!; try done.
    + split; [by destruct HR; split|]. split.
      * split_and!; try done; try (simpl; lia). intros w [= <-]. split_and!; [done|simpl; set_solver|done].
      * intros r'. apply receiver_ok_quiet; [simpl; set_solver|done].
Qed.

Lemma insert_rx_ok lg i (rs : list (option receiver)) (k : nat) x :
  (∀ r, x = Some r → receiver_ok lg i r) →
  (∀ (j : nat) r, rs !! j = Some (Some r) → receiver_ok lg i r) →
  ∀ (j : nat) r, <[k := x]> rs !! j = Some (Some r) → receiver_ok lg i r.
Proof. intros Hx Hrs j r [(_ & ? & _)|[_ Hj]]%list_lookup_insert_Some; eauto. Qed.

Lemma broadcast_WInv_step `{BuildProfile} W W' : WInv W → wstep W W' → WInv W'.
Proof.
  intros [HR Hrs] Hst. pose proof (rp_cap _ _ HR).
  destruct Hst as [W v n i ws Hlt Hs|W p i ws Hs|W i ws Hsa Hs|W i ws Hs|W k r cx res p i ws Hk Hs
    |W k r i ws Hk Hs].
  - destruct (decide (receivers_alive (inner W) = 0)) as [Hz|Hn].
    { unfold send in Hs. run_M. rewrite Hz in Hs. done. }
    destruct (represents_send _ _ v HR Hn Hlt) as (i' & E & HR' & Hc & Hw & Hsa & Hra).
    rewrite E in Hs. simplify_eq. split; [done|]. simpl.
    eapply broadcast_deliver_ok; [| |exact Hrs].
    + intros r (? & ? & ? & ?).
      assert (len (log W ++ [v]) = len (log W) + 1) by (unfold len; rewrite length_app; simpl; lia).
      split_and!; simpl; try lia; [by apply follows_snoc|done].
    + intros r w (_ & _ & _ & Hp) Hpk. by apply Hp.
  - unfold subscribe in Hs. run_M. destruct (uadd _ _ _); run_M; simplify_eq.
    split; [by destruct HR; split|]. intros k r [Hk|Hk]%lookup_snoc_inv.
    + by eapply receiver_ok_quiet; [..|by eapply Hrs].
    + simplify_eq. destruct HR as [? Hq]. simpl in *. rewrite Hq. unfold len.
      split_and!; simpl; try done; try lia; apply follows_nil.
  - unfold sender_clone in Hs. unfold usize_max in *. run_M.
    rewrite uadd_in_range in Hs by lia. run_M. simplify_eq.
    split; [by destruct HR; split|]. intros k r Hk.
    eapply receiver_ok_quiet; [..|by eapply Hrs]; simpl; [done|lia].
  - unfold sender_drop in Hs. run_M. destruct (usub _ _ _) as [n|]; run_M; [|done].
    destruct (Z.eqb_spec n 0); simplify_eq/=; (split; [by destruct HR; split|]); simpl.
    + eapply broadcast_deliver_ok; [..|exact Hrs].
      * intros r (? & ? & ? & _). by split_and!; simpl; try lia.
      * intros r w (_ & _ & _ & Hp) Hpk. by apply Hp.
    + intros k r. rewrite list_lookup_fmap. destruct (receivers W !! k) as [[r0|]|] eqn:E; simpl; [|done..].
      intros [= <-]. destruct (Hrs _ _ E) as (? & ? & ? & Hp).
      split_and!; simpl; try done; try lia. intros w. destruct (parked r0) eqn:Ep; [|done].
      intros [= <-]. destruct (Hp _ eq_refl) as (? & ? & ?). by split_and!.
  - destruct (poll_recv_ok _ _ _ _ _ _ _ _ HR (Hrs _ _ Hk) Hs) as (HR' & Hok & Hmono).
    split; [done|]. simpl. apply insert_rx_ok; [by intros ? [= <-]|].
    intros j r' Hj. apply Hmono. by eapply Hrs.
  - unfold receiver_drop in Hs. run_M. destruct (usub _ _ _); run_M; simplify_eq.
    split; [by destruct HR; split|]. simpl. apply insert_rx_ok; [done|].
    intros j r' Hj. eapply receiver_ok_quiet; [..|by eapply Hrs]; done.
Qed.

(** The lag accounting is exact.  In every reachable state every receiver
    has been told, from the message at which it subscribed up to its cursor,
    each message exactly once and in order or the exact number it missed; and
    a receiver that waits has seen the whole log, has a sender that may still
    send, and is registered to be woken by it. *)
Theorem broadcast_accounts `{BuildProfile} cap W k r :
  broadcast_reachable cap W → W.(receivers) !! k = Some (Some r) →
  follows W.(log) r.(start) r.(history) r.(cursor) ∧ r.(cursor) ≤ len W.(log) ∧
  (∀ w, r.(parked) = Some w →
     r.(cursor) = len W.(log) ∧ w ∈ W.(inner).(waiters) ∧ W.(inner).(senders_alive) ≠ 0).
Proof.
  intros HW Hk. assert (WInv W) as [HR Hrs].
  { clear Hk. revert W HW. apply invariant_reachable; [|eauto using broadcast_WInv_step].
    intros W0 (i & p & Hc & ->). apply represents_new in Hc as [HR ->]. split; [done|]. simpl.
    intros [|j] r0 Hj; simplify_eq/=. unfold receiver_ok, len; simpl. split_and!; try done.
    constructor. }
  destruct (Hrs _ _ Hk) as (? & ? & [? ?] & ?). by split_and!.
Qed.
End broadcast.
Arguments Inner : clear implicits.
Arguments world : clear implicits.
Arguments receiver : clear implicits.

(** Capacity 2, three messages sent: the receiver is told it missed one, then
    gets the second. *)
Definition broadcast_demo : world nat :=
  mkWorld (mkInner [2%nat; 3%nat] 2 3 [] 1 1) [1%nat; 2%nat; 3%nat]
    [Some (mkReceiver 2 0 [Err 1; Ok 2%nat] None)].

Lemma broadcast_demo_reachable : @broadcast_reachable nat dev_profile 2 broadcast_demo.
Proof.
  eexists. split; [do 2 eexists; split; reflexivity|].
  eapply rtc_l; [eapply (w_send _ 1%nat); reflexivity|]; simpl.
  eapply rtc_l; [eapply (w_send _ 2%nat); reflexivity|]; simpl.
  eapply rtc_l; [eapply (w_send _ 3%nat); reflexivity|]; simpl.
  eapply rtc_l; [eapply (w_recv _ 0%nat _ 5%nat); reflexivity|]; simpl.
  eapply rtc_l; [eapply (w_recv _ 0%nat _ 5%nat); reflexivity|]; simpl.
  apply rtc_refl.
Qed.

Lemma broadcast_accounts_witness :
  @broadcast_reachable nat dev_profile 2 broadcast_demo ∧
  follows [1%nat; 2%nat; 3%nat] 0 [Err 1; Ok 2%nat] 2.
Proof.
  split; [exact broadcast_demo_reachable|].
  apply (@broadcast_accounts nat dev_profile 2 broadcast_demo 0%nat
    (mkReceiver 2 0 [Err 1; Ok 2%nat] None) broadcast_demo_reachable). reflexivity.
Defined.

Lemma recv_refines_log_witness :
  let i := mkInner [2%nat; 3%nat] 2 3 [] 1 1 in
  represents [1%nat; 2%nat; 3%nat] i ∧ 0 ≤ 0 ≤ len [1%nat; 2%nat; 3%nat] ∧
  ∃ i' r p', @poll_recv nat dev_profile 0 7%nat i = Some ((r, p'), i', []) ∧ p' = 1.
Proof.
  intros i. assert (represents [1%nat; 2%nat; 3%nat] i) as HR by (split; reflexivity).
  assert (0 ≤ 0 ≤ len [1%nat; 2%nat; 3%nat]) as Hb by (split; discriminate).
  split; [exact HR|]. split; [exact Hb|].
  pose proof (@recv_refines_log nat dev_profile _ i 0 7%nat HR Hb) as [(i' & r & p' & E & _ & Hp & _) _].
  exists i', r, p'. split; [exact E|]. rewrite Hp. reflexivity.
Defined.
