(* ===== verification/Oneshot.v ===== *)
(** The single-value channel ([src/src/sync/oneshot.rs]) and its whole life:
    one sender, one receiver, each used up or dropped once. *)

From S2P Require Import Prelude Coop.

Section oneshot.
Context {T : Type}.

Inductive State := Empty | Waiting (w : waker) | Value (v : T) | Closed.

Definition channel : State := Empty.

Definition send (value : T) : M State (result unit T) :=
  let! s := get in
  match s with
  | Closed => ret (Err value)
  | old =>
      put (Value value) ;!
      wake_opt (match old with Waiting w => Some w | _ => None end) ;!
      ret (Ok tt)
  end.

(** [Drop] of a [Sender]; [send] consumes the sender, so it runs after every
    [send] too. *)
Definition sender_drop : M State unit :=
  let! s := get in
  match s with
  | Empty => put Closed
  | Waiting w => put Closed ;! wake w
  | _ => ret tt
  end.

Definition receiver_drop : M State unit := put Closed.

Inductive RecvError := mkRecvError.

Definition poll_receiver (cx : waker) : M (BUDGET * State) (poll (result T RecvError)) :=
  let! p := zoom fst (λ b s, (b, s.2)) (poll_proceed cx) in
  match p with
  | Pending => ret Pending
  | Ready _ =>
      zoom snd (λ i s, (s.1, i))
        (let! s := get in
         match s with
         | Value v => put Closed ;! ret (Ready (Ok v))
         | Closed => ret (Ready (Err mkRecvError))
         | Empty | Waiting _ => put (Waiting cx) ;! ret Pending
         end)
  end.

(** ** Lives of a channel *)

Inductive tx_phase := TxHeld | TxSent (v : T) | TxRejected (v : T) | TxGone.
Inductive rx_phase :=
| RxHeld (parked : option waker)    (* not resolved; waiting with this waker, not woken since *)
| RxGot (v : T) | RxFailed | RxGone.

Record world := mkWorld { state : State; tx : tx_phase; rx : rx_phase }.

Definition deliver (ws : list waker) (r : rx_phase) : rx_phase :=
  match r with
  | RxHeld (Some w) => if bool_decide (w ∈ ws) then RxHeld None else r
  | _ => r
  end.

Inductive wstep : world → world → Prop :=
| w_send W v r s1 s2 ws ws' :
    W.(tx) = TxHeld → send v W.(state) = Some (r, s1, ws) → sender_drop s1 = Some (tt, s2, ws') →
    wstep W (mkWorld s2 (match r with Ok _ => TxSent v | Err v => TxRejected v end)
                     (deliver (ws ++ ws') W.(rx)))
| w_sender_drop W s ws :
    W.(tx) = TxHeld → sender_drop W.(state) = Some (tt, s, ws) →
    wstep W (mkWorld s TxGone (deliver ws W.(rx)))
| w_poll W p cx b b' r s ws :
    W.(rx) = RxHeld p → poll_receiver cx (b, W.(state)) = Some (r, (b', s), ws) →
    wstep W (mkWorld s W.(tx)
      (match r with
       | Ready (Ok v) => RxGot v
       | Ready (Err _) => RxFailed
       | Pending => deliver ws (RxHeld (Some cx))
       end))
| w_receiver_drop W p s ws :
    W.(rx) = RxHeld p → receiver_drop W.(state) = Some (tt, s, ws) →
    wstep W (mkWorld s W.(tx) RxGone).

Definition oneshot_reachable : world → Prop :=
  reachable (.= mkWorld channel TxHeld (RxHeld None)) wstep.

Definition WInv (W : world) : Prop :=
  match W.(tx), W.(rx) with
  | TxHeld, RxHeld None => W.(state) = Empty ∨ ∃ w, W.(state) = Waiting w
  | TxHeld, RxHeld (Some w) => W.(state) = Waiting w
  | TxHeld, RxGone => W.(state) = Closed
  | TxHeld, _ => False
  | TxSent v, RxHeld p => W.(state) = Value v ∧ p = None
  | TxSent v, RxGot v' => v' = v ∧ W.(state) = Closed
  | TxSent v, RxFailed => False
  | TxSent v, RxGone => W.(state) = Closed
  | TxRejected _, RxGone => W.(state) = Closed
  | TxRejected _, _ => False
  | TxGone, RxHeld p => W.(state) = Closed ∧ p = None
  | TxGone, RxGot _ => False
  | TxGone, _ => W.(state) = Closed
  end.

Lemma poll_receiver_cases cx b s r b' s' ws :
  poll_receiver cx (b, s) = Some (r, (b', s'), ws) →
  (r = Pending ∧ s' = s ∧ ws = [cx]) ∨
  (ws = [] ∧ match s with
   | Value v => r = Ready (Ok v) ∧ s' = Closed
   | Closed => r = Ready (Err mkRecvError) ∧ s' = Closed
   | _ => r = Pending ∧ s' = Waiting cx
   end).
Proof.
  unfold poll_receiver, poll_proceed, zoom. run_M.
  destruct b as [[|n|n]|]; destruct s; run_M; intros; simplify_eq/=;
    first [by left|right; by repeat split].
Qed.

Lemma oneshot_WInv_step W W' : WInv W → wstep W W' → WInv W'.
Proof.
  intros HW Hst. unfold WInv in *.
  destruct Hst as [W v r s1 s2 ws ws' Ht Hs Hd|W s ws Ht Hd|W p cx b b' r s ws Hr Hp|W p s ws Hr Hd].
  - rewrite Ht in HW. unfold send, sender_drop in *. run_M.
    destruct (rx W) as [[w|]| | |] eqn:Er; simpl in *; try done.
    + rewrite HW in Hs. simplify_eq/=. rewrite bool_decide_eq_true_2 by set_solver. done.
    + destruct HW as [HW|[w HW]]; rewrite HW in Hs; simplify_eq/=; done.
    + rewrite HW in Hs. simplify_eq/=. done.
  - rewrite Ht in HW. unfold sender_drop in *. run_M.
    destruct (rx W) as [[w|]| | |] eqn:Er; simpl in *; try done.
    + rewrite HW in Hd. simplify_eq/=. rewrite bool_decide_eq_true_2 by set_solver. done.
    + destruct HW as [HW|[w HW]]; rewrite HW in Hd; simplify_eq/=; done.
    + rewrite HW in Hd. simplify_eq/=. done.
  - rewrite Hr in HW. apply poll_receiver_cases in Hp as [(-> & -> & ->)|(-> & Hp)]; simpl.
    + rewrite bool_decide_eq_true_2 by set_solver.
      destruct (tx W); try done; destruct p; try done; [right; eauto|by destruct HW|by destruct HW].
    + destruct (tx W); try done.
      * destruct p; [rewrite HW in Hp|destruct HW as [HW|[w HW]]; rewrite HW in Hp];
          by destruct Hp as [-> ->].
      * destruct HW as [HW ->]. rewrite HW in Hp. by destruct Hp as [-> ->].
      * destruct HW as [HW ->]. rewrite HW in Hp. by destruct Hp as [-> ->].
  - rewrite Hr in HW. unfold receiver_drop in Hd. run_M. simplify_eq.
    destruct (tx W); try done.
Qed.

(** C25: the value sent is the value received.  In every reachable state: the
    receiver holds a value only if the sender sent that very value, and fails
    only if the sender was dropped without sending; a value is handed back to
    the sender only if the receiver was gone; and a receiver that waits, not
    woken since, has a sender that may still send and that will find its
    waker. *)
Theorem oneshot_delivers W :
  oneshot_reachable W →
  (∀ v, W.(rx) = RxGot v → W.(tx) = TxSent v) ∧
  (W.(rx) = RxFailed → W.(tx) = TxGone) ∧
  (∀ v, W.(tx) = TxRejected v → W.(rx) = RxGone) ∧
  (∀ v p, W.(tx) = TxSent v → W.(rx) = RxHeld p → W.(state) = Value v) ∧
  (∀ w, W.(rx) = RxHeld (Some w) → W.(tx) = TxHeld ∧ W.(state) = Waiting w).
Proof.
  intros HW. assert (WInv W) as HI.
  { revert W HW. apply invariant_reachable; [|eauto using oneshot_WInv_step].
    intros ? ->. by left. }
  unfold WInv in HI.
  destruct (tx W), (rx W) as [[|]| | |]; split_and!; intros; simplify_eq; try done;
    intuition congruence.
Qed.
End oneshot.
Arguments State : clear implicits.
Arguments world : clear implicits.

Lemma oneshot_delivers_witness :
  let W : world nat := mkWorld Closed (TxSent 4%nat) (RxGot 4%nat) in
  oneshot_reachable W ∧ W.(tx) = TxSent 4%nat.
Proof.
  intros W. assert (oneshot_reachable W) as HW.
  { eexists. split; [reflexivity|].
    eapply rtc_l; [eapply (w_poll _ _ 3%nat None); reflexivity|].
    eapply rtc_l; [eapply (w_send _ 4%nat); reflexivity|].
    eapply rtc_l; [eapply (w_poll _ _ 3%nat None); reflexivity|]. apply rtc_refl. }
  split; [exact HW|]. destruct (oneshot_delivers W HW) as [H _]. apply (H 4%nat). reflexivity.
Defined.
