(* ===== verification/Mutex.v ===== *)
(** The async mutex ([src/src/sync/mutex.rs]).

    [State] is the content of the inner [StdMutex] together with [strong], the
    [Arc] count that the owned guards keep; the protected value itself is not
    modelled, only who may reach it.  A task is a position in [tasks]; its
    waker is that position. *)

From S2P Require Import Prelude.

Record State := mkState {
  locked : bool;
  waiters : list waker;
  strong : Z;
}.

Definition new (arcs : Z) : State := mkState false [] arcs.

(** The closure of [acquire]'s [poll_fn]. *)
Definition acquire (w : waker) : M State (poll unit) :=
  let! s := get in
  if negb s.(locked) then
    put (mkState true s.(waiters) s.(strong)) ;!
    ret (Ready tt)
  else
    put (mkState s.(locked) (s.(waiters) ++ [w]) s.(strong)) ;!
    ret Pending.

Definition try_acquire : M State bool :=
  let! s := get in
  if s.(locked) then ret false
  else
    put (mkState true s.(waiters) s.(strong)) ;!
    ret true.

Definition release : M State unit :=
  let! s := get in
  let next := head s.(waiters) in
  put (mkState false (tail s.(waiters)) s.(strong)) ;!
  wake_opt next.

Definition arc_clone : M State unit :=
  let! s := get in put (mkState s.(locked) s.(waiters) (s.(strong) + 1)).
Definition arc_drop : M State unit :=
  let! s := get in put (mkState s.(locked) s.(waiters) (s.(strong) - 1)).

(** The four guard types. *)
Inductive guard :=
| MutexGuard
| OwnedMutexGuard
| MappedMutexGuard
| OwnedMappedMutexGuard.

Definition owns_arc (g : guard) : bool :=
  match g with OwnedMutexGuard | OwnedMappedMutexGuard => true | _ => false end.

(** Building the guard of [lock] ([owned = false]) or [lock_owned]. *)
Definition make_guard (owned : bool) : M State guard :=
  if owned then arc_clone ;! ret OwnedMutexGuard else ret MutexGuard.

Definition lock (owned : bool) (w : waker) : M State (poll guard) :=
  let! r := acquire w in
  match r with
  | Ready _ => let! g := make_guard owned in ret (Ready g)
  | Pending => ret Pending
  end.

Definition try_lock (owned : bool) : M State (option guard) :=
  let! b := try_acquire in
  if b : bool then let! g := make_guard owned in ret (Some g) else ret None.

(** [map]: the borrowed flavour forgets the guard it consumes; the owned one
    keeps it in a [ManuallyDrop] and clones its [Arc]. *)
Definition map (g : guard) : M State (option guard) :=
  match g with
  | MutexGuard => ret (Some MappedMutexGuard)
  | OwnedMutexGuard => arc_clone ;! ret (Some OwnedMappedMutexGuard)
  | _ => ret None
  end.

(** [Drop] of a guard: [release], then its fields. *)
Definition drop_guard (g : guard) : M State unit :=
  release ;!
  (if owns_arc g then arc_drop else ret tt).

(** ** The system of tasks around one mutex *)

Inductive phase :=
| ToPoll (owned : bool)
| Parked (owned : bool)
| Holding (g : guard)
| Lost (g : guard)   (* a guard that is gone without its [Drop] *)
| Gone.

Record world := mkWorld { mutex : State; tasks : list phase; maps : Z }.

Definition holding (p : phase) : bool := match p with Holding _ => true | _ => false end.
Definition holding_arc (p : phase) : bool :=
  match p with Holding g => owns_arc g | _ => false end.
Definition lost (p : phase) : bool := match p with Lost _ => true | _ => false end.
Definition lost_arc (p : phase) : bool := match p with Lost g => owns_arc g | _ => false end.
Definition parked (p : phase) : bool := match p with Parked _ => true | _ => false end.
Definition to_poll (p : phase) : bool := match p with ToPoll _ => true | _ => false end.

(** Deliver a wake: a parked task becomes runnable, any other is not waiting
    for this mutex any more. *)
Definition deliver1 (ts : list phase) (w : waker) : list phase :=
  match ts !! w with
  | Some (Parked o) => <[w := ToPoll o]> ts
  | _ => ts
  end.
Definition deliver (ts : list phase) (ws : list waker) : list phase := foldl deliver1 ts ws.

Definition after_lock (r : poll guard) (o : bool) : phase :=
  match r with Ready g => Holding g | Pending => Parked o end.

(** A panic in the closure of [map], which only the two unmapped guards have:
    that of [MutexGuard::map] runs while the guard is alive, so that unwinding
    drops it; [OwnedMutexGuard::map] has put its guard in a [ManuallyDrop] by
    then.  What is left of the task's guard. *)
Definition map_unwinds (g : guard) : M State (option phase) :=
  match g with
  | MutexGuard => drop_guard MutexGuard ;! ret (Some Gone)
  | OwnedMutexGuard => ret (Some (Lost OwnedMutexGuard))
  | _ => ret None
  end.

(** [lax] also allows what the code cannot rule out: a parked future polled
    again without having been woken (by [select!], [join!] or any combinator
    that polls all its branches), and one dropped before it acquires. *)
Inductive wstep (lax : bool) : world → world → Prop :=
| w_lock W o :
    wstep lax W (mkWorld W.(mutex) (W.(tasks) ++ [ToPoll o]) W.(maps))
| w_poll W t p o r s' ws :
    W.(tasks) !! t = Some p → p = ToPoll o ∨ (lax = true ∧ p = Parked o) →
    lock o t W.(mutex) = Some (r, s', ws) →
    wstep lax W (mkWorld s' (deliver (<[t := after_lock r o]> W.(tasks)) ws) W.(maps))
| w_try W o g s' ws :
    try_lock o W.(mutex) = Some (Some g, s', ws) →
    wstep lax W (mkWorld s' (deliver (W.(tasks) ++ [Holding g]) ws) W.(maps))
| w_map W t g g' s' ws :
    W.(tasks) !! t = Some (Holding g) → map g W.(mutex) = Some (Some g', s', ws) →
    wstep lax W (mkWorld s' (deliver (<[t := Holding g']> W.(tasks)) ws)
                   (if owns_arc g then W.(maps) + 1 else W.(maps)))
| w_drop W t g s' ws :
    W.(tasks) !! t = Some (Holding g) → drop_guard g W.(mutex) = Some (tt, s', ws) →
    wstep lax W (mkWorld s' (deliver (<[t := Gone]> W.(tasks)) ws) W.(maps))
| w_map_panics W t g p s' ws :
    W.(tasks) !! t = Some (Holding g) → map_unwinds g W.(mutex) = Some (Some p, s', ws) →
    wstep lax W (mkWorld s' (deliver (<[t := p]> W.(tasks)) ws) W.(maps))
| w_forget W t g :   (* [mem::forget], by its user *)
    W.(tasks) !! t = Some (Holding g) →
    wstep lax W (mkWorld W.(mutex) (<[t := Lost g]> W.(tasks)) W.(maps))
| w_cancel W t p :
    lax = true → W.(tasks) !! t = Some p → to_poll p || parked p = true →
    wstep lax W (mkWorld W.(mutex) (<[t := Gone]> W.(tasks)) W.(maps)).

(** The mutex with [arcs] handles kept by its users. *)
Definition winit (arcs : Z) (W : world) : Prop := W = mkWorld (new arcs) [] 0.

Definition mutex_reachable (lax : bool) (arcs : Z) : world → Prop :=
  reachable (winit arcs) (wstep lax).

(** ** Mutual exclusion *)

Record WInv (arcs : Z) (W : world) : Prop := {
  wi_locked : (count holding W.(tasks) + count lost W.(tasks)
    = if W.(mutex).(locked) then 1 else 0)%nat;
  wi_strong : W.(mutex).(strong)
    = arcs + Z.of_nat (count holding_arc W.(tasks)) + Z.of_nat (count lost_arc W.(tasks)) + W.(maps);
}.

Lemma mutex_deliver_count (q : phase → bool) ts ws :
  (∀ o, q (Parked o) = q (ToPoll o)) → count q (deliver ts ws) = count q ts.
Proof.
  intros Hq. unfold deliver. revert ts. induction ws as [|w ws IH]; intros ts; simpl; [done|].
  rewrite IH. unfold deliver1. destruct (ts !! w) as [[]|] eqn:E; try done.
  pose proof (count_insert q _ _ _ (ToPoll owned) E) as Hc. rewrite Hq in Hc. lia.
Qed.

Lemma lock_cases o t s r s' ws :
  lock o t s = Some (r, s', ws) → ws = [] ∧
  ((s.(locked) = false ∧ r = Ready (if o then OwnedMutexGuard else MutexGuard) ∧
    s' = mkState true s.(waiters) (if o then s.(strong) + 1 else s.(strong))) ∨
   (s.(locked) = true ∧ r = Pending ∧ s' = mkState true (s.(waiters) ++ [t]) s.(strong))).
Proof.
  unfold lock, acquire, make_guard, arc_clone. run_M.
  destruct (locked s) eqn:E; [|destruct o]; intros [= <- <- <-]; split; try done; [right|left..]; by repeat split.
Qed.

Lemma try_lock_cases o s g s' ws :
  try_lock o s = Some (Some g, s', ws) → ws = [] ∧
  s.(locked) = false ∧ g = (if o then OwnedMutexGuard else MutexGuard) ∧
  s' = mkState true s.(waiters) (if o then s.(strong) + 1 else s.(strong)).
Proof.
  unfold try_lock, try_acquire, make_guard, arc_clone. run_M.
  destruct (locked s) eqn:E; [done|destruct o]; intros [= <- <- <-]; by repeat split.
Qed.

Lemma map_cases g s g' s' ws :
  map g s = Some (Some g', s', ws) → ws = [] ∧ owns_arc g' = owns_arc g ∧
  s' = mkState s.(locked) s.(waiters) (if owns_arc g then s.(strong) + 1 else s.(strong)).
Proof.
  unfold map, arc_clone. run_M.
  destruct g; intros ?; simplify_eq; simpl; repeat split; by destruct s'.
Qed.

Lemma drop_guard_cases g s s' ws :
  drop_guard g s = Some (tt, s', ws) →
  ws = match s.(waiters) with [] => [] | w :: _ => [w] end ∧
  s' = mkState false (tail s.(waiters)) (if owns_arc g then s.(strong) - 1 else s.(strong)).
Proof.
  unfold drop_guard, release, arc_drop. run_M.
  destruct (waiters s), g; simpl; intros [= <- <-]; by repeat split.
Qed.

Lemma map_unwinds_cases g s p s' ws :
  map_unwinds g s = Some (Some p, s', ws) →
  (p = Gone ∧ drop_guard g s = Some (tt, s', ws)) ∨ (p = Lost g ∧ s' = s ∧ ws = []).
Proof.
  unfold map_unwinds. destruct g; [| |discriminate..].
  - unfold drop_guard, release. run_M. simpl. intros [= <- <- <-]. left. by rewrite ?app_nil_r.
  - run_M. intros [= <- <- <-]. by right.
Qed.

(** The four counts when one task's phase changes. *)
Lemma mutex_counts ts t p p' : ts !! t = Some p →
  (count holding (<[t := p']> ts) + (if holding p then 1 else 0)
     = count holding ts + (if holding p' then 1 else 0))%nat ∧
  (count lost (<[t := p']> ts) + (if lost p then 1 else 0)
     = count lost ts + (if lost p' then 1 else 0))%nat ∧
  (count holding_arc (<[t := p']> ts) + (if holding_arc p then 1 else 0)
     = count holding_arc ts + (if holding_arc p' then 1 else 0))%nat ∧
  (count lost_arc (<[t := p']> ts) + (if lost_arc p then 1 else 0)
     = count lost_arc ts + (if lost_arc p' then 1 else 0))%nat.
Proof. intros Hp. split_and!; by apply count_insert. Qed.

Lemma WInv_drop arcs W t g s' ws :
  WInv arcs W → W.(tasks) !! t = Some (Holding g) → drop_guard g W.(mutex) = Some (tt, s', ws) →
  WInv arcs (mkWorld s' (deliver (<[t := Gone]> W.(tasks)) ws) W.(maps)).
Proof.
  intros [Hl Hs] Hp [-> ->]%drop_guard_cases. pose proof (mutex_counts _ _ _ Gone Hp) as Hc. simpl in *.
  split; simpl; rewrite !mutex_deliver_count by done; destruct (locked _), (owns_arc g); lia.
Qed.

Lemma WInv_lost arcs W t g :
  WInv arcs W → W.(tasks) !! t = Some (Holding g) →
  WInv arcs (mkWorld W.(mutex) (<[t := Lost g]> W.(tasks)) W.(maps)).
Proof.
  intros [Hl Hs] Hp. pose proof (mutex_counts _ _ _ (Lost g) Hp) as Hc. simpl in *.
  split; simpl; destruct (locked _), (owns_arc g); lia.
Qed.

Lemma mutex_WInv_step lax arcs W W' : WInv arcs W → wstep lax W W' → WInv arcs W'.
Proof.
  intros HI Hst. pose proof HI as [Hl Hs].
  destruct Hst as [W o|W t p o r s' ws Hp Hpo Hlock|W o g s' ws Htry|W t g g' s' ws Hp Hm
    |W t g s' ws Hp Hd|W t g p s' ws Hp Hm|W t g Hp|W t p _ Hp Hpo]; simpl in *.
  - split; simpl; rewrite !count_app, !count_cons, !count_nil; simpl; rewrite ?Nat.add_0_r; done.
  - apply lock_cases in Hlock as [-> Hc]. pose proof (mutex_counts _ _ _ (after_lock r o) Hp) as Hk.
    assert (holding p = false ∧ holding_arc p = false ∧ lost p = false ∧ lost_arc p = false) as (E1 & E2 & E3 & E4)
      by (by destruct Hpo as [->|[_ ->]]).
    rewrite E1, E2, E3, E4 in *.
    destruct Hc as [(Hf & -> & ->)|(Hf & -> & ->)]; rewrite Hf in *; split; simpl in *;
      destruct o; simpl in *; lia.
  - apply try_lock_cases in Htry as (-> & Hf & -> & ->). rewrite Hf in *.
    split; simpl; rewrite !count_app, !count_cons, !count_nil; destruct o; simpl; lia.
  - apply map_cases in Hm as (-> & Ho & ->). pose proof (mutex_counts _ _ _ (Holding g') Hp) as Hk.
    simpl in *. rewrite Ho in *. split; simpl; destruct (owns_arc g); lia.
  - by apply (WInv_drop arcs W t g).
  - apply map_unwinds_cases in Hm as [[-> Hd]|(-> & -> & ->)]; [by apply (WInv_drop arcs W t g)|].
    by apply WInv_lost.
  - by apply WInv_lost.
  - pose proof (mutex_counts _ _ _ Gone Hp) as Hk. destruct p; try done; simpl in *; split; simpl; lia.
Qed.

Lemma mutex_reachable_inv lax arcs W : mutex_reachable lax arcs W → WInv arcs W.
Proof.
  revert W. apply invariant_reachable; [|eauto using mutex_WInv_step].
  intros ? ->. split; [done|]. simpl. rewrite !count_nil. lia.
Qed.

(** C38: the mutex excludes.  In every interleaving -- including futures polled
    spuriously, futures dropped, and panics in the closure of [map] -- at most
    one guard exists.  The lock bit is set exactly when there is one, or when
    one is gone without its [Drop], forgotten by its user or lost to a panic in
    the closure of [OwnedMutexGuard::map]; in that case no guard exists.  Every
    guard flavour releases once: the [Arc] count is the users' handles plus the
    owned guards alive or lost, plus one for every [OwnedMutexGuard::map] that
    ever returned. *)
Theorem mutex_exclusive lax arcs W :
  mutex_reachable lax arcs W →
  (count holding W.(tasks) + count lost W.(tasks) ≤ 1)%nat ∧
  (W.(mutex).(locked) = true ↔
     ∃ t g, W.(tasks) !! t = Some (Holding g) ∨ W.(tasks) !! t = Some (Lost g)) ∧
  W.(mutex).(strong) =
    arcs + Z.of_nat (count holding_arc W.(tasks)) + Z.of_nat (count lost_arc W.(tasks)) + W.(maps).
Proof.
  intros HW. destruct (mutex_reachable_inv lax arcs W HW) as [Hl Hs].
  split; [destruct (locked _); lia|]. split; [|done]. split.
  - intros E. rewrite E in Hl. destruct (count_exists (tasks W) holding) as [Hz|(t & p & Hp & Hh)].
    + destruct (count_exists (tasks W) lost) as [Hz'|(t & p & Hp & Hh)]; [lia|]. destruct p; try done. eauto.
    + destruct p; try done. eauto.
  - intros (t & g & [Hg|Hg]); destruct (locked _); try done.
    + pose proof (count_pos holding _ _ _ Hg eq_refl). lia.
    + pose proof (count_pos lost _ _ _ Hg eq_refl). lia.
Qed.

Definition mutex_demo : world :=
  mkWorld (mkState true [1%nat] 2) [Holding OwnedMutexGuard; Parked false] 0.

Lemma mutex_demo_reachable lax : mutex_reachable lax 1 mutex_demo.
Proof.
  eexists. split; [reflexivity|].
  eapply rtc_l; [eapply (w_lock _ _ true)|].
  eapply rtc_l; [eapply (w_poll _ _ 0%nat (ToPoll true)); [reflexivity|by left|reflexivity]|].
  eapply rtc_l; [eapply (w_lock _ _ false)|].
  eapply rtc_l; [eapply (w_poll _ _ 1%nat (ToPoll false)); [reflexivity|by left|reflexivity]|].
  apply rtc_refl.
Qed.

(** The holder's [map] panics after that: the bit stays set, the count too. *)
Definition mutex_abandoned : world :=
  mkWorld (mkState true [1%nat] 2) [Lost OwnedMutexGuard; Parked false] 0.

Lemma mutex_abandoned_reachable lax : mutex_reachable lax 1 mutex_abandoned.
Proof.
  eapply reachable_step; [apply (mutex_demo_reachable lax)|].
  apply (w_map_panics lax mutex_demo 0 OwnedMutexGuard (Lost OwnedMutexGuard) _ []); reflexivity.
Qed.

Lemma mutex_exclusive_witness :
  (mutex_reachable true 1 mutex_demo ∧ (count holding mutex_demo.(tasks) = 1)%nat) ∧
  mutex_reachable true 1 mutex_abandoned ∧ (count holding mutex_abandoned.(tasks) = 0)%nat ∧
  ∃ t g, mutex_abandoned.(tasks) !! t = Some (Holding g) ∨ mutex_abandoned.(tasks) !! t = Some (Lost g).
Proof.
  split; [split; [apply mutex_demo_reachable|reflexivity]|].
  split; [apply mutex_abandoned_reachable|]. split; [reflexivity|].
  destruct (mutex_exclusive true 1 mutex_abandoned (mutex_abandoned_reachable true)) as (_ & [Hb _] & _).
  by apply Hb.
Defined.

(** ** A panic in [map] *)

(** Locked, with nobody to unlock it. *)
Definition abandoned (W : world) : Prop :=
  W.(mutex).(locked) = true ∧ count holding W.(tasks) = 0%nat.

Lemma abandoned_step lax W W' : abandoned W → wstep lax W W' → abandoned W'.
Proof.
  intros [Hl Hn] Hst. assert (∀ t g, tasks W !! t ≠ Some (Holding g)) as Hno.
  { intros t g Hg. pose proof (count_pos holding _ _ _ Hg eq_refl). lia. }
  destruct Hst as [W o|W t p o r s' ws Hp Hpo Hlock|W o g s' ws Htry|W t g g' s' ws Hp Hm
    |W t g s' ws Hp Hd|W t g p s' ws Hp Hm|W t g Hp|W t p _ Hp Hpo]; simpl in *; try (by destruct (Hno t g)).
  - split; simpl; [done|]. rewrite count_app, count_cons, count_nil. simpl. lia.
  - apply lock_cases in Hlock as [-> [(Hf & _)|(_ & -> & ->)]]; [congruence|].
    split; simpl; [done|]. pose proof (count_insert holding _ _ _ (Parked o) Hp). simpl in *. lia.
  - apply try_lock_cases in Htry as (_ & Hf & _). congruence.
  - split; simpl; [done|]. pose proof (count_insert holding _ _ _ Gone Hp). simpl in *. lia.
Qed.

(** A flaw: when the closure of [OwnedMutexGuard::map] panics, the mutex stays
    locked for ever and no task ever holds it again, whatever is done with it
    afterwards; the borrowed [map] unlocks it and wakes the next waiter. *)
Theorem owned_map_panic_locks lax arcs W t p s' ws :
  mutex_reachable lax arcs W → W.(tasks) !! t = Some (Holding OwnedMutexGuard) →
  map_unwinds OwnedMutexGuard W.(mutex) = Some (Some p, s', ws) →
  ∀ W', rtc (wstep lax) (mkWorld s' (deliver (<[t := p]> W.(tasks)) ws) W.(maps)) W' →
  W'.(mutex).(locked) = true ∧ ∀ u g, W'.(tasks) !! u ≠ Some (Holding g).
Proof.
  intros HR Ht Hu W' Hr. destruct (mutex_reachable_inv lax arcs W HR) as [Hl _].
  injection Hu as <- <- <-. assert (abandoned W') as [? Hn].
  { eapply (rtc_ind_r abandoned); [|eauto using abandoned_step|exact Hr].
    pose proof (count_insert holding _ _ _ (Lost OwnedMutexGuard) Ht). pose proof (count_pos holding _ _ _ Ht eq_refl).
    unfold abandoned. simpl in *. destruct (locked _); [split; [done|lia]|lia]. }
  split; [done|]. intros u g Hg. pose proof (count_pos holding _ _ _ Hg eq_refl). lia.
Qed.

Lemma owned_map_panic_locks_witness :
  ∃ W', rtc (wstep true) mutex_abandoned W' ∧
    W'.(mutex).(locked) = true.
Proof.
  eexists. split; [apply rtc_refl|].
  apply (owned_map_panic_locks true 1 mutex_demo 0%nat _ _ _ (mutex_demo_reachable true)
    eq_refl eq_refl _ (rtc_refl _ _)).
Defined.

(** ** Wakeups *)

(** When every future is polled only if woken and none is dropped, the queue
    is exactly the parked tasks, and a free mutex with a queue has a task on
    its way. *)
Record Queued (W : world) : Prop := {
  q_nodup : NoDup W.(mutex).(waiters);
  q_parked : ∀ t, t ∈ W.(mutex).(waiters) ↔ ∃ o, W.(tasks) !! t = Some (Parked o);
  q_free : W.(mutex).(locked) = false → W.(mutex).(waiters) = [] ∨
    ∃ t o, W.(tasks) !! t = Some (ToPoll o);
}.

Lemma parked_insert (ts : list phase) (t : nat) p' :
  (t < length ts)%nat → parked p' = false → ∀ u,
  (∃ o, <[t := p']> ts !! u = Some (Parked o)) ↔
  u ≠ t ∧ ∃ o, ts !! u = Some (Parked o).
Proof.
  intros Hlt Hp u. destruct (decide (u = t)) as [->|Hne].
  - rewrite list_lookup_insert_eq by lia. split; [intros [o [= ->]]; done|by intros []].
  - rewrite list_lookup_insert_ne by done. naive_solver.
Qed.

Lemma Queued_hold W t p g s m : Queued W → W.(tasks) !! t = Some (Holding g) → parked p = false →
  Queued (mkWorld (mkState W.(mutex).(locked) W.(mutex).(waiters) s) (<[t := p]> W.(tasks)) m).
Proof.
  intros [Hnd Hpk Hfree] Hp Hn. pose proof (lookup_lt_Some _ _ _ Hp) as Hlt. split; simpl; [done| |].
  - intros u. rewrite Hpk, parked_insert by (simpl; lia || done).
    split; [|by intros []]. intros [o' Hu]. split; [congruence|eauto].
  - intros Hf. destruct (Hfree Hf) as [|(u & o & Hu)]; [by left|right].
    exists u, o. rewrite list_lookup_insert_ne; [done|congruence].
Qed.

Lemma Queued_drop W t g s' ws :
  Queued W → W.(tasks) !! t = Some (Holding g) → drop_guard g W.(mutex) = Some (tt, s', ws) →
  Queued (mkWorld s' (deliver (<[t := Gone]> W.(tasks)) ws) W.(maps)).
Proof.
  intros [Hnd Hpk Hfree] Hp [-> ->]%drop_guard_cases. pose proof (lookup_lt_Some _ _ _ Hp) as Hlt.
  assert (∀ u, (∃ o, <[t:=Gone]> (tasks W) !! u = Some (Parked o)) ↔ u ∈ waiters (mutex W)) as Hpk'.
  { intros u. rewrite Hpk, parked_insert by (simpl; lia || done).
    split; [by intros []|]. intros [o' Hu]. split; [congruence|eauto]. }
  destruct (waiters (mutex W)) as [|w ws]; simpl.
  + split; simpl; [done| |by left]. intros u. by rewrite Hpk'.
  + destruct (proj2 (Hpk' w) ltac:(set_solver)) as [o Hw].
    apply NoDup_cons in Hnd as [Hnin Hnd].
    unfold deliver, deliver1; simpl. rewrite Hw.
    pose proof (lookup_lt_Some _ _ _ Hw).
    split; simpl; [done| |].
    * intros u. rewrite parked_insert by (simpl; lia || done). rewrite Hpk'. set_solver.
    * intros _. right. exists w, o. by rewrite list_lookup_insert_eq.
Qed.

Lemma Queued_step W W' : Queued W → wstep false W W' → Queued W'.
Proof.
  intros HQ Hst. pose proof HQ as [Hnd Hpk Hfree].
  destruct Hst as [W o|W t p o r s' ws Hp Hpo Hlock|W o g s' ws Htry|W t g g' s' ws Hp Hm
    |W t g s' ws Hp Hd|W t g p s' ws Hp Hm|W t g Hp|W t p Hlax]; simpl in *; [| | | | | | |done].
  - split; simpl; [done| |].
    + intros t. rewrite Hpk. split; intros [o' Ho]; exists o'.
      * by apply lookup_app_l_Some.
      * by apply lookup_snoc_inv in Ho as [|].
    + intros _. right. exists (length (tasks W)), o. by rewrite list_lookup_middle.
  - destruct Hpo as [->|[? _]]; [|done]. pose proof (lookup_lt_Some _ _ _ Hp) as Hlt.
    assert (t ∉ waiters (mutex W)) as Hnin by (rewrite Hpk; intros [o' ?]; congruence).
    apply lock_cases in Hlock as [-> [(Hf & -> & ->)|(Hf & -> & ->)]]; simpl.
    + split; simpl; [done| |done]. intros u. rewrite Hpk, parked_insert by (simpl; lia || done).
      split; [|by intros []]. intros [o' Hu]. split; [congruence|eauto].
    + split; simpl; [| |done].
      * apply NoDup_app. split_and!; [done| |apply NoDup_singleton].
        intros u Hu ->%list_elem_of_singleton. done.
      * intros u. rewrite elem_of_app, list_elem_of_singleton, Hpk.
        destruct (decide (u = t)) as [->|Hne].
        -- rewrite list_lookup_insert_eq by done. naive_solver.
        -- rewrite list_lookup_insert_ne by done. naive_solver.
  - apply try_lock_cases in Htry as (-> & Hf & -> & ->). split; simpl; [done| |done].
    intros t. rewrite Hpk. split; intros [o' Ho]; exists o'.
    + by apply lookup_app_l_Some.
    + by apply lookup_snoc_inv in Ho as [|].
  - apply map_cases in Hm as (-> & _ & ->). by destruct W as [[]]; apply (Queued_hold _ _ (Holding g') g _ _ HQ Hp).
  - by apply (Queued_drop W t g).
  - apply map_unwinds_cases in Hm as [[-> Hd]|(-> & -> & ->)]; [by apply (Queued_drop W t g)|].
    by destruct W as [[]]; apply (Queued_hold _ _ (Lost g) g _ _ HQ Hp).
  - by destruct W as [[]]; apply (Queued_hold _ _ (Lost g) g _ _ HQ Hp).
Qed.

(** No wakeup is lost, as long as parked futures are polled only when
    woken and are not dropped.  If the mutex is free while a task is parked on
    it, some task has been woken and will take it. *)
Theorem mutex_no_lost_wakeup arcs W t o :
  mutex_reachable false arcs W →
  W.(mutex).(locked) = false → W.(tasks) !! t = Some (Parked o) →
  ∃ u o', W.(tasks) !! u = Some (ToPoll o').
Proof.
  intros HW Hf Ht. assert (Queued W) as HQ.
  { revert W HW Hf Ht. intros W HW _ _. revert W HW.
    apply invariant_reachable; [|eauto using Queued_step].
    intros ? ->. split; simpl; [apply NoDup_nil_2| |by left].
    intros u. split; [by intros ?%elem_of_nil|by intros [? ?]]. }
  destruct (q_free _ HQ Hf) as [Hn|]; [|done].
  pose proof (proj2 (q_parked _ HQ t) (ex_intro _ o Ht)) as Hin.
  rewrite Hn in Hin. by apply elem_of_nil in Hin.
Qed.

Lemma mutex_no_lost_wakeup_witness :
  ∃ W, mutex_reachable false 1 W ∧ W.(mutex).(locked) = false ∧
    W.(tasks) !! 2%nat = Some (Parked false) ∧
    ∃ u o', W.(tasks) !! u = Some (ToPoll o').
Proof.
  exists (mkWorld (mkState false [2%nat] 1) [Gone; ToPoll false; Parked false] 0).
  assert (mutex_reachable false 1
    (mkWorld (mkState false [2%nat] 1) [Gone; ToPoll false; Parked false] 0)) as HR.
  { eexists. split; [reflexivity|].
    do 3 (eapply rtc_l; [eapply (w_lock _ _ false)|]).
    eapply rtc_l; [eapply (w_poll _ _ 0%nat (ToPoll false)); [reflexivity|by left|reflexivity]|].
    eapply rtc_l; [eapply (w_poll _ _ 1%nat (ToPoll false)); [reflexivity|by left|reflexivity]|].
    eapply rtc_l; [eapply (w_poll _ _ 2%nat (ToPoll false)); [reflexivity|by left|reflexivity]|].
    eapply rtc_l; [eapply (w_drop _ _ 0%nat); reflexivity|]. apply rtc_refl. }
  split; [exact HR|]. split; [reflexivity|]. split; [reflexivity|].
  apply (mutex_no_lost_wakeup 1 _ 2%nat false HR); reflexivity.
Defined.

(** A flaw.  Dropping a [lock] future leaves its waker in the queue, and
    the next release spends itself on it: the mutex is free, a task is parked
    on it, and nothing is left to wake that task. *)
Theorem mutex_cancel_loses_wakeup :
  ∃ W, mutex_reachable true 1 W ∧ W.(mutex).(locked) = false ∧
    W.(tasks) = [Gone; Gone; Parked false].
Proof.
  eexists. split; [eexists; split; [reflexivity|]|].
  - do 3 (eapply rtc_l; [eapply (w_lock _ _ false)|]).
    eapply rtc_l; [eapply (w_poll _ _ 0%nat (ToPoll false)); [reflexivity|by left|reflexivity]|].
    eapply rtc_l; [eapply (w_poll _ _ 1%nat (ToPoll false)); [reflexivity|by left|reflexivity]|].
    eapply rtc_l; [eapply (w_poll _ _ 2%nat (ToPoll false)); [reflexivity|by left|reflexivity]|].
    eapply rtc_l; [eapply (w_cancel _ _ 1%nat); reflexivity|].
    eapply rtc_l; [eapply (w_drop _ _ 0%nat); reflexivity|]. apply rtc_refl.
  - by split.
Qed.
