(* ===== verification/RwLock.v ===== *)
(** The async reader/writer lock ([src/src/sync/rwlock.rs]).

    [State] is the content of the inner [StdMutex]; a task is a position in
    [tasks] and its waker is that position.  The protected value is not
    modelled, only who may reach it. *)

From S2P Require Import Prelude.

Inductive Mode := Read | Write.

#[export] Instance Mode_eq_dec : EqDecision Mode.
Proof. solve_decision. Defined.

Record State := mkState {
  writer_locked : bool;
  readers : Z;
  waiters : list (Mode * waker);
}.

Definition new : State := mkState false 0 [].

Definition writer_pending (s : State) : bool :=
  existsb (λ '(mode, _), bool_decide (mode = Write)) s.(waiters).

(** The loop of [wake_eligible]: pop readers from the front. *)
Fixpoint pop_readers (ws : list (Mode * waker)) : list waker * list (Mode * waker) :=
  match ws with
  | (Read, w) :: rest => let '(woken, remaining) := pop_readers rest in (w :: woken, remaining)
  | _ => ([], ws)
  end.

Definition wake_eligible : M State (list waker) :=
  let! s := get in
  let '(woken, remaining) := pop_readers s.(waiters) in
  if bool_decide (woken = []) && (s.(readers) =? 0) then
    match remaining with
    | (Write, w) :: rest =>
        put (mkState s.(writer_locked) s.(readers) rest) ;! ret [w]
    | _ => put (mkState s.(writer_locked) s.(readers) remaining) ;! ret woken
    end
  else
    put (mkState s.(writer_locked) s.(readers) remaining) ;! ret woken.

Definition try_acquire_read `{BuildProfile} : M State bool :=
  let! s := get in
  if negb s.(writer_locked) && negb (writer_pending s) then
    let! r := lift (uadd usize_bits s.(readers) 1) in
    put (mkState s.(writer_locked) r s.(waiters)) ;! ret true
  else ret false.

Definition try_acquire_write : M State bool :=
  let! s := get in
  if negb s.(writer_locked) && (s.(readers) =? 0) then
    put (mkState true s.(readers) s.(waiters)) ;! ret true
  else ret false.

(** The closures of [acquire_read]'s and [acquire_write]'s [poll_fn]. *)
Definition acquire_read `{BuildProfile} (w : waker) : M State (poll unit) :=
  let! s := get in
  if negb s.(writer_locked) && negb (writer_pending s) then
    let! r := lift (uadd usize_bits s.(readers) 1) in
    put (mkState s.(writer_locked) r s.(waiters)) ;! ret (Ready tt)
  else
    put (mkState s.(writer_locked) s.(readers) (s.(waiters) ++ [(Read, w)])) ;!
    ret Pending.

Definition acquire_write (w : waker) : M State (poll unit) :=
  let! s := get in
  if negb s.(writer_locked) && (s.(readers) =? 0) then
    put (mkState true s.(readers) s.(waiters)) ;! ret (Ready tt)
  else
    put (mkState s.(writer_locked) s.(readers) (s.(waiters) ++ [(Write, w)])) ;!
    ret Pending.

Definition release_read `{BuildProfile} : M State unit :=
  let! s := get in
  let! r := lift (usub usize_bits s.(readers) 1) in
  put (mkState s.(writer_locked) r s.(waiters)) ;!
  let! woken := (if r =? 0 then wake_eligible else ret []) in
  wake_all woken.

Definition release_write : M State unit :=
  let! s := get in
  put (mkState false s.(readers) s.(waiters)) ;!
  let! woken := wake_eligible in
  wake_all woken.

(** [RwLockWriteGuard::downgrade]; the owned flavour is the same. *)
Definition downgrade : M State unit :=
  let! s := get in
  put (mkState false 1 s.(waiters)) ;!
  let! woken := wake_eligible in
  wake_all woken.

Definition acquire `{BuildProfile} (m : Mode) (w : waker) : M State (poll unit) :=
  match m with Read => acquire_read w | Write => acquire_write w end.
Definition try_acquire `{BuildProfile} (m : Mode) : M State bool :=
  match m with Read => try_acquire_read | Write => try_acquire_write end.
Definition release `{BuildProfile} (m : Mode) : M State unit :=
  match m with Read => release_read | Write => release_write end.

(** ** The system of tasks around one lock *)

Inductive phase := ToPoll (m : Mode) | Parked (m : Mode) | Holding (m : Mode) | Gone.

Record world := mkWorld { lock : State; tasks : list phase }.

Definition holding (m : Mode) (p : phase) : bool :=
  match p with Holding m' => bool_decide (m' = m) | _ => false end.
Definition waiting (p : phase) : bool :=
  match p with ToPoll _ | Parked _ => true | _ => false end.

Definition deliver1 (ts : list phase) (w : waker) : list phase :=
  match ts !! w with
  | Some (Parked m) => <[w := ToPoll m]> ts
  | _ => ts
  end.
Definition deliver (ts : list phase) (ws : list waker) : list phase := foldl deliver1 ts ws.

Definition after_acquire (r : poll unit) (m : Mode) : phase :=
  match r with Ready _ => Holding m | Pending => Parked m end.

(** There are never more calls than a [usize] counts. *)
Definition room (W : world) : Prop := Z.of_nat (length W.(tasks)) < usize_max.

(** As for the mutex, [lax] also allows spurious polls and dropped futures. *)
Inductive wstep `{BuildProfile} (lax : bool) : world → world → Prop :=
| w_acquire W m :
    room W →
    wstep lax W (mkWorld W.(lock) (W.(tasks) ++ [ToPoll m]))
| w_poll W t p m r s' ws :
    W.(tasks) !! t = Some p → p = ToPoll m ∨ (lax = true ∧ p = Parked m) →
    acquire m t W.(lock) = Some (r, s', ws) →
    wstep lax W (mkWorld s' (deliver (<[t := after_acquire r m]> W.(tasks)) ws))
| w_try W m s' ws :
    room W →
    try_acquire m W.(lock) = Some (true, s', ws) →
    wstep lax W (mkWorld s' (deliver (W.(tasks) ++ [Holding m]) ws))
| w_drop W t m s' ws :
    W.(tasks) !! t = Some (Holding m) → release m W.(lock) = Some (tt, s', ws) →
    wstep lax W (mkWorld s' (deliver (<[t := Gone]> W.(tasks)) ws))
| w_downgrade W t s' ws :
    W.(tasks) !! t = Some (Holding Write) → downgrade W.(lock) = Some (tt, s', ws) →
    wstep lax W (mkWorld s' (deliver (<[t := Holding Read]> W.(tasks)) ws))
| w_cancel W t p :
    lax = true → W.(tasks) !! t = Some p → waiting p = true →
    wstep lax W (mkWorld W.(lock) (<[t := Gone]> W.(tasks))).

Definition rwlock_reachable `{BuildProfile} (lax : bool) : world → Prop :=
  reachable (.= mkWorld new []) (wstep lax).

(** ** Exclusion *)

Definition WInv (W : world) : Prop :=
  W.(lock).(readers) = Z.of_nat (count (holding Read) W.(tasks)) ∧
  count (holding Write) W.(tasks) = (if W.(lock).(writer_locked) then 1 else 0)%nat ∧
  (W.(lock).(writer_locked) = true → W.(lock).(readers) = 0) ∧
  Z.of_nat (length W.(tasks)) ≤ usize_max.

Lemma rwlock_deliver_count (q : phase → bool) ts ws :
  (∀ m, q (Parked m) = q (ToPoll m)) → count q (deliver ts ws) = count q ts.
Proof.
  intros Hq. unfold deliver. revert ts. induction ws as [|w ws IH]; intros ts; simpl; [done|].
  rewrite IH. unfold deliver1. destruct (ts !! w) as [[]|] eqn:E; try done.
  pose proof (count_insert q _ _ _ (ToPoll m) E) as Hc. rewrite Hq in Hc. lia.
Qed.

Lemma deliver_holding m ts ws : count (holding m) (deliver ts ws) = count (holding m) ts.
Proof. by apply rwlock_deliver_count. Qed.

(** The wake-ups touch neither the readers nor the writer bit. *)
Lemma wake_eligible_keeps s woken s' ws :
  wake_eligible s = Some (woken, s', ws) →
  ws = [] ∧ s'.(writer_locked) = s.(writer_locked) ∧ s'.(readers) = s.(readers).
Proof.
  unfold wake_eligible. run_M. destruct (pop_readers (waiters s)) as [wk rem].
  destruct (_ && _); [destruct rem as [|[[] ?] ?]|]; intros [= <- <- <-]; done.
Qed.

(** What a poll or a [try] does to the lock's own bits. *)
Definition granted (m : Mode) (s s' : State) : Prop :=
  s.(writer_locked) = false ∧
  match m with
  | Read => s'.(writer_locked) = false ∧ s'.(readers) = s.(readers) + 1
  | Write => s.(readers) = 0 ∧ s'.(writer_locked) = true ∧ s'.(readers) = 0
  end.

Lemma acquire_cases `{BuildProfile} m t s r s' ws :
  0 ≤ s.(readers) < usize_max → acquire m t s = Some (r, s', ws) → ws = [] ∧
  match r with
  | Ready _ => granted m s s'
  | Pending => s'.(writer_locked) = s.(writer_locked) ∧ s'.(readers) = s.(readers)
  end.
Proof.
  intros Hr. unfold acquire, acquire_read, acquire_write, granted. run_M.
  destruct m.
  - rewrite uadd_in_range by (unfold usize_max in *; lia). simpl.
    destruct (writer_locked s) eqn:E; simpl; [by intros [= <- <- <-]|].
    destruct (writer_pending s); simpl; by intros [= <- <- <-].
  - destruct (writer_locked s) eqn:E; simpl; [by intros [= <- <- <-]|].
    destruct (Z.eqb_spec (readers s) 0) as [E0|]; intros [= <- <- <-]; simpl; rewrite ?E0; done.
Qed.

Lemma try_acquire_cases `{BuildProfile} m s s' ws :
  0 ≤ s.(readers) < usize_max → try_acquire m s = Some (true, s', ws) → ws = [] ∧ granted m s s'.
Proof.
  intros Hr. unfold try_acquire, try_acquire_read, try_acquire_write, granted. run_M.
  destruct m.
  - rewrite uadd_in_range by (unfold usize_max in *; lia). simpl.
    destruct (writer_locked s) eqn:E; simpl; [done|].
    destruct (writer_pending s); simpl; by intros [= <- <-].
  - destruct (writer_locked s) eqn:E; simpl; [done|].
    destruct (Z.eqb_spec (readers s) 0) as [E0|]; intros [= <- <-]; simpl; rewrite ?E0; done.
Qed.

Lemma release_cases `{BuildProfile} m s s' ws :
  (m = Read → 1 ≤ s.(readers)) → release m s = Some (tt, s', ws) →
  s'.(writer_locked) = (if decide (m = Write) then false else s.(writer_locked)) ∧
  s'.(readers) = (if decide (m = Read) then s.(readers) - 1 else s.(readers)).
Proof.
  intros Hr. unfold release, release_read, release_write. destruct m; simpl.
  - run_M. rewrite usub_in_range by auto. simpl. destruct (_ =? 0); simpl.
    + destruct (wake_eligible _) as [[[wk s1] w1]|] eqn:E; [|done].
      apply wake_eligible_keeps in E as (-> & ? & ?). by intros [= <- <-].
    + by intros [= <- <-].
  - run_M. destruct (wake_eligible _) as [[[wk s1] w1]|] eqn:E; [|done].
    apply wake_eligible_keeps in E as (-> & ? & ?). by intros [= <- <-].
Qed.

Lemma downgrade_cases s s' ws :
  downgrade s = Some (tt, s', ws) → s'.(writer_locked) = false ∧ s'.(readers) = 1.
Proof.
  unfold downgrade. run_M. destruct (wake_eligible _) as [[[wk s1] w1]|] eqn:E; [|done].
  apply wake_eligible_keeps in E as (-> & ? & ?). by intros [= <- <-].
Qed.

Lemma deliver_length ts ws : length (deliver ts ws) = length ts.
Proof.
  unfold deliver. revert ts. induction ws as [|w ws IH]; intros ts; simpl; [done|].
  rewrite IH. unfold deliver1. repeat case_match; by rewrite ?length_insert.
Qed.

Lemma readers_bound (W : world) : WInv W → room W → 0 ≤ W.(lock).(readers) < usize_max.
Proof.
  intros (-> & _) Hroom. unfold room in *. unfold count.
  pose proof (length_filter (λ p, holding Read p) (tasks W)). lia.
Qed.

Lemma granted_inv m (s s' : State) (R R' N' : nat) (N : nat) (len : Z) :
  granted m s s' → s.(readers) = Z.of_nat R → N = (if s.(writer_locked) then 1 else 0)%nat →
  (s.(writer_locked) = true → s.(readers) = 0) →
  (R' = (if decide (m = Read) then R + 1 else R) ∧
   N' = (if decide (m = Write) then N + 1 else N))%nat →
  len ≤ usize_max →
  s'.(readers) = Z.of_nat R' ∧ N' = (if s'.(writer_locked) then 1 else 0)%nat ∧
  (s'.(writer_locked) = true → s'.(readers) = 0) ∧ len ≤ usize_max.
Proof.
  intros [Hl Hg] Hr Hw Hx [HR HN] Hlen. rewrite Hl in *.
  destruct m; simpl in *; destruct Hg as (H1 & H2); [|destruct H2 as (H2 & H3)];
    simpl in *; split_and!; try done; try (rewrite ?H1, ?H2); try lia; try done.
Qed.

Lemma rwlock_WInv_step `{BuildProfile} lax W W' : WInv W → wstep lax W W' → WInv W'.
Proof.
  intros HW Hst. pose proof HW as (Hr & Hw & Hx & Hlen).
  assert (∀ t p p', tasks W !! t = Some p → p' = p' →
    (count (holding Read) (<[t := p']> (tasks W)) + (if holding Read p then 1 else 0)
      = count (holding Read) (tasks W) + (if holding Read p' then 1 else 0))%nat ∧
    (count (holding Write) (<[t := p']> (tasks W)) + (if holding Write p then 1 else 0)
      = count (holding Write) (tasks W) + (if holding Write p' then 1 else 0))%nat) as Hc.
  { intros t p p' Hp _. split; by apply count_insert. }
  destruct Hst as [W m Hroom|W t p m r s' ws Hp Hpo Hacq|W m s' ws Hroom Htry|W t m s' ws Hp Hrel
    |W t s' ws Hp Hdg|W t p _ Hp Hpo]; unfold WInv; simpl;
    rewrite ?deliver_length, ?length_insert, ?deliver_holding.
  - rewrite !count_app, !count_cons, !count_nil, length_app. simpl.
    rewrite !Nat.add_0_r. unfold room in *. split_and!; try done. lia.
  - assert (holding Read p = false ∧ holding Write p = false) as [E1 E2]
      by (by destruct Hpo as [->|[_ ->]]).
    destruct (Hc t p (after_acquire r m) Hp eq_refl) as [C1 C2]. rewrite E1, E2 in *.
    assert (0 ≤ readers (lock W) < usize_max) as Hb.
    { rewrite Hr. pose proof (count_lt (holding Read) _ _ _ Hp E1). lia. }
    apply acquire_cases in Hacq as [_ Hg]; [|done].
    destruct r as [[]|]; simpl in *.
    + eapply granted_inv; [exact Hg|done|done|done| |done]. destruct m; simpl in *; lia.
    + destruct Hg as [-> ->]. split_and!; done || lia.
  - apply try_acquire_cases in Htry as [_ Hg]; [|by apply readers_bound].
    rewrite !count_app, !count_cons, !count_nil, length_app. simpl. unfold room in *.
    eapply granted_inv; [exact Hg|done|done|done| |lia]. destruct m; simpl in *; lia.
  - destruct (Hc t _ Gone Hp eq_refl) as [C1 C2]. simpl in *.
    apply release_cases in Hrel as [-> ->].
    + destruct m; simpl in *; destruct (writer_locked (lock W)); try specialize (Hx eq_refl);
        split_and!; try done; lia.
    + intros ->. pose proof (count_pos (holding Read) _ _ _ Hp eq_refl). lia.
  - destruct (Hc t _ (Holding Read) Hp eq_refl) as [C1 C2]. simpl in *.
    apply downgrade_cases in Hdg as [-> ->].
    destruct (writer_locked (lock W)); split_and!; try done; try specialize (Hx eq_refl); lia.
  - destruct (Hc t _ Gone Hp eq_refl) as [C1 C2].
    destruct p; try done; simpl in *; split_and!; done || lia.
Qed.

Lemma rwlock_reachable_inv `{BuildProfile} lax W : rwlock_reachable lax W → WInv W.
Proof.
  revert W. apply invariant_reachable; [|eauto using rwlock_WInv_step].
  intros ? ->. unfold WInv; simpl. rewrite !count_nil. by split_and!.
Qed.

(** The lock excludes.  In every interleaving, spurious polls, dropped
    futures and downgrades included: a write guard excludes every other
    guard, and the counters are exact -- [readers] is the number of read
    guards and [writer_locked] tells whether a write guard exists. *)
Theorem rwlock_exclusive `{BuildProfile} lax W :
  rwlock_reachable lax W →
  W.(lock).(readers) = Z.of_nat (count (holding Read) W.(tasks)) ∧
  count (holding Write) W.(tasks) = (if W.(lock).(writer_locked) then 1 else 0)%nat ∧
  (count (holding Write) W.(tasks) = 0 ∨ count (holding Read) W.(tasks) = 0)%nat.
Proof.
  intros HW. destruct (rwlock_reachable_inv lax W HW) as (Hr & Hw & Hx & _).
  split_and!; [done|done|]. destruct (writer_locked (lock W)); [right|by left].
  specialize (Hx eq_refl). lia.
Qed.

(** ** A panic in [map]

    [RwLockWriteGuard::map] and its owned twin change nothing in the lock, but
    a panic of their closure drops the borrowed guard, still alive, and not
    the owned one, already in a [ManuallyDrop]. *)
Definition map_unwinds (owned : bool) : M State unit :=
  if owned then ret tt else release_write.

Definition abandoned (W : world) : Prop :=
  W.(lock).(writer_locked) = true ∧ W.(lock).(readers) = 0 ∧
  ∀ t m, W.(tasks) !! t ≠ Some (Holding m).

Lemma not_holding_insert (ts : list phase) (t : nat) (p : phase) :
  (∀ m, p ≠ Holding m) → (∀ (u : nat) m, ts !! u ≠ Some (Holding m)) →
  ∀ (u : nat) m, <[t := p]> ts !! u ≠ Some (Holding m).
Proof. intros Hp Hts u m [(_ & -> & _)|[_ ?]]%list_lookup_insert_Some; [by apply (Hp m)|by apply (Hts u m)]. Qed.

Lemma rwlock_abandoned_step `{BuildProfile} lax W W' : abandoned W → wstep lax W W' → abandoned W'.
Proof.
  intros (Hl & Hr & Hno) Hst. assert (0 ≤ readers (lock W) < usize_max) as Hb by (by rewrite Hr).
  destruct Hst as [W m Hroom|W t p m r s' ws Hp Hpo Hacq|W m s' ws Hroom Htry|W t m s' ws Hp Hrel
    |W t s' ws Hp Hdg|W t p _ Hp Hpo]; simpl in *;
    try (by edestruct Hno).
  - split_and!; simpl; [done..|]. intros u m' [|]%lookup_snoc_inv; [by edestruct Hno|naive_solver].
  - apply acquire_cases in Hacq as [-> Hg]; [|done].
    destruct r as [[]|], Hg as [Hg1 Hg2]; [congruence|].
    split_and!; simpl; [congruence..|]. by apply not_holding_insert.
  - apply try_acquire_cases in Htry as [_ [? _]]; [congruence|done].
  - split_and!; simpl; [done..|]. by apply not_holding_insert.
Qed.

(** A flaw: when the closure of [OwnedRwLockWriteGuard::map] panics, the lock
    stays held by a writer that is gone: nobody reads or writes again. *)
Theorem owned_write_map_panic_locks `{BuildProfile} lax W t s' ws :
  rwlock_reachable lax W → W.(tasks) !! t = Some (Holding Write) →
  map_unwinds true W.(lock) = Some (tt, s', ws) →
  ∀ W', rtc (wstep lax) (mkWorld s' (deliver (<[t := Gone]> W.(tasks)) ws)) W' →
  W'.(lock).(writer_locked) = true ∧ ∀ u m, W'.(tasks) !! u ≠ Some (Holding m).
Proof.
  intros HR Ht [= <- <-] W' Hr. destruct (rwlock_reachable_inv lax W HR) as (Hr' & Hw & Hx & _).
  assert (abandoned W') as (? & _ & ?); [|done].
  eapply (rtc_ind_r abandoned); [|eauto using rwlock_abandoned_step|exact Hr].
  pose proof (count_pos (holding Write) _ _ _ Ht eq_refl). unfold abandoned; simpl.
  destruct (writer_locked (lock W)); [specialize (Hx eq_refl)|lia]. split_and!; [done|done|].
  intros u m [(_ & ? & _)|[Hne Hu]]%list_lookup_insert_Some; [done|].
  destruct m; [pose proof (count_pos (holding Read) _ _ _ Hu eq_refl); lia|].
  pose proof (count_two (holding Write) _ _ _ _ _ Hne Ht Hu eq_refl eq_refl). lia.
Qed.

(** A flaw.  The lock deadlocks without any misuse -- no future is polled
    without having been woken and none is dropped.  A writer holds the lock, a
    reader queues, then a second writer.  The release wakes the reader alone;
    its poll finds a writer queued and goes back behind it.  Nobody holds the
    lock, two tasks are parked on it, and none will ever be woken. *)
Theorem rwlock_deadlock `{BuildProfile} :
  ∃ W, rwlock_reachable false W ∧ W.(tasks) = [Gone; Parked Read; Parked Write] ∧
    W.(lock).(writer_locked) = false ∧ W.(lock).(readers) = 0.
Proof.
  exists (mkWorld (mkState false 0 [(Write, 2%nat); (Read, 1%nat)])
    [Gone; Parked Read; Parked Write]). split; [|done].
  eexists. split; [reflexivity|].
  eapply rtc_l; [eapply (w_acquire _ _ Write); reflexivity|].
  eapply rtc_l; [eapply (w_poll _ _ 0%nat (ToPoll Write)); [reflexivity|by left|reflexivity]|].
  eapply rtc_l; [eapply (w_acquire _ _ Read); reflexivity|].
  eapply rtc_l; [eapply (w_poll _ _ 1%nat (ToPoll Read)); [reflexivity|by left|reflexivity]|].
  eapply rtc_l; [eapply (w_acquire _ _ Write); reflexivity|].
  eapply rtc_l; [eapply (w_poll _ _ 2%nat (ToPoll Write)); [reflexivity|by left|reflexivity]|].
  eapply rtc_l; [eapply (w_drop _ _ 0%nat Write); reflexivity|].
  eapply rtc_l; [eapply (w_poll _ _ 1%nat (ToPoll Read)); [reflexivity|by left|reflexivity]|].
  apply rtc_refl.
Qed.

Lemma rwlock_exclusive_witness :
  ∃ W, @rwlock_reachable dev_profile false W ∧ W.(lock).(readers) = 1 ∧
    (count (holding Write) W.(tasks) = 0 ∨ count (holding Read) W.(tasks) = 0)%nat.
Proof.
  exists (mkWorld (mkState false 1 []) [Holding Read]).
  assert (@rwlock_reachable dev_profile false (mkWorld (mkState false 1 []) [Holding Read])) as HR.
  { eexists. split; [reflexivity|].
    eapply rtc_l; [eapply (w_try _ _ Read); reflexivity|]. apply rtc_refl. }
  split; [exact HR|]. split; [reflexivity|].
  apply (@rwlock_exclusive dev_profile false _ HR).
Defined.

Lemma owned_write_map_panic_locks_witness :
  ∃ W', rtc (@wstep dev_profile false) (mkWorld (mkState true 0 []) [Gone]) W' ∧
    W'.(lock).(writer_locked) = true.
Proof.
  assert (@rwlock_reachable dev_profile false (mkWorld (mkState true 0 []) [Holding Write])) as HR.
  { eexists. split; [reflexivity|].
    eapply rtc_l; [eapply (w_try _ _ Write); reflexivity|]. apply rtc_refl. }
  eexists. split; [apply rtc_refl|].
  apply (@owned_write_map_panic_locks dev_profile false _ 0%nat _ _ HR eq_refl eq_refl _ (rtc_refl _ _)).
Defined.
