(* ===== verification/Watch.v ===== *)
(** The watch channel ([src/src/sync/watch.rs]): one current value under a
    version number, refined to the list of every value it ever held. *)

From S2P Require Import Prelude.

Section watch.
Context {T : Type}.

Record Inner := mkInner {
  value : T;
  version : Z;
  wakers : list waker;
  sender_alive : bool;
  receivers_alive : Z;
}.

Inductive RecvError := mkRecvError.

(** A [Receiver] is its [seen_version]. *)
Definition channel (initial : T) : Inner * Z := (mkInner initial 0 [] true 1, 0).

Definition send `{BuildProfile} (v : T) : M Inner (result unit T) :=
  let! i := get in
  if i.(receivers_alive) =? 0 then ret (Err v)
  else
    let! n := lift (uadd u64_bits i.(version) 1) in
    put (mkInner v n [] i.(sender_alive) i.(receivers_alive)) ;!
    wake_all i.(wakers) ;!
    ret (Ok tt).

Definition send_modify `{BuildProfile} (modify : T → T) : M Inner unit :=
  let! i := get in
  let! n := lift (uadd u64_bits i.(version) 1) in
  put (mkInner (modify i.(value)) n [] i.(sender_alive) i.(receivers_alive)) ;!
  wake_all i.(wakers).

(** [Sender::borrow] and [Receiver::borrow]. *)
Definition borrow : M Inner T := let! i := get in ret i.(value).

Definition receiver_count : M Inner Z := let! i := get in ret i.(receivers_alive).

Definition sender_drop : M Inner unit :=
  let! i := get in
  put (mkInner i.(value) i.(version) [] false i.(receivers_alive)) ;!
  wake_all i.(wakers).

Definition borrow_and_update : M Inner (T * Z) :=
  let! i := get in ret (i.(value), i.(version)).

(** One poll of [changed], on its [registered] flag and the receiver's
    [seen_version]. *)
Definition poll_changed (seen_version : Z) (registered : bool) (cx : waker)
    : M Inner (poll (result unit RecvError) * Z * bool) :=
  let! i := get in
  if negb (i.(version) =? seen_version) then ret (Ready (Ok tt), i.(version), registered)
  else if negb i.(sender_alive) then ret (Ready (Err mkRecvError), seen_version, registered)
  else if registered then ret (Pending, seen_version, true)
  else
    put (mkInner i.(value) i.(version) (i.(wakers) ++ [cx]) i.(sender_alive) i.(receivers_alive)) ;!
    ret (Pending, seen_version, true).

Definition receiver_clone `{BuildProfile} (seen_version : Z) : M Inner Z :=
  let! i := get in
  let! n := lift (uadd usize_bits i.(receivers_alive) 1) in
  put (mkInner i.(value) i.(version) i.(wakers) i.(sender_alive) n) ;!
  ret seen_version.

Definition receiver_drop `{BuildProfile} : M Inner unit :=
  let! i := get in
  let! n := lift (usub usize_bits i.(receivers_alive) 1) in
  put (mkInner i.(value) i.(version) i.(wakers) i.(sender_alive) n).

(** ** The channel in use *)

(** The [changed] future a receiver may be inside of. *)
Inductive changing :=
| NoFuture
| Fresh                                   (* created, or never found Pending *)
| Registered (w : waker) (woken : bool).  (* its [registered] flag is set, with waker [w] *)

Definition registered_of (c : changing) : bool :=
  match c with Registered _ _ => true | _ => false end.

Record receiver := mkReceiver {
  seen : Z;          (* its [seen_version] *)
  latest : nat;      (* the last value of the history it marked as seen *)
  future : changing;
}.

Record world := mkWorld {
  inner : Inner;
  history : list T;                     (* every value the channel has held *)
  sender : bool;
  receivers : list (option receiver);   (* [None] once dropped *)
}.

Definition deliver (ws : list waker) (r : option receiver) : option receiver :=
  match r with
  | Some (mkReceiver s a (Registered w b)) =>
      Some (mkReceiver s a (Registered w (b || bool_decide (w ∈ ws))))
  | _ => r
  end.

Definition after_changed (r : receiver) (cx : waker) (len : nat)
    (res : poll (result unit RecvError)) (s : Z) : receiver :=
  match res with
  | Ready (Ok _) => mkReceiver s (len - 1) NoFuture
  | Ready (Err _) => mkReceiver s r.(latest) NoFuture
  | Pending =>
      mkReceiver s r.(latest)
        (match r.(future) with Registered w b => Registered w b | _ => Registered cx false end)
  end.

Inductive wstep `{BuildProfile} : world → world → Prop :=
| w_send W v i ws :
    W.(sender) = true → send v W.(inner) = Some (Ok tt, i, ws) →
    wstep W (mkWorld i (W.(history) ++ [v]) true (map (deliver ws) W.(receivers)))
| w_send_modify W f i ws :
    W.(sender) = true → send_modify f W.(inner) = Some (tt, i, ws) →
    wstep W (mkWorld i (W.(history) ++ [f W.(inner).(value)]) true
               (map (deliver ws) W.(receivers)))
| w_sender_drop W i ws :
    W.(sender) = true → sender_drop W.(inner) = Some (tt, i, ws) →
    wstep W (mkWorld i W.(history) false (map (deliver ws) W.(receivers)))
| w_borrow_and_update W k r v s i ws :
    W.(receivers) !! k = Some (Some r) → r.(future) = NoFuture →
    borrow_and_update W.(inner) = Some ((v, s), i, ws) →
    wstep W (mkWorld i W.(history) W.(sender)
      (<[k := Some (mkReceiver s (length W.(history) - 1) NoFuture)]> W.(receivers)))
| w_changed_new W k r :
    W.(receivers) !! k = Some (Some r) → r.(future) = NoFuture →
    wstep W (mkWorld W.(inner) W.(history) W.(sender)
      (<[k := Some (mkReceiver r.(seen) r.(latest) Fresh)]> W.(receivers)))
| w_changed_poll W k r cx res s g i ws :
    W.(receivers) !! k = Some (Some r) → r.(future) ≠ NoFuture →
    poll_changed r.(seen) (registered_of r.(future)) cx W.(inner) = Some ((res, s, g), i, ws) →
    wstep W (mkWorld i W.(history) W.(sender)
      (<[k := Some (after_changed r cx (length W.(history)) res s)]> W.(receivers)))
| w_changed_cancel W k r :
    W.(receivers) !! k = Some (Some r) → r.(future) ≠ NoFuture →
    wstep W (mkWorld W.(inner) W.(history) W.(sender)
      (<[k := Some (mkReceiver r.(seen) r.(latest) NoFuture)]> W.(receivers)))
| w_clone W k r s i ws :
    W.(receivers) !! k = Some (Some r) → r.(future) = NoFuture →
    receiver_clone r.(seen) W.(inner) = Some (s, i, ws) →
    wstep W (mkWorld i W.(history) W.(sender)
      (W.(receivers) ++ [Some (mkReceiver s r.(latest) NoFuture)]))
| w_receiver_drop W k r i ws :
    W.(receivers) !! k = Some (Some r) → r.(future) = NoFuture →
    receiver_drop W.(inner) = Some (tt, i, ws) →
    wstep W (mkWorld i W.(history) W.(sender) (<[k := None]> W.(receivers))).

Definition watch_reachable `{BuildProfile} (initial : T) : world → Prop :=
  reachable (.= mkWorld (channel initial).1 [initial] true
                  [Some (mkReceiver (channel initial).2 0 NoFuture)]) wstep.

(** ** What the channel guarantees *)

Definition receiver_ok (h : list T) (i : Inner) (r : receiver) : Prop :=
  (r.(latest) < length h)%nat ∧ r.(seen) = Z.of_nat r.(latest) `mod` 2 ^ u64_bits ∧
  match r.(future) with
  | Registered w false => i.(version) = r.(seen) ∧ i.(sender_alive) = true ∧ w ∈ i.(wakers)
  | Registered w true => (r.(latest) < length h - 1)%nat ∨ i.(sender_alive) = false
  | _ => True
  end.

Definition is_alive (r : option receiver) : bool := bool_decide (is_Some r).

Record WInv (W : world) : Prop := {
  wi_value : last W.(history) = Some W.(inner).(value);
  wi_version : W.(inner).(version) = Z.of_nat (length W.(history) - 1) `mod` 2 ^ u64_bits;
  wi_sender : W.(inner).(sender_alive) = W.(sender);
  wi_count : W.(inner).(receivers_alive) =
               Z.of_nat (count is_alive W.(receivers)) `mod` 2 ^ usize_bits;
  wi_receivers : ∀ (k : nat) r, W.(receivers) !! k = Some (Some r) →
                   receiver_ok W.(history) W.(inner) r;
}.

Lemma deliver_alive ws rs : count is_alive (map (deliver ws) rs) = count is_alive rs.
Proof.
  induction rs as [|[[s a [| |w b]]|] rs IH]; simpl; rewrite ?count_cons; simpl; rewrite ?IH; done.
Qed.

(** A step that takes every waker: no receiver stays parked, provided each
    parked one has now something to see. *)
Lemma watch_deliver_ok h h' i i' rs :
  (∀ r, receiver_ok h i r → (r.(latest) < length h')%nat ∧
     ((r.(latest) < length h' - 1)%nat ∨ i'.(sender_alive) = false)) →
  (∀ k r, rs !! k = Some (Some r) → receiver_ok h i r) →
  ∀ k r, map (deliver i.(wakers)) rs !! k = Some (Some r) → receiver_ok h' i' r.
Proof.
  intros Hm Hrs k r Hk. rewrite list_lookup_fmap in Hk.
  destruct (rs !! k) as [[r0|]|] eqn:E; simplify_eq/=.
  pose proof (Hrs _ _ E) as Hr0. destruct (Hm _ Hr0) as [Hlt Hnew].
  destruct r0 as [s a [| |w [|]]], Hr0 as (_ & Hs & Hf); simpl in *; simplify_eq/=;
    try (by split_and!).
  destruct Hf as (_ & _ & Hw). rewrite bool_decide_eq_true_2 by done. by split_and!.
Qed.

(** A step that leaves version and liveness of the sender alone. *)
Lemma quiet_ok h i i' r :
  i'.(version) = i.(version) → i'.(sender_alive) = i.(sender_alive) →
  (∀ w, w ∈ i.(wakers) → w ∈ i'.(wakers)) →
  receiver_ok h i r → receiver_ok h i' r.
Proof.
  intros Hv Ha Hw (? & ? & Hf). split_and!; [done..|].
  destruct (future r) as [| |w [|]]; rewrite ?Hv, ?Ha; naive_solver.
Qed.

Lemma watch_insert_ok h i (rs : list (option receiver)) (k : nat) x :
  (∀ r, x = Some r → receiver_ok h i r) →
  (∀ (j : nat) r, rs !! j = Some (Some r) → receiver_ok h i r) →
  ∀ (j : nat) r, <[k := x]> rs !! j = Some (Some r) → receiver_ok h i r.
Proof. intros Hx Hrs j r [(_ & ? & _)|[_ Hj]]%list_lookup_insert_Some; eauto. Qed.

Lemma count_replace rs (k : nat) r r' :
  rs !! k = Some (Some r) → count is_alive (<[k := Some r']> rs) = count is_alive rs.
Proof. intros Hk. pose proof (count_insert is_alive rs k _ (Some r') Hk). simpl in *. lia. Qed.

(** Publishing a value, by [send] or [send_modify]. *)
Lemma publish_WInv `{BuildProfile} W v n :
  WInv W → uadd u64_bits W.(inner).(version) 1 = Some n →
  WInv (mkWorld (mkInner v n [] W.(inner).(sender_alive) W.(inner).(receivers_alive))
          (W.(history) ++ [v]) W.(sender) (map (deliver W.(inner).(wakers)) W.(receivers))).
Proof.
  intros [Hv Hn Hs Hc Hr] Hadd.
  assert (length (history W) ≠ 0%nat) by (by destruct (history W)).
  assert (0 < 2 ^ u64_bits) by (unfold u64_bits; lia).
  apply uadd_mod in Hadd; [|rewrite Hn; pose proof (Z.mod_pos_bound (Z.of_nat (length (history W) - 1)) (2 ^ u64_bits)); lia].
  split; simpl; try done.
  - by rewrite last_snoc.
  - rewrite Hadd, Hn, length_app, Zplus_mod_idemp_l. simpl. f_equal. lia.
  - by rewrite deliver_alive.
  - eapply watch_deliver_ok; [|exact Hr]. intros r (? & _ & _). rewrite length_app; simpl. lia.
Qed.

Lemma poll_changed_ok h i r cx res s g i' ws :
  i.(version) = Z.of_nat (length h - 1) `mod` 2 ^ u64_bits →
  receiver_ok h i r →
  poll_changed r.(seen) (registered_of r.(future)) cx i = Some ((res, s, g), i', ws) →
  receiver_ok h i' (after_changed r cx (length h) res s) ∧
  i'.(version) = i.(version) ∧ i'.(sender_alive) = i.(sender_alive) ∧
  i'.(value) = i.(value) ∧ i'.(receivers_alive) = i.(receivers_alive) ∧
  (∀ w, w ∈ i.(wakers) → w ∈ i'.(wakers)) ∧ ws = [].
Proof.
  intros Hn (Hl & Hseen & Hf). unfold poll_changed. run_M.
  destruct (Z.eqb_spec (version i) (seen r)) as [Hv|Hv]; simpl.
  2:{ intros [= <- <- <- <- <-]. split_and!; try done. split_and!; [simpl; lia|exact Hn|done]. }
  destruct (sender_alive i) eqn:Ea; simpl.
  2:{ intros [= <- <- <- <- <-]. split_and!; try done. }
  destruct (future r) as [| |w b] eqn:Ef; simpl; intros [= <- <- <- <- <-];
    split_and!; simpl; try rewrite Ef; try done; try set_solver; split_and!; simpl; try done;
    try (split_and!; [done|done|set_solver]); by rewrite ?Ea in *.
Qed.

Lemma watch_WInv_step `{BuildProfile} W W' : WInv W → wstep W W' → WInv W'.
Proof.
  intros HW Hst. pose proof HW as [Hv Hn Hs Hc Hr].
  destruct Hst as [W v i ws Hsd Hop|W f i ws Hsd Hop|W i ws Hsd Hop|W k r v s i ws Hk Hf Hop
    |W k r Hk Hf|W k r cx res s g i ws Hk Hf Hop|W k r Hk Hf|W k r s i ws Hk Hf Hop|W k r i ws Hk Hf Hop].
  - unfold send in Hop. run_M. destruct (_ =? 0); [done|].
    destruct (uadd _ _ _) eqn:E; run_M; simplify_eq. rewrite app_nil_r.
    rewrite <- Hsd at 1. by apply publish_WInv.
  - unfold send_modify in Hop. run_M.
    destruct (uadd _ _ _) eqn:E; run_M; simplify_eq.
    rewrite <- Hsd at 1. by apply publish_WInv.
  - unfold sender_drop in Hop. run_M. simplify_eq. split; simpl; try done.
    + by rewrite deliver_alive.
    + eapply watch_deliver_ok; [|exact Hr]. intros r (? & _ & _). simpl. auto.
  - unfold borrow_and_update in Hop. run_M. simplify_eq. split; simpl; try done.
    + by erewrite count_replace.
    + apply watch_insert_ok; [|done]. intros ? [= <-]. destruct (Hr _ _ Hk) as [? _]. split_and!; simpl; [lia|done|done].
  - split; simpl; try done; [by erewrite count_replace|].
    apply watch_insert_ok; [|done]. intros ? [= <-]. by destruct (Hr _ _ Hk) as (? & ? & _).
  - destruct (poll_changed_ok _ _ _ _ _ _ _ _ _ Hn (Hr _ _ Hk) Hop) as (Hok & E1 & E2 & E3 & E4 & Hw & ->).
    split; simpl; rewrite ?E1, ?E2, ?E3, ?E4; try done; [by erewrite count_replace|].
    apply watch_insert_ok; [by intros ? [= <-]|]. intros j r' Hj. eapply quiet_ok; eauto.
  - split; simpl; try done; [by erewrite count_replace|].
    apply watch_insert_ok; [|done]. intros ? [= <-]. by destruct (Hr _ _ Hk) as (? & ? & _).
  - unfold receiver_clone in Hop. run_M. destruct (uadd _ _ _) eqn:E; run_M; simplify_eq.
    apply uadd_mod in E; [|rewrite Hc; pose proof (Z.mod_pos_bound (Z.of_nat (count is_alive (receivers W))) (2 ^ usize_bits) eq_refl); lia].
    split; simpl; try done.
    + rewrite E, Hc, Zplus_mod_idemp_l, count_app, count_cons, count_nil.
      f_equal. simpl. lia.
    + intros j r' [Hj|Hj]%lookup_snoc_inv; [by eapply Hr|]. simplify_eq.
      by destruct (Hr _ _ Hk) as (? & ? & _).
  - unfold receiver_drop in Hop. run_M. destruct (usub _ _ _) eqn:E; run_M; simplify_eq.
    pose proof (Z.mod_pos_bound (Z.of_nat (count is_alive (receivers W))) (2 ^ usize_bits) eq_refl).
    apply usub_mod in E; [|lia..]. split; simpl; try done.
    + rewrite E, Hc, Zminus_mod_idemp_l. f_equal.
      pose proof (count_insert is_alive (receivers W) k _ None Hk). simpl in *. lia.
    + apply watch_insert_ok; [done|]. intros j r' Hj. by eapply Hr.
Qed.

Lemma watch_invariant `{BuildProfile} initial W : watch_reachable initial W → WInv W.
Proof.
  revert W. apply invariant_reachable; [|eauto using watch_WInv_step].
  intros ? ->. split; simpl; try done. intros [|k] r Hk; simplify_eq/=. split_and!; simpl; [lia|done|done].
Qed.

Lemma small_version n : (n ≤ Z.to_nat (2 ^ u64_bits))%nat → (n ≠ 0)%nat →
  Z.of_nat (n - 1) `mod` 2 ^ u64_bits = Z.of_nat (n - 1).
Proof. intros. apply Z.mod_small. unfold u64_bits in *. lia. Qed.

(** [changed] resolves exactly when there is something to see.  On a
    channel that has held fewer than 2^64 values, polling [changed] for a
    receiver answers [Ok] when a later value than the last one it marked was
    published (and marks the newest), waits when there is none and the sender
    lives, and fails when there is none and the sender is gone; what [borrow]
    then reads is the newest value published. *)
Theorem watch_changed_exact `{BuildProfile} initial W k r cx :
  watch_reachable initial W → Z.of_nat (length W.(history)) ≤ 2 ^ u64_bits →
  W.(receivers) !! k = Some (Some r) →
  (∃ i' g, poll_changed r.(seen) (registered_of r.(future)) cx W.(inner) =
     Some (if decide (r.(latest) < length W.(history) - 1)%nat
           then (Ready (Ok tt), W.(inner).(version), registered_of r.(future))
           else if W.(sender) then (Pending, r.(seen), g)
           else (Ready (Err mkRecvError), r.(seen), registered_of r.(future)), i', []) ∧
     i'.(value) = W.(inner).(value)) ∧
  (∃ v, borrow W.(inner) = Some (v, W.(inner), []) ∧ last W.(history) = Some v).
Proof.
  intros HW Hlen Hk. destruct (watch_invariant _ _ HW) as [Hv Hn Hs Hc Hr].
  split; [|by eexists]. destruct (Hr _ _ Hk) as (Hl & Hseen & _).
  assert (0 < 2 ^ u64_bits) by (unfold u64_bits; lia).
  rewrite Z.mod_small in Hseen by lia. rewrite Z.mod_small in Hn by lia.
  unfold poll_changed. run_M. rewrite <- Hs.
  destruct (Z.eqb_spec (version (inner W)) (seen r)); case_decide; simpl; try lia; [|by eexists _, false].
  destruct (sender_alive (inner W)); simpl; [|by eexists _, false].
  destruct (registered_of (future r)); by eexists _, true.
Qed.

(** No update is slept through.  A receiver parked in [changed] and not
    woken since has seen the newest value, the sender lives and holds its
    waker: the next [send], [send_modify] or drop of the sender wakes it; and
    one that was woken does not wait again when it is polled. *)
Theorem watch_no_lost_wakeup `{BuildProfile} initial W k r w b :
  watch_reachable initial W → Z.of_nat (length W.(history)) ≤ 2 ^ u64_bits →
  W.(receivers) !! k = Some (Some r) → r.(future) = Registered w b →
  if b then
    ∀ cx p s g i ws,
      poll_changed r.(seen) true cx W.(inner) = Some ((p, s, g), i, ws) → p ≠ Pending
  else
    r.(latest) = (length W.(history) - 1)%nat ∧ W.(sender) = true ∧
    (∀ v a i ws, send v W.(inner) = Some (Ok a, i, ws) → w ∈ ws) ∧
    (∀ f i ws, send_modify f W.(inner) = Some (tt, i, ws) → w ∈ ws) ∧
    (∀ i ws, sender_drop W.(inner) = Some (tt, i, ws) → w ∈ ws).
Proof.
  intros HW Hlen Hk Hf. destruct (watch_invariant _ _ HW) as [Hv Hn Hs Hc Hr].
  destruct (Hr _ _ Hk) as (Hl & Hseen & Hreg). rewrite Hf in Hreg.
  assert (0 < 2 ^ u64_bits) by (unfold u64_bits; lia).
  rewrite Z.mod_small in Hseen by lia. rewrite Z.mod_small in Hn by lia.
  destruct b.
  - intros cx p s g i ws. unfold poll_changed. run_M.
    destruct (Z.eqb_spec (version (inner W)) (seen r)); simpl; [|by intros; simplify_eq].
    destruct Hreg as [?| ->]; [lia|]. simpl. by intros; simplify_eq.
  - destruct Hreg as (? & Ha & Hw). split_and!; [lia|congruence|..]; intros *;
      unfold send, send_modify, sender_drop; run_M;
      try destruct (_ =? 0); try destruct (uadd _ _ _); run_M; intros; simplify_eq/=; by rewrite ?app_nil_r.
Qed.
End watch.
Arguments Inner : clear implicits.
Arguments world : clear implicits.

(** A receiver parked in [changed], then an update. *)
Definition watch_parked_demo : world nat :=
  mkWorld (mkInner 4%nat 0 [7%nat] true 1) [4%nat] true
    [Some (mkReceiver 0 0 (Registered 7%nat false))].

Lemma watch_parked_demo_reachable : @watch_reachable nat dev_profile 4%nat watch_parked_demo.
Proof.
  eexists. split; [reflexivity|].
  eapply rtc_l; [eapply (w_changed_new _ 0%nat); reflexivity|]; simpl.
  eapply rtc_l; [eapply (w_changed_poll _ 0%nat _ 7%nat); [reflexivity|done|reflexivity]|]; simpl.
  apply rtc_refl.
Qed.

Lemma watch_no_lost_wakeup_witness :
  @watch_reachable nat dev_profile 4%nat watch_parked_demo ∧
  ∀ i ws, sender_drop (inner watch_parked_demo) = Some (tt, i, ws) → 7%nat ∈ ws.
Proof.
  split; [exact watch_parked_demo_reachable|].
  apply (@watch_no_lost_wakeup nat dev_profile 4%nat watch_parked_demo 0%nat _ 7%nat false
    watch_parked_demo_reachable ltac:(discriminate) eq_refl eq_refl).
Defined.

Lemma watch_changed_exact_witness :
  @watch_reachable nat dev_profile 4%nat watch_parked_demo ∧
  ∃ i' g, poll_changed 0 true 7%nat (inner watch_parked_demo) = Some ((Pending, 0, g), i', []).
Proof.
  split; [exact watch_parked_demo_reachable|].
  destruct (@watch_changed_exact nat dev_profile 4%nat watch_parked_demo 0%nat _ 7%nat
    watch_parked_demo_reachable ltac:(discriminate) eq_refl) as [(i' & g & E & _) _].
  exists i', g. exact E.
Defined.

(** Polled again under another waker, the future keeps the first one: the
    update wakes task 7, not task 8 that polled last. *)
Example watch_keeps_first_waker :
  ∃ i, @poll_changed nat 0 true 8%nat (inner watch_parked_demo) = Some ((Pending, 0, true), i, []) ∧
       ∃ i', @send nat dev_profile 5%nat i = Some (Ok tt, i', [7%nat]).
Proof. by eexists; split; [|eexists]. Qed.
