(* ===== verification/Barrier.v ===== *)
(** The rendezvous barrier ([src/src/sync/barrier.rs]): every call of [wait]
    belongs to the round its arrival number falls in. *)

From S2P Require Import Prelude.

Record State := mkState { arrived : Z; generation : Z; wakers : list waker }.

(** [Barrier::new]; the [usize] [n] stays beside the state. *)
Definition new (n : Z) : option State :=
  if 0 <? n then Some (mkState 0 0 []) else None.

Record BarrierWaitResult := mkResult { is_leader : bool }.

(** The synchronous first part of [wait]: either this arrival completes the
    round, or the call goes on to wait with the generation it saw. *)
Definition arrive `{BuildProfile} (n : Z) : M State (BarrierWaitResult + Z) :=
  let! s := get in
  let my_generation := s.(generation) in
  let! a := lift (uadd usize_bits s.(arrived) 1) in
  if a =? n then
    put (mkState 0 ((s.(generation) + 1) `mod` 2 ^ u64_bits) []) ;!
    wake_all s.(wakers) ;!
    ret (inl (mkResult true))
  else
    put (mkState a s.(generation) s.(wakers)) ;!
    ret (inr my_generation).

(** One poll of the [poll_fn] that follows. *)
Definition poll_wait (my_generation : Z) (cx : waker) : M State (poll BarrierWaitResult) :=
  let! s := get in
  if negb (s.(generation) =? my_generation) then ret (Ready (mkResult false))
  else
    put (mkState s.(arrived) s.(generation) (s.(wakers) ++ [cx])) ;!
    ret Pending.

(** ** The barrier in use

    [calls] lists the calls of [wait] in the order in which they arrived.  A
    call dropped before it resolves stays in the list: its arrival is not
    retracted. *)

Inductive call :=
| Arrived (g : Z)                            (* about to be polled, or polled spuriously *)
| Parked (g : Z) (w : waker) (woken : bool)
| Done (r : BarrierWaitResult)
| Dropped.

Definition generation_of (c : call) : option Z :=
  match c with Arrived g | Parked g _ _ => Some g | _ => None end.

Record world := mkWorld { state : State; calls : list call }.

Definition deliver (ws : list waker) (c : call) : call :=
  match c with Parked g w b => Parked g w (b || bool_decide (w ∈ ws)) | _ => c end.

Inductive wstep `{BuildProfile} (n : Z) : world → world → Prop :=
| w_arrive W r s ws :
    arrive n W.(state) = Some (r, s, ws) →
    wstep n W (mkWorld s (map (deliver ws) W.(calls) ++
                          [match r with inl r => Done r | inr g => Arrived g end]))
| w_poll W (i : nat) c g cx r s ws :
    W.(calls) !! i = Some c → generation_of c = Some g →
    poll_wait g cx W.(state) = Some (r, s, ws) →
    wstep n W (mkWorld s (<[i := match r with Ready r => Done r | Pending => Parked g cx false end]>
                            W.(calls)))
| w_drop W (i : nat) c g :
    W.(calls) !! i = Some c → generation_of c = Some g →
    wstep n W (mkWorld W.(state) (<[i := Dropped]> W.(calls))).

Definition barrier_reachable `{BuildProfile} (n : Z) : world → Prop :=
  reachable (λ W, ∃ s, new n = Some s ∧ W = mkWorld s []) (wstep n).

(** ** Rounds *)

(** The round the [i]-th call belongs to, counting from 0. *)
Definition round (n : Z) (i : nat) : Z := Z.of_nat i / n.
(** Whether it is the call that completes its round. *)
Definition completes (n : Z) (i : nat) : bool := Z.of_nat i `mod` n =? n - 1.
(** Every call of the round has been made. *)
Definition round_full (n : Z) (i : nat) (total : nat) : Prop := n * (round n i + 1) ≤ Z.of_nat total.

Lemma round_full_iff n i total : 0 < n → round_full n i total ↔ round n i < round n total.
Proof.
  intros Hn. unfold round_full, round.
  pose proof (Z.div_mod (Z.of_nat total) n ltac:(lia)).
  pose proof (Z.mod_pos_bound (Z.of_nat total) n Hn). nia.
Qed.

Lemma round_le n i j : 0 < n → (i ≤ j)%nat → round n i ≤ round n j.
Proof. intros. unfold round. apply Z.div_le_mono; lia. Qed.

Lemma round_S n total : 0 < n →
  (round n (S total) = round n total + 1 ∧ Z.of_nat (S total) `mod` n = 0 ∧ completes n total = true) ∨
  (round n (S total) = round n total ∧ Z.of_nat (S total) `mod` n = Z.of_nat total `mod` n + 1 ∧
   Z.of_nat total `mod` n + 1 < n ∧ completes n total = false).
Proof.
  intros Hn. unfold round, completes.
  pose proof (Z.div_mod (Z.of_nat total) n ltac:(lia)) as Hd.
  pose proof (Z.mod_pos_bound (Z.of_nat total) n Hn).
  set (q := Z.of_nat total / n) in *. set (m := Z.of_nat total `mod` n) in *.
  destruct (Z.eqb_spec m (n - 1)); [left|right].
  - rewrite <- (Z.div_unique_pos (Z.of_nat (S total)) n (q + 1) 0) by lia.
    by rewrite <- (Z.mod_unique_pos (Z.of_nat (S total)) n (q + 1) 0) by lia.
  - rewrite <- (Z.div_unique_pos (Z.of_nat (S total)) n q (m + 1)) by lia.
    rewrite <- (Z.mod_unique_pos (Z.of_nat (S total)) n q (m + 1)) by lia. split_and!; try done; lia.
Qed.

(** ** The invariant *)

Definition wrap (g : Z) : Z := g `mod` 2 ^ u64_bits.

Definition call_ok (n : Z) (s : State) (total : nat) (i : nat) (c : call) : Prop :=
  match c with
  | Arrived g => g = wrap (round n i) ∧ completes n i = false
  | Parked g w woken =>
      g = wrap (round n i) ∧ completes n i = false ∧
      if woken : bool then round n i < round n total
      else g = s.(generation) ∧ w ∈ s.(wakers)
  | Done r => round n i < round n total ∧ r.(is_leader) = completes n i
  | Dropped => True
  end.

Record WInv (n : Z) (W : world) : Prop := {
  wi_n : 0 < n ≤ usize_max;
  wi_arrived : W.(state).(arrived) = Z.of_nat (length W.(calls)) `mod` n;
  wi_generation : W.(state).(generation) = wrap (round n (length W.(calls)));
  wi_calls : ∀ (i : nat) c, W.(calls) !! i = Some c →
               call_ok n W.(state) (length W.(calls)) i c;
}.

Lemma arrive_cases `{BuildProfile} n s total :
  0 < n ≤ usize_max → s.(arrived) = Z.of_nat total `mod` n → s.(generation) = wrap (round n total) →
  if completes n total
  then arrive n s = Some (inl (mkResult true), mkState 0 (wrap (round n (S total))) [], s.(wakers))
  else arrive n s = Some (inr s.(generation),
                          mkState (Z.of_nat (S total) `mod` n) s.(generation) s.(wakers), []).
Proof.
  intros Hn Ha Hg. pose proof (Z.mod_pos_bound (Z.of_nat total) n ltac:(lia)).
  unfold arrive, usize_max in *. run_M. rewrite uadd_in_range by lia. rewrite Ha, Hg. unfold wrap.
  destruct (round_S n total ltac:(lia)) as [(Hr & _ & Hc)|(Hr & Hm & Hlt & Hc)]; rewrite Hc; simpl.
  - unfold completes in Hc. rewrite (proj2 (Z.eqb_eq _ _)) by lia.
    by rewrite Hr, Zplus_mod_idemp_l, app_nil_r.
  - rewrite (proj2 (Z.eqb_neq _ _)) by lia. by rewrite Hm.
Qed.

Lemma call_ok_grow n s s' total ws i c :
  0 < n →
  call_ok n s total i c →
  (s' = mkState s'.(arrived) s.(generation) s.(wakers) ∧ ws = [] ∨
   ws = s.(wakers) ∧ round n i < round n (S total)) →
  call_ok n s' (S total) i (deliver ws c).
Proof.
  intros Hn Hok Hs. pose proof (round_le n total (S total) Hn ltac:(lia)).
  destruct c as [g|g w [|]|r|]; simpl in *; try done; [intuition lia|..|intuition lia].
  destruct Hok as (Hgi & Hci & Hg & Hw). destruct Hs as [[-> ->]|[-> Hlt]].
  - by rewrite bool_decide_eq_false_2 by set_solver.
  - rewrite bool_decide_eq_true_2 by done. by split_and!.
Qed.

Lemma barrier_WInv_step `{BuildProfile} n W W' : WInv n W → wstep n W W' → WInv n W'.
Proof.
  intros [Hn Ha Hg Hc] Hst. destruct Hst as [W r s ws Hop|W i c g cx r s ws Hi Hgen Hop|W i c g Hi Hgen].
  - pose proof (arrive_cases n (state W) (length (calls W)) Hn Ha Hg) as Hcase.
    pose proof (round_S n (length (calls W)) ltac:(lia)) as HS.
    assert (length (map (deliver ws) (calls W) ++
      [match r with inl r => Done r | inr g => Arrived g end]) = S (length (calls W))) as Hlen
      by (rewrite length_app, length_map; simpl; lia).
    destruct (completes n (length (calls W))) eqn:Ec; rewrite Hcase in Hop; simplify_eq;
      destruct HS as [(Hr & Hm & Hcc)|(Hr & Hm & Hlt & Hcc)]; try congruence;
      (split; cbn [state calls]; rewrite ?Hlen; try done; try (simpl; congruence));
      intros i c [[Hl Hi]|[-> <-]]%lookup_snoc_Some.
    + rewrite length_map in Hl. rewrite list_lookup_fmap in Hi.
      destruct (calls W !! i) as [c0|] eqn:E0; simplify_eq/=.
      eapply call_ok_grow; [lia|by apply Hc|right]. split; [done|].
      pose proof (round_le n i (length (calls W)) ltac:(lia) ltac:(lia)). lia.
    + rewrite length_map. simpl. split; [lia|done].
    + rewrite length_map in Hl. rewrite list_lookup_fmap in Hi.
      destruct (calls W !! i) as [c0|] eqn:E0; simplify_eq/=.
      eapply call_ok_grow; [lia|by apply Hc|by left].
    + rewrite length_map. by split.
  - assert (g = wrap (round n i) ∧ completes n i = false) as [Hgi Hci].
    { specialize (Hc _ _ Hi). destruct c; simpl in *; simplify_eq; naive_solver. }
    pose proof (lookup_lt_Some _ _ _ Hi).
    pose proof (round_le n i (length (calls W)) ltac:(lia) ltac:(lia)).
    unfold poll_wait in Hop. run_M.
    destruct (Z.eqb_spec (generation (state W)) g) as [He|He]; simpl in Hop; simplify_eq;
      (split; cbn [state calls]; rewrite ?length_insert; try done);
      intros j c' [(<- & <- & _)|[Hne Hj]]%list_lookup_insert_Some.
    + split_and!; [done..|set_solver].
    + pose proof (Hc _ _ Hj) as Hok. destruct c' as [|? ? []| |]; simpl in *; try done.
      destruct Hok as (? & ? & ? & ?). split_and!; [done..|set_solver].
    + split; [|done]. assert (round n i ≠ round n (length (calls W)))
      by (intros E; apply He; by rewrite Hg, E). lia.
    + by apply Hc.
  - split; cbn [state calls]; rewrite ?length_insert; try done.
    intros j c' [(<- & <- & _)|[Hne Hj]]%list_lookup_insert_Some; [done|by apply Hc].
Qed.

Lemma barrier_invariant `{BuildProfile} n W :
  n ≤ usize_max → barrier_reachable n W → WInv n W.
Proof.
  intros Hn. revert W. apply invariant_reachable; [|eauto using barrier_WInv_step].
  intros ? (s & Hs & ->). unfold new in Hs. destruct (Z.ltb_spec 0 n); simplify_eq.
  split; simpl; done.
Qed.

(** A call of [wait] returns only once its round is full, and one call of
    each round is told to lead: numbering the calls by arrival, a call that
    has returned belongs to a round all [n] calls of which have been made
    (dropped ones included), and it leads exactly if it is the [n]-th. *)
Theorem barrier_rendezvous `{BuildProfile} n W (i : nat) r :
  n ≤ usize_max → barrier_reachable n W → W.(calls) !! i = Some (Done r) →
  round_full n i (length W.(calls)) ∧ r.(is_leader) = completes n i.
Proof.
  intros Hn HW Hi. destruct (barrier_invariant _ _ Hn HW) as [? _ _ Hc].
  destruct (Hc _ _ Hi) as [? ?]. split; [|done]. by apply round_full_iff; [lia|].
Qed.

(** A full round lets everyone go.  While fewer than 2^64 rounds have
    completed: a call still waiting whose round is full answers [Ready] at its
    next poll; a parked call that was not woken is in the round being filled,
    and the arrival that fills it wakes it. *)
Theorem barrier_releases `{BuildProfile} n W (i : nat) c g :
  n ≤ usize_max → barrier_reachable n W → round n (length W.(calls)) < 2 ^ u64_bits →
  W.(calls) !! i = Some c → generation_of c = Some g →
  (round_full n i (length W.(calls)) →
     ∀ cx, poll_wait g cx W.(state) = Some (Ready (mkResult false), W.(state), [])) ∧
  (∀ w, c = Parked g w true → round_full n i (length W.(calls))) ∧
  (∀ w, c = Parked g w false →
     round n i = round n (length W.(calls)) ∧
     ∀ r s ws, arrive n W.(state) = Some (inl r, s, ws) → w ∈ ws).
Proof.
  intros Hn HW Hb Hi Hg. destruct (barrier_invariant _ _ Hn HW) as [Hn0 Ha Hgen Hc].
  pose proof (Hc _ _ Hi) as Hok. pose proof (lookup_lt_Some _ _ _ Hi).
  pose proof (round_le n i (length (calls W)) ltac:(lia) ltac:(lia)).
  assert (0 ≤ round n i) by (apply Z.div_pos; lia).
  assert (g = round n i) as Hgi.
  { transitivity (wrap (round n i)); [|by apply Z.mod_small; lia].
    destruct c; simpl in *; simplify_eq; naive_solver. }
  assert (generation (state W) = round n (length (calls W))) as Hgt
    by (rewrite Hgen; apply Z.mod_small; lia).
  split_and!.
  - intros Hlt%round_full_iff cx; [|lia]. unfold poll_wait. run_M. rewrite (proj2 (Z.eqb_neq _ _)) by lia. done.
  - intros w ->. apply round_full_iff; [lia|apply Hok].
  - intros w ->. destruct Hok as (_ & _ & He & Hw). split; [lia|]. intros r s ws.
    pose proof (arrive_cases n (state W) (length (calls W)) Hn0 Ha Hgen) as Hcase.
    destruct (completes n (length (calls W))); rewrite Hcase; intros; by simplify_eq.
Qed.

(** Two calls of a barrier for two: the first parks, the second leads. *)
Definition barrier_demo : world :=
  mkWorld (mkState 0 1 []) [Parked 0 5%nat true; Done (mkResult true)].

Lemma barrier_demo_reachable : @barrier_reachable dev_profile 2 barrier_demo.
Proof.
  eexists. split; [eexists; split; reflexivity|].
  eapply rtc_l; [eapply w_arrive; reflexivity|]; simpl.
  eapply rtc_l; [eapply (w_poll _ _ 0%nat _ _ 5%nat); reflexivity|]; simpl.
  eapply rtc_l; [eapply w_arrive; reflexivity|]; simpl.
  apply rtc_refl.
Qed.

Lemma barrier_rendezvous_witness :
  @barrier_reachable dev_profile 2 barrier_demo ∧ round_full 2 1 2.
Proof.
  split; [exact barrier_demo_reachable|].
  apply (@barrier_rendezvous dev_profile 2 barrier_demo 1%nat (mkResult true)
    ltac:(discriminate) barrier_demo_reachable). reflexivity.
Defined.

Lemma barrier_releases_witness :
  @barrier_reachable dev_profile 2 barrier_demo ∧
  ∀ cx, poll_wait 0 cx (mkState 0 1 []) = Some (Ready (mkResult false), mkState 0 1 [], []).
Proof.
  split; [exact barrier_demo_reachable|].
  apply (@barrier_releases dev_profile 2 barrier_demo 0%nat (Parked 0 5%nat true) 0
    ltac:(discriminate) barrier_demo_reachable ltac:(reflexivity) eq_refl eq_refl).
  vm_compute. discriminate.
Defined.
