(* ===== verification/Cells.v ===== *)
(** The write-once cells: [SetOnce] ([src/src/sync/set_once.rs]) and
    [OnceCell] ([src/src/sync/once_cell.rs]).

    [UnsafeCell<MaybeUninit<T>>] is an [option T]; reading it uninitialised,
    undefined behaviour in the code, is [panic] here, so that a theorem that a
    computation returns excludes it. *)

From S2P Require Import Prelude.

(** [assume_init_ref] of the memory of a cell. *)
Definition assume_init {S T} (m : option T) : M S T := lift m.

Module SetOnce.
Section set_once.
Context {T : Type}.

Record Cell := mkCell { is_set : bool; wakers : list waker; value : option T }.

Definition new : Cell := mkCell false [] None.
Definition new_with (v : T) : Cell := mkCell true [] (Some v).

Definition get_ : M Cell (option T) :=
  let! c := get in
  if c.(is_set) : bool then let! v := assume_init c.(value) in ret (Some v)
  else ret None.

Definition initialized : M Cell bool := let! c := get in ret c.(is_set).

(** [Err] hands the value back, as [SetOnceError] does. *)
Definition set (v : T) : M Cell (result unit T) :=
  let! c := get in
  if c.(is_set) : bool then ret (Err v)
  else
    put (mkCell true [] (Some v)) ;!
    wake_all c.(wakers) ;!
    ret (Ok tt).

(** [wait]: one poll of its [poll_fn], and the read that follows it. *)
Definition poll_wait (cx : waker) : M Cell (poll unit) :=
  let! c := get in
  if c.(is_set) : bool then ret (Ready tt)
  else put (mkCell c.(is_set) (c.(wakers) ++ [cx]) c.(value)) ;! ret Pending.
Definition wait_read : M Cell T := let! c := get in assume_init c.(value).

Definition into_inner : M Cell (option T) :=
  let! c := get in
  if negb c.(is_set) then ret None
  else let! v := assume_init c.(value) in ret (Some v).

Inductive waiter :=
| Waiting (parked : option (waker * bool))    (* its waker, and whether it was woken since *)
| Resumed                                     (* found the cell set, about to read *)
| Got (v : T)
| Dropped.

Record world := mkWorld { cell : Cell; accepted : list T; waiters : list waiter }.

Definition deliver (ws : list waker) (x : waiter) : waiter :=
  match x with
  | Waiting (Some (w, b)) => Waiting (Some (w, b || bool_decide (w ∈ ws)))
  | _ => x
  end.

Inductive wstep : world → world → Prop :=
| w_set W v r c ws :
    set v W.(cell) = Some (r, c, ws) →
    wstep W (mkWorld c (W.(accepted) ++ match r with Ok _ => [v] | Err _ => [] end)
               (map (deliver ws) W.(waiters)))
| w_wait W : wstep W (mkWorld W.(cell) W.(accepted) (W.(waiters) ++ [Waiting None]))
| w_poll W (k : nat) p cx r c ws :
    W.(waiters) !! k = Some (Waiting p) → poll_wait cx W.(cell) = Some (r, c, ws) →
    wstep W (mkWorld c W.(accepted)
      (<[k := match r with Ready _ => Resumed | Pending => Waiting (Some (cx, false)) end]>
         W.(waiters)))
| w_read W (k : nat) v c ws :
    W.(waiters) !! k = Some Resumed → wait_read W.(cell) = Some (v, c, ws) →
    wstep W (mkWorld c W.(accepted) (<[k := Got v]> W.(waiters)))
| w_drop W (k : nat) p :
    W.(waiters) !! k = Some (Waiting p) →
    wstep W (mkWorld W.(cell) W.(accepted) (<[k := Dropped]> W.(waiters))).

Definition set_once_reachable : world → Prop :=
  reachable (λ W, W = mkWorld new [] [] ∨ ∃ v, W = mkWorld (new_with v) [v] []) wstep.

Definition waiter_ok (c : Cell) (x : waiter) : Prop :=
  match x with
  | Waiting (Some (w, false)) => c.(is_set) = false ∧ w ∈ c.(wakers)
  | Waiting (Some (w, true)) => c.(is_set) = true
  | Resumed => c.(is_set) = true
  | Got v => c.(is_set) = true ∧ c.(value) = Some v
  | _ => True
  end.

Record WInv (W : world) : Prop := {
  wi_value : W.(accepted) = match W.(cell).(value) with Some v => [v] | None => [] end;
  wi_set : W.(cell).(is_set) = match W.(cell).(value) with Some _ => true | None => false end;
  wi_waiters : ∀ (k : nat) x, W.(waiters) !! k = Some x → waiter_ok W.(cell) x;
}.

Lemma waiter_insert_ok c (xs : list waiter) (k : nat) x :
  waiter_ok c x → (∀ (j : nat) y, xs !! j = Some y → waiter_ok c y) →
  ∀ (j : nat) y, <[k := x]> xs !! j = Some y → waiter_ok c y.
Proof. intros Hx Hxs j y [(_ & <- & _)|[_ Hj]]%list_lookup_insert_Some; eauto. Qed.

Lemma set_once_WInv_step W W' : WInv W → wstep W W' → WInv W'.
Proof.
  intros [Hv Hs Hw] Hst.
  destruct Hst as [W v r c ws Hop|W|W k p cx r c ws Hk Hop|W k v c ws Hk Hop|W k p Hk].
  - unfold set in Hop. run_M. destruct (is_set (cell W)) eqn:Ei; simplify_eq/=.
    + rewrite app_nil_r. split; simpl; try done; [by rewrite Ei|].
      intros k x. rewrite list_lookup_fmap. destruct (waiters W !! k) as [y|] eqn:E; [|done].
      specialize (Hw _ _ E). intros [= <-].
      destruct y as [[[w [|]]|]|  | |]; simpl in *; try done; intuition congruence.
    + assert (value (cell W) = None) as Hn by (by destruct (value (cell W))).
      rewrite Hn in Hv. split; simpl; try done; [by rewrite Hv|].
      intros k x. rewrite list_lookup_fmap. destruct (waiters W !! k) as [y|] eqn:E; [|done].
      specialize (Hw _ _ E). intros [= <-].
      destruct y as [[[w [|]]|]|  | |]; simpl in *; try done; rewrite ?Ei in Hw; try (by destruct Hw).
      destruct Hw as [_ Hw]. rewrite bool_decide_eq_true_2; [done|set_solver].
  - split; simpl; try done. intros k x [Hk| ->]%lookup_snoc_inv; [by eapply Hw|done].
  - unfold poll_wait in Hop. run_M. destruct (is_set (cell W)) eqn:Ei; simplify_eq/=.
    + split; simpl; try done; [by rewrite Ei|]. by apply waiter_insert_ok.
    + split; simpl; try done. apply waiter_insert_ok; [simpl; split; [done|set_solver]|].
      intros j y Hj. specialize (Hw _ _ Hj).
      destruct y as [[[w [|]]|]|  | |]; simpl in *; try done; try intuition congruence. set_solver.
  - unfold wait_read, assume_init in Hop. run_M. destruct (value (cell W)) eqn:Ev; run_M; [|done].
    simplify_eq. split; simpl; rewrite ?Ev; try done. apply waiter_insert_ok; [|done].
    specialize (Hw _ _ Hk). by split.
  - split; simpl; try done. by apply waiter_insert_ok.
Qed.

(** A [SetOnce] is set once, and everyone sees that value.  In every
    reachable state at most one value was accepted, no computation reads the
    memory uninitialised, a waiter that returned has the accepted value, and a
    waiter parked and not woken since waits for a cell that is not set, whose
    [set] will wake it. *)
Theorem set_once_once W :
  set_once_reachable W →
  (length W.(accepted) ≤ 1)%nat ∧
  get_ W.(cell) = Some (head W.(accepted), W.(cell), []) ∧
  into_inner W.(cell) = Some (head W.(accepted), W.(cell), []) ∧
  (∀ k : nat, W.(waiters) !! k = Some Resumed →
     ∃ v, wait_read W.(cell) = Some (v, W.(cell), []) ∧ W.(accepted) = [v]) ∧
  (∀ (k : nat) v, W.(waiters) !! k = Some (Got v) → W.(accepted) = [v]) ∧
  (∀ (k : nat) w, W.(waiters) !! k = Some (Waiting (Some (w, false))) →
     W.(accepted) = [] ∧ ∀ v r c ws, set v W.(cell) = Some (r, c, ws) → r = Ok tt ∧ w ∈ ws).
Proof.
  intros HW. assert (WInv W) as [Hv Hs Hw].
  { revert W HW. apply invariant_reachable; [|eauto using set_once_WInv_step].
    by intros W [->|[v ->]]; split; simpl. }
  unfold get_, into_inner, wait_read, set, assume_init. run_M. rewrite Hs, Hv.
  destruct (value (cell W)) as [v0|] eqn:Ev; simpl; run_M; split_and!; try done; try lia.
  - eauto.
  - intros k v Hk. destruct (Hw _ _ Hk) as [_ ?]. congruence.
  - intros k w Hk. destruct (Hw _ _ Hk) as [Hf _]. congruence.
  - intros k Hk. specialize (Hw _ _ Hk). simpl in Hw. congruence.
  - intros k v Hk. destruct (Hw _ _ Hk) as [Hf _]. congruence.
  - intros k w Hk. destruct (Hw _ _ Hk) as [Hf Hin]. split; [done|]. intros.
    simplify_eq. by rewrite app_nil_r.
Qed.
End set_once.
Arguments world : clear implicits.
End SetOnce.

Module OnceCell.
Section once_cell.
Context {T : Type}.

Inductive State := Uninit | Initializing | Initialized.
Inductive Claim := ClaimReady | ClaimInitializing | ClaimInitialize.
Inductive SetError := AlreadyInitialized (v : T) | InitializingElsewhere (v : T).

Record Cell := mkCell { state : State; wakers : list waker; value : option T }.

Definition new : Cell := mkCell Uninit [] None.
Definition new_with (v : T) : Cell := mkCell Initialized [] (Some v).

Definition is_initialized (s : State) : bool :=
  match s with Initialized => true | _ => false end.

Definition get_ : M Cell (option T) :=
  let! c := get in
  if is_initialized c.(state) then let! v := assume_init c.(value) in ret (Some v)
  else ret None.

Definition initialized : M Cell bool := let! c := get in ret (is_initialized c.(state)).

Definition set (v : T) : M Cell (result unit SetError) :=
  let! c := get in
  match c.(state) with
  | Initialized => ret (Err (AlreadyInitialized v))
  | Initializing => ret (Err (InitializingElsewhere v))
  | Uninit =>
      put (mkCell Initialized [] (Some v)) ;!
      wake_all c.(wakers) ;!
      ret (Ok tt)
  end.

Definition try_claim : M Cell Claim :=
  let! c := get in
  match c.(state) with
  | Initialized => ret ClaimReady
  | Initializing => ret ClaimInitializing
  | Uninit => put (mkCell Initializing c.(wakers) c.(value)) ;! ret ClaimInitialize
  end.

(** The parts of [get_or_init] between its locks: one poll of the [poll_fn] of
    a caller that found the cell being initialised; the unlocked write of the
    value the initialiser's future produced; the publication that follows it;
    and the read of the result. *)
Definition poll_initializing (cx : waker) : M Cell (poll unit) :=
  let! c := get in
  match c.(state) with
  | Initializing => put (mkCell c.(state) (c.(wakers) ++ [cx]) c.(value)) ;! ret Pending
  | _ => ret (Ready tt)
  end.
Definition write_value (v : T) : M Cell unit :=
  let! c := get in put (mkCell c.(state) c.(wakers) (Some v)).
Definition publish : M Cell unit :=
  let! c := get in
  put (mkCell Initialized [] c.(value)) ;! wake_all c.(wakers).
Definition read_value : M Cell T := let! c := get in assume_init c.(value).

(** [Drop] of a [ResetGuard]. *)
Definition reset_guard_drop (armed : bool) : M Cell unit :=
  if armed then
    let! c := get in
    put (mkCell Uninit [] c.(value)) ;! wake_all c.(wakers)
  else ret tt.

Definition into_inner : M Cell (option T) :=
  let! c := get in
  if negb (is_initialized c.(state)) then ret None
  else let! v := assume_init c.(value) in ret (Some v).

(** ** Callers of [get_or_init] *)

Inductive caller :=
| Claiming                                    (* at the head of the loop *)
| Waiting (parked : option (waker * bool))    (* its waker, and whether it was woken since *)
| Running                                     (* its initialiser's future is running *)
| Written                                     (* value written, not yet published *)
| Resumed                                     (* about to read *)
| Got (v : T)
| Dropped.

Record world := mkWorld { cell : Cell; writes : list T; callers : list caller }.

Definition deliver (ws : list waker) (x : caller) : caller :=
  match x with
  | Waiting (Some (w, b)) => Waiting (Some (w, b || bool_decide (w ∈ ws)))
  | _ => x
  end.

Inductive wstep : world → world → Prop :=
| w_call W : wstep W (mkWorld W.(cell) W.(writes) (W.(callers) ++ [Claiming]))
| w_set W v r c ws :
    set v W.(cell) = Some (r, c, ws) →
    wstep W (mkWorld c (W.(writes) ++ match r with Ok _ => [v] | Err _ => [] end)
               (map (deliver ws) W.(callers)))
| w_claim W (k : nat) r c ws :
    W.(callers) !! k = Some Claiming → try_claim W.(cell) = Some (r, c, ws) →
    wstep W (mkWorld c W.(writes)
      (<[k := match r with
              | ClaimReady => Resumed
              | ClaimInitializing => Waiting None
              | ClaimInitialize => Running
              end]> W.(callers)))
| w_poll W (k : nat) p cx r c ws :
    W.(callers) !! k = Some (Waiting p) → poll_initializing cx W.(cell) = Some (r, c, ws) →
    wstep W (mkWorld c W.(writes)
      (<[k := match r with Ready _ => Claiming | Pending => Waiting (Some (cx, false)) end]>
         W.(callers)))
| w_produced W (k : nat) v c ws :
    W.(callers) !! k = Some Running → write_value v W.(cell) = Some (tt, c, ws) →
    wstep W (mkWorld c (W.(writes) ++ [v]) (<[k := Written]> W.(callers)))
| w_publish W (k : nat) c ws :
    W.(callers) !! k = Some Written → publish W.(cell) = Some (tt, c, ws) →
    wstep W (mkWorld c W.(writes) (<[k := Resumed]> (map (deliver ws) W.(callers))))
| w_read W (k : nat) v c ws :
    W.(callers) !! k = Some Resumed → read_value W.(cell) = Some (v, c, ws) →
    wstep W (mkWorld c W.(writes) (<[k := Got v]> W.(callers)))
| w_fail W (k : nat) c ws :     (* the initialiser panics, or is dropped at an await *)
    W.(callers) !! k = Some Running → reset_guard_drop true W.(cell) = Some (tt, c, ws) →
    wstep W (mkWorld c W.(writes) (<[k := Dropped]> (map (deliver ws) W.(callers))))
| w_drop W (k : nat) p :
    W.(callers) !! k = Some (Waiting p) →
    wstep W (mkWorld W.(cell) W.(writes) (<[k := Dropped]> W.(callers))).

Definition once_cell_reachable : world → Prop :=
  reachable (λ W, W = mkWorld new [] [] ∨ ∃ v, W = mkWorld (new_with v) [v] []) wstep.

Definition is_runner (x : caller) : bool :=
  match x with Running | Written => true | _ => false end.
Definition is_written (x : caller) : bool :=
  match x with Written => true | _ => false end.

Definition caller_ok (c : Cell) (x : caller) : Prop :=
  match x with
  | Waiting (Some (w, false)) => c.(state) = Initializing ∧ w ∈ c.(wakers)
  | Resumed => c.(state) = Initialized
  | Got v => c.(state) = Initialized ∧ c.(value) = Some v
  | _ => True
  end.

Definition phase_ok (c : Cell) (runners written : nat) : Prop :=
  match c.(state) with
  | Uninit => c.(value) = None ∧ runners = 0%nat ∧ written = 0%nat
  | Initializing => runners = 1%nat ∧ written = match c.(value) with Some _ => 1 | None => 0 end%nat
  | Initialized => is_Some c.(value) ∧ runners = 0%nat ∧ written = 0%nat
  end.

Record WInv (W : world) : Prop := {
  wi_value : W.(writes) = match W.(cell).(value) with Some v => [v] | None => [] end;
  wi_phase : phase_ok W.(cell) (count is_runner W.(callers)) (count is_written W.(callers));
  wi_callers : ∀ (k : nat) x, W.(callers) !! k = Some x → caller_ok W.(cell) x;
}.

Lemma count_deliver p ws xs :
  (∀ x, p (deliver ws x) = p x) → count p (map (deliver ws) xs) = count p xs.
Proof. intros Hp. induction xs as [|x xs IH]; [done|]. simpl. by rewrite !count_cons, Hp, IH. Qed.

Lemma deliver_runner ws x : is_runner (deliver ws x) = is_runner x.
Proof. by destruct x as [|[[w b]|]| | | | |]. Qed.
Lemma deliver_written ws x : is_written (deliver ws x) = is_written x.
Proof. by destruct x as [|[[w b]|]| | | | |]. Qed.

(** All the parked callers are woken by a step that takes the wakers. *)
Lemma caller_deliver_ok c c' xs :
  c.(state) ≠ Initialized →
  (∀ (k : nat) x, xs !! k = Some x → caller_ok c x) →
  ∀ (k : nat) x, map (deliver c.(wakers)) xs !! k = Some x → caller_ok c' x.
Proof.
  intros Hs Hxs k x Hk. rewrite list_lookup_fmap in Hk.
  destruct (xs !! k) as [y|] eqn:E; simplify_eq/=. specialize (Hxs _ _ E).
  destruct y as [|[[w [|]]|]| | | | |]; simpl in *; try done; [|by destruct Hxs].
  destruct Hxs as [_ Hw]. by rewrite bool_decide_eq_true_2 by done.
Qed.

Lemma deliver_nil_ok c xs :
  (∀ (k : nat) x, xs !! k = Some x → caller_ok c x) →
  ∀ (k : nat) x, map (deliver []) xs !! k = Some x → caller_ok c x.
Proof.
  intros Hxs k x Hk. rewrite list_lookup_fmap in Hk.
  destruct (xs !! k) as [y|] eqn:E; simplify_eq/=. specialize (Hxs _ _ E).
  by destruct y as [|[[w [|]]|]| | | | |].
Qed.

Lemma caller_insert_ok c (xs : list caller) (k : nat) x :
  caller_ok c x → (∀ (j : nat) y, xs !! j = Some y → caller_ok c y) →
  ∀ (j : nat) y, <[k := x]> xs !! j = Some y → caller_ok c y.
Proof. intros Hx Hxs j y [(_ & <- & _)|[_ Hj]]%list_lookup_insert_Some; eauto. Qed.

Lemma mono_ok c c' x :
  (c.(state) = c'.(state) ∨ c.(state) = Uninit) →
  (∀ w, w ∈ c.(wakers) → w ∈ c'.(wakers)) →
  (c.(state) = Initialized → c'.(value) = c.(value)) →
  caller_ok c x → caller_ok c' x.
Proof.
  intros Hs Hw Hv. destruct x as [|[[w [|]]|]| | | | |]; simpl; try done.
  - intros [? Hin]. split; [destruct Hs; congruence|by apply Hw].
  - intros ?. destruct Hs; congruence.
  - intros [? ?]. rewrite Hv by done. split; [destruct Hs; congruence|done].
Qed.

Lemma phase_insert c xs (k : nat) x y :
  xs !! k = Some x →
  phase_ok c (count is_runner xs + (if is_runner y then 1 else 0) - (if is_runner x then 1 else 0))%nat
    (count is_written xs + (if is_written y then 1 else 0) - (if is_written x then 1 else 0))%nat →
  phase_ok c (count is_runner (<[k := y]> xs)) (count is_written (<[k := y]> xs)).
Proof.
  intros Hk. pose proof (count_insert is_runner _ _ _ y Hk). pose proof (count_insert is_written _ _ _ y Hk).
  by replace (count is_runner (<[k := y]> xs)) with
    (count is_runner xs + (if is_runner y then 1 else 0) - (if is_runner x then 1 else 0))%nat by lia;
  replace (count is_written (<[k := y]> xs)) with
    (count is_written xs + (if is_written y then 1 else 0) - (if is_written x then 1 else 0))%nat by lia.
Qed.

Lemma count_runner_written xs (k : nat) :
  xs !! k = Some Running → (count is_written xs < count is_runner xs)%nat.
Proof.
  intros Hk. assert (∀ ys, count is_written ys ≤ count is_runner ys)%nat as Hle.
  { induction ys as [|y ys IH]; [done|]. rewrite !count_cons. destruct y; simpl; lia. }
  revert k Hk. induction xs as [|y xs IH]; intros [|k] Hk; simplify_eq/=; rewrite !count_cons; simpl.
  - specialize (Hle xs). lia.
  - specialize (IH _ Hk). destruct y; simpl; lia.
Qed.

Lemma once_cell_WInv_step W W' : WInv W → wstep W W' → WInv W'.
Proof.
  intros [Hv Hp Hc] Hst.
  destruct Hst as [W|W v r c ws Hop|W k r c ws Hk Hop|W k p cx r c ws Hk Hop|W k v c ws Hk Hop
    |W k c ws Hk Hop|W k v c ws Hk Hop|W k c ws Hk Hop|W k p Hk].
  - split; simpl; try done.
    + rewrite !count_app, !count_cons, !count_nil. simpl. by rewrite !Nat.add_0_r.
    + intros k x [Hk| ->]%lookup_snoc_inv; [by eapply Hc|done].
  - unfold set in Hop. run_M. unfold phase_ok in Hp. destruct (state (cell W)) eqn:Es; simplify_eq/=.
    + destruct Hp as (Hn & Hr & Hw). split; simpl.
      * by rewrite Hv, Hn.
      * unfold phase_ok; simpl. rewrite !count_deliver; eauto using deliver_runner, deliver_written.
      * rewrite app_nil_r. eapply caller_deliver_ok; [|exact Hc]. by rewrite Es.
    + split; simpl; [by rewrite app_nil_r|..].
      * unfold phase_ok; rewrite Es.
        rewrite !count_deliver; eauto using deliver_runner, deliver_written.
      * by apply deliver_nil_ok.
    + split; simpl; [by rewrite app_nil_r|..].
      * unfold phase_ok; rewrite Es.
        rewrite !count_deliver; eauto using deliver_runner, deliver_written.
      * by apply deliver_nil_ok.
  - unfold try_claim in Hop. run_M. destruct (state (cell W)) eqn:Es; simplify_eq/=.
    + split; simpl; [done|..].
      * eapply phase_insert; [exact Hk|]. unfold phase_ok in *. rewrite Es in Hp. simpl.
        destruct Hp as (-> & -> & ->). done.
      * apply caller_insert_ok; [done|]. intros j y Hj. eapply mono_ok; [| | |by eapply Hc]; simpl; auto.
    + split; simpl; [done|..].
      * eapply phase_insert; [exact Hk|]. simpl. by rewrite !Nat.add_0_r, !Nat.sub_0_r.
      * by apply caller_insert_ok.
    + split; simpl; [done|..].
      * eapply phase_insert; [exact Hk|]. simpl. by rewrite !Nat.add_0_r, !Nat.sub_0_r.
      * by apply caller_insert_ok.
  - unfold poll_initializing in Hop. run_M. destruct (state (cell W)) eqn:Es; simplify_eq/=.
    + split; simpl; [done|..].
      * eapply phase_insert; [exact Hk|]. simpl. by rewrite !Nat.add_0_r, !Nat.sub_0_r.
      * by apply caller_insert_ok.
    + split; simpl; [done|..].
      * eapply phase_insert; [exact Hk|]. unfold phase_ok in *. rewrite Es in Hp. simpl.
        by rewrite !Nat.add_0_r, !Nat.sub_0_r.
      * apply caller_insert_ok; [simpl; split; [done|set_solver]|].
        intros j y Hj. eapply mono_ok; [| | |by eapply Hc]; simpl; [auto|set_solver|done].
    + split; simpl; [done|..].
      * eapply phase_insert; [exact Hk|]. simpl. by rewrite !Nat.add_0_r, !Nat.sub_0_r.
      * by apply caller_insert_ok.
  - pose proof (count_pos is_runner _ _ _ Hk eq_refl) as Hpos.
    pose proof (count_runner_written _ _ Hk) as Hlt.
    unfold write_value in Hop. run_M. simplify_eq. unfold phase_ok in Hp.
    destruct (state (cell W)) eqn:Es; [lia| |lia]. destruct Hp as [Hr Hw].
    assert (value (cell W) = None) as Hn by (destruct (value (cell W)); [lia|done]).
    rewrite Hn in *. split; simpl; [by rewrite Hv|..].
    + eapply phase_insert; [exact Hk|]. unfold phase_ok; simpl. by rewrite ?Es, ?Hr, ?Hw.
    + apply caller_insert_ok; [done|]. intros j y Hj. eapply mono_ok; [| | |by eapply Hc]; simpl; auto; congruence.
  - pose proof (count_pos is_written _ _ _ Hk eq_refl) as Hpos.
    unfold publish in Hop. run_M. simplify_eq. unfold phase_ok in Hp.
    destruct (state (cell W)) eqn:Es; [lia| |lia]. destruct Hp as [Hr Hw].
    destruct (value (cell W)) as [v|] eqn:Ev; [|lia]. split; simpl; [done|..].
    + eapply phase_insert; [by rewrite list_lookup_fmap, Hk|]. simpl.
      rewrite !count_deliver by eauto using deliver_runner, deliver_written.
      unfold phase_ok; simpl. rewrite ?Ev, ?Hr, ?Hw. by eauto.
    + apply caller_insert_ok; [done|]. eapply caller_deliver_ok; [|exact Hc]. by rewrite Es.
  - unfold read_value, assume_init in Hop. run_M. destruct (value (cell W)) eqn:Ev; run_M; [|done].
    simplify_eq. split; simpl; [by rewrite Ev|..].
    + eapply phase_insert; [exact Hk|]. simpl. by rewrite !Nat.add_0_r, !Nat.sub_0_r.
    + apply caller_insert_ok; [|done]. split; [by apply (Hc _ _ Hk)|done].
  - pose proof (count_runner_written _ _ Hk) as Hlt.
    unfold reset_guard_drop in Hop. run_M. simplify_eq. unfold phase_ok in Hp.
    destruct (state (cell W)) eqn:Es; [lia| |lia]. destruct Hp as [Hr Hw].
    destruct (value (cell W)) as [v|] eqn:Ev; [lia|]. split; simpl; [by rewrite ?Ev|..].
    + eapply phase_insert; [by rewrite list_lookup_fmap, Hk|]. simpl.
      rewrite !count_deliver by eauto using deliver_runner, deliver_written.
      unfold phase_ok; simpl. by rewrite ?Ev, ?Hr, ?Hw.
    + apply caller_insert_ok; [done|]. eapply caller_deliver_ok; [|exact Hc]. by rewrite Es.
  - split; simpl; [done|..].
    + eapply phase_insert; [exact Hk|]. simpl. by rewrite !Nat.add_0_r, !Nat.sub_0_r.
    + by apply caller_insert_ok.
Qed.

Lemma once_cell_invariant W : once_cell_reachable W → WInv W.
Proof.
  revert W. apply invariant_reachable; [|eauto using once_cell_WInv_step].
  by intros W [->|[v ->]]; split; simpl; try done; split_and!.
Qed.

(** A [OnceCell] is initialised once.  However callers of [get_or_init]
    and [set] interleave, and wherever initialisers fail or are dropped: at
    most one value is ever written, at most one initialiser runs at a time and
    none while the cell holds a value; no read touches uninitialised memory;
    and every caller that returned has the one value. *)
Theorem once_cell_once W :
  once_cell_reachable W →
  (length W.(writes) ≤ 1)%nat ∧
  (∀ j k x y, W.(callers) !! j = Some x → W.(callers) !! k = Some y →
     is_runner x = true → is_runner y = true → j = k) ∧
  (∀ k : nat, W.(callers) !! k = Some Running → W.(writes) = []) ∧
  (∃ o, get_ W.(cell) = Some (o, W.(cell), []) ∧ into_inner W.(cell) = Some (o, W.(cell), []) ∧
        o = (if is_initialized W.(cell).(state) then head W.(writes) else None)) ∧
  (∀ k : nat, W.(callers) !! k = Some Resumed →
     ∃ v, read_value W.(cell) = Some (v, W.(cell), []) ∧ W.(writes) = [v]) ∧
  (∀ (k : nat) v, W.(callers) !! k = Some (Got v) → W.(writes) = [v]).
Proof.
  intros HW. destruct (once_cell_invariant _ HW) as [Hv Hp Hc]. unfold phase_ok in Hp.
  split_and!.
  - rewrite Hv. destruct (value (cell W)); simpl; lia.
  - intros j k x y Hj Hk Hx Hy. destruct (decide (j = k)) as [->|Hne]; [done|].
    pose proof (count_two is_runner _ j k x y Hne Hj Hk Hx Hy).
    destruct (state (cell W)); lia.
  - intros k Hk. pose proof (count_runner_written _ _ Hk). rewrite Hv.
    destruct (value (cell W)); [|done]. destruct (state (cell W)); lia.
  - unfold get_, into_inner, assume_init. run_M.
    destruct (state (cell W)); simpl; [by exists None..|].
    destruct Hp as [[v Hval] _]. rewrite Hv, Hval. by exists (Some v).
  - intros k Hk. specialize (Hc _ _ Hk). simpl in Hc. rewrite Hc in Hp.
    destruct Hp as [[v Hval] _]. exists v. unfold read_value, assume_init. run_M.
    by rewrite Hv, Hval.
  - intros k v Hk. destruct (Hc _ _ Hk) as [_ Hval]. by rewrite Hv, Hval.
Qed.

(** Nobody waits for an initialiser that is not there.  A caller parked
    and not woken since has another caller running an initialiser or about to
    publish its value; publication wakes it, and so does the guard of an
    initialiser that fails, after which the next caller to look takes over. *)
Theorem once_cell_waits_rightly W (k : nat) w :
  once_cell_reachable W → W.(callers) !! k = Some (Waiting (Some (w, false))) →
  (∃ (j : nat) x, W.(callers) !! j = Some x ∧ is_runner x = true) ∧
  (∀ c ws, publish W.(cell) = Some (tt, c, ws) → w ∈ ws) ∧
  (∃ c ws, reset_guard_drop true W.(cell) = Some (tt, c, ws) ∧ w ∈ ws ∧
     ∃ c', try_claim c = Some (ClaimInitialize, c', [])).
Proof.
  intros HW Hk. destruct (once_cell_invariant _ HW) as [Hv Hp Hc].
  destruct (Hc _ _ Hk) as [Hs Hw]. split_and!.
  - unfold phase_ok in Hp. rewrite Hs in Hp. destruct Hp as [Hr _].
    destruct (count_exists W.(callers) is_runner) as [Hz|(j & x & ? & ?)]; [lia|eauto].
  - intros c ws. unfold publish. run_M. intros; by simplify_eq.
  - unfold reset_guard_drop, try_claim. run_M. do 2 eexists. split; [done|].
    split; [done|]. by eexists.
Qed.
End once_cell.
Arguments world : clear implicits.
End OnceCell.

(** ** Witnesses *)

Definition set_once_demo : SetOnce.world nat :=
  SetOnce.mkWorld (SetOnce.mkCell true [] (Some 4%nat)) [4%nat] [SetOnce.Got 4%nat].

Lemma set_once_once_witness :
  SetOnce.set_once_reachable set_once_demo ∧ (length (SetOnce.accepted set_once_demo) ≤ 1)%nat.
Proof.
  assert (SetOnce.set_once_reachable set_once_demo) as HW.
  { eexists. split; [by left|].
    eapply rtc_l; [eapply SetOnce.w_wait|]; simpl.
    eapply rtc_l; [eapply (SetOnce.w_poll _ 0%nat _ 3%nat); reflexivity|]; simpl.
    eapply rtc_l; [eapply (SetOnce.w_set _ 4%nat); reflexivity|]; simpl.
    eapply rtc_l; [eapply (SetOnce.w_poll _ 0%nat _ 3%nat); reflexivity|]; simpl.
    eapply rtc_l; [eapply (SetOnce.w_read _ 0%nat); reflexivity|]; simpl.
    apply rtc_refl. }
  split; [exact HW|]. apply (SetOnce.set_once_once set_once_demo HW).
Defined.

(** The first initialiser fails, the caller that waited takes over. *)
Definition once_cell_demo : OnceCell.world nat :=
  OnceCell.mkWorld (OnceCell.mkCell OnceCell.Initialized [] (Some 4%nat)) [4%nat]
    [OnceCell.Dropped; OnceCell.Got 4%nat].

Lemma once_cell_once_witness :
  OnceCell.once_cell_reachable once_cell_demo ∧ (length (OnceCell.writes once_cell_demo) ≤ 1)%nat.
Proof.
  assert (OnceCell.once_cell_reachable once_cell_demo) as HW.
  { eexists. split; [by left|].
    eapply rtc_l; [eapply OnceCell.w_call|]; simpl.
    eapply rtc_l; [eapply OnceCell.w_call|]; simpl.
    eapply rtc_l; [eapply (OnceCell.w_claim _ 0%nat); reflexivity|]; simpl.
    eapply rtc_l; [eapply (OnceCell.w_claim _ 1%nat); reflexivity|]; simpl.
    eapply rtc_l; [eapply (OnceCell.w_poll _ 1%nat _ 3%nat); reflexivity|]; simpl.
    eapply rtc_l; [eapply (OnceCell.w_fail _ 0%nat); reflexivity|]; simpl.
    eapply rtc_l; [eapply (OnceCell.w_poll _ 1%nat _ 3%nat); reflexivity|]; simpl.
    eapply rtc_l; [eapply (OnceCell.w_claim _ 1%nat); reflexivity|]; simpl.
    eapply rtc_l; [eapply (OnceCell.w_produced _ 1%nat 4%nat); reflexivity|]; simpl.
    eapply rtc_l; [eapply (OnceCell.w_publish _ 1%nat); reflexivity|]; simpl.
    eapply rtc_l; [eapply (OnceCell.w_read _ 1%nat); reflexivity|]; simpl.
    apply rtc_refl. }
  split; [exact HW|]. apply (OnceCell.once_cell_once once_cell_demo HW).
Defined.

Definition once_cell_waiting_demo : OnceCell.world nat :=
  OnceCell.mkWorld (OnceCell.mkCell OnceCell.Initializing [3%nat] None) []
    [OnceCell.Running; OnceCell.Waiting (Some (3%nat, false))].

Lemma once_cell_waits_rightly_witness :
  OnceCell.once_cell_reachable once_cell_waiting_demo ∧
  ∃ (j : nat) x, OnceCell.callers once_cell_waiting_demo !! j = Some x ∧ OnceCell.is_runner x = true.
Proof.
  assert (OnceCell.once_cell_reachable once_cell_waiting_demo) as HW.
  { eexists. split; [by left|].
    eapply rtc_l; [eapply OnceCell.w_call|]; simpl.
    eapply rtc_l; [eapply OnceCell.w_call|]; simpl.
    eapply rtc_l; [eapply (OnceCell.w_claim _ 0%nat); reflexivity|]; simpl.
    eapply rtc_l; [eapply (OnceCell.w_claim _ 1%nat); reflexivity|]; simpl.
    eapply rtc_l; [eapply (OnceCell.w_poll _ 1%nat _ 3%nat); reflexivity|]; simpl.
    apply rtc_refl. }
  split; [exact HW|].
  apply (OnceCell.once_cell_waits_rightly once_cell_waiting_demo 1%nat 3%nat HW). reflexivity.
Defined.
