(* ===== verification/Timer.v ===== *)
(** Timers ([src/src/time/clock.rs], [src/src/time/mod.rs]): the clock that can
    be paused, the driver's heap of deadlines and map of wakers, [Sleep],
    [Timeout] and [Interval].

    An [Instant] is a number of nanoseconds on the monotonic clock; what
    [Instant::now()] returns is an argument [real] of the definitions that
    call it.  A [Duration] is a number of nanoseconds too.  A [BinaryHeap] of
    [Reverse] pairs is the list of its elements in ascending order, so [peek]
    is its head and [pop] its tail. *)

From S2P Require Import Prelude.
From stdpp Require Import sorting.
#[local] Open Scope Z_scope.

(** [Instant + Duration]: seconds are an [i64]. *)
Definition instant_limit : Z := 2 ^ 63 * 10 ^ 9.
Definition instant_add (t d : Z) : option Z :=
  if t + d <? instant_limit then Some (t + d) else None.

(** ** The clock: [Some virtual_now] while paused *)

Definition Clock : Type := option Z.

Definition clock_new : Clock := None.
Definition clock_now (real : Z) : M Clock Z :=
  let! c := get in
  ret (match c with Some virtual_now => virtual_now | None => real end).
Definition clock_is_paused : M Clock bool :=
  let! c := get in ret (bool_decide (is_Some c)).
Definition clock_pause (real : Z) : M Clock unit :=
  let! c := get in
  assert (bool_decide (c = None)) ;! put (Some real).
Definition clock_resume : M Clock unit :=
  let! c := get in
  assert (bool_decide (is_Some c)) ;! put None.
Definition clock_set (instant : Z) : M Clock unit :=
  let! c := get in
  assert (bool_decide (is_Some c)) ;! put (Some instant).

(** ** The driver *)

(** Deadline and identifier, ordered lexicographically. *)
Abbreviation entry := (Z * Z)%type (only parsing).
Definition entry_le (a b : entry) : Prop := a.1 < b.1 ∨ (a.1 = b.1 ∧ a.2 ≤ b.2).
#[export] Instance entry_le_dec a b : Decision (entry_le a b).
Proof. unfold entry_le. apply _. Defined.

Record TimerDriver := mkDriver {
  heap : list entry;
  wakers : gmap Z waker;
  next_id : Z;
  shutdown : bool;
  clock : Clock;
}.

Definition driver_new : TimerDriver := mkDriver [] ∅ 0 false clock_new.

Definition on_clock {A} (m : M Clock A) : M TimerDriver A :=
  zoom clock (λ c d, mkDriver d.(heap) d.(wakers) d.(next_id) d.(shutdown) c) m.

Definition now (real : Z) : M TimerDriver Z := on_clock (clock_now real).
Definition is_paused : M TimerDriver bool := on_clock clock_is_paused.
Definition pause (real : Z) : M TimerDriver unit := on_clock (clock_pause real).
Definition resume : M TimerDriver unit := on_clock clock_resume.

Fixpoint heap_push (e : entry) (h : list entry) : list entry :=
  match h with
  | [] => [e]
  | a :: h' => if decide (entry_le e a) then e :: h else a :: heap_push e h'
  end.

(** The loop of [fire_due]: what it leaves, and the wakers it collects. *)
Fixpoint pop_due (now : Z) (h : list entry) (ws : gmap Z waker)
    : list entry * gmap Z waker * list waker :=
  match h with
  | [] => ([], ws, [])
  | (deadline, id) :: h' =>
      if now <? deadline then (h, ws, [])
      else
        let '(h2, ws2, due) := pop_due now h' (delete id ws) in
        (h2, ws2, match ws !! id with Some w => w :: due | None => due end)
  end.

Definition fire_due (now : Z) : M TimerDriver unit :=
  let! d := get in
  let '(h, ws, due) := pop_due now d.(heap) d.(wakers) in
  put (mkDriver h ws d.(next_id) d.(shutdown) d.(clock)) ;!
  wake_all due.

(** The two halves of [register] and of [update_waker]: the locked one, and
    the check of [shutdown] that follows it. *)
Definition register_entry (deadline : Z) (w : waker) : M TimerDriver Z :=
  let! d := get in
  let id := d.(next_id) in
  put (mkDriver (heap_push (deadline, id) d.(heap)) (<[id := w]> d.(wakers))
         ((id + 1) `mod` 2 ^ u64_bits) d.(shutdown) d.(clock)) ;!
  ret id.
Definition wake_if_shutdown (w : waker) : M TimerDriver unit :=
  let! d := get in if d.(shutdown) : bool then wake w else ret tt.
Definition register (deadline : Z) (w : waker) : M TimerDriver Z :=
  let! id := register_entry deadline w in
  wake_if_shutdown w ;! ret id.

Definition update_entry (id : Z) (w : waker) : M TimerDriver unit :=
  let! d := get in
  put (mkDriver d.(heap) (<[id := w]> d.(wakers)) d.(next_id) d.(shutdown) d.(clock)).
Definition update_waker (id : Z) (w : waker) : M TimerDriver unit :=
  update_entry id w ;! wake_if_shutdown w.

Definition cancel (id : Z) : M TimerDriver unit :=
  let! d := get in
  put (mkDriver d.(heap) (delete id d.(wakers)) d.(next_id) d.(shutdown) d.(clock)).

(** [shutdown] up to the join of the thread, which takes no lock of ours. *)
Definition shutdown_store : M TimerDriver unit :=
  let! d := get in put (mkDriver d.(heap) d.(wakers) d.(next_id) true d.(clock)).

(** One iteration of [event_loop], and how long it may then block.  [t] is
    what [Clock::now] told it at the start: it asks [is_paused] later. *)
Inductive loop_next := LoopExit | WaitAtMost (d : Z) | LoopAgain.

Definition safety_net : Z := 200 * 10 ^ 6.

Definition loop_peek (t : Z) : M TimerDriver loop_next :=
  let! d := get in
  match d.(heap) with
  | [] => ret (WaitAtMost safety_net)
  | (deadline, _) :: _ =>
      if deadline <=? t then fire_due t ;! ret LoopAgain
      else
        let! p := is_paused in
        if p : bool then ret (WaitAtMost safety_net) else ret (WaitAtMost (deadline - t))
  end.

Definition event_loop_step (real : Z) : M TimerDriver loop_next :=
  let! d := get in
  if d.(shutdown) : bool then ret LoopExit
  else let! t := now real in loop_peek t.

(** [advance], one turn of its loop at a time: [true] when the turn fired a
    deadline and goes on after a [yield_now]. *)
Definition advance_target (duration real : Z) : M TimerDriver Z :=
  let! p := is_paused in
  assert p ;!
  let! t := now real in
  lift (instant_add t duration).
Definition advance_turn (target : Z) : M TimerDriver bool :=
  let! d := get in
  match d.(heap) with
  | (deadline, _) :: _ =>
      if deadline <=? target then
        on_clock (clock_set deadline) ;! fire_due deadline ;! ret true
      else on_clock (clock_set target) ;! ret false
  | [] => on_clock (clock_set target) ;! ret false
  end.
Fixpoint advance_loop (fuel : nat) (target : Z) : M TimerDriver bool :=
  match fuel with
  | O => ret false
  | S fuel =>
      let! more := advance_turn target in
      if more : bool then advance_loop fuel target else ret true
  end.

(** ** [Sleep] and [Timeout] *)

Record Sleep := mkSleep { deadline : Z; sleep_id : option Z }.

Definition sleep_until (deadline : Z) : Sleep := mkSleep deadline None.
Definition sleep (duration real : Z) : M TimerDriver Sleep :=
  let! t := now real in
  let! deadline := lift (instant_add t duration) in
  ret (mkSleep deadline None).

Definition cancel_opt (id : option Z) : M TimerDriver unit :=
  match id with Some id => cancel id | None => ret tt end.
Definition sleep_reset (s : Sleep) (deadline : Z) : M TimerDriver Sleep :=
  cancel_opt s.(sleep_id) ;! ret (mkSleep deadline None).
Definition sleep_drop (s : Sleep) : M TimerDriver unit := cancel_opt s.(sleep_id).

Definition is_elapsed (s : Sleep) (real : Z) : M TimerDriver bool :=
  let! t := now real in ret (s.(deadline) <=? t).

(** [Sleep::poll]: the check of the clock; the locked half of the
    registration; the whole. *)
Definition sleep_enlist (s : Sleep) (cx : waker) : M TimerDriver Sleep :=
  match s.(sleep_id) with
  | None => let! id := register_entry s.(deadline) cx in ret (mkSleep s.(deadline) (Some id))
  | Some id => update_entry id cx ;! ret s
  end.
Definition sleep_poll (s : Sleep) (real : Z) (cx : waker) : M TimerDriver (poll unit * Sleep) :=
  let! elapsed := is_elapsed s real in
  if elapsed : bool then ret (Ready tt, s)
  else
    let! s' := sleep_enlist s cx in
    wake_if_shutdown cx ;! ret (Pending, s').

Inductive Elapsed := mkElapsed.

(** [Timeout::poll]; [inner] is one poll of the wrapped future. *)
Definition timeout_poll {A} (inner : M TimerDriver (poll A)) (s : Sleep) (real : Z) (cx : waker)
    : M TimerDriver (poll (result A Elapsed) * Sleep) :=
  let! r := inner in
  match r with
  | Ready v => ret (Ready (Ok v), s)
  | Pending =>
      let! p := sleep_poll s real cx in
      match p with
      | (Ready _, s') => ret (Ready (Err mkElapsed), s')
      | (Pending, s') => ret (Pending, s')
      end
  end.

(** ** [Interval] *)

Inductive MissedTickBehavior := Burst | Delay | Skip.

Record Interval := mkInterval {
  period : Z;
  next_deadline : Z;
  isleep : option Sleep;
  missed_tick_behavior : MissedTickBehavior;
}.

Definition interval_at (start period : Z) : option Interval :=
  if 0 <? period then Some (mkInterval period start None Burst) else None.
Definition interval (period real : Z) : M TimerDriver Interval :=
  let! t := now real in
  let! start := lift (instant_add t period) in
  lift (interval_at start period).

Definition set_missed_tick_behavior (i : Interval) (b : MissedTickBehavior) : Interval :=
  mkInterval i.(period) i.(next_deadline) i.(isleep) b.

(** [self.next_deadline = deadline; self.sleep = None]. *)
Definition reschedule (i : Interval) (deadline : Z) : M TimerDriver Interval :=
  match i.(isleep) with Some s => sleep_drop s | None => ret tt end ;!
  ret (mkInterval i.(period) deadline None i.(missed_tick_behavior)).
Definition reset_at (i : Interval) (deadline : Z) : M TimerDriver Interval := reschedule i deadline.
Definition reset_immediately (i : Interval) (real : Z) : M TimerDriver Interval :=
  let! t := now real in reschedule i t.
Definition reset_after (i : Interval) (after real : Z) : M TimerDriver Interval :=
  let! t := now real in
  let! deadline := lift (instant_add t after) in
  reschedule i deadline.
Definition reset (i : Interval) (real : Z) : M TimerDriver Interval :=
  reset_after i i.(period) real.

(** [while next <= now { next += period }]. *)
Fixpoint skip_missed (fuel : nat) (period now next : Z) : option Z :=
  if next <=? now then
    match fuel with
    | O => None
    | S fuel =>
        match instant_add next period with
        | Some next' => skip_missed fuel period now next'
        | None => None
        end
    end
  else Some next.

(** The loop runs [(now - next) / period + 1] times at most. *)
Definition skip_fuel (period now next : Z) : nat := Z.to_nat ((now - next) / period + 1).

Definition next_tick (i : Interval) (real : Z) : M TimerDriver Z :=
  match i.(missed_tick_behavior) with
  | Burst => lift (instant_add i.(next_deadline) i.(period))
  | Delay => let! t := now real in lift (instant_add t i.(period))
  | Skip =>
      let! t := now real in
      let! next := lift (instant_add i.(next_deadline) i.(period)) in
      lift (skip_missed (skip_fuel i.(period) t next) i.(period) t next)
  end.

Definition poll_tick (i : Interval) (real : Z) (cx : waker)
    : M TimerDriver (poll Z * Interval) :=
  let s := match i.(isleep) with Some s => s | None => sleep_until i.(next_deadline) end in
  let! p := sleep_poll s real cx in
  match p with
  | (Ready _, s') =>
      let! next := next_tick i real in
      sleep_drop s' ;!
      ret (Ready i.(next_deadline), mkInterval i.(period) next None i.(missed_tick_behavior))
  | (Pending, s') =>
      ret (Pending, mkInterval i.(period) i.(next_deadline) (Some s') i.(missed_tick_behavior))
  end.

(** ** The heap *)

Lemma entry_le_trans a b c : entry_le a b → entry_le b c → entry_le a c.
Proof. unfold entry_le. lia. Qed.

Lemma entry_le_total a b : ¬ entry_le a b → entry_le b a.
Proof. unfold entry_le. lia. Qed.

Lemma heap_push_perm e h : heap_push e h ≡ₚ e :: h.
Proof.
  induction h as [|a h IH]; simpl; [done|]. case_decide; [done|].
  rewrite IH. constructor.
Qed.

Lemma heap_push_sorted e h : StronglySorted entry_le h → StronglySorted entry_le (heap_push e h).
Proof.
  induction 1 as [|a h Hs IH Hall]; simpl.
  - by repeat constructor.
  - case_decide as He.
    + repeat (constructor; [by constructor|]). constructor; [done|].
      eapply Forall_impl; [exact Hall|]. intros x. by apply entry_le_trans.
    + constructor; [done|]. rewrite heap_push_perm. constructor; [by apply entry_le_total|done].
Qed.

Lemma omap_delete_ne (l : list entry) (ws : gmap Z waker) id :
  (∀ e, e ∈ l → e.2 ≠ id) → omap (λ e, delete id ws !! e.2) l = omap (λ e, ws !! e.2) l.
Proof.
  induction l as [|e l IH]; intros Hne; [done|]. simpl.
  rewrite lookup_delete_ne by (symmetry; apply Hne; set_solver).
  destruct (ws !! e.2); [f_equal|]; apply IH; intros; apply Hne; set_solver.
Qed.

Lemma foldr_delete_comm (l : list entry) (ws : gmap Z waker) id :
  foldr (λ e m, delete e.2 m) (delete id ws) l = delete id (foldr (λ e m, delete e.2 m) ws l).
Proof. induction l as [|e l IH]; [done|]. simpl. by rewrite IH, delete_delete. Qed.

(** What is due is a prefix of the heap; the wakers collected are those still
    in the map, in the order of the deadlines. *)
Lemma pop_due_spec t h ws :
  StronglySorted entry_le h → NoDup h.*2 →
  ∃ popped h2, h = popped ++ h2 ∧
    Forall (λ e, e.1 ≤ t) popped ∧ Forall (λ e, t < e.1) h2 ∧
    pop_due t h ws = (h2, foldr (λ e m, delete e.2 m) ws popped, omap (λ e, ws !! e.2) popped).
Proof.
  intros Hs. revert ws. induction Hs as [|[d id] h Hs IH Hall]; intros ws Hnd.
  - exists [], []. by split_and!.
  - simpl. destruct (Z.ltb_spec t d) as [Hlt|Hle].
    + exists [], ((d, id) :: h). split_and!; try done. constructor; [done|].
      eapply Forall_impl; [exact Hall|]. intros x. unfold entry_le; simpl. lia.
    + apply NoDup_cons in Hnd as [Hid Hnd].
      destruct (IH (delete id ws) Hnd) as (popped & h2 & -> & Hp & Hh & ->).
      exists ((d, id) :: popped), h2. split_and!; try done; [by constructor|].
      assert (∀ e, e ∈ popped → e.2 ≠ id) as Hne.
      { intros e He <-. apply Hid. apply list_elem_of_fmap. exists e. set_solver. }
      f_equal; [f_equal; apply foldr_delete_comm|].
      simpl. destruct (ws !! id); [f_equal|]; by apply omap_delete_ne.
Qed.

Lemma foldr_delete_lookup (popped : list entry) (ws : gmap Z waker) i :
  foldr (λ e m, delete e.2 m) ws popped !! i = if decide (i ∈ popped.*2) then None else ws !! i.
Proof.
  induction popped as [|e popped IH]; simpl; [done|].
  destruct (decide (e.2 = i)) as [<-|Hne].
  - rewrite lookup_delete_eq. by rewrite decide_True by set_solver.
  - rewrite lookup_delete_ne, IH by done. repeat case_decide; set_solver.
Qed.

Definition well_formed (d : TimerDriver) : Prop :=
  StronglySorted entry_le d.(heap) ∧ NoDup d.(heap).*2.

Definition current (d : TimerDriver) (real : Z) : Z :=
  match d.(clock) with Some t => t | None => real end.

Lemma fire_due_eq t d :
  well_formed d →
  ∃ popped h2, d.(heap) = popped ++ h2 ∧
    Forall (λ e, e.1 ≤ t) popped ∧ Forall (λ e, t < e.1) h2 ∧
    fire_due t d =
      Some (tt, mkDriver h2 (foldr (λ e m, delete e.2 m) d.(wakers) popped) d.(next_id)
                  d.(shutdown) d.(clock),
            omap (λ e, d.(wakers) !! e.2) popped).
Proof.
  intros [Hs Hn]. destruct (pop_due_spec t _ d.(wakers) Hs Hn) as (p & h2 & Hh & Hp & Hr & E).
  exists p, h2. split_and!; [done..|]. unfold fire_due. run_M. by rewrite E.
Qed.

Lemma well_formed_suffix p h2 d ws n s c :
  well_formed d → d.(heap) = p ++ h2 → well_formed (mkDriver h2 ws n s c).
Proof.
  intros [Hs Hn] E. rewrite E in Hs, Hn. rewrite fmap_app in Hn.
  split; simpl; [by apply (StronglySorted_app_1_r _ p)|by apply NoDup_app in Hn as (_ & _ & ?)].
Qed.

(** Two firings in a row collect what one would. *)
Lemma omap_after_pop (ws : gmap Z waker) (p q : list entry) :
  NoDup (p ++ q).*2 →
  omap (λ e, foldr (λ e m, delete e.2 m) ws p !! e.2) q = omap (λ e, ws !! e.2) q.
Proof.
  induction p as [|e p IH]; simpl; [done|intros [Hid Hn]%NoDup_cons].
  rewrite <- IH by done. apply omap_delete_ne. intros e' He' Heq. apply Hid.
  apply list_elem_of_fmap. exists e'. set_solver.
Qed.

(** [advance] fires everything that falls due, in the order of the
    deadlines, and stops exactly at its target.  On a paused clock, with
    nothing else going on, its loop terminates within one turn per entry of
    the heap; it wakes the wakers still in the map of the entries with
    deadlines up to the target, and no other, in ascending order; it leaves
    the later ones, and the clock at the target. *)
Theorem advance_exact d t target :
  well_formed d → d.(clock) = Some t →
  ∃ due rest ws', d.(heap) = due ++ rest ∧
    Forall (λ e, e.1 ≤ target) due ∧ Forall (λ e, target < e.1) rest ∧
    advance_loop (S (length d.(heap))) target d =
      Some (true, mkDriver rest ws' d.(next_id) d.(shutdown) (Some target),
            omap (λ e, d.(wakers) !! e.2) due).
Proof.
  remember (length d.(heap)) as n eqn:Hn. assert (length d.(heap) ≤ n)%nat as Hle by lia. clear Hn.
  revert d t Hle. induction n as [|n IH]; intros [h m i s c] t Hle Hw Hc; simpl in Hle, Hc; subst c.
  - destruct h; [|simpl in Hle; lia]. exists [], [], m. split_and!; try done.
  - remember (S n) as fuel. simpl. unfold advance_turn. unfold bind at 1 2, get at 1. simpl.
    destruct h as [|[dl id] h].
    { exists [], [], m. split_and!; try done. }
    destruct (Z.leb_spec dl target) as [Hdl|Hdl].
    2:{ exists [], ((dl, id) :: h), m. split_and!; try done. constructor; [done|].
        destruct Hw as [Hs _]. apply StronglySorted_inv in Hs as [_ Hall].
        eapply Forall_impl; [exact Hall|]. intros x. unfold entry_le; simpl. lia. }
    set (d1 := mkDriver ((dl, id) :: h) m i s (Some dl)).
    destruct (fire_due_eq dl d1 Hw) as (p & h2 & Hh & Hp & Hr & E). simpl in Hh.
    assert (p ≠ []) as Hne.
    { intros ->. simpl in Hh. subst h2. apply Forall_cons in Hr as [Hr _]. simpl in Hr. lia. }
    assert (length h2 ≤ n)%nat as Hle2.
    { destruct p; [done|]. apply (f_equal length) in Hh. rewrite length_app in Hh. simpl in *. lia. }
    set (d2 := mkDriver h2 (foldr (λ e m, delete e.2 m) m p) i s (Some dl)).
    assert (well_formed d2) as Hw2 by (eapply (well_formed_suffix p h2 d1); done).
    destruct (IH d2 dl Hle2 Hw2 eq_refl) as (due & rest & ws' & Hh2 & Hdue & Hrest & E2).
    simpl in Hh2. exists (p ++ due), rest, ws'. split_and!.
    + simpl. by rewrite Hh, Hh2, app_assoc.
    + apply Forall_app. split; [|done]. eapply Forall_impl; [exact Hp|]. simpl. lia.
    + done.
    + unfold on_clock, zoom, clock_set. run_M.
      fold d1. rewrite E. simpl. fold d2. rewrite E2. rewrite app_nil_r.
      rewrite omap_app, omap_after_pop; [done|].
      destruct Hw as [_ Hn]. cbn [heap] in Hn. rewrite Hh, Hh2, app_assoc, fmap_app in Hn.
      by apply NoDup_app in Hn as (? & _).
Qed.

(** ** Intervals *)

(** The first instant of the grid [next, next + period, …] past [now]. *)
Definition first_after (period now next : Z) : Z :=
  if next <=? now then next + ((now - next) / period + 1) * period else next.

Lemma skip_missed_spec period t next fuel :
  0 < period → t + period < instant_limit →
  (next ≤ t → (Z.to_nat ((t - next) / period + 1) ≤ fuel)%nat) →
  skip_missed fuel period t next = Some (first_after period t next).
Proof.
  intros Hp Hlim. revert next. induction fuel as [|fuel IH]; intros next Hf; simpl; unfold first_after;
    destruct (Z.leb_spec next t) as [Hle|Hgt]; try done.
  - pose proof (Z.div_pos (t - next) period ltac:(lia) Hp). lia.
  - unfold instant_add. destruct (Z.ltb_spec (next + period) instant_limit); [|lia].
    pose proof (Z.div_pos (t - next) period ltac:(lia) Hp).
    assert ((t - (next + period)) / period = (t - next) / period - 1) as Hd.
    { replace (t - (next + period)) with ((t - next) + (-1) * period) by lia.
      rewrite Z.div_add by lia. lia. }
    rewrite IH by (intros; rewrite Hd; specialize (Hf Hle); lia).
    unfold first_after. destruct (Z.leb_spec (next + period) t); rewrite ?Hd; [f_equal; lia|].
    rewrite (Z.div_small (t - next) period) by lia. f_equal. lia.
Qed.

Lemma first_after_gt period t next : 0 < period → t < first_after period t next ∧ next ≤ first_after period t next.
Proof.
  intros Hp. unfold first_after. destruct (Z.leb_spec next t); [|lia].
  pose proof (Z.div_mod (t - next) period ltac:(lia)).
  pose proof (Z.mod_pos_bound (t - next) period Hp). nia.
Qed.

Lemma first_after_grid period t next :
  0 < period → ∃ k, 0 ≤ k ∧ first_after period t next = next + k * period.
Proof.
  intros Hp. unfold first_after. destruct (Z.leb_spec next t).
  - exists ((t - next) / period + 1). split; [|lia].
    pose proof (Z.div_pos (t - next) period ltac:(lia) Hp). lia.
  - exists 0. lia.
Qed.

(** What a tick that fired at [now], having been due at [due], puts next. *)
Definition tick_spec (b : MissedTickBehavior) (period now due : Z) : Z :=
  match b with
  | Burst => due + period
  | Delay => now + period
  | Skip => first_after period now (due + period)
  end.

(** An interval polled at a sequence of times: the code's answers, and the
    ones the schedule prescribes. *)
Fixpoint poll_ticks (i : Interval) (polls : list (Z * waker)) : M TimerDriver (list (poll Z)) :=
  match polls with
  | [] => ret []
  | (real, cx) :: polls =>
      let! r := poll_tick i real cx in
      let! rest := poll_ticks r.2 polls in
      ret (r.1 :: rest)
  end.

Fixpoint spec_ticks (b : MissedTickBehavior) (period due : Z) (times : list Z) : list (poll Z) :=
  match times with
  | [] => []
  | t :: times =>
      if due <=? t then Ready due :: spec_ticks b period (tick_spec b period t due) times
      else Pending :: spec_ticks b period due times
  end.

(** The ticks of a list of answers. *)
Definition ticks (answers : list (poll Z)) : list Z :=
  omap (λ r, match r with Ready t => Some t | Pending => None end) answers.

Definition interval_ok (i : Interval) : Prop :=
  0 < i.(period) ∧ ∀ s, i.(isleep) = Some s → s.(deadline) = i.(next_deadline).

Lemma sleep_poll_eq s real cx d :
  ∃ s' d' ws,
    sleep_poll s real cx d =
      Some ((if s.(deadline) <=? current d real then Ready tt else Pending, s'), d', ws) ∧
    s'.(deadline) = s.(deadline) ∧ d'.(clock) = d.(clock).
Proof.
  unfold sleep_poll, is_elapsed, now, on_clock, zoom, clock_now, wake_if_shutdown, sleep_enlist,
    register_entry, update_entry, current.
  destruct s as [dl [id|]], d as [h m n [|] c]; run_M; destruct (dl <=? _); run_M;
    do 3 eexists; (split; [reflexivity|done]).
Qed.

Lemma sleep_drop_eq s d : ∃ d', sleep_drop s d = Some (tt, d', []) ∧ d'.(clock) = d.(clock).
Proof. unfold sleep_drop, cancel_opt, cancel. destruct (sleep_id s); run_M; by eexists. Qed.

Lemma next_tick_eq i real d :
  0 < i.(period) → i.(next_deadline) ≤ current d real →
  current d real + 2 * i.(period) < instant_limit →
  next_tick i real d =
    Some (tick_spec i.(missed_tick_behavior) i.(period) (current d real) i.(next_deadline), d, []).
Proof.
  intros Hp Hdue Hlim.
  assert (current d real + i.(period) + i.(period) < instant_limit) as Hlim2 by lia. clear Hlim.
  assert (∀ a b, a + b < instant_limit → instant_add a b = Some (a + b)) as Hadd
    by (intros a b ?; unfold instant_add; by destruct (Z.ltb_spec (a + b) instant_limit); [|lia]).
  unfold next_tick, now, on_clock, zoom, clock_now, current in *.
  destruct d as [h m n sh [v|]]; run_M; destruct (missed_tick_behavior i); run_M; rewrite !Hadd by lia; run_M;
    rewrite ?skip_missed_spec by (unfold skip_fuel; lia); done.
Qed.

Lemma poll_tick_eq i real cx d :
  interval_ok i → current d real + 2 * i.(period) < instant_limit →
  ∃ i' d' ws,
    poll_tick i real cx d =
      Some ((if i.(next_deadline) <=? current d real then Ready i.(next_deadline) else Pending, i'),
            d', ws) ∧
    d'.(clock) = d.(clock) ∧ interval_ok i' ∧ i'.(period) = i.(period) ∧
    i'.(missed_tick_behavior) = i.(missed_tick_behavior) ∧
    i'.(next_deadline) =
      if i.(next_deadline) <=? current d real
      then tick_spec i.(missed_tick_behavior) i.(period) (current d real) i.(next_deadline)
      else i.(next_deadline).
Proof.
  intros [Hp Hs] Hlim. unfold poll_tick.
  set (s := match isleep i with Some s => s | None => sleep_until (next_deadline i) end).
  assert (deadline s = next_deadline i) as Hd
    by (subst s; destruct (isleep i) as [s|]; [by apply Hs|done]).
  destruct (sleep_poll_eq s real cx d) as (s' & d1 & ws & E & Hd' & Hc). rewrite Hd in E, Hd'.
  unfold bind at 1. rewrite E. destruct (Z.leb_spec (next_deadline i) (current d real)) as [Hle|Hgt].
  - assert (current d1 real = current d real) as Hcur by (unfold current; by rewrite Hc).
    destruct (sleep_drop_eq s' d1) as (d2 & E2 & Hc2). unfold bind, ret.
    rewrite next_tick_eq by (rewrite ?Hcur; lia). rewrite E2, Hcur.
    do 3 eexists. split; [reflexivity|]. simpl. rewrite Hc2. by split_and!.
  - do 3 eexists. split; [reflexivity|]. simpl. split_and!; try done. split; [done|]. by intros ? [= <-].
Qed.

Lemma spec_ticks_spaced b period due times :
  0 < period →
  (∀ t, head (ticks (spec_ticks b period due times)) = Some t → t = due) ∧
  ∀ k x y, ticks (spec_ticks b period due times) !! k = Some x →
    ticks (spec_ticks b period due times) !! S k = Some y →
    x + period ≤ y ∧
    match b with
    | Burst => y = x + period
    | Delay => True
    | Skip => ∃ n, y = x + n * period
    end.
Proof.
  intros Hp. revert due. induction times as [|t times IH]; intros due; simpl; [done|].
  destruct (Z.leb_spec due t) as [Hle|Hgt]; simpl; [|apply IH].
  destruct (IH (tick_spec b period t due)) as [Hh Hk]. split; [congruence|].
  intros [|k] x y; [|apply Hk]. simpl. intros [= <-] Hy.
  rewrite <- head_lookup in Hy. apply Hh in Hy as ->. destruct b; simpl; [lia|lia|].
  pose proof (first_after_gt period t (due + period) Hp).
  destruct (first_after_grid period t (due + period) Hp) as (n & ? & ->).
  split; [lia|]. exists (n + 1). lia.
Qed.

(** An interval keeps its schedule.  Polled at any sequence of times
    (bounded so that no [Instant] overflows), it answers exactly what the
    schedule prescribes: [Ready] with the time a tick was due as soon as that
    time has come and [Pending] before; the ticks start at [next_deadline] and
    are at least one period apart, exactly one period under [Burst] however
    late the polls, and on the original grid under [Skip]. *)
Theorem interval_schedule i polls d :
  interval_ok i →
  Forall (λ p, current d p.1 + 2 * i.(period) < instant_limit) polls →
  let b := i.(missed_tick_behavior) in
  let answers := spec_ticks b i.(period) i.(next_deadline) (map (λ p, current d p.1) polls) in
  (∃ d' ws, poll_ticks i polls d = Some (answers, d', ws)) ∧
  (∀ t, head (ticks answers) = Some t → t = i.(next_deadline)) ∧
  ∀ k x y, ticks answers !! k = Some x → ticks answers !! S k = Some y →
    x + i.(period) ≤ y ∧
    match b with Burst => y = x + i.(period) | Delay => True | Skip => ∃ n, y = x + n * i.(period) end.
Proof.
  intros Hok Hall b answers. split; [|apply spec_ticks_spaced, Hok].
  subst b answers. revert i d Hok Hall. induction polls as [|[real cx] polls IH]; intros i d Hok Hall;
    simpl; [by do 2 eexists|].
  apply Forall_cons in Hall as [H0 Hall]. simpl in H0.
  destruct (poll_tick_eq i real cx d Hok H0) as (i' & d1 & ws & E & Hc & Hok' & Hp & Hb & Hn).
  assert (∀ r, current d1 r = current d r) as Hcur by (intros; unfold current; by rewrite Hc).
  destruct (IH i' d1 Hok') as (d2 & ws2 & E2).
  { rewrite Hp. eapply Forall_impl; [exact Hall|]. intros p. by rewrite Hcur. }
  unfold bind, ret. rewrite E. simpl. rewrite E2.
  assert (map (λ p : Z * waker, current d1 p.1) polls = map (λ p : Z * waker, current d p.1) polls) as ->
    by (apply map_ext; intros; apply Hcur).
  rewrite Hp, Hb, Hn. do 2 eexists. by destruct (next_deadline i <=? current d real).
Qed.

(** ** The driver in use

    Sleeps belong to tasks: each is polled with the waker of its task.  A poll
    is several steps (the look at the clock, the locked half of the
    registration, the notification of the driver's thread, the look at
    [shutdown]), and so is an iteration of the thread: it looks at [shutdown],
    takes the lock and reads the clock, decides with the lock still held, and
    gives the lock up only as it starts to wait on the condition variable.  The
    clock is not under that lock: [pause], [resume] and the turns of [advance]
    come in between anywhere.

    [fired] is the latest instant the driver has fired for, and [behind] tells
    whether the clock has ever shown an earlier one since: [resume] can turn it
    back, and so can an [advance] that finds an overdue deadline. *)

Inductive phase :=
| Idle                        (* not polled since it was created, reset or woken *)
| Polling (woken : bool)      (* found its deadline in the future *)
| Registering (woken : bool)  (* in the heap, about to notify the thread *)
| Enlisted (woken : bool)     (* about to look at [shutdown] *)
| Parked                      (* [Pending], and not woken since *)
| Elapsed_.

Record sleeper := mkSleeper { sleep_of : Sleep; task : waker; phase_of : phase }.

(** What the thread read off the clock, at which real time, and whether the
    clock was paused then. *)
Record reading := mkReading { shown : Z; at_real : Z; was_paused : bool }.

Inductive loop_pc :=
| L_top                              (* about to look at [shutdown] *)
| L_lock                             (* about to lock and read the clock *)
| L_peek (r : reading)               (* holding the lock, about to look at the heap *)
| L_sleep (r : reading) (d : Z)      (* holding the lock, about to wait for [d] *)
| L_wait (r : reading) (from until : Z)
| L_exit.

Definition lock_free (l : loop_pc) : bool :=
  match l with L_peek _ | L_sleep _ _ => false | _ => true end.
(** [notify_one] or [notify_all]: nobody else waits on the condition variable. *)
Definition notified (l : loop_pc) : loop_pc :=
  match l with L_wait _ _ _ => L_top | _ => l end.

Record world := mkWorld {
  driver : TimerDriver;
  real : Z;
  fired : Z;
  behind : bool;
  loop : loop_pc;
  notifiers : nat;                     (* callers about to [notify_all] *)
  sleepers : list (option sleeper);    (* [None] once dropped *)
}.

(** The next state, [behind] brought up to date. *)
Definition become (W : world) (d : TimerDriver) (t f : Z) (l : loop_pc) (n : nat)
    (ss : list (option sleeper)) : world :=
  mkWorld d t f (W.(behind) || (current d t <? f)) l n ss.

Definition deliver (ws : list waker) (o : option sleeper) : option sleeper :=
  match o with
  | Some s =>
      if bool_decide (s.(task) ∈ ws) then
        Some (mkSleeper s.(sleep_of) s.(task)
          (match s.(phase_of) with
           | Polling _ => Polling true
           | Registering _ => Registering true
           | Enlisted _ => Enlisted true
           | Parked => Idle
           | p => p
           end))
      else o
  | None => None
  end.

Definition quiet (p : phase) : bool :=
  match p with Idle | Parked | Elapsed_ => true | _ => false end.

Inductive wstep : world → world → Prop :=
| w_time W t :
    W.(real) ≤ t → wstep W (become W W.(driver) t W.(fired) W.(loop) W.(notifiers) W.(sleepers))
| w_new W deadline w :
    wstep W (become W W.(driver) W.(real) W.(fired) W.(loop) W.(notifiers)
               (W.(sleepers) ++ [Some (mkSleeper (sleep_until deadline) w Idle)]))
| w_look W (k : nat) s e d ws :
    W.(sleepers) !! k = Some (Some s) → s.(phase_of) = Idle ∨ s.(phase_of) = Parked →
    is_elapsed s.(sleep_of) W.(real) W.(driver) = Some (e, d, ws) →
    wstep W (become W d W.(real) W.(fired) W.(loop) W.(notifiers)
      (<[k := Some (mkSleeper s.(sleep_of) s.(task) (if e then Elapsed_ else Polling false))]>
         W.(sleepers)))
| w_enlist W (k : nat) s b s' d ws :
    W.(sleepers) !! k = Some (Some s) → s.(phase_of) = Polling b → lock_free W.(loop) = true →
    W.(driver).(next_id) + 1 < 2 ^ u64_bits →
    sleep_enlist s.(sleep_of) s.(task) W.(driver) = Some (s', d, ws) →
    wstep W (become W d W.(real) W.(fired) W.(loop) W.(notifiers)
      (<[k := Some (mkSleeper s' s.(task)
                (match s.(sleep_of).(sleep_id) with None => Registering b | Some _ => Enlisted b end))]>
         W.(sleepers)))
| w_notify_one W (k : nat) s b :
    W.(sleepers) !! k = Some (Some s) → s.(phase_of) = Registering b →
    wstep W (become W W.(driver) W.(real) W.(fired) (notified W.(loop)) W.(notifiers)
      (<[k := Some (mkSleeper s.(sleep_of) s.(task) (Enlisted b))]> W.(sleepers)))
| w_park W (k : nat) s b d ws :
    W.(sleepers) !! k = Some (Some s) → s.(phase_of) = Enlisted b →
    wake_if_shutdown s.(task) W.(driver) = Some (tt, d, ws) →
    wstep W (become W d W.(real) W.(fired) W.(loop) W.(notifiers)
      (map (deliver ws)
        (<[k := Some (mkSleeper s.(sleep_of) s.(task) (if b then Idle else Parked))]>
           W.(sleepers))))
| w_reset W (k : nat) s deadline s' d ws :
    W.(sleepers) !! k = Some (Some s) → quiet s.(phase_of) = true →
    lock_free W.(loop) = true ∨ s.(sleep_of).(sleep_id) = None →
    sleep_reset s.(sleep_of) deadline W.(driver) = Some (s', d, ws) →
    wstep W (become W d W.(real) W.(fired) W.(loop) W.(notifiers)
      (<[k := Some (mkSleeper s' s.(task) Idle)]> W.(sleepers)))
| w_drop W (k : nat) s d ws :
    W.(sleepers) !! k = Some (Some s) → quiet s.(phase_of) = true →
    lock_free W.(loop) = true ∨ s.(sleep_of).(sleep_id) = None →
    sleep_drop s.(sleep_of) W.(driver) = Some (tt, d, ws) →
    wstep W (become W d W.(real) W.(fired) W.(loop) W.(notifiers) (<[k := None]> W.(sleepers)))
| w_loop_shutdown W :
    W.(loop) = L_top →
    wstep W (become W W.(driver) W.(real) W.(fired)
      (if W.(driver).(shutdown) then L_exit else L_lock) W.(notifiers) W.(sleepers))
| w_loop_now W t p d d' ws ws' :
    W.(loop) = L_lock →
    now W.(real) W.(driver) = Some (t, d, ws) → is_paused W.(driver) = Some (p, d', ws') →
    wstep W (become W d W.(real) W.(fired) (L_peek (mkReading t W.(real) p)) W.(notifiers) W.(sleepers))
| w_loop_peek W r x d ws :
    W.(loop) = L_peek r → loop_peek r.(shown) W.(driver) = Some (x, d, ws) →
    wstep W (become W d W.(real)
      (match x with LoopAgain => Z.max W.(fired) r.(shown) | _ => W.(fired) end)
      (match x with LoopAgain => L_top | WaitAtMost z => L_sleep r z | LoopExit => L_exit end)
      W.(notifiers) (map (deliver ws) W.(sleepers)))
| w_loop_sleep W r z :
    W.(loop) = L_sleep r z →
    wstep W (become W W.(driver) W.(real) W.(fired) (L_wait r W.(real) (W.(real) + z))
               W.(notifiers) W.(sleepers))
| w_loop_woken W r from until :        (* timed out, or spuriously *)
    W.(loop) = L_wait r from until →
    wstep W (become W W.(driver) W.(real) W.(fired) L_top W.(notifiers) W.(sleepers))
| w_fire W t d ws :                    (* in a turn of [advance] *)
    lock_free W.(loop) = true → fire_due t W.(driver) = Some (tt, d, ws) →
    wstep W (become W d W.(real) (Z.max W.(fired) t) W.(loop) W.(notifiers) (map (deliver ws) W.(sleepers)))
| w_set W t d ws :                     (* in a turn of [advance], or at its end *)
    on_clock (clock_set t) W.(driver) = Some (tt, d, ws) →
    wstep W (become W d W.(real) W.(fired) W.(loop) W.(notifiers) W.(sleepers))
| w_pause W d ws :
    pause W.(real) W.(driver) = Some (tt, d, ws) →
    wstep W (become W d W.(real) W.(fired) W.(loop) (S W.(notifiers)) W.(sleepers))
| w_resume W d ws :
    resume W.(driver) = Some (tt, d, ws) →
    wstep W (become W d W.(real) W.(fired) W.(loop) (S W.(notifiers)) W.(sleepers))
| w_shutdown W d ws :
    shutdown_store W.(driver) = Some (tt, d, ws) →
    wstep W (become W d W.(real) W.(fired) W.(loop) (S W.(notifiers)) W.(sleepers))
| w_notify_all W n :
    W.(notifiers) = S n →
    wstep W (become W W.(driver) W.(real) W.(fired) (notified W.(loop)) n W.(sleepers)).

Definition timer_reachable : world → Prop :=
  reachable (λ W, ∃ t, W = mkWorld driver_new t t false L_top 0 []) wstep.

(** The driver will wake [w] for [id] when [dl] comes. *)
Definition armed (d : TimerDriver) (dl id : Z) (w : waker) : Prop :=
  (dl, id) ∈ d.(heap) ∧ d.(wakers) !! id = Some w.

Definition must_be_armed (p : phase) : bool :=
  match p with Polling false | Registering false | Enlisted false | Parked => true | _ => false end.
Definition has_id (p : phase) : bool :=
  match p with Registering _ | Enlisted _ | Parked => true | _ => false end.
Definition registering (p : phase) : bool :=
  match p with Registering _ => true | _ => false end.

(** A sleep that waits is armed; else its deadline has been fired for, and if
    it waits nevertheless the clock has been behind what was fired. *)
Definition sleeper_ok (d : TimerDriver) (f : Z) (back : bool) (s : sleeper) : Prop :=
  (has_id s.(phase_of) = true → is_Some s.(sleep_of).(sleep_id)) ∧
  ∀ i, s.(sleep_of).(sleep_id) = Some i →
    0 ≤ i < d.(next_id) ∧
    (armed d s.(sleep_of).(deadline) i s.(task) ∨
     (s.(sleep_of).(deadline) ≤ f ∧ (must_be_armed s.(phase_of) = false ∨ back = true))).

Definition ids_apart (ss : list (option sleeper)) : Prop :=
  ∀ (j k : nat) a b i, ss !! j = Some (Some a) → ss !! k = Some (Some b) →
    a.(sleep_of).(sleep_id) = Some i → b.(sleep_of).(sleep_id) = Some i → j = k.

(** The sleep has its entry in the heap, and the thread was notified of it. *)
Definition announced (d : TimerDriver) (s : sleeper) : Prop :=
  registering s.(phase_of) = false ∧
  ∃ i, s.(sleep_of).(sleep_id) = Some i ∧ (s.(sleep_of).(deadline), i) ∈ d.(heap).

(** The thread waits no longer than to the first deadline, counting from what
    it read off the clock, or 200 ms. *)
Definition in_time (r : reading) (z dl : Z) : Prop := r.(shown) < dl ∧ z ≤ Z.max safety_net (dl - r.(shown)).
Definition reading_ok (t : Z) (r : reading) : Prop :=
  r.(at_real) ≤ t ∧ (r.(was_paused) = false → r.(shown) = r.(at_real)).
Definition loop_ok (d : TimerDriver) (t : Z) (l : loop_pc) (ss : list (option sleeper)) : Prop :=
  match l with
  | L_top | L_lock => True
  | L_peek r => reading_ok t r
  | L_sleep r z => reading_ok t r ∧ ∀ e, e ∈ d.(heap) → in_time r z e.1
  | L_wait r from until =>
      reading_ok from r ∧ from ≤ t ∧
      ∀ (k : nat) s, ss !! k = Some (Some s) → announced d s →
        in_time r (until - from) s.(sleep_of).(deadline)
  | L_exit => d.(shutdown) = true
  end.

Record WInv (W : world) : Prop := {
  wi_heap : well_formed W.(driver);
  wi_ids : ∀ e, e ∈ W.(driver).(heap) → e.2 < W.(driver).(next_id);
  wi_next : 0 ≤ W.(driver).(next_id);
  wi_fired : W.(behind) = false → W.(fired) ≤ current W.(driver) W.(real);
  wi_apart : ids_apart W.(sleepers);
  wi_sleepers : ∀ (k : nat) s, W.(sleepers) !! k = Some (Some s) →
    sleeper_ok W.(driver) W.(fired) W.(behind) s;
  wi_loop : loop_ok W.(driver) W.(real) W.(loop) W.(sleepers);
}.

Lemma sleeper_ok_mono d d' f f' back back' s :
  (∀ i, s.(sleep_of).(sleep_id) = Some i →
     armed d s.(sleep_of).(deadline) i s.(task) → armed d' s.(sleep_of).(deadline) i s.(task)) →
  d.(next_id) ≤ d'.(next_id) → f ≤ f' → (back = true → back' = true) →
  sleeper_ok d f back s → sleeper_ok d' f' back' s.
Proof.
  intros Ha Hn Hf Hb [Hid Hs]. split; [done|]. intros i Hi. destruct (Hs i Hi) as (? & Hor).
  split; [lia|]. destruct Hor as [?|[? ?]]; [left; eauto|right; split; [lia|tauto]].
Qed.

Lemma behind_mono W b : W.(behind) = true → W.(behind) || b = true.
Proof. by intros ->. Qed.
#[local] Hint Resolve behind_mono : core.

Lemma deliver_inv ws ss (k : nat) s :
  map (deliver ws) ss !! k = Some (Some s) →
  ∃ s0, ss !! k = Some (Some s0) ∧ s.(sleep_of) = s0.(sleep_of) ∧ s.(task) = s0.(task) ∧
    (has_id s.(phase_of) = true → has_id s0.(phase_of) = true) ∧
    (must_be_armed s.(phase_of) = true → must_be_armed s0.(phase_of) = true ∧ s0.(task) ∉ ws) ∧
    registering s.(phase_of) = registering s0.(phase_of).
Proof.
  rewrite list_lookup_fmap. destruct (ss !! k) as [[[sl w p]|]|] eqn:E; simpl; [|done..].
  intros Hd. eexists. split; [reflexivity|].
  destruct (bool_decide_reflect (w ∈ ws)); simplify_eq/=; destruct p; simpl; by split_and!.
Qed.

Lemma ids_apart_deliver ws ss : ids_apart ss → ids_apart (map (deliver ws) ss).
Proof.
  intros Ha j k a b i Hj Hk Hia Hib.
  apply deliver_inv in Hj as (a0 & Hj & Ea & _). apply deliver_inv in Hk as (b0 & Hk & Eb & _).
  rewrite Ea in Hia. rewrite Eb in Hib. by eapply Ha.
Qed.

Lemma sleeper_ok_deliver ws d f back s s0 :
  s.(sleep_of) = s0.(sleep_of) → s.(task) = s0.(task) →
  (has_id s.(phase_of) = true → has_id s0.(phase_of) = true) →
  (must_be_armed s.(phase_of) = true → must_be_armed s0.(phase_of) = true ∧ s0.(task) ∉ (ws : list waker)) →
  sleeper_ok d f back s0 → sleeper_ok d f back s.
Proof.
  intros Es Et Hh Hm [Hid Hs]. split; rewrite Es; [auto|]. intros i Hi. rewrite Et.
  destruct (Hs i Hi) as (? & [?|[? Hb]]); split; auto. right. split; [done|].
  destruct (must_be_armed (phase_of s)); [|by left]. destruct Hm, Hb; auto; congruence.
Qed.

Lemma ids_apart_insert ss (k : nat) s x :
  ids_apart ss → ss !! k = Some (Some s) →
  (∀ y i, x = Some y → y.(sleep_of).(sleep_id) = Some i →
     s.(sleep_of).(sleep_id) = Some i ∨
     ∀ (j : nat) b, ss !! j = Some (Some b) → b.(sleep_of).(sleep_id) ≠ Some i) →
  ids_apart (<[k := x]> ss).
Proof.
  intros Ha Hk Hx j j' a b i Hj Hj' Hia Hib.
  apply list_lookup_insert_Some in Hj as [(<- & -> & _)|[Hne Hj]];
    apply list_lookup_insert_Some in Hj' as [(<- & Hb & _)|[Hne' Hj']]; simplify_eq; try done.
  - destruct (Hx _ _ eq_refl Hia) as [Hs|Hf]; [by eapply Ha|by destruct (Hf _ _ Hj')].
  - destruct (Hx _ _ eq_refl Hib) as [Hs|Hf]; [by eapply Ha|by destruct (Hf _ _ Hj)].
  - by eapply Ha.
Qed.

(** *** The thread *)

(** Nobody changes the heap under the lock; elsewhere no more sleeps are
    announced. *)
Lemma loop_ok_mono d d' t t' l ss ss' :
  loop_ok d t l ss → t ≤ t' → (d.(shutdown) = true → d'.(shutdown) = true) →
  (lock_free l = false → ∀ e, e ∈ d'.(heap) → e ∈ d.(heap)) →
  (∀ (k : nat) s, ss' !! k = Some (Some s) → announced d' s →
     ∃ (k0 : nat) s0, ss !! k0 = Some (Some s0) ∧ announced d s0 ∧
       s0.(sleep_of).(deadline) = s.(sleep_of).(deadline)) →
  loop_ok d' t' l ss'.
Proof.
  unfold loop_ok, reading_ok. intros Hl Ht Hsd Hheap Hann. destruct l as [| |r|r z|r from until|]; try done.
  - destruct Hl. split; [lia|done].
  - destruct Hl as [[? ?] Hz]. split; [split; [lia|done]|]. intros e He. by apply Hz, Hheap.
  - destruct Hl as (? & ? & Hz). split_and!; [tauto|tauto|lia|]. intros k s Hk Ha.
    destruct (Hann _ _ Hk Ha) as (k0 & s0 & Hk0 & Ha0 & <-). by eapply Hz.
  - auto.
Qed.

Lemma loop_ok_same d d' t t' l ss :
  loop_ok d t l ss → t ≤ t' → (d.(shutdown) = true → d'.(shutdown) = true) → d'.(heap) = d.(heap) →
  loop_ok d' t' l ss.
Proof.
  intros Hl Ht Hsd Eh. eapply loop_ok_mono; [done..|by rewrite Eh|].
  intros k s Hk Ha. exists k, s. split_and!; [done| |done]. unfold announced in *. by rewrite <-Eh.
Qed.

Lemma loop_ok_notified d t l ss ss' : loop_ok d t l ss → loop_ok d t (notified l) ss'.
Proof. by destruct l. Qed.

(** One sleeper changes, and is announced after only if it was before. *)
Lemma loop_ok_insert d d' t l ss (k : nat) s x :
  loop_ok d t l ss → ss !! k = Some (Some s) → (d.(shutdown) = true → d'.(shutdown) = true) →
  (lock_free l = false → d'.(heap) = d.(heap)) →
  (∀ (j : nat) s, ss !! j = Some (Some s) → announced d' s → announced d s) →
  (∀ y, x = Some y → announced d' y → announced d s ∧ s.(sleep_of).(deadline) = y.(sleep_of).(deadline)) →
  loop_ok d' t l (<[k := x]> ss).
Proof.
  intros Hl Hk Hsd Eh Hold Hx. eapply loop_ok_mono; [done|lia|done|by intros H; rewrite Eh|].
  intros j y Hj Ha. apply list_lookup_insert_Some in Hj as [(<- & -> & _)|[_ Hj]].
  - destruct (Hx _ eq_refl Ha). by exists k, s.
  - exists j, y. split_and!; [done| |done]. by eapply Hold.
Qed.

Lemma loop_ok_deliver d t l ss ws : loop_ok d t l ss → loop_ok d t l (map (deliver ws) ss).
Proof.
  intros Hl. eapply loop_ok_mono; [done|lia|done|done|]. intros k s Hk [Hr Ha].
  apply deliver_inv in Hk as (s0 & Hk & Es & _ & _ & _ & Er). exists k, s0.
  unfold announced. rewrite <-Er, <-Es. by split_and!.
Qed.

(** *** Preservation *)

(** A step that changes one sleeper and arms no less for the others. *)
Lemma WInv_insert W (k : nat) s x d l n :
  WInv W → W.(sleepers) !! k = Some (Some s) →
  well_formed d → (∀ e, e ∈ d.(heap) → e.2 < d.(next_id)) → W.(driver).(next_id) ≤ d.(next_id) →
  (∀ i dl w, s.(sleep_of).(sleep_id) ≠ Some i → i < W.(driver).(next_id) →
     armed W.(driver) dl i w → armed d dl i w) →
  (∀ y, x = Some y → sleeper_ok d W.(fired) W.(behind) y ∧
     ∀ i, y.(sleep_of).(sleep_id) = Some i →
       s.(sleep_of).(sleep_id) = Some i ∨ W.(driver).(next_id) ≤ i) →
  loop_ok d W.(real) l (<[k := x]> W.(sleepers)) →
  WInv (become W d W.(real) W.(fired) l n (<[k := x]> W.(sleepers))).
Proof.
  intros [Hh Hi Hn Hf Ha Hs Hl] Hk Hwf Hids Hle Harm Hx Hl'.
  split; simpl; [done|done|lia|intros [_ ?%Z.ltb_ge]%orb_false_iff; lia| | |done].
  - eapply ids_apart_insert; [done|exact Hk|]. intros y i -> Hyi.
    destruct (Hx y eq_refl) as [_ Hor]. destruct (Hor i Hyi) as [?|Hge]; [by left|right].
    intros j b Hj Hbi. destruct (Hs _ _ Hj) as [_ Hb]. destruct (Hb _ Hbi). lia.
  - intros j y [(_ & -> & _)|[Hne Hj]]%list_lookup_insert_Some.
    + destruct (Hx _ eq_refl) as [Hy _]. eapply sleeper_ok_mono with (5:=Hy); auto with lia.
    + destruct (Hs _ _ Hj) as [Hid Hb]. eapply sleeper_ok_mono; [| | | |by eapply Hs]; [|lia|lia|auto].
      intros i Hyi. apply Harm; [|by apply Hb].
      intros Hsi. apply Hne. by eapply (Ha k j).
Qed.

(** The driver fires for [t]. *)
Lemma WInv_fire W t d ws l :
  WInv W → fire_due t W.(driver) = Some (tt, d, ws) →
  (lock_free W.(loop) = true ∧ l = W.(loop) ∨ l = L_top) →
  WInv (become W d W.(real) (Z.max W.(fired) t) l W.(notifiers) (map (deliver ws) W.(sleepers))).
Proof.
  intros [Hh Hi Hn Hf Ha Hs Hl] Hfire Hloop.
  destruct (fire_due_eq t _ Hh) as (p & h2 & Eh & Hp & Hr & E). rewrite E in Hfire.
  simplify_eq. split; simpl; [by eapply well_formed_suffix| |done| | | |].
  - intros e He. apply Hi. rewrite Eh. set_solver.
  - intros [_ ?%Z.ltb_ge]%orb_false_iff. lia.
  - by apply ids_apart_deliver.
  - intros k s Hk. apply deliver_inv in Hk as (s0 & Hk & Es & Et & Hhas & Hmust & _).
    destruct (Hs _ _ Hk) as [Hid Hok]. split; rewrite Es; [auto|]. intros i Hsi. rewrite Et.
    destruct (Hok i Hsi) as (Hb & Hor). split; [done|].
    destruct Hor as [[Hin Hw]|[Hle Hm]].
    2:{ right. split; [lia|]. destruct Hm as [Hm| ->]; [|by right]. left.
        destruct (must_be_armed (phase_of s)); [|done]. destruct (Hmust eq_refl). congruence. }
    rewrite Eh in Hin. apply elem_of_app in Hin as [Hin|Hin].
    + right. split.
      * rewrite Forall_forall in Hp. specialize (Hp _ Hin). simpl in Hp. lia.
      * left. destruct (must_be_armed (phase_of s)); [|done]. destruct (Hmust eq_refl) as [_ Hni].
        destruct Hni. apply list_elem_of_omap. eexists. split; [exact Hin|exact Hw].
    + left. split; [done|]. simpl. rewrite foldr_delete_lookup, decide_False; [done|].
      intros Hip. destruct Hh as [_ Hnd]. rewrite Eh, fmap_app in Hnd.
      apply NoDup_app in Hnd as (_ & Hdis & _). apply (Hdis i Hip).
      apply list_elem_of_fmap. by eexists (_, _).
  - destruct Hloop as [[Hfree ->]| ->]; [|done]. apply loop_ok_deliver.
    eapply loop_ok_mono; [done|lia|done|congruence|].
    intros k s Hk [Hr' (i & Hi' & Hin)]. exists k, s. split_and!; [done| |done]. split; [done|].
    exists i. split; [done|]. rewrite Eh. apply elem_of_app. by right.
Qed.

Lemma loop_peek_eq t d :
  loop_peek t d =
    match d.(heap) with
    | [] => Some (WaitAtMost safety_net, d, [])
    | (dl, _) :: _ =>
        if dl <=? t then
          match fire_due t d with Some (_, d', ws) => Some (LoopAgain, d', ws) | None => None end
        else Some (WaitAtMost (match d.(clock) with Some _ => safety_net | None => dl - t end), d, [])
    end.
Proof.
  unfold loop_peek, is_paused, on_clock, zoom, clock_is_paused.
  destruct d as [[|[dl i] h] m n sd [v|]]; run_M; try done; destruct (dl <=? _); run_M; try done;
    destruct (fire_due _ _) as [[[[] ?] ?]|]; by rewrite ?app_nil_r.
Qed.

(** A step that touches neither the heap nor the wakers. *)
Lemma WInv_clock W d real l n :
  WInv W → d.(heap) = W.(driver).(heap) → d.(wakers) = W.(driver).(wakers) →
  d.(next_id) = W.(driver).(next_id) →
  loop_ok d real l W.(sleepers) →
  WInv (become W d real W.(fired) l n W.(sleepers)).
Proof.
  intros [Hh Hi Hn Hf Ha Hs Hl] Eh Ew En Hl'. split; simpl; try done; rewrite ?En; try done.
  - unfold well_formed. by rewrite Eh.
  - by rewrite Eh.
  - intros [_ ?%Z.ltb_ge]%orb_false_iff. lia.
  - intros k s Hk. eapply sleeper_ok_mono; [| | | |by eapply Hs]; [|lia|lia|auto].
    intros i _ [? ?]. split; by rewrite ?Eh, ?Ew.
Qed.

Lemma WInv_deliver W d t f l n ss ws :
  WInv (become W d t f l n ss) → WInv (become W d t f l n (map (deliver ws) ss)).
Proof.
  intros [Hh Hi Hn Hf Ha Hs Hl]. simpl in *. split; simpl; try done; [by apply ids_apart_deliver| |by apply loop_ok_deliver].
  intros k s Hk. apply deliver_inv in Hk as (s0 & Hk & ? & ? & ? & ? & _).
  eapply sleeper_ok_deliver; eauto.
Qed.

Lemma armed_push d e ws n s c dl i w :
  armed d dl i w → ws !! i = d.(wakers) !! i → armed (mkDriver (heap_push e d.(heap)) ws n s c) dl i w.
Proof. intros [Hin Hw] E. split; simpl; [rewrite heap_push_perm; set_solver|congruence]. Qed.

Lemma WInv_enlist W (k : nat) s b s' d ws :
  WInv W → W.(sleepers) !! k = Some (Some s) → s.(phase_of) = Polling b → lock_free W.(loop) = true →
  W.(driver).(next_id) + 1 < 2 ^ u64_bits →
  sleep_enlist s.(sleep_of) s.(task) W.(driver) = Some (s', d, ws) →
  WInv (become W d W.(real) W.(fired) W.(loop) W.(notifiers)
    (<[k := Some (mkSleeper s' s.(task)
              (match s.(sleep_of).(sleep_id) with None => Registering b | Some _ => Enlisted b end))]>
       W.(sleepers))).
Proof.
  intros HW Hk Hph Hfree Hlim Hop. pose proof HW as [[Hsort Hnd] Hi Hn Hf Ha Hs Hl].
  destruct (Hs _ _ Hk) as [_ Hok]. unfold sleep_enlist in Hop.
  destruct (sleep_id (sleep_of s)) as [i|] eqn:Eid.
  - unfold update_entry in Hop. run_M. simplify_eq. eapply WInv_insert; try done; simpl.
    + intros j dl w Hne _ [? ?]. split; simpl; [done|]. rewrite lookup_insert_ne; congruence.
    + intros y [= <-]. split; [|auto]. split; simpl; [by rewrite Eid|].
      intros j Hj. rewrite Eid in Hj. simplify_eq.
      destruct (Hok j eq_refl) as (? & Hor). split; [done|].
      destruct Hor as [[? ?]|[? Hm]].
      * left. split; simpl; [done|by rewrite lookup_insert_eq].
      * right. split; [done|]. rewrite Hph in Hm. by destruct b.
    + eapply loop_ok_insert; try done. intros y [= <-] [_ Hin]. split; [|done]. split; [by rewrite Hph|done].
  - unfold register_entry in Hop. run_M. rewrite Z.mod_small in Hop by lia. simplify_eq.
    eapply WInv_insert; try done; simpl.
    + split; simpl; [by apply heap_push_sorted|]. rewrite heap_push_perm. simpl. constructor; [|done].
      intros Hin. apply list_elem_of_fmap in Hin as (e & He & Hin). specialize (Hi _ Hin). simpl in *. lia.
    + intros e. rewrite heap_push_perm. intros [->|He]%elem_of_cons; simpl; [lia|].
      specialize (Hi _ He). lia.
    + lia.
    + intros j dl w _ Hj Harm. apply armed_push; [done|]. rewrite lookup_insert_ne; [done|lia].
    + intros y [= <-]. split.
      * split; simpl; [done|]. intros j [= <-]. split; [lia|]. left.
        split; simpl; [rewrite heap_push_perm; set_solver|by rewrite lookup_insert_eq].
      * simpl. intros j [= <-]. right. lia.
    + eapply loop_ok_insert; try done; simpl; [congruence| |].
      * intros j y Hj [Hr (i & Hyi & Hin)]. split; [done|]. exists i. split; [done|]. simpl in Hin.
        rewrite heap_push_perm in Hin. apply elem_of_cons in Hin as [E|?]; [|done]. simplify_eq.
        destruct (Hs _ _ Hj) as [_ Hy]. destruct (Hy _ Hyi). lia.
      * by intros y [= <-] [? _].
Qed.

Lemma WInv_cancel W (k : nat) s x d ws :
  WInv W → W.(sleepers) !! k = Some (Some s) →
  cancel_opt s.(sleep_of).(sleep_id) W.(driver) = Some (tt, d, ws) →
  (∀ y, x = Some y → y.(sleep_of).(sleep_id) = None ∧ has_id y.(phase_of) = false) →
  WInv (become W d W.(real) W.(fired) W.(loop) W.(notifiers) (<[k := x]> W.(sleepers))).
Proof.
  intros HW Hk Hop Hx. pose proof HW as [[Hsort Hnd] Hi Hn Hf Ha Hs Hl].
  assert (∀ y, x = Some y → ∀ d, sleeper_ok d W.(fired) W.(behind) y ∧ ∀ i, y.(sleep_of).(sleep_id) = Some i →
       s.(sleep_of).(sleep_id) = Some i ∨ W.(driver).(next_id) ≤ i) as Hxok.
  { intros y -> d0. destruct (Hx y eq_refl) as [E1 E2]. unfold sleeper_ok.
    rewrite E1, E2. done. }
  assert (∀ d0, d0.(heap) = W.(driver).(heap) → d0.(shutdown) = W.(driver).(shutdown) →
    loop_ok d0 W.(real) W.(loop) (<[k := x]> W.(sleepers))) as Hlok.
  { intros d0 Eh Esd. eapply loop_ok_insert; try done; [by rewrite Esd|unfold announced; by rewrite Eh|].
    intros y -> [_ (i & Hyi & _)]. destruct (Hx y eq_refl). congruence. }
  unfold cancel_opt, cancel in Hop. destruct (sleep_id (sleep_of s)) as [i|] eqn:Eid; run_M; simplify_eq.
  - eapply WInv_insert; try done; simpl; [| |by apply Hlok].
    + intros j dl w Hne _ [? ?]. split; simpl; [done|]. rewrite lookup_delete_ne; congruence.
    + intros y Hy. rewrite Eid. by apply Hxok.
  - eapply WInv_insert; try done; simpl; [|by apply Hlok]. intros y Hy. rewrite Eid. by apply Hxok.
Qed.

Lemma WInv_look W (k : nat) s e d ws :
  WInv W → W.(sleepers) !! k = Some (Some s) → s.(phase_of) = Idle ∨ s.(phase_of) = Parked →
  is_elapsed s.(sleep_of) W.(real) W.(driver) = Some (e, d, ws) →
  WInv (become W d W.(real) W.(fired) W.(loop) W.(notifiers)
    (<[k := Some (mkSleeper s.(sleep_of) s.(task) (if e then Elapsed_ else Polling false))]> W.(sleepers))).
Proof.
  intros HW Hk Hph Hop. pose proof HW as [Hh Hi Hn Hf Ha Hs Hl].
  unfold is_elapsed, now, on_clock, zoom, clock_now in Hop. run_M. simplify_eq.
  replace (mkDriver _ _ _ _ _) with (driver W) by (by destruct (driver W)).
  destruct (Hs _ _ Hk) as [Hid Hok]. eapply WInv_insert; try done.
  - intros y [= <-]. split; [|auto].
    split; simpl; [by destruct (_ <=? _)|]. intros i Hid'. destruct (Hok i Hid') as (? & Hor).
    split; [done|]. destruct Hor as [?|[? Hm]]; [by left|right]. split; [done|].
    destruct (behind W) eqn:Eb; [by right|left]. specialize (Hf eq_refl). unfold current in Hf.
    by destruct (Z.leb_spec (deadline (sleep_of s)) (match clock (driver W) with Some t => t | None => real W end)); [|lia].
  - eapply loop_ok_insert; try done. intros y [= <-] [_ Hin]. split; [|done]. split; [|done].
    by destruct Hph as [-> | ->].
Qed.

Lemma WInv_phase W (k : nat) s p l :
  WInv W → W.(sleepers) !! k = Some (Some s) →
  (has_id p = true → has_id s.(phase_of) = true) →
  (must_be_armed s.(phase_of) = false → must_be_armed p = false) →
  loop_ok W.(driver) W.(real) l (<[k := Some (mkSleeper s.(sleep_of) s.(task) p)]> W.(sleepers)) →
  WInv (become W W.(driver) W.(real) W.(fired) l W.(notifiers)
    (<[k := Some (mkSleeper s.(sleep_of) s.(task) p)]> W.(sleepers))).
Proof.
  intros HW Hk Hhas Hmust Hl'. pose proof HW as [Hh Hi Hn Hf Ha Hs Hl].
  destruct (Hs _ _ Hk) as [Hid Hok]. eapply WInv_insert; try done. intros y [= <-]. split; [|auto].
  split; simpl; [auto|]. intros i Hid'. destruct (Hok i Hid') as (? & Hor). split; [done|].
  destruct Hor as [?|[? Hm]]; [by left|right]. split; [done|]. tauto.
Qed.

Lemma WInv_peek W r x d ws :
  WInv W → W.(loop) = L_peek r → loop_peek r.(shown) W.(driver) = Some (x, d, ws) →
  WInv (become W d W.(real)
    (match x with LoopAgain => Z.max W.(fired) r.(shown) | _ => W.(fired) end)
    (match x with LoopAgain => L_top | WaitAtMost z => L_sleep r z | LoopExit => L_exit end)
    W.(notifiers) (map (deliver ws) W.(sleepers))).
Proof.
  intros HW El Hop. pose proof HW as [Hh Hi Hn Hf Ha Hs Hl]. rewrite El in Hl. simpl in Hl.
  rewrite loop_peek_eq in Hop. destruct (heap (driver W)) as [|[dl i] h] eqn:Eh.
  { simplify_eq. apply WInv_deliver, WInv_clock; try done. simpl. split; [done|].
    rewrite Eh. intros e He%not_elem_of_nil. done. }
  destruct (Z.leb_spec dl (shown r)) as [Hdl|Hdl].
  - destruct (fire_due _ _) as [[[[] d1] ws1]|] eqn:E; simplify_eq. apply WInv_fire; [done|done|by right].
  - simplify_eq. apply WInv_deliver, WInv_clock; try done. simpl. split; [done|].
    rewrite Eh. intros e He. assert (dl ≤ e.1) as Hle.
    { destruct Hh as [Hsort _]. rewrite Eh in Hsort. apply elem_of_cons in He as [->|He]; [simpl; lia|].
      apply StronglySorted_inv in Hsort as [_ Hall]. rewrite Forall_forall in Hall.
      specialize (Hall _ He). unfold entry_le in Hall; simpl in Hall. lia. }
    unfold in_time, safety_net. destruct (clock (driver W)); lia.
Qed.

Lemma timer_WInv_step W W' : WInv W → wstep W W' → WInv W'.
Proof.
  intros HW Hst. pose proof HW as [Hh Hi Hn Hf Ha Hs Hl].
  destruct Hst as [W t Ht|W dl w|W k s e d ws Hk Hph Hop|W k s b s' d ws Hk Hph Hfree Hlim Hop
    |W k s b Hk Hph|W k s b d ws Hk Hph Hop|W k s dl s' d ws Hk Hq Hfree Hop|W k s d ws Hk Hq Hfree Hop
    |W El|W t p d d' ws ws' El Hop Hop'|W r x d ws El Hop|W r z El|W r from until El
    |W t d ws Hfree Hop|W t d ws Hop|W d ws Hop|W d ws Hop|W d ws Hop|W n En].
  - apply WInv_clock; try done; by eapply loop_ok_same.
  - split; simpl; try done.
    + intros [_ ?%Z.ltb_ge]%orb_false_iff. lia.
    + intros j k a b i Hj Hk Hia Hib.
      apply lookup_snoc_inv in Hj as [Hj|Hj]; apply lookup_snoc_inv in Hk as [Hk|Hk]; simplify_eq/=.
      by eapply Ha.
    + intros k s [Hk|Hk]%lookup_snoc_inv; [|by simplify_eq].
      specialize (Hs _ _ Hk). eapply sleeper_ok_mono with (5:=Hs); auto with lia.
    + eapply loop_ok_mono; [done|lia|done|done|]. intros k s [Hk|Hk]%lookup_snoc_inv Hann; [by exists k, s|].
      simplify_eq. destruct Hann as [_ (i & ? & _)]. done.
  - by eapply WInv_look.
  - by eapply WInv_enlist.
  - eapply WInv_phase; try done; [by rewrite Hph..|by eapply loop_ok_notified].
  - assert (d = driver W) as -> by (unfold wake_if_shutdown in Hop; run_M;
      destruct (shutdown (driver W)); run_M; by simplify_eq).
    apply WInv_deliver. eapply WInv_phase; try done; [by rewrite Hph|rewrite Hph; by destruct b|].
    eapply loop_ok_insert; try done. intros y [= <-] [_ Hin]. split; [|done]. split; [by rewrite Hph|done].
  - unfold sleep_reset in Hop. unfold bind in Hop at 1.
    destruct (cancel_opt _ _) as [[[[] d1] ws1]|] eqn:E; [|done]. unfold ret in Hop. simplify_eq.
    eapply WInv_cancel; try done. by intros ? [= <-].
  - eapply WInv_cancel; try done.
  - apply WInv_clock; try done. by destruct (shutdown (driver W)) eqn:?.
  - unfold now, is_paused, on_clock, zoom, clock_now, clock_is_paused in *. run_M. simplify_eq.
    apply WInv_clock; try done. simpl. split; simpl; [lia|]. by destruct (clock (driver W)).
  - by eapply WInv_peek.
  - apply WInv_clock; try done. rewrite El in Hl. simpl in *. destruct Hl as [? Hz]. split_and!; [done|lia|].
    intros k s _ [_ (i & _ & Hin)]. replace (real W + z - real W) with z by lia. apply (Hz _ Hin).
  - apply WInv_clock; done.
  - apply WInv_fire; [done..|]. by left.
  - unfold on_clock, zoom, clock_set in Hop. run_M. destruct (bool_decide _); run_M; [|done].
    simplify_eq. apply WInv_clock; try done; by eapply loop_ok_same.
  - unfold pause, on_clock, zoom, clock_pause in Hop. run_M.
    destruct (clock (driver W)) eqn:E; run_M; [done|]. simplify_eq.
    apply WInv_clock; try done; by eapply loop_ok_same.
  - unfold resume, on_clock, zoom, clock_resume in Hop. run_M. destruct (bool_decide _); run_M; [|done].
    simplify_eq. apply WInv_clock; try done; by eapply loop_ok_same.
  - unfold shutdown_store in Hop. run_M. simplify_eq. apply WInv_clock; try done; by eapply loop_ok_same.
  - apply WInv_clock; try done. by eapply loop_ok_notified.
Qed.

Lemma timer_invariant W : timer_reachable W → WInv W.
Proof.
  revert W. apply invariant_reachable; [|eauto using timer_WInv_step].
  intros ? (t & ->). split; simpl; try done.
  - split; constructor.
  - set_solver.
Qed.

(** Firing at or after the deadline of an armed sleep wakes its task. *)
Lemma armed_fires d dl i w t :
  well_formed d → armed d dl i w → dl ≤ t → ∃ d' ws, fire_due t d = Some (tt, d', ws) ∧ w ∈ ws.
Proof.
  intros Hh [Hin Hw] Ht. destruct (fire_due_eq t _ Hh) as (p & h2 & Eh & _ & Hr & E).
  do 2 eexists. split; [exact E|]. apply list_elem_of_omap. exists (dl, i). split; [|exact Hw].
  rewrite Eh in Hin. apply elem_of_app in Hin as [Hin|Hin]; [done|].
  rewrite Forall_forall in Hr. specialize (Hr _ Hin). simpl in Hr. lia.
Qed.

(** C10: a parked sleep is fired in time.  However sleeps are created, polled,
    reset and dropped, the clock paused, set by any number of [advance]s and
    resumed, and the driver's thread run and waited: a sleep that answered
    [Pending] and was not woken since is woken by every firing at or after its
    deadline; and until the driver is shut down its thread is on the way to
    such a firing: it has yet to look at the heap, or it holds the lock and will
    fire this sleep if the time it read is up, or it waits, and then no longer
    than from what it read off the clock to the deadline, or 200 ms, because
    every registration has notified it since.

    The one exception is a sleep the driver has fired already and whose task
    polled it at a clock that had been turned back behind that: the sleep is
    forgotten (timer_resume_forgets).  So the theorem is about sleeps whose
    deadline is later than all that was fired for, and about all sleeps as long
    as the clock has never been behind. *)
Theorem timer_not_forgotten W (k : nat) s :
  timer_reachable W → W.(sleepers) !! k = Some (Some s) → s.(phase_of) = Parked →
  W.(behind) = false ∨ W.(fired) < s.(sleep_of).(deadline) →
  (∀ t, s.(sleep_of).(deadline) ≤ t →
     ∃ d ws, fire_due t W.(driver) = Some (tt, d, ws) ∧ s.(task) ∈ ws) ∧
  match W.(loop) with
  | L_top | L_lock => True
  | L_peek r => reading_ok W.(real) r ∧
      (s.(sleep_of).(deadline) ≤ r.(shown) →
       ∃ d ws, loop_peek r.(shown) W.(driver) = Some (LoopAgain, d, ws) ∧ s.(task) ∈ ws)
  | L_sleep r z => reading_ok W.(real) r ∧ in_time r z s.(sleep_of).(deadline)
  | L_wait r from until => reading_ok from r ∧ from ≤ W.(real) ∧
      in_time r (until - from) s.(sleep_of).(deadline)
  | L_exit => W.(driver).(shutdown) = true
  end.
Proof.
  intros HW Hk Hp Hb. destruct (timer_invariant _ HW) as [Hh Hi Hn Hf Ha Hs Hl].
  destruct (Hs _ _ Hk) as [Hid Hok]. rewrite Hp in Hid. destruct (Hid eq_refl) as [i Hsi].
  destruct (Hok i Hsi) as (_ & [Harm|[Hle Hm]]).
  2:{ exfalso. rewrite Hp in Hm. destruct Hb, Hm; first [discriminate|congruence|lia]. }
  split; [intros t; by eapply armed_fires|]. destruct (loop W) as [| |r|r z|r from until|]; try done; simpl in Hl.
  - split; [done|]. intros Ht. rewrite loop_peek_eq.
    destruct (armed_fires _ _ _ _ _ Hh Harm Ht) as (d & ws & E & Hin).
    destruct Harm as [Hheap _]. destruct (heap (driver W)) as [|[dl i0] h] eqn:Eh; [by apply not_elem_of_nil in Hheap|].
    assert (dl ≤ deadline (sleep_of s)) as Hdl.
    { destruct Hh as [Hsort _]. rewrite Eh in Hsort. apply elem_of_cons in Hheap as [?|Hheap]; [simplify_eq; lia|].
      apply StronglySorted_inv in Hsort as [_ Hall]. rewrite Forall_forall in Hall.
      specialize (Hall _ Hheap). unfold entry_le in Hall; simpl in Hall. lia. }
    destruct (Z.leb_spec dl (shown r)); [|lia]. rewrite E. by do 2 eexists.
  - destruct Hl as [? Hz]. split; [done|]. by apply (Hz _ (proj1 Harm)).
  - destruct Hl as (? & ? & Hz). split_and!; [done..|]. eapply Hz; [exact Hk|]. split; [by rewrite Hp|].
    exists i. split; [done|apply Harm].
Qed.

(** Two tasks sleep; the second sleep is due first, and the thread, which was
    waiting for the other, is notified of it and waits anew. *)
Definition timer_demo : world :=
  mkWorld (mkDriver [(10, 1); (50, 0)] {[ 1 := 7%nat; 0 := 6%nat ]} 2 false None) 3 3 false
    (L_wait (mkReading 3 3 false) 3 10) 0
    [Some (mkSleeper (mkSleep 50 (Some 0)) 6%nat Parked); Some (mkSleeper (mkSleep 10 (Some 1)) 7%nat Parked)].

Tactic Notation "tstep" open_constr(c) :=
  eapply rtc_l; [eapply c; simpl; try reflexivity; try done|]; simpl.

Lemma timer_demo_reachable : timer_reachable timer_demo.
Proof.
  exists (mkWorld driver_new 3 3 false L_top 0 []). split; [by exists 3|].
  tstep (w_new _ 50 6%nat).
  tstep (w_look _ 0%nat _ _ _ []); [by left|].
  tstep (w_enlist _ 0%nat _ false _ _ []).
  tstep (w_notify_one _ 0%nat _ false).
  tstep (w_park _ 0%nat _ false _ []).
  tstep w_loop_shutdown.
  tstep w_loop_now.
  tstep w_loop_peek.
  tstep w_loop_sleep.
  tstep (w_new _ 10 7%nat).
  tstep (w_look _ 1%nat _ _ _ []); [by left|].
  tstep (w_enlist _ 1%nat _ false _ _ []).
  tstep (w_notify_one _ 1%nat _ false).
  tstep (w_park _ 1%nat _ false _ []).
  tstep w_loop_shutdown.
  tstep w_loop_now.
  tstep w_loop_peek.
  tstep w_loop_sleep.
  apply rtc_refl.
Qed.

Lemma timer_not_forgotten_witness :
  timer_reachable timer_demo ∧
  (∃ d ws, fire_due 12 (driver timer_demo) = Some (tt, d, ws) ∧ 7%nat ∈ ws) ∧
  in_time (mkReading 3 3 false) (10 - 3) 10.
Proof.
  split; [exact timer_demo_reachable|].
  destruct (timer_not_forgotten timer_demo 1%nat _ timer_demo_reachable eq_refl eq_refl (or_introl eq_refl))
    as [Hf (_ & _ & Ht)].
  split; [apply Hf; discriminate|exact Ht].
Defined.

(** Two flaws of the waits.  The store of [shutdown] and its notification are
    not made under the lock: coming between the thread's look at [shutdown] and
    its wait, they are lost, and the thread, which [shutdown] then joins, waits
    for the deadline of whatever sleep there is, be it an hour. *)
Theorem timer_shutdown_missed :
  ∃ W from, timer_reachable W ∧ W.(driver).(shutdown) = true ∧ W.(notifiers) = 0%nat ∧
    W.(loop) = L_wait (mkReading 0 0 false) from (from + 3600 * 10 ^ 9).
Proof.
  eexists _, 0. split; [exists (mkWorld driver_new 0 0 false L_top 0 []); split; [by exists 0|]|].
  - tstep (w_new _ (3600 * 10 ^ 9) 7%nat).
    tstep (w_look _ 0%nat _ _ _ []); [by left|].
    tstep (w_enlist _ 0%nat _ false _ _ []).
    tstep (w_notify_one _ 0%nat _ false).
    tstep (w_park _ 0%nat _ false _ []).
    tstep w_loop_shutdown.
    tstep (w_shutdown _ _ []).
    tstep w_notify_all.
    tstep w_loop_now.
    tstep w_loop_peek.
    tstep w_loop_sleep.
    apply rtc_refl.
  - done.
Qed.

(** The thread asks for the time and whether the clock is paused one after the
    other.  With a [resume] in between it takes the virtual time for the real
    one: here the sleep has been overdue for an hour of real time when the
    thread lies down for another half. *)
Theorem timer_resume_missed :
  ∃ W s, timer_reachable W ∧ W.(driver).(clock) = None ∧ W.(real) = 3600 * 10 ^ 9 ∧ W.(notifiers) = 0%nat ∧
    W.(sleepers) = [Some s] ∧ s.(phase_of) = Parked ∧ s.(sleep_of).(deadline) = 1800 * 10 ^ 9 ∧
    W.(loop) = L_wait (mkReading 0 (3600 * 10 ^ 9) true) (3600 * 10 ^ 9) (5400 * 10 ^ 9).
Proof.
  eexists _, _. split; [exists (mkWorld driver_new 0 0 false L_top 0 []); split; [by exists 0|]|].
  - tstep (w_new _ (1800 * 10 ^ 9) 7%nat).
    tstep (w_look _ 0%nat _ _ _ []); [by left|].
    tstep (w_enlist _ 0%nat _ false _ _ []).
    tstep (w_notify_one _ 0%nat _ false).
    tstep (w_park _ 0%nat _ false _ []).
    tstep (w_pause _ _ []).
    tstep w_notify_all.
    tstep (w_time _ (3600 * 10 ^ 9)).
    tstep w_loop_shutdown.
    tstep w_loop_now.
    tstep (w_resume _ _ []).
    tstep w_notify_all.
    tstep w_loop_peek.
    tstep w_loop_sleep.
    apply rtc_refl.
  - done.
Qed.

Lemma advance_exact_witness :
  let d := mkDriver [(10, 1); (20, 0); (90, 2)] {[ 0 := 7%nat; 1 := 8%nat; 2 := 9%nat ]} 3 false (Some 5) in
  well_formed d ∧
  ∃ rest ws' woken, Forall (λ e, 50 < e.1) rest ∧
    advance_loop 4 50 d = Some (true, mkDriver rest ws' 3 false (Some 50), woken) ∧
    woken = [8%nat; 7%nat].
Proof.
  intros d. assert (well_formed d) as Hw.
  { split; [|by apply (bool_decide_unpack _)].
    repeat constructor; unfold entry_le; simpl; lia. }
  split; [exact Hw|].
  destruct (advance_exact d 5 50 Hw eq_refl) as (due & rest & ws' & Hh & Hd & Hr & E).
  exists rest, ws', (omap (λ e, wakers d !! e.2) due). split; [exact Hr|]. split; [exact E|].
  assert (option_map snd (advance_loop 4 50 d) = Some [8%nat; 7%nat]) as Ec by reflexivity.
  change (advance_loop 4 50 d = Some (true, mkDriver rest ws' 3 false (Some 50),
    omap (λ e, wakers d !! e.2) due)) in E.
  rewrite E in Ec. by injection Ec.
Defined.

Lemma interval_schedule_witness :
  let i := mkInterval 10 100 None Skip in
  interval_ok i ∧
  ∃ d ws, poll_ticks i [(99, 1%nat); (100, 1%nat); (135, 1%nat); (136, 1%nat)] driver_new =
    Some ([Pending; Ready 100; Ready 110; Pending], d, ws).
Proof.
  intros i. assert (interval_ok i) as Hok by (split; [done|by intros ?]). split; [exact Hok|].
  destruct (interval_schedule i [(99, 1%nat); (100, 1%nat); (135, 1%nat); (136, 1%nat)] driver_new Hok)
    as [(d & ws & E) _]; [by repeat constructor|]. exists d, ws. exact E.
Defined.

(** A clock turned back behind a timer that has fired loses it.  The sleep
    due at 10 fires when the paused clock is advanced to 10; the clock is
    resumed at real time 1 before its task polls it; the task's next poll
    answers [Pending], its entry is gone from the heap, and the driver never
    fires again. *)
Theorem timer_resume_forgets :
  ∃ d1 d2 d3 d4 d5 s,
    pause 0 driver_new = Some (tt, d1, []) ∧
    sleep_poll (sleep_until 10) 0 7%nat d1 = Some ((Pending, s), d2, []) ∧
    advance_loop 2 10 d2 = Some (true, d3, [7%nat]) ∧
    resume d3 = Some (tt, d4, []) ∧
    sleep_poll s 1 7%nat d4 = Some ((Pending, s), d5, []) ∧
    ∀ real, event_loop_step real d5 = Some (WaitAtMost (200 * 10 ^ 6), d5, []).
Proof. do 6 eexists. repeat (split; [reflexivity|]). done. Qed.
