(* ===== verification/AsyncIo.v ===== *)
(** The I/O traits and what is built on them ([src/src/io/async_io.rs]).

    [AsyncRead] and [AsyncWrite] are type classes of operations; [LawfulRead]
    and [LawfulWrite] are what their implementations promise: a reader carries
    the [stream] of bytes it has still to give and a writer the [sink] of bytes
    it has accepted.  The adaptors ([Chain], [Take]) are shown to keep the
    promise, and the copying loops to depend on nothing else.  A byte is a [Z];
    a loop inside a poll takes the fuel its caller gives and panics without
    it, so that a theorem that it returns covers its termination. *)

From S2P Require Import Prelude.

Abbreviation byte := Z (only parsing).

Inductive io_error :=
  UnexpectedEof | WriteZero | InvalidData | InvalidInput | BrokenPipe | AlreadyExists | NotFound | Other
| OsError (code : Z).

#[export] Instance io_error_eq_dec : EqDecision io_error.
Proof. solve_decision. Defined.

Definition blen (l : list byte) : Z := Z.of_nat (length l).
(** The slices [l[..n]], [l[n..]]. *)
Definition upto (n : Z) (l : list byte) : list byte := take (Z.to_nat n) l.
Definition from (n : Z) (l : list byte) : list byte := drop (Z.to_nat n) l.

(** ** [ReadBuf] *)

Record ReadBuf := mkReadBuf { buf : list byte; filled : Z }.

Definition read_buf_new (b : list byte) : ReadBuf := mkReadBuf b 0.
Definition filled_bytes (b : ReadBuf) : list byte := upto b.(filled) b.(buf).
Definition unfilled (b : ReadBuf) : list byte := from b.(filled) b.(buf).
Definition remaining (b : ReadBuf) : Z := blen b.(buf) - b.(filled).
Definition capacity (b : ReadBuf) : Z := blen b.(buf).

(** [advance]: [None] is the panic of the assertion, or of the addition. *)
Definition advance `{BuildProfile} (n : Z) (b : ReadBuf) : option ReadBuf :=
  match uadd usize_bits b.(filled) n with
  | Some f => if f <=? blen b.(buf) then Some (mkReadBuf b.(buf) f) else None
  | None => None
  end.

(** Writing [data] at the start of [unfilled_mut], without advancing. *)
Definition write_unfilled (data : list byte) (b : ReadBuf) : ReadBuf :=
  mkReadBuf (filled_bytes b ++ data ++ drop (length data) (unfilled b)) b.(filled).

(** Slices are at most [isize::MAX] long. *)
Definition buf_ok (b : ReadBuf) : Prop :=
  0 ≤ b.(filled) ≤ blen b.(buf) ∧ blen b.(buf) < 2 ^ (usize_bits - 1).

(** ** The traits *)

Class AsyncRead (R : Type) :=
  poll_read : waker → ReadBuf → M R (poll (result unit io_error) * ReadBuf).

Class AsyncWrite (W : Type) := {
  poll_write : waker → list byte → M W (poll (result Z io_error));
  poll_flush : waker → M W (poll (result unit io_error));
  poll_shutdown : waker → M W (poll (result unit io_error));
}.

(** The default [poll_write_vectored]: the first buffer that is not empty. *)
Definition poll_write_vectored `{AsyncWrite W} (cx : waker) (bufs : list (list byte))
    : M W (poll (result Z io_error)) :=
  poll_write cx (match filter (λ b, b ≠ []) bufs with b :: _ => b | [] => [] end).

(** A poll with room in the buffer never panics; it appends to what is filled
    a prefix of the stream, nothing at the end of the stream only, and leaves
    stream and filled part alone when it fails or has to wait. *)
Class LawfulRead (R : Type) `{AsyncRead R} := {
  stream : R → list byte;
  read_ok : R → Prop;
  read_law : ∀ cx b r, read_ok r → buf_ok b → 0 < remaining b →
    ∃ p b' r' ws, poll_read cx b r = Some ((p, b'), r', ws) ∧
      read_ok r' ∧ buf_ok b' ∧ length b'.(buf) = length b.(buf) ∧
      match p with
      | Ready (Ok _) => ∃ chunk, stream r = chunk ++ stream r' ∧
          filled_bytes b' = filled_bytes b ++ chunk ∧ (chunk = [] → stream r = [])
      | _ => stream r' = stream r ∧ filled_bytes b' = filled_bytes b
      end;
}.

(** A write of some bytes (a slice) accepts a prefix of them, or none when it fails or
    has to wait; flushing and shutting down change nothing that was accepted. *)
Class LawfulWrite (W : Type) `{AsyncWrite W} := {
  sink : W → list byte;
  write_ok : W → Prop;
  write_law : ∀ cx data w, write_ok w → data ≠ [] → blen data < 2 ^ (usize_bits - 1) →
    ∃ p w' ws, poll_write cx data w = Some (p, w', ws) ∧ write_ok w' ∧
      match p with
      | Ready (Ok n) => 0 ≤ n ≤ blen data ∧ sink w' = sink w ++ upto n data
      | _ => sink w' = sink w
      end;
  flush_law : ∀ cx w, write_ok w →
    ∃ p w' ws, poll_flush cx w = Some (p, w', ws) ∧ write_ok w' ∧ sink w' = sink w;
  shutdown_law : ∀ cx w, write_ok w →
    ∃ p w' ws, poll_shutdown cx w = Some (p, w', ws) ∧ write_ok w' ∧ sink w' = sink w;
}.

(** ** [AsyncReadExt] *)

(** One poll of [read]: how many bytes, and the caller's slice afterwards. *)
Definition read `{AsyncRead R} (cx : waker) (dst : list byte)
    : M R (poll (result Z io_error) * list byte) :=
  let! r := poll_read cx (read_buf_new dst) in
  match r with
  | (Ready (Ok _), b) => ret (Ready (Ok (blen (filled_bytes b))), b.(buf))
  | (Ready (Err e), b) => ret (Ready (Err e), b.(buf))
  | (Pending, b) => ret (Pending, b.(buf))
  end.

(** One poll of [read_exact], which remembers how much of [dst] it has filled. *)
Fixpoint read_exact `{AsyncRead R} (fuel : nat) (cx : waker) (dst : list byte) (done : Z)
    : M R (poll (result unit io_error) * (list byte * Z)) :=
  match from done dst with
  | [] => ret (Ready (Ok tt), (dst, done))
  | rest =>
      match fuel with
      | O => panic
      | S fuel =>
          let! r := read cx rest in
          match r with
          | (Ready (Ok n), rest') =>
              let dst' := upto done dst ++ rest' in
              if n =? 0 then ret (Ready (Err UnexpectedEof), (dst', done))
              else read_exact fuel cx dst' (done + n)
          | (Ready (Err e), rest') => ret (Ready (Err e), (upto done dst ++ rest', done))
          | (Pending, rest') => ret (Pending, (upto done dst ++ rest', done))
          end
      end
  end.

(** One poll of [read_to_end], which remembers its [chunk] of 8192 bytes and
    what [vec] has received. *)
Fixpoint read_to_end `{AsyncRead R} (fuel : nat) (cx : waker) (start_len : Z)
    (chunk vec : list byte) : M R (poll (result Z io_error) * (list byte * list byte)) :=
  match fuel with
  | O => panic
  | S fuel =>
      let! r := read cx chunk in
      match r with
      | (Ready (Ok n), chunk') =>
          if n =? 0 then ret (Ready (Ok (blen vec - start_len)), (chunk', vec))
          else read_to_end fuel cx start_len chunk' (vec ++ upto n chunk')
      | (Ready (Err e), chunk') => ret (Ready (Err e), (chunk', vec))
      | (Pending, chunk') => ret (Pending, (chunk', vec))
      end
  end.

(** ** [AsyncWriteExt] *)

Definition write `{AsyncWrite W} (cx : waker) (src : list byte) : M W (poll (result Z io_error)) :=
  poll_write cx src.

(** One poll of [write_all], on what is left of its slice; [None] is the panic
    of [&buf[n..]]. *)
Fixpoint write_all `{AsyncWrite W} (fuel : nat) (cx : waker) (src : list byte)
    : M W (poll (result unit io_error) * list byte) :=
  match src with
  | [] => ret (Ready (Ok tt), [])
  | _ =>
      match fuel with
      | O => panic
      | S fuel =>
          let! r := write cx src in
          match r with
          | Ready (Ok n) =>
              if n =? 0 then ret (Ready (Err WriteZero), src)
              else if blen src <? n then panic
              else write_all fuel cx (from n src)
          | Ready (Err e) => ret (Ready (Err e), src)
          | Pending => ret (Pending, src)
          end
      end
  end.

(** ** Integers

    [to_le_bytes], [from_le_bytes] and their big-endian twins of the standard
    library on [w] bytes; [as i8] and the like reinterpret the bits. *)

Fixpoint to_le_bytes (w : nat) (n : Z) : list byte :=
  match w with O => [] | S w => n `mod` 256 :: to_le_bytes w (n / 256) end.
Fixpoint from_le_bytes (l : list byte) : Z :=
  match l with [] => 0 | b :: l => b + 256 * from_le_bytes l end.
Definition to_be_bytes (w : nat) (n : Z) : list byte := rev (to_le_bytes w n).
Definition from_be_bytes (l : list byte) : Z := from_le_bytes (rev l).

Definition bits (w : nat) : Z := 8 * Z.of_nat w.
Definition as_signed (w : nat) (n : Z) : Z :=
  if n <? 2 ^ (bits w - 1) then n else n - 2 ^ bits w.

Inductive endian := BigEndian | LittleEndian.
Record int_type := mkInt { size_of : nat; signed : bool }.

Definition in_int (t : int_type) (n : Z) : Prop :=
  if t.(signed) then - 2 ^ (bits t.(size_of) - 1) ≤ n < 2 ^ (bits t.(size_of) - 1)
  else 0 ≤ n < 2 ^ bits t.(size_of).

Definition to_bytes (e : endian) (t : int_type) (n : Z) : list byte :=
  match e with
  | BigEndian => to_be_bytes t.(size_of) n
  | LittleEndian => to_le_bytes t.(size_of) n
  end.
Definition from_bytes (e : endian) (t : int_type) (l : list byte) : Z :=
  let n := match e with BigEndian => from_be_bytes l | LittleEndian => from_le_bytes l end in
  if t.(signed) then as_signed t.(size_of) n else n.

(** One poll of the methods [read_int_method] and [write_int_method] make, and
    of [read_u8], [read_i8], [write_u8], [write_i8]. *)
Definition read_int_start (t : int_type) : list byte * Z := (repeat 0 t.(size_of), 0).
Definition read_int `{AsyncRead R} (e : endian) (t : int_type) (cx : waker) (st : list byte * Z)
    : M R (poll (result Z io_error) * (list byte * Z)) :=
  let! r := read_exact t.(size_of) cx st.1 st.2 in
  match r with
  | (Ready (Ok _), st') => ret (Ready (Ok (from_bytes e t st'.1)), st')
  | (Ready (Err err), st') => ret (Ready (Err err), st')
  | (Pending, st') => ret (Pending, st')
  end.
Definition write_int_start (e : endian) (t : int_type) (n : Z) : list byte := to_bytes e t n.
Definition write_int `{AsyncWrite W} (t : int_type) (cx : waker) (st : list byte)
    : M W (poll (result unit io_error) * list byte) :=
  write_all t.(size_of) cx st.

(** ** [Chain] and [Take] *)

Record Chain (A B : Type) := mkChain { first : A; second : B; first_done : bool }.
Arguments mkChain {A B} first second first_done.
Arguments first {A B} c.
Arguments second {A B} c.
Arguments first_done {A B} c.

Definition in_first {A B X} (m : M A X) : M (Chain A B) X :=
  zoom first (λ a c, mkChain a c.(second) c.(first_done)) m.
Definition in_second {A B X} (m : M B X) : M (Chain A B) X :=
  zoom second (λ b c, mkChain c.(first) b c.(first_done)) m.

Definition chain_poll_read `{AsyncRead A} `{AsyncRead B} (cx : waker) (b : ReadBuf)
    : M (Chain A B) (poll (result unit io_error) * ReadBuf) :=
  let! c := get in
  if c.(first_done) : bool then in_second (poll_read cx b)
  else
    let before := blen (filled_bytes b) in
    let! r := in_first (poll_read cx b) in
    match r with
    | (Ready (Ok _), b') =>
        if blen (filled_bytes b') =? before then
          let! c := get in
          put (mkChain c.(first) c.(second) true) ;!
          in_second (poll_read cx b')
        else ret (Ready (Ok tt), b')
    | other => ret other
    end.
#[export] Instance chain_read `{AsyncRead A} `{AsyncRead B} : AsyncRead (Chain A B) := chain_poll_read.

Record Take (R : Type) := mkTake { take_inner : R; limit : Z }.
Arguments mkTake {R} take_inner limit.
Arguments take_inner {R} t.
Arguments limit {R} t.

Definition take_poll_read `{BuildProfile} `{AsyncRead R} (cx : waker) (b : ReadBuf)
    : M (Take R) (poll (result unit io_error) * ReadBuf) :=
  let! t := get in
  if t.(limit) =? 0 then ret (Ready (Ok tt), b)
  else
    let max := Z.min t.(limit) (remaining b) in
    let! r := zoom take_inner (λ i t, mkTake i t.(limit))
                (poll_read cx (read_buf_new (upto max (unfilled b)))) in
    let '(result, limited) := r in
    let n := blen (filled_bytes limited) in
    let! b' := lift (advance n (write_unfilled limited.(buf) b)) in
    let! l := lift (usub u64_bits t.(limit) n) in
    let! t' := get in
    put (mkTake t'.(take_inner) l) ;!
    ret (result, b').
#[export] Instance take_read `{BuildProfile} `{AsyncRead R} : AsyncRead (Take R) := take_poll_read.

(** ** Copying *)

(** A reader and a writer side by side. *)
Definition in_reader {R W X} (m : M R X) : M (R * W) X := zoom fst (λ r s, (r, s.2)) m.
Definition in_writer {R W X} (m : M W X) : M (R * W) X := zoom snd (λ w s, (s.1, w)) m.

Record CopyBuffer := mkCopy {
  read_done : bool; pos : Z; cap : Z; amt : Z; cbuf : list byte;
}.

Definition with_capacity (capacity : nat) : CopyBuffer := mkCopy false 0 0 0 (repeat 0 capacity).

Section copying.
Context {R W : Type} `{AsyncRead R} `{AsyncWrite W} `{BuildProfile}.

(** The inner [while] of [poll_copy]: [None] when the buffer is drained. *)
Fixpoint copy_drain (fuel : nat) (cx : waker) (c : CopyBuffer)
    : M (R * W) (option (poll (result Z io_error)) * CopyBuffer) :=
  if c.(pos) <? c.(cap) then
    match fuel with
    | O => panic
    | S fuel =>
        let! r := in_writer (poll_write cx (from c.(pos) (upto c.(cap) c.(cbuf)))) in
        match r with
        | Ready (Ok n) =>
            if n =? 0 then ret (Some (Ready (Err WriteZero)), c)
            else
              let! pos := lift (uadd usize_bits c.(pos) n) in
              let! amt := lift (uadd u64_bits c.(amt) n) in
              copy_drain fuel cx (mkCopy c.(read_done) pos c.(cap) amt c.(cbuf))
        | Ready (Err e) => ret (Some (Ready (Err e)), c)
        | Pending => ret (Some Pending, c)
        end
    end
  else ret (None, c).

(** The refill at the head of its [loop]. *)
Definition copy_fill (cx : waker) (c : CopyBuffer)
    : M (R * W) (option (poll (result Z io_error)) * CopyBuffer) :=
  if (c.(pos) =? c.(cap)) && negb c.(read_done) then
    let! r := in_reader (poll_read cx (read_buf_new c.(cbuf))) in
    match r with
    | (Ready (Ok _), b) =>
        let n := blen (filled_bytes b) in
        if n =? 0 then ret (None, mkCopy true c.(pos) c.(cap) c.(amt) b.(buf))
        else ret (None, mkCopy c.(read_done) 0 n c.(amt) b.(buf))
    | (Ready (Err e), b) => ret (Some (Ready (Err e)), mkCopy c.(read_done) c.(pos) c.(cap) c.(amt) b.(buf))
    | (Pending, b) => ret (Some Pending, mkCopy c.(read_done) c.(pos) c.(cap) c.(amt) b.(buf))
    end
  else ret (None, c).

Fixpoint poll_copy (fuel : nat) (cx : waker) (c : CopyBuffer)
    : M (R * W) (poll (result Z io_error) * CopyBuffer) :=
  match fuel with
  | O => panic
  | S fuel =>
      let! f := copy_fill cx c in
      match f with
      | (Some r, c1) => ret (r, c1)
      | (None, c1) =>
          let! d := copy_drain (Z.to_nat (c1.(cap) - c1.(pos))) cx c1 in
          match d with
          | (Some r, c2) => ret (r, c2)
          | (None, c2) =>
              if (c2.(pos) =? c2.(cap)) && c2.(read_done) then
                let! s := in_writer (poll_shutdown cx) in
                match s with
                | Ready (Ok _) => ret (Ready (Ok c2.(amt)), c2)
                | Ready (Err e) => ret (Ready (Err e), c2)
                | Pending => ret (Pending, c2)
                end
              else poll_copy fuel cx c2
          end
      end
  end.

Inductive TransferState := TRunning (c : CopyBuffer) | TDone (amt : Z).

Definition transfer_poll (fuel : nat) (cx : waker) (t : TransferState)
    : M (R * W) (poll (result Z io_error) * TransferState) :=
  match t with
  | TRunning c =>
      let! r := poll_copy fuel cx c in
      match r with
      | (Ready (Ok amt), _) => ret (Ready (Ok amt), TDone amt)
      | (other, c') => ret (other, TRunning c')
      end
  | TDone amt => ret (Ready (Ok amt), t)
  end.
End copying.

(** One poll of [copy_bidirectional]: both directions, whatever woke it. *)
Definition swap_sides {A B X} (m : M (B * A) X) : M (A * B) X :=
  zoom (λ s, (s.2, s.1)) (λ t _, (t.2, t.1)) m.

Definition copy_bidirectional `{AsyncRead A} `{AsyncWrite A} `{AsyncRead B} `{AsyncWrite B}
    `{BuildProfile} (fuel : nat) (cx : waker) (st : TransferState * TransferState)
    : M (A * B) (poll (result (Z * Z) io_error) * (TransferState * TransferState)) :=
  let! ab := transfer_poll (R:=A) (W:=B) fuel cx st.1 in
  let! ba := swap_sides (transfer_poll (R:=B) (W:=A) fuel cx st.2) in
  ret (match ab.1, ba.1 with
       | Ready (Err e), _ => Ready (Err e)
       | _, Ready (Err e) => Ready (Err e)
       | Ready (Ok x), Ready (Ok y) => Ready (Ok (x, y))
       | _, _ => Pending
       end, (ab.2, ba.2)).

(** [AsyncWrite for Vec<u8>]. *)
Definition vec_poll_write (_ : waker) (data : list byte) : M (list byte) (poll (result Z io_error)) :=
  let! v := get in put (v ++ data) ;! ret (Ready (Ok (blen data))).
#[export] Instance vec_write : AsyncWrite (list byte) := {
  poll_write := vec_poll_write;
  poll_flush _ := ret (Ready (Ok tt));
  poll_shutdown _ := ret (Ready (Ok tt));
}.

(** ** Slices *)

Lemma blen_nonneg l : 0 ≤ blen l.
Proof. unfold blen. lia. Qed.
Lemma blen_app l k : blen (l ++ k) = blen l + blen k.
Proof. unfold blen. rewrite length_app. lia. Qed.
Lemma blen_nil l : blen l = 0 → l = [].
Proof. destruct l; [done|]. unfold blen. simpl. lia. Qed.
Lemma blen_pos l : l ≠ [] → 0 < blen l.
Proof. destruct l; [done|]. unfold blen. simpl. lia. Qed.
Lemma upto_from n l : upto n l ++ from n l = l.
Proof. apply take_drop. Qed.
Lemma blen_upto n l : 0 ≤ n ≤ blen l → blen (upto n l) = n.
Proof. unfold blen, upto. rewrite length_take. lia. Qed.
Lemma blen_from n l : 0 ≤ n ≤ blen l → blen (from n l) = blen l - n.
Proof. unfold blen, from. rewrite length_drop. lia. Qed.
Lemma from_from a b l : 0 ≤ a → 0 ≤ b → from b (from a l) = from (a + b) l.
Proof. intros. unfold from. rewrite drop_drop. f_equal. lia. Qed.
Lemma upto_app l k : upto (blen l) (l ++ k) = l.
Proof. unfold upto, blen. rewrite Nat2Z.id. apply take_app_length. Qed.
Lemma upto_app_plus l k n : 0 ≤ n → upto (blen l + n) (l ++ k) = l ++ upto n k.
Proof.
  intros. unfold upto, blen. rewrite take_app_ge by lia. do 2 f_equal. lia.
Qed.
Lemma from_app l k n : n = blen l → from n (l ++ k) = k.
Proof. intros ->. unfold from, blen. rewrite Nat2Z.id. apply drop_app_length. Qed.
Lemma from_all n l : blen l ≤ n → from n l = [].
Proof. unfold from, blen. intros. apply drop_ge. lia. Qed.
Lemma from_nonempty n l : 0 ≤ n < blen l → from n l ≠ [].
Proof. intros ? E. pose proof (blen_from n l ltac:(lia)) as Hb. rewrite E in Hb. unfold blen in *. simpl in *. lia. Qed.

Lemma blen_filled b : buf_ok b → blen (filled_bytes b) = b.(filled).
Proof. intros [? _]. by apply blen_upto. Qed.

Lemma buf_ok_new dst : blen dst < 2 ^ (usize_bits - 1) → buf_ok (read_buf_new dst).
Proof. intros. split; simpl; [pose proof (blen_nonneg dst); lia|done]. Qed.

(** Copying [k] into the room a caller's buffer has. *)
Lemma advance_written `{BuildProfile} (b : ReadBuf) k : buf_ok b → blen k ≤ remaining b →
  ∃ b', advance (blen k) (write_unfilled k b) = Some b' ∧ buf_ok b' ∧
    length b'.(buf) = length b.(buf) ∧ filled_bytes b' = filled_bytes b ++ k.
Proof.
  intros Hb Hk. pose proof (blen_filled _ Hb) as Hf. pose proof (blen_nonneg k). pose proof Hb as [Hfr Hlim].
  assert (blen (unfilled b) = remaining b) as Hu by (by apply blen_from).
  assert (blen (filled_bytes b ++ k ++ drop (length k) (unfilled b)) = blen b.(buf)) as Hl.
  { rewrite !blen_app, Hf. assert (blen (drop (length k) (unfilled b)) = remaining b - blen k) as ->
      by (unfold blen in *; rewrite length_drop; lia). unfold remaining. lia. }
  unfold advance, remaining in *. simpl. assert (2 ^ (usize_bits - 1) < 2 ^ usize_bits) by reflexivity.
  rewrite uadd_in_range by lia. rewrite Hl. destruct (Z.leb_spec (filled b + blen k) (blen (buf b))); [|lia].
  eexists. split; [reflexivity|]. split_and!; [split; simpl; rewrite Hl; lia|simpl; unfold blen in Hl; lia|].
  unfold filled_bytes at 1. simpl. rewrite <- Hf at 1. rewrite upto_app_plus by lia. by rewrite upto_app.
Qed.

Section lawful_read.
Context `{LawfulRead R}.

(** The law for a poll into a fresh, non-empty buffer. *)
Lemma read_new_law cx dst r :
  read_ok r → dst ≠ [] → blen dst < 2 ^ (usize_bits - 1) →
  ∃ p b' r' ws, poll_read cx (read_buf_new dst) r = Some ((p, b'), r', ws) ∧
    read_ok r' ∧ buf_ok b' ∧ length b'.(buf) = length dst ∧
    match p with
    | Ready (Ok _) => stream r = filled_bytes b' ++ stream r' ∧ (filled_bytes b' = [] → stream r = [])
    | _ => stream r' = stream r ∧ filled_bytes b' = []
    end.
Proof.
  intros Hr Hd Hl. pose proof (blen_pos _ Hd).
  destruct (read_law cx (read_buf_new dst) r Hr (buf_ok_new _ Hl)) as (p & b' & r' & ws & E & ? & ? & ? & Hp).
  { unfold remaining. simpl. lia. }
  exists p, b', r', ws. split_and!; try done.
  destruct p as [[]|]; [|done..]. destruct Hp as (chunk & ? & -> & ?). done.
Qed.

(** One poll of [read] into a non-empty slice. *)
Lemma async_read_spec cx dst r :
  read_ok r → dst ≠ [] → blen dst < 2 ^ (usize_bits - 1) →
  ∃ p dst' r' ws, read cx dst r = Some ((p, dst'), r', ws) ∧ read_ok r' ∧
    length dst' = length dst ∧
    match p with
    | Ready (Ok n) => 0 ≤ n ≤ blen dst ∧ stream r = upto n dst' ++ stream r' ∧ (n = 0 → stream r = [])
    | _ => stream r' = stream r
    end.
Proof.
  intros Hr Hd Hl. destruct (read_new_law cx dst r Hr Hd Hl) as (p & b' & r' & ws & E & Hr' & Hb & Hlen & Hp).
  unfold read, bind. rewrite E. destruct p as [[]|]; unfold ret; do 4 eexists; (split; [reflexivity|]).
  - destruct Hp as [Hs Hz]. rewrite (blen_filled _ Hb). destruct Hb as [Hb _].
    split_and!; try done; [lia|unfold blen in *; lia|].
    intros Hn. apply Hz. unfold filled_bytes, upto. by rewrite Hn.
  - by destruct Hp.
  - by destruct Hp.
Qed.
End lawful_read.

(** ** Copying loses nothing *)

Section copy_laws.
Context `{LawfulRead R} `{LawfulWrite W} `{BuildProfile}.
Implicit Types (c : CopyBuffer) (r : R) (w : W).

(** Read from the reader and not yet written. *)
Definition in_flight (c : CopyBuffer) : list byte := from c.(pos) (upto c.(cap) c.(cbuf)).

Record copy_ok (c : CopyBuffer) (r : R) (w : W) : Prop := {
  co_read : read_ok r;
  co_write : write_ok w;
  co_pos : 0 ≤ c.(pos) ≤ c.(cap) ∧ c.(cap) ≤ blen c.(cbuf);
  co_buf : 0 < blen c.(cbuf) < 2 ^ (usize_bits - 1);
  co_amt : 0 ≤ c.(amt) ∧ c.(amt) + blen (in_flight c) + blen (stream r) < 2 ^ u64_bits;
  co_done : c.(read_done) = true → stream r = [];
}.

(** What a part of a poll did: nothing was lost, duplicated or reordered, and
    [amt] counts what was written. *)
Record moved (c : CopyBuffer) r w (c' : CopyBuffer) r' w' : Prop := {
  mv_ok : copy_ok c' r' w';
  mv_bytes : sink w' ++ in_flight c' ++ stream r' = sink w ++ in_flight c ++ stream r;
  mv_amt : c'.(amt) - c.(amt) = blen (sink w') - blen (sink w);
  mv_stream : (length (stream r') ≤ length (stream r))%nat;
}.

Lemma moved_refl c r w : copy_ok c r w → moved c r w c r w.
Proof. intros. split; [done|done|lia|lia]. Qed.

Lemma moved_trans c r w c1 r1 w1 c2 r2 w2 :
  moved c r w c1 r1 w1 → moved c1 r1 w1 c2 r2 w2 → moved c r w c2 r2 w2.
Proof. intros [] []. split; [done|congruence|lia|lia]. Qed.

Lemma blen_in_flight c r w : copy_ok c r w → blen (in_flight c) = c.(cap) - c.(pos).
Proof.
  intros [_ _ Hp _ _ _]. unfold in_flight. rewrite blen_from; rewrite ?blen_upto; lia.
Qed.

(** Another state of the reader or the writer, with the same bytes. *)
Lemma moved_states c b r w r' w' :
  copy_ok c r w → read_ok r' → write_ok w' → stream r' = stream r → sink w' = sink w →
  length b = length c.(cbuf) → in_flight (mkCopy c.(read_done) c.(pos) c.(cap) c.(amt) b) = in_flight c →
  moved c r w (mkCopy c.(read_done) c.(pos) c.(cap) c.(amt) b) r' w'.
Proof.
  intros [] ?? Es Ew El Ef. split; rewrite ?Es, ?Ew, ?Ef; simpl; try done; try lia.
  split; simpl; rewrite ?Es, ?Ef; try done; unfold blen in *; lia.
Qed.

Lemma copy_fill_spec cx c r w :
  copy_ok c r w →
  ∃ o c' r' ws, copy_fill cx c (r, w) = Some ((o, c'), (r', w), ws) ∧ moved c r w c' r' w ∧
    match o with
    | Some p => ∀ n, p ≠ Ready (Ok n)
    | None =>
        if (c.(pos) =? c.(cap)) && negb c.(read_done)
        then c'.(read_done) = true ∧ c'.(pos) = c'.(cap) ∨
             (length (stream r') < length (stream r))%nat ∧ c'.(read_done) = false
        else c' = c ∧ r' = r
    end.
Proof.
  intros Hc. pose proof Hc as [Hr Hw Hp Hb Ha Hd]. unfold copy_fill.
  destruct ((pos c =? cap c) && negb (read_done c)) eqn:Eg.
  2:{ do 4 eexists. split; [reflexivity|]. split; [by apply moved_refl|done]. }
  apply andb_true_iff in Eg as [Epos Erd]. apply Z.eqb_eq in Epos. apply negb_true_iff in Erd.
  assert (in_flight c = []) as Hempty by (apply blen_nil; rewrite (blen_in_flight _ _ _ Hc); lia).
  assert (∀ b, in_flight (mkCopy (read_done c) (pos c) (cap c) (amt c) b) = []) as Hempty'.
  { intros b. unfold in_flight. simpl. apply from_all. rewrite Epos. unfold blen, upto.
    rewrite length_take. lia. }
  destruct (read_new_law cx (cbuf c) r Hr) as (p & b' & r' & ws & E & Hr' & Hbo & Hl & Hq).
  { intros E. rewrite E in Hb. unfold blen in Hb. simpl in Hb. lia. }
  { lia. }
  unfold in_reader, zoom, bind. simpl. rewrite E. destruct p as [[u|e]|].
  - destruct Hq as [Hs Hz]. pose proof (blen_filled _ Hbo) as Hf.
    destruct (Z.eqb_spec (blen (filled_bytes b')) 0) as [Hn|Hn].
    + apply blen_nil in Hn. rewrite Hn in Hs. specialize (Hz Hn). simpl in Hs.
      do 4 eexists. split; [reflexivity|]. split; [|by left].
      assert (in_flight (mkCopy true (pos c) (cap c) (amt c) (buf b')) = []) as Ef by (apply (Hempty' (buf b'))).
      split; rewrite ?Ef, ?Hempty, <- ?Hs; simpl; try done; try lia.
      split; simpl; rewrite ?Ef, <- ?Hs; try done; try (unfold blen in *; lia).
      rewrite Hempty in Ha. done.
    + do 4 eexists. split; [reflexivity|].
      assert (in_flight (mkCopy (read_done c) 0 (blen (filled_bytes b')) (amt c) (buf b')) = filled_bytes b') as Ef.
      { unfold in_flight, from. simpl. rewrite drop_0, Hf. done. }
      assert (length (stream r) = length (filled_bytes b') + length (stream r'))%nat as Hlen
        by (rewrite Hs; apply length_app).
      split; [|right; split; [unfold blen in Hn; lia|done]].
      split; rewrite ?Ef, ?Hempty; simpl; try lia; [|by rewrite Hs].
      split; simpl; try done.
      * destruct Hbo. pose proof (blen_nonneg (filled_bytes b')). lia.
      * unfold blen in *. lia.
      * rewrite Ef. rewrite Hempty in Ha. unfold blen in *. simpl in Ha. lia.
      * congruence.
  - destruct Hq as [Hs _]. do 4 eexists. split; [reflexivity|]. split; [|done].
    apply moved_states; try done. by rewrite Hempty'.
  - destruct Hq as [Hs _]. do 4 eexists. split; [reflexivity|]. split; [|done].
    apply moved_states; try done. by rewrite Hempty'.
Qed.

Lemma copy_drain_spec fuel cx c r w :
  copy_ok c r w → (Z.to_nat (c.(cap) - c.(pos)) ≤ fuel)%nat →
  ∃ o c' w' ws, copy_drain fuel cx c (r, w) = Some ((o, c'), (r, w'), ws) ∧ moved c r w c' r w' ∧
    c'.(read_done) = c.(read_done) ∧
    match o with Some p => ∀ n, p ≠ Ready (Ok n) | None => c'.(pos) = c'.(cap) end.
Proof.
  revert c w. induction fuel as [|fuel IH]; intros c w Hc Hf; pose proof Hc as [Hr Hw Hp Hb Ha Hd];
    simpl; destruct (Z.ltb_spec (pos c) (cap c)) as [Hlt|Hge]; try lia;
    try (do 4 eexists; split; [reflexivity|]; split_and!; [by apply moved_refl|done|lia]).
  pose proof (blen_in_flight _ _ _ Hc) as Hfl.
  destruct (write_law cx (in_flight c) w Hw) as (p & w' & ws & E & Hw' & Hq).
  { intros E. rewrite E in Hfl. unfold blen in Hfl. simpl in Hfl. lia. }
  { pose proof (co_buf _ _ _ Hc). lia. }
  fold (in_flight c). unfold in_writer, zoom, bind. simpl. rewrite E.
  assert (∀ w', write_ok w' → sink w' = sink w → moved c r w c r w') as Hsame.
  { intros w0 ? ?. pose proof (moved_states c (cbuf c) r w r w0) as Hm.
    destruct c; simpl in *. by apply Hm. }
  destruct p as [[n|e]|].
  - destruct Hq as [Hn Hs]. rewrite Hfl in Hn. destruct (Z.eqb_spec n 0) as [->|Hnz].
    { do 4 eexists. split; [reflexivity|]. split_and!; [|done|done].
      apply Hsame; [done|]. rewrite Hs. unfold upto. by rewrite app_nil_r. }
    pose proof (blen_nonneg (stream r)). unfold usize_bits, u64_bits in *.
    assert (2 ^ (64 - 1) < 2 ^ 64) by reflexivity.
    rewrite !uadd_in_range by lia. unfold lift, ret.
    set (c1 := mkCopy (read_done c) (pos c + n) (cap c) (amt c + n) (cbuf c)).
    assert (in_flight c1 = from n (in_flight c)) as Ef.
    { unfold in_flight, c1. simpl. by rewrite from_from by lia. }
    assert (blen (in_flight c1) = cap c - pos c - n) as Hfl1 by (rewrite Ef, blen_from, Hfl; lia).
    assert (moved c r w c1 r w') as Hm.
    { split; simpl.
      - split; simpl; try done; [lia|]. rewrite Hfl1. unfold u64_bits. lia.
      - rewrite Hs, Ef, <- app_assoc. f_equal. by rewrite app_assoc, upto_from.
      - rewrite Hs, blen_app, blen_upto; lia.
      - done. }
    destruct (IH c1 w') as (o & c' & w2 & ws2 & E2 & Hm2 & Hrd & Ho); [apply Hm|simpl; lia|].
    rewrite E2. do 4 eexists. split; [reflexivity|]. split_and!; [by eapply moved_trans|done|done].
  - do 4 eexists. split; [reflexivity|]. split_and!; [by apply Hsame|done|done].
  - do 4 eexists. split; [reflexivity|]. split_and!; [by apply Hsame|done|done].
Qed.

Definition delivered (p : poll (result Z io_error)) (c : CopyBuffer) r : Prop :=
  ∀ n, p = Ready (Ok n) → n = c.(amt) ∧ in_flight c = [] ∧ stream r = [].

(** Enough fuel for a poll: one turn of the loop for what is in flight, one
    per byte of the stream, one for its end. *)
Definition copy_fuel (c : CopyBuffer) (r : R) : nat :=
  (length (stream r) + (if (c.(pos) <? c.(cap))%Z then 1 else 0) + 2)%nat.

Lemma poll_copy_spec fuel cx c r w :
  copy_ok c r w → (copy_fuel c r ≤ fuel)%nat →
  ∃ p c' r' w' ws, poll_copy fuel cx c (r, w) = Some ((p, c'), (r', w'), ws) ∧
    moved c r w c' r' w' ∧ delivered p c' r'.
Proof.
  revert c r w. induction fuel as [|fuel IH]; intros c r w Hc Hf; [unfold copy_fuel in Hf; lia|].
  simpl. unfold bind at 1.
  destruct (copy_fill_spec cx c r w Hc) as (o & c1 & r1 & ws1 & E1 & Hm1 & Ho). rewrite E1.
  destruct o as [p|].
  { do 5 eexists. split; [reflexivity|]. split; [done|]. intros n ->. by destruct (Ho n). }
  destruct (copy_drain_spec (Z.to_nat (cap c1 - pos c1)) cx c1 r1 w) as
    (o2 & c2 & w2 & ws2 & E2 & Hm2 & Hrd & Ho2); [apply Hm1|done|].
  unfold bind at 1. rewrite E2.
  assert (moved c r w c2 r1 w2) as Hm by (by eapply moved_trans).
  destruct o2 as [p|].
  { do 5 eexists. split; [reflexivity|]. split; [done|]. intros n ->. by destruct (Ho2 n). }
  pose proof (mv_ok _ _ _ _ _ _ Hm) as Hc2. rewrite (proj2 (Z.eqb_eq _ _) Ho2). simpl.
  destruct (read_done c2) eqn:Erd.
  - destruct (shutdown_law cx w2 (co_write _ _ _ Hc2)) as (p & w3 & ws3 & E3 & Hw3 & Hs3).
    unfold in_writer, zoom, bind. simpl. rewrite E3.
    assert (moved c r w c2 r1 w3) as Hm3.
    { eapply moved_trans; [exact Hm|]. pose proof (moved_states c2 (cbuf c2) r1 w2 r1 w3 Hc2) as Hms.
      destruct c2; simpl in *. apply Hms; try done. apply Hc2. }
    destruct p as [[u|e]|]; do 5 eexists; (split; [reflexivity|]); (split; [done|]); intros n Hn; simplify_eq.
    split; [done|]. split; [|by eapply co_done].
    apply blen_nil. rewrite (blen_in_flight _ _ _ Hc2). lia.
  - destruct (IH c2 r1 w2 Hc2) as (p & c3 & r3 & w3 & ws3 & E3 & Hm3 & Hd3).
    { unfold copy_fuel in *. rewrite (proj2 (Z.ltb_ge (pos c2) (cap c2))) by lia.
      pose proof (mv_stream _ _ _ _ _ _ Hm1).
      destruct ((pos c =? cap c) && negb (read_done c)) eqn:Eg.
      - destruct Ho as [[? _]|[? _]]; [congruence|lia].
      - destruct Ho as [-> ->]. destruct (Z.ltb_spec (pos c) (cap c)); [lia|].
        pose proof (co_pos _ _ _ Hc). apply andb_false_iff in Eg as [Eg%Z.eqb_neq|Eg%negb_false_iff]; [lia|].
        congruence. }
    rewrite E3. do 5 eexists. split; [reflexivity|]. split; [by eapply moved_trans|done].
Qed.

(** A whole copy, poll after poll. *)
Lemma copy_polls (capacity : nat) polls r w fuel :
  (0 < capacity)%nat → Z.of_nat capacity < 2 ^ (usize_bits - 1) →
  read_ok r → write_ok w → blen (stream r) < 2 ^ u64_bits →
  (length (stream r) + 3 ≤ fuel)%nat →
  ∃ p c' r' w' ws,
    run_polls (poll_copy fuel) polls (with_capacity capacity) (r, w) = Some ((p, c'), (r', w'), ws) ∧
    moved (with_capacity capacity) r w c' r' w' ∧ delivered p c' r'.
Proof.
  intros Hcap Hlim Hr Hw Hs Hf.
  assert (copy_ok (with_capacity capacity) r w) as Hc.
  { split; simpl; unfold blen, in_flight; simpl; rewrite ?repeat_length; try done; try lia. }
  destruct (run_polls_inv (poll_copy fuel)
    (λ c s, moved (with_capacity capacity) r w c s.1 s.2)
    (λ a c s, moved (with_capacity capacity) r w c s.1 s.2 ∧ delivered (Ready a) c s.1))
    with (polls := polls) (st := with_capacity capacity) (s := (r, w))
    as (p & c' & [r' w'] & ws & E & Hp).
  - intros cx c [r1 w1] Hm; simpl in Hm.
    destruct (poll_copy_spec fuel cx c r1 w1) as (p & c' & r' & w' & ws & E & Hm' & Hd); [apply Hm|..].
    { pose proof (mv_stream _ _ _ _ _ _ Hm). unfold copy_fuel. destruct (_ <? _); lia. }
    do 4 eexists. split; [exact E|]. pose proof (moved_trans _ _ _ _ _ _ _ _ _ Hm Hm').
    by destruct p.
  - by apply moved_refl.
  - exists p, c', r', w', ws. split; [exact E|].
    destruct p; simpl in Hp; [done|]. split; [done|by intros ?].
Qed.

Lemma moved_delivered capacity r w c' r' w' n :
  moved (with_capacity capacity) r w c' r' w' → delivered (Ready (Ok n)) c' r' →
  sink w' = sink w ++ stream r ∧ n = blen (stream r).
Proof.
  intros Hm Hd. destruct (Hd n eq_refl) as (-> & Hi & Hst).
  pose proof (mv_bytes _ _ _ _ _ _ Hm) as Hb. rewrite Hi, Hst, !app_nil_r in Hb. simpl in Hb.
  split; [exact Hb|]. pose proof (mv_amt _ _ _ _ _ _ Hm) as Ha. rewrite Hb, blen_app in Ha.
  simpl in Ha. lia.
Qed.

(** A copy loses, duplicates and reorders nothing.  Between any reader and
    any writer that keep their promises, however often it is told to wait and
    however little each read and write moves: after any number of polls the
    writer has accepted a prefix of the reader's stream, the rest being in the
    buffer or still unread; every poll terminates without panic; and a copy
    that resolves with [Ok n] has moved the whole stream, which was [n] bytes
    long. *)
Theorem copy_conserves (capacity : nat) polls r w fuel :
  (0 < capacity)%nat → Z.of_nat capacity < 2 ^ (usize_bits - 1) →
  read_ok r → write_ok w → blen (stream r) < 2 ^ u64_bits →
  (length (stream r) + 3 ≤ fuel)%nat →
  ∃ p c' r' w' ws,
    run_polls (poll_copy fuel) polls (with_capacity capacity) (r, w) = Some ((p, c'), (r', w'), ws) ∧
    sink w' ++ in_flight c' ++ stream r' = sink w ++ stream r ∧
    ∀ n, p = Ready (Ok n) → sink w' = sink w ++ stream r ∧ n = blen (stream r).
Proof.
  intros Hcap Hlim Hr Hw Hs Hf.
  destruct (copy_polls capacity polls r w fuel) as (p & c' & r' & w' & ws & E & Hm & Hd); try done.
  exists p, c', r', w', ws. split; [exact E|]. split; [apply (mv_bytes _ _ _ _ _ _ Hm)|].
  intros n ->. by eapply moved_delivered.
Qed.
End copy_laws.

(** ** [read_exact], [write_all] and the integers *)

Section exact.
Context `{LawfulRead R} `{LawfulWrite W}.

Lemma read_exact_spec fuel cx dst done (r : R) :
  read_ok r → 0 ≤ done ≤ blen dst → blen dst < 2 ^ (usize_bits - 1) →
  blen dst - done ≤ Z.of_nat fuel →
  ∃ p dst' done' r' ws, read_exact fuel cx dst done r = Some ((p, (dst', done')), r', ws) ∧
    read_ok r' ∧ length dst' = length dst ∧ done ≤ done' ≤ blen dst ∧
    upto done' dst' ++ stream r' = upto done dst ++ stream r ∧
    match p with
    | Ready (Ok _) => done' = blen dst
    | Ready (Err _) => done' < blen dst
    | Pending => True
    end.
Proof.
  revert dst done r. induction fuel as [|fuel IH]; intros dst done r Hr Hdone Hlim Hf.
  - assert (from done dst = []) as E by (apply from_all; lia). simpl. rewrite E.
    do 5 eexists. split; [reflexivity|]. split_and!; try done; lia.
  - simpl. destruct (from done dst) as [|b0 rest0] eqn:Erest.
    { do 5 eexists. split; [reflexivity|]. split_and!; try done; try lia.
      destruct (decide (done = blen dst)); [done|].
      destruct (from_nonempty done dst); [lia|done]. }
    rewrite <- Erest. assert (from done dst ≠ []) as Hne by congruence. clear b0 rest0 Erest.
    assert (done < blen dst) as Hlt.
    { destruct (Z_lt_le_dec done (blen dst)); [done|]. destruct Hne. by apply from_all. }
    pose proof (blen_from done dst Hdone) as Hlen.
    destruct (async_read_spec cx (from done dst) r Hr Hne) as (p & rest' & r' & ws & E & Hr' & Hl & Hp); [lia|].
    unfold bind at 1. rewrite E.
    assert (blen (upto done dst ++ rest') = blen dst) as Hbl.
    { rewrite blen_app, blen_upto by done. unfold blen in *. lia. }
    assert (length (upto done dst ++ rest') = length dst) as Hbn by (unfold blen in Hbl; lia).
    assert (upto done (upto done dst ++ rest') = upto done dst) as Hup.
    { rewrite <- (blen_upto done dst) at 1 by done. apply upto_app. }
    destruct p as [[n|e]|].
    + destruct Hp as (Hn & Hs & Hz). destruct (Z.eqb_spec n 0) as [->|Hnz].
      * do 5 eexists. split; [reflexivity|]. split_and!; try done; try lia.
        rewrite Hup. by rewrite Hs.
      * destruct (IH (upto done dst ++ rest') (done + n) r' Hr') as
          (p & dst' & done' & r2 & ws2 & E2 & ? & ? & ? & Hb & ?); [lia..|].
        rewrite E2. do 5 eexists. split; [reflexivity|]. split_and!; try done; try lia.
        -- rewrite Hb. rewrite <- (blen_upto done dst) at 1 by done.
           rewrite upto_app_plus by lia. rewrite Hs. by rewrite app_assoc.
        -- rewrite Hbl in *. done.
    + do 5 eexists. split; [reflexivity|]. split_and!; try done; try lia. by rewrite Hup, Hp.
    + do 5 eexists. split; [reflexivity|]. split_and!; try done; try lia. by rewrite Hup, Hp.
Qed.

Lemma write_all_spec fuel cx src (w : W) :
  write_ok w → blen src < 2 ^ (usize_bits - 1) → blen src ≤ Z.of_nat fuel →
  ∃ p src' w' ws, write_all fuel cx src w = Some ((p, src'), w', ws) ∧ write_ok w' ∧
    blen src' ≤ blen src ∧ sink w' ++ src' = sink w ++ src ∧
    match p with Ready (Ok _) => src' = [] | _ => True end.
Proof.
  revert src w. induction fuel as [|fuel IH]; intros src w Hw Hlim Hf.
  - rewrite (blen_nil src) by (pose proof (blen_nonneg src); lia). simpl.
    do 4 eexists. split; [reflexivity|]. by split_and!.
  - destruct (decide (src = [])) as [->|Hne].
    { simpl. do 4 eexists. split; [reflexivity|]. by split_and!. }
    destruct (write_law cx src w Hw Hne Hlim) as (p & w' & ws & E & Hw' & Hp).
    destruct src as [|b0 src0] eqn:Esrc; [done|]. rewrite <- Esrc in *. clear Hne.
    assert (write_all (S fuel) cx src =
      (let! r := write cx src in
       match r with
       | Ready (Ok n) =>
           if n =? 0 then ret (Ready (Err WriteZero), src)
           else if blen src <? n then panic
           else write_all fuel cx (from n src)
       | Ready (Err e) => ret (Ready (Err e), src)
       | Pending => ret (Pending, src)
       end)) as -> by (by rewrite Esrc).
    unfold write, bind. rewrite E. destruct p as [[n|e]|].
    + destruct Hp as [Hn Hs]. destruct (Z.eqb_spec n 0) as [->|Hnz].
      { do 4 eexists. split; [reflexivity|]. split_and!; try done. rewrite Hs. unfold upto.
        simpl. by rewrite app_nil_r. }
      destruct (Z.ltb_spec (blen src) n); [lia|]. pose proof (blen_from n src Hn) as Hl.
      destruct (IH (from n src) w' Hw') as (p & src' & w2 & ws2 & E2 & ? & ? & Hb & ?); [lia..|].
      rewrite E2. do 4 eexists. split; [reflexivity|]. split_and!; try done; [lia|].
      rewrite Hb, Hs, <- app_assoc. by rewrite upto_from.
    + do 4 eexists. split; [reflexivity|]. split_and!; try done. by rewrite Hp.
    + do 4 eexists. split; [reflexivity|]. split_and!; try done. by rewrite Hp.
Qed.

Lemma to_le_bytes_length w n : length (to_le_bytes w n) = w.
Proof. revert n. induction w as [|w IH]; intros n; simpl; [done|by rewrite IH]. Qed.

Lemma from_to_le w n : 0 ≤ n < 2 ^ bits w → from_le_bytes (to_le_bytes w n) = n.
Proof.
  unfold bits. revert n. induction w as [|w IH]; intros n Hn.
  - simpl in *. lia.
  - rewrite Nat2Z.inj_succ, Z.mul_succ_r, Z.pow_add_r in Hn by lia. change (2 ^ 8) with 256 in Hn.
    simpl. rewrite IH; [|split; [apply Z.div_pos; lia|apply Z.div_lt_upper_bound; lia]].
    pose proof (Z.div_mod n 256 ltac:(lia)). lia.
Qed.

Lemma to_le_mod w n : to_le_bytes w (n `mod` 2 ^ bits w) = to_le_bytes w n.
Proof.
  unfold bits. revert n. induction w as [|w IH]; intros n; [done|].
  rewrite Nat2Z.inj_succ, Z.mul_succ_r, Z.add_comm, Z.pow_add_r by lia. change (2 ^ 8) with 256.
  simpl. assert (0 < 2 ^ (8 * Z.of_nat w)) by (apply Z.pow_pos_nonneg; lia).
  rewrite Z.rem_mul_r by lia. f_equal.
  - rewrite Z.mul_comm, Z.mod_add by lia. by apply Z.mod_mod.
  - rewrite <- (IH (n / 256)). f_equal. symmetry.
    apply (Z.div_unique_pos _ 256 _ (n `mod` 256)); [apply Z.mod_pos_bound|]; lia.
Qed.

(** Encoding then decoding an integer of the type gives it back. *)
Lemma from_to_bytes e t n :
  (0 < t.(size_of))%nat → in_int t n → from_bytes e t (to_bytes e t n) = n.
Proof.
  intros Hw Hn. assert (2 ^ bits (size_of t) = 2 * 2 ^ (bits (size_of t) - 1)) as Hpow.
  { rewrite <- Z.pow_succ_r by (unfold bits; lia). f_equal. lia. }
  assert (0 < 2 ^ (bits (size_of t) - 1)) by (apply Z.pow_pos_nonneg; unfold bits; lia).
  unfold from_bytes. assert (match e with BigEndian => from_be_bytes (to_bytes e t n)
    | LittleEndian => from_le_bytes (to_bytes e t n) end = n `mod` 2 ^ bits (size_of t)) as ->.
  { rewrite <- (from_to_le (size_of t) (n `mod` 2 ^ bits (size_of t))) by (apply Z.mod_pos_bound; lia).
    rewrite to_le_mod. destruct e; unfold to_bytes, from_be_bytes, to_be_bytes; by rewrite ?rev_involutive. }
  unfold in_int in Hn. destruct (signed t); [|by apply Z.mod_small].
  unfold as_signed. destruct (Z_lt_le_dec n 0).
  - rewrite <- (Z.mod_add n 1) by lia. rewrite Z.mod_small by lia.
    destruct (Z.ltb_spec (n + 1 * 2 ^ bits (size_of t)) (2 ^ (bits (size_of t) - 1))); lia.
  - rewrite Z.mod_small by lia. by destruct (Z.ltb_spec n (2 ^ (bits (size_of t) - 1))); [|lia].
Qed.

Lemma to_bytes_length e t n : length (to_bytes e t n) = t.(size_of).
Proof. destruct e; unfold to_bytes, to_be_bytes; by rewrite ?length_rev, to_le_bytes_length. Qed.

(** An integer written is the integer read.  Whatever the type, the byte
    order, the writer and the reader, and however the bytes are cut up by
    waits and short reads and writes: a write that succeeds has appended to
    the sink the encoding of the integer and nothing else; and a read from a
    stream that starts with that encoding, if it succeeds, gives the integer
    back and leaves exactly the rest of the stream. *)
Theorem int_roundtrip e t n polls polls' (w : W) (r : R) rest :
  (0 < t.(size_of) ≤ 16)%nat → in_int t n → write_ok w → read_ok r →
  stream r = to_bytes e t n ++ rest →
  (∃ p st w' ws, run_polls (write_int t) polls (write_int_start e t n) w = Some ((p, st), w', ws) ∧
     (p = Ready (Ok tt) → sink w' = sink w ++ to_bytes e t n)) ∧
  (∃ p st r' ws, run_polls (read_int e t) polls' (read_int_start t) r = Some ((p, st), r', ws) ∧
     ∀ m, p = Ready (Ok m) → m = n ∧ stream r' = rest).
Proof.
  intros Hsz Hn Hw Hr Hs. pose proof (to_bytes_length e t n) as Hlen. split.
  - destruct (run_polls_inv (write_int t)
      (λ src w1, write_ok w1 ∧ blen src ≤ Z.of_nat t.(size_of) ∧ sink w1 ++ src = sink w ++ to_bytes e t n)
      (λ a src w1, a = Ok tt → sink w1 = sink w ++ to_bytes e t n))
      with (polls := polls) (st := write_int_start e t n) (s := w)
      as (p & st & w' & ws & E & Hp).
    + intros cx src w1 (Hw1 & Hf & Hb). unfold write_int.
      destruct (write_all_spec t.(size_of) cx src w1 Hw1) as (p & src' & w2 & ws & E & ? & ? & Hb2 & Hp); [|done|].
      { assert (16 < 2 ^ (usize_bits - 1)) by reflexivity. lia. }
      do 4 eexists. split; [exact E|]. destruct p as [[u|er]|].
      * subst src'. rewrite app_nil_r in Hb2. intros _. congruence.
      * done.
      * split_and!; [done|lia|congruence].
    + unfold write_int_start, blen. rewrite Hlen. split_and!; [done|lia|done].
    + do 4 eexists. split; [exact E|]. intros ->. by apply Hp.
  - set (Inv := λ (st : list byte * Z) (r1 : R), read_ok r1 ∧ length st.1 = t.(size_of) ∧ 0 ≤ st.2 ≤ blen st.1 ∧
        upto st.2 st.1 ++ stream r1 = stream r).
    destruct (run_polls_inv (read_int e t) Inv (λ a st r1, ∀ m, a = Ok m → m = n ∧ stream r1 = rest))
      with (polls := polls') (st := read_int_start t) (s := r) as (p & st & r' & ws & E & Hp).
    + intros cx [dst done] r1 (Hr1 & Hl & Hd & Hb). simpl in *. unfold read_int. simpl.
      destruct (read_exact_spec t.(size_of) cx dst done r1 Hr1 Hd) as
        (p & dst' & done' & r2 & ws & E & Hr2 & Hl2 & Hd2 & Hb2 & Hp).
      { unfold blen, usize_bits in *. rewrite Hl. assert (2 ^ (64 - 1) = 9223372036854775808) by done. lia. }
      { unfold blen in *. lia. }
      unfold bind. rewrite E. destruct p as [[u|er]|]; unfold ret; do 4 eexists; (split; [reflexivity|]).
      * simpl. intros m [= <-]. rewrite Hb, Hs in Hb2. subst done'.
        assert (upto (blen dst) dst' = dst') as Eu
          by (unfold upto, blen; rewrite Nat2Z.id, <- Hl2; apply take_ge; lia).
        rewrite Eu in Hb2. apply app_inj_1 in Hb2 as [-> ->]; [|rewrite Hlen; congruence].
        split; [|done]. apply from_to_bytes; [lia|done].
      * by intros m ?.
      * split; [done|]. simpl. split_and!; [congruence|lia|unfold blen in *; lia|congruence].
    + unfold Inv, read_int_start, blen. simpl. rewrite repeat_length. split_and!; try done; lia.
    + do 4 eexists. split; [exact E|]. intros m ->. by apply Hp.
Qed.
End exact.

(** ** The adaptors keep the promise *)

Section adaptors.
Context `{LawfulRead A} `{LawfulRead B} `{BuildProfile}.

#[export, program] Instance chain_lawful : LawfulRead (Chain A B) := {
  stream c := (if c.(first_done) then [] else stream c.(first)) ++ stream c.(second);
  read_ok c := read_ok c.(first) ∧ read_ok c.(second);
}.
Next Obligation.
  intros cx b [a s d] [Ha Hs] Hb Hrem. simpl in *. unfold poll_read at 1. unfold chain_read, chain_poll_read, in_first, in_second, zoom.
  unfold bind, get. simpl. destruct d; simpl.
  - destruct (read_law cx b s Hs Hb Hrem) as (p & b' & s' & ws & E & ? & ? & ? & Hp). rewrite E.
    do 4 eexists. split; [reflexivity|]. by split_and!.
  - destruct (read_law cx b a Ha Hb Hrem) as (p & b' & a' & ws & E & Ha' & Hb' & Hl & Hp). rewrite E.
    destruct p as [[[]|e]|].
    + destruct Hp as (chunk & Hst & Hf & Hz). rewrite Hf, blen_app.
      destruct (Z.eqb_spec (blen (filled_bytes b) + blen chunk) (blen (filled_bytes b))) as [He|He].
      * assert (chunk = []) as -> by (apply blen_nil; lia).
        rewrite app_nil_r in Hf. specialize (Hz eq_refl).
        assert (0 < remaining b') as Hrem'.
        { unfold remaining in *. pose proof (f_equal blen Hf) as Hfl. rewrite !blen_filled in Hfl by done.
          unfold blen in *. lia. }
        destruct (read_law cx b' s Hs Hb' Hrem') as (p & b2 & s' & ws2 & E2 & ? & ? & Hl2 & Hp). simpl. rewrite E2.
        do 4 eexists. split; [reflexivity|]. simpl. rewrite Hz, Hl2, Hl. simpl.
        split_and!; try done. destruct p as [[]|].
        -- destruct Hp as (chunk2 & ? & ? & ?). exists chunk2. split_and!; [done|congruence|done].
        -- destruct Hp. split; [done|congruence].
        -- destruct Hp. split; [done|congruence].
      * do 4 eexists. split; [reflexivity|]. split_and!; try done. exists chunk. simpl.
        split_and!; [by rewrite Hst, app_assoc|done|]. intros ->. by rewrite Z.add_0_r in He.
    + do 4 eexists. split; [reflexivity|]. destruct Hp as [Hp Hf]. simpl. rewrite Hp. by split_and!.
    + do 4 eexists. split; [reflexivity|]. destruct Hp as [Hp Hf]. simpl. rewrite Hp. by split_and!.
Qed.

#[export, program] Instance take_lawful : LawfulRead (Take A) := {
  stream t := upto t.(limit) (stream t.(take_inner));
  read_ok t := read_ok t.(take_inner) ∧ 0 ≤ t.(limit) < 2 ^ u64_bits;
}.
Next Obligation.
  intros cx b [a l] [Ha Hl] Hb Hrem. simpl in *. unfold poll_read at 1. unfold take_read, take_poll_read, zoom.
  unfold bind, get. simpl. destruct (Z.eqb_spec l 0) as [->|Hnz].
  { do 4 eexists. split; [reflexivity|]. split_and!; try done. exists []. split; [done|]. split; [by rewrite app_nil_r|done]. }
  set (max := Z.min l (remaining b)). unfold remaining in *. pose proof Hb as [Hf Hlim].
  assert (blen (unfilled b) = blen b.(buf) - b.(filled)) as Hun by (by apply blen_from).
  assert (blen (upto max (unfilled b)) = max) as Hmax by (apply blen_upto; lia).
  destruct (read_new_law cx (upto max (unfilled b)) a Ha) as
    (p & lb & a' & ws & E & Ha' & Hlb & Hlen & Hp).
  { intros En. rewrite En in Hmax. unfold blen in Hmax. simpl in Hmax. lia. }
  { lia. }
  simpl. rewrite E. pose proof (blen_filled _ Hlb) as Hfl. destruct Hlb as [Hlf _].
  assert (blen lb.(buf) = max) as Hbl by (unfold blen in *; lia).
  assert (blen (filled_bytes b ++ buf lb ++ drop (length (buf lb)) (unfilled b)) = blen (buf b)) as Hw.
  { rewrite !blen_app, blen_filled by done. change (drop (length (buf lb)) (unfilled b)) with
      (drop (length (buf lb)) (unfilled b)). assert (blen (drop (length (buf lb)) (unfilled b)) =
      blen (unfilled b) - max) as -> by (unfold blen in *; rewrite length_drop; lia). lia. }
  unfold advance. simpl. rewrite Hfl. unfold usize_bits, u64_bits in *.
  assert (2 ^ (64 - 1) < 2 ^ 64) by reflexivity.
  rewrite uadd_in_range by lia. rewrite Hw.
  destruct (Z.leb_spec (filled b + filled lb) (blen (buf b))); [|lia]. simpl.
  rewrite usub_in_range by lia. simpl. unfold ret.
  set (b' := mkReadBuf (filled_bytes b ++ buf lb ++ drop (length (buf lb)) (unfilled b)) (filled b + filled lb)).
  assert (buf_ok b') as Hb' by (split; unfold b'; simpl; rewrite Hw; unfold usize_bits; lia).
  assert (filled_bytes b' = filled_bytes b ++ filled_bytes lb) as Hfb.
  { unfold filled_bytes at 1. simpl. rewrite <- (blen_filled b Hb) at 1. rewrite upto_app_plus by lia.
    f_equal. unfold filled_bytes, upto. apply take_app_le. unfold blen in *. lia. }
  do 4 eexists. split; [reflexivity|]. simpl. fold b'. split_and!; try done; try lia.
  { unfold blen in Hw. lia. }
  destruct p as [[u|e]|].
  - destruct Hp as [Hs Hz]. exists (filled_bytes lb). split_and!; [|done|].
    + rewrite Hs, <- Hfl. replace l with (blen (filled_bytes lb) + (l - blen (filled_bytes lb))) at 1 by lia.
      apply upto_app_plus. lia.
    + intros Hn. rewrite (Hz Hn). unfold upto. apply take_nil.
  - destruct Hp as [Hs Hn]. rewrite Hs, Hfb, Hn, app_nil_r. split; [|done].
    rewrite Hn in Hfl. unfold blen in Hfl. simpl in Hfl. do 2 f_equal. lia.
  - destruct Hp as [Hs Hn]. rewrite Hs, Hfb, Hn, app_nil_r. split; [|done].
    rewrite Hn in Hfl. unfold blen in Hfl. simpl in Hfl. do 2 f_equal. lia.
Qed.
End adaptors.

#[export, program] Instance vec_lawful : LawfulWrite (list byte) := {
  sink v := v; write_ok _ := True;
}.
Next Obligation.
  intros cx data w _ _ _. do 3 eexists. split; [reflexivity|]. split; [done|].
  split; [pose proof (blen_nonneg data); lia|]. f_equal. unfold upto, blen. rewrite Nat2Z.id.
  symmetry. by apply take_ge.
Qed.
Next Obligation. intros cx w _. by do 3 eexists. Qed.
Next Obligation. intros cx w _. by do 3 eexists. Qed.

(** What the adaptors promise, composed.  Copying a [Chain] of a [Take] and
    another reader into a [Vec], for any lawful readers: a copy that resolves
    with [Ok n] has appended the first [limit] bytes of the one and then all of
    the other, [n] bytes in all. *)
Theorem copy_chain_take `{LawfulRead A} `{LawfulRead B} `{BuildProfile}
    (capacity : nat) polls (a : A) (b : B) l v fuel :
  (0 < capacity)%nat → Z.of_nat capacity < 2 ^ (usize_bits - 1) →
  read_ok a → read_ok b → 0 ≤ l < 2 ^ u64_bits →
  blen (upto l (stream a)) + blen (stream b) < 2 ^ u64_bits →
  (length (upto l (stream a)) + length (stream b) + 3 ≤ fuel)%nat →
  ∃ p c' r' v' ws,
    run_polls (poll_copy fuel) polls (with_capacity capacity) (mkChain (mkTake a l) b false, v) =
      Some ((p, c'), (r', v'), ws) ∧
    ∀ n, p = Ready (Ok n) →
      v' = v ++ upto l (stream a) ++ stream b ∧ n = blen (upto l (stream a)) + blen (stream b).
Proof.
  intros Hcap Hlim Ha Hb Hl Hlen Hf.
  destruct (copy_polls capacity polls (mkChain (mkTake a l) b false) v fuel) as
    (p & c' & r' & v' & ws & E & Hm & Hd); try done; simpl.
  - by rewrite blen_app.
  - rewrite length_app. lia.
  - exists p, c', r', v', ws. split; [exact E|]. intros n ->.
    destruct (moved_delivered _ _ _ _ _ _ _ Hm Hd) as [Hv ->].
    simpl. rewrite blen_app. split; [exact Hv|done].
Qed.

(** ** A reader to try things on

    It gives [step] bytes at most at a time, and waits once before each. *)

Record MemReader := mkMem { data : list byte; step : nat; ready : bool }.

#[export] Instance mem_read : AsyncRead MemReader := λ cx b,
  let! m := get in
  if m.(ready) : bool then
    let chunk := take (Nat.min m.(step) (Z.to_nat (remaining b))) m.(data) in
    put (mkMem (drop (length chunk) m.(data)) m.(step) false) ;!
    ret (Ready (Ok tt),
         mkReadBuf (filled_bytes b ++ chunk ++ drop (length chunk) (unfilled b))
           (b.(filled) + blen chunk))
  else put (mkMem m.(data) m.(step) true) ;! ret (Pending, b).

#[export, program] Instance mem_lawful : LawfulRead MemReader := {
  stream m := m.(data); read_ok m := (0 < m.(step))%nat;
}.
Next Obligation.
  intros cx b [d st [|]] Hst Hb Hrem; unfold poll_read, mem_read, bind, get, put, ret; simpl in *;
    do 4 eexists; (split; [reflexivity|]); simpl; [|by split_and!].
  set (chunk := take (Nat.min st (Z.to_nat (remaining b))) d).
  pose proof (blen_filled _ Hb) as Hf. destruct Hb as [Hb Hlim].
  assert (blen (unfilled b) = remaining b) as Hu by (by apply blen_from).
  assert (blen chunk ≤ remaining b) as Hc by (unfold blen, chunk; rewrite length_take; lia).
  assert (blen (filled_bytes b ++ chunk ++ drop (length chunk) (unfilled b)) = blen (buf b)) as Hl.
  { rewrite !blen_app, Hf. assert (blen (drop (length chunk) (unfilled b)) = remaining b - blen chunk) as ->
      by (unfold blen in *; rewrite length_drop; lia). unfold remaining. lia. }
  pose proof (blen_nonneg chunk). split_and!; [done|..].
  - unfold remaining in *. split; simpl; rewrite Hl; lia.
  - unfold blen in Hl. lia.
  - exists chunk. split_and!.
    + rewrite <- (take_drop (length chunk) d) at 1. f_equal. unfold chunk.
      rewrite length_take. destruct (decide (Nat.min st (Z.to_nat (remaining b)) ≤ length d)%nat).
      * f_equal. lia.
      * rewrite !take_ge by lia. done.
    + unfold filled_bytes at 1. simpl. rewrite <- Hf at 1. rewrite upto_app_plus by lia. by rewrite upto_app.
    + intros Hn. destruct d as [|x d]; [done|]. unfold chunk in Hn.
      apply (f_equal length) in Hn. rewrite length_take in Hn. simpl in Hn. lia.
Qed.

#[local] Existing Instance dev_profile.

Lemma copy_conserves_witness :
  let r := mkMem [1; 2; 3; 4; 5] 2 false in
  read_ok r ∧ write_ok ([] : list byte) ∧
  ∃ p c' r' w' ws,
    run_polls (poll_copy 8) (repeat 0%nat 9) (with_capacity 3) (r, [] : list byte) =
      Some ((p, c'), (r', w'), ws) ∧
    (p = Ready (Ok 5) → w' = [1; 2; 3; 4; 5]).
Proof.
  intros r. assert (read_ok r) as Hr by (apply Nat.lt_0_succ). split; [exact Hr|]. split; [exact I|].
  destruct (copy_conserves 3 (repeat 0%nat 9) r ([] : list byte) 8
    ltac:(lia) ltac:(reflexivity) Hr I ltac:(reflexivity) ltac:(simpl; lia))
    as (p & c' & r' & w' & ws & E & _ & Hok).
  exists p, c', r', w', ws. split; [exact E|]. intros Hp. apply (Hok 5 Hp).
Defined.

(** It does resolve: nine polls, a wait before every read. *)
Example copy_demo :
  option_map (λ x, (x.1.1.1, x.1.2.2))
    (run_polls (poll_copy 8) (repeat 0%nat 9) (with_capacity 3)
      (mkMem [1; 2; 3; 4; 5] 2 false, [] : list byte)) =
    Some (Ready (Ok 5), [1; 2; 3; 4; 5]).
Proof. reflexivity. Qed.

Lemma copy_chain_take_witness :
  let a := mkMem [1; 2; 3; 4; 5] 2 false in
  let b := mkMem [9] 2 false in
  read_ok a ∧ read_ok b ∧
  ∃ p c' r' (v' : list byte) ws,
    run_polls (poll_copy 7) (repeat 0%nat 9) (with_capacity 3) (mkChain (mkTake a 3) b false, []) =
      Some ((p, c'), (r', v'), ws) ∧
    (p = Ready (Ok 4) → v' = [1; 2; 3; 9]).
Proof.
  intros a b. assert (read_ok a) as Ha by (apply Nat.lt_0_succ).
  assert (read_ok b) as Hb by (apply Nat.lt_0_succ). split; [exact Ha|]. split; [exact Hb|].
  destruct (copy_chain_take 3 (repeat 0%nat 9) a b 3 [] 7
    ltac:(lia) ltac:(reflexivity) Ha Hb ltac:(split; [discriminate|reflexivity]) ltac:(reflexivity) ltac:(simpl; lia))
    as (p & c' & r' & v' & ws & E & Hok).
  exists p, c', r', v', ws. split; [exact E|]. intros Hp. apply (Hok 4 Hp).
Defined.

Lemma int_roundtrip_witness :
  let t := mkInt 4 true in
  let r := mkMem (to_bytes BigEndian t (-2) ++ [7]) 3 false in
  in_int t (-2) ∧ read_ok r ∧
  ∃ p st r' ws, run_polls (read_int BigEndian t) (repeat 0%nat 5) (read_int_start t) r = Some ((p, st), r', ws) ∧
    ∀ m, p = Ready (Ok m) → m = -2 ∧ stream r' = [7].
Proof.
  intros t r. assert (in_int t (-2)) as Hn by (split; [discriminate|reflexivity]).
  assert (read_ok r) as Hr by (apply Nat.lt_0_succ). split; [exact Hn|]. split; [exact Hr|].
  apply (int_roundtrip BigEndian t (-2) [] (repeat 0%nat 5) ([] : list byte) r [7]
    ltac:(simpl; lia) Hn I Hr eq_refl).
Defined.

(** An empty read skips the first reader of a [Chain].  Polling a chain
    with a buffer that has no room takes "nothing new filled" for the end of
    the first reader: whatever it still had is never read. *)
Theorem chain_empty_read_skips :
  let c := mkChain (mkMem [1; 2] 2 true) (mkMem [3] 2 true) false in
  let room := read_buf_new [0; 0; 0; 0] in
  ∃ c1 c2 c3,
    poll_read 0%nat (read_buf_new []) c = Some ((Ready (Ok tt), read_buf_new []), c1, []) ∧
    poll_read 0%nat room c1 = Some ((Pending, room), c2, []) ∧
    poll_read 0%nat room c2 = Some ((Ready (Ok tt), mkReadBuf [3; 0; 0; 0] 1), c3, []) ∧
    c3.(first).(data) = [1; 2].
Proof. do 3 eexists. repeat (split; [reflexivity|]). reflexivity. Qed.
