(* ===== verification/Buffered.v ===== *)
(** Buffered I/O ([src/src/io/buffered.rs]), the trait [AsyncBufRead] and what
    is built on it ([src/src/io/async_io.rs]: [read_until], [read_line],
    [copy], [copy_buf]).

    [LawfulBufRead] adds to the promise of a reader the bytes it has
    [buffered]; [FlushedWrite] adds to the promise of a writer the bytes that
    have [settled], all of them after a flush.  [BufReader] keeps the first
    around any reader, [BufWriter] the second around any writer, and the loops
    are proved against the promises alone. *)

From S2P Require Import Prelude AsyncIo.

(** ** [AsyncBufRead] *)

Class AsyncBufRead (R : Type) := {
  poll_fill_buf : waker → M R (poll (result (list byte) io_error));
  consume : Z → M R unit;
}.

(** Filling returns what is buffered, reads more only when that is nothing,
    and finds nothing only at the end of the stream; [consume] drops bytes
    that were returned. *)
Class LawfulBufRead (R : Type) `{LawfulRead R} `{AsyncBufRead R} := {
  buffered : R → list byte;
  buffered_law : ∀ r, read_ok r → ∃ rest, stream r = buffered r ++ rest;
  fill_law : ∀ cx r, read_ok r →
    ∃ p r' ws, poll_fill_buf cx r = Some (p, r', ws) ∧ read_ok r' ∧ stream r' = stream r ∧
      match p with
      | Ready (Ok available) => available = buffered r' ∧ (buffered r ≠ [] → available = buffered r) ∧
          (available = [] → stream r = []) ∧ blen available < 2 ^ (usize_bits - 1)
      | _ => buffered r = [] ∧ buffered r' = []
      end;
  consume_law : ∀ n r, read_ok r → 0 ≤ n ≤ blen (buffered r) →
    ∃ r', consume n r = Some (tt, r', []) ∧ read_ok r' ∧
      buffered r' = from n (buffered r) ∧ stream r' = from n (stream r);
}.

(** A flush or a shutdown that succeeds settles all that was accepted, and
    nothing else unsettles anything. *)
Class FlushedWrite (W : Type) `{LawfulWrite W} := {
  settled : W → list byte;
  flush_settles : ∀ cx w w' ws, write_ok w →
    poll_flush cx w = Some (Ready (Ok tt), w', ws) → settled w' = sink w;
  shutdown_settles : ∀ cx w w' ws, write_ok w →
    poll_shutdown cx w = Some (Ready (Ok tt), w', ws) → settled w' = sink w;
}.

(** ** [BufReader] *)

Definition DEFAULT_BUF_SIZE : Z := 8192.

(** [&l[a..b]]: [None] is the panic of the slice. *)
Definition slice (a b : Z) (l : list byte) : option (list byte) :=
  if (a <=? b) && (b <=? blen l) then Some (from a (upto b l)) else None.

Record BufReader (R : Type) := mkBufReader {
  br_inner : R; br_buf : list byte; br_pos : Z; br_cap : Z;
}.
Arguments mkBufReader {R} br_inner br_buf br_pos br_cap.
Arguments br_inner {R} b.
Arguments br_buf {R} b.
Arguments br_pos {R} b.
Arguments br_cap {R} b.

Definition buf_reader_with_capacity {R} (capacity : Z) (inner : R) : BufReader R :=
  mkBufReader inner (repeat 0 (Z.to_nat capacity)) 0 0.
Definition buf_reader_new {R} (inner : R) : BufReader R :=
  buf_reader_with_capacity DEFAULT_BUF_SIZE inner.

Section buf_reader.
Context {R : Type}.

Definition in_br_inner {X} (m : M R X) : M (BufReader R) X :=
  zoom br_inner (λ i t, mkBufReader i t.(br_buf) t.(br_pos) t.(br_cap)) m.

Definition discard_buffer : M (BufReader R) unit :=
  let! t := get in put (mkBufReader t.(br_inner) t.(br_buf) 0 0).

Definition br_consume `{BuildProfile} (n : Z) : M (BufReader R) unit :=
  let! t := get in
  let! pos := lift (uadd usize_bits t.(br_pos) n) in
  put (mkBufReader t.(br_inner) t.(br_buf) (Z.min pos t.(br_cap)) t.(br_cap)).

(** A failed or pending read leaves in the buffer whatever it wrote there. *)
Definition br_fill_buf `{BuildProfile} `{AsyncRead R} (cx : waker)
    : M (BufReader R) (poll (result (list byte) io_error)) :=
  let available :=
    let! t := get in
    let! l := lift (slice t.(br_pos) t.(br_cap) t.(br_buf)) in ret (Ready (Ok l)) in
  let! t := get in
  if t.(br_cap) <=? t.(br_pos) then
    (if debug_build then assert (t.(br_pos) =? t.(br_cap)) else ret tt) ;!
    let! r := in_br_inner (poll_read cx (read_buf_new t.(br_buf))) in
    let! t := get in
    match r with
    | (Ready (Ok _), b) =>
        put (mkBufReader t.(br_inner) b.(buf) 0 (blen (filled_bytes b))) ;! available
    | (Ready (Err e), b) =>
        put (mkBufReader t.(br_inner) b.(buf) t.(br_pos) t.(br_cap)) ;! ret (Ready (Err e))
    | (Pending, b) =>
        put (mkBufReader t.(br_inner) b.(buf) t.(br_pos) t.(br_cap)) ;! ret Pending
    end
  else available.

Definition br_poll_read `{BuildProfile} `{AsyncRead R} (cx : waker) (b : ReadBuf)
    : M (BufReader R) (poll (result unit io_error) * ReadBuf) :=
  let! t := get in
  if (t.(br_pos) =? t.(br_cap)) && (blen t.(br_buf) <=? remaining b) then
    let! r := in_br_inner (poll_read cx b) in
    discard_buffer ;! ret r
  else
    let! f := br_fill_buf cx in
    match f with
    | Ready (Ok available) =>
        let n := Z.min (blen available) (remaining b) in
        let! b' := lift (advance n (write_unfilled (upto n available) b)) in
        br_consume n ;! ret (Ready (Ok tt), b')
    | Ready (Err e) => ret (Ready (Err e), b)
    | Pending => ret (Pending, b)
    end.
End buf_reader.

#[export] Instance buf_reader_read `{BuildProfile} `{AsyncRead R} : AsyncRead (BufReader R) := br_poll_read.
#[export] Instance buf_reader_buf_read `{BuildProfile} `{AsyncRead R} : AsyncBufRead (BufReader R) := {
  poll_fill_buf := br_fill_buf; consume := br_consume;
}.
(** Writes pass through. *)
#[export] Instance buf_reader_write `{AsyncWrite R} : AsyncWrite (BufReader R) := {
  poll_write cx data := in_br_inner (poll_write cx data);
  poll_flush cx := in_br_inner (poll_flush cx);
  poll_shutdown cx := in_br_inner (poll_shutdown cx);
}.

(** ** [BufWriter] *)

(** [bw_capacity] is what [buf.capacity()] says: the capacity asked for or
    more, as the allocator likes. *)
Record BufWriter (W : Type) := mkBufWriter {
  bw_inner : W; bw_buf : list byte; bw_written : Z; bw_capacity : Z;
}.
Arguments mkBufWriter {W} bw_inner bw_buf bw_written bw_capacity.
Arguments bw_inner {W} b.
Arguments bw_buf {W} b.
Arguments bw_written {W} b.
Arguments bw_capacity {W} b.

Definition buf_writer_with_capacity {W} (capacity : Z) (inner : W) : BufWriter W :=
  mkBufWriter inner [] 0 capacity.
Definition buf_writer_new {W} (inner : W) : BufWriter W :=
  buf_writer_with_capacity DEFAULT_BUF_SIZE inner.

Section buf_writer.
Context {W : Type} `{BuildProfile}.

Definition in_bw_inner {X} (m : M W X) : M (BufWriter W) X :=
  zoom bw_inner (λ i t, mkBufWriter i t.(bw_buf) t.(bw_written) t.(bw_capacity)) m.

(** The [while] of [poll_flush_buf] and the [result] it leaves. *)
Fixpoint flush_loop `{AsyncWrite W} (fuel : nat) (cx : waker)
    : M (BufWriter W) (poll (result unit io_error)) :=
  let! t := get in
  if t.(bw_written) <? blen t.(bw_buf) then
    match fuel with
    | O => panic
    | S fuel =>
        let! r := in_bw_inner (poll_write cx (from t.(bw_written) t.(bw_buf))) in
        match r with
        | Ready (Ok n) =>
            if n =? 0 then ret (Ready (Err WriteZero))
            else
              let! t := get in
              let! k := lift (uadd usize_bits t.(bw_written) n) in
              put (mkBufWriter t.(bw_inner) t.(bw_buf) k t.(bw_capacity)) ;!
              flush_loop fuel cx
        | Ready (Err e) => ret (Ready (Err e))
        | Pending => ret Pending
        end
    end
  else ret (Ready (Ok tt)).

Definition poll_flush_buf `{AsyncWrite W} (cx : waker) : M (BufWriter W) (poll (result unit io_error)) :=
  let! t := get in
  let! r := flush_loop (Z.to_nat (blen t.(bw_buf) - t.(bw_written))) cx in
  match r with
  | Ready result =>
      let! t := get in
      let rest :=
        if blen t.(bw_buf) <=? t.(bw_written) then []
        else if 0 <? t.(bw_written) then from t.(bw_written) t.(bw_buf)
        else t.(bw_buf) in
      put (mkBufWriter t.(bw_inner) rest 0 t.(bw_capacity)) ;! ret (Ready result)
  | Pending => ret Pending
  end.

(** [extend_from_slice] within the capacity; beyond it the vector would be
    reallocated, which [bw_write_law] shows never to happen. *)
Definition extend_from_slice (data : list byte) : M (BufWriter W) unit :=
  let! t := get in
  if blen t.(bw_buf) + blen data <=? t.(bw_capacity)
  then put (mkBufWriter t.(bw_inner) (t.(bw_buf) ++ data) t.(bw_written) t.(bw_capacity))
  else panic.

(** [ready!(..)?]: go on when the first part is done, or return with it. *)
Definition and_then {A} (m : M (BufWriter W) (poll (result unit io_error)))
    (k : M (BufWriter W) (poll (result A io_error))) : M (BufWriter W) (poll (result A io_error)) :=
  let! r := m in
  match r with
  | Ready (Ok _) => k
  | Ready (Err e) => ret (Ready (Err e))
  | Pending => ret Pending
  end.

Definition bw_poll_write `{AsyncWrite W} (cx : waker) (data : list byte)
    : M (BufWriter W) (poll (result Z io_error)) :=
  let! t := get in
  let! total := lift (uadd usize_bits (blen t.(bw_buf)) (blen data)) in
  and_then (if t.(bw_capacity) <? total then poll_flush_buf cx else ret (Ready (Ok tt)))
    (let! t := get in
     if t.(bw_capacity) <=? blen data then in_bw_inner (poll_write cx data)
     else extend_from_slice data ;! ret (Ready (Ok (blen data)))).

Definition bw_poll_flush `{AsyncWrite W} (cx : waker) : M (BufWriter W) (poll (result unit io_error)) :=
  and_then (poll_flush_buf cx) (in_bw_inner (poll_flush cx)).
Definition bw_poll_shutdown `{AsyncWrite W} (cx : waker) : M (BufWriter W) (poll (result unit io_error)) :=
  and_then (poll_flush_buf cx) (in_bw_inner (poll_shutdown cx)).
End buf_writer.

#[export] Instance buf_writer_write `{BuildProfile} `{AsyncWrite W} : AsyncWrite (BufWriter W) := {
  poll_write := bw_poll_write; poll_flush := bw_poll_flush; poll_shutdown := bw_poll_shutdown;
}.
(** Reads pass through. *)
#[export] Instance buf_writer_read `{AsyncRead W} : AsyncRead (BufWriter W) := λ cx b, in_bw_inner (poll_read cx b).
#[export] Instance buf_writer_buf_read `{AsyncBufRead W} : AsyncBufRead (BufWriter W) := {
  poll_fill_buf cx := in_bw_inner (poll_fill_buf cx); consume n := in_bw_inner (consume n);
}.

(** [BufStream]: every method is that of its one field. *)
Definition BufStream (T : Type) : Type := BufWriter (BufReader T).
Definition buf_stream_with_capacity {T} (reader_capacity writer_capacity : Z) (t : T) : BufStream T :=
  buf_writer_with_capacity writer_capacity (buf_reader_with_capacity reader_capacity t).
Definition buf_stream_new {T} (t : T) : BufStream T := buf_writer_new (buf_reader_new t).

(** ** [AsyncBufReadExt] *)

(** [iter().position(|&b| b == byte)]. *)
Fixpoint position (delim : byte) (l : list byte) : option Z :=
  match l with
  | [] => None
  | b :: l => if b =? delim then Some 0 else option_map Z.succ (position delim l)
  end.

Section buf_read_ext.
Context {R : Type} `{AsyncBufRead R} `{BuildProfile}.

(** One poll of [read_until], which remembers what it appended to ([vec]) and
    its [total]. *)
Fixpoint read_until (fuel : nat) (delim : byte) (cx : waker) (st : list byte * Z)
    : M R (poll (result Z io_error) * (list byte * Z)) :=
  match fuel with
  | O => panic
  | S fuel =>
      let! f := poll_fill_buf cx in
      match f with
      | Ready (Ok available) =>
          let '(done, used, data) :=
            match position delim available with
            | Some i => (true, i + 1, upto (i + 1) available)
            | None => (false, blen available, available)
            end in
          let vec := st.1 ++ data in
          consume used ;!
          let! total := lift (uadd usize_bits st.2 used) in
          if (done : bool) || (used =? 0) then ret (Ready (Ok total), (vec, total))
          else read_until fuel delim cx (vec, total)
      | Ready (Err e) => ret (Ready (Err e), st)
      | Pending => ret (Pending, st)
      end
  end.
End buf_read_ext.

(** [String::from_utf8]: well-formed sequences of one to four bytes. *)
Definition continuation (b : byte) : bool := (128 <=? b) && (b <=? 191).
Definition between (a b c : Z) : bool := (a <=? b) && (b <=? c).
Definition second_of_three (b c : byte) : bool :=
  (b =? 224) && between 160 c 191 || (b =? 237) && between 128 c 159 ||
  (between 225 b 236 || between 238 b 239) && continuation c.
Definition second_of_four (b c : byte) : bool :=
  (b =? 240) && between 144 c 191 || between 241 b 243 && continuation c ||
  (b =? 244) && between 128 c 143.

Fixpoint utf8_valid (l : list byte) : bool :=
  match l with
  | [] => true
  | b :: l =>
      if between 0 b 127 then utf8_valid l
      else match l with
      | [] => false
      | c :: l =>
          if between 194 b 223 then continuation c && utf8_valid l
          else match l with
          | [] => false
          | d :: l =>
              if second_of_three b c then continuation d && utf8_valid l
              else match l with
              | [] => false
              | e :: l => second_of_four b c && continuation d && continuation e && utf8_valid l
              end
          end
      end
  end.
Definition from_utf8 (l : list byte) : option (list byte) := if utf8_valid l then Some l else None.

Section lines.
Context {R : Type} `{AsyncBufRead R} `{BuildProfile}.

(** One poll of [read_line]: it remembers the [String] it appends to, and the
    state of its [read_until]. *)
Definition read_line (fuel : nat) (cx : waker) (st : list byte * (list byte * Z))
    : M R (poll (result Z io_error) * (list byte * (list byte * Z))) :=
  let! r := read_until fuel 10 cx st.2 in
  match r with
  | (Ready (Ok n), (bytes, total)) =>
      match from_utf8 bytes with
      | Some text => ret (Ready (Ok n), (st.1 ++ text, (bytes, total)))
      | None => ret (Ready (Err InvalidData), (st.1, (bytes, total)))
      end
  | (Ready (Err e), st') => ret (Ready (Err e), (st.1, st'))
  | (Pending, st') => ret (Pending, (st.1, st'))
  end.

(** [if buf.ends_with(c) { buf.pop(); .. }] on a one-byte character. *)
Definition strip_suffix (c : byte) (l : list byte) : option (list byte) :=
  match rev l with b :: k => if b =? c then Some (rev k) else None | [] => None end.
Definition strip_newline (l : list byte) : list byte :=
  match strip_suffix 10 l with
  | Some k => match strip_suffix 13 k with Some k' => k' | None => k end
  | None => l
  end.

(** One poll of [Lines::next_line], with a [String] of its own. *)
Definition next_line_start : list byte * (list byte * Z) := ([], ([], 0)).
Definition next_line (fuel : nat) (cx : waker) (st : list byte * (list byte * Z))
    : M R (poll (result (option (list byte)) io_error) * (list byte * (list byte * Z))) :=
  let! r := read_line fuel cx st in
  match r with
  | (Ready (Ok n), st') =>
      if n =? 0 then ret (Ready (Ok None), st')
      else ret (Ready (Ok (Some (strip_newline st'.1))), st')
  | (Ready (Err e), st') => ret (Ready (Err e), st')
  | (Pending, st') => ret (Pending, st')
  end.

(** A task that calls [next_line] again and again, and what each call gave:
    [calls] are the polls each call gets, the last one's possibly too few. *)
Fixpoint take_lines (fuel : nat) (calls : list (list waker)) : M R (list (result (option (list byte)) io_error)) :=
  match calls with
  | [] => ret []
  | polls :: calls =>
      let! r := run_polls (next_line fuel) polls next_line_start in
      match r.1 with
      | Ready (Ok (Some l)) => let! ls := take_lines fuel calls in ret (Ok (Some l) :: ls)
      | Ready last => ret [last]
      | Pending => ret []
      end
  end.
End lines.

(** ** [copy] and [copy_buf] *)

(** Where the future of [copy] stands: its array, its [total] and, while
    [write_all] runs, the [n] bytes read and the rest of them to write. *)
Inductive copy_state :=
| CopyReading (b : list byte) (total : Z)
| CopyWriting (b rest : list byte) (n total : Z)
| CopyFlushing (total : Z).

(** That of [copy_buf]. *)
Record copy_buf_state := mkCopyBuf { cb_pos : Z; cb_read_done : bool; cb_amt : Z }.

Section copy.
Context {R W : Type} `{AsyncRead R} `{AsyncBufRead R} `{AsyncWrite W} `{BuildProfile}.

Definition copy_start : copy_state := CopyReading (repeat 0 (Z.to_nat 8192)) 0.

Fixpoint copy (fuel : nat) (cx : waker) (st : copy_state)
    : M (R * W) (poll (result Z io_error) * copy_state) :=
  match fuel with
  | O => panic
  | S fuel =>
      match st with
      | CopyReading b total =>
          let! r := in_reader (read cx b) in
          match r with
          | (Ready (Ok n), b') =>
              if n =? 0 then copy fuel cx (CopyFlushing total)
              else copy fuel cx (CopyWriting b' (upto n b') n total)
          | (Ready (Err e), b') => ret (Ready (Err e), CopyReading b' total)
          | (Pending, b') => ret (Pending, CopyReading b' total)
          end
      | CopyWriting b rest n total =>
          let! r := in_writer (write_all (length rest) cx rest) in
          match r with
          | (Ready (Ok _), _) =>
              let! total := lift (uadd u64_bits total n) in
              copy fuel cx (CopyReading b total)
          | (Ready (Err e), rest') => ret (Ready (Err e), CopyWriting b rest' n total)
          | (Pending, rest') => ret (Pending, CopyWriting b rest' n total)
          end
      | CopyFlushing total =>
          let! r := in_writer (poll_flush cx) in
          match r with
          | Ready (Ok _) => ret (Ready (Ok total), st)
          | Ready (Err e) => ret (Ready (Err e), st)
          | Pending => ret (Pending, st)
          end
      end
  end.

Definition copy_buf_start : copy_buf_state := mkCopyBuf 0 false 0.

Definition copy_buf_flush (cx : waker) (st : copy_buf_state)
    : M (R * W) (poll (result Z io_error) * copy_buf_state) :=
  let! r := in_writer (poll_flush cx) in
  match r with
  | Ready (Ok _) => ret (Ready (Ok st.(cb_amt)), st)
  | Ready (Err e) => ret (Ready (Err e), st)
  | Pending => ret (Pending, st)
  end.

Fixpoint copy_buf (fuel : nat) (cx : waker) (st : copy_buf_state)
    : M (R * W) (poll (result Z io_error) * copy_buf_state) :=
  match fuel with
  | O => panic
  | S fuel =>
      if st.(cb_read_done) then copy_buf_flush cx st
      else
        let! f := in_reader (poll_fill_buf cx) in
        match f with
        | Ready (Ok available) =>
            if blen available =? 0 then copy_buf_flush cx (mkCopyBuf st.(cb_pos) true st.(cb_amt))
            else
              let! rest := lift (slice st.(cb_pos) (blen available) available) in
              let! r := in_writer (poll_write cx rest) in
              match r with
              | Ready (Ok n) =>
                  if n =? 0 then ret (Ready (Err WriteZero), st)
                  else
                    let! pos := lift (uadd usize_bits st.(cb_pos) n) in
                    let! amt := lift (uadd u64_bits st.(cb_amt) n) in
                    if pos =? blen available then
                      in_reader (consume pos) ;! copy_buf fuel cx (mkCopyBuf 0 false amt)
                    else copy_buf fuel cx (mkCopyBuf pos false amt)
              | Ready (Err e) => ret (Ready (Err e), st)
              | Pending => ret (Pending, st)
              end
        | Ready (Err e) => ret (Ready (Err e), st)
        | Pending => ret (Pending, st)
        end
  end.
End copy.

(** ** [BufReader] keeps the promise of a reader *)

Section buf_reader_laws.
Context `{LawfulRead R} `{BuildProfile}.
Implicit Types t : BufReader R.

Definition br_buffered t : list byte := from t.(br_pos) (upto t.(br_cap) t.(br_buf)).
Definition br_stream t : list byte := br_buffered t ++ stream t.(br_inner).
Definition br_ok t : Prop :=
  read_ok t.(br_inner) ∧ (0 ≤ t.(br_pos) ≤ t.(br_cap) ∧ t.(br_cap) ≤ blen t.(br_buf)) ∧
  0 < blen t.(br_buf) < 2 ^ (usize_bits - 1).

Lemma blen_br_buffered t : br_ok t → blen (br_buffered t) = t.(br_cap) - t.(br_pos).
Proof. intros (_ & ? & _). unfold br_buffered. rewrite blen_from; rewrite ?blen_upto; lia. Qed.

Lemma br_empty i b pos : 0 ≤ pos → br_buffered (mkBufReader i b pos pos) = [].
Proof. intros. unfold br_buffered. apply from_all. simpl. unfold blen, upto. rewrite length_take. lia. Qed.

Lemma slice_some a b l : 0 ≤ a ≤ b → b ≤ blen l → slice a b l = Some (from a (upto b l)).
Proof. intros. unfold slice. destruct (Z.leb_spec a b), (Z.leb_spec b (blen l)); try lia. done. Qed.

Lemma br_fill_law cx t : br_ok t →
  ∃ p t' ws, br_fill_buf cx t = Some (p, t', ws) ∧ br_ok t' ∧ br_stream t' = br_stream t ∧
    length t'.(br_buf) = length t.(br_buf) ∧
    match p with
    | Ready (Ok available) => available = br_buffered t' ∧ (br_buffered t ≠ [] → available = br_buffered t) ∧
        (available = [] → br_stream t = []) ∧ blen available < 2 ^ (usize_bits - 1)
    | _ => br_buffered t = [] ∧ br_buffered t' = []
    end.
Proof.
  intros Ht. pose proof Ht as (Hi & Hp & Hb). destruct t as [i b pos cap]. simpl in *. unfold br_fill_buf.
  rewrite (bind_silent get _ _ (mkBufReader i b pos cap) (mkBufReader i b pos cap)) by done. simpl.
  destruct (Z.leb_spec cap pos) as [Hle|Hlt].
  - assert (pos = cap) as <- by lia. rewrite Z.eqb_refl.
    rewrite (bind_silent _ _ _ tt (mkBufReader i b pos pos)) by (by destruct debug_build).
    rewrite br_empty by lia. unfold br_stream. rewrite br_empty by lia. simpl.
    destruct (read_new_law cx b i Hi) as (p & b' & i' & ws & E & Hi' & Hb' & Hl & Hq).
    { intros ->. unfold blen in Hb. simpl in Hb. lia. }
    { lia. }
    assert (blen (buf b') = blen b) as Hbl by (unfold blen; congruence).
    pose proof (blen_filled _ Hb') as Hf. pose proof Hb' as [Hf' _]. pose proof (blen_nonneg (filled_bytes b')).
    unfold in_br_inner, zoom, bind, get, put, ret, lift. simpl. rewrite E.
    destruct p as [[u|e]|].
    + destruct Hq as [Hs Hz]. rewrite slice_some by (simpl; lia). simpl.
      do 3 eexists. split; [reflexivity|].
      assert (br_buffered (mkBufReader i' (buf b') 0 (blen (filled_bytes b'))) = filled_bytes b') as Eb.
      { unfold br_buffered, from. simpl. by rewrite drop_0, Hf. }
      unfold br_buffered in Eb. simpl in Eb. rewrite Eb. unfold br_stream, br_ok, br_buffered. simpl. rewrite Eb.
      split_and!; try done; try (unfold usize_bits in *; lia).
    + do 3 eexists. split; [reflexivity|]. unfold br_stream, br_ok. simpl. rewrite br_empty by lia. simpl.
      destruct Hq. split_and!; try done; unfold usize_bits in *; lia.
    + do 3 eexists. split; [reflexivity|]. unfold br_stream, br_ok. simpl. rewrite br_empty by lia. simpl.
      destruct Hq. split_and!; try done; unfold usize_bits in *; lia.
  - unfold bind, get, ret, lift. simpl. rewrite slice_some by lia. do 3 eexists. split; [reflexivity|].
    pose proof (blen_br_buffered _ Ht) as Hbl. unfold br_buffered in *. simpl in *.
    split_and!; try done; try lia.
    intros Hn. rewrite Hn in Hbl. unfold blen in Hbl. simpl in Hbl. lia.
Qed.

Lemma br_consume_law n t : br_ok t → 0 ≤ n ≤ blen (br_buffered t) →
  ∃ t', br_consume n t = Some (tt, t', []) ∧ br_ok t' ∧
    br_buffered t' = from n (br_buffered t) ∧ br_stream t' = from n (br_stream t).
Proof.
  intros Ht Hn. pose proof (blen_br_buffered _ Ht) as Hl. pose proof Ht as (Hi & Hp & Hb).
  destruct t as [i b pos cap]. simpl in *. unfold br_consume, bind, get, put, lift. simpl.
  assert (2 ^ (usize_bits - 1) < 2 ^ usize_bits) by reflexivity.
  rewrite uadd_in_range by lia. simpl. eexists. split; [reflexivity|].
  rewrite Z.min_l by lia.
  assert (br_buffered (mkBufReader i b (pos + n) cap) = from n (br_buffered (mkBufReader i b pos cap))) as Eb.
  { unfold br_buffered. simpl. by rewrite from_from by lia. }
  split_and!; [|done|].
  - split; simpl; [done|lia].
  - unfold br_stream. rewrite Eb. simpl. unfold from, blen in *. rewrite drop_app_le by lia. done.
Qed.

#[export, program] Instance buf_reader_lawful : LawfulRead (BufReader R) := {
  stream := br_stream; read_ok := br_ok;
}.
Next Obligation.
  intros cx b t Ht Hb Hrem. unfold poll_read, buf_reader_read, br_poll_read.
  rewrite (bind_silent get _ _ t t) by done.
  destruct ((br_pos t =? br_cap t) && (blen (br_buf t) <=? remaining b)) eqn:Eg.
  - apply andb_true_iff in Eg as [Ep%Z.eqb_eq _]. pose proof Ht as (Hi & Hp & Hl).
    destruct (read_law cx b t.(br_inner) Hi Hb Hrem) as (p & b' & i' & ws & E & Hi' & Hb' & Hlen & Hq).
    assert (br_buffered t = []) as Hn by (apply blen_nil; rewrite blen_br_buffered by done; lia).
    do 4 eexists. split.
    { eapply bind_some; [apply zoom_some, E|]. eapply bind_some; reflexivity. }
    unfold br_stream, br_ok. rewrite Hn. unfold br_buffered, from, upto. simpl. split_and!; try done; unfold usize_bits in *; lia.
  - destruct (br_fill_law cx t Ht) as (p & t' & ws & E & Ht' & Hs & Hlen & Hp).
    destruct p as [[available|e]|].
    + destruct Hp as (-> & _ & Hz & _). set (l := br_buffered t') in *.
      pose proof (blen_nonneg l). set (n := Z.min (blen l) (remaining b)).
      assert (blen (upto n l) = n) as Hn by (apply blen_upto; lia).
      destruct (advance_written b (upto n l) Hb) as (b' & E2 & Hb' & Hl' & Hf'); [lia|].
      destruct (br_consume_law n t' Ht') as (t2 & E3 & Ht2 & _ & Hs2); [subst l; lia|].
      rewrite Hn in E2. do 4 eexists. split.
      { eapply bind_some; [exact E|]. simpl. fold n. rewrite E2. simpl.
        eapply bind_some; [reflexivity|]. eapply bind_some; [exact E3|reflexivity]. }
      split_and!; [done..|]. exists (upto n l). split_and!; [|done|].
      * rewrite Hs2, <- Hs. unfold br_stream, from, upto. fold l.
        assert (take (Z.to_nat n) l = take (Z.to_nat n) (l ++ stream (br_inner t'))) as ->
          by (symmetry; apply take_app_le; unfold blen in *; lia).
        by rewrite take_drop.
      * intros Hu. apply Hz, blen_nil. rewrite Hu in Hn. unfold blen in Hn at 1. simpl in Hn. lia.
    + do 4 eexists. split; [eapply bind_some; [exact E|reflexivity]|]. simpl. by split_and!.
    + do 4 eexists. split; [eapply bind_some; [exact E|reflexivity]|]. simpl. by split_and!.
Qed.

#[export, program] Instance buf_reader_buf_lawful : LawfulBufRead (BufReader R) := {
  buffered := br_buffered;
}.
Next Obligation. intros t _. by eexists. Qed.
Next Obligation.
  intros cx t Ht. destruct (br_fill_law cx t Ht) as (p & t' & ws & E & ? & ? & _ & ?).
  do 3 eexists. split; [exact E|]. by split_and!.
Qed.
Next Obligation. intros n t Ht Hn. by apply br_consume_law. Qed.
End buf_reader_laws.

(** ** [BufWriter] keeps the promise of a writer *)

Section buf_writer_laws.
Context `{FlushedWrite W} `{BuildProfile}.
Implicit Types t : BufWriter W.

Definition bw_pending t : list byte := from t.(bw_written) t.(bw_buf).
Definition bw_sink t : list byte := sink t.(bw_inner) ++ bw_pending t.
Definition bw_ok t : Prop :=
  write_ok t.(bw_inner) ∧ 0 ≤ t.(bw_written) ≤ blen t.(bw_buf) ∧ blen t.(bw_buf) ≤ t.(bw_capacity) ∧
  t.(bw_capacity) < 2 ^ (usize_bits - 1).

Lemma flush_loop_spec fuel cx t :
  bw_ok t → blen t.(bw_buf) - t.(bw_written) ≤ Z.of_nat fuel →
  ∃ p t' ws, flush_loop fuel cx t = Some (p, t', ws) ∧ bw_ok t' ∧ bw_sink t' = bw_sink t ∧
    t'.(bw_capacity) = t.(bw_capacity) ∧
    (p = Ready (Ok tt) → t'.(bw_written) = blen t'.(bw_buf)).
Proof.
  revert t. induction fuel as [|fuel IH]; intros t Ht Hf; pose proof Ht as (Hi & Hw & Hc & Hlim);
    simpl; rewrite (bind_silent get _ _ t t) by done;
    destruct (Z.ltb_spec t.(bw_written) (blen t.(bw_buf))) as [Hlt|Hge]; try lia;
    try (do 3 eexists; split; [reflexivity|]; split_and!; try done; lia).
  destruct (write_law cx (bw_pending t) t.(bw_inner) Hi) as (p & i' & ws & E & Hi' & Hp).
  { apply from_nonempty. lia. }
  { unfold bw_pending. rewrite blen_from; lia. }
  apply (zoom_some bw_inner (λ i t, mkBufWriter i t.(bw_buf) t.(bw_written) t.(bw_capacity))) in E.
  fold (bw_pending t).
  assert (∀ p' : poll (result unit io_error), p' ≠ Ready (Ok tt) → sink i' = sink t.(bw_inner) →
    ∃ p t' ws', Some (p', mkBufWriter i' (bw_buf t) (bw_written t) (bw_capacity t), ws ++ []) = Some (p, t', ws') ∧
      bw_ok t' ∧ bw_sink t' = bw_sink t ∧ bw_capacity t' = bw_capacity t ∧
      (p = Ready (Ok tt) → bw_written t' = blen (bw_buf t'))) as Hsame.
  { intros p' Hn Hs. do 3 eexists. split; [reflexivity|]. unfold bw_sink, bw_ok. simpl. rewrite Hs. split_and!; try done; lia. }
  destruct p as [[n|e]|].
  - destruct Hp as [Hn Hs]. unfold bw_pending in Hn. rewrite blen_from in Hn by lia.
    destruct (Z.eqb_spec n 0) as [->|Hnz].
    { unfold bind, in_bw_inner. rewrite E. simpl. apply Hsame; [done|].
      rewrite Hs. unfold upto. by rewrite app_nil_r. }
    set (t1 := mkBufWriter i' t.(bw_buf) (t.(bw_written) + n) t.(bw_capacity)).
    destruct (IH t1) as (p & t' & ws' & E' & ? & Hs' & ? & ?); [|simpl; lia|].
    { unfold bw_ok, t1. simpl. split_and!; try done; lia. }
    assert (2 ^ (usize_bits - 1) < 2 ^ usize_bits) by reflexivity.
    do 3 eexists. split.
    { eapply bind_some; [exact E|]. simpl. rewrite (proj2 (Z.eqb_neq n 0)) by done.
      rewrite (bind_silent get _ _ _ _ eq_refl). simpl. rewrite uadd_in_range by lia.
      do 2 (eapply bind_some; [reflexivity|]). exact E'. }
    split_and!; try done. rewrite Hs'. unfold bw_sink, bw_pending, t1. simpl.
    rewrite Hs, <- app_assoc. f_equal. rewrite <- from_from by lia. apply upto_from.
  - unfold bind, in_bw_inner. rewrite E. simpl. by apply Hsame.
  - unfold bind, in_bw_inner. rewrite E. simpl. by apply Hsame.
Qed.

Lemma poll_flush_buf_spec cx t : bw_ok t →
  ∃ p t' ws, poll_flush_buf cx t = Some (p, t', ws) ∧ bw_ok t' ∧ bw_sink t' = bw_sink t ∧
    t'.(bw_capacity) = t.(bw_capacity) ∧
    (p = Ready (Ok tt) → t'.(bw_buf) = [] ∧ t'.(bw_written) = 0).
Proof.
  intros Ht. unfold poll_flush_buf. rewrite (bind_silent get _ _ t t) by done.
  destruct (flush_loop_spec (Z.to_nat (blen t.(bw_buf) - t.(bw_written))) cx t Ht) as
    (p & t' & ws & E & Ht' & Hs & Hc & Hd); [destruct Ht; lia|].
  destruct p as [result|]; [|do 3 eexists; split; [eapply bind_some; [exact E|reflexivity]|]; by split_and!].
  set (rest := if blen t'.(bw_buf) <=? t'.(bw_written) then []
        else if 0 <? t'.(bw_written) then from t'.(bw_written) t'.(bw_buf) else t'.(bw_buf)).
  assert (rest = bw_pending t') as Er.
  { destruct Ht' as (_ & Hw & _). unfold rest, bw_pending.
    destruct (Z.leb_spec (blen (bw_buf t')) (bw_written t')); [by rewrite from_all by lia|].
    destruct (Z.ltb_spec 0 (bw_written t')); [done|].
    by replace (bw_written t') with 0 by lia. }
  do 3 eexists. split.
  { eapply bind_some; [exact E|]. eapply bind_some; [reflexivity|]. fold rest. eapply bind_some; reflexivity. }
  destruct Ht' as (Hi & Hw & Hcap & Hlim). assert (blen rest = blen t'.(bw_buf) - t'.(bw_written)) as Hl
    by (rewrite Er; by apply blen_from).
  unfold bw_ok, bw_sink at 1, bw_pending at 1. simpl. unfold from at 1. simpl. rewrite drop_0, Er.
  split_and!; try done; try (rewrite <- Er; lia).
  intros [= ->]. split; [|done]. rewrite <- Er. apply blen_nil. specialize (Hd eq_refl). lia.
Qed.

Lemma settled_step cx t p t' ws : bw_ok t → poll_flush_buf cx t = Some (p, t', ws) → p = Ready (Ok tt) →
  write_ok t'.(bw_inner) ∧ sink t'.(bw_inner) = bw_sink t.
Proof.
  intros Ht E Hp. destruct (poll_flush_buf_spec cx t Ht) as (? & ? & ? & E' & (Hi & _) & Hs & _ & Hd).
  rewrite E in E'. simplify_eq. destruct (Hd eq_refl) as [Hb Hw]. split; [done|].
  rewrite <- Hs. unfold bw_sink, bw_pending, from. rewrite Hb, drop_nil. by rewrite app_nil_r.
Qed.

(** [and_then] on an outcome of its first part. *)
Lemma and_then_some {A} (m : M (BufWriter W) (poll (result unit io_error))) k t p t' ws (a : poll (result A io_error)) t2 ws2 :
  m t = Some (p, t', ws) → p = Ready (Ok tt) → k t' = Some (a, t2, ws2) → and_then m k t = Some (a, t2, ws ++ ws2).
Proof. intros Em -> Ek. by eapply bind_some. Qed.

Lemma and_then_stop {A} (m : M (BufWriter W) (poll (result unit io_error))) (k : M (BufWriter W) (poll (result A io_error))) t p t' ws :
  m t = Some (p, t', ws) → p ≠ Ready (Ok tt) →
  ∃ a : poll (result A io_error), and_then m k t = Some (a, t', ws ++ []) ∧ ∀ x, a ≠ Ready (Ok x).
Proof.
  intros Em Hp. destruct p as [[[]|e]|]; [done|..]; eexists; (split; [eapply bind_some; [exact Em|reflexivity]|done]).
Qed.

(** A flush or a shutdown of the inner writer behind [poll_flush_buf]. *)
Lemma bw_end_spec (m : M W (poll (result unit io_error))) cx t :
  (∀ w, write_ok w → ∃ p w' ws, m w = Some (p, w', ws) ∧ write_ok w' ∧ sink w' = sink w) → bw_ok t →
  ∃ p t' ws, and_then (poll_flush_buf cx) (in_bw_inner m) t = Some (p, t', ws) ∧ bw_ok t' ∧ bw_sink t' = bw_sink t.
Proof.
  intros Hm Ht. destruct (poll_flush_buf_spec cx t Ht) as (p & t' & ws & E & Ht' & Hs & _).
  destruct (decide (p = Ready (Ok tt))) as [Hp|Hp].
  - destruct Ht' as (Hi & Hrest). destruct (Hm _ Hi) as (p2 & i' & ws2 & E2 & Hi' & Hs2).
    do 3 eexists. split; [eapply and_then_some; [exact E|exact Hp|apply zoom_some, E2]|].
    split; [done|]. rewrite <- Hs. unfold bw_sink. simpl. by rewrite Hs2.
  - destruct (and_then_stop _ (in_bw_inner m) _ _ _ _ E Hp) as (a & E2 & _). do 3 eexists. by split_and!.
Qed.

Lemma bw_end_settles (m : M W (poll (result unit io_error))) cx t t' ws :
  (∀ w w' ws, write_ok w → m w = Some (Ready (Ok tt), w', ws) → settled w' = sink w) → bw_ok t →
  and_then (poll_flush_buf cx) (in_bw_inner m) t = Some (Ready (Ok tt), t', ws) →
  settled t'.(bw_inner) = bw_sink t.
Proof.
  intros Hm Ht E. destruct (poll_flush_buf_spec cx t Ht) as (p & t1 & ws1 & E1 & Ht1 & _).
  destruct (decide (p = Ready (Ok tt))) as [->|Hp].
  - destruct (settled_step cx t _ t1 ws1 Ht E1 eq_refl) as [Hi <-].
    unfold and_then, bind in E. rewrite E1 in E. unfold in_bw_inner, zoom in E.
    destruct (m (bw_inner t1)) as [[[q i'] ws2]|] eqn:E2; [|done]. simplify_eq. simpl. by eapply Hm.
  - destruct (and_then_stop _ (in_bw_inner m) _ _ _ _ E1 Hp) as (a & E2 & Ha). rewrite E in E2. simplify_eq.
    by destruct (Ha tt).
Qed.

#[export, program] Instance buf_writer_lawful : LawfulWrite (BufWriter W) := {
  sink := bw_sink; write_ok := bw_ok;
}.
Next Obligation.
  intros cx data t Ht Hne Hlen. unfold poll_write, buf_writer_write, bw_poll_write.
  rewrite (bind_silent get _ _ t t) by done. pose proof Ht as (Hi & Hw & Hc & Hlim).
  assert (2 ^ usize_bits = 2 ^ (usize_bits - 1) + 2 ^ (usize_bits - 1)) as Hpow by reflexivity.
  rewrite uadd_in_range by lia. unfold lift. rewrite (bind_silent (ret _) _ _ _ t) by done.
  assert (∃ p t' ws, (if t.(bw_capacity) <? blen t.(bw_buf) + blen data then poll_flush_buf cx else ret (Ready (Ok tt))) t =
    Some (p, t', ws) ∧ bw_ok t' ∧ bw_sink t' = bw_sink t ∧ t'.(bw_capacity) = t.(bw_capacity) ∧
    (p = Ready (Ok tt) → blen t'.(bw_buf) + blen data ≤ t'.(bw_capacity) ∨ t'.(bw_buf) = [])) as
    (p & t' & ws & E & Ht' & Hs & Hcap & Hroom).
  { destruct (Z.ltb_spec t.(bw_capacity) (blen t.(bw_buf) + blen data)).
    - destruct (poll_flush_buf_spec cx t Ht) as (p & t' & ws & E & ? & ? & ? & Hd).
      do 3 eexists. split; [exact E|]. split_and!; try done. intros ->. right. by destruct (Hd eq_refl).
    - do 3 eexists. split; [reflexivity|]. split_and!; try done. by left. }
  destruct (decide (p = Ready (Ok tt))) as [Hp|Hp].
  2:{ destruct (and_then_stop (A:=Z) _
        (let! t := get in if t.(bw_capacity) <=? blen data then in_bw_inner (poll_write cx data)
         else extend_from_slice data ;! ret (Ready (Ok (blen data)))) _ _ _ _ E Hp) as (a & E2 & Ha).
      do 3 eexists. split; [exact E2|]. split; [done|]. destruct a as [[n|]|]; [by destruct (Ha n)|done..]. }
  specialize (Hroom Hp). pose proof Ht' as (Hi' & Hw' & Hc' & Hlim'). pose proof (blen_pos _ Hne).
  destruct (Z.leb_spec t'.(bw_capacity) (blen data)) as [Hbig|Hsmall].
  - assert (t'.(bw_buf) = []) as Hb by (destruct Hroom; [apply blen_nil; pose proof (blen_nonneg t'.(bw_buf)); lia|done]).
    destruct (write_law cx data t'.(bw_inner) Hi' Hne Hlen) as (q & i' & ws2 & E2 & Hi2 & Hq).
    do 3 eexists. split.
    { eapply and_then_some; [exact E|exact Hp|]. rewrite (bind_silent get _ _ t' t') by done.
      rewrite (proj2 (Z.leb_le _ _) Hbig). apply zoom_some, E2. }
    assert (∀ x, bw_sink (mkBufWriter x t'.(bw_buf) t'.(bw_written) t'.(bw_capacity)) = sink x) as Hx.
    { intros x. unfold bw_sink, bw_pending, from. simpl. by rewrite Hb, drop_nil, app_nil_r. }
    split; [done|]. rewrite Hx, <- Hs. destruct t' as [x b k c]. rewrite Hx. exact Hq.
  - assert (blen t'.(bw_buf) + blen data ≤ t'.(bw_capacity)) as Hfit.
    { destruct Hroom as [|Hb]; [done|]. rewrite Hb. unfold blen at 1. simpl. lia. }
    do 3 eexists. split.
    { eapply and_then_some; [exact E|exact Hp|]. rewrite (bind_silent get _ _ t' t') by done.
      rewrite (proj2 (Z.leb_gt _ _) Hsmall). unfold extend_from_slice.
      eapply bind_some; [|reflexivity]. rewrite (bind_silent get _ _ t' t') by done.
      rewrite (proj2 (Z.leb_le _ _) Hfit). reflexivity. }
    unfold bw_ok, bw_sink at 1, bw_pending at 1. simpl. rewrite blen_app. split_and!; try done; try lia.
    rewrite <- Hs. unfold bw_sink, bw_pending. rewrite <- app_assoc. f_equal.
    unfold from, upto, blen in *. rewrite drop_app_le by lia. rewrite (take_ge data) by lia. done.
Qed.
Next Obligation. intros cx t Ht. apply bw_end_spec; [apply flush_law|done]. Qed.
Next Obligation. intros cx t Ht. apply bw_end_spec; [apply shutdown_law|done]. Qed.

#[export, program] Instance buf_writer_flushed : FlushedWrite (BufWriter W) := {
  settled t := settled t.(bw_inner);
}.
Next Obligation. intros cx t t' ws Ht E. eapply bw_end_settles; [intros ???; apply flush_settles|done|exact E]. Qed.
Next Obligation. intros cx t t' ws Ht E. eapply bw_end_settles; [intros ???; apply shutdown_settles|done|exact E]. Qed.
End buf_writer_laws.

(** ** What passes through *)

Section pass_through.
Context `{BuildProfile}.

#[export, program] Instance buf_reader_write_lawful `{LawfulWrite W} : LawfulWrite (BufReader W) := {
  sink t := sink t.(br_inner); write_ok t := write_ok t.(br_inner);
}.
Next Obligation.
  intros W ?? cx data t Ht Hd Hl. destruct (write_law cx data _ Ht Hd Hl) as (p & i & ws & E & ? & ?).
  do 3 eexists. split; [apply zoom_some, E|]. done.
Qed.
Next Obligation.
  intros W ?? cx t Ht. destruct (flush_law cx _ Ht) as (p & i & ws & E & ? & ?).
  do 3 eexists. split; [apply zoom_some, E|]. done.
Qed.
Next Obligation.
  intros W ?? cx t Ht. destruct (shutdown_law cx _ Ht) as (p & i & ws & E & ? & ?).
  do 3 eexists. split; [apply zoom_some, E|]. done.
Qed.

#[export, program] Instance buf_writer_read_lawful `{LawfulRead R} : LawfulRead (BufWriter R) := {
  stream t := stream t.(bw_inner); read_ok t := read_ok t.(bw_inner);
}.
Next Obligation.
  intros R ?? cx b t Ht Hb Hr. destruct (read_law cx b _ Ht Hb Hr) as (p & b' & i & ws & E & ? & ? & ? & ?).
  do 4 eexists. split; [apply zoom_some, E|]. done.
Qed.

#[export, program] Instance buf_writer_buf_read_lawful `{LawfulBufRead R} : LawfulBufRead (BufWriter R) := {
  buffered t := buffered t.(bw_inner);
}.
Next Obligation. intros R ???? t Ht. exact (buffered_law t.(bw_inner) Ht). Qed.
Next Obligation.
  intros R ???? cx t Ht. destruct (fill_law cx t.(bw_inner) Ht) as (p & i & ws & E & ? & ? & ?).
  do 3 eexists. split; [apply zoom_some, E|]. done.
Qed.
Next Obligation.
  intros R ???? n t Ht Hn. destruct (consume_law n t.(bw_inner) Ht Hn) as (i & E & ? & ? & ?).
  eexists. split; [apply zoom_some, E|]. done.
Qed.
End pass_through.

(** ** [read_until] *)

(** The bytes up to the first [delim], and the rest. *)
Fixpoint split_after (delim : byte) (l : list byte) : list byte * list byte :=
  match l with
  | [] => ([], [])
  | b :: l => if b =? delim then ([b], l)
              else let '(x, y) := split_after delim l in (b :: x, y)
  end.

Lemma split_after_app delim l k : delim ∉ l → split_after delim (l ++ k) =
  (l ++ (split_after delim k).1, (split_after delim k).2).
Proof.
  induction l as [|b l IH]; simpl; intros Hn; [by destruct (split_after delim k)|].
  apply not_elem_of_cons in Hn as [Hb Hl]. destruct (Z.eqb_spec b delim); [congruence|]. by rewrite IH.
Qed.

Lemma position_spec delim l :
  match position delim l with
  | Some i => 0 ≤ i < blen l ∧ (delim ∉ upto i l) ∧ upto (i + 1) l = upto i l ++ [delim]
  | None => delim ∉ l
  end.
Proof.
  induction l as [|b l IH]; simpl; [apply not_elem_of_nil|]. unfold blen in *. simpl length.
  destruct (Z.eqb_spec b delim) as [->|Hb].
  - split_and!; [lia|lia|apply not_elem_of_nil|done].
  - destruct (position delim l) as [i|]; simpl.
    + destruct IH as (Hi & Hn & Hu). unfold upto in *.
      replace (Z.to_nat (Z.succ i + 1)) with (S (Z.to_nat (i + 1))) by lia.
      replace (Z.to_nat (Z.succ i)) with (S (Z.to_nat i)) by lia. simpl.
      split_and!; [lia|lia| |by rewrite Hu]. apply not_elem_of_cons. split; [congruence|done].
    + apply not_elem_of_cons. split; [congruence|done].
Qed.

Section read_until_laws.
Context `{LawfulBufRead R} `{BuildProfile}.

(** The errors the reader may give. *)
Context (fails : io_error → Prop)
  (fill_fails : ∀ cx r e r' ws, poll_fill_buf cx r = Some (Ready (Err e), r', ws) → fails e).

Definition until_ok (delim : byte) (vec0 l : list byte) (st : list byte * Z) (r : R) : Prop :=
  read_ok r ∧ ∃ x, st.1 = vec0 ++ x ∧ l = x ++ stream r ∧ st.2 = blen x ∧ delim ∉ x.

Definition until_done (delim : byte) (vec0 l : list byte) (n : Z) (st : list byte * Z) (r : R) : Prop :=
  read_ok r ∧ st.1 = vec0 ++ (split_after delim l).1 ∧ stream r = (split_after delim l).2 ∧
  st.2 = n ∧ n = blen (split_after delim l).1.

Lemma read_until_spec fuel delim cx vec0 l st r :
  blen l < 2 ^ usize_bits → (length (stream r) + 1 ≤ fuel)%nat → until_ok delim vec0 l st r →
  ∃ p st' r' ws, read_until fuel delim cx st r = Some ((p, st'), r', ws) ∧
    match p with
    | Ready (Ok n) => until_done delim vec0 l n st' r'
    | Ready (Err e) => fails e
    | Pending => until_ok delim vec0 l st' r'
    end ∧ (length (stream r') ≤ length (stream r))%nat.
Proof.
  intros Hlim. revert st r. induction fuel as [|fuel IH]; intros [vec tot] r Hf Hok; [lia|].
  destruct Hok as (Hr & x & Hvec & Hl & Htot & Hx). simpl in *. subst vec tot.
  destruct (fill_law cx r Hr) as (p & r1 & ws & E & Hr1 & Hs1 & Hp).
  destruct p as [[available|e]|].
  2:{ do 4 eexists. split; [eapply bind_some; [exact E|reflexivity]|]. rewrite Hs1. split; [by eapply fill_fails|done]. }
  2:{ do 4 eexists. split; [eapply bind_some; [exact E|reflexivity]|]. rewrite Hs1. split; [|done].
      split; [done|]. exists x. by rewrite Hs1. }
  destruct Hp as (Ha & _ & Hz & _). destruct (buffered_law r1 Hr1) as (rest & Hrest).
  rewrite <- Ha in Hrest. rewrite <- Hs1 in Hl, Hf. pose proof (position_spec delim available) as Hpos.
  pose proof (f_equal blen Hl) as Hbl. rewrite Hrest, !blen_app in Hbl.
  pose proof (blen_nonneg available). pose proof (blen_nonneg rest). pose proof (blen_nonneg x).
  destruct (position delim available) as [i|] eqn:Epos.
  - destruct Hpos as (Hi & Hni & Hui).
    destruct (consume_law (i + 1) r1 Hr1) as (r2 & E2 & Hr2 & _ & Hs2); [rewrite <- Ha; lia|].
    assert (blen (upto (i + 1) available) = i + 1) as Hlen by (apply blen_upto; lia).
    do 4 eexists. split.
    { eapply bind_some; [exact E|]. simpl. rewrite Epos. eapply bind_some; [exact E2|].
      rewrite uadd_in_range by lia. eapply bind_some; reflexivity. }
    assert (split_after delim l = (x ++ upto (i + 1) available, from (i + 1) (stream r1))) as Esp.
    { assert (split_after delim (stream r1) = (upto (i + 1) available, from (i + 1) (stream r1))) as Es.
      { rewrite Hui, Hrest. rewrite <- (upto_from (i + 1) available) at 1. rewrite Hui.
        rewrite <- !app_assoc, split_after_app by done. simpl. rewrite Z.eqb_refl. simpl.
        unfold from, blen in *. by rewrite drop_app_le by lia. }
      by rewrite Hl, split_after_app, Es by done. }
    simpl. unfold until_done. rewrite Esp. simpl. split; [|rewrite Hs2; unfold from; rewrite length_drop; rewrite <- Hs1; lia].
    split_and!; try done; [by rewrite app_assoc|rewrite blen_app; lia].
  - destruct (consume_law (blen available) r1 Hr1) as (r2 & E2 & Hr2 & _ & Hs2); [rewrite <- Ha; lia|].
    assert (stream r2 = rest) as Hs2' by (rewrite Hs2, Hrest; by apply from_app).
    destruct (decide (available = [])) as [->|Hne].
    + specialize (Hz eq_refl). rewrite <- Hs1 in Hz. rewrite Hz in *. do 4 eexists. split.
      { eapply bind_some; [exact E|]. simpl. eapply bind_some; [exact E2|].
        rewrite uadd_in_range by (unfold blen at 2; simpl; lia). eapply bind_some; reflexivity. }
      assert (rest = []) as -> by (by destruct rest). simpl. split; [|rewrite Hs2'; simpl; lia].
      assert (split_after delim l = (x, [])) as Esp.
      { rewrite Hl, split_after_app by done. simpl. by rewrite app_nil_r. }
      unfold until_done. rewrite Esp. simpl.
      split_and!; try done; [by rewrite app_nil_r|unfold blen; simpl; lia].
    + pose proof (blen_pos _ Hne). assert (length (stream r2) < length (stream r1))%nat as Hlt.
      { rewrite Hs2', Hrest, length_app. unfold blen in *. lia. }
      destruct (IH ((vec0 ++ x) ++ available, blen x + blen available) r2) as (p & st' & r' & ws' & E' & Hp & Hle).
      { lia. }
      { split; [done|]. exists (x ++ available). simpl. rewrite app_assoc, Hs2', blen_app.
        split_and!; try done; [by rewrite Hl, Hrest, app_assoc|]. by apply not_elem_of_app. }
      do 4 eexists. split.
      { eapply bind_some; [exact E|]. simpl. rewrite Epos. eapply bind_some; [exact E2|].
        rewrite uadd_in_range by lia. eapply bind_some; [reflexivity|].
        rewrite (proj2 (Z.eqb_neq (blen available) 0)) by lia. exact E'. }
      split; [done|rewrite <- Hs1; lia].
Qed.

(** ** [next_line] *)

Lemma between_false a b c : between a b c = false ↔ b < a ∨ c < b.
Proof. unfold between. rewrite andb_false_iff, !Z.leb_gt. lia. Qed.

(** ASCII is never a continuation. *)
Lemma utf8_app l k : utf8_valid l = true → utf8_valid (l ++ k) = utf8_valid k.
Proof.
  remember (length l) as n eqn:Hn. revert l Hn. induction n as [n IH] using lt_wf_ind. intros l -> Hl.
  destruct l as [|b l]; [done|]. simpl in *.
  destruct (between 0 b 127); [by apply (IH (length l)); [lia| |]|].
  destruct l as [|c l]; [done|]. simpl in *. destruct (between 194 b 223).
  { apply andb_true_iff in Hl as [-> Hl]. simpl. apply (IH (length l)); [lia|done|done]. }
  destruct l as [|d l]; [done|]. simpl in *. destruct (second_of_three b c).
  { apply andb_true_iff in Hl as [-> Hl]. simpl. apply (IH (length l)); [lia|done|done]. }
  destruct l as [|e l]; [done|]. simpl in *.
  apply andb_true_iff in Hl as [[[-> ->]%andb_true_iff ->]%andb_true_iff Hl]. simpl.
  apply (IH (length l)); [lia|done|done].
Qed.

Lemma strip_suffix_snoc c l : strip_suffix c (l ++ [c]) = Some l.
Proof. unfold strip_suffix. rewrite rev_app_distr. simpl. by rewrite Z.eqb_refl, rev_involutive. Qed.

(** A line as a writer ends it: its text, and whether with ["\r\n"]. *)
Definition line_bytes (l : list byte * bool) : list byte := l.1 ++ (if l.2 then [13; 10] else [10]).
Definition unlines (ls : list (list byte * bool)) : list byte := concat (map line_bytes ls).
Definition text_line (l : list byte * bool) : Prop :=
  utf8_valid l.1 = true ∧ (10 ∉ l.1) ∧ (l.2 = false → strip_suffix 13 l.1 = None).

Lemma line_bytes_snoc l : ∃ k, line_bytes l = k ++ [10] ∧ k = l.1 ++ (if l.2 then [13] else []).
Proof.
  destruct l as [l []]; unfold line_bytes; simpl; [exists (l ++ [13])|exists l]; rewrite ?app_nil_r; [|done].
  by rewrite <- app_assoc.
Qed.

Lemma split_line l k : text_line l → split_after 10 (line_bytes l ++ k) = (line_bytes l, k).
Proof.
  intros (_ & Hn & _). destruct (line_bytes_snoc l) as (x & -> & ->). rewrite <- app_assoc, split_after_app; [done|].
  apply not_elem_of_app. split; [done|]. destruct l.2; [|apply not_elem_of_nil].
  rewrite list_elem_of_singleton. lia.
Qed.

Lemma strip_line l : text_line l → strip_newline (line_bytes l) = l.1.
Proof.
  intros (_ & _ & Hr). destruct (line_bytes_snoc l) as (x & -> & ->). unfold strip_newline.
  rewrite strip_suffix_snoc. destruct l as [l []]; simpl in *; [by rewrite strip_suffix_snoc|].
  rewrite app_nil_r. by rewrite Hr.
Qed.

Lemma line_bytes_utf8 l : text_line l → utf8_valid (line_bytes l) = true.
Proof. intros (Hv & _). unfold line_bytes. rewrite utf8_app by done. by destruct l.2. Qed.

Lemma line_bytes_ne l : line_bytes l ≠ [].
Proof. unfold line_bytes. by destruct l as [[] []]. Qed.

(** One call of [next_line], over its polls. *)
Lemma next_line_spec fuel polls r :
  read_ok r → blen (stream r) < 2 ^ usize_bits → (length (stream r) + 1 ≤ fuel)%nat →
  ∃ p st r' ws, run_polls (next_line fuel) polls next_line_start r = Some ((p, st), r', ws) ∧
    let l := (split_after 10 (stream r)).1 in
    match p with
    | Ready (Ok o) => read_ok r' ∧ stream r' = (split_after 10 (stream r)).2 ∧
        utf8_valid l = true ∧ o = (if decide (l = []) then None else Some (strip_newline l))
    | Ready (Err e) => fails e ∨ e = InvalidData ∧ utf8_valid l = false
    | Pending => True
    end.
Proof.
  intros Hr Hlim Hf. set (l := stream r).
  destruct (run_polls_inv (next_line fuel)
    (λ st r1, st.1 = [] ∧ until_ok 10 [] l st.2 r1 ∧ (length (stream r1) ≤ length l)%nat)
    (λ a st r1, match a with
       | Ok o => read_ok r1 ∧ stream r1 = (split_after 10 l).2 ∧ utf8_valid (split_after 10 l).1 = true ∧
           o = (if decide ((split_after 10 l).1 = []) then None else Some (strip_newline (split_after 10 l).1))
       | Err e => fails e ∨ e = InvalidData ∧ utf8_valid (split_after 10 l).1 = false
       end)) with (polls := polls) (st := next_line_start) (s := r) as (p & st & r' & ws & E & Hp).
  - intros cx [text st] r1 (Ht & Hok & Hle). simpl in *. subst text. unfold next_line, read_line. simpl.
    destruct (read_until_spec fuel 10 cx [] l st r1) as (p & [vec tot] & r2 & ws & E & Hp & Hle2); [done|unfold l in *; lia|done|].
    destruct p as [[n|e]|].
    + destruct Hp as (Hr2 & Hvec & Hs & _ & Hn). simpl in *. subst vec. unfold from_utf8.
      destruct (utf8_valid (split_after 10 l).1) eqn:Eu.
      * do 4 eexists. split.
        { eapply bind_some; [eapply bind_some; [exact E|]; simpl; rewrite Eu; reflexivity|]. simpl.
          instantiate (1 := []). instantiate (1 := r2). instantiate (1 := (_, ([] ++ (split_after 10 l).1, tot))).
          instantiate (2 := Ready (Ok (if n =? 0 then None else Some (strip_newline (split_after 10 l).1)))).
          by destruct (n =? 0). }
        simpl. split_and!; try done. subst n. destruct (decide ((split_after 10 l).1 = [])) as [->|Hne]; [done|].
        pose proof (blen_pos _ Hne). by rewrite (proj2 (Z.eqb_neq _ 0)) by lia.
      * do 4 eexists. split; [eapply bind_some; [eapply bind_some; [exact E|]; simpl; rewrite Eu; reflexivity|reflexivity]|].
        by right.
    + do 4 eexists. split; [eapply bind_some; [eapply bind_some; [exact E|reflexivity]|reflexivity]|]. by left.
    + do 4 eexists. split; [eapply bind_some; [eapply bind_some; [exact E|reflexivity]|reflexivity]|].
      split_and!; [done|done|lia].
  - split_and!; [done| |done]. split; [done|]. exists []. simpl. split_and!; try done. apply not_elem_of_nil.
  - exists p, st, r', ws. split; [exact E|]. by destruct p.
Qed.

(** What the calls give for lines [ls]: each of them, then [None]; a call that
    fails, or has had too few polls, is the last. *)
Definition expected (ls : list (list byte * bool)) : list (result (option (list byte)) io_error) :=
  map (λ l, Ok (Some l.1)) ls ++ [Ok None].
Definition as_expected (out : list (result (option (list byte)) io_error)) ls : Prop :=
  out `prefix_of` expected ls ∨ ∃ out' e, out = out' ++ [Err e] ∧ out' `prefix_of` expected ls ∧ fails e.

Lemma as_expected_cons l out ls : as_expected out ls → as_expected (Ok (Some l.1) :: out) (l :: ls).
Proof.
  intros [Hp|(out' & e & -> & Hp & He)]; [left|right; exists (Ok (Some l.1) :: out'), e; split_and!; [done| |done]];
    by apply prefix_cons.
Qed.

Lemma take_lines_spec fuel calls ls r :
  read_ok r → blen (stream r) < 2 ^ usize_bits → (length (stream r) + 1 ≤ fuel)%nat →
  stream r = unlines ls → Forall text_line ls →
  ∃ out r' ws, take_lines fuel calls r = Some (out, r', ws) ∧ as_expected out ls.
Proof.
  revert r ls. induction calls as [|polls calls IH]; intros r ls Hr Hlim Hf Hs Hls; simpl.
  { do 3 eexists. split; [reflexivity|]. left. apply prefix_nil. }
  destruct (next_line_spec fuel polls r Hr Hlim Hf) as (p & st & r' & ws & E & Hp).
  assert (as_expected [] ls) as Hnil by (left; apply prefix_nil).
  destruct p as [[o|e]|].
  2:{ do 3 eexists. split; [eapply bind_some; [exact E|reflexivity]|]. right. exists [], e.
      split_and!; [done|apply prefix_nil|]. destruct Hp as [?|[-> Hv]]; [done|]. exfalso. rewrite Hs in Hv.
      destruct Hls as [|l ls Hl Hls]; [done|]. unfold unlines in Hv. simpl in Hv.
      rewrite split_line in Hv by done. simpl in Hv. by rewrite line_bytes_utf8 in Hv. }
  2:{ do 3 eexists. split; [eapply bind_some; [exact E|reflexivity]|done]. }
  destruct Hp as (Hr' & Hs' & _ & ->). destruct Hls as [|l ls Hl Hls].
  - rewrite Hs in *. simpl in *. do 3 eexists. split; [eapply bind_some; [exact E|reflexivity]|]. by left.
  - assert (split_after 10 (stream r) = (line_bytes l, unlines ls)) as Esp
      by (rewrite Hs; unfold unlines; simpl; by apply split_line).
    rewrite Esp in *. simpl in *. destruct (decide (line_bytes l = [])) as [?|_]; [by destruct (line_bytes_ne l)|].
    assert (length (stream r') ≤ length (stream r))%nat as Hle.
    { rewrite Hs, Hs'. unfold unlines. simpl. rewrite length_app. lia. }
    destruct (IH r' ls Hr') as (out & r2 & ws2 & E2 & Hout); [unfold blen in *; lia|lia|done..|].
    do 3 eexists. split.
    { eapply bind_some; [exact E|]. simpl. eapply bind_some; [exact E2|reflexivity]. }
    rewrite strip_line by done. by apply as_expected_cons.
Qed.
End read_until_laws.

(** [BufReader] gives the errors of its reader. *)
Lemma br_fill_fails `{AsyncRead R} `{BuildProfile} (fails : io_error → Prop) :
  (∀ cx b (r : R) e b' r' ws, poll_read cx b r = Some ((Ready (Err e), b'), r', ws) → fails e) →
  ∀ cx (t : BufReader R) e t' ws, poll_fill_buf cx t = Some (Ready (Err e), t', ws) → fails e.
Proof.
  intros Hf cx t e t' ws. unfold poll_fill_buf, buf_reader_buf_read, br_fill_buf. run_M. unfold slice.
  repeat (case_match; simplify_eq/=; try done).
  all: unfold in_br_inner, zoom in *; repeat (case_match; simplify_eq/=; try done);
    intros; simplify_eq; eapply Hf; eassumption.
Qed.

(** ** [copy] and [copy_buf] settle the whole stream *)

#[export, program] Instance vec_flushed : FlushedWrite (list byte) := { settled v := v }.
Next Obligation. intros cx v v' ws _ E. unfold poll_flush in E. simpl in E. unfold ret in E. by simplify_eq. Qed.
Next Obligation. intros cx v v' ws _ E. unfold poll_shutdown in E. simpl in E. unfold ret in E. by simplify_eq. Qed.

Section copy_laws.
Context `{LawfulBufRead R} `{FlushedWrite W} `{BuildProfile}.

(** The sink before the copy, and what it is to become. *)
Context (before all : list byte).

Definition copied (a : result Z io_error) (s : R * W) : Prop :=
  ∀ n, a = Ok n → settled s.2 = all ∧ n = blen all - blen before.

Definition copy_inv (st : copy_state) (s : R * W) : Prop :=
  read_ok s.1 ∧ write_ok s.2 ∧
  match st with
  | CopyReading b total => blen b = 8192 ∧ sink s.2 ++ stream s.1 = all ∧ total = blen (sink s.2) - blen before
  | CopyWriting b rest n total => blen b = 8192 ∧ sink s.2 ++ rest ++ stream s.1 = all ∧
      0 ≤ n ∧ blen rest ≤ 8192 ∧ total + n = blen (sink s.2) + blen rest - blen before
  | CopyFlushing total => sink s.2 = all ∧ total = blen all - blen before
  end.

(** Two turns for each byte to come, one for the flush. *)
Definition copy_turns (st : copy_state) (s : R * W) : nat :=
  match st with
  | CopyReading _ _ => 2 * length (stream s.1) + 2
  | CopyWriting _ _ _ _ => 2 * length (stream s.1) + 3
  | CopyFlushing _ => 1
  end.

Lemma copy_flush_spec cx (s : R * W) : write_ok s.2 → sink s.2 = all →
  ∃ p w' ws, in_writer (poll_flush cx) s = Some (p, (s.1, w'), ws) ∧ write_ok w' ∧ sink w' = all ∧
    (p = Ready (Ok tt) → settled w' = all).
Proof.
  intros Hw Hs. destruct (flush_law cx s.2 Hw) as (p & w' & ws & E & Hw' & Hs').
  pose proof E as Ez. apply (zoom_some snd (λ w (s : R * W), (s.1, w))) in Ez.
  do 3 eexists. split; [exact Ez|]. split_and!; [done|congruence|].
  intros ->. rewrite <- Hs. by eapply flush_settles.
Qed.

Lemma copy_spec fuel cx st s :
  blen all - blen before < 2 ^ u64_bits → copy_inv st s → (copy_turns st s ≤ fuel)%nat →
  ∃ p st' s' ws, copy fuel cx st s = Some ((p, st'), s', ws) ∧ (length (stream s'.1) ≤ length (stream s.1))%nat ∧
    match p with Ready a => copied a s' | Pending => copy_inv st' s' end.
Proof.
  intros Hlim. revert st s. induction fuel as [|fuel IH]; intros st [r w] Hinv Hf.
  { destruct st; simpl in Hf; lia. }
  assert (8192 < 2 ^ (usize_bits - 1)) as Hsz by reflexivity.
  destruct st as [b total|b rest n total|total]; destruct Hinv as (Hr & Hw & Hst); simpl in *.
  - destruct Hst as (Hb & Hall & Htot).
    destruct (async_read_spec cx b r Hr) as (p & b' & r' & ws & E & Hr' & Hl & Hp).
    { intros ->. by unfold blen in Hb. }
    { lia. }
    assert (blen b' = 8192) as Hb' by (unfold blen in *; congruence).
    apply (zoom_some fst (λ r (s : R * W), (r, s.2)) _ (r, w)) in E.
    destruct p as [[n|e]|].
    + destruct Hp as (Hn & Hs & Hz). destruct (Z.eqb_spec n 0) as [->|Hnz].
      * destruct (IH (CopyFlushing total) (r', w)) as (p & st' & s' & ws' & E' & Hle & Hp); [|simpl; lia|].
        { rewrite (Hz eq_refl), app_nil_r in Hall. unfold copy_inv; simpl. rewrite Hall in Htot. by split_and!. }
        do 4 eexists. split; [eapply bind_some; [exact E|exact E']|]. split; [|done]. simpl in Hle.
        rewrite Hs, length_app. lia.
      * assert (blen (upto n b') = n) as Hn' by (apply blen_upto; lia).
        assert (length (stream r') < length (stream r))%nat as Hlt by (rewrite Hs, length_app; unfold blen in Hn'; lia).
        destruct (IH (CopyWriting b' (upto n b') n total) (r', w)) as (p & st' & s' & ws' & E' & Hle & Hp); [|simpl; lia|].
        { unfold copy_inv; simpl. rewrite <- Hs. split_and!; try done; lia. }
        do 4 eexists. split.
        { eapply bind_some; [exact E|]. simpl. rewrite (proj2 (Z.eqb_neq n 0)) by done. exact E'. }
        simpl in Hle. split; [lia|done].
    + do 4 eexists. split; [eapply bind_some; [exact E|reflexivity]|]. simpl. rewrite Hp. split; [done|by intros ?].
    + do 4 eexists. split; [eapply bind_some; [exact E|reflexivity]|]. simpl. rewrite Hp. split; [done|].
      unfold copy_inv; simpl. split_and!; try done. by rewrite Hp.
  - destruct Hst as (Hb & Hall & Hn & Hrest & Htot).
    destruct (write_all_spec (length rest) cx rest w Hw) as (p & rest' & w' & ws & E & Hw' & Hle' & Hs & Hp); [lia|done|].
    apply (zoom_some snd (λ w (s : R * W), (s.1, w)) _ (r, w)) in E.
    pose proof (f_equal blen Hs) as Hbl. rewrite !blen_app in Hbl. pose proof (blen_nonneg rest').
    pose proof (f_equal blen Hall) as Hba. rewrite !blen_app in Hba. pose proof (blen_nonneg (stream r)).
    destruct p as [[u|e]|].
    + subst rest'. rewrite app_nil_r in Hs.
      destruct (IH (CopyReading b (total + n)) (r, w')) as (p & st' & s' & ws' & E' & Hle & Hp); [|simpl; lia|].
      { unfold copy_inv; simpl. split_and!; try done; [by rewrite Hs, <- app_assoc|]. rewrite Hs, blen_app. lia. }
      do 4 eexists. split.
      { eapply bind_some; [exact E|]. simpl. rewrite uadd_in_range by lia.
        eapply bind_some; [reflexivity|exact E']. }
      done.
    + do 4 eexists. split; [eapply bind_some; [exact E|reflexivity]|]. split; [done|by intros ?].
    + do 4 eexists. split; [eapply bind_some; [exact E|reflexivity]|]. split; [done|].
      unfold copy_inv; simpl. split_and!; try done; [|lia|lia]. by rewrite app_assoc, Hs, <- app_assoc.
  - destruct Hst as (Hs & Htot). destruct (copy_flush_spec cx (r, w) Hw Hs) as (p & w' & ws & E & Hw' & Hs' & Hp).
    destruct p as [[[]|e]|]; do 4 eexists; (split; [eapply bind_some; [exact E|reflexivity]|]); (split; [done|]).
    + intros n [= <-]. split; [by apply Hp|done].
    + by intros ?.
    + by split_and!.
Qed.

(** Between polls of [copy_buf] the reader still holds the [cb_pos] bytes of
    its buffer that were written. *)
Definition copy_buf_inv (st : copy_buf_state) (s : R * W) : Prop :=
  read_ok s.1 ∧ write_ok s.2 ∧ 0 ≤ st.(cb_pos) ∧ (st.(cb_pos) = 0 ∨ st.(cb_pos) < blen (buffered s.1)) ∧
  sink s.2 ++ from st.(cb_pos) (stream s.1) = all ∧ st.(cb_amt) = blen (sink s.2) - blen before ∧
  (st.(cb_read_done) = true → sink s.2 = all).

Definition copy_buf_turns (st : copy_buf_state) (s : R * W) : nat :=
  length (from st.(cb_pos) (stream s.1)) + 1.

Lemma copy_buf_flush_spec cx st s : copy_buf_inv st s → sink s.2 = all →
  ∃ p w' ws, copy_buf_flush cx st s = Some ((p, st), (s.1, w'), ws) ∧
    match p with Ready a => copied a (s.1, w') | Pending => copy_buf_inv st (s.1, w') end.
Proof.
  destruct s as [r w]. intros (Hr & Hw & Hnn & Hp & Hall & Hamt & Hd) Hs. simpl in *. rewrite Hs in Hall, Hamt.
  destruct (copy_flush_spec cx (r, w) Hw Hs) as (p & w' & ws & E & Hw' & Hs' & Hset). simpl in *.
  destruct p as [[[]|e]|]; do 3 eexists; (split; [eapply bind_some; [exact E|reflexivity]|]).
  - intros n [= <-]. split; [by apply Hset|done].
  - by intros ?.
  - unfold copy_buf_inv. simpl. split_and!; try done; by rewrite Hs'.
Qed.

(** [n] more bytes of a buffer written, from [pos] on. *)
Lemma from_split pos n (available tl : list byte) : 0 ≤ pos ≤ blen available → 0 ≤ n ≤ blen available - pos →
  from pos (available ++ tl) = upto n (from pos available) ++ from (pos + n) (available ++ tl).
Proof.
  intros Hpos Hn. rewrite <- from_from by lia.
  assert (upto n (from pos available) = upto n (from pos (available ++ tl))) as ->; [|by rewrite upto_from].
  unfold upto, from, blen in *. rewrite drop_app_le by lia. symmetry. apply take_app_le. rewrite length_drop. lia.
Qed.

(** The end of a turn: [n] bytes were written, and the buffer is consumed once
    all of it is. *)
Lemma copy_buf_advance fuel cx pos amt n r w :
  read_ok r → write_ok w → 0 ≤ pos → 0 < n → pos + n ≤ blen (buffered r) →
  sink w ++ from (pos + n) (stream r) = all → amt + n = blen (sink w) - blen before →
  ∃ st' r', copy_buf_inv st' (r', w) ∧ from st'.(cb_pos) (stream r') = from (pos + n) (stream r) ∧
    ∀ p st2 s ws, copy_buf fuel cx st' (r', w) = Some ((p, st2), s, ws) →
      (if pos + n =? blen (buffered r) then
        in_reader (consume (pos + n)) ;! copy_buf fuel cx (mkCopyBuf 0 false (amt + n))
       else copy_buf fuel cx (mkCopyBuf (pos + n) false (amt + n))) (r, w) = Some ((p, st2), s, ws).
Proof.
  intros Hr Hw Hpos Hn Hle Hall Hamt. destruct (Z.eqb_spec (pos + n) (blen (buffered r))) as [Heq|Hneq].
  - destruct (consume_law (pos + n) r Hr) as (r2 & E & Hr2 & _ & Hs2); [lia|].
    apply (zoom_some fst (λ r (s : R * W), (r, s.2)) _ (r, w)) in E.
    exists (mkCopyBuf 0 false (amt + n)), r2. split; [|split; [by rewrite <- Hs2|]].
    + unfold copy_buf_inv. simpl. rewrite Hs2. split_and!; try done; by left.
    + intros p st2 s ws Er. rewrite (bind_silent (in_reader (consume (pos + n))) _ _ _ _ E). exact Er.
  - exists (mkCopyBuf (pos + n) false (amt + n)), r. split; [|split; [done|by intros]].
    unfold copy_buf_inv. simpl. split_and!; try done; lia.
Qed.

Ltac copy_buf_step E Esl E2 :=
  eapply bind_some; [exact E|]; simpl; rewrite (proj2 (Z.eqb_neq _ 0)) by lia; rewrite Esl;
  eapply bind_some; [reflexivity|]; eapply bind_some; [exact E2|].

Lemma copy_buf_spec fuel cx st s :
  blen all - blen before < 2 ^ u64_bits → copy_buf_inv st s → (copy_buf_turns st s ≤ fuel)%nat →
  ∃ p st' s' ws, copy_buf fuel cx st s = Some ((p, st'), s', ws) ∧ (copy_buf_turns st' s' ≤ copy_buf_turns st s)%nat ∧
    match p with Ready a => copied a s' | Pending => copy_buf_inv st' s' end.
Proof.
  intros Hlim. revert st s. induction fuel as [|fuel IH]; intros [pos d amt] [r w] Hinv Hf.
  { unfold copy_buf_turns in Hf. lia. }
  simpl. destruct d.
  { destruct (copy_buf_flush_spec cx _ _ Hinv) as (p & w' & ws & E & Hp); [by apply Hinv|].
    do 4 eexists. split; [exact E|done]. }
  pose proof Hinv as (Hr & Hw & Hnn & Hpos & Hall & Hamt & _). unfold copy_buf_turns in *. simpl in *.
  destruct (fill_law cx r Hr) as (p & r1 & ws & E & Hr1 & Hs1 & Hp).
  apply (zoom_some fst (λ r (s : R * W), (r, s.2)) _ (r, w)) in E.
  assert (pos = 0 ∨ pos < blen (buffered r1) → copy_buf_inv (mkCopyBuf pos false amt) (r1, w)) as Hinv1.
  { intros. unfold copy_buf_inv. simpl. by rewrite Hs1. }
  destruct p as [[available|e]|].
  2:{ do 4 eexists. split; [eapply bind_some; [exact E|reflexivity]|]. simpl. rewrite Hs1. split; [done|by intros ?]. }
  2:{ do 4 eexists. split; [eapply bind_some; [exact E|reflexivity]|]. simpl. rewrite Hs1. split; [done|].
      apply Hinv1. left. destruct Hp as [Hb _]. rewrite Hb in Hpos. unfold blen in Hpos. simpl in Hpos. lia. }
  destruct Hp as (Ha & Hsame & Hz & Hlen). destruct (buffered_law r1 Hr1) as (tl & Htl). rewrite <- Ha in *.
  assert (pos = 0 ∨ pos < blen available) as Hpos'.
  { destruct Hpos as [|Hpos]; [by left|]. right. rewrite Hsame; [done|]. intros En. rewrite En in Hpos.
    unfold blen in Hpos. simpl in Hpos. lia. }
  specialize (Hinv1 Hpos'). destruct (decide (available = [])) as [->|Hne].
  { destruct Hpos' as [->|Hlt]; [|unfold blen in Hlt; simpl in Hlt; lia].
    rewrite (Hz eq_refl) in Hall. unfold from in Hall. rewrite drop_nil, app_nil_r in Hall.
    destruct (copy_buf_flush_spec cx (mkCopyBuf 0 true amt) (r1, w)) as (p & w' & ws' & E' & Hp); [|done|].
    { destruct Hinv1 as (? & ? & ? & ? & ? & ? & _). by split_and!. }
    do 4 eexists. split; [eapply bind_some; [exact E|exact E']|]. simpl. rewrite Hs1. split; [done|exact Hp]. }
  pose proof (blen_pos _ Hne) as Hav. set (rest := from pos available).
  assert (slice pos (blen available) available = Some rest) as Esl.
  { rewrite slice_some by lia. unfold rest. do 2 f_equal. unfold upto, blen. rewrite Nat2Z.id. apply take_ge. lia. }
  assert (blen rest = blen available - pos) as Hrl by (apply blen_from; lia).
  destruct (write_law cx rest w Hw) as (p & w' & ws2 & E2 & Hw' & Hp); [apply from_nonempty; lia|lia|].
  apply (zoom_some snd (λ w (s : R * W), (s.1, w)) _ (r1, w)) in E2. rewrite <- Hs1 in *.
  assert (sink w' = sink w → copy_buf_inv (mkCopyBuf pos false amt) (r1, w')) as Hstop.
  { intros Hsk. destruct Hinv1 as (? & ? & ? & ? & ? & ? & ?). unfold copy_buf_inv. simpl in *. by rewrite Hsk. }
  destruct p as [[n|e]|].
  2:{ do 4 eexists. split; [by copy_buf_step E Esl E2|]. split; [done|by intros ?]. }
  2:{ do 4 eexists. split; [by copy_buf_step E Esl E2|]. split; [done|by apply Hstop]. }
  destruct Hp as [Hn Hsk]. destruct (Z.eqb_spec n 0) as [->|Hnz].
  { do 4 eexists. split; [by copy_buf_step E Esl E2|]. split; [done|by intros ?]. }
  assert (2 ^ (usize_bits - 1) < 2 ^ usize_bits) by reflexivity.
  pose proof (from_split pos n available tl ltac:(lia) ltac:(lia)) as Efs. rewrite <- Htl in Efs. fold rest in Efs.
  assert (blen (sink w') = blen (sink w) + n) as Hskl by (rewrite Hsk, blen_app, blen_upto; lia).
  assert (sink w' ++ from (pos + n) (stream r1) = all) as Hall'
    by (rewrite Hsk, <- app_assoc, <- Efs; exact Hall).
  pose proof (f_equal blen Hall') as Hbl. rewrite blen_app in Hbl. pose proof (blen_nonneg (from (pos + n) (stream r1))).
  pose proof (f_equal length Efs) as Hlt. rewrite length_app in Hlt. pose proof (blen_upto n rest Hn) as Hu. unfold blen in Hu.
  destruct (copy_buf_advance fuel cx pos amt n r1 w') as (st2 & r2 & Hinv2 & Hst2 & Hrun); [done|done|lia|lia| |done|lia|].
  { rewrite <- Ha. lia. }
  destruct (IH st2 (r2, w') Hinv2) as (p & st' & s' & ws4 & E4 & Hle & Hp); [simpl; rewrite Hst2; lia|].
  do 4 eexists. split.
  { copy_buf_step E Esl E2. simpl. rewrite (proj2 (Z.eqb_neq n 0)) by done.
    rewrite !uadd_in_range by (unfold usize_bits, u64_bits in *; lia).
    do 2 (eapply bind_some; [reflexivity|]). rewrite Ha. by apply Hrun. }
  simpl in Hle. rewrite Hst2 in Hle. split; [lia|done].
Qed.

(** Both futures over their polls. *)
Lemma copy_polls_spec fuel polls s :
  read_ok s.1 → write_ok s.2 → before = sink s.2 → all = sink s.2 ++ stream s.1 →
  blen (stream s.1) < 2 ^ u64_bits → (2 * length (stream s.1) + 3 ≤ fuel)%nat →
  ∃ p st s' ws, run_polls (copy fuel) polls copy_start s = Some ((p, st), s', ws) ∧
    match p with Ready a => copied a s' | Pending => True end.
Proof.
  intros Hr Hw Hb Ha Hlim Hf. assert (blen all - blen before = blen (stream s.1)) as Hd by (rewrite Ha, Hb, blen_app; lia).
  destruct (run_polls_inv (copy fuel) (λ st s', copy_inv st s' ∧ (length (stream s'.1) ≤ length (stream s.1))%nat)
    (λ a _ s', copied a s')) with (polls := polls) (st := copy_start) (s := s) as (p & st & s' & ws & E & Hp).
  - intros cx st s1 [Hinv Hle]. destruct (copy_spec fuel cx st s1) as (p & st' & s2 & ws & E & Hle2 & Hp); [lia|done| |].
    { destruct st; simpl; lia. }
    do 4 eexists. split; [exact E|]. destruct p; [done|]. split; [done|lia].
  - split; [|done]. unfold copy_inv, copy_start. unfold blen at 1. rewrite repeat_length. split_and!; try done. rewrite Hb. lia.
  - do 4 eexists. split; [exact E|]. by destruct p.
Qed.

Lemma copy_buf_polls_spec fuel polls s :
  read_ok s.1 → write_ok s.2 → before = sink s.2 → all = sink s.2 ++ stream s.1 →
  blen (stream s.1) < 2 ^ u64_bits → (length (stream s.1) + 1 ≤ fuel)%nat →
  ∃ p st s' ws, run_polls (copy_buf fuel) polls copy_buf_start s = Some ((p, st), s', ws) ∧
    match p with Ready a => copied a s' | Pending => True end.
Proof.
  intros Hr Hw Hb Ha Hlim Hf. assert (blen all - blen before = blen (stream s.1)) as Hd by (rewrite Ha, Hb, blen_app; lia).
  destruct (run_polls_inv (copy_buf fuel) (λ st s', copy_buf_inv st s' ∧ (copy_buf_turns st s' ≤ fuel)%nat)
    (λ a _ s', copied a s')) with (polls := polls) (st := copy_buf_start) (s := s) as (p & st & s' & ws & E & Hp).
  - intros cx st s1 [Hinv Hle]. destruct (copy_buf_spec fuel cx st s1) as (p & st' & s2 & ws & E & Hle2 & Hp); [lia|done|done|].
    do 4 eexists. split; [exact E|]. destruct p; [done|]. split; [done|lia].
  - split; [|done]. unfold copy_buf_inv, copy_buf_start. simpl. rewrite Hb. split_and!; try done; [by left|lia].
  - do 4 eexists. split; [exact E|]. by destruct p.
Qed.
End copy_laws.

Lemma buf_reader_start `{LawfulRead R} (r : R) capacity : read_ok r → 0 < capacity < 2 ^ (usize_bits - 1) →
  br_ok (buf_reader_with_capacity capacity r) ∧ br_stream (buf_reader_with_capacity capacity r) = stream r.
Proof.
  intros Hr Hc. split.
  - unfold br_ok, blen. simpl. rewrite repeat_length. split_and!; try done; lia.
  - unfold br_stream, buf_reader_with_capacity. by rewrite br_empty.
Qed.

Lemma buf_writer_start `{LawfulWrite W} (w : W) capacity : write_ok w → 0 ≤ capacity < 2 ^ (usize_bits - 1) →
  bw_ok (buf_writer_with_capacity capacity w) ∧ bw_sink (buf_writer_with_capacity capacity w) = sink w.
Proof.
  intros Hw Hc. split.
  - unfold bw_ok, buf_writer_with_capacity, blen. simpl. by split_and!; try lia.
  - unfold bw_sink, bw_pending, buf_writer_with_capacity. simpl. by rewrite app_nil_r.
Qed.

(** Buffering on both sides loses nothing, and the two copies agree.  From
    any reader behind a [BufReader] into any writer behind a [BufWriter], of
    whatever capacities: [copy] and [copy_buf] terminate at every poll without
    panic, and each, when it resolves with [Ok n], has delivered to the writer
    underneath the [BufWriter] the whole stream, in order and once; [n] is
    the stream's length, whichever of the two ran. *)
Theorem copies_agree `{LawfulRead R} `{FlushedWrite W} `{BuildProfile} rcap wcap (r : R) (w : W) fuel polls polls' :
  read_ok r → write_ok w → 0 < rcap < 2 ^ (usize_bits - 1) → 0 ≤ wcap < 2 ^ (usize_bits - 1) →
  blen (stream r) < 2 ^ u64_bits → (2 * length (stream r) + 3 ≤ fuel)%nat →
  let s := (buf_reader_with_capacity rcap r, buf_writer_with_capacity wcap w) in
  let whole (p : poll (result Z io_error)) (s' : BufReader R * BufWriter W) :=
    ∀ n, p = Ready (Ok n) → settled s'.2.(bw_inner) = sink w ++ stream r ∧ n = blen (stream r) in
  (∃ p st s' ws, run_polls (copy fuel) polls copy_start s = Some ((p, st), s', ws) ∧ whole p s') ∧
  (∃ p st s' ws, run_polls (copy_buf fuel) polls' copy_buf_start s = Some ((p, st), s', ws) ∧ whole p s').
Proof.
  intros Hr Hw Hrc Hwc Hlim Hf s whole.
  destruct (buf_reader_start r rcap Hr Hrc) as [Hbr Hbs]. destruct (buf_writer_start w wcap Hw Hwc) as [Hbw Hws].
  assert (∀ p s', match p with Ready a => copied (sink w) (sink w ++ stream r) a s' | Pending => True end → whole p s') as Hwhole.
  { intros p s' Hp n ->. destruct (Hp n eq_refl) as [Hset ->]. split; [exact Hset|]. rewrite blen_app. lia. }
  split.
  - destruct (copy_polls_spec (sink w) (sink w ++ stream r) fuel polls s) as (p & st & s' & ws & E & Hp);
      simpl; rewrite ?Hbs, ?Hws; try done.
    exists p, st, s', ws. split; [exact E|by apply Hwhole].
  - destruct (copy_buf_polls_spec (sink w) (sink w ++ stream r) fuel polls' s) as (p & st & s' & ws & E & Hp);
      simpl; rewrite ?Hbs, ?Hws; try done; [lia|].
    exists p, st, s', ws. split; [exact E|by apply Hwhole].
Qed.

(** Lines written are the lines read.  A reader over lines of UTF-8 text,
    each ended with "\\n" or "\\r\\n" and none split by one, behind a [BufReader]
    of any capacity but zero: however the bytes arrive and however often
    [next_line] has to wait, its successive calls return the lines in order,
    without their ends, and then [None]; an error can only come from the
    reader underneath.  Every call terminates without panic. *)
Theorem lines_roundtrip `{LawfulRead R} `{BuildProfile} (fails : io_error → Prop) (r : R) capacity fuel calls ls :
  (∀ cx b (r : R) e b' r' ws, poll_read cx b r = Some ((Ready (Err e), b'), r', ws) → fails e) →
  read_ok r → 0 < capacity < 2 ^ (usize_bits - 1) →
  stream r = unlines ls → Forall text_line ls →
  blen (stream r) < 2 ^ usize_bits → (length (stream r) + 1 ≤ fuel)%nat →
  ∃ out t ws, take_lines fuel calls (buf_reader_with_capacity capacity r) = Some (out, t, ws) ∧
    as_expected fails out ls.
Proof.
  intros Hf Hr Hc Hs Hls Hlim Hfuel.
  destruct (buf_reader_start r capacity Hr Hc) as [Hok Es].
  apply take_lines_spec; simpl; rewrite ?Es; try done. by apply br_fill_fails.
Qed.

(** ** On a concrete reader and writer *)

#[local] Existing Instance dev_profile.

Lemma mem_fails cx b (r : MemReader) e b' r' ws : poll_read cx b r = Some ((Ready (Err e), b'), r', ws) → False.
Proof. destruct r as [d s []]; unfold poll_read, mem_read; run_M; by intros ?. Qed.

Lemma lines_roundtrip_witness :
  let ls := [([104; 105], true); ([], false); ([195; 169], false)] in
  let r := mkMem (unlines ls) 2 false in
  read_ok r ∧ Forall text_line ls ∧
  ∃ out t ws, take_lines 12 (repeat (repeat 0%nat 6) 4) (buf_reader_with_capacity 3 r) = Some (out, t, ws) ∧
    as_expected (λ _, False) out ls.
Proof.
  intros ls r. assert (read_ok r) as Hr by (apply Nat.lt_0_succ).
  assert (Forall text_line ls) as Hls.
  { repeat constructor; simpl; try done; rewrite ?elem_of_cons; intros; set_solver by lia. }
  split; [exact Hr|]. split; [exact Hls|].
  exact (lines_roundtrip (λ _, False) r 3 12 (repeat (repeat 0%nat 6) 4) ls mem_fails Hr
    ltac:(split; reflexivity) eq_refl Hls ltac:(reflexivity) ltac:(simpl; lia)).
Defined.

(** They do come: "hi", an empty line, "é". *)
Example lines_demo :
  option_map (λ x, x.1.1) (take_lines 12 (repeat (repeat 0%nat 6) 4) (buf_reader_with_capacity 3
    (mkMem (unlines [([104; 105], true); ([], false); ([195; 169], false)]) 2 false))) =
  Some [Ok (Some [104; 105]); Ok (Some []); Ok (Some [195; 169]); Ok None].
Proof. reflexivity. Qed.

Lemma copies_agree_witness :
  let r := mkMem [1; 2; 3; 4; 5; 6; 7] 2 false in
  let s := (buf_reader_with_capacity 3 r, buf_writer_with_capacity 4 ([0] : list byte)) in
  read_ok r ∧ write_ok ([0] : list byte) ∧
  ∃ p st s' ws, run_polls (copy 17) (repeat 0%nat 9) copy_start s = Some ((p, st), s', ws) ∧
    (p = Ready (Ok 7) → settled s'.2.(bw_inner) = [0; 1; 2; 3; 4; 5; 6; 7]).
Proof.
  intros r s. assert (read_ok r) as Hr by (apply Nat.lt_0_succ). split; [exact Hr|]. split; [exact I|].
  assert (write_ok ([0] : list byte)) as Hw by exact I.
  destruct (copies_agree 3 4 r ([0] : list byte) 17 (repeat 0%nat 9) [] Hr Hw
    ltac:(split; reflexivity) ltac:(split; [discriminate|reflexivity]) ltac:(reflexivity) ltac:(simpl; lia))
    as [(p & st & s' & ws & E & Hok) _].
  exists p, st, s', ws. split; [exact E|]. intros Hp. apply (Hok 7 Hp).
Defined.

Example copies_demo :
  let s := (buf_reader_with_capacity 3 (mkMem [1; 2; 3; 4; 5; 6; 7] 2 false), buf_writer_with_capacity 4 ([0] : list byte)) in
  option_map (λ x, (x.1.1.1, x.1.2.2.(bw_inner))) (run_polls (copy 17) (repeat 0%nat 9) copy_start s) =
    Some (Ready (Ok 7), [0; 1; 2; 3; 4; 5; 6; 7]) ∧
  option_map (λ x, (x.1.1.1, x.1.2.2.(bw_inner))) (run_polls (copy_buf 17) (repeat 0%nat 9) copy_buf_start s) =
    Some (Ready (Ok 7), [0; 1; 2; 3; 4; 5; 6; 7]).
Proof. split; vm_compute; reflexivity. Qed.

(** Why the capacity is not zero: such a [BufReader] calls any reader at its
    end as soon as its buffer is asked for. *)
Example buf_reader_zero_capacity :
  option_map (λ x, x.1.1) (poll_fill_buf 0%nat (buf_reader_with_capacity 0 (mkMem [1; 2] 2 true))) = Some (Ready (Ok [])).
Proof. reflexivity. Qed.
