(* ===== verification/Pipes.v ===== *)
(** In-memory streams: [duplex] ([src/src/io/duplex.rs]), [simplex]
    ([src/src/io/simplex.rs]), and the trivial ones ([src/src/io/util.rs],
    [src/src/io/join.rs]).

    Both files define the same [Pipe]; every operation on it is one critical
    section.  A duplex pair is two pipes shared by two halves, and its theorem
    is about any interleaving of what the halves do. *)

From S2P Require Import Prelude AsyncIo.

(** ** [Pipe] *)

Record Pipe := mkPipe {
  pbuf : list byte; pcapacity : Z;
  write_half_closed : bool; read_half_dropped : bool;
  read_waker : option waker; write_waker : option waker;
}.

Definition pipe_new (capacity : Z) : Pipe := mkPipe [] capacity false false None None.

Definition pipe_poll_read `{BuildProfile} (cx : waker) (b : ReadBuf)
    : M Pipe (poll (result unit io_error) * ReadBuf) :=
  let! p := get in
  if blen p.(pbuf) =? 0 then
    if p.(write_half_closed) then ret (Ready (Ok tt), b)
    else
      put (mkPipe p.(pbuf) p.(pcapacity) p.(write_half_closed) p.(read_half_dropped) (Some cx) p.(write_waker)) ;!
      ret (Pending, b)
  else
    let n := Z.min (remaining b) (blen p.(pbuf)) in
    let! b' := lift (advance n (write_unfilled (upto n p.(pbuf)) b)) in
    put (mkPipe (from n p.(pbuf)) p.(pcapacity) p.(write_half_closed) p.(read_half_dropped) p.(read_waker) None) ;!
    wake_opt p.(write_waker) ;!
    ret (Ready (Ok tt), b').

(** [write_half_closed] is not looked at. *)
Definition pipe_poll_write `{BuildProfile} (cx : waker) (data : list byte) : M Pipe (poll (result Z io_error)) :=
  let! p := get in
  if p.(read_half_dropped) then ret (Ready (Err BrokenPipe))
  else if p.(pcapacity) <=? blen p.(pbuf) then
    put (mkPipe p.(pbuf) p.(pcapacity) p.(write_half_closed) p.(read_half_dropped) p.(read_waker) (Some cx)) ;!
    ret Pending
  else
    let! room := lift (usub usize_bits p.(pcapacity) (blen p.(pbuf))) in
    let n := Z.min room (blen data) in
    put (mkPipe (p.(pbuf) ++ upto n data) p.(pcapacity) p.(write_half_closed) p.(read_half_dropped) None p.(write_waker)) ;!
    wake_opt p.(read_waker) ;!
    ret (Ready (Ok n)).

Definition close_write : M Pipe unit :=
  let! p := get in
  put (mkPipe p.(pbuf) p.(pcapacity) true p.(read_half_dropped) None p.(write_waker)) ;!
  wake_opt p.(read_waker).

Definition drop_read : M Pipe unit :=
  let! p := get in
  put (mkPipe p.(pbuf) p.(pcapacity) p.(write_half_closed) true p.(read_waker) None) ;!
  wake_opt p.(write_waker).

(** ** [duplex] *)

Record Inner := mkInner { a_to_b : Pipe; b_to_a : Pipe }.

(** Which half: [is_a]. *)
Inductive half := HalfA | HalfB.
#[export] Instance half_eq_dec : EqDecision half.
Proof. solve_decision. Defined.
Definition peer (h : half) : half := match h with HalfA => HalfB | HalfB => HalfA end.

(** [None] is the panic. *)
Definition duplex (max_buf_size : Z) : option Inner :=
  if 0 <? max_buf_size then Some (mkInner (pipe_new max_buf_size) (pipe_new max_buf_size)) else None.

Definition write_pipe (h : half) (i : Inner) : Pipe := match h with HalfA => i.(a_to_b) | HalfB => i.(b_to_a) end.
Definition read_pipe (h : half) (i : Inner) : Pipe := write_pipe (peer h) i.
Definition set_write_pipe (h : half) (p : Pipe) (i : Inner) : Inner :=
  match h with HalfA => mkInner p i.(b_to_a) | HalfB => mkInner i.(a_to_b) p end.

Definition on_write_pipe {X} (h : half) (m : M Pipe X) : M Inner X := zoom (write_pipe h) (set_write_pipe h) m.
Definition on_read_pipe {X} (h : half) (m : M Pipe X) : M Inner X := on_write_pipe (peer h) m.

Section duplex.
Context `{BuildProfile}.
Definition duplex_poll_read (h : half) (cx : waker) (b : ReadBuf) := on_read_pipe h (pipe_poll_read cx b).
Definition duplex_poll_write (h : half) (cx : waker) (data : list byte) := on_write_pipe h (pipe_poll_write cx data).
Definition duplex_poll_flush (_ : waker) : M Inner (poll (result unit io_error)) := ret (Ready (Ok tt)).
Definition duplex_poll_shutdown (h : half) (_ : waker) : M Inner (poll (result unit io_error)) :=
  on_write_pipe h close_write ;! ret (Ready (Ok tt)).
(** [drop]: two critical sections. *)
Definition duplex_drop_write (h : half) : M Inner unit := on_write_pipe h close_write.
Definition duplex_drop_read (h : half) : M Inner unit := on_read_pipe h drop_read.
End duplex.

(** ** [simplex] *)

Section simplex.
Context `{BuildProfile}.
Definition simplex (max_buf_size : Z) : option Pipe :=
  if 0 <? max_buf_size then Some (pipe_new max_buf_size) else None.
Definition simplex_poll_read (cx : waker) (b : ReadBuf) := pipe_poll_read cx b.
Definition simplex_poll_write (cx : waker) (data : list byte) := pipe_poll_write cx data.
Definition simplex_poll_flush (_ : waker) : M Pipe (poll (result unit io_error)) := ret (Ready (Ok tt)).
Definition simplex_poll_shutdown (_ : waker) : M Pipe (poll (result unit io_error)) :=
  close_write ;! ret (Ready (Ok tt)).
Definition simplex_drop : M Pipe unit :=
  let! p := get in
  put (mkPipe p.(pbuf) p.(pcapacity) true true None None) ;!
  wake_opt p.(read_waker) ;!
  wake_opt p.(write_waker).
End simplex.

(** ** The trivial streams *)

(** [Empty], [Repeat], [Sink]. *)
Inductive Empty := mkEmpty.
Definition empty_poll_read (_ : waker) (b : ReadBuf) : M Empty (poll (result unit io_error) * ReadBuf) :=
  ret (Ready (Ok tt), b).
#[export] Instance empty_read : AsyncRead Empty := empty_poll_read.

Record Repeat := mkRepeat { repeated : byte }.
Definition repeat_poll_read `{BuildProfile} (_ : waker) (b : ReadBuf)
    : M Repeat (poll (result unit io_error) * ReadBuf) :=
  let! r := get in
  let n := remaining b in
  let! b' := lift (advance n (write_unfilled (repeat r.(repeated) (length (unfilled b))) b)) in
  ret (Ready (Ok tt), b').
#[export] Instance repeat_read `{BuildProfile} : AsyncRead Repeat := repeat_poll_read.

Inductive Sink := mkSink.
Definition sink_poll_write (_ : waker) (data : list byte) : M Sink (poll (result Z io_error)) :=
  ret (Ready (Ok (blen data))).
#[export] Instance sink_write : AsyncWrite Sink := {
  poll_write := sink_poll_write;
  poll_flush _ := ret (Ready (Ok tt));
  poll_shutdown _ := ret (Ready (Ok tt));
}.

(** [Join]: the reader and the writer it was made of, side by side. *)
Record IoJoin (R W : Type) := mkIoJoin { join_reader : R; join_writer : W }.
Arguments mkIoJoin {R W} join_reader join_writer.
Arguments join_reader {R W} i.
Arguments join_writer {R W} i.

Definition in_join_writer {R W X} (m : M W X) : M (IoJoin R W) X :=
  zoom join_writer (λ w j, mkIoJoin j.(join_reader) w) m.
Definition in_join_reader {R W X} (m : M R X) : M (IoJoin R W) X :=
  zoom join_reader (λ r j, mkIoJoin r j.(join_writer)) m.
#[export] Instance io_join_read `{AsyncRead R} {W} : AsyncRead (IoJoin R W) := λ cx b,
  in_join_reader (poll_read cx b).
#[export] Instance io_join_write {R} `{AsyncWrite W} : AsyncWrite (IoJoin R W) := {
  poll_write cx data := in_join_writer (poll_write cx data);
  poll_flush cx := in_join_writer (poll_flush cx);
  poll_shutdown cx := in_join_writer (poll_shutdown cx);
}.

#[export, program] Instance empty_lawful : LawfulRead Empty := { stream _ := []; read_ok _ := True }.
Next Obligation.
  intros cx b r _ Hb _. do 4 eexists. split; [reflexivity|]. split_and!; try done. exists [].
  split_and!; [done|by rewrite app_nil_r|done].
Qed.

#[export, program] Instance io_join_read_lawful `{LawfulRead R} {W} : LawfulRead (IoJoin R W) := {
  stream j := stream j.(join_reader); read_ok j := read_ok j.(join_reader);
}.
Next Obligation.
  intros R ?? W cx b j Hj Hb Hr. destruct (read_law cx b j.(join_reader) Hj Hb Hr) as (p & b' & r & ws & E & ?).
  do 4 eexists. split; [apply zoom_some, E|]. done.
Qed.

#[export, program] Instance io_join_write_lawful {R} `{LawfulWrite W} : LawfulWrite (IoJoin R W) := {
  sink j := sink j.(join_writer); write_ok j := write_ok j.(join_writer);
}.
Next Obligation.
  intros R W ?? cx data j Hj Hd Hl. destruct (write_law cx data j.(join_writer) Hj Hd Hl) as (p & w & ws & E & ?).
  do 3 eexists. split; [apply zoom_some, E|]. done.
Qed.
Next Obligation.
  intros R W ?? cx j Hj. destruct (flush_law cx j.(join_writer) Hj) as (p & w & ws & E & ?).
  do 3 eexists. split; [apply zoom_some, E|]. done.
Qed.
Next Obligation.
  intros R W ?? cx j Hj. destruct (shutdown_law cx j.(join_writer) Hj) as (p & w & ws & E & ?).
  do 3 eexists. split; [apply zoom_some, E|]. done.
Qed.

(** ** Two halves and what they do *)

(** A direction: its pipe, and what its writer has been told was accepted,
    what its reader has been given; [reader] and [writer] are the wakers of
    those told to wait and not woken since. *)
Record direction := mkDir {
  accepted : list byte; received : list byte; reader : option waker; writer : option waker;
}.
Definition dir_start : direction := mkDir [] [] None None.

(** [Dropping] is a half between the two critical sections of its [drop]. *)
Inductive phase := Live | Dropping | Dropped.

Record world := mkWorld { inner : Inner; dirs : half → direction; phases : half → phase }.

(** The direction [h] writes to is [dirs h]. *)
Definition set_at {X} (h : half) (x : X) (f : half → X) : half → X := λ k, if decide (k = h) then x else f k.

(** A waker called lets nobody wait on it any more. *)
Definition unpark (ws : list waker) (o : option waker) : option waker :=
  match o with Some w => if bool_decide (w ∈ ws) then None else Some w | None => None end.
Definition woken (ws : list waker) (d : direction) : direction :=
  mkDir d.(accepted) d.(received) (unpark ws d.(reader)) (unpark ws d.(writer)).

Definition waits {A} (cx : waker) (p : poll A) : option waker := match p with Pending => Some cx | _ => None end.

Section worlds.
Context `{BuildProfile} (max_buf_size : Z).

Inductive world_step : relation world :=
| step_read h cx b p b' W i ws :
    W.(phases) h = Live → buf_ok b →
    duplex_poll_read h cx b W.(inner) = Some ((p, b'), i, ws) →
    world_step W (mkWorld i
      (λ k, woken ws (set_at (peer h)
        (mkDir (W.(dirs) (peer h)).(accepted)
               ((W.(dirs) (peer h)).(received) ++ from (blen (filled_bytes b)) (filled_bytes b'))
               (waits cx p) (W.(dirs) (peer h)).(writer)) W.(dirs) k)) W.(phases))
| step_write h cx data p W i ws :
    W.(phases) h = Live → blen data < 2 ^ (usize_bits - 1) →
    duplex_poll_write h cx data W.(inner) = Some (p, i, ws) →
    world_step W (mkWorld i
      (λ k, woken ws (set_at h
        (mkDir ((W.(dirs) h).(accepted) ++ match p with Ready (Ok n) => upto n data | _ => [] end)
               (W.(dirs) h).(received) (W.(dirs) h).(reader) (waits cx p)) W.(dirs) k)) W.(phases))
| step_shutdown h cx p W i ws :
    W.(phases) h = Live →
    duplex_poll_shutdown h cx W.(inner) = Some (p, i, ws) →
    world_step W (mkWorld i (λ k, woken ws (W.(dirs) k)) W.(phases))
| step_drop_write h W i ws :
    W.(phases) h = Live →
    duplex_drop_write h W.(inner) = Some (tt, i, ws) →
    world_step W (mkWorld i
      (λ k, woken ws (set_at h (mkDir (W.(dirs) h).(accepted) (W.(dirs) h).(received) (W.(dirs) h).(reader) None)
        (set_at (peer h) (mkDir (W.(dirs) (peer h)).(accepted) (W.(dirs) (peer h)).(received) None
           (W.(dirs) (peer h)).(writer)) W.(dirs)) k))
      (set_at h Dropping W.(phases)))
| step_drop_read h W i ws :
    W.(phases) h = Dropping →
    duplex_drop_read h W.(inner) = Some (tt, i, ws) →
    world_step W (mkWorld i (λ k, woken ws (W.(dirs) k)) (set_at h Dropped W.(phases))).

Definition world_init (W : world) : Prop :=
  duplex max_buf_size = Some W.(inner) ∧ W.(dirs) = (λ _, dir_start) ∧ W.(phases) = (λ _, Live).
End worlds.

(** ** One direction *)

Section directions.
Context `{BuildProfile} (cap : Z) (Hcap : 0 < cap < 2 ^ usize_bits).
Implicit Types (p : Pipe) (d : direction).

(** What holds of a direction whose writing half is in phase [pw] and whose
    reading half is in phase [pr]. *)
Record dir_ok p d (pw pr : phase) : Prop := {
  do_cap : p.(pcapacity) = cap ∧ blen p.(pbuf) ≤ cap;
  do_bytes : d.(accepted) = d.(received) ++ p.(pbuf);
  do_reader : ∀ w, d.(reader) = Some w →
    p.(read_waker) = Some w ∧ p.(pbuf) = [] ∧ p.(write_half_closed) = false;
  do_writer : ∀ w, d.(writer) = Some w →
    p.(write_waker) = Some w ∧ blen p.(pbuf) = cap ∧ p.(read_half_dropped) = false;
  do_closed : pw ≠ Live → p.(write_half_closed) = true;
  do_dropped : p.(read_half_dropped) = true ↔ pr = Dropped;
}.

Lemma unpark_Some ws o w : unpark ws o = Some w → o = Some w ∧ w ∉ ws.
Proof. destruct o as [w'|]; simpl; [|done]. case_bool_decide; intros; by simplify_eq. Qed.

Lemma dir_woken ws p d pw pr : dir_ok p d pw pr → dir_ok p (woken ws d) pw pr.
Proof. intros []. split; simpl; try done; intros w [? _]%unpark_Some; eauto. Qed.

Lemma dir_start_ok : dir_ok (pipe_new cap) dir_start Live Live.
Proof. split; simpl; try done. split; [done|]. unfold blen. simpl. lia. Qed.

(** A waker in its slot that a call of it empties. *)
Lemma unpark_slot (o slot : option waker) w :
  (∀ w, o = Some w → slot = Some w) → unpark (match slot with Some w => [w] | None => [] end) o = Some w → False.
Proof. intros Ho [Hw Hn]%unpark_Some. rewrite (Ho w Hw) in Hn. apply Hn. by apply list_elem_of_singleton. Qed.

Lemma pipe_read_ok cx b p d pw pr : dir_ok p d pw pr → buf_ok b →
  ∃ q b' p' ws, pipe_poll_read cx b p = Some ((q, b'), p', ws) ∧ buf_ok b' ∧
    (∃ data, filled_bytes b' = filled_bytes b ++ data ∧ p.(pbuf) = data ++ p'.(pbuf) ∧
      (q = Pending → data = [])) ∧
    dir_ok p' (woken ws (mkDir d.(accepted) (d.(received) ++ from (blen (filled_bytes b)) (filled_bytes b'))
      (waits cx q) d.(writer))) pw pr ∧
    (q = Ready (Ok tt) → filled_bytes b' = filled_bytes b → 0 < remaining b →
      p.(pbuf) = [] ∧ p.(write_half_closed) = true) ∧ (∀ e, q ≠ Ready (Err e)).
Proof.
  intros [[Hc Hle] Hb Hr Hw Hcl Hd] Hbuf. unfold pipe_poll_read.
  rewrite (bind_silent get _ _ p p) by done.
  assert (from (blen (filled_bytes b)) (filled_bytes b) = []) as Hf0 by (apply from_all; lia).
  destruct (Z.eqb_spec (blen p.(pbuf)) 0) as [He|Hne].
  - apply blen_nil in He. destruct (write_half_closed p) eqn:Ecl.
    + do 4 eexists. split; [reflexivity|]. rewrite Hf0, app_nil_r.
      split_and!; try done; [exists []; rewrite app_nil_r; by split_and!|].
      apply dir_woken. split; simpl; try done.
    + do 4 eexists. split; [reflexivity|]. rewrite Hf0, app_nil_r.
      split_and!; try done; [exists []; rewrite app_nil_r; by split_and!|].
      apply dir_woken. split; simpl; try done. by rewrite app_nil_r.
  - pose proof (blen_nonneg p.(pbuf)). set (n := Z.min (remaining b) (blen p.(pbuf))).
    assert (0 ≤ n ≤ blen p.(pbuf)) as Hn by (unfold n, remaining; destruct Hbuf; lia).
    assert (blen (upto n p.(pbuf)) = n) as Hln by (by apply blen_upto).
    destruct (advance_written b (upto n p.(pbuf)) Hbuf) as (b' & E & Hb' & _ & Hf'); [lia|].
    rewrite Hln in E. do 4 eexists. split.
    { fold n. rewrite E. do 2 (eapply bind_some; [reflexivity|]). eapply bind_some; reflexivity. }
    split; [done|]. split; [exists (upto n p.(pbuf)); split_and!; [done| |done]; simpl; by rewrite upto_from|].
    assert (from (blen (filled_bytes b)) (filled_bytes b') = upto n p.(pbuf)) as -> by (rewrite Hf'; by apply from_app).
    split; [|split; [|done]].
    + split; simpl; try done.
      * split; [done|]. rewrite blen_from; lia.
      * by rewrite <- app_assoc, upto_from.
      * intros w Hwr. exfalso. rewrite ?app_nil_r in Hwr. eapply (unpark_slot d.(writer) p.(write_waker)); [|exact Hwr].
        intros w' Hw'. by destruct (Hw w' Hw').
    + intros _ Hfe Hrem. rewrite Hf' in Hfe. apply (f_equal blen) in Hfe. rewrite blen_app, Hln in Hfe. unfold n in Hfe. lia.
Qed.

Lemma pipe_write_ok cx data p d pw pr : dir_ok p d pw pr → blen data < 2 ^ (usize_bits - 1) →
  ∃ q p' ws, pipe_poll_write cx data p = Some (q, p', ws) ∧
    dir_ok p' (woken ws (mkDir (d.(accepted) ++ match q with Ready (Ok n) => upto n data | _ => [] end)
      d.(received) d.(reader) (waits cx q))) pw pr ∧
    match q with
    | Ready (Ok n) => n = Z.min (cap - blen p.(pbuf)) (blen data) ∧ pr ≠ Dropped ∧ blen p.(pbuf) < cap
    | Ready (Err e) => e = BrokenPipe ∧ pr = Dropped
    | Pending => pr ≠ Dropped ∧ blen p.(pbuf) = cap
    end.
Proof.
  intros [[Hc Hle] Hb Hr Hw Hcl Hd] Hlen. unfold pipe_poll_write.
  rewrite (bind_silent get _ _ p p) by done. destruct (read_half_dropped p) eqn:Erd.
  { do 3 eexists. split; [reflexivity|]. split; [|split; [done|by apply Hd]]. rewrite app_nil_r.
    apply dir_woken. split; simpl; try done. by rewrite Erd. }
  assert (pr ≠ Dropped) as Hnd by (intros ?%Hd; congruence).
  destruct (Z.leb_spec p.(pcapacity) (blen p.(pbuf))) as [Hfull|Hroom].
  - do 3 eexists. split; [reflexivity|]. split; [|split; [done|lia]]. rewrite app_nil_r.
    apply dir_woken. split; simpl; try done; [by rewrite app_nil_r|]. intros w [= <-]. split_and!; [done|lia|done].
  - rewrite usub_in_range by lia. set (n := Z.min (p.(pcapacity) - blen p.(pbuf)) (blen data)).
    pose proof (blen_nonneg data). assert (blen (upto n data) = n) as Hn by (apply blen_upto; lia).
    do 3 eexists. split.
    { eapply bind_some; [reflexivity|]. fold n. eapply bind_some; [reflexivity|]. eapply bind_some; reflexivity. }
    simpl. rewrite app_nil_r. split; [|split_and!; [by rewrite <- Hc|done|lia]].
    split; simpl; try done.
    + split; [done|]. rewrite blen_app. lia.
    + by rewrite Hb, app_assoc.
    + intros w Hwr. exfalso. eapply (unpark_slot d.(reader) p.(read_waker)); [|exact Hwr].
      intros w' Hw'. by destruct (Hr w' Hw').
Qed.

Lemma pipe_close_ok p d pw pr pw' :
  dir_ok p d pw pr →
  ∃ p' ws, close_write p = Some (tt, p', ws) ∧ p'.(write_half_closed) = true ∧
    dir_ok p' (woken ws d) pw' pr.
Proof.
  intros [[Hc Hle] Hb Hr Hw Hcl Hd]. do 2 eexists. split; [reflexivity|]. split; [done|].
  split; simpl; try done.
  - intros w Hwr. exfalso. eapply (unpark_slot d.(reader) p.(read_waker)); [|exact Hwr].
    intros w' Hw'. by destruct (Hr w' Hw').
  - intros w [Hw' _]%unpark_Some. by apply Hw.
Qed.

Lemma pipe_drop_read_ok p d pw pr :
  dir_ok p d pw pr →
  ∃ p' ws, drop_read p = Some (tt, p', ws) ∧ dir_ok p' (woken ws d) pw Dropped.
Proof.
  intros [[Hc Hle] Hb Hr Hw Hcl Hd]. do 2 eexists. split; [reflexivity|].
  split; simpl; try done.
  - intros w [Hr' _]%unpark_Some. by apply Hr.
  - intros w Hwr. exfalso. eapply (unpark_slot d.(writer) p.(write_waker)); [|exact Hwr].
    intros w' Hw'. by destruct (Hw w' Hw').
Qed.

(** Nobody of a half that goes waits any more. *)
Lemma dir_forget p d pw pr :
  dir_ok p d pw pr →
  dir_ok p (mkDir d.(accepted) d.(received) None d.(writer)) pw pr ∧
  dir_ok p (mkDir d.(accepted) d.(received) d.(reader) None) pw pr.
Proof. intros []. split; split; simpl; try done. Qed.

Lemma dir_phase p d pw pr pr' :
  dir_ok p d pw pr → pr ≠ Dropped → pr' ≠ Dropped → dir_ok p d pw pr'.
Proof. intros [] ? ?. split; try done. by split; [intros ?%do_dropped0|]. Qed.
End directions.

(** ** The pair *)

Lemma peer_peer h : peer (peer h) = h.
Proof. by destruct h. Qed.
Lemma peer_ne h : peer h ≠ h.
Proof. by destruct h. Qed.
Lemma half_cases h k : k = h ∨ k = peer h.
Proof. destruct h, k; naive_solver. Qed.
Lemma set_at_eq {X} h (x : X) f : set_at h x f h = x.
Proof. unfold set_at. by rewrite decide_True. Qed.
Lemma set_at_ne {X} h k (x : X) f : k ≠ h → set_at h x f k = f k.
Proof. intros. unfold set_at. by rewrite decide_False. Qed.
Lemma write_pipe_set h p i : write_pipe h (set_write_pipe h p i) = p.
Proof. by destruct h. Qed.
Lemma write_pipe_set_ne h k p i : k ≠ h → write_pipe k (set_write_pipe h p i) = write_pipe k i.
Proof. by destruct h, k. Qed.

Lemma on_write_pipe_inv {X} h (m : M Pipe X) i x i' ws :
  on_write_pipe h m i = Some (x, i', ws) → ∃ p', m (write_pipe h i) = Some (x, p', ws) ∧ i' = set_write_pipe h p' i.
Proof. unfold on_write_pipe, zoom. destruct (m _) as [[[y p'] ws']|]; [|done]. intros. simplify_eq. eauto. Qed.

Section duplex_laws.
Context `{BuildProfile} (cap : Z) (Hcap : 0 < cap < 2 ^ usize_bits).

Definition world_ok (W : world) : Prop := ∀ h,
  dir_ok cap (write_pipe h W.(inner)) (W.(dirs) h) (W.(phases) h) (W.(phases) (peer h)).

(** One pipe changes, and [ds] and [ph] say what for. *)
Lemma world_ok_update W h p' ds ph :
  dir_ok cap p' (ds h) (ph h) (ph (peer h)) →
  dir_ok cap (write_pipe (peer h) W.(inner)) (ds (peer h)) (ph (peer h)) (ph h) →
  world_ok (mkWorld (set_write_pipe h p' W.(inner)) ds ph).
Proof.
  intros Hd Hp k. simpl. destruct (half_cases h k) as [->| ->].
  - by rewrite write_pipe_set.
  - by rewrite write_pipe_set_ne, peer_peer by apply peer_ne.
Qed.

Lemma dir_dropped p d pr : dir_ok cap p d Dropping pr → dir_ok cap p d Dropped pr.
Proof. intros []. split; try done. intros _. by apply do_closed0. Qed.

Lemma world_step_ok W W' : world_ok W → world_step W W' → world_ok W'.
Proof.
  intros HW Hs.
  destruct Hs as [h cx b q b' W i ws Hl Hb E|h cx data q W i ws Hl Hd E|h cx q W i ws Hl E|h W i ws Hl E|h W i ws Hl E];
    pose proof (HW h) as Hh; pose proof (HW (peer h)) as Hp; rewrite peer_peer in Hp.
  - apply on_write_pipe_inv in E as (p' & E & ->).
    destruct (pipe_read_ok cap Hcap cx b _ _ _ _ Hp Hb) as (? & ? & ? & ? & E' & _ & _ & Hok & _).
    rewrite E in E'. simplify_eq. apply world_ok_update; rewrite ?peer_peer, ?set_at_eq; [done|].
    rewrite set_at_ne by (intros He; symmetry in He; by destruct (peer_ne h)). by apply dir_woken.
  - apply on_write_pipe_inv in E as (p' & E & ->).
    destruct (pipe_write_ok cap cx data _ _ _ _ Hh Hd) as (? & ? & ? & E' & Hok & _).
    rewrite E in E'. simplify_eq. apply world_ok_update; rewrite ?set_at_eq; [done|].
    rewrite set_at_ne by apply peer_ne. by apply dir_woken.
  - unfold duplex_poll_shutdown, bind, ret in E. destruct (on_write_pipe h close_write (inner W)) as [[[[] i'] ws']|] eqn:Ec; [|done].
    simplify_eq. rewrite app_nil_r. apply on_write_pipe_inv in Ec as (p' & Ec & ->).
    destruct (pipe_close_ok cap _ _ _ _ (phases W h) Hh) as (? & ? & E' & _ & Hok). rewrite Ec in E'. simplify_eq.
    apply world_ok_update; [done|by apply dir_woken].
  - apply on_write_pipe_inv in E as (p' & E & ->).
    destruct (dir_forget cap _ _ _ _ Hh) as [_ Hh']. destruct (dir_forget cap _ _ _ _ Hp) as [Hp' _].
    destruct (pipe_close_ok cap _ _ _ _ Dropping Hh') as (? & ? & E' & _ & Hok). rewrite E in E'. simplify_eq.
    apply world_ok_update; repeat first [rewrite set_at_eq | rewrite set_at_ne by apply peer_ne]; [done|].
    apply dir_woken. eapply dir_phase; [exact Hp'| |done]. by rewrite Hl.
  - apply on_write_pipe_inv in E as (p' & E & ->).
    destruct (pipe_drop_read_ok cap _ _ _ _ Hp) as (? & ? & E' & Hok). rewrite E in E'. simplify_eq.
    apply world_ok_update; rewrite ?peer_peer; repeat first [rewrite set_at_eq | rewrite set_at_ne by apply peer_ne]; [done|].
    apply dir_woken, dir_dropped. by rewrite <- Hl.
Qed.

Lemma world_init_ok W : world_init cap W → world_ok W.
Proof.
  intros (Hi & Hd & Hp) h. rewrite Hd, Hp. unfold duplex in Hi. destruct (Z.ltb_spec 0 cap); [|done].
  injection Hi as Hi. rewrite <- Hi. destruct h; by apply dir_start_ok.
Qed.

Lemma world_reachable_ok W : reachable (world_init cap) world_step W → world_ok W.
Proof. apply (invariant_reachable _ _ world_ok); [apply world_init_ok|intros ??; apply world_step_ok]. Qed.
End duplex_laws.

(** C31: a duplex pair carries bytes as promised.  Whatever the two halves do, in
    any interleaving - reads into any buffers, writes of any slices, shutdowns,
    drops half done - in each direction: what the reader was given, followed by
    what the pipe holds, is what the writer was told was accepted, in order; the
    pipe never holds more than [max_buf_size] bytes; a reader told to wait and
    not woken since has its waker in the slot and nothing to read, and a writer
    so told has its waker in its slot and a full pipe nobody has abandoned - so
    the two never wait for each other.  No operation panics; a read into a
    buffer with room that gives nothing means that the writer closed and that
    all it had accepted was read; and a write fails only when the reader is
    gone. *)
Theorem duplex_carries `{BuildProfile} max_buf_size W h :
  0 < max_buf_size < 2 ^ usize_bits → reachable (world_init max_buf_size) world_step W →
  let d := W.(dirs) h in let p := write_pipe h W.(inner) in
  (d.(accepted) = d.(received) ++ p.(pbuf) ∧ blen p.(pbuf) ≤ max_buf_size) ∧
  (∀ w, d.(reader) = Some w → p.(read_waker) = Some w ∧ p.(pbuf) = [] ∧ p.(write_half_closed) = false) ∧
  (∀ w, d.(writer) = Some w → p.(write_waker) = Some w ∧ blen p.(pbuf) = max_buf_size ∧ W.(phases) (peer h) ≠ Dropped) ∧
  (d.(reader) = None ∨ d.(writer) = None) ∧
  (∀ cx b, buf_ok b → ∃ q b' i ws, duplex_poll_read (peer h) cx b W.(inner) = Some ((q, b'), i, ws) ∧
     (q = Ready (Ok tt) → filled_bytes b' = filled_bytes b → 0 < remaining b →
        d.(received) = d.(accepted) ∧ p.(write_half_closed) = true)) ∧
  (∀ cx data, blen data < 2 ^ (usize_bits - 1) → ∃ q i ws, duplex_poll_write h cx data W.(inner) = Some (q, i, ws) ∧
     ∀ e, q = Ready (Err e) → e = BrokenPipe ∧ W.(phases) (peer h) = Dropped).
Proof.
  intros Hcap HW d p.
  assert (dir_ok max_buf_size p d (W.(phases) h) (W.(phases) (peer h))) as Hok by (by apply world_reachable_ok).
  pose proof Hok as [[Hc Hle] Hb Hr Hw _ Hd].
  split; [done|]. split; [done|]. split; [|split; [|split]].
  - intros w Hww. destruct (Hw w Hww) as (? & ? & Hnd). split_and!; try done.
    intros He. destruct Hd as [_ Hd]. rewrite (Hd He) in Hnd. done.
  - destruct d.(reader) as [w|] eqn:Er; [right|by left]. destruct d.(writer) as [w'|] eqn:Ew; [|done].
    destruct (Hr w eq_refl) as (_ & Hn & _). destruct (Hw w' eq_refl) as (_ & Hf & _). rewrite Hn in Hf.
    unfold blen in Hf. simpl in Hf. lia.
  - intros cx b Hbuf. destruct (pipe_read_ok _ Hcap cx b _ _ _ _ Hok Hbuf) as (q & b' & p' & ws & E & _ & _ & _ & Heof & _).
    exists q, b', (set_write_pipe h p' W.(inner)), ws. split.
    + unfold duplex_poll_read, on_read_pipe. rewrite peer_peer. by apply zoom_some.
    + intros Hq Hf Hrem. destruct (Heof Hq Hf Hrem) as [Hn ?]. split; [|done]. by rewrite Hb, Hn, app_nil_r.
  - intros cx data Hlen. destruct (pipe_write_ok _ cx data _ _ _ _ Hok Hlen) as (q & p' & ws & E & _ & Hq).
    exists q, (set_write_pipe h p' W.(inner)), ws. split; [by apply zoom_some|]. intros e ->. done.
Qed.

(** ** What the pipes do not promise *)

#[local] Existing Instance dev_profile.

(** A write after a shutdown: half A shuts its direction down and half B reads
    the end of the stream; A writes again, is told [Ok], and B, which had seen
    the end, reads on. *)
Lemma duplex_write_after_shutdown :
  let room := read_buf_new [0; 0] in
  ∃ i1 i2 i3 i4,
    duplex 4 = Some i1 ∧
    duplex_poll_shutdown HalfA 0%nat i1 = Some (Ready (Ok tt), i2, []) ∧
    duplex_poll_read HalfB 1%nat room i2 = Some ((Ready (Ok tt), room), i2, []) ∧
    duplex_poll_write HalfA 0%nat [7] i2 = Some (Ready (Ok 1), i3, []) ∧
    duplex_poll_read HalfB 1%nat room i3 = Some ((Ready (Ok tt), mkReadBuf [7; 0] 1), i4, []).
Proof. do 4 eexists. repeat (split; [reflexivity|]). reflexivity. Qed.

(** Two readers of one simplex pipe: the second displaces the first, which no
    write wakes. *)
Lemma simplex_second_reader_displaces :
  let room := read_buf_new [0; 0] in
  ∃ p1 p2 p3 p4,
    simplex 4 = Some p1 ∧
    simplex_poll_read 1%nat room p1 = Some ((Pending, room), p2, []) ∧
    simplex_poll_read 2%nat room p2 = Some ((Pending, room), p3, []) ∧
    simplex_poll_write 3%nat [7; 8; 9] p3 = Some (Ready (Ok 3), p4, [2%nat]) ∧
    p4.(read_waker) = None ∧ blen p4.(pbuf) = 3.
Proof. do 4 eexists. repeat (split; [reflexivity|]). reflexivity. Qed.

(** A pair of capacity 2: A writes three bytes and has two accepted, tries the
    third and waits; B reads one, which wakes A. *)
Lemma duplex_carries_witness :
  ∃ W1 W2, reachable (world_init 2) world_step W1 ∧ reachable (world_init 2) world_step W2 ∧
    (W1.(dirs) HalfA).(writer) = Some 5%nat ∧ (write_pipe HalfA W1.(inner)).(write_waker) = Some 5%nat ∧
    (W2.(dirs) HalfA).(writer) = None ∧
    [1; 2] = (W2.(dirs) HalfA).(received) ++ (write_pipe HalfA W2.(inner)).(pbuf).
Proof.
  set (W0 := mkWorld (mkInner (pipe_new 2) (pipe_new 2)) (λ _, dir_start) (λ _, Live)).
  eassert (rtc world_step W0 _) as H1.
  { eapply rtc_l; [eapply (step_write HalfA 5%nat [1; 2; 3]); reflexivity|].
    eapply rtc_l; [eapply (step_write HalfA 5%nat [3]); reflexivity|]. apply rtc_refl. }
  match type of H1 with rtc _ _ ?W => set (W1 := W) in *; assert (reachable (world_init 2) world_step W1) as HW1 end.
  { exists W0. split; [done|exact H1]. }
  eassert (rtc world_step W0 _) as H2.
  { eapply rtc_r; [exact H1|]. eapply (step_read HalfB 6%nat (read_buf_new [0])); [reflexivity|split; [split; discriminate|reflexivity]|reflexivity]. }
  match type of H2 with rtc _ _ ?W => set (W2 := W) in *; assert (reachable (world_init 2) world_step W2) as HW2 end.
  { exists W0. split; [done|exact H2]. }
  pose proof (duplex_carries 2 W1 HalfA ltac:(split; reflexivity) HW1) as (_ & _ & Hw & _).
  pose proof (duplex_carries 2 W2 HalfA ltac:(split; reflexivity) HW2) as ((Hb & _) & _).
  exists W1, W2. split; [exact HW1|]. split; [exact HW2|]. split; [reflexivity|].
  split; [apply (Hw 5%nat eq_refl)|]. split; [reflexivity|]. rewrite <- Hb. reflexivity.
Defined.
