(* ===== verification/Files.v ===== *)
(** [fs::File] ([src/src/fs/mod.rs]): a file whose every operation runs on the
    blocking pool, the file itself travelling there and back.

    [std::fs::File] is system calls: a class of operations, [StdFile].  The
    pool is seen through the one job a [File] can have there: [pool_runs] and
    [pool_drops] are what it may do to it between two polls, and [quick] says
    whether it has already run a job by the time the poll that sent it looks.
    All five polling functions of the file share one loop, as the comments of
    the source say, with their own request and their own arms. *)

From S2P Require Import Prelude AsyncIo.

Inductive seek_from := SeekStart (n : Z) | SeekEnd (n : Z) | SeekCurrent (n : Z).

(** [std::fs::File]: what each call does to the file and what it returns. *)
Class StdFile (F : Type) := {
  permissions : Type;
  std_read : Z → F → F * result (list byte) io_error;
  std_write : list byte → F → F * result Z io_error;
  std_seek : seek_from → F → F * result Z io_error;
  std_set_len : Z → F → F * result unit io_error;
  std_set_permissions : permissions → F → F * result unit io_error;
  std_sync_all : F → F * result unit io_error;
  std_sync_data : F → F * result unit io_error;
  std_try_clone : F → F * result F io_error;
}.

(** [read] gives no more bytes than it has room for. *)
Class LawfulStdFile (F : Type) `{StdFile F} :=
  std_read_law : ∀ want f chunk, 0 ≤ want → (std_read want f).2 = Ok chunk → blen chunk ≤ want.

Definition DEFAULT_MAX_BUF_SIZE : Z := 2 * 1024 * 1024.

Section file.
Context {F : Type} `{StdFile F}.

Inductive Op :=
| OpRead (r : result (list byte) io_error)
| OpWrite (r : result Z io_error)
| OpSeek (r : result Z io_error)
| OpSetLen (r : result unit io_error)
| OpSetPermissions (r : result unit io_error)
| OpSyncAll (r : result unit io_error)
| OpSyncData (r : result unit io_error)
| OpTryClone (r : result F io_error).

(** The closures sent to the pool. *)
Inductive request :=
| DoRead (want : Z)
| DoWrite (data : list byte)
| DoSeek (pos : seek_from)
| DoSetLen (size : Z)
| DoSetPermissions (perm : permissions)
| DoSyncAll
| DoSyncData
| DoTryClone.

Definition run_request (r : request) (f : F) : F * Op :=
  match r with
  | DoRead want => let '(f, x) := std_read want f in (f, OpRead x)
  | DoWrite data => let '(f, x) := std_write data f in (f, OpWrite x)
  | DoSeek pos => let '(f, x) := std_seek pos f in (f, OpSeek x)
  | DoSetLen size => let '(f, x) := std_set_len size f in (f, OpSetLen x)
  | DoSetPermissions perm => let '(f, x) := std_set_permissions perm f in (f, OpSetPermissions x)
  | DoSyncAll => let '(f, x) := std_sync_all f in (f, OpSyncAll x)
  | DoSyncData => let '(f, x) := std_sync_data f in (f, OpSyncData x)
  | DoTryClone => let '(f, x) := std_try_clone f in (f, OpTryClone x)
  end.

(** A job on the pool: still to run, or finished with its result, [None] if
    it panicked or was dropped. *)
Inductive job := Running (r : request) (f : F) | Finished (x : option (F * Op)).

Inductive State := Idle (f : F) | Busy (j : job) (handle_waker : option waker) | Poisoned.

Record File := mkFile { state : State; max_buf_size : Z }.

Definition file_of_std (f : F) : File := mkFile (Idle f) DEFAULT_MAX_BUF_SIZE.
Definition set_state (s : State) : M File unit := let! f := get in put (mkFile s f.(max_buf_size)).
Definition set_max_buf_size (n : Z) : M File unit := let! f := get in put (mkFile f.(state) n).

(** What the pool may do to the job. *)
Definition pool_ends (x : request → F → option (F * Op)) : M File unit :=
  let! f := get in
  match f.(state) with
  | Busy (Running r std) w => set_state (Busy (Finished (x r std)) None) ;! wake_opt w
  | _ => ret tt
  end.
Definition pool_runs : M File unit := pool_ends (λ r f, Some (run_request r f)).
Definition pool_drops : M File unit := pool_ends (λ _ _, None).

(** The loop: [accept] is the match on the finished operation, [Continue] for
    one that is somebody else's. *)
Fixpoint drain_then_start {A} (fuel : nat) (quick : bool) (cx : waker) (req : request)
    (accept : Op → next unit A) (poisoned_error : A) : M File (poll A) :=
  match fuel with
  | O => panic
  | S fuel =>
      let! f := get in
      match f.(state) with
      | Idle std =>
          set_state (Busy (Running req std) None) ;!
          (if quick then pool_runs else ret tt) ;!
          drain_then_start fuel quick cx req accept poisoned_error
      | Busy (Running r std) _ => set_state (Busy (Running r std) (Some cx)) ;! ret Pending
      | Busy (Finished None) _ => set_state Poisoned ;! ret (Ready poisoned_error)
      | Busy (Finished (Some (std, op))) _ =>
          set_state (Idle std) ;!
          match accept op with
          | Return a => ret (Ready a)
          | Continue _ => drain_then_start fuel quick cx req accept poisoned_error
          | Panicked => panic
          end
      | Poisoned => ret (Ready poisoned_error)
      end
  end.

(** Draining, starting and finishing: three turns. *)
Definition loop_fuel : nat := 3.

(** The arms of each match. *)
Definition accept_unit (op : Op) : next unit (result unit io_error) :=
  match op with
  | OpSetLen r | OpSetPermissions r | OpSyncAll r | OpSyncData r => Return r
  | _ => Continue tt
  end.
Definition accept_try_clone (op : Op) : next unit (result F io_error) :=
  match op with OpTryClone r => Return r | _ => Continue tt end.
Definition accept_read `{BuildProfile} (b : ReadBuf) (op : Op) : next unit (result unit io_error * ReadBuf) :=
  match op with
  | OpRead (Ok chunk) =>
      if blen chunk <=? remaining b then
        match advance (blen chunk) (write_unfilled chunk b) with
        | Some b' => Return (Ok tt, b')
        | None => Panicked
        end
      else Panicked
  | OpRead (Err e) => Return (Err e, b)
  | _ => Continue tt
  end.
Definition accept_write (op : Op) : next unit (result Z io_error) :=
  match op with OpWrite r => Return r | _ => Continue tt end.
Definition accept_seek (op : Op) : next unit (result Z io_error) :=
  match op with OpSeek r => Return r | _ => Continue tt end.

Definition poll_dispatch (quick : bool) (cx : waker) (req : request) : M File (poll (result unit io_error)) :=
  drain_then_start loop_fuel quick cx req accept_unit (Err Other).
Definition set_len (size : Z) (quick : bool) (cx : waker) := poll_dispatch quick cx (DoSetLen size).
Definition set_permissions (perm : permissions) (quick : bool) (cx : waker) := poll_dispatch quick cx (DoSetPermissions perm).
Definition sync_all (quick : bool) (cx : waker) := poll_dispatch quick cx DoSyncAll.
Definition sync_data (quick : bool) (cx : waker) := poll_dispatch quick cx DoSyncData.

Definition poll_try_clone (quick : bool) (cx : waker) : M File (poll (result F io_error)) :=
  drain_then_start loop_fuel quick cx DoTryClone accept_try_clone (Err Other).
Definition try_clone (quick : bool) (cx : waker) : M File (poll (result File io_error)) :=
  let! r := poll_try_clone quick cx in
  let! f := get in
  ret match r with
      | Ready (Ok std) => Ready (Ok (mkFile (Idle std) f.(max_buf_size)))
      | Ready (Err e) => Ready (Err e)
      | Pending => Pending
      end.

Definition file_poll_read `{BuildProfile} (quick : bool) (cx : waker) (b : ReadBuf)
    : M File (poll (result unit io_error * ReadBuf)) :=
  let! f := get in
  drain_then_start loop_fuel quick cx (DoRead (Z.min (remaining b) f.(max_buf_size))) (accept_read b) (Err Other, b).
Definition file_poll_write (quick : bool) (cx : waker) (data : list byte) : M File (poll (result Z io_error)) :=
  let! f := get in
  drain_then_start loop_fuel quick cx (DoWrite (upto (Z.min (blen data) f.(max_buf_size)) data)) accept_write (Err Other).
Definition poll_seek (quick : bool) (cx : waker) (pos : seek_from) : M File (poll (result Z io_error)) :=
  drain_then_start loop_fuel quick cx (DoSeek pos) accept_seek (Err Other).

(** Nothing is looked at. *)
Definition file_poll_flush (_ : waker) : M File (poll (result unit io_error)) := ret (Ready (Ok tt)).
Definition file_poll_shutdown (cx : waker) : M File (poll (result unit io_error)) := file_poll_flush cx.

(** What [open], [create] and the like make of the end of their job. *)
Definition spawn_open (x : option (result F io_error)) : result File io_error :=
  match x with
  | Some (Ok std) => Ok (file_of_std std)
  | Some (Err e) => Err e
  | None => Err Other
  end.

(** [try_into_std]: the file, or the [File] unchanged. *)
Definition try_into_std (f : File) : result F File :=
  match f.(state) with Idle std => Ok std | _ => Err f end.
End file.
Arguments Op F : clear implicits.
Arguments request F {_}.
Arguments job F {_}.
Arguments State F {_}.
Arguments File F {_}.

(** ** A call as the synchronous file would answer it *)

Section calls.
Context {F : Type} `{StdFile F} `{BuildProfile}.

Inductive call : Type → Type :=
| CallRead (b : ReadBuf) : call (result unit io_error * ReadBuf)
| CallWrite (data : list byte) : call (result Z io_error)
| CallSeek (pos : seek_from) : call (result Z io_error)
| CallSetLen (size : Z) : call (result unit io_error)
| CallSetPermissions (perm : permissions) : call (result unit io_error)
| CallSyncAll : call (result unit io_error)
| CallSyncData : call (result unit io_error)
| CallTryClone : call (result F io_error).

(** One poll of the call's future. *)
Definition poll_call {A} (c : call A) (quick : bool) (cx : waker) : M (File F) (poll A) :=
  match c with
  | CallRead b => file_poll_read quick cx b
  | CallWrite data => file_poll_write quick cx data
  | CallSeek pos => poll_seek quick cx pos
  | CallSetLen size => set_len size quick cx
  | CallSetPermissions perm => set_permissions perm quick cx
  | CallSyncAll => sync_all quick cx
  | CallSyncData => sync_data quick cx
  | CallTryClone => poll_try_clone quick cx
  end.

(** The specification: the call made on the file itself, a read or a write
    taking [max] bytes at most. *)
Definition sync_call {A} (max : Z) (c : call A) (f : F) : F * A :=
  match c with
  | CallRead b =>
      let '(f, x) := std_read (Z.min (remaining b) max) f in
      (f, match x with
          | Ok chunk => (Ok tt, match advance (blen chunk) (write_unfilled chunk b) with Some b' => b' | None => b end)
          | Err e => (Err e, b)
          end)
  | CallWrite data => std_write (upto (Z.min (blen data) max) data) f
  | CallSeek pos => std_seek pos f
  | CallSetLen size => std_set_len size f
  | CallSetPermissions perm => std_set_permissions perm f
  | CallSyncAll => std_sync_all f
  | CallSyncData => std_sync_data f
  | CallTryClone => std_try_clone f
  end.

Definition request_of {A} (max : Z) (c : call A) : request F :=
  match c with
  | CallRead b => DoRead (Z.min (remaining b) max)
  | CallWrite data => DoWrite (upto (Z.min (blen data) max) data)
  | CallSeek pos => DoSeek pos
  | CallSetLen size => DoSetLen size
  | CallSetPermissions perm => DoSetPermissions perm
  | CallSyncAll => DoSyncAll
  | CallSyncData => DoSyncData
  | CallTryClone => DoTryClone
  end.

(** What the arms tell apart. *)
Inductive kind := KRead | KWrite | KSeek | KMetadata | KClone.
Definition kind_of (r : request F) : kind :=
  match r with
  | DoRead _ => KRead | DoWrite _ => KWrite | DoSeek _ => KSeek | DoTryClone => KClone
  | _ => KMetadata
  end.
Definition poisoned_answer {A} (c : call A) : A :=
  match c with CallRead b => (Err Other, b) | CallWrite _ | CallSeek _ => Err Other
  | CallSetLen _ | CallSetPermissions _ | CallSyncAll | CallSyncData => Err Other | CallTryClone => Err Other end.

(** What may happen while a call's future is alive: it is polled, or the pool
    runs the job, or drops it. *)
Inductive event := Polled (cx : waker) (quick : bool) | PoolRuns | PoolDrops.

Fixpoint run_call {A} (c : call A) (events : list event) : M (File F) (poll A) :=
  match events with
  | [] => ret Pending
  | PoolRuns :: events => pool_runs ;! run_call c events
  | PoolDrops :: events => pool_drops ;! run_call c events
  | Polled cx quick :: events =>
      let! r := poll_call c quick cx in
      match r with Ready a => ret (Ready a) | Pending => run_call c events end
  end.

(** ** Calls are answered as the file itself would *)

Definition call_ok {A} (c : call A) : Prop := match c with CallRead b => buf_ok b | _ => True end.

Definition accepts {A} (c : call A) : Op F → next unit A :=
  match c with
  | CallRead b => accept_read b
  | CallWrite _ => accept_write
  | CallSeek _ => accept_seek
  | CallSetLen _ | CallSetPermissions _ | CallSyncAll | CallSyncData => accept_unit
  | CallTryClone => accept_try_clone
  end.

Lemma poll_call_loop {A} (c : call A) quick cx (f : File F) :
  poll_call c quick cx f =
    drain_then_start loop_fuel quick cx (request_of f.(max_buf_size) c) (accepts c) (poisoned_answer c) f.
Proof.
  destruct c; try reflexivity; unfold poll_call, file_poll_read, file_poll_write;
    by rewrite (bind_silent get _ _ f f) by done.
Qed.

Lemma accepts_own `{!LawfulStdFile F} {A} (c : call A) max f : call_ok c → 0 ≤ max →
  accepts c (run_request (request_of max c) f).2 = Return (sync_call max c f).2 ∧
  (run_request (request_of max c) f).1 = (sync_call max c f).1.
Proof.
  intros Hc Hm. destruct c as [b| | | | | | |]; simpl in *; try (by case_match).
  destruct (std_read _ f) as [f' [chunk|e]] eqn:E; simpl; [|done].
  pose proof (std_read_law (Z.min (remaining b) max) f chunk) as Hl. rewrite E in Hl.
  assert (0 ≤ remaining b) as Hr by (destruct Hc; unfold remaining; lia). specialize (Hl ltac:(lia) eq_refl).
  rewrite (proj2 (Z.leb_le _ _)) by lia.
  destruct (advance_written b chunk Hc) as (b' & -> & _); [lia|done].
Qed.

Lemma accepts_other {A} (c : call A) r f max :
  kind_of r ≠ kind_of (request_of max c) → accepts c (run_request r f).2 = Continue tt.
Proof. destruct c, r; simpl; try done; intros _; by case_match. Qed.

(** The file a call will find once what is in flight is done, and that this
    is another kind of operation than the call's. *)
Definition leftover (s : State F) : option F :=
  match s with
  | Idle f => Some f
  | Busy (Running r f) _ => Some (run_request r f).1
  | Busy (Finished x) _ => fst <$> x
  | Poisoned => None
  end.
Definition fresh {A} (c : call A) (s : State F) : Prop :=
  match s with
  | Busy (Running r f) _ => kind_of r ≠ kind_of (request_of 0 c)
  | Busy (Finished (Some (_, op))) _ => accepts c op = Continue tt
  | _ => True
  end.

Lemma kind_of_call {A} (c : call A) max : kind_of (request_of max c) = kind_of (request_of 0 c).
Proof. by destruct c. Qed.

(** The call's own request in flight, on the file [f1]. *)
Definition own {A} (c : call A) max (f1 : F) (s : State F) : Prop :=
  (∃ w, s = Busy (Running (request_of max c) f1) w) ∨
  (∃ w, s = Busy (Finished (Some (run_request (request_of max c) f1))) w).
Definition underway {A} (c : call A) max f1 (s : State F) : Prop :=
  fresh c s ∧ leftover s = Some f1 ∨ own c max f1 s.

Lemma pool_runs_spec {A} (c : call A) max f1 (f : File F) :
  underway c max f1 f.(state) → ∃ s ws, pool_runs f = Some (tt, mkFile s f.(max_buf_size), ws) ∧ underway c max f1 s.
Proof.
  destruct f as [s m]. unfold pool_runs, pool_ends, set_state. run_M. intros Hu.
  destruct s as [std|[r std|x] w|]; try (do 2 eexists; split; [reflexivity|done]).
  do 2 eexists. split; [reflexivity|]. destruct Hu as [[Hf Hl]|[[w' Hw]|[w' Hw]]]; [left|right; right|]; simplify_eq/=.
  - split; [|done]. destruct (run_request r std) as [f' op] eqn:E.
    change op with (f', op).2. rewrite <- E. eapply accepts_other. by rewrite (kind_of_call c 0).
  - by exists None.
Qed.

(** One turn of the loop on the call's own request. *)
Lemma own_turn `{!LawfulStdFile F} {A} (c : call A) max f1 quick cx fuel (f : File F) :
  call_ok c → 0 ≤ max → own c max f1 f.(state) →
  ∃ p s, drain_then_start (S fuel) quick cx (request_of max c) (accepts c) (poisoned_answer c) f =
      Some (p, mkFile s f.(max_buf_size), []) ∧
    match p with
    | Ready a => a = (sync_call max c f1).2 ∧ s = Idle (sync_call max c f1).1
    | Pending => s = Busy (Running (request_of max c) f1) (Some cx)
    end.
Proof.
  intros Hc Hm Ho. destruct f as [s m]. simpl in Ho. destruct (accepts_own c max f1 Hc Hm) as [Ha Hf].
  unfold own in Ho. simpl. unfold set_state. run_M. destruct Ho as [[w ->]|[w ->]].
  - by do 2 eexists.
  - destruct (run_request (request_of max c) f1) as [f2 op]. simpl in *. rewrite Ha. subst f2. by do 2 eexists.
Qed.

(** What a poll, or what is left of its loop, comes to. *)
Definition polled {A} (c : call A) max f1 cx (waiting : State F → Prop) (o : option (poll A * File F * list waker)) : Prop :=
  ∃ p s ws, o = Some (p, mkFile s max, ws) ∧
    match p with
    | Ready a => a = (sync_call max c f1).2 ∧ s = Idle (sync_call max c f1).1
    | Pending => waiting s ∧ ∃ r std, s = Busy (Running r std) (Some cx)
    end.

(** A job still to run may be somebody else's; with none the call's own is sent. *)
Definition waits_for {A} (c : call A) max f1 (s s' : State F) : Prop :=
  match s with Busy (Running _ _) _ => underway c max f1 s' | _ => own c max f1 s' end.

Lemma polled_own `{!LawfulStdFile F} {A} (c : call A) max f1 quick cx fuel s :
  call_ok c → 0 ≤ max → own c max f1 s →
  polled c max f1 cx (own c max f1) (drain_then_start (S fuel) quick cx (request_of max c) (accepts c) (poisoned_answer c) (mkFile s max)).
Proof.
  intros Hc Hm Ho. destruct (own_turn c max f1 quick cx fuel (mkFile s max) Hc Hm Ho) as (p & s' & E & Hp).
  exists p, s', []. split; [exact E|]. destruct p; [done|]. subst s'. split; [left; eauto|eauto].
Qed.

Lemma polled_idle `{!LawfulStdFile F} {A} (c : call A) max f1 quick cx fuel :
  call_ok c → 0 ≤ max →
  polled c max f1 cx (own c max f1) (drain_then_start (S (S fuel)) quick cx (request_of max c) (accepts c) (poisoned_answer c)
    (mkFile (Idle f1) max)).
Proof.
  intros Hc Hm.
  assert (drain_then_start (S (S fuel)) quick cx (request_of max c) (accepts c) (poisoned_answer c) (mkFile (Idle f1) max) =
    drain_then_start (S fuel) quick cx (request_of max c) (accepts c) (poisoned_answer c)
      (mkFile (Busy (if quick then Finished (Some (run_request (request_of max c) f1)) else Running (request_of max c) f1) None) max)) as ->.
  { destruct quick; cbn [drain_then_start].
    - rewrite (bind_silent get _ _ _ _ eq_refl). cbn [state].
      erewrite bind_silent by reflexivity. erewrite bind_silent by reflexivity. done.
    - rewrite (bind_silent get _ _ _ _ eq_refl). cbn [state].
      erewrite bind_silent by reflexivity. erewrite bind_silent by reflexivity. done. }
  apply polled_own; [done|done|]. destruct quick; [right|left]; eauto.
Qed.

(** A turn that drains somebody else's operation. *)
Lemma drain_turn {A} (c : call A) max std op w quick cx fuel :
  accepts c op = Continue tt →
  drain_then_start (S fuel) quick cx (request_of max c) (accepts c) (poisoned_answer c)
    (mkFile (Busy (Finished (Some (std, op))) w) max) =
  drain_then_start fuel quick cx (request_of max c) (accepts c) (poisoned_answer c) (mkFile (Idle std) max).
Proof.
  intros Ha. unfold drain_then_start at 1. rewrite (bind_silent get _ _ _ _ eq_refl). cbn [state].
  erewrite bind_silent by reflexivity. by rewrite Ha.
Qed.

Lemma poll_call_spec `{!LawfulStdFile F} {A} (c : call A) f1 quick cx (f : File F) :
  call_ok c → 0 ≤ f.(max_buf_size) → underway c f.(max_buf_size) f1 f.(state) →
  polled c f.(max_buf_size) f1 cx (waits_for c f.(max_buf_size) f1 f.(state)) (poll_call c quick cx f).
Proof.
  intros Hc Hm [[Hf Hl]|Ho]; rewrite poll_call_loop; destruct f as [s m]; cbn [state max_buf_size] in *.
  2:{ destruct (polled_own c m f1 quick cx 2 s Hc Hm Ho) as (p & s' & ws & E & Hp). exists p, s', ws. split; [exact E|].
      destruct p; [done|]. destruct Hp as [Hw ?]. split; [|done]. destruct s as [|[] ?|]; [done|by right|done..]. }
  unfold loop_fuel. destruct s as [std|[r std|[[std op]|]] w|]; simpl in Hf, Hl; simplify_eq.
  - by apply polled_idle.
  - exists Pending, (Busy (Running r std) (Some cx)), []. split; [reflexivity|]. split; [by left|eauto].
  - rewrite drain_turn by done. by apply polled_idle.
Qed.

Lemma run_call_spec `{!LawfulStdFile F} {A} (c : call A) f1 events (f : File F) :
  PoolDrops ∉ events → call_ok c → 0 ≤ f.(max_buf_size) → underway c f.(max_buf_size) f1 f.(state) →
  ∃ p s ws, run_call c events f = Some (p, mkFile s f.(max_buf_size), ws) ∧
    match p with
    | Ready a => a = (sync_call f.(max_buf_size) c f1).2 ∧ s = Idle (sync_call f.(max_buf_size) c f1).1
    | Pending => underway c f.(max_buf_size) f1 s
    end.
Proof.
  intros Hd Hc Hm. revert f Hm. induction events as [|e events IH]; intros f Hm Hu.
  { destruct f as [s m]. by exists Pending, s, []. }
  apply not_elem_of_cons in Hd as [He Hd]. specialize (IH Hd). destruct e as [cx quick| |]; [| |done]; simpl.
  - destruct (poll_call_spec c f1 quick cx f Hc Hm Hu) as (p & s & ws & E & Hp).
    assert (∀ s', waits_for c f.(max_buf_size) f1 f.(state) s' → underway c f.(max_buf_size) f1 s') as Hw.
    { intros s' Hw. unfold waits_for in Hw. destruct (state f) as [|[]|]; try done; by right. }
    destruct p as [a|].
    + do 3 eexists. split; [eapply bind_some; [exact E|reflexivity]|]. done.
    + destruct (IH (mkFile s f.(max_buf_size)) Hm) as (p & s' & ws' & E' & Hp'); [by apply Hw, Hp|].
      do 3 eexists. split; [eapply bind_some; [exact E|exact E']|]. done.
  - destruct (pool_runs_spec c f.(max_buf_size) f1 f Hu) as (s & ws & E & Hu').
    destruct (IH (mkFile s f.(max_buf_size)) Hm Hu') as (p & s' & ws' & E' & Hp').
    do 3 eexists. split; [eapply bind_some; [exact E|exact E']|]. done.
Qed.

(** When the pool has run what a poll left there, the next poll finds the
    call's own job, or its end. *)
Lemma pool_then_poll `{!LawfulStdFile F} {A} (c : call A) max f1 quick cx s r std w :
  call_ok c → 0 ≤ max → underway c max f1 s → s = Busy (Running r std) w →
  ∃ s2 ws, pool_runs (mkFile s max) = Some (tt, mkFile s2 max, ws) ∧
    polled c max f1 cx (own c max f1) (poll_call c quick cx (mkFile s2 max)) ∧
    (own c max f1 s → ∃ a s3 ws3, poll_call c quick cx (mkFile s2 max) = Some (Ready a, s3, ws3)).
Proof.
  intros Hc Hm Hu ->. destruct (pool_runs_spec c max f1 (mkFile (Busy (Running r std) w) max) Hu) as (s2 & ws & E & Hu2).
  exists s2, ws. split; [exact E|]. unfold pool_runs, pool_ends, set_state in E. run_M. simplify_eq. split.
  - apply (poll_call_spec c f1 quick cx (mkFile _ max) Hc Hm Hu2).
  - intros [[w' Hw]|[w' Hw]]; simplify_eq. rewrite poll_call_loop. unfold loop_fuel.
    destruct (own_turn c max f1 quick cx 2 (mkFile (Busy (Finished (Some (run_request (request_of max c) f1))) None) max) Hc Hm)
      as (p & s & Er & Hp); [right; eauto|].
    destruct p as [a|]; [do 3 eexists; exact Er|]. subst s. exfalso. revert Er. cbn [drain_then_start].
    rewrite (bind_silent get _ _ _ _ eq_refl). cbn [state]. destruct (run_request _ f1) as [std op] eqn:Eo.
    erewrite bind_silent by reflexivity. pose proof (proj1 (accepts_own c max f1 Hc Hm)) as Ha. rewrite Eo in Ha. simpl in Ha.
    by rewrite Ha.
Qed.

Lemma three_polls `{!LawfulStdFile F} {A} (c : call A) f1 (f : File F) cx1 cx2 cx3 q1 q2 q3 :
  call_ok c → 0 ≤ f.(max_buf_size) → underway c f.(max_buf_size) f1 f.(state) →
  ∃ a f' ws, run_call c [Polled cx1 q1; PoolRuns; Polled cx2 q2; PoolRuns; Polled cx3 q3] f = Some (Ready a, f', ws).
Proof.
  intros Hc Hm Hu. simpl. destruct f as [s m]. cbn [state max_buf_size] in *.
  destruct (poll_call_spec c f1 q1 cx1 (mkFile s m) Hc Hm Hu) as ([a|] & s1 & ws1 & E1 & Hp1); cbn [state max_buf_size] in *.
  { do 3 eexists. eapply bind_some; [exact E1|reflexivity]. }
  destruct Hp1 as (Hw1 & r1 & std1 & Hs1).
  assert (underway c m f1 s1) as Hu1 by (unfold waits_for in Hw1; destruct s as [|[]|]; try done; by right).
  destruct (pool_then_poll c m f1 q2 cx2 s1 r1 std1 _ Hc Hm Hu1 Hs1) as (s2 & ws2 & E2 & ([a|] & s3 & ws3 & E3 & Hp3) & _).
  { do 3 eexists. eapply bind_some; [exact E1|]. eapply bind_some; [exact E2|]. eapply bind_some; [exact E3|reflexivity]. }
  destruct Hp3 as (Hw3 & r3 & std3 & Hs3).
  destruct (pool_then_poll c m f1 q3 cx3 s3 r3 std3 _ Hc Hm ltac:(by right) Hs3) as (s4 & ws4 & E4 & _ & Hr).
  destruct (Hr Hw3) as (a & f5 & ws5 & E5).
  do 3 eexists. eapply bind_some; [exact E1|]. eapply bind_some; [exact E2|]. eapply bind_some; [exact E3|].
  eapply bind_some; [exact E4|]. eapply bind_some; [exact E5|reflexivity].
Qed.
End calls.

(** C32: a [File] answers as the file.  A call whose future is polled at any
    times, the pool running jobs at any times between, on a [File] with at most
    an abandoned operation of another kind in flight: no poll panics; the call
    is answered, once it is, exactly what the synchronous call answers on the
    file as the abandoned operation leaves it, and leaves the file as that
    call does; until then nothing has touched the file but the abandoned
    operation and this call, each at most once; and three polls are enough,
    with the pool at work between them. *)
Theorem file_call_exact `{LawfulStdFile F} `{BuildProfile} {A} (c : call A) (f1 : F) events (f : File F) :
  PoolDrops ∉ events → call_ok c → 0 ≤ f.(max_buf_size) → fresh c f.(state) → leftover f.(state) = Some f1 →
  let done := sync_call f.(max_buf_size) c f1 in
  (∃ p s ws, run_call c events f = Some (p, mkFile s f.(max_buf_size), ws) ∧
     (∀ a, p = Ready a → a = done.2 ∧ s = Idle done.1) ∧
     (p = Pending → leftover s = Some f1 ∨ leftover s = Some done.1)) ∧
  (∀ cx1 cx2 cx3 q1 q2 q3, ∃ a f' ws,
     run_call c [Polled cx1 q1; PoolRuns; Polled cx2 q2; PoolRuns; Polled cx3 q3] f = Some (Ready a, f', ws)).
Proof.
  intros Hd Hc Hm Hf Hl done. assert (underway c f.(max_buf_size) f1 f.(state)) as Hu by (by left). split.
  - destruct (run_call_spec c f1 events f Hd Hc Hm Hu) as (p & s & ws & E & Hp).
    exists p, s, ws. split; [exact E|]. split; [by intros a ->|]. intros ->.
    destruct (accepts_own c f.(max_buf_size) f1 Hc Hm) as [_ Hown].
    destruct Hp as [[_ ?]|[[w ->]|[w ->]]]; [by left|right; simpl; by rewrite Hown|right; simpl; by rewrite Hown].
  - intros. by apply (three_polls c f1).
Qed.

(** A job the pool drops takes the file with it: from then on every call fails. *)
Lemma file_poisoned `{StdFile F} `{BuildProfile} {A} (c : call A) quick cx max :
  poll_call c quick cx (mkFile Poisoned max) = Some (Ready (poisoned_answer c), mkFile Poisoned max, []).
Proof. by rewrite poll_call_loop. Qed.

Lemma file_dropped `{StdFile F} `{BuildProfile} {A} (c : call A) quick cx max w :
  poll_call c quick cx (mkFile (Busy (Finished None) w) max) = Some (Ready (poisoned_answer c), mkFile Poisoned max, []).
Proof. by rewrite poll_call_loop. Qed.

(** ** A file to try things on *)

(** Bytes, a position, and how often the file was synced. *)
Record MemFile := mkMemFile { content : list byte; cursor : Z; synced : Z }.

#[export] Instance mem_file : StdFile MemFile := {
  permissions := unit;
  std_read want f :=
    let chunk := upto want (from f.(cursor) f.(content)) in
    (mkMemFile f.(content) (f.(cursor) + blen chunk) f.(synced), Ok chunk);
  std_write data f :=
    (mkMemFile (upto f.(cursor) f.(content) ++ data ++ from (f.(cursor) + blen data) f.(content))
       (f.(cursor) + blen data) f.(synced), Ok (blen data));
  std_seek pos f :=
    let n := match pos with SeekStart n => n | SeekEnd n => blen f.(content) + n | SeekCurrent n => f.(cursor) + n end in
    if n <? 0 then (f, Err InvalidInput) else (mkMemFile f.(content) n f.(synced), Ok n);
  std_set_len n f :=
    (mkMemFile (upto n f.(content) ++ repeat 0 (Z.to_nat (n - blen f.(content)))) f.(cursor) f.(synced), Ok tt);
  std_set_permissions _ f := (f, Ok tt);
  std_sync_all f := (mkMemFile f.(content) f.(cursor) (f.(synced) + 1), Ok tt);
  std_sync_data f := (mkMemFile f.(content) f.(cursor) (f.(synced) + 1), Ok tt);
  std_try_clone f := (f, Ok f);
}.

#[export] Instance mem_file_lawful : LawfulStdFile MemFile.
Proof.
  intros want f chunk Hw [= <-]. unfold blen, upto. rewrite length_take. lia.
Qed.

#[local] Existing Instance dev_profile.

(** An abandoned operation of the call's own kind is taken for the call's.
    A [set_len(2)] is polled once and dropped; then [sync_all] returns [Ok]
    and the file was never synced.  A [write] of three bytes is polled once and
    dropped; then a [write] of one other byte is told that three were written,
    and its byte is in no file.  A [read] of four bytes is polled once and
    dropped; then a [read] into a buffer of two panics. *)
Theorem file_stale_answers :
  let f := file_of_std (mkMemFile [1; 2; 3; 4] 0 0) in
  (∃ f1 f2 std, run_call (CallSetLen 2) [Polled 0%nat false; PoolRuns] f = Some (Pending, f1, [0%nat]) ∧
     run_call CallSyncAll [Polled 0%nat false; PoolRuns; Polled 0%nat false] f1 = Some (Ready (Ok tt), f2, []) ∧
     f2.(state) = Idle std ∧ std.(synced) = 0) ∧
  (∃ f1 f2, run_call (CallWrite [7; 8; 9]) [Polled 0%nat false; PoolRuns] f = Some (Pending, f1, [0%nat]) ∧
     run_call (CallWrite [5]) [Polled 0%nat false] f1 = Some (Ready (Ok 3), f2, []) ∧
     f2.(state) = Idle (mkMemFile [7; 8; 9; 4] 3 0)) ∧
  (∃ f1, run_call (CallRead (read_buf_new [0; 0; 0; 0])) [Polled 0%nat false; PoolRuns] f = Some (Pending, f1, [0%nat]) ∧
     run_call (CallRead (read_buf_new [0; 0])) [Polled 0%nat false] f1 = None).
Proof.
  split; [|split].
  - do 3 eexists. split; [reflexivity|]. split; [reflexivity|]. split; reflexivity.
  - do 2 eexists. split; [reflexivity|]. split; reflexivity.
  - eexists. split; reflexivity.
Qed.

(** A flush says [Ok] while an abandoned write is still on its way. *)
Lemma file_flush_in_flight :
  let f := file_of_std (mkMemFile [] 0 0) in
  ∃ f1, run_call (CallWrite [7]) [Polled 0%nat false] f = Some (Pending, f1, []) ∧
    file_poll_flush 0%nat f1 = Some (Ready (Ok tt), f1, []) ∧
    f1.(state) = Busy (Running (DoWrite [7]) (mkMemFile [] 0 0)) (Some 0%nat).
Proof. eexists. split; [reflexivity|]. split; reflexivity. Qed.

(** A [seek] abandoned after one poll, then a [read] of three bytes. *)
Lemma file_call_exact_witness :
  let f := mkFile (Busy (Running (DoSeek (SeekStart 1)) (mkMemFile [1; 2; 3; 4] 0 0)) None) 10 in
  let c := CallRead (read_buf_new [0; 0; 0]) in
  (PoolDrops ∉ [PoolRuns; Polled 3%nat true]) ∧ call_ok c ∧ fresh c f.(state) ∧
  ∃ p s ws, run_call c [PoolRuns; Polled 3%nat true] f = Some (p, mkFile s 10, ws) ∧
    (∀ a, p = Ready a → a = (Ok tt, mkReadBuf [2; 3; 4] 3) ∧ s = Idle (mkMemFile [1; 2; 3; 4] 4 0)).
Proof.
  intros f c.
  assert (PoolDrops ∉ [PoolRuns; Polled 3%nat true]) as Hd by (rewrite !not_elem_of_cons; split_and!; try done; apply not_elem_of_nil).
  assert (call_ok c) as Hc by (split; [split; discriminate|reflexivity]).
  assert (fresh c f.(state)) as Hf by discriminate.
  split; [exact Hd|]. split; [exact Hc|]. split; [exact Hf|].
  destruct (file_call_exact c (mkMemFile [1; 2; 3; 4] 1 0) _ f Hd Hc ltac:(discriminate) Hf eq_refl)
    as [(p & s & ws & E & Hp & _) _].
  exists p, s, ws. split; [exact E|]. exact Hp.
Defined.

(** The call does resolve there. *)
Example file_call_demo :
  option_map (λ x, x.1.1)
    (run_call (CallRead (read_buf_new [0; 0; 0])) [PoolRuns; Polled 3%nat true]
      (mkFile (Busy (Running (DoSeek (SeekStart 1)) (mkMemFile [1; 2; 3; 4] 0 0)) None) 10)) =
    Some (Ready (Ok tt, mkReadBuf [2; 3; 4] 3)).
Proof. reflexivity. Qed.
