(* ===== verification/Join.v ===== *)
(** Join handles and join sets ([src/src/task/join.rs],
    [src/src/task/join_set.rs]). *)

From S2P Require Import Prelude.

Section join.
Context {T P : Type}.     (* what the task returns, and what a panic carries *)

Inductive JoinErrorPayload := Cancelled | PayloadPanicked (p : P).
Inductive Outcome := Aborted | OutcomePanicked (p : P).
Inductive JoinState :=
| Running
| Waiting (w : waker)
| Done (r : result T JoinErrorPayload)
| Taken.

Record JoinError := mkJoinError { panicked : option P }.

Definition from_payload (payload : JoinErrorPayload) : JoinError :=
  match payload with
  | Cancelled => mkJoinError None
  | PayloadPanicked p => mkJoinError (Some p)
  end.
Definition is_cancelled (e : JoinError) : bool := negb (bool_decide (is_Some e.(panicked))).
Definition is_panic (e : JoinError) : bool := bool_decide (is_Some e.(panicked)).
Definition try_into_panic (e : JoinError) : result P JoinError :=
  match e.(panicked) with Some p => Ok p | None => Err (mkJoinError None) end.
(** [None] is the panic of [expect]. *)
Definition into_panic (e : JoinError) : option P :=
  match try_into_panic e with Ok p => Some p | Err _ => None end.

Record JoinInner := mkInner { state : JoinState; finished : bool }.

Definition join_inner_new : JoinInner := mkInner Running false.

(** [finish], in its three parts: the swap under the lock, the store of the
    flag the abort handles read, the wake. *)
Definition finish_swap (r : result T JoinErrorPayload) : M JoinInner (option waker) :=
  let! i := get in
  put (mkInner (Done r) i.(finished)) ;!
  ret (match i.(state) with Waiting w => Some w | _ => None end).
Definition finish_flag : M JoinInner unit :=
  let! i := get in put (mkInner i.(state) true).
Definition finish (r : result T JoinErrorPayload) : M JoinInner unit :=
  let! w := finish_swap r in finish_flag ;! wake_opt w.

Definition complete (v : T) : M JoinInner unit := finish (Ok v).
Definition outcome_payload (o : Outcome) : JoinErrorPayload :=
  match o with Aborted => Cancelled | OutcomePanicked p => PayloadPanicked p end.
Definition finish_abnormal (o : Outcome) : M JoinInner unit := finish (Err (outcome_payload o)).

Definition join_result (r : result T JoinErrorPayload) : result T JoinError :=
  match r with Ok v => Ok v | Err e => Err (from_payload e) end.

Definition join_poll (cx : waker) : M JoinInner (poll (result T JoinError)) :=
  let! i := get in
  match i.(state) with
  | Done r => put (mkInner Taken i.(finished)) ;! ret (Ready (join_result r))
  | Taken => panic
  | Running | Waiting _ => put (mkInner (Waiting cx) i.(finished)) ;! ret Pending
  end.

Definition is_finished : M JoinInner bool :=
  let! i := get in
  ret (match i.(state) with Done _ | Taken => true | _ => false end).
(** [AbortHandle::is_finished]. *)
Definition abort_is_finished : M JoinInner bool := let! i := get in ret i.(finished).

(** ** A task's end and its handle *)

Inductive task_side :=
| Alive
| Swapped (r : result T JoinErrorPayload) (w : option waker)   (* about to store the flag *)
| Flagged (r : result T JoinErrorPayload) (w : option waker)   (* about to wake *)
| Ended (r : result T JoinErrorPayload).
Inductive handle_side :=
| Held (parked : option waker)     (* its waker, if it was told to wait and not woken since *)
| Resolved (r : result T JoinError)
| Dropped.

Record world := mkWorld { inner : JoinInner; task : task_side; handle : handle_side }.

Definition deliver (ws : list waker) (h : handle_side) : handle_side :=
  match h with
  | Held (Some w) => if bool_decide (w ∈ ws) then Held None else h
  | _ => h
  end.

Inductive wstep : world → world → Prop :=
| w_swap W r w i ws :
    W.(task) = Alive → finish_swap r W.(inner) = Some (w, i, ws) →
    wstep W (mkWorld i (Swapped r w) W.(handle))
| w_flag W r w i ws :
    W.(task) = Swapped r w → finish_flag W.(inner) = Some (tt, i, ws) →
    wstep W (mkWorld i (Flagged r w) W.(handle))
| w_wake W r w i ws :
    W.(task) = Flagged r w → wake_opt w W.(inner) = Some (tt, i, ws) →
    wstep W (mkWorld i (Ended r) (deliver ws W.(handle)))
| w_join_poll W p cx x i ws :
    W.(handle) = Held p → join_poll cx W.(inner) = Some (x, i, ws) →
    wstep W (mkWorld i W.(task)
      (match x with Ready r => Resolved r | Pending => Held (Some cx) end))
| w_handle_drop W p :
    W.(handle) = Held p → wstep W (mkWorld W.(inner) W.(task) Dropped).

Definition join_reachable : world → Prop :=
  reachable (.= mkWorld join_inner_new Alive (Held None)) wstep.

(** The outcome of the task, once it has one, and the waker it still owes a call. *)
Definition ended_with (t : task_side) : option (result T JoinErrorPayload) :=
  match t with Alive => None | Swapped r _ | Flagged r _ | Ended r => Some r end.
Definition owed (t : task_side) : option waker :=
  match t with Swapped _ w | Flagged _ w => w | _ => None end.

Definition WInv (W : world) : Prop :=
  W.(inner).(finished) = match W.(task) with Flagged _ _ | Ended _ => true | _ => false end ∧
  match W.(handle) with
  | Held p =>
      match ended_with W.(task) with
      | None => match p with
                | Some w => W.(inner).(state) = Waiting w
                | None => W.(inner).(state) = Running
                end
      | Some r => W.(inner).(state) = Done r ∧ ∀ w, p = Some w → owed W.(task) = Some w
      end
  | Resolved x => ∃ r, ended_with W.(task) = Some r ∧ x = join_result r ∧ W.(inner).(state) = Taken
  | Dropped =>
      match ended_with W.(task) with
      | None => W.(inner).(state) = Running ∨ ∃ w, W.(inner).(state) = Waiting w
      | Some r => W.(inner).(state) = Done r
      end
  end.

Lemma join_WInv_step W W' : WInv W → wstep W W' → WInv W'.
Proof.
  intros [Hf HW] Hst. unfold WInv.
  destruct Hst as [W r w i ws Ht Hop|W r w i ws Ht Hop|W r w i ws Ht Hop|W p cx x i ws Hh Hop|W p Hh].
  - rewrite Ht in *. unfold finish_swap in Hop. run_M. simplify_eq/=. split; [done|].
    destruct (handle W) as [[w|]|x|].
    + rewrite HW. split; [done|]. by intros ? [= <-].
    + by split.
    + by destruct HW as (? & ? & _).
    + done.
  - rewrite Ht in *. unfold finish_flag in Hop. run_M. simplify_eq/=. by split.
  - rewrite Ht in *. run_M. simplify_eq/=. split; [done|].
    destruct (handle W) as [[w0|]|x|]; simpl in *; try done; [|by destruct HW].
    destruct HW as [? Ho]. rewrite (Ho w0 eq_refl). rewrite bool_decide_eq_true_2 by set_solver.
    by split.
  - rewrite Hh in *. unfold join_poll in Hop. run_M.
    destruct (task W) eqn:Et; simpl in *.
    + destruct p; rewrite HW in Hop; simplify_eq/=; by split.
    + destruct HW as [HW _]. rewrite HW in Hop. simplify_eq/=. split; [done|]. by eexists.
    + destruct HW as [HW _]. rewrite HW in Hop. simplify_eq/=. split; [done|]. by eexists.
    + destruct HW as [HW _]. rewrite HW in Hop. simplify_eq/=. split; [done|]. by eexists.
  - rewrite Hh in *. split; [done|]. simpl. destruct (ended_with (task W)); [by destruct HW|].
    destruct p; eauto.
Qed.

(** ** [JoinSet]

    A member is its handle: the task's id and the shared [JoinInner]. *)

Record JoinHandle := mkHandle { id : nat; jinner : JoinInner }.
Abbreviation JoinSet := (list JoinHandle) (only parsing).

Definition join_set_new : JoinSet := [].
Definition join_set_len : M JoinSet nat := let! hs := get in ret (length hs).
Definition join_set_is_empty : M JoinSet bool := let! hs := get in ret (bool_decide (hs = [])).
(** [spawn] and [spawn_on]: the handle of the task spawned goes last. *)
Definition join_set_spawn (i : nat) : M JoinSet unit :=
  let! hs := get in put (hs ++ [mkHandle i join_inner_new]).

(** [Vec::swap_remove]: the last element takes the place of the one removed. *)
Definition swap_remove {A} (i : nat) (l : list A) : list A :=
  match last l with
  | Some x => if bool_decide (S i = length l) then removelast l else removelast (<[i := x]> l)
  | None => l
  end.

Definition with_member {A} (i : nat) (m : M JoinInner A) : M JoinSet A :=
  let! hs := get in
  match hs !! i with
  | Some h => zoom (λ _, h.(jinner)) (λ j _, <[i := mkHandle h.(id) j]> hs) m
  | None => panic
  end.

(** The [for i in 0..len] loop of [poll_join_next], from [i] with [n] to go. *)
Fixpoint poll_members (cx : waker) (i n : nat) : M JoinSet (poll (option (result T JoinError))) :=
  match n with
  | O => ret Pending
  | S n =>
      let! x := with_member i (join_poll cx) in
      match x with
      | Ready r => let! hs := get in put (swap_remove i hs) ;! ret (Ready (Some r))
      | Pending => poll_members cx (S i) n
      end
  end.
Definition poll_join_next (cx : waker) : M JoinSet (poll (option (result T JoinError))) :=
  let! hs := get in
  if bool_decide (hs = []) then ret (Ready None) else poll_members cx 0 (length hs).

(** [abort_all], also what dropping the set does: the tasks told to stop. *)
Definition abort_all : M JoinSet (list nat) := let! hs := get in ret (map id hs).

(** One poll of the loop of [shutdown], [fuel] bounding its turns; [None] is
    fuel that ran out. *)
Fixpoint shutdown_poll (fuel : nat) (cx : waker) : M JoinSet (option (poll unit)) :=
  match fuel with
  | O => ret None
  | S fuel =>
      let! x := poll_join_next cx in
      match x with
      | Ready (Some _) => shutdown_poll fuel cx
      | Ready None => ret (Some (Ready tt))
      | Pending => ret (Some Pending)
      end
  end.

(** A member that can be polled: its result was not taken (the set drops a
    handle when it takes the result), and its task has or has not ended. *)
Definition not_taken (h : JoinHandle) : Prop := h.(jinner).(state) ≠ Taken.
Definition ended (h : JoinHandle) : Prop := ∃ r, h.(jinner).(state) = Done r.
#[export] Instance ended_dec h : Decision (ended h).
Proof.
  unfold ended. destruct (state (jinner h)) as [| |r|]; [right; by intros [??]..|left; by eexists|right; by intros [??]].
Defined.
(** The handle after a poll that found its task still running. *)
Definition registered (cx : waker) (h : JoinHandle) : JoinHandle :=
  mkHandle h.(id) (mkInner (Waiting cx) h.(jinner).(finished)).

Lemma swap_remove_Permutation {A} (l : list A) i x :
  l !! i = Some x → l ≡ₚ x :: swap_remove i l.
Proof.
  intros Hi. unfold swap_remove. destruct (last l) as [y|] eqn:Ey.
  2:{ apply last_None in Ey. by subst. }
  apply last_Some in Ey as [k ->]. rewrite length_app. simpl.
  case_bool_decide as Hlen.
  - rewrite removelast_last. assert (i = length k) as -> by lia.
    rewrite lookup_app_r, Nat.sub_diag in Hi by lia. simplify_eq/=. by rewrite Permutation_app_comm.
  - apply lookup_lt_Some in Hi as Hl. rewrite length_app in Hl. simpl in Hl.
    rewrite lookup_app_l in Hi by lia. rewrite insert_app_l by lia. rewrite removelast_last.
    rewrite Permutation_app_comm. simpl. rewrite <-(take_drop_middle k i x Hi) at 1.
    rewrite insert_take_drop by (apply lookup_lt_Some in Hi; lia).
    rewrite <-!Permutation_middle. constructor.
Qed.

Lemma poll_members_spec cx n pre hs :
  Forall not_taken (pre ++ hs) → length hs = n →
  (∃ r k1 h k2, hs = k1 ++ h :: k2 ∧ Forall (λ h, ¬ ended h) k1 ∧ h.(jinner).(state) = Done r ∧
     ∃ hs', poll_members cx (length pre) n (pre ++ hs) = Some (Ready (Some (join_result r)), hs', []) ∧
       hs' ≡ₚ pre ++ map (registered cx) k1 ++ k2) ∨
  Forall (λ h, ¬ ended h) hs ∧
    poll_members cx (length pre) n (pre ++ hs) = Some (Pending, pre ++ map (registered cx) hs, []).
Proof.
  revert pre hs. induction n as [|n IH]; intros pre hs Hnt Hlen.
  { destruct hs; [|done]. right. by split. }
  destruct hs as [|h hs]; [done|]. injection Hlen as Hlen.
  assert (not_taken h) as Hh by (rewrite Forall_app, Forall_cons in Hnt; tauto).
  assert ((pre ++ h :: hs) !! length pre = Some h) as Hget by (by rewrite list_lookup_middle).
  assert (∀ h', <[length pre := h']> (pre ++ h :: hs) = pre ++ h' :: hs) as Hset.
  { intros h'. by rewrite insert_app_r_alt, Nat.sub_diag by lia. }
  destruct (decide (ended h)) as [[r Hr]|Hne].
  - left. exists r, [], h, hs. split_and!; [done..|].
    simpl. unfold with_member, zoom, join_poll. run_M. rewrite Hget, Hr, Hset. eexists. split; [done|].
    apply (Permutation_cons_inv (a := mkHandle (id h) (mkInner Taken (finished (jinner h))))).
    rewrite <-swap_remove_Permutation by (by rewrite list_lookup_middle).
    by rewrite Permutation_middle.
  - assert (∀ fin, poll_members cx (length pre) (S n) (pre ++ h :: hs) = fin ↔
      poll_members cx (length (pre ++ [registered cx h])) n ((pre ++ [registered cx h]) ++ hs) = fin) as Hpoll.
    { intros fin. simpl. unfold with_member, zoom, join_poll. run_M. rewrite Hget.
      rewrite length_app, <-app_assoc. simpl. rewrite Nat.add_1_r.
      destruct (state (jinner h)) as [| |r|] eqn:E; [| |by destruct Hne; eexists|done];
        rewrite Hset; destruct (poll_members _ _ _ _) as [[[??]?]|]; done. }
    destruct (IH (pre ++ [registered cx h]) hs) as [(r & k1 & h' & k2 & -> & ? & ? & hs' & ? & Hp)|[? Hq]].
    { rewrite Forall_app, Forall_cons in Hnt. rewrite !Forall_app, Forall_singleton. unfold not_taken in *.
      naive_solver. }
    { done. }
    + left. exists r, (h :: k1), h', k2. split_and!; [done|by constructor|done|].
      exists hs'. split; [by apply Hpoll|]. by rewrite <-app_assoc in Hp.
    + right. split; [by constructor|]. apply Hpoll. rewrite Hq. by rewrite <-app_assoc.
Qed.

(** C21: a join handle gets its task's outcome, once.  In every reachable
    state: a handle that resolved did so with the task's outcome; one still
    held never panics when polled, and resolves exactly when the task has
    ended; one that waits, not woken since, has a task that has not ended and
    will find its waker, or is about to wake it; and the two views of whether
    the task has finished differ only between its outcome being stored and its
    flag being raised. *)
Theorem join_delivers W :
  join_reachable W →
  (∀ x, W.(handle) = Resolved x → ∃ r, ended_with W.(task) = Some r ∧ x = join_result r) ∧
  (∀ p cx, W.(handle) = Held p →
     ∃ i, join_poll cx W.(inner) =
       Some (match ended_with W.(task) with Some r => Ready (join_result r) | None => Pending end, i, [])) ∧
  (∀ w, W.(handle) = Held (Some w) →
     owed W.(task) = Some w ∨
     W.(task) = Alive ∧ ∀ r, ∃ i, finish r W.(inner) = Some (tt, i, [w])) ∧
  (W.(inner).(finished) = true →
     ∃ i, is_finished W.(inner) = Some (true, i, [])) ∧
  ((∃ r w, W.(task) = Swapped r w) ∨
     ∃ b, is_finished W.(inner) = Some (b, W.(inner), []) ∧
          abort_is_finished W.(inner) = Some (b, W.(inner), [])).
Proof.
  intros HR. assert (WInv W) as [Hf HW].
  { revert W HR. apply invariant_reachable; [|eauto using join_WInv_step]. by intros ? ->. }
  unfold join_poll, finish, finish_swap, finish_flag, is_finished, abort_is_finished. run_M.
  split_and!.
  - intros x Hx. rewrite Hx in HW. destruct HW as (r & ? & ? & _). by exists r.
  - intros p cx Hp. rewrite Hp in HW. destruct (ended_with (task W)) as [r|].
    + destruct HW as [-> _]. by eexists.
    + destruct p; rewrite HW; by eexists.
  - intros w Hp. rewrite Hp in HW. destruct (task W); simpl in *.
    + right. split; [done|]. intros r. rewrite HW. by eexists.
    + left. destruct HW as [_ Ho]. by apply Ho.
    + left. destruct HW as [_ Ho]. by apply Ho.
    + destruct HW as [_ Ho]. by specialize (Ho w eq_refl).
  - intros Hfin. rewrite Hfin in Hf. destruct (task W); try done; simpl in HW;
      (destruct (handle W); [destruct HW as [-> _]|destruct HW as (? & ? & ? & ->)|rewrite HW]; by eexists).
  - destruct (task W) eqn:Et; [|by left; eauto|..]; right; rewrite Hf; eexists;
      (split; [|reflexivity]); simpl in HW.
    + destruct (handle W) as [[w|]|x|]; [by rewrite HW..|by destruct HW as (? & ? & _)|].
      by destruct HW as [->|[? ->]].
    + destruct (handle W); [by destruct HW as [-> _]|by destruct HW as (? & ? & ? & ->)|by rewrite HW].
    + destruct (handle W); [by destruct HW as [-> _]|by destruct HW as (? & ? & ? & ->)|by rewrite HW].
Qed.

Lemma poll_join_next_cases cx hs :
  Forall not_taken hs →
  (hs = [] ∧ poll_join_next cx hs = Some (Ready None, hs, [])) ∨
  (hs ≠ [] ∧ Forall (λ h, ¬ ended h) hs ∧
     poll_join_next cx hs = Some (Pending, map (registered cx) hs, [])) ∨
  (∃ r k1 h k2 hs', hs = k1 ++ h :: k2 ∧ Forall (λ h, ¬ ended h) k1 ∧ h.(jinner).(state) = Done r ∧
     poll_join_next cx hs = Some (Ready (Some (join_result r)), hs', []) ∧
     hs' ≡ₚ map (registered cx) k1 ++ k2).
Proof.
  intros Hnt. destruct (decide (hs = [])) as [->|Hne]; [by left|]. right.
  assert (poll_join_next cx hs = poll_members cx 0 (length hs) hs) as ->.
  { unfold poll_join_next, bind, get, ret. rewrite bool_decide_eq_false_2 by done.
    by destruct (poll_members _ _ _ _) as [[[??]?]|]. }
  destruct (poll_members_spec cx (length hs) [] hs) as
    [(r & k1 & h & k2 & E & ? & ? & hs' & Hp & ?)|[? Hp]]; [done..| |]; simpl in Hp; rewrite Hp.
  - right. by exists r, k1, h, k2, hs'.
  - left. by split_and!.
Qed.

(** Polling a set takes the outcome of its first member that has ended:
    [None] exactly when the set is empty; else a result, when a member has
    ended, of that member, which alone is removed; else nothing, and then every
    member is left in its place with the poll's waker registered. *)
Theorem join_set_reaps cx hs :
  Forall not_taken hs →
  (hs = [] ∧ poll_join_next cx hs = Some (Ready None, hs, [])) ∨
  (hs ≠ [] ∧ Forall (λ h, ¬ ended h) hs ∧
     poll_join_next cx hs = Some (Pending, map (registered cx) hs, [])) ∨
  (∃ r k1 h k2 hs', hs = k1 ++ h :: k2 ∧ Forall (λ h, ¬ ended h) k1 ∧ h.(jinner).(state) = Done r ∧
     poll_join_next cx hs = Some (Ready (Some (join_result r)), hs', []) ∧
     hs' ≡ₚ map (registered cx) k1 ++ k2).
Proof. apply poll_join_next_cases. Qed.

Lemma registered_idemp cx h : registered cx (registered cx h) = registered cx h.
Proof. done. Qed.

Lemma registered_not_ended cx h : ¬ ended (registered cx h).
Proof. by intros [r ?]. Qed.

Lemma registered_filter cx k :
  map (registered cx) (filter (λ h, ¬ ended h) (map (registered cx) k)) = map (registered cx) k.
Proof.
  rewrite (filter_all _ (map _ k)); [by rewrite map_map|].
  apply Forall_fmap, Forall_true, registered_not_ended.
Qed.

Lemma not_taken_registered cx k : Forall not_taken (map (registered cx) k).
Proof. induction k; by constructor. Qed.

(** One poll of [shutdown]'s loop ends: one turn for each member and one
    more are enough.  It takes every outcome there is; it resolves exactly when
    all the tasks have ended, the set then being empty, and otherwise leaves
    the members whose tasks run on, each with the poll's waker registered. *)
Theorem join_set_shutdown_ends cx fuel hs :
  Forall not_taken hs → (length hs < fuel)%nat →
  ∃ out hs', shutdown_poll fuel cx hs = Some (Some out, hs', []) ∧
    (out = Ready tt ↔ Forall ended hs) ∧
    hs' ≡ₚ map (registered cx) (filter (λ h, ¬ ended h) hs).
Proof.
  revert hs. induction fuel as [|fuel IH]; intros hs Hnt Hf; [lia|]. simpl. unfold bind.
  destruct (poll_join_next_cases cx hs Hnt) as
    [[-> ->]|[(Hne & Hall & ->)|(r & k1 & h & k2 & hs1 & -> & Hk1 & Hr & -> & Hp)]].
  - eexists _, []. by split_and!.
  - eexists _, _. split_and!; [done| |].
    + split; [done|]. intros He. destruct hs; [done|]. inversion_clear Hall. by inversion_clear He.
    + by rewrite filter_all.
  - rewrite Forall_app, Forall_cons in Hnt. destruct Hnt as (? & ? & ?).
    rewrite length_app in Hf. simpl in Hf.
    assert (Forall not_taken hs1) as Hnt1.
    { rewrite Hp, Forall_app. split; [apply not_taken_registered|done]. }
    assert (length hs1 < fuel)%nat as Hf1 by (rewrite Hp, length_app, length_map; lia).
    destruct (IH hs1 Hnt1 Hf1) as (out & hs' & -> & Hout & Hp').
    assert (ended h) as Hh by (by eexists).
    eexists out, hs'. split_and!; [done| |].
    + rewrite Hout, Hp, !Forall_app, Forall_cons. rewrite !Forall_forall in *.
      setoid_rewrite list_elem_of_fmap. split; [intros [Hreg ?]|intros (Hk & _ & ?)].
      * split_and!; [|done..]. intros x Hx. destruct (registered_not_ended cx x). eauto.
      * split; [|done]. intros ? (x & -> & Hx). by destruct (Hk1 x Hx); apply Hk.
    + rewrite Hp', Hp, !filter_app, filter_cons_False by tauto.
      by rewrite !map_app, registered_filter, (filter_all _ k1).
Qed.
End join.

#[global] Arguments JoinErrorPayload : clear implicits.
#[global] Arguments Outcome : clear implicits.
#[global] Arguments JoinState : clear implicits.
#[global] Arguments JoinError : clear implicits.
#[global] Arguments JoinInner : clear implicits.
#[global] Arguments JoinHandle : clear implicits.
#[global] Arguments world : clear implicits.

(** ** Concrete runs *)

(** A handle that waits before its task ends is woken and takes the value. *)
Lemma join_delivers_witness :
  ∃ W : world nat nat, handle W = Resolved (Ok 7%nat) ∧ task W = Ended (Ok 7%nat) ∧
    ∃ r, ended_with (task W) = Some r ∧ Ok 7%nat = join_result r.
Proof.
  exists (mkWorld (mkInner Taken true) (Ended (Ok 7%nat)) (Resolved (Ok 7%nat))).
  split_and!; [done..|]. eapply join_delivers; [|done].
  exists (mkWorld join_inner_new Alive (Held None)). split; [done|].
  eapply rtc_l; [eapply (w_join_poll _ None 1%nat); done|]; simpl.
  eapply rtc_l; [eapply (w_swap _ (Ok 7%nat)); done|]; simpl.
  eapply rtc_l; [eapply w_flag; done|]; simpl.
  eapply rtc_l; [eapply w_wake; done|]; simpl.
  eapply rtc_l; [eapply (w_join_poll _ None 1%nat); done|]; simpl.
  apply rtc_refl.
Defined.

(** The second of three tasks has ended with a panic. *)
Definition demo_set : list (JoinHandle nat nat) :=
  [mkHandle 0 join_inner_new; mkHandle 1 (mkInner (Done (Err (PayloadPanicked 3%nat))) true);
   mkHandle 2 (mkInner (Waiting 9%nat) false)].

Lemma demo_not_taken : Forall not_taken demo_set.
Proof. repeat constructor; discriminate. Qed.

Lemma join_set_reaps_witness :
  Forall not_taken demo_set ∧
  poll_join_next 5%nat demo_set =
    Some (Ready (Some (Err (mkJoinError (Some 3%nat)))),
          [mkHandle 0 (mkInner (Waiting 5%nat) false); mkHandle 2 (mkInner (Waiting 9%nat) false)], []).
Proof.
  split; [exact demo_not_taken|].
  destruct (join_set_reaps 5%nat demo_set demo_not_taken) as [[? _]|[(_ & H & _)|_]].
  - discriminate.
  - exfalso. rewrite Forall_forall in H. apply (H (mkHandle 1 (mkInner (Done (Err (PayloadPanicked 3%nat))) true))).
    + unfold demo_set. set_solver.
    + by eexists.
  - reflexivity.
Defined.

Lemma join_set_shutdown_ends_witness :
  (length demo_set < 4)%nat ∧
  ∃ out hs', shutdown_poll 4 5%nat demo_set = Some (Some out, hs', []) ∧
    hs' ≡ₚ map (registered 5%nat) (filter (λ h, ¬ ended h) demo_set).
Proof.
  split; [simpl; lia|].
  destruct (join_set_shutdown_ends 5%nat 4 demo_set demo_not_taken ltac:(simpl; lia)) as (o & h & ? & _ & ?).
  by exists o, h.
Defined.
