(* ===== verification/Blocking.v ===== *)
(** The pool of threads behind [spawn_blocking]
    ([src/src/runtime/blocking.rs]): its operations, and the pool with the
    threads that call them, one atomic access at a time. *)

From S2P Require Import Prelude.

Abbreviation Job := nat (only parsing).

Section blocking.
Context `{BuildProfile}.

(** ** The pool's state and operations *)

Record Inner := mkInner {
  queue : list Job;
  shutdown : bool;
  live_threads : Z;
  max_threads : Z;
}.

(** [None] is the failed assertion. *)
Definition blocking_new (max : Z) : option Inner :=
  if 0 <? max then Some (mkInner [] false 0 max) else None.

Definition set_queue (q : list Job) (i : Inner) : Inner :=
  mkInner q i.(shutdown) i.(live_threads) i.(max_threads).
Definition set_live (n : Z) (i : Inner) : Inner :=
  mkInner i.(queue) i.(shutdown) n i.(max_threads).

(** [spawn] up to its [notify_one]. *)
Definition spawn_push (j : Job) : M Inner unit :=
  let! i := get in put (set_queue (i.(queue) ++ [j]) i).

Definition blocking_live_threads : M Inner Z := let! i := get in ret i.(live_threads).

(** One turn of [grow_if_needed]: the load, and the exchange with the count
    that was loaded, which goes back to the load when it fails and else has
    the caller start a thread. *)
Definition grow_load : M Inner (next Z unit) :=
  let! i := get in
  ret (if i.(max_threads) <=? i.(live_threads) then Return tt else Continue i.(live_threads)).
Definition grow_exchange (current : Z) : M Inner (next unit unit) :=
  let! n := lift (uadd usize_bits current 1) in
  let! i := get in
  if i.(live_threads) =? current then put (set_live n i) ;! ret (Return tt)
  else ret (Continue tt).

(** What a pool thread decides while it has the lock of the queue. *)
Inductive decision := Take (j : Job) | Leave | WaitMore.
Definition worker_look : M Inner decision :=
  let! i := get in
  match i.(queue) with
  | j :: q => put (set_queue q i) ;! ret (Take j)
  | [] => ret (if i.(shutdown) then Leave else WaitMore)
  end.
(** The same after [wait_timeout] has returned. *)
Definition worker_woken (timed_out : bool) : M Inner decision :=
  let! i := get in
  if timed_out && bool_decide (i.(queue) = []) then ret Leave else worker_look.
(** [fetch_sub] wraps. *)
Definition worker_exit : M Inner unit :=
  let! i := get in put (set_live ((i.(live_threads) - 1) `mod` 2 ^ usize_bits) i).

Definition signal_shutdown : M Inner unit :=
  let! i := get in put (mkInner i.(queue) true i.(live_threads) i.(max_threads)).


(** ** The pool at work *)

Inductive worker :=
| WTop                          (* about to lock the queue *)
| WWaiting
| WWoken (timed_out : bool)     (* [wait_timeout] returned, the lock not yet taken *)
| WRunning (j : Job)
| WLeaving                      (* has decided to leave, is still counted *)
| WNotify                       (* is not counted any more *)
| WGone.
(** A call of [spawn], after its push. *)
Inductive spawner :=
| SNotify | SLoad | SExchange (current : Z) | SThread
| SFailed   (* the thread could not be started: the [expect] panicked *)
| SDone.

Record pool := mkPool {
  inner : Inner;
  workers : list worker;
  spawners : list spawner;
  spawned : list Job;           (* every job handed to [spawn], in order *)
  started : list Job;           (* every job a thread took, in order *)
  finished : list Job;
  missed : bool;                (* a [spawn] was turned away, or could not start its
                                   thread, with no other thread to see its job *)
}.

Definition set_inner (i : Inner) (W : pool) : pool :=
  mkPool i W.(workers) W.(spawners) W.(spawned) W.(started) W.(finished) W.(missed).
Definition set_workers (ws : list worker) (W : pool) : pool :=
  mkPool W.(inner) ws W.(spawners) W.(spawned) W.(started) W.(finished) W.(missed).
Definition set_spawners (ss : list spawner) (W : pool) : pool :=
  mkPool W.(inner) W.(workers) ss W.(spawned) W.(started) W.(finished) W.(missed).
Definition start_job (d : decision) (W : pool) : pool :=
  match d with
  | Take j => mkPool W.(inner) W.(workers) W.(spawners) W.(spawned) (W.(started) ++ [j]) W.(finished) W.(missed)
  | _ => W
  end.

Definition after (d : decision) : worker :=
  match d with Take j => WRunning j | Leave => WLeaving | WaitMore => WWaiting end.
Definition woken (w : worker) : worker :=
  match w with WWaiting => WWoken false | _ => w end.

(** A thread that is going to look at the queue again. *)
Definition active (w : worker) : bool :=
  match w with WTop | WWaiting | WWoken _ | WRunning _ => true | _ => false end.
(** A thread the count includes. *)
Definition counted (w : worker) : bool :=
  match w with WNotify | WGone => false | _ => true end.
Definition running (w : worker) : option Job :=
  match w with WRunning j => Some j | _ => None end.
Definition starting (s : spawner) : bool := match s with SThread => true | _ => false end.
(** A thread the count includes for good. *)
Definition failed (s : spawner) : bool := match s with SFailed => true | _ => false end.
(** A [spawn] that has still to see whether the pool must grow. *)
Definition in_flight (s : spawner) : bool := match s with SDone | SFailed => false | _ => true end.

Inductive bstep : pool → pool → Prop :=
| b_push W j i ws :
    spawn_push j W.(inner) = Some (tt, i, ws) →
    bstep W (mkPool i W.(workers) (W.(spawners) ++ [SNotify]) (W.(spawned) ++ [j])
               W.(started) W.(finished) W.(missed))
| b_notify_one W s1 s2 w1 w2 :         (* wakes one waiting thread *)
    W.(spawners) = s1 ++ SNotify :: s2 → W.(workers) = w1 ++ WWaiting :: w2 →
    bstep W (set_workers (w1 ++ WWoken false :: w2) (set_spawners (s1 ++ SLoad :: s2) W))
| b_notify_none W s1 s2 :
    W.(spawners) = s1 ++ SNotify :: s2 → WWaiting ∉ W.(workers) →
    bstep W (set_spawners (s1 ++ SLoad :: s2) W)
| b_load_full W s1 s2 i ws :
    W.(spawners) = s1 ++ SLoad :: s2 → grow_load W.(inner) = Some (Return tt, i, ws) →
    bstep W (mkPool i W.(workers) (s1 ++ SDone :: s2) W.(spawned) W.(started) W.(finished)
      (W.(missed) || bool_decide (count active W.(workers) = 0%nat ∧ count starting W.(spawners) = 0%nat)))
| b_load W s1 s2 c i ws :
    W.(spawners) = s1 ++ SLoad :: s2 → grow_load W.(inner) = Some (Continue c, i, ws) →
    bstep W (set_inner i (set_spawners (s1 ++ SExchange c :: s2) W))
| b_exchange W s1 s2 c i ws :
    W.(spawners) = s1 ++ SExchange c :: s2 → grow_exchange c W.(inner) = Some (Return tt, i, ws) →
    bstep W (set_inner i (set_spawners (s1 ++ SThread :: s2) W))
| b_exchange_fails W s1 s2 c i ws :
    W.(spawners) = s1 ++ SExchange c :: s2 → grow_exchange c W.(inner) = Some (Continue tt, i, ws) →
    bstep W (set_inner i (set_spawners (s1 ++ SLoad :: s2) W))
| b_thread W s1 s2 :
    W.(spawners) = s1 ++ SThread :: s2 →
    bstep W (set_workers (W.(workers) ++ [WTop]) (set_spawners (s1 ++ SDone :: s2) W))
| b_thread_fails W s1 s2 :             (* the exchange is not undone *)
    W.(spawners) = s1 ++ SThread :: s2 →
    bstep W (mkPool W.(inner) W.(workers) (s1 ++ SFailed :: s2) W.(spawned) W.(started) W.(finished)
      (W.(missed) || bool_decide (count active W.(workers) = 0%nat ∧ count starting (s1 ++ s2) = 0%nat)))
| b_look W w1 w2 d i ws :
    W.(workers) = w1 ++ WTop :: w2 → worker_look W.(inner) = Some (d, i, ws) →
    bstep W (start_job d (set_inner i (set_workers (w1 ++ after d :: w2) W)))
| b_wakes W w1 w2 timed_out :          (* by the time-out, or for no reason *)
    W.(workers) = w1 ++ WWaiting :: w2 →
    bstep W (set_workers (w1 ++ WWoken timed_out :: w2) W)
| b_woken W w1 w2 timed_out d i ws :
    W.(workers) = w1 ++ WWoken timed_out :: w2 →
    worker_woken timed_out W.(inner) = Some (d, i, ws) →
    bstep W (start_job d (set_inner i (set_workers (w1 ++ after d :: w2) W)))
| b_job_ends W w1 w2 j :
    W.(workers) = w1 ++ WRunning j :: w2 →
    bstep W (mkPool W.(inner) (w1 ++ WTop :: w2) W.(spawners) W.(spawned) W.(started)
               (W.(finished) ++ [j]) W.(missed))
| b_exit W w1 w2 i ws :
    W.(workers) = w1 ++ WLeaving :: w2 → worker_exit W.(inner) = Some (tt, i, ws) →
    bstep W (set_inner i (set_workers (w1 ++ WNotify :: w2) W))
| b_exit_notify W w1 w2 :
    W.(workers) = w1 ++ WNotify :: w2 →
    bstep W (set_workers (map woken (w1 ++ WGone :: w2)) W)
| b_signal W i ws :
    signal_shutdown W.(inner) = Some (tt, i, ws) → bstep W (set_inner i W)
| b_notify_all W :
    bstep W (set_workers (map woken W.(workers)) W).

Definition pool_reachable (max : Z) : pool → Prop :=
  reachable (λ W, ∃ i, blocking_new max = Some i ∧ W = mkPool i [] [] [] [] [] false) bstep.

(** ** Invariants *)

Lemma count_woken p l : (∀ w, p (woken w) = p w) → count p (map woken l) = count p l.
Proof. intros Hp. induction l as [|w l IH]; [done|]. simpl. by rewrite !count_cons, Hp, IH. Qed.

Lemma running_woken l : omap running (map woken l) = omap running l.
Proof. induction l as [|w l IH]; [done|]. csimpl. by destruct w; csimpl; rewrite IH. Qed.

Lemma count_le {A} (p q : A → bool) l : (∀ x, p x = true → q x = true) → (count p l ≤ count q l)%nat.
Proof.
  intros Hpq. induction l as [|x l IH]; [done|]. rewrite !count_cons.
  specialize (Hpq x). destruct (p x), (q x); try lia; naive_solver.
Qed.

Definition exchange_below (max : Z) (s : spawner) : Prop :=
  match s with SExchange c => c < max | _ => True end.

Record BInv (max : Z) (W : pool) : Prop := {
  bi_max : W.(inner).(max_threads) = max;
  bi_live : W.(inner).(live_threads) =
    Z.of_nat (count counted W.(workers)) + Z.of_nat (count starting W.(spawners)) + Z.of_nat (count failed W.(spawners));
  bi_bound : W.(inner).(live_threads) ≤ max;
  bi_exchange : Forall (exchange_below max) W.(spawners);
  bi_queue : W.(spawned) = W.(started) ++ W.(inner).(queue);
  bi_started : W.(started) ≡ₚ omap running W.(workers) ++ W.(finished);
  bi_missed : W.(missed) = false → W.(inner).(queue) ≠ [] →
    (0 < count active W.(workers) ∨ 0 < count in_flight W.(spawners))%nat;
}.

(** What a thread's look at the queue comes to. *)
Definition decides (d : decision) (i i' : Inner) : Prop :=
  match d with
  | Take j => ∃ q, i.(queue) = j :: q ∧ i' = set_queue q i
  | Leave | WaitMore => i.(queue) = [] ∧ i' = i
  end.

Lemma worker_look_decides i d i' ws : worker_look i = Some (d, i', ws) → decides d i i'.
Proof.
  unfold worker_look, decides. run_M. destruct i as [[|j q] [] l m]; intros; simplify_eq/=; eauto.
Qed.

Lemma worker_woken_decides t i d i' ws : worker_woken t i = Some (d, i', ws) → decides d i i'.
Proof.
  unfold worker_woken. unfold bind at 1. simpl. destruct t; simpl.
  - case_bool_decide; [run_M; intros; by simplify_eq|].
    destruct (worker_look i) as [[[??]?]|] eqn:E; intros; simplify_eq. by eapply worker_look_decides.
  - destruct (worker_look i) as [[[??]?]|] eqn:E; intros; simplify_eq. by eapply worker_look_decides.
Qed.

(** Write the counts over the list a step changed as a sum of those over its parts. *)
Ltac counts :=
  rewrite ?count_woken in * by (by intros []);
  rewrite ?count_app, ?count_cons, ?count_nil in *; simpl in *; try lia.

(** A step that leaves the queue as it is changes the places of threads and
    callers only. *)
Lemma BInv_places max W W' :
  BInv max W →
  W'.(inner).(max_threads) = max → W'.(inner).(queue) = W.(inner).(queue) →
  W'.(inner).(live_threads) =
    Z.of_nat (count counted W'.(workers)) + Z.of_nat (count starting W'.(spawners)) + Z.of_nat (count failed W'.(spawners)) →
  W'.(inner).(live_threads) ≤ max →
  Forall (exchange_below max) W'.(spawners) →
  W'.(spawned) = W.(spawned) → W'.(started) = W.(started) → W'.(finished) = W.(finished) →
  omap running W'.(workers) = omap running W.(workers) →
  (W'.(missed) = false → W.(missed) = false ∧
     (count active W.(workers) ≤ count active W'.(workers) ∧
      count in_flight W.(spawners) ≤ count in_flight W'.(spawners) ∨
      0 < count active W'.(workers) + count in_flight W'.(spawners))%nat) →
  BInv max W'.
Proof.
  intros [Hm Hl Hb He Hq Hs Hmiss] ? E ? ? ? E1 E2 E3 E4 Hms. split; try done.
  - by rewrite E, E1, E2.
  - by rewrite E2, E3, E4.
  - intros Hf Hne. rewrite E in Hne. destruct (Hms Hf) as [Hf' Hc]. specialize (Hmiss Hf' Hne). lia.
Qed.

Lemma BInv_decide max W w1 w w2 d i :
  BInv max W → W.(workers) = w1 ++ w :: w2 → active w = true → running w = None →
  decides d W.(inner) i →
  BInv max (start_job d (set_inner i (set_workers (w1 ++ after d :: w2) W))).
Proof.
  intros [Hm Hl Hb He Hq Hs Hmiss] Hw Ha Hr Hd.
  destruct W as [[q sh live mx] wk sps sd st fi ms]; simpl in *. subst wk.
  assert (counted w = true) as Hc by by destruct w.
  rewrite omap_app in Hs. csimpl in *. rewrite Hr in Hs.
  counts. rewrite Ha, Hc in *.
  destruct d as [j| |]; simpl in Hd.
  - destruct Hd as (q' & -> & ->). split; simpl; try done; counts.
    + by rewrite Hq, <-app_assoc.
    + rewrite omap_app. csimpl. rewrite Hs. solve_Permutation.
  - destruct Hd as [-> ->]. split; simpl; try done; counts. rewrite omap_app. by csimpl.
  - destruct Hd as [-> ->]. split; simpl; try done; counts. rewrite omap_app. by csimpl.
Qed.

Ltac places max W :=
  apply (BInv_places max W); simpl;
  repeat match goal with E : spawners _ = _ |- _ => rewrite E; clear E
                       | E : workers _ = _ |- _ => rewrite E; clear E end;
  try done; counts;
  try (by rewrite Forall_app, Forall_cons);
  try (by rewrite !omap_app);
  try (intros ?; split; [done|]; counts).

Lemma BInv_step max W W' : in_range usize_bits max → BInv max W → bstep W W' → BInv max W'.
Proof.
  intros Hrange HI Hst. pose proof HI as [Hm Hl Hb He Hq Hs Hmiss].
  destruct Hst as [W j i ws Hop|W s1 s2 w1 w2 Hsp Hw|W s1 s2 Hsp Hw|W s1 s2 i ws Hsp Hop
    |W s1 s2 c i ws Hsp Hop|W s1 s2 c i ws Hsp Hop|W s1 s2 c i ws Hsp Hop|W s1 s2 Hsp|W s1 s2 Hsp
    |W w1 w2 d i ws Hw Hop|W w1 w2 t Hw|W w1 w2 t d i ws Hw Hop|W w1 w2 j Hw|W w1 w2 i ws Hw Hop
    |W w1 w2 Hw|W i ws Hop|W];
    try (rewrite Hsp in *); try (rewrite Hw in *);
    rewrite ?Forall_app, ?Forall_cons in He; try (destruct He as (He1 & He0 & He2)).
  - unfold spawn_push in Hop. run_M. simplify_eq/=. split; simpl; try done; counts.
    + rewrite Forall_app. split; [done|]. by repeat constructor.
    + by rewrite Hq, app_assoc.
  - places max W.
  - places max W.
  - unfold grow_load in Hop. run_M. destruct (Z.leb_spec (max_threads (inner W)) (live_threads (inner W)));
      simplify_eq/=.
    apply (BInv_places (max_threads (inner W)) W); simpl; rewrite ?Hsp; try done; counts.
    + by rewrite Forall_app, Forall_cons.
    + intros [? Hbd]%orb_false_iff. split; [done|]. right. apply bool_decide_eq_false in Hbd.
      pose proof (count_le starting in_flight s1 ltac:(by intros [])).
      pose proof (count_le starting in_flight s2 ltac:(by intros [])). lia.
  - unfold grow_load in Hop. run_M. destruct (Z.leb_spec (max_threads (inner W)) (live_threads (inner W)));
      simplify_eq/=. places (max_threads (inner W)) W.
  - unfold grow_exchange in Hop. rewrite uadd_in_range in Hop.
    2:{ unfold in_range in Hrange. simpl in He0. lia. }
    run_M. simpl in He0. destruct (Z.eqb_spec (live_threads (inner W)) c); simplify_eq/=.
    places (max_threads (inner W)) W.
  - unfold grow_exchange in Hop. rewrite uadd_in_range in Hop.
    2:{ unfold in_range in Hrange. simpl in He0. lia. }
    run_M. destruct (Z.eqb_spec (live_threads (inner W)) c); simplify_eq/=.
    places (max_threads (inner W)) W.
  - places max W. rewrite omap_app. csimpl. by rewrite app_nil_r.
  - apply (BInv_places max W); simpl; rewrite ?Hsp; try done; counts.
    + by rewrite Forall_app, Forall_cons.
    + intros [? Hbd]%orb_false_iff. split; [done|]. right. apply bool_decide_eq_false in Hbd.
      pose proof (count_le starting in_flight s1 ltac:(by intros [])).
      pose proof (count_le starting in_flight s2 ltac:(by intros [])). lia.
  - eapply BInv_decide; try done. by eapply worker_look_decides.
  - places max W.
  - eapply BInv_decide; try done. by eapply worker_woken_decides.
  - split; simpl; try done; counts. rewrite omap_app in *. csimpl in *. rewrite Hs. solve_Permutation.
  - unfold worker_exit in Hop. run_M. simplify_eq/=. counts.
    assert ((live_threads (inner W) - 1) `mod` 2 ^ usize_bits = live_threads (inner W) - 1) as Hmod.
    { apply Z.mod_small. unfold in_range in Hrange. lia. }
    places (max_threads (inner W)) W.
  - places max W. by rewrite running_woken, !omap_app.
  - unfold signal_shutdown in Hop. run_M. simplify_eq/=. places (max_threads (inner W)) W.
  - places max W. by rewrite running_woken.
Qed.

Lemma pool_inv max W : in_range usize_bits max → pool_reachable max W → BInv max W.
Proof.
  intros Hr. apply invariant_reachable; [|by eauto using BInv_step].
  intros ? (i & Hi & ->). unfold blocking_new in Hi. destruct (Z.ltb_spec 0 max); simplify_eq.
  split; simpl; try done. lia.
Qed.


(** ** The pool's contract *)


(** Every job is run once, and in the order the jobs came: in every
    reachable state the jobs started and then those queued are the jobs spawned,
    in order, and the started ones are the running and the finished ones. *)
Theorem blocking_jobs_once max W :
  in_range usize_bits max → pool_reachable max W →
  W.(spawned) = W.(started) ++ W.(inner).(queue) ∧
  W.(started) ≡ₚ omap running W.(workers) ++ W.(finished).
Proof. by intros Hr [Hm Hl Hb He Hq Hs Hmiss]%pool_inv. Qed.


(** Nothing but another [spawn] helps a job that no thread will look for. *)
Lemma stranded_stays W W' :
  Forall (.= WGone) W.(workers) → Forall (.= SDone) W.(spawners) → bstep W W' →
  W'.(inner).(queue) = W.(inner).(queue) ∧
    Forall (.= WGone) W'.(workers) ∧ Forall (.= SDone) W'.(spawners) ∨
  ∃ j, W'.(spawned) = W.(spawned) ++ [j].
Proof.
  intros HW HS Hst.
  destruct Hst as [W j i ws Hop|W s1 s2 w1 w2 Hsp Hw|W s1 s2 Hsp Hw|W s1 s2 i ws Hsp Hop
    |W s1 s2 c i ws Hsp Hop|W s1 s2 c i ws Hsp Hop|W s1 s2 c i ws Hsp Hop|W s1 s2 Hsp|W s1 s2 Hsp
    |W w1 w2 d i ws Hw Hop|W w1 w2 t Hw|W w1 w2 t d i ws Hw Hop|W w1 w2 j Hw|W w1 w2 i ws Hw Hop
    |W w1 w2 Hw|W i ws Hop|W];
    try (rewrite Hsp, ?Forall_app, ?Forall_cons in HS; by naive_solver);
    try (rewrite Hw, ?Forall_app, ?Forall_cons in HW; by naive_solver).
  - right. by exists j.
  - left. unfold signal_shutdown in Hop. run_M. by simplify_eq/=.
  - left. simpl. split_and!; [done| |done]. rewrite Forall_map.
    eapply Forall_impl; [exact HW|]. by intros ? ->.
Qed.
End blocking.

(** ** Concrete runs *)

#[local] Existing Instance release_profile.

Tactic Notation "bstep_with" open_constr(c) :=
  eapply rtc_l; [eapply c; simpl; try reflexivity|]; simpl.

(** One thread, capped at one, that has decided to leave when a job comes:
    the caller sees a full pool, the thread leaves, and the job stays. *)
Definition stranded_pool : pool :=
  mkPool (mkInner [5%nat] false 0 1) [WGone] [SDone; SDone] [4%nat; 5%nat] [4%nat] [4%nat] true.

Lemma blocking_job_stranded : pool_reachable 1 stranded_pool.
Proof.
  eexists. split; [eexists; by split|].
  bstep_with (b_push _ 4%nat).
  bstep_with (b_notify_none _ []); [set_solver|].
  bstep_with (b_load _ []).
  bstep_with (b_exchange _ [] []).
  bstep_with (b_thread _ []).
  bstep_with (b_look _ []).
  bstep_with (b_job_ends _ []).
  bstep_with (b_look _ []).
  bstep_with (b_wakes _ [] [] true).
  bstep_with (b_woken _ []).
  bstep_with (b_push _ 5%nat).
  bstep_with (b_notify_none _ [SDone]); [set_solver|].
  bstep_with (b_load_full _ [SDone]).
  bstep_with (b_exit _ []).
  bstep_with (b_exit_notify _ []).
  apply rtc_refl.
Qed.

(** The first thread of a pool cannot be started: the count stays, the job too,
    and so does every later one, the cap being reached. *)
Lemma blocking_failed_start :
  pool_reachable 1 (mkPool (mkInner [4%nat; 5%nat] false 1 1) [] [SFailed; SDone] [4%nat; 5%nat] [] [] true).
Proof.
  eexists. split; [eexists; by split|].
  bstep_with (b_push _ 4%nat).
  bstep_with (b_notify_none _ []); [set_solver|].
  bstep_with (b_load _ []).
  bstep_with (b_exchange _ [] []).
  bstep_with (b_thread_fails _ []).
  bstep_with (b_push _ 5%nat).
  bstep_with (b_notify_none _ [SFailed]); [set_solver|].
  bstep_with (b_load_full _ [SFailed]).
  apply rtc_refl.
Qed.

Definition busy_pool : pool :=
  mkPool (mkInner [5%nat] false 1 1) [WRunning 4%nat] [SDone; SNotify] [4%nat; 5%nat] [4%nat] [] false.

Lemma busy_reachable : pool_reachable 1 busy_pool.
Proof.
  eexists. split; [eexists; by split|].
  bstep_with (b_push _ 4%nat).
  bstep_with (b_notify_none _ []); [set_solver|].
  bstep_with (b_load _ []).
  bstep_with (b_exchange _ [] []).
  bstep_with (b_thread _ []).
  bstep_with (b_look _ []).
  bstep_with (b_push _ 5%nat).
  apply rtc_refl.
Qed.

Lemma one_in_range : in_range usize_bits 1.
Proof. by split. Qed.


Lemma blocking_jobs_once_witness :
  pool_reachable 1 busy_pool ∧ busy_pool.(spawned) = busy_pool.(started) ++ busy_pool.(inner).(queue).
Proof.
  split; [exact busy_reachable|].
  by destruct (blocking_jobs_once 1 busy_pool one_in_range busy_reachable) as (? & _).
Defined.

