(* ===== verification/Scheduler.v ===== *)
(** The scheduler ([src/src/runtime/mod.rs], [src/src/runtime/worker.rs],
    [src/src/runtime/thread_per_core.rs]): the queues of a runtime, the
    search for the next task, the worker threads, and [block_in_place]. *)

From S2P Require Import Prelude.

(** ** The work-stealing queues

    [crossbeam_deque] is another crate: its [Worker] (with its [Stealer]s) and
    [Injector] are a parameter, and what its documentation promises of them
    is a class of laws.  The number given to a stealing operation tells
    repeated attempts apart: one may be told to retry and the next succeed. *)

Inductive Steal (T : Type) := Empty | Success (t : T) | Retry.
Arguments Empty {T}.
Arguments Success {T} t.
Arguments Retry {T}.

Class Deque (T : Type) := {
  deque : Type;
  new_fifo : deque;
  push : T → deque → deque;
  pop : deque → option T * deque;
  len : deque → nat;
  steal : nat → deque → Steal T * deque;
  (** from the one queue into the other *)
  steal_batch_and_pop : nat → deque → deque → Steal T * deque * deque;
}.

Class LawfulDeque (T : Type) `{Deque T} := {
  tasks : deque → list T;      (* the tasks in a queue, the next to be popped first *)
  tasks_new : tasks new_fifo = [];
  tasks_push t d : tasks (push t d) = tasks d ++ [t];
  tasks_pop d : match pop d with
                | (Some t, d') => tasks d = t :: tasks d'
                | (None, d') => tasks d = [] ∧ d' = d
                end;
  tasks_len d : len d = length (tasks d);
  tasks_steal n d : match steal n d with
                    | (Success t, d') => tasks d = t :: tasks d'
                    | (Empty, d') => tasks d = [] ∧ d' = d
                    | (Retry, d') => d' = d
                    end;
  tasks_steal_batch n s d : match steal_batch_and_pop n s d with
                            | (Success t, s', d') =>
                                tasks s ++ tasks d ≡ₚ t :: tasks s' ++ tasks d' ∧
                                tasks s' ⊆+ tasks s
                            | (Empty, s', d') => tasks s = [] ∧ s' = s ∧ d' = d
                            | (Retry, s', d') => s' = s ∧ d' = d
                            end;
  (** nobody else being at the queue, some attempt is not told to retry *)
  steal_progress d : ∃ n, (steal n d).1 ≠ Retry;
  steal_batch_progress s d : ∃ n, (steal_batch_and_pop n s d).1.1 ≠ Retry;
}.

Section scheduler.
Context {T : Type} `{Deque T}.

(** ** State *)

(** A queue that several threads refer to is its place in a store. *)
Inductive LocalQueues :=
| MultiThread (stealers : list nat)
| CurrentThread (queue : list T).

Record Shared := mkShared {
  injector : deque;
  local : LocalQueues;
  shutdown : bool;
  steal_counts : list Z;
  park_counts : list Z;
  park_unpark_counts : list Z;
  busy_duration_nanos : list Z;
}.

Record Sched := mkSched { shared : Shared; deques : list deque }.

(** The thread-locals of worker.rs. *)
Record Thread := mkThread {
  WORKER_INDEX : option nat;
  LOCAL_QUEUE : option nat;
  RETIRED : bool;
}.
Definition plain_thread : Thread := mkThread None None false.

Definition set_injector (d : deque) (s : Sched) : Sched :=
  let h := s.(shared) in
  mkSched (mkShared d h.(local) h.(shutdown) h.(steal_counts) h.(park_counts)
    h.(park_unpark_counts) h.(busy_duration_nanos)) s.(deques).
Definition set_local (l : LocalQueues) (s : Sched) : Sched :=
  let h := s.(shared) in
  mkSched (mkShared h.(injector) l h.(shutdown) h.(steal_counts) h.(park_counts)
    h.(park_unpark_counts) h.(busy_duration_nanos)) s.(deques).
Definition set_counts (st pk un bu : list Z) (s : Sched) : Sched :=
  let h := s.(shared) in
  mkSched (mkShared h.(injector) h.(local) h.(shutdown) st pk un bu) s.(deques).
Definition set_deques (ds : list deque) (s : Sched) : Sched := mkSched s.(shared) ds.

(** The state [Builder::build] makes: for [n] workers, and with the single
    queue of the other flavours. *)
Definition new_multi_thread (n : nat) : Sched :=
  mkSched (mkShared new_fifo (MultiThread (seq 0 n)) false (replicate n 0) (replicate n 0)
             (replicate n 0) (replicate n 0)) (replicate n new_fifo).
Definition new_core_shared : Sched :=
  mkSched (mkShared new_fifo (CurrentThread []) false [0] [0] [0] [0]) [].

(** [fetch_add] on one of the counters: an index out of range panics, the sum
    wraps. *)
Definition bump (i : nat) (k : Z) (l : list Z) : option (list Z) :=
  c ← l !! i; Some (<[i := (c + k) `mod` 2 ^ u64_bits]> l).

Definition get_deque (q : nat) : M Sched deque := let! s := get in lift (s.(deques) !! q).
Definition put_deque (q : nat) (d : deque) : M Sched unit :=
  let! s := get in put (set_deques (<[q := d]> s.(deques)) s).
Definition get_injector : M Sched deque := let! s := get in ret s.(shared).(injector).
Definition put_injector (d : deque) : M Sched unit := let! s := get in put (set_injector d s).

(** ** Scheduling *)

Definition push_local (th : Thread) (t : T) : M Sched unit :=
  match th.(LOCAL_QUEUE) with
  | None => panic
  | Some q => let! d := get_deque q in put_deque q (push t d)
  end.
Definition pop_local (th : Thread) : M Sched (option T) :=
  match th.(LOCAL_QUEUE) with
  | None => ret None
  | Some q => let! d := get_deque q in let '(x, d') := pop d in put_deque q d' ;! ret x
  end.

Definition requeue_to_injector (t : T) : M Sched unit :=
  let! i := get_injector in put_injector (push t i).

Definition schedule (th : Thread) (t : T) : M Sched unit :=
  let! s := get in
  match s.(shared).(local) with
  | CurrentThread queue => put (set_local (CurrentThread (queue ++ [t])) s)
  | MultiThread _ =>
      match th.(WORKER_INDEX) with
      | Some _ => push_local th t
      | None => requeue_to_injector t
      end
  end.

(** ** The search for a task

    [next_task] one attempt on one queue at a time: the own queue, the
    injector, the siblings in turn.  An attempt at stealing that is told to
    retry is repeated ([steal_loop]). *)

Inductive search := SOwn | SInjector (attempt : nat) | SSibling (offset attempt : nat).

(** What follows one attempt: [here] to try again, [there] when there was
    nothing. *)
Definition after_steal (x : Steal T) (here there : search) : next search (option T) :=
  match x with
  | Success t => Return (Some t)
  | Retry => Continue here
  | Empty => Continue there
  end.

Definition steal_from_injector (th : Thread) (attempt : nat) : M Sched (Steal T) :=
  match th.(LOCAL_QUEUE) with
  | None => ret Empty
  | Some q =>
      let! i := get_injector in
      let! d := get_deque q in
      let '(x, i', d') := steal_batch_and_pop attempt i d in
      put_injector i' ;! put_deque q d' ;! ret x
  end.
Definition steal_from_sibling (th : Thread) (sibling attempt : nat) : M Sched (Steal T) :=
  match th.(LOCAL_QUEUE) with
  | None => ret Empty
  | Some q =>
      let! v := get_deque sibling in
      let! d := get_deque q in
      let '(x, v', d') := steal_batch_and_pop attempt v d in
      put_deque sibling v' ;! put_deque q d' ;! ret x
  end.

Definition count_steal (idx : nat) : M Sched unit :=
  let! s := get in
  let h := s.(shared) in
  let! st := lift (bump idx 1 h.(steal_counts)) in
  put (set_counts st h.(park_counts) h.(park_unpark_counts) h.(busy_duration_nanos) s).

Definition search_step (th : Thread) (idx : nat) (at_ : search) : M Sched (next search (option T)) :=
  let! s := get in
  match s.(shared).(local), at_ with
  | CurrentThread (t :: queue), SOwn =>
      put (set_local (CurrentThread queue) s) ;! ret (Return (Some t))
  | CurrentThread [], SOwn => ret (Continue (SInjector 0))
  | CurrentThread _, SInjector a =>
      let '(x, i') := steal a s.(shared).(injector) in
      put_injector i' ;!
      ret (match x with
           | Success t => Return (Some t)
           | Retry => Continue (SInjector (S a))
           | Empty => Return None
           end)
  | CurrentThread _, SSibling _ _ => ret (Return None)
  | MultiThread _, SOwn =>
      let! x := pop_local th in
      ret (match x with Some t => Return (Some t) | None => Continue (SInjector 0) end)
  | MultiThread _, SInjector a =>
      let! x := steal_from_injector th a in
      ret (after_steal x (SInjector (S a)) (SSibling 1 0))
  | MultiThread stealers, SSibling offset a =>
      let n := length stealers in
      if (offset <? n)%nat then
        let! victim := lift (stealers !! ((idx + offset) `mod` n)%nat) in
        let! x := steal_from_sibling th victim a in
        match x with
        | Success t => count_steal idx ;! ret (Return (Some t))
        | _ => ret (after_steal x (SSibling offset (S a)) (SSibling (S offset) 0))
        end
      else ret (Return None)
  end.

(** The whole of [next_task], undisturbed; [None] is fuel that ran out. *)
Fixpoint search_from (fuel : nat) (th : Thread) (idx : nat) (at_ : search) : M Sched (option (option T)) :=
  match fuel with
  | O => ret None
  | S fuel =>
      let! x := search_step th idx at_ in
      match x with
      | Continue at' => search_from fuel th idx at'
      | Return r => ret (Some r)
      | Panicked => panic
      end
  end.
Definition next_task (fuel : nat) (th : Thread) (idx : nat) : M Sched (option (option T)) :=
  search_from fuel th idx SOwn.

(** ** Parking and the counters *)

Definition park_begin (idx : nat) : M Sched unit :=
  let! s := get in
  let h := s.(shared) in
  let! pk := lift (bump idx 1 h.(park_counts)) in
  let! un := lift (bump idx 1 h.(park_unpark_counts)) in
  put (set_counts h.(steal_counts) pk un h.(busy_duration_nanos) s).
Definition park_end (idx : nat) : M Sched unit :=
  let! s := get in
  let h := s.(shared) in
  let! un := lift (bump idx 1 h.(park_unpark_counts)) in
  put (set_counts h.(steal_counts) h.(park_counts) un h.(busy_duration_nanos) s).
(** The number of nanoseconds is cast to 64 bits. *)
Definition add_busy_duration (idx : nat) (nanos : Z) : M Sched unit :=
  let! s := get in
  let h := s.(shared) in
  let! bu := lift (bump idx (nanos `mod` 2 ^ u64_bits) h.(busy_duration_nanos)) in
  put (set_counts h.(steal_counts) h.(park_counts) h.(park_unpark_counts) bu s).

Definition is_shutdown : M Sched bool := let! s := get in ret s.(shared).(shutdown).
(** The store in [stop_scheduling_and_reactor]. *)
Definition set_shutdown : M Sched unit :=
  let! s := get in
  let h := s.(shared) in
  put (mkSched (mkShared h.(injector) h.(local) true h.(steal_counts) h.(park_counts)
         h.(park_unpark_counts) h.(busy_duration_nanos)) s.(deques)).

Definition num_workers : M Sched nat :=
  let! s := get in
  ret (match s.(shared).(local) with MultiThread stealers => length stealers | CurrentThread _ => 1%nat end).
Definition global_queue_depth : M Sched nat := let! i := get_injector in ret (len i).
Definition worker_local_queue_depth (worker : nat) : M Sched nat :=
  let! s := get in
  match s.(shared).(local) with
  | CurrentThread queue => ret (length queue)
  | MultiThread stealers => let! q := lift (stealers !! worker) in let! d := get_deque q in ret (len d)
  end.

(** ** Entering a thread as a worker *)

(** The new thread-locals, and what the guard puts back. *)
Definition enter_as_worker (idx : nat) (th : Thread) : Thread * option nat :=
  (mkThread (Some idx) th.(LOCAL_QUEUE) th.(RETIRED), th.(WORKER_INDEX)).
Definition worker_guard_drop (previous : option nat) (th : Thread) : Thread :=
  mkThread previous th.(LOCAL_QUEUE) th.(RETIRED).

(** The thread-locals of a worker thread that owns the queue [q]. *)
Definition spawn_worker (idx q : nat) : Thread := mkThread (Some idx) (Some q) false.

(** [block_in_place] up to the call of its closure: the thread's new locals,
    and the worker it starts in its place, with a new queue, unless it did so
    before. *)
Definition block_in_place (idx : nat) (th : Thread) : M Sched (Thread * option Thread) :=
  if th.(RETIRED) then ret (th, None)
  else
    let! s := get in
    put (set_deques (s.(deques) ++ [new_fifo]) s) ;!
    ret (mkThread th.(WORKER_INDEX) th.(LOCAL_QUEUE) true, Some (spawn_worker idx (length s.(deques)))).

(** ** The worker threads of a multi-threaded runtime *)

Inductive wpc :=
| PLoop                    (* at the top of [run]'s loop *)
| PSearch (at_ : search)
| PParking
| PParked
| PRunning (t : T)
| PAfter                   (* about to look at RETIRED *)
| PDrain
| PRequeue (t : T)
| PGone
| PDead.                   (* a panic has unwound it out of [run] *)
Record worker := mkWorker { thread : Thread; index : nat; pc : wpc }.

Definition at_pc (p : wpc) (w : worker) : worker := mkWorker w.(thread) w.(index) p.

Record runtime := mkRuntime {
  sched : Sched;
  workers : list worker;
  scheduled : list T;      (* every task ever scheduled *)
  ran : list T;            (* every turn a task was given *)
}.

(** [Task::run] catches the panics of a poll only: [begin_poll]'s [expect], or
    the future's destructor, unwinds through [run]'s loop and ends the thread.
    The worker's queue stays in the store: if it is one that a [Stealer] refers
    to its siblings can still steal from it; a replacement's queue is freed with
    its tasks, which the model leaves there, where nobody looks. *)
Inductive rstep : runtime → runtime → Prop :=
| r_schedule_outside R t s ws :        (* a thread that is no worker's *)
    schedule plain_thread t R.(sched) = Some (tt, s, ws) →
    rstep R (mkRuntime s R.(workers) (t :: R.(scheduled)) R.(ran))
| r_schedule R w1 w w2 u t s ws :      (* the task [u] it runs wakes or spawns [t] *)
    R.(workers) = w1 ++ w :: w2 → w.(pc) = PRunning u →
    schedule w.(thread) t R.(sched) = Some (tt, s, ws) →
    rstep R (mkRuntime s R.(workers) (t :: R.(scheduled)) R.(ran))
| r_block_in_place R w1 w w2 u th' new s ws :
    R.(workers) = w1 ++ w :: w2 → w.(pc) = PRunning u →
    block_in_place w.(index) w.(thread) R.(sched) = Some ((th', new), s, ws) →
    rstep R (mkRuntime s
      (w1 ++ mkWorker th' w.(index) w.(pc) :: w2 ++
        match new with Some th => [mkWorker th w.(index) PLoop] | None => [] end)
      R.(scheduled) R.(ran))
| r_loop R w1 w w2 b s ws :
    R.(workers) = w1 ++ w :: w2 → w.(pc) = PLoop → is_shutdown R.(sched) = Some (b, s, ws) →
    rstep R (mkRuntime s (w1 ++ at_pc (if b then PGone else PSearch SOwn) w :: w2)
               R.(scheduled) R.(ran))
| r_search R w1 w w2 a x s ws :
    R.(workers) = w1 ++ w :: w2 → w.(pc) = PSearch a →
    search_step w.(thread) w.(index) a R.(sched) = Some (x, s, ws) →
    rstep R (mkRuntime s
      (w1 ++ at_pc (match x with
                    | Continue a' => PSearch a'
                    | Return (Some t) => PRunning t
                    | Return None | Panicked => PParking
                    end) w :: w2) R.(scheduled) R.(ran))
| r_ran R w1 w w2 t nanos s ws :       (* [Task::run] has returned *)
    R.(workers) = w1 ++ w :: w2 → w.(pc) = PRunning t →
    add_busy_duration w.(index) nanos R.(sched) = Some (tt, s, ws) →
    rstep R (mkRuntime s (w1 ++ at_pc PAfter w :: w2) R.(scheduled) (t :: R.(ran)))
| r_panic R w1 w w2 t :                (* nothing catches a panic out of [Task::run] *)
    R.(workers) = w1 ++ w :: w2 → w.(pc) = PRunning t →
    rstep R (mkRuntime R.(sched) (w1 ++ at_pc PDead w :: w2) R.(scheduled) (t :: R.(ran)))
| r_park R w1 w w2 s ws :
    R.(workers) = w1 ++ w :: w2 → w.(pc) = PParking → park_begin w.(index) R.(sched) = Some (tt, s, ws) →
    rstep R (mkRuntime s (w1 ++ at_pc PParked w :: w2) R.(scheduled) R.(ran))
| r_unpark R w1 w w2 s ws :            (* notified, or after 50 ms *)
    R.(workers) = w1 ++ w :: w2 → w.(pc) = PParked → park_end w.(index) R.(sched) = Some (tt, s, ws) →
    rstep R (mkRuntime s (w1 ++ at_pc PAfter w :: w2) R.(scheduled) R.(ran))
| r_after R w1 w w2 :
    R.(workers) = w1 ++ w :: w2 → w.(pc) = PAfter →
    rstep R (mkRuntime R.(sched) (w1 ++ at_pc (if w.(thread).(RETIRED) then PDrain else PLoop) w :: w2)
               R.(scheduled) R.(ran))
| r_drain R w1 w w2 x s ws :
    R.(workers) = w1 ++ w :: w2 → w.(pc) = PDrain → pop_local w.(thread) R.(sched) = Some (x, s, ws) →
    rstep R (mkRuntime s (w1 ++ at_pc (match x with Some t => PRequeue t | None => PGone end) w :: w2)
               R.(scheduled) R.(ran))
| r_requeue R w1 w w2 t s ws :
    R.(workers) = w1 ++ w :: w2 → w.(pc) = PRequeue t →
    requeue_to_injector t R.(sched) = Some (tt, s, ws) →
    rstep R (mkRuntime s (w1 ++ at_pc PDrain w :: w2) R.(scheduled) R.(ran))
| r_shutdown R s ws :
    set_shutdown R.(sched) = Some (tt, s, ws) →
    rstep R (mkRuntime s R.(workers) R.(scheduled) R.(ran)).

(** As [build] leaves it: a worker for each index. *)
Definition new_runtime (n : nat) : runtime :=
  mkRuntime (new_multi_thread n) (map (λ i, mkWorker (spawn_worker i i) i PLoop) (seq 0 n)) [] [].
Definition runtime_reachable (n : nat) : runtime → Prop := reachable (.= new_runtime n) rstep.

(** The task a worker has in its hands. *)
Definition held (w : worker) : option T :=
  match w.(pc) with PRunning t | PRequeue t => Some t | _ => None end.

(** ** Every task is in one place *)

Context `{!LawfulDeque T}.

Definition local_tasks (s : Sched) : list T :=
  match s.(shared).(local) with CurrentThread queue => queue | MultiThread _ => [] end.
Definition queued (s : Sched) : list T :=
  tasks s.(shared).(injector) ++ local_tasks s ++ concat (map tasks s.(deques)).

Lemma concat_replace (ds : list deque) q d :
  ds !! q = Some d →
  ∃ k, concat (map tasks ds) ≡ₚ tasks d ++ k ∧
       ∀ d', concat (map tasks (<[q := d']> ds)) ≡ₚ tasks d' ++ k.
Proof.
  intros Hq. exists (concat (map tasks (take q ds)) ++ concat (map tasks (drop (S q) ds))). split.
  - rewrite <-(take_drop_middle ds q d Hq) at 1. rewrite !map_app, !concat_app. simpl. solve_Permutation.
  - intros d'. rewrite insert_take_drop by eauto using lookup_lt_Some.
    rewrite !map_app, !concat_app. simpl. solve_Permutation.
Qed.

(** The shape of a runtime with [n] workers, and where a worker stands in it:
    its queue is the one its index was given, or a later one. *)
Record sane (n : nat) (s : Sched) : Prop := {
  sane_local : s.(shared).(local) = MultiThread (seq 0 n);
  sane_deques : (n ≤ length s.(deques))%nat;
  sane_counts : length s.(shared).(steal_counts) = n ∧ length s.(shared).(park_counts) = n ∧
    length s.(shared).(park_unpark_counts) = n ∧ length s.(shared).(busy_duration_nanos) = n;
}.
Record placed (n idx q : nat) (th : Thread) (s : Sched) : Prop := {
  placed_index : th.(WORKER_INDEX) = Some idx;
  placed_lt : (idx < n)%nat;
  placed_queue : th.(LOCAL_QUEUE) = Some q;
  placed_queue_lt : (q < length s.(deques))%nat;
  placed_own : q = idx ∨ (n ≤ q)%nat;
}.

(** A queue that holds nothing. *)
Definition quiet (q : nat) (s : Sched) : Prop := ∃ d, s.(deques) !! q = Some d ∧ tasks d = [].

(** What an operation does: the tasks it puts in, those it takes out; it adds to
    no queue but [own], and moves nothing else. *)
Record effect (n : nat) (own : option nat) (s s' : Sched) (ins outs : list T) : Prop := {
  ef_queued : ins ++ queued s ≡ₚ outs ++ queued s';
  ef_sane : sane n s';
  ef_shutdown : s'.(shared).(shutdown) = s.(shared).(shutdown);
  ef_deques : length s'.(deques) = length s.(deques);
  ef_quiet q : own ≠ Some q → quiet q s → quiet q s';
}.

Lemma effect_trans n own s1 s2 s3 i1 o1 i2 o2 :
  effect n own s1 s2 i1 o1 → effect n own s2 s3 i2 o2 → effect n own s1 s3 (i1 ++ i2) (o1 ++ o2).
Proof.
  intros [Q1 S1 H1 L1 E1] [Q2 S2 H2 L2 E2]. split; try congruence; [|by auto].
  trans (i2 ++ i1 ++ queued s1); [solve_Permutation|]. rewrite Q1.
  trans (o1 ++ i2 ++ queued s2); [solve_Permutation|]. rewrite Q2. solve_Permutation.
Qed.

Lemma effect_deque n s q d d' ins outs :
  sane n s → s.(deques) !! q = Some d → ins ++ tasks d ≡ₚ outs ++ tasks d' →
  effect n (Some q) s (set_deques (<[q := d']> s.(deques)) s) ins outs.
Proof.
  intros [Hl Hd Hc] Hq Ht. split; simpl; rewrite ?length_insert; try done.
  - destruct (concat_replace _ _ _ Hq) as (k & Hk & Hk'). unfold queued, local_tasks. simpl.
    rewrite Hl, Hk, Hk'. simpl. rewrite !app_assoc, (Permutation_app_comm ins), (Permutation_app_comm outs).
    rewrite <-!app_assoc, (app_assoc ins), Ht. by rewrite <-!app_assoc.
  - split; simpl; rewrite ?length_insert; done.
  - intros q' Hne (d0 & Hd0 & ?). exists d0. split; [|done]. simpl.
    rewrite list_lookup_insert_ne; [done|congruence].
Qed.

Lemma effect_injector n s d ins outs :
  sane n s → ins ++ tasks s.(shared).(injector) ≡ₚ outs ++ tasks d →
  effect n None s (set_injector d s) ins outs.
Proof.
  intros [Hl Hd Hc] Ht. split; simpl; [|by split|done..].
  unfold queued, local_tasks. simpl. rewrite !app_assoc, Ht. done.
Qed.

Lemma effect_counts n s st pk un bu :
  sane n s → length st = n → length pk = n → length un = n → length bu = n →
  effect n None s (set_counts st pk un bu s) [] [].
Proof. intros [Hl Hd (?&?&?&?)] ????. by split. Qed.

Lemma effect_own n own s s' ins outs : effect n None s s' ins outs → effect n own s s' ins outs.
Proof. intros [? ? ? ? Hq]. split; try done. intros q _. by apply Hq. Qed.

(** A batch moved from one queue of the runtime into another. *)
Lemma effect_batch n s q d d' v dv dv' outs :
  sane n s → q ≠ v → s.(deques) !! q = Some d → s.(deques) !! v = Some dv →
  tasks dv ++ tasks d ≡ₚ outs ++ tasks dv' ++ tasks d' → (tasks dv = [] → tasks dv' = []) →
  effect n (Some q) s (set_deques (<[q := d']> (<[v := dv']> s.(deques))) s) [] outs.
Proof.
  intros [Hl Hd Hc] Hne Hq Hv Ht Hsame. split; simpl; rewrite ?length_insert; try done.
  - unfold queued, local_tasks. simpl. rewrite Hl. simpl.
    destruct (concat_replace _ _ _ Hv) as (k & Hk & Hk').
    destruct (concat_replace (<[v:=dv']> (deques s)) q d) as (k2 & Hk2 & Hk2').
    { by rewrite list_lookup_insert_ne. }
    rewrite Hk, Hk2'. rewrite Hk' in Hk2.
    apply (Permutation_app_inv_r (tasks d)).
    trans (tasks (injector (shared s)) ++ (tasks dv ++ tasks d) ++ k); [solve_Permutation|].
    rewrite Ht. trans (tasks (injector (shared s)) ++ outs ++ tasks d' ++ (tasks dv' ++ k)); [solve_Permutation|].
    rewrite Hk2. solve_Permutation.
  - split; simpl; rewrite ?length_insert; done.
  - intros q' Hq' (d0 & Hd0 & Hnil). unfold quiet. simpl.
    rewrite list_lookup_insert_ne by congruence. destruct (decide (q' = v)) as [->|].
    + rewrite list_lookup_insert_eq by eauto using lookup_lt_Some. simplify_eq. eauto.
    + rewrite list_lookup_insert_ne by done. eauto.
Qed.

(** ** The operations *)

Lemma placed_deque n idx q th s : placed n idx q th s → ∃ d, s.(deques) !! q = Some d.
Proof. intros [_ _ _ Hq _]. by apply lookup_lt_is_Some_2. Qed.

Lemma pop_local_effect n idx q th s :
  sane n s → placed n idx q th s →
  ∃ x s', pop_local th s = Some (x, s', []) ∧
    match x with
    | Some t => effect n (Some q) s s' [] [t] ∧ ∃ d k, s.(deques) !! q = Some d ∧ tasks d = t :: k
    | None => quiet q s ∧ s' = s
    end.
Proof.
  intros Hs Hp. destruct (placed_deque _ _ _ _ _ Hp) as [d Hd]. unfold pop_local, get_deque, put_deque.
  rewrite (placed_queue _ _ _ _ _ Hp). run_M. rewrite Hd. run_M.
  pose proof (tasks_pop d) as Hpop. destruct (pop d) as [[t|] d'].
  - eexists (Some t), _. split; [reflexivity|]. split; [|by eauto].
    apply effect_deque with (1:=Hs) (2:=Hd). simpl. by rewrite Hpop.
  - destruct Hpop as [Hnil ->]. rewrite list_insert_id by done. destruct s as [h ds]. eexists None, _.
    split_and!; [reflexivity|by exists d|done].
Qed.

Lemma requeue_effect n t s :
  sane n s → ∃ s', requeue_to_injector t s = Some (tt, s', []) ∧ effect n None s s' [t] [].
Proof.
  intros Hs. unfold requeue_to_injector, get_injector, put_injector. run_M. eexists. split; [done|].
  apply effect_injector; [done|]. rewrite tasks_push. solve_Permutation.
Qed.

Lemma schedule_effect n th t s :
  sane n s →
  (th.(WORKER_INDEX) = None ∨ ∃ idx q, placed n idx q th s) →
  ∃ s', schedule th t s = Some (tt, s', []) ∧ effect n (th.(LOCAL_QUEUE)) s s' [t] [].
Proof.
  intros Hs Hth. unfold schedule. run_M. rewrite (sane_local _ _ Hs).
  destruct Hth as [->|(idx & q & Hp)].
  - destruct (requeue_effect n t s Hs) as (s' & -> & He). eauto using effect_own.
  - rewrite (placed_index _ _ _ _ _ Hp). unfold push_local, get_deque, put_deque.
    rewrite (placed_queue _ _ _ _ _ Hp). run_M. destruct (placed_deque _ _ _ _ _ Hp) as [d Hd].
    rewrite Hd. run_M. eexists. split; [done|]. apply effect_deque with (1:=Hs) (2:=Hd).
    rewrite tasks_push. solve_Permutation.
Qed.

(** Nothing for worker [idx], whose queue is [q], to take. *)
Definition nothing_for (n idx q : nat) (s : Sched) : Prop :=
  quiet q s ∧ tasks s.(shared).(injector) = [] ∧ ∀ i, (i < n)%nat → i ≠ idx → quiet i s.

Definition search_ok (a : search) : Prop := match a with SSibling o _ => (1 ≤ o)%nat | _ => True end.
(** The place a search looks at is empty. *)
Definition empty_at (n idx q : nat) (a : search) (s : Sched) : Prop :=
  match a with
  | SOwn => quiet q s
  | SInjector _ => tasks s.(shared).(injector) = []
  | SSibling o _ => (o < n)%nat ∧ quiet ((idx + o) `mod` n)%nat s
  end.
Definition next_place (a : search) : search :=
  match a with SOwn => SInjector 0 | SInjector _ => SSibling 1 0 | SSibling o _ => SSibling (S o) 0 end.
Definition same_place (a : search) : search :=
  match a with SOwn => SOwn | SInjector n => SInjector (S n) | SSibling o n => SSibling o (S n) end.
Definition outs_of (x : next search (option T)) : list T :=
  match x with Return (Some t) => [t] | _ => [] end.

Lemma sibling_index n idx o : (idx < n → 1 ≤ o < n → (idx + o) `mod` n < n ∧ (idx + o) `mod` n ≠ idx)%nat.
Proof.
  intros Hi Ho. split; [apply Nat.mod_upper_bound; lia|].
  destruct (decide (idx + o < n)%nat); [rewrite Nat.mod_small by lia; lia|].
  rewrite <-(Nat.mod_unique (idx + o) n 1 (idx + o - n)); lia.
Qed.

Lemma bump_length i k l : (i < length l)%nat → ∃ l', bump i k l = Some l' ∧ length l' = length l.
Proof.
  intros [c Hc]%lookup_lt_is_Some_2. unfold bump. rewrite Hc. eexists. split; [done|]. by rewrite length_insert.
Qed.

(** An operation on the counters of worker [idx]. *)
Ltac counts idx :=
  match goal with Hs : sane ?n ?s, Hp : (idx < ?n)%nat |- _ =>
    let H := fresh in
    pose proof (sane_counts _ _ Hs) as (? & ? & ? & ?);
    run_M;
    repeat match goal with |- context [bump idx ?k ?l] =>
      destruct (bump_length idx k l) as (? & -> & ?); [simpl; lia|]; run_M end;
    eexists; split; [reflexivity|]; apply effect_counts; simpl; congruence
  end.

Lemma count_steal_effect n idx s :
  sane n s → (idx < n)%nat → ∃ s', count_steal idx s = Some (tt, s', []) ∧ effect n None s s' [] [].
Proof. intros Hs Hi. unfold count_steal. counts idx. Qed.

Lemma park_begin_effect n idx s :
  sane n s → (idx < n)%nat → ∃ s', park_begin idx s = Some (tt, s', []) ∧ effect n None s s' [] [].
Proof. intros Hs Hi. unfold park_begin. counts idx. Qed.

Lemma park_end_effect n idx s :
  sane n s → (idx < n)%nat → ∃ s', park_end idx s = Some (tt, s', []) ∧ effect n None s s' [] [].
Proof. intros Hs Hi. unfold park_end. counts idx. Qed.

Lemma add_busy_effect n idx nanos s :
  sane n s → (idx < n)%nat →
  ∃ s', add_busy_duration idx nanos s = Some (tt, s', []) ∧ effect n None s s' [] [].
Proof. intros Hs Hi. unfold add_busy_duration. counts idx. Qed.

(** Attempt [m] at [src], into [d], is told to retry. *)
Definition retries (m : nat) (src : deque) (q : nat) (s : Sched) : Prop :=
  ∃ d, s.(deques) !! q = Some d ∧ (steal_batch_and_pop m src d).1.1 = Retry.

Lemma not_from_nothing s q d src (outs : list T) t :
  s.(deques) !! q = Some d → src ++ tasks d ≡ₚ t :: outs → ¬ (quiet q s ∧ src = []).
Proof.
  intros Hd Hp [(d0 & ? & Hnil) ->]. simplify_eq. rewrite Hnil in Hp. by apply Permutation_nil_cons in Hp.
Qed.

Lemma steal_from_injector_effect n idx q th m s :
  sane n s → placed n idx q th s →
  ∃ x s', steal_from_injector th m s = Some (x, s', []) ∧
    match x with
    | Success t => effect n (Some q) s s' [] [t] ∧ ¬ (quiet q s ∧ tasks s.(shared).(injector) = [])
    | Empty => s' = s ∧ tasks s.(shared).(injector) = []
    | Retry => s' = s ∧ retries m s.(shared).(injector) q s
    end.
Proof.
  intros Hs Hp. destruct (placed_deque _ _ _ _ _ Hp) as [d Hd].
  unfold steal_from_injector, get_injector, get_deque, put_injector, put_deque, retries.
  rewrite (placed_queue _ _ _ _ _ Hp). run_M. rewrite Hd. run_M.
  pose proof (tasks_steal_batch m (injector (shared s)) d) as Hb.
  destruct (steal_batch_and_pop m (injector (shared s)) d) as [[[|t|] i'] d'] eqn:E; run_M.
  - destruct Hb as (Hnil & -> & ->). rewrite list_insert_id by done. destruct s as [[] ds].
    by eexists _, _.
  - eexists (Success t), _. split; [done|]. split.
    2:{ apply (not_from_nothing _ _ _ _ _ _ Hd (proj1 Hb)). }
    destruct (concat_replace _ _ _ Hd) as (k & Hk & Hk'). pose proof Hs as [Hl Hdq Hc].
    split; simpl; rewrite ?length_insert; try done.
    + destruct Hb as [Hb _]. unfold queued, local_tasks. simpl. rewrite Hl, Hk, Hk'. simpl.
      rewrite (assoc_L (++) (tasks _)), Hb. solve_Permutation.
    + split; simpl; by rewrite ?length_insert.
    + intros r Hr (d0 & Hd0 & ?). exists d0. simpl. by rewrite list_lookup_insert_ne by congruence.
  - destruct Hb as (-> & ->). rewrite list_insert_id by done. destruct s as [[] ds].
    eexists Retry, _. split; [done|]. split; [done|]. exists d. by rewrite E.
Qed.

Lemma steal_from_sibling_effect n idx q th v dv m s :
  sane n s → placed n idx q th s → q ≠ v → s.(deques) !! v = Some dv →
  ∃ x s', steal_from_sibling th v m s = Some (x, s', []) ∧
    match x with
    | Success t => effect n (Some q) s s' [] [t] ∧ ¬ (quiet q s ∧ tasks dv = [])
    | Empty => s' = s ∧ tasks dv = []
    | Retry => s' = s ∧ retries m dv q s
    end.
Proof.
  intros Hs Hp Hne Hv. destruct (placed_deque _ _ _ _ _ Hp) as [d Hd].
  unfold steal_from_sibling, get_deque, put_deque, retries.
  rewrite (placed_queue _ _ _ _ _ Hp). run_M. rewrite Hv. run_M. rewrite Hd. run_M.
  pose proof (tasks_steal_batch m dv d) as Hb.
  destruct (steal_batch_and_pop m dv d) as [[[|t|] i'] d'] eqn:E; run_M.
  - destruct Hb as (Hnil & -> & ->). rewrite !list_insert_id by (try rewrite list_insert_id; done).
    destruct s as [[] ds]. by eexists _, _.
  - destruct Hb as [Hb Hsub]. eexists (Success t), _. split; [reflexivity|]. split.
    2:{ apply (not_from_nothing _ _ _ _ _ _ Hd Hb). }
    apply (effect_batch n s q d d' v dv i' [t] Hs Hne Hd Hv Hb).
    intros Hnil. rewrite Hnil in Hsub. by apply submseteq_nil_r in Hsub.
  - destruct Hb as (-> & ->). rewrite !list_insert_id by (try rewrite list_insert_id; done).
    destruct s as [[] ds]. eexists Retry, _. split; [done|]. split; [done|]. exists d. by rewrite E.
Qed.

(** One attempt never panics; it takes a task, or else leaves everything
    alone, and then the place it looked at was empty or is to be tried again. *)
Lemma search_step_effect n idx q th a s :
  sane n s → placed n idx q th s → search_ok a →
  ∃ x s', search_step th idx a s = Some (x, s', []) ∧
    match x with
    | Return (Some t) => effect n (Some q) s s' [] [t] ∧ ¬ nothing_for n idx q s ∧
        (a = SOwn → ∃ d k, s.(deques) !! q = Some d ∧ tasks d = t :: k)
    | Continue a' => s' = s ∧ search_ok a' ∧
        (a' = next_place a ∧ empty_at n idx q a s ∨
         a' = same_place a ∧ match a with
            | SOwn => False
            | SInjector m => retries m s.(shared).(injector) q s
            | SSibling o m => ∃ dv, s.(deques) !! ((idx + o) `mod` n)%nat = Some dv ∧ retries m dv q s
            end)
    | Return None => s' = s ∧ ∃ o m, a = SSibling o m ∧ (n ≤ o)%nat
    | Panicked => False
    end.
Proof.
  intros Hs Hp Ha. pose proof (placed_lt _ _ _ _ _ Hp) as Hi. pose proof (placed_own _ _ _ _ _ Hp) as Hown.
  unfold search_step. run_M. rewrite (sane_local _ _ Hs), length_seq. destruct a as [|m|o m].
  - destruct (pop_local_effect _ _ _ _ _ Hs Hp) as (x & s' & -> & Hx).
    destruct x as [t|]; eexists _, _; (split; [done|]).
    + destruct Hx as (He & d & k & Hd & Ht). split_and!; [done| |by eauto].
      intros ((d0 & ? & ?) & _). congruence.
    + destruct Hx as [? ->]. split_and!; [done..|]. by left.
  - destruct (steal_from_injector_effect _ _ _ _ m _ Hs Hp) as (x & s' & -> & He).
    destruct x as [|t|]; simpl; eexists _, _; (split; [done|]).
    + destruct He as [-> He]. split_and!; [done|simpl; lia|]. by left.
    + destruct He as [He Hno]. split_and!; [done| |done]. intros (? & ? & _). by apply Hno.
    + destruct He as [-> He]. split_and!; [done..|]. by right.
  - destruct (Nat.ltb_spec o n) as [Ho|Ho]; [|by eexists _, _; split; [done|]; split; [done|]; exists o, m].
    destruct (sibling_index n idx o Hi ltac:(simpl in Ha; lia)) as [Hv Hvne].
    set (v := ((idx + o) `mod` n)%nat) in *. rewrite lookup_seq_lt by done. run_M.
    destruct (lookup_lt_is_Some_2 (deques s) v) as [dv Hdv]; [pose proof (sane_deques _ _ Hs); lia|].
    assert (q ≠ v) as Hqv by lia.
    destruct (steal_from_sibling_effect _ _ _ _ v dv m _ Hs Hp Hqv Hdv) as (x & s' & -> & He).
    destruct x as [|t|]; simpl.
    + destruct He as [-> He]. eexists _, _. split; [done|]. split_and!; [done|simpl; lia|].
      left. split_and!; [done..|]. by exists dv.
    + destruct He as [He Hno].
      destruct (count_steal_effect n idx s' (ef_sane _ _ _ _ _ _ He) Hi) as (s2 & -> & He2).
      eexists _, _. split; [done|]. split_and!; [|intros (? & _ & Hsib)|done].
      { apply (effect_trans _ _ _ _ _ _ _ _ _ He (effect_own _ _ _ _ _ _ He2)). }
      destruct (Hsib v Hv Hvne) as (? & ? & ?). apply Hno. by simplify_eq.
    + destruct He as [-> He]. eexists _, _. split; [done|]. split_and!; [done..|].
      right. split; [done|]. by exists dv.
Qed.

Lemma search_from_step fuel th idx a a' s s' :
  search_step th idx a s = Some (Continue a', s', []) →
  search_from (S fuel) th idx a s = search_from fuel th idx a' s'.
Proof. intros E. simpl. unfold bind. rewrite E. by destruct (search_from _ _ _ _ _) as [[[??]?]|]. Qed.

Lemma search_from_return fuel th idx a r s s' :
  search_step th idx a s = Some (Return r, s', []) →
  search_from (S fuel) th idx a s = Some (Some r, s', []).
Proof. intros E. simpl. unfold bind. by rewrite E. Qed.

Lemma search_from_mono fuel fuel' th idx a r s s' ws :
  search_from fuel th idx a s = Some (Some r, s', ws) → (fuel ≤ fuel')%nat →
  search_from fuel' th idx a s = Some (Some r, s', ws).
Proof.
  revert fuel' a s ws. induction fuel as [|fuel IH]; intros fuel' a s ws E Hle; [done|].
  destruct fuel' as [|fuel']; [lia|]. simpl in *. unfold bind in *.
  destruct (search_step th idx a s) as [[[x s1] w1]|]; [|done]. destruct x as [a'|x|]; [|done..].
  destruct (search_from fuel th idx a' s1) as [[[[r1|] s2] w2]|] eqn:E1; simplify_eq.
  by rewrite (IH fuel' a' s1 w2 E1 ltac:(lia)).
Qed.

(** A search from [a] ends, whatever more fuel it is given, with a task, or
    with nothing where there is nothing. *)
Definition search_ends (n idx q : nat) (th : Thread) (a : search) (s : Sched) : Prop :=
  ∃ r s' fuel0, (∀ fuel, (fuel0 ≤ fuel)%nat → search_from fuel th idx a s = Some (Some r, s', [])) ∧
    match r with
    | Some t => effect n (Some q) s s' [] [t] ∧ ¬ nothing_for n idx q s
    | None => s' = s ∧ nothing_for n idx q s
    end ∧
    (a = SOwn → ∀ d t k, s.(deques) !! q = Some d → tasks d = t :: k → r = Some t).

Lemma search_ends_step n idx q th a a' s :
  search_step th idx a s = Some (Continue a', s, []) → (a = SOwn → quiet q s) →
  search_ends n idx q th a' s → search_ends n idx q th a s.
Proof.
  intros E Hown (r & s' & f0 & Hf & Hr & _). exists r, s', (S f0). split; [|split; [done|]].
  - intros [|fuel] Hle; [lia|]. rewrite (search_from_step _ _ _ _ _ _ _ E). apply Hf. lia.
  - intros Ha d t k ??. destruct (Hown Ha) as (? & ? & ?). congruence.
Qed.

(** What the search has found empty before it comes to [a]. *)
Definition searched (n idx q : nat) (a : search) (s : Sched) : Prop :=
  match a with
  | SOwn => True
  | SInjector _ => quiet q s
  | SSibling o _ => quiet q s ∧ tasks s.(shared).(injector) = [] ∧
      ∀ o', (1 ≤ o' < o)%nat → quiet ((idx + o') `mod` n)%nat s
  end.

Lemma searched_next n idx q a s :
  searched n idx q a s → empty_at n idx q a s → searched n idx q (next_place a) s.
Proof.
  destruct a as [|m|o m]; simpl; [done|..].
  - intros. split_and!; [done..|]. intros; lia.
  - intros (? & ? & Ho) [? Hq]. split_and!; [done..|]. intros o' Ho'.
    destruct (decide (o' = o)) as [->|]; [done|]. apply Ho. lia.
Qed.

Lemma searched_all n idx q o m s :
  (idx < n)%nat → (n ≤ o)%nat → searched n idx q (SSibling o m) s → nothing_for n idx q s.
Proof.
  intros Hi Ho (? & ? & Hs). split_and!; [done..|]. intros i Hin Hne.
  destruct (decide (idx < i)%nat).
  - specialize (Hs (i - idx)%nat ltac:(lia)).
    by replace ((idx + (i - idx)) `mod` n)%nat with i in Hs
      by (rewrite Nat.mod_small by lia; lia).
  - specialize (Hs (i + n - idx)%nat ltac:(lia)).
    by rewrite <-(Nat.mod_unique (idx + (i + n - idx)) n 1 i) in Hs by lia.
Qed.

(** Attempts are repeated only until one of them is not told to retry. *)
Lemma search_place_ends n idx q th a s :
  sane n s → placed n idx q th s → search_ok a → searched n idx q a s →
  match a with SOwn => True | SInjector m | SSibling _ m => m = 0%nat end →
  (empty_at n idx q a s → search_ends n idx q th (next_place a) s) →
  search_ends n idx q th a s.
Proof.
  intros Hs Hp Ha Hsr Hm Hnext.
  set (retry m := match a with
     | SOwn => False
     | SInjector _ => retries m s.(shared).(injector) q s
     | SSibling o _ => ∃ dv, s.(deques) !! ((idx + o) `mod` n)%nat = Some dv ∧ retries m dv q s
     end).
  set (attempt m := match a with SOwn => SOwn | SInjector _ => SInjector m | SSibling o _ => SSibling o m end).
  assert (∃ m, ¬ retry m) as [m Hno].
  { destruct (placed_deque _ _ _ _ _ Hp) as [d Hd]. unfold retry. destruct a as [|m0|o m0].
    - exists 0%nat. intros [].
    - destruct (steal_batch_progress (injector (shared s)) d) as [m ?]. exists m. intros (? & ? & ?). by simplify_eq.
    - destruct (deques s !! ((idx + o) `mod` n)%nat) as [dv|]; [|exists 0%nat; by intros (? & ? & _)].
      destruct (steal_batch_progress dv d) as [m ?]. exists m. intros (? & ? & ? & ? & ?). by simplify_eq. }
  assert (∀ j, (retry j → search_ends n idx q th (attempt (S j)) s) → search_ends n idx q th (attempt j) s) as Hstep.
  { intros j Hj. destruct (search_step_effect n idx q th (attempt j) s Hs Hp) as (x & s' & E & Hx);
      [by destruct a|]. destruct x as [a'|[t|]|]; [| | |done].
    - destruct Hx as (-> & _ & [[-> He]|[-> He]]); eapply search_ends_step; try exact E.
      + destruct a; simpl; [by intros _|done..].
      + destruct a; apply Hnext; exact He.
      + by destruct a.
      + destruct a; [done|..]; by apply Hj.
    - destruct Hx as (He & Hne & Hown). exists (Some t), s', 1%nat. split; [|split; [done|]].
      + intros [|f] ?; [lia|]. by apply search_from_return.
      + intros Ha' d t' k ??. destruct a; simplify_eq. destruct (Hown eq_refl) as (? & ? & ? & ?). simplify_eq. congruence.
    - destruct Hx as (-> & o & m' & Ho & Hle). exists None, s, 1%nat. split_and!; [|done| |].
      + intros [|f] ?; [lia|]. by apply search_from_return.
      + apply (searched_all n idx q o m'); [by eapply placed_lt|done|].
        unfold attempt in Ho. destruct a; simplify_eq. exact Hsr.
      + intros Ha'. unfold attempt in Ha', Ho. destruct a; simplify_eq. }
  assert (∀ k j, (j + k = m)%nat → search_ends n idx q th (attempt j) s) as Hall.
  { intros k. induction k as [|k IH]; intros j Hj; apply Hstep; intros Hr.
    - by replace j with m in Hr by lia.
    - apply IH. lia. }
  specialize (Hall m 0%nat eq_refl). by destruct a; simplify_eq/=.
Qed.

Lemma searches_end n idx q th s : sane n s → placed n idx q th s → search_ends n idx q th SOwn s.
Proof.
  intros Hs Hp. assert (∀ k o, (1 ≤ o → o + k = n → searched n idx q (SSibling o 0) s →
      search_ends n idx q th (SSibling o 0) s)%nat) as Hsib.
  { intros k. induction k as [|k IH]; intros o Ho Hn Hsr; apply search_place_ends; try done.
    - intros [? _]. lia.
    - intros He. apply IH; [lia..|]. by apply (searched_next _ _ _ (SSibling o 0)). }
  apply search_place_ends; try done. intros Hown. apply search_place_ends; try done. intros Hinj.
  pose proof (placed_lt _ _ _ _ _ Hp). apply (Hsib (n - 1)%nat); [lia..|].
  by apply (searched_next _ _ _ (SInjector 0)).
Qed.

(** C6: with enough fuel, and undisturbed, the search for a task ends: it
    returns nothing only if there is nothing for the worker to take in its own
    queue, the injector and the siblings' queues, and then leaves everything
    as it was; else it takes one task out of the runtime's queues, all others
    staying in them; and as long as the worker's own queue has tasks it is
    the first of them. *)
Theorem next_task_finds n idx q th s :
  sane n s → placed n idx q th s →
  ∃ r s' fuel0, (∀ fuel, (fuel0 ≤ fuel)%nat → next_task fuel th idx s = Some (Some r, s', [])) ∧
    (r = None ↔ nothing_for n idx q s) ∧
    match r with Some t => queued s ≡ₚ t :: queued s' | None => s' = s end ∧
    (∀ d t k, s.(deques) !! q = Some d → tasks d = t :: k → r = Some t).
Proof.
  intros Hs Hp. destruct (searches_end _ _ _ _ _ Hs Hp) as (r & s' & f0 & Hf & Hr & Hown).
  exists r, s', f0. split; [exact Hf|]. split_and!; [| |by apply Hown].
  - destruct r as [t|]; naive_solver.
  - destruct r as [t|]; [|by destruct Hr]. by destruct Hr as [[Hq _ _ _ _] _].
Qed.

(** ** The invariant of the running runtime *)

Record worker_ok (n : nat) (s : Sched) (w : worker) : Prop := {
  wo_placed : ∃ q, placed n w.(index) q w.(thread) s;
  wo_search a : w.(pc) = PSearch a → search_ok a;
  wo_drain : (w.(pc) = PDrain ∨ ∃ t, w.(pc) = PRequeue t) → w.(thread).(RETIRED) = true;
  wo_gone : s.(shared).(shutdown) = false → w.(pc) = PGone →
    w.(thread).(RETIRED) = true ∧ ∃ q, w.(thread).(LOCAL_QUEUE) = Some q ∧ quiet q s;
}.

(** What does not change while a worker goes about its loop. *)
Definition ident (w : worker) : nat * Thread := (w.(index), w.(thread)).
Record idents_ok (n : nat) (s : Sched) (ids : list (nat * Thread)) : Prop := {
  io_queues : NoDup (map (λ p, p.2.(LOCAL_QUEUE)) ids);
  io_alive i : (i < n)%nat → ∃ th, (i, th) ∈ ids ∧ th.(RETIRED) = false;
  io_owned q : (q < length s.(deques))%nat → ∃ p, p ∈ ids ∧ p.2.(LOCAL_QUEUE) = Some q;
}.

Record RInv (n : nat) (R : runtime) : Prop := {
  ri_sane : sane n R.(sched);
  ri_tasks : R.(scheduled) ≡ₚ queued R.(sched) ++ omap held R.(workers) ++ R.(ran);
  ri_workers : Forall (worker_ok n R.(sched)) R.(workers);
  ri_idents : idents_ok n R.(sched) (map ident R.(workers));
}.

Lemma placed_deques n idx q th s s' :
  (length s.(deques) ≤ length s'.(deques))%nat → placed n idx q th s → placed n idx q th s'.
Proof. intros Hl [? ? ? ? ?]. split; try done. lia. Qed.

Lemma worker_ok_effect n own s s' ins outs w :
  effect n own s s' ins outs → own ≠ w.(thread).(LOCAL_QUEUE) ∨ own = None →
  worker_ok n s w → worker_ok n s' w.
Proof.
  intros [Hq Hs Hsh Hl Hqt] Hown [[q Hp] ? ? Hg]. split; [|done..|].
  - exists q. eapply placed_deques; [|done]. lia.
  - intros Hf Hpc. rewrite Hsh in Hf. destruct (Hg Hf Hpc) as (? & q' & ? & ?). split; [done|].
    exists q'. split; [done|]. apply Hqt; [|done]. destruct Hown as [Hown| ->]; [|done]. congruence.
Qed.

Lemma worker_ok_to n own s s' ins outs w p :
  effect n own s s' ins outs → worker_ok n s w → (∀ a, p = PSearch a → search_ok a) →
  ((p = PDrain ∨ ∃ t, p = PRequeue t) → w.(thread).(RETIRED) = true) →
  (s.(shared).(shutdown) = false → p = PGone →
    w.(thread).(RETIRED) = true ∧ ∃ q, w.(thread).(LOCAL_QUEUE) = Some q ∧ quiet q s') →
  worker_ok n s' (at_pc p w).
Proof.
  intros [_ _ Hsh Hl _] [[q Hp] _ _ _] ? ? Hg. split; [|done..|by rewrite Hsh].
  exists q. eapply placed_deques; [|done]. lia.
Qed.

Definition held_list (w : worker) : list T := match held w with Some t => [t] | None => [] end.

Lemma omap_held_cons w ws : omap held (w :: ws) = held_list w ++ omap held ws.
Proof. unfold held_list. csimpl. by destruct (held w). Qed.

Lemma other_queue n s w1 w w2 w' :
  idents_ok n s (map ident (w1 ++ w :: w2)) → w' ∈ w1 ++ w2 →
  w.(thread).(LOCAL_QUEUE) ≠ w'.(thread).(LOCAL_QUEUE).
Proof.
  intros [Hnd _ _] Hin E. rewrite map_map, map_app in Hnd. simpl in Hnd.
  apply NoDup_app in Hnd as (_ & Hd1 & Hnd). apply NoDup_cons in Hnd as [Hnd _].
  apply elem_of_app in Hin as [Hin|Hin].
  - apply (Hd1 (LOCAL_QUEUE (thread w'))); [by apply (list_elem_of_fmap_2 (λ w, LOCAL_QUEUE (thread w)))|].
    rewrite <-E. by left.
  - apply Hnd. rewrite E. by apply (list_elem_of_fmap_2 (λ w, LOCAL_QUEUE (thread w))).
Qed.

(** A step in which one worker moves on, and its queue and the runtime's change. *)
Lemma RInv_worker n R w1 w w2 p s' own ins outs new ran' :
  RInv n R → R.(workers) = w1 ++ w :: w2 → effect n own R.(sched) s' ins outs →
  own = w.(thread).(LOCAL_QUEUE) ∨ own = None →
  new ++ outs ++ held_list w ++ R.(ran) ≡ₚ ins ++ held_list (at_pc p w) ++ ran' →
  (∀ a, p = PSearch a → search_ok a) →
  ((p = PDrain ∨ ∃ t, p = PRequeue t) → w.(thread).(RETIRED) = true) →
  (R.(sched).(shared).(shutdown) = false → p = PGone →
    w.(thread).(RETIRED) = true ∧ ∃ q, w.(thread).(LOCAL_QUEUE) = Some q ∧ quiet q s') →
  RInv n (mkRuntime s' (w1 ++ at_pc p w :: w2) (new ++ R.(scheduled)) ran').
Proof.
  intros [Hs Ht Hw Hi] Hws He Hown Hbal Hp1 Hp2 Hp3. pose proof He as [Hq Hs' Hsh Hl Hqt]. rewrite Hws in *.
  split; simpl.
  - done.
  - rewrite omap_app, omap_held_cons in *. apply (Permutation_app_inv_l ins).
    trans (new ++ (ins ++ queued (sched R)) ++ omap held w1 ++ held_list w ++ omap held w2 ++ ran R).
    { rewrite Ht. solve_Permutation. }
    rewrite Hq.
    trans ((new ++ outs ++ held_list w ++ ran R) ++ queued s' ++ omap held w1 ++ omap held w2);
      [solve_Permutation|]. rewrite Hbal. solve_Permutation.
  - assert (∀ w', w' ∈ w1 ++ w2 → worker_ok n s' w') as Hothers.
    { intros w' Hin. rewrite Forall_forall in Hw. eapply worker_ok_effect; [done| |apply Hw; set_solver].
      destruct Hown as [->|]; [left|by right]. by eapply other_queue. }
    rewrite Forall_app, Forall_cons, !Forall_forall.
    split_and!; [intros; apply Hothers; set_solver| |intros; apply Hothers; set_solver].
    eapply worker_ok_to; try done. rewrite Forall_app, Forall_cons in Hw. tauto.
  - destruct Hi as [Hnd Hal How]. rewrite map_app in *. simpl in *. split; [done..|].
    rewrite Hl. done.
Qed.

Lemma RInv_outside n R t s' :
  RInv n R → effect n None R.(sched) s' [t] [] →
  RInv n (mkRuntime s' R.(workers) (t :: R.(scheduled)) R.(ran)).
Proof.
  intros [Hs Ht Hw Hi] He. pose proof He as [Hq Hs' _ Hl _]. split; simpl; [done| | |].
  - rewrite Ht. trans (([t] ++ queued (sched R)) ++ omap held (workers R) ++ ran R); [done|]. by rewrite Hq.
  - eapply Forall_impl; [exact Hw|]. intros w. eapply worker_ok_effect; [done|by right].
  - destruct Hi as [? ? Ho]. split; [done..|]. by rewrite Hl.
Qed.

Lemma RInv_shutdown n R s' ws :
  RInv n R → set_shutdown R.(sched) = Some (tt, s', ws) →
  RInv n (mkRuntime s' R.(workers) R.(scheduled) R.(ran)).
Proof.
  intros [[? ? ?] Ht Hw [? ? ?]] Hop. unfold set_shutdown in Hop. run_M. simplify_eq/=.
  split; simpl; [by split|done| |by split].
  eapply Forall_impl; [exact Hw|]. intros w [[q []] ? ? ?]. split; [by exists q|done..].
Qed.

(** A worker that blocks: its thread is to retire, and another with a new queue
    takes its index. *)
Lemma RInv_replaced n R w1 w w2 :
  RInv n R → R.(workers) = w1 ++ w :: w2 → w.(thread).(RETIRED) = false → w.(pc) ≠ PGone →
  RInv n (mkRuntime (set_deques (R.(sched).(deques) ++ [new_fifo]) R.(sched))
    (w1 ++ mkWorker (mkThread w.(thread).(WORKER_INDEX) w.(thread).(LOCAL_QUEUE) true) w.(index) w.(pc) ::
     w2 ++ [mkWorker (spawn_worker w.(index) (length R.(sched).(deques))) w.(index) PLoop])
    R.(scheduled) R.(ran)).
Proof.
  intros [[Hl Hd Hc] Ht Hw [Hnd Hal How]] Hws Hret Hgone. rewrite Hws in *.
  set (s' := set_deques (deques (sched R) ++ [new_fifo]) (sched R)).
  assert (length (deques s') = S (length (deques (sched R)))) as Hlen.
  { simpl. rewrite length_app. simpl. lia. }
  assert (∀ th idx q, placed n idx q th (sched R) → placed n idx q th s') as Hpl.
  { intros th idx q. apply placed_deques. lia. }
  split; simpl.
  - split; [done| |done]. lia.
  - rewrite Ht. unfold queued, local_tasks. simpl. rewrite Hl, map_app, concat_app. simpl.
    rewrite tasks_new, !app_nil_r, !omap_app, !omap_held_cons, omap_app. csimpl. by rewrite app_nil_r.
  - assert (∀ w', worker_ok n (sched R) w' → worker_ok n s' w') as Hok.
    { intros w' [[q Hp] ? ? Hg]. split; [eauto|done..|]. intros Hf Hpc.
      destruct (Hg Hf Hpc) as (? & q' & ? & d & ? & ?). split; [done|]. exists q'. split; [done|].
      exists d. split; [|done]. simpl. by apply lookup_app_l_Some. }
    rewrite Forall_app, Forall_cons in Hw. destruct Hw as (Hw1 & [[q Hp] Hsr Hdr _] & Hw2).
    rewrite Forall_app, Forall_cons, Forall_app, Forall_singleton.
    split_and!; [by eapply Forall_impl| |by eapply Forall_impl|].
    + split; simpl; [|done..]. exists q. destruct (Hpl _ _ _ Hp). by split.
    + split; simpl; [|naive_solver..]. exists (length (deques (sched R))). destruct Hp. split; simpl; rewrite ?length_app; simpl; try done; lia.
  - assert (∀ p, p ∈ map ident (w1 ++ w :: w2) → p = ident w ∨ p ∈ map ident w1 ++ map ident w2) as Hin.
    { rewrite map_app. set_solver. }
    set (ids := map ident (w1 ++ mkWorker _ _ _ :: _)).
    set (new := (index w, spawn_worker (index w) (length (deques (sched R))))).
    assert (ids = map ident w1 ++ (index w, mkThread (WORKER_INDEX (thread w)) (LOCAL_QUEUE (thread w)) true) ::
      map ident w2 ++ [new]) as Hids by (unfold ids; rewrite map_app; simpl; by rewrite map_app).
    assert (new ∈ ids ∧ ∀ p, p ∈ map ident w1 ++ map ident w2 → p ∈ ids) as [Hnew Hold].
    { rewrite Hids. split; [|intros p Hp%elem_of_app];
        rewrite elem_of_app, elem_of_cons, elem_of_app, list_elem_of_singleton; tauto. }
    split; simpl.
    + replace (map _ _) with (map (λ p, LOCAL_QUEUE p.2) (map ident (w1 ++ w :: w2)) ++ [Some (length (deques (sched R)))]).
      2:{ rewrite Hids, !map_app. simpl. rewrite !map_app. simpl. by rewrite <-app_assoc. }
      apply NoDup_app. split; [done|]. split; [|by repeat constructor; set_solver].
      intros lq Hlq ->%list_elem_of_singleton. rewrite map_map in Hlq.
      apply list_elem_of_fmap in Hlq as (w' & E & Hw'). simpl in E. rewrite Forall_forall in Hw.
      destruct (Hw w' Hw') as [[q [_ _ Hq Hlt _]] _ _ _]. rewrite Hq in E. simplify_eq. lia.
    + intros i Hi. destruct (Hal i Hi) as (th & Hth & Hr). destruct (Hin _ Hth) as [E|?].
      * unfold ident in E. simplify_eq. exists (spawn_worker (index w) (length (deques (sched R)))).
        by split.
      * exists th. split; [by apply Hold|done].
    + intros q Hq. rewrite length_app in Hq. simpl in Hq.
      destruct (decide (q = length (deques (sched R)))) as [->|].
      * by exists new.
      * destruct (How q ltac:(lia)) as (p & Hp & E). destruct (Hin _ Hp) as [->|?]; [|exists p; auto].
        eexists. split; [rewrite Hids; apply elem_of_app; right; by left|done].
Qed.

Lemma RInv_get n R w1 w w2 :
  RInv n R → R.(workers) = w1 ++ w :: w2 → worker_ok n R.(sched) w.
Proof. intros [_ _ Hw _] E. rewrite E, Forall_app, Forall_cons in Hw. tauto. Qed.

Lemma RInv_step n R R' : RInv n R → rstep R R' → RInv n R'.
Proof.
  intros HI Hst. pose proof (ri_sane _ _ HI) as Hs.
  destruct Hst as [R t s ws Hop|R w1 w w2 u t s ws Hw Hpc Hop|R w1 w w2 u th' new s ws Hw Hpc Hop
    |R w1 w w2 b s ws Hw Hpc Hop|R w1 w w2 a x s ws Hw Hpc Hop|R w1 w w2 t nanos s ws Hw Hpc Hop|R w1 w w2 t Hw Hpc
    |R w1 w w2 s ws Hw Hpc Hop|R w1 w w2 s ws Hw Hpc Hop|R w1 w w2 Hw Hpc
    |R w1 w w2 x s ws Hw Hpc Hop|R w1 w w2 t s ws Hw Hpc Hop|R s ws Hop];
    try (pose proof (RInv_get _ _ _ _ _ HI Hw) as Hok; destruct (wo_placed _ _ _ Hok) as [q Hp];
         pose proof (placed_lt _ _ _ _ _ Hp) as Hlt);
    try (assert (held_list w = match w.(pc) with PRunning t | PRequeue t => [t] | _ => [] end) as Hheld
           by (unfold held_list, held; by destruct (pc w)); rewrite Hpc in Hheld).
  - destruct (schedule_effect n plain_thread t (sched R) Hs ltac:(by left)) as (s' & E & He).
    rewrite E in Hop. simplify_eq. by apply RInv_outside.
  - destruct (schedule_effect n (thread w) t (sched R) Hs ltac:(by eauto)) as (s' & E & He).
    rewrite E in Hop. simplify_eq.
    replace (workers R) with (w1 ++ at_pc (pc w) w :: w2) by (rewrite Hw; by destruct w).
    eapply (RInv_worker n R w1 w w2 (pc w) s _ [t] [] [t]); try done; rewrite ?Hpc; try naive_solver.
  - unfold block_in_place in Hop. destruct (RETIRED (thread w)) eqn:Hret.
    + run_M. simplify_eq. rewrite app_nil_r. replace (mkWorker _ _ _) with w by by destruct w.
      destruct R. simpl in *. by subst.
    + run_M. simplify_eq. eapply RInv_replaced; try done. by rewrite Hpc.
  - unfold is_shutdown in Hop. run_M. simplify_eq.
    eapply (RInv_worker n R w1 w w2 _ _ None [] [] []); try done; [by right|..];
      [rewrite Hheld; by destruct (shutdown (shared (sched R)))|..];
      destruct (shutdown (shared (sched R))); naive_solver.
  - destruct (search_step_effect n (index w) q (thread w) a (sched R) Hs Hp) as (x' & s' & E & Hx).
    { by eapply wo_search. }
    rewrite E in Hop. simplify_eq. rewrite <-(placed_queue _ _ _ _ _ Hp) in Hx. destruct x as [a'|[t|]|]; [| | |done].
    + destruct Hx as (-> & Hok' & _).
      eapply (RInv_worker n R w1 w w2 _ _ None [] [] []); try done; [by right|by rewrite Hheld|naive_solver..].
    + destruct Hx as (He & _).
      eapply (RInv_worker n R w1 w w2 _ _ _ [] [t] []); try done; [by left|by rewrite Hheld|naive_solver..].
    + destruct Hx as (-> & _).
      eapply (RInv_worker n R w1 w w2 _ _ None [] [] []); try done; [by right|by rewrite Hheld|naive_solver..].
  - destruct (add_busy_effect n (index w) nanos (sched R) Hs Hlt) as (s' & E & He). rewrite E in Hop. simplify_eq.
    eapply (RInv_worker n R w1 w w2 _ _ None [] [] []); try done; [by right|by rewrite Hheld|naive_solver..].
  - eapply (RInv_worker n R w1 w w2 PDead _ None [] [] []); try done; [by right|by rewrite Hheld|naive_solver..].
  - destruct (park_begin_effect n (index w) (sched R) Hs Hlt) as (s' & E & He). rewrite E in Hop. simplify_eq.
    eapply (RInv_worker n R w1 w w2 _ _ None [] [] []); try done; [by right|by rewrite Hheld|naive_solver..].
  - destruct (park_end_effect n (index w) (sched R) Hs Hlt) as (s' & E & He). rewrite E in Hop. simplify_eq.
    eapply (RInv_worker n R w1 w w2 _ _ None [] [] []); try done; [by right|by rewrite Hheld|naive_solver..].
  - eapply (RInv_worker n R w1 w w2 _ _ None [] [] []); try done; [by right|..];
      [rewrite Hheld; by destruct (RETIRED (thread w))|..]; destruct (RETIRED (thread w)) eqn:?; naive_solver.
  - destruct (pop_local_effect n (index w) q (thread w) (sched R) Hs Hp) as (x' & s' & E & Hx).
    rewrite E in Hop. simplify_eq. rewrite <-(placed_queue _ _ _ _ _ Hp) in Hx.
    assert (RETIRED (thread w) = true) by (eapply wo_drain; [done|by left]). destruct x as [t|].
    + destruct Hx as (He & _).
      eapply (RInv_worker n R w1 w w2 _ _ _ [] [t] []); try done; [by left|by rewrite Hheld|naive_solver..].
    + destruct Hx as (Hqt & ->).
      eapply (RInv_worker n R w1 w w2 _ _ None [] [] []); try done; [by right|by rewrite Hheld|naive_solver..|].
      intros _ _. split; [done|]. exists q. split; [by eapply placed_queue|done].
  - destruct (requeue_effect n t (sched R) Hs) as (s' & E & He). rewrite E in Hop. simplify_eq.
    assert (RETIRED (thread w) = true) by (eapply wo_drain; [done|right; by exists t]).
    eapply (RInv_worker n R w1 w w2 _ _ None [t] [] []); try done; [by right|by rewrite Hheld|naive_solver..].
  - by eapply RInv_shutdown.
Qed.

Lemma new_runtime_RInv n : RInv n (new_runtime n).
Proof.
  split; simpl.
  - split; simpl; rewrite ?length_replicate; [done|lia|done].
  - unfold queued, local_tasks. simpl. rewrite tasks_new.
    assert (concat (map tasks (replicate n new_fifo)) = []) as ->.
    { induction n as [|n IH]; simpl; [done|]. by rewrite tasks_new, IH. }
    assert (omap held (map (λ i, mkWorker (spawn_worker i i) i PLoop) (seq 0 n)) = []) as ->; [|done].
    generalize 0%nat. induction n as [|n IH]; intros k; simpl; [done|]. by csimpl.
  - apply Forall_forall. intros w (i & -> & Hi%elem_of_seq)%list_elem_of_fmap. split; simpl; [|naive_solver..].
    exists i. split; simpl; rewrite ?length_replicate; try done; lia.
  - rewrite !map_map. unfold ident. simpl. split; simpl.
    + rewrite map_map. simpl. apply (NoDup_fmap_2 Some (seq 0 n)), NoDup_seq.
    + intros i Hi. exists (spawn_worker i i). split; [|done].
      apply (list_elem_of_fmap_2 (λ i, (i, spawn_worker i i))), elem_of_seq. lia.
    + intros q. rewrite length_replicate. intros Hq. exists (q, spawn_worker q q). split; [|done].
      apply (list_elem_of_fmap_2 (λ i, (i, spawn_worker i i))), elem_of_seq. lia.
Qed.

Lemma runtime_inv n R : runtime_reachable n R → RInv n R.
Proof. apply invariant_reachable; [intros ? ->; apply new_runtime_RInv|by eauto using RInv_step]. Qed.


(** The worker's thread has ended by a panic; has not ended. *)
Definition dead (w : worker) : bool := match w.(pc) with PDead => true | _ => false end.
Definition alive (w : worker) : Prop := w.(pc) ≠ PGone ∧ dead w = false.

(** C5: until the runtime is shut down, every queue with tasks in it belongs to
    a worker that has not left it behind: its thread is alive, or a panic out of
    [Task::run] has killed it; and a dead worker's queue, if it is one the
    siblings have a [Stealer] of, is still searched by the worker of every other
    index.  Each index has a worker that is not to retire, alive unless a panic
    has killed it.  A worker that blocked hands what its queue still has to the
    injector before it goes. *)
Theorem scheduler_strands_nothing n R :
  runtime_reachable n R → R.(sched).(shared).(shutdown) = false →
  (∀ q d, R.(sched).(deques) !! q = Some d → tasks d ≠ [] →
     ∃ w, w ∈ R.(workers) ∧ w.(thread).(LOCAL_QUEUE) = Some q ∧
       (alive w ∨ dead w = true ∧
          ∀ w' q', w' ∈ R.(workers) → alive w' → w'.(thread).(LOCAL_QUEUE) = Some q' →
            (q < n)%nat → q ≠ w'.(index) → ¬ nothing_for n w'.(index) q' R.(sched))) ∧
  (∀ i, (i < n)%nat →
     ∃ w, w ∈ R.(workers) ∧ w.(index) = i ∧ w.(thread).(RETIRED) = false ∧ (alive w ∨ dead w = true)).
Proof.
  intros [Hs Ht Hw [_ Hal How]]%runtime_inv Hsh. rewrite Forall_forall in Hw. split.
  - intros q d Hd Hne. destruct (How q ltac:(by eapply lookup_lt_Some)) as (p & Hp & Hq).
    apply list_elem_of_fmap in Hp as (w & -> & Hin). exists w. split_and!; [done..|].
    destruct (dead w) eqn:Hdead; [right|left].
    + split; [done|]. intros w' q' _ _ _ Hqn Hi (_ & _ & Hsib). destruct (Hsib q Hqn Hi) as (d' & ? & ?). congruence.
    + split; [|done]. intros Hg.
      destruct (wo_gone _ _ _ (Hw w Hin) Hsh Hg) as (_ & q' & Hq' & d' & ? & ?). simpl in Hq. by simplify_eq.
  - intros i Hi. destruct (Hal i Hi) as (th & Hth & Hr). apply list_elem_of_fmap in Hth as (w & E & Hin).
    unfold ident in E. simplify_eq. exists w. split_and!; [done..|].
    destruct (dead w) eqn:Hdead; [by right|left]. split; [|done]. intros Hg.
    destruct (wo_gone _ _ _ (Hw w Hin) Hsh Hg) as [? _]. congruence.
Qed.

Lemma dead_workers_step n R R' :
  RInv n R → rstep R R' → (∀ w, w ∈ R.(workers) → dead w = true) →
  R'.(workers) = R.(workers) ∧ R'.(ran) = R.(ran) ∧ R'.(sched).(deques) = R.(sched).(deques) ∧
  tasks R.(sched).(shared).(injector) `prefix_of` tasks R'.(sched).(shared).(injector).
Proof.
  intros HI Hst Hdead. pose proof (ri_sane _ _ HI) as Hs.
  assert (∀ w1 w w2 p, workers R = w1 ++ w :: w2 → w.(pc) = p → p = PDead) as Hno.
  { intros w1 w w2 p E Hp. specialize (Hdead w). rewrite E in Hdead. unfold dead in Hdead.
    rewrite Hp in Hdead. destruct p; try done; discriminate Hdead; set_solver. }
  destruct Hst; try (match goal with E : workers _ = _, Hp : pc _ = _ |- _ => by specialize (Hno _ _ _ _ E Hp) end).
  - unfold schedule, requeue_to_injector, get_injector, put_injector in *. run_M.
    rewrite (sane_local _ _ Hs) in *. simpl in *. run_M. simplify_eq. simpl.
    rewrite tasks_push. split_and!; try done. by eexists.
  - unfold set_shutdown in *. run_M. simplify_eq. done.
Qed.

(** A runtime all of whose workers a panic has killed: whatever is queued stays
    where it is, for ever, and no task has a turn any more.  With one worker one
    such panic is enough. *)
Theorem dead_workers_strand n R R' :
  runtime_reachable n R → (∀ w, w ∈ R.(workers) → dead w = true) → rtc rstep R R' →
  R'.(workers) = R.(workers) ∧ R'.(ran) = R.(ran) ∧ R'.(sched).(deques) = R.(sched).(deques) ∧
  tasks R.(sched).(shared).(injector) `prefix_of` tasks R'.(sched).(shared).(injector).
Proof.
  intros HI%runtime_inv Hdead Hst. induction Hst as [R|R R1 R' Hst _ IH]; [done|].
  destruct (dead_workers_step n R R1 HI Hst Hdead) as (Ew & Er & Ed & Ei).
  destruct IH as (-> & -> & -> & Hi); [by eapply RInv_step|by rewrite Ew|].
  split_and!; [done..|]. by etrans.
Qed.

(** Scheduling a task of a multi-threaded runtime from inside the
    [block_on] of a current-thread one panics: the calling thread has a worker
    index, but no queue. *)
Theorem schedule_inside_block_on_panics th th' previous t s stealers :
  s.(shared).(local) = MultiThread stealers → th.(LOCAL_QUEUE) = None →
  enter_as_worker 0 th = (th', previous) →
  schedule th' t s = None.
Proof.
  intros Hl Hq [= <- <-]. unfold schedule, push_local. run_M. by rewrite Hl, Hq.
Qed.

(** From a worker of another runtime the task goes to that worker's queue, which
    no worker of its own runtime looks at. *)
Lemma schedule_from_another_runtime th t s idx q d stealers :
  s.(shared).(local) = MultiThread stealers → th.(WORKER_INDEX) = Some idx →
  th.(LOCAL_QUEUE) = Some q → s.(deques) !! q = Some d →
  schedule th t s = Some (tt, set_deques (<[q := push t d]> s.(deques)) s, []).
Proof.
  intros Hl Hi Hq Hd. unfold schedule, push_local, get_deque, put_deque. run_M. by rewrite Hl, Hi, Hq, Hd.
Qed.
End scheduler.

#[global] Arguments Shared T {_}.
#[global] Arguments Sched T {_}.
#[global] Arguments LocalQueues : clear implicits.

(** ** Concrete runs *)

(** Lists as queues; a thief moves half of what is left, and every first attempt
    is told to retry. *)
#[local] Instance list_deque T : Deque T := {
  deque := list T;
  new_fifo := [];
  push t d := d ++ [t];
  pop d := match d with [] => (None, []) | t :: d => (Some t, d) end;
  len := length;
  steal n d := match n, d with
               | O, _ => (Retry, d)
               | _, [] => (Empty, [])
               | _, t :: d => (Success t, d)
               end;
  steal_batch_and_pop n s d :=
    match n, s with
    | O, _ => (Retry, s, d)
    | _, [] => (Empty, [], d)
    | _, t :: s => let k := (length s / 2)%nat in (Success t, drop k s, d ++ take k s)
    end;
}.
#[local] Instance list_lawful T : LawfulDeque T.
Proof.
  refine {| tasks := λ d : @deque T (list_deque T), d |}; simpl; try done.
  - intros []; done.
  - intros [|n] [|t d]; done.
  - intros [|n] [|t s] d; try done. simpl. split.
    + rewrite <-(take_drop (length s / 2) s) at 1. solve_Permutation.
    + apply submseteq_cons, sublist_submseteq, sublist_drop.
  - intros [|t d]; by exists 1%nat.
  - intros [|t s] d; by exists 1%nat.
Defined.

(** Two workers; a task schedules two others where it runs, and the other worker
    steals one of them. *)
Tactic Notation "rstep_with" open_constr(c) :=
  eapply rtc_l; [eapply c; simpl; try reflexivity|]; simpl.

Definition demo_runtime : runtime (T := nat) :=
  mkRuntime
    (mkSched (mkShared (H := list_deque nat) [] (MultiThread [0%nat; 1%nat]) false [0; 1] [0; 0] [0; 0] [0; 0])
       [[12%nat]; []])
    [mkWorker (spawn_worker 0 0) 0 (PRunning 10%nat); mkWorker (spawn_worker 1 1) 1 (PRunning 11%nat)]
    [12%nat; 11%nat; 10%nat] [].

Lemma demo_runtime_reachable : runtime_reachable 2 demo_runtime.
Proof.
  eexists. split; [done|].
  rstep_with (r_schedule_outside _ 10%nat).
  rstep_with (r_loop _ []).
  rstep_with (r_search _ []).
  rstep_with (r_search _ []).
  rstep_with (r_search _ []).
  rstep_with (r_schedule _ [] _ _ _ 11%nat).
  rstep_with (r_schedule _ [] _ _ _ 12%nat).
  rstep_with (r_loop _ [_]).
  rstep_with (r_search _ [_]).
  rstep_with (r_search _ [_]).
  rstep_with (r_search _ [_]).
  rstep_with (r_search _ [_]).
  rstep_with (r_search _ [_]).
  apply rtc_refl.
Qed.

Lemma demo_sane : sane 2 demo_runtime.(sched).
Proof. by split; [|apply le_n|]. Qed.
Lemma demo_placed : placed 2 1 1 (spawn_worker 1 1) demo_runtime.(sched).
Proof. split; simpl; try done; [lia..|by left]. Qed.

Lemma next_task_finds_witness :
  placed 2 1 1 (spawn_worker 1 1) demo_runtime.(sched) ∧
  ∃ r s' fuel0, ∀ fuel, (fuel0 ≤ fuel)%nat →
    next_task fuel (spawn_worker 1 1) 1 demo_runtime.(sched) = Some (Some r, s', []).
Proof.
  split; [exact demo_placed|].
  destruct (next_task_finds 2 1 1 (spawn_worker 1 1) demo_runtime.(sched) demo_sane demo_placed)
    as (r & s' & f & Hf & _). by exists r, s', f.
Defined.


Lemma scheduler_strands_nothing_witness :
  runtime_reachable 2 demo_runtime ∧
  ∃ w, w ∈ demo_runtime.(workers) ∧ w.(thread).(LOCAL_QUEUE) = Some 0%nat ∧ alive w.
Proof.
  split; [exact demo_runtime_reachable|].
  destruct (proj1 (scheduler_strands_nothing 2 demo_runtime demo_runtime_reachable eq_refl) 0%nat [12%nat])
    as (w & Hw & Hq & [Ha|[Hd _]]); [reflexivity|discriminate|by exists w|].
  exfalso. simpl in Hw. repeat (apply elem_of_cons in Hw as [->|Hw]; [discriminate Hd|]). by apply not_elem_of_nil in Hw.
Defined.

(** One worker, whose task schedules another and then panics in [begin_poll]:
    its queue is never looked at again. *)
Definition dead_runtime : runtime (T := nat) :=
  mkRuntime
    (mkSched (mkShared (H := list_deque nat) [] (MultiThread [0%nat]) false [0] [0] [0] [0]) [[11%nat]])
    [mkWorker (spawn_worker 0 0) 0 PDead] [11%nat; 10%nat] [10%nat].

Lemma dead_runtime_reachable : runtime_reachable 1 dead_runtime.
Proof.
  eexists. split; [done|].
  rstep_with (r_schedule_outside _ 10%nat).
  rstep_with (r_loop _ []).
  rstep_with (r_search _ []).
  rstep_with (r_search _ []).
  rstep_with (r_search _ []).
  rstep_with (r_schedule _ [] _ _ _ 11%nat).
  rstep_with (r_panic _ []).
  apply rtc_refl.
Qed.

Definition dead_runtime_later : runtime (T := nat) :=
  mkRuntime
    (mkSched (mkShared (H := list_deque nat) [12%nat] (MultiThread [0%nat]) false [0] [0] [0] [0]) [[11%nat]])
    [mkWorker (spawn_worker 0 0) 0 PDead] [12%nat; 11%nat; 10%nat] [10%nat].

Lemma dead_workers_strand_witness :
  rtc rstep dead_runtime dead_runtime_later ∧
  [] `prefix_of` [12%nat] ∧ dead_runtime_later.(ran) = dead_runtime.(ran).
Proof.
  assert (rtc rstep dead_runtime dead_runtime_later) as Hst.
  { rstep_with (r_schedule_outside _ 12%nat). apply rtc_refl. }
  split; [exact Hst|].
  destruct (dead_workers_strand 1 dead_runtime dead_runtime_later dead_runtime_reachable) as (_ & Hr & _ & Hi);
    [|exact Hst|by split].
  intros w Hw. simpl in Hw. by apply list_elem_of_singleton in Hw as ->.
Defined.

Lemma schedule_inside_block_on_panics_witness :
  enter_as_worker 0 plain_thread = (mkThread (Some 0%nat) None false, None) ∧
  schedule (mkThread (Some 0%nat) None false) 7%nat (new_multi_thread 1) = None.
Proof.
  split; [reflexivity|].
  apply (schedule_inside_block_on_panics plain_thread _ None 7%nat (new_multi_thread 1) [0%nat]); reflexivity.
Defined.

(** One worker, whose task schedules another and then blocks: the worker started
    in its place finds nothing, although a task is queued. *)
Definition blocked_runtime : runtime (T := nat) :=
  mkRuntime
    (mkSched (mkShared (H := list_deque nat) [] (MultiThread [0%nat]) false [0] [0] [0] [0]) [[11%nat]; []])
    [mkWorker (mkThread (Some 0%nat) (Some 0%nat) true) 0 (PRunning 10%nat);
     mkWorker (spawn_worker 0 1) 0 PLoop]
    [11%nat; 10%nat] [].

Lemma block_in_place_strands :
  runtime_reachable 1 blocked_runtime ∧
  next_task 9 (spawn_worker 0 1) 0 blocked_runtime.(sched) =
    Some (Some None, blocked_runtime.(sched), []).
Proof.
  split; [|vm_compute; reflexivity].
  eexists. split; [done|].
  rstep_with (r_schedule_outside _ 10%nat).
  rstep_with (r_loop _ []).
  rstep_with (r_search _ []).
  rstep_with (r_search _ []).
  rstep_with (r_search _ []).
  rstep_with (r_schedule _ [] _ _ _ 11%nat).
  rstep_with (r_block_in_place _ []).
  apply rtc_refl.
Qed.
