(* ===== verification/BlockOn.v ===== *)
(** The drivers of a future on the calling thread: [block_on] of the
    current-thread flavour ([src/src/runtime/current_thread.rs]), the loop of
    [LocalSet::run_until] ([src/src/task/local.rs]) and [block_on_inner] of
    the others ([src/src/runtime/mod.rs]). *)

From S2P Require Import Prelude Scheduler.

(** ** The queue of a single-threaded driver

    What the loop needs of a queue: the next task, with fuel for the search,
    and a place for those that are scheduled. *)

Class RunQueue (T Q : Type) := {
  take : nat → Q → option (option T * Q);
  schedule_on : T → Q → Q;
}.

Class LawfulRunQueue (T Q : Type) `{RunQueue T Q} := {
  contents : Q → list T;
  queue_ok : Q → Prop;
  schedule_on_ok t q : queue_ok q → queue_ok (schedule_on t q);
  contents_schedule_on t q : queue_ok q → contents (schedule_on t q) = contents q ++ [t];
  take_law q : queue_ok q → ∃ q' fuel0,
    (∀ fuel, take fuel q = None ∨ take fuel q = Some (head (contents q), q')) ∧
    (∀ fuel, (fuel0 ≤ fuel)%nat → take fuel q = Some (head (contents q), q')) ∧
    contents q' = tail (contents q) ∧ queue_ok q';
}.

(** [LocalShared] of a [LocalSet]. *)
Definition LocalShared (T : Type) : Type := list T.
Definition local_schedule {T} (t : T) (q : LocalShared T) : LocalShared T := q ++ [t].
Definition local_next_task {T} (q : LocalShared T) : option T * LocalShared T :=
  match q with [] => (None, []) | t :: q => (Some t, q) end.

#[export] Instance local_queue T : RunQueue T (LocalShared T) := {
  take fuel q := Some (local_next_task q);
  schedule_on := local_schedule;
}.
#[export] Instance local_queue_lawful T : LawfulRunQueue T (LocalShared T).
Proof.
  refine {| contents := λ q : LocalShared T, q : list T; queue_ok := λ _, True |}; [done..|].
  intros [|t q] _; [exists []|exists q]; exists 0%nat; split_and!; intros; by try right.
Defined.

(** The single queue of a current-thread runtime: [block_on] searches it as
    worker 0. *)
Section current_thread.
Context {T : Type} `{LawfulDeque T}.

Definition driver_thread : Thread := (enter_as_worker 0 plain_thread).1.

#[export] Instance current_thread_queue : RunQueue T (Sched T) := {
  take fuel s :=
    match next_task fuel driver_thread 0 s with
    | Some (Some r, s', _) => Some (r, s')
    | _ => None
    end;
  schedule_on t s := match schedule driver_thread t s with Some (_, s', _) => s' | None => s end;
}.

(** Its injector is never used. *)
Definition single_queue (s : Sched T) : list T :=
  match s.(shared).(local) with CurrentThread q => q | MultiThread _ => [] end.
Definition single_ok (s : Sched T) : Prop :=
  (∃ q, s.(shared).(local) = CurrentThread q) ∧ tasks s.(shared).(injector) = [].

Lemma take_enough (s s' : Sched T) r fuel0 :
  (∀ fuel, (fuel0 ≤ fuel)%nat → take fuel s = Some (r, s')) →
  ∀ fuel, take fuel s = None ∨ take fuel s = Some (r, s').
Proof.
  intros Hf fuel. destruct (take fuel s) as [[r1 s1]|] eqn:E; [right|by left].
  rewrite <-(Hf (fuel `max` fuel0)%nat) by lia. symmetry. revert E. simpl. unfold next_task.
  destruct (search_from fuel driver_thread 0 SOwn s) as [[[[r2|] s2] ws]|] eqn:E; intros; simplify_eq.
  by rewrite (search_from_mono _ _ _ _ _ _ _ _ _ E (Nat.le_max_l _ _)).
Qed.

Lemma search_injector_empty (s : Sched T) th idx q :
  s.(shared).(local) = CurrentThread q → tasks s.(shared).(injector) = [] →
  ∃ fuel0, ∀ fuel, (fuel0 ≤ fuel)%nat → search_from fuel th idx (SInjector 0) s = Some (Some None, s, []).
Proof.
  intros Hl Hi. destruct (steal_progress (injector (shared s))) as [m Hm].
  assert (∀ a, (steal a (injector (shared s))).1 = Retry ∧
      search_step th idx (SInjector a) s = Some (Continue (SInjector (S a)), s, []) ∨
      search_step th idx (SInjector a) s = Some (Return None, s, [])) as Hstep.
  { intros a. unfold search_step, put_injector. run_M. rewrite Hl.
    pose proof (tasks_steal a (injector (shared s))) as Hs.
    destruct (steal a (injector (shared s))) as [[|t|] i']; simpl.
    - right. destruct Hs as [_ ->], q; by destruct s as [[] ?]; simpl in *; subst.
    - by rewrite Hi in Hs.
    - left. subst i'. destruct q; by destruct s as [[] ?]; simpl in *; subst. }
  assert (∀ k a, (a + k = m)%nat → ∃ fuel0, ∀ fuel, (fuel0 ≤ fuel)%nat →
      search_from fuel th idx (SInjector a) s = Some (Some None, s, [])) as Hall.
  2:{ by apply (Hall m 0%nat). }
  intros k. induction k as [|k IH]; intros a Ha; (destruct (Hstep a) as [[Hr E]|E];
    [|exists 1%nat; intros [|fuel] ?; [lia|]; by apply search_from_return]).
  - by replace a with m in Hr by lia.
  - destruct (IH (S a) ltac:(lia)) as [f0 Hf]. exists (S f0). intros [|fuel] ?; [lia|].
    rewrite (search_from_step _ _ _ _ _ _ _ E). apply Hf. lia.
Qed.

#[export] Instance current_thread_lawful : LawfulRunQueue T (Sched T).
Proof.
  refine {| contents := single_queue; queue_ok := single_ok |}.
  - intros t s [[q Hl] Hi]. simpl. unfold schedule. run_M. rewrite Hl. split; simpl; [by eexists|done].
  - intros t s [[q Hl] Hi]. simpl. unfold schedule, single_queue. run_M. by rewrite Hl.
  - intros s [[q Hl] Hi]. unfold single_queue. rewrite Hl. destruct q as [|t q].
    + destruct (search_injector_empty s driver_thread 0 [] Hl Hi) as [f0 Hf].
      assert (∀ fuel, (S f0 ≤ fuel)%nat → take fuel s = Some (None, s)) as Htake.
      { intros [|fuel] ?; [lia|]. simpl. unfold next_task.
        rewrite (search_from_step fuel driver_thread 0 SOwn (SInjector 0) s s), Hf; [done|lia|].
        unfold search_step. run_M. by rewrite Hl. }
      exists s, (S f0). split_and!; [by eapply take_enough|done|by rewrite Hl|by split; [eexists|]].
    + assert (∀ fuel, (1 ≤ fuel)%nat → take fuel s = Some (Some t, set_local (CurrentThread q) s)) as Htake.
      { intros [|fuel] ?; [lia|]. simpl. unfold next_task.
        erewrite search_from_return; [done|]. unfold search_step. run_M. by rewrite Hl. }
      exists (set_local (CurrentThread q) s), 1%nat.
      split_and!; [by eapply take_enough|done|done|by split; [eexists|]].
Defined.
End current_thread.

(** ** The loop *)

Section drive.
Context {T Q U A : Type} `{LawfulRunQueue T Q}.
(** User code: a poll of the future, and of a task ([Task::run]), each with the
    tasks it spawns or wakes; [U] is what user code keeps. *)
Context (poll_future : U → poll A * U * list T) (run_task : T → U → U * list T).

Definition schedule_all (ts : list T) (q : Q) : Q := foldl (λ q t, schedule_on t q) q ts.

(** The inner loop: run every task there is; [true] when there was one. *)
Fixpoint drain (fuel : nat) (q : Q) (u : U) : option (bool * Q * U) :=
  match fuel with
  | O => None
  | S fuel' =>
      '(x, q1) ← take fuel q;
      match x with
      | None => Some (false, q1, u)
      | Some t =>
          let '(u1, ts) := run_task t u in
          '(_, q2, u2) ← drain fuel' (schedule_all ts q1) u1;
          Some (true, q2, u2)
      end
  end.

(** The outer one; each of [parks] is what other threads do while this one sleeps. *)
Fixpoint drive (fuel : nat) (parks : list (U → U * list T)) (q : Q) (u : U) : option (A * Q * U) :=
  match fuel with
  | O => None
  | S fuel' =>
      let '(p, u1, ts) := poll_future u in
      let q1 := schedule_all ts q in
      match p with
      | Ready v => Some (v, q1, u1)
      | Pending =>
          '(ran_any, q2, u2) ← drain fuel q1 u1;
          if (ran_any : bool) then drive fuel' parks q2 u2
          else match parks with
               | [] => None
               | others :: parks => let '(u3, ts) := others u2 in drive fuel' parks (schedule_all ts q2) u3
               end
      end
  end.

Lemma schedule_all_law ts q :
  queue_ok q → queue_ok (schedule_all ts q) ∧ contents (schedule_all ts q) = contents q ++ ts.
Proof.
  clear run_task poll_future A U. unfold schedule_all. revert q. induction ts as [|t ts IH]; intros q Hq; simpl.
  - split; [done|]. by rewrite app_nil_r.
  - destruct (IH (schedule_on t q) (schedule_on_ok t q Hq)) as [? ->]. split; [done|].
    by rewrite contents_schedule_on, <-app_assoc.
Qed.

(** A run through all the tasks of a queue: the oldest task is run first,
    those it spawns and wakes go behind the others, to the end.  The log holds
    the tasks that are run, in their order. *)
Inductive runs_all : list T → U → list T → U → Prop :=
| runs_none u : runs_all [] u [] u
| runs_next t ts u u1 new log u' :
    run_task t u = (u1, new) → runs_all (ts ++ new) u1 log u' → runs_all (t :: ts) u (t :: log) u'.

(** Every task that was queued is run, in order. *)
Lemma runs_all_prefix ts u log u' : runs_all ts u log u' → ts `prefix_of` log.
Proof.
  clear poll_future A. induction 1 as [|t ts u u1 new log u' _ _ IH]; [done|].
  apply prefix_cons. etrans; [|exact IH]. by apply prefix_app_r.
Qed.

(** The inner loop is such a run. *)
Lemma drain_runs fuel q u b q' u' :
  queue_ok q → drain fuel q u = Some (b, q', u') →
  ∃ log, runs_all (contents q) u log u' ∧ contents q' = [] ∧ queue_ok q'.
Proof.
  clear poll_future A. revert q u b. induction fuel as [|fuel IH]; intros q u b Hq; [done|]. simpl.
  destruct (take_law q Hq) as (q1 & f0 & Hf & _ & Hc & Hq1).
  destruct (Hf (S fuel)) as [->| ->]; [done|]. simpl.
  destruct (contents q) as [|t k] eqn:E; simpl in *.
  { intros [= _ <- <-]. exists []. split; [constructor|done]. }
  destruct (run_task t u) as [u1 ts] eqn:Er. intros ([[b2 q2] u2] & Hd & [= _ <- <-])%bind_Some.
  destruct (schedule_all_law ts q1 Hq1) as [Hq2 Hc2].
  destruct (IH _ _ _ Hq2 Hd) as (log & Hlog & ?). exists (t :: log). split; [|done].
  rewrite Hc2, Hc in Hlog. by econstructor.
Qed.

(** A task that always schedules itself again is never done with. *)
Lemma drain_starves t fuel q u :
  (∀ u, (run_task t u).2 = [t]) → queue_ok q → t ∈ contents q → drain fuel q u = None.
Proof.
  clear poll_future A. intros Ht. revert q u. induction fuel as [|fuel IH]; intros q u Hq Hin; [done|]. simpl.
  destruct (take_law q Hq) as (q1 & f0 & Hf & _ & Hc & Hq1).
  destruct (Hf (S fuel)) as [->| ->]; [done|]. simpl. destruct (contents q) as [|t' k] eqn:E; [set_solver|].
  simpl in *. destruct (run_task t' u) as [u1 ts] eqn:Er.
  destruct (schedule_all_law ts q1 Hq1) as [Hq2 Hc2]. rewrite IH; [done|done|].
  rewrite Hc2, Hc. apply elem_of_cons in Hin as [->|Hin]; [|set_solver].
  specialize (Ht u). rewrite Er in Ht. simpl in Ht. subst ts. set_solver.
Qed.

(** Whatever the future, a [block_on] that finds it pending with such a task
    queued does not poll it again. *)
Lemma drive_starves t fuel parks q u :
  (∀ u, (run_task t u).2 = [t]) → queue_ok q → t ∈ contents q → (poll_future u).1.1 = Pending →
  drive fuel parks q u = None.
Proof.
  intros Ht Hq Hin Hp. destruct fuel as [|fuel]; [done|]. simpl.
  destruct (poll_future u) as [[p u1] ts] eqn:E. simpl in Hp. subst p.
  destruct (schedule_all_law ts q Hq) as [? Hc].
  pose proof (drain_starves t (S fuel) (schedule_all ts q) u1 Ht ltac:(done)) as Hd.
  simpl in Hd. rewrite Hd; [done|]. rewrite Hc. set_solver.
Qed.

(** Tasks that do a finite amount of work, counted by [size], and by [pot] for
    what user code keeps, are all run. *)
Lemma drain_ends_pot (size : T → nat) (pot : U → nat) (Inv : list T → U → Prop) :
  (∀ t ts u, Inv (t :: ts) u → (sum_list_with size (run_task t u).2 + pot (run_task t u).1 < size t + pot u)%nat) →
  (∀ t ts u, Inv (t :: ts) u → Inv (ts ++ (run_task t u).2) (run_task t u).1) →
  ∀ n q u, queue_ok q → Inv (contents q) u → (sum_list_with size (contents q) + pot u < n)%nat →
  ∃ q' u' fuel0, (∀ fuel, (fuel0 ≤ fuel)%nat →
      drain fuel q u = Some (negb (bool_decide (contents q = [])), q', u')) ∧
    queue_ok q' ∧ contents q' = [] ∧ Inv [] u' ∧
    (if decide (contents q = []) then u' = u else (pot u' < sum_list_with size (contents q) + pot u)%nat).
Proof.
  clear poll_future A. intros Hsize Hinv n. induction n as [|n IH]; intros q u Hq HI Hn; [lia|].
  destruct (take_law q Hq) as (q1 & f0 & _ & Hf & Hc & Hq1).
  destruct (contents q) as [|t k] eqn:E; simpl in *.
  - exists q1, u, (S f0). split_and!; [|done..].
    intros [|fuel] ?; [lia|]. simpl. rewrite Hf by lia. done.
  - pose proof (Hsize t k u HI) as Hs. pose proof (Hinv t k u HI) as HI1.
    destruct (run_task t u) as [u1 ts] eqn:Er. simpl in *.
    destruct (schedule_all_law ts q1 Hq1) as [Hq2 Hc2].
    assert (sum_list_with size (contents (schedule_all ts q1)) = sum_list_with size k + sum_list_with size ts)%nat as Hsum
      by (by rewrite Hc2, Hc, sum_list_with_app).
    destruct (IH (schedule_all ts q1) u1 Hq2) as (q' & u' & f1 & Hf1 & ? & ? & ? & Hle).
    { by rewrite Hc2, Hc. }
    { lia. }
    exists q', u', (S (f0 `max` f1)). split_and!; [|done..|].
    + intros [|fuel] ?; [lia|]. simpl. rewrite Hf by lia. simpl. rewrite Er, Hf1 by lia. done.
    + case_decide; [subst|]; lia.
Qed.

(** *** A [block_on] that returns *)

Section finite_work.
Context (size : T → nat) (Inv : list T → U → Prop).
(** Running a task leaves less to do than there was. *)
Hypothesis run_size : ∀ t u, (sum_list_with size (run_task t u).2 < size t)%nat.
Hypothesis run_inv : ∀ t ts u, Inv (t :: ts) u → Inv (ts ++ (run_task t u).2) (run_task t u).1.
Hypothesis poll_inv : ∀ ts u u' new, Inv ts u → poll_future u = (Pending, u', new) → Inv (ts ++ new) u'.
(** The future waits for nothing but the tasks. *)
Hypothesis poll_ready : ∀ u, Inv [] u → is_ready (poll_future u).1.1 = true.

Lemma drain_ends n q u :
  queue_ok q → Inv (contents q) u → (sum_list_with size (contents q) < n)%nat →
  ∃ q' u' fuel0, (∀ fuel, (fuel0 ≤ fuel)%nat →
      drain fuel q u = Some (negb (bool_decide (contents q = [])), q', u')) ∧
    queue_ok q' ∧ contents q' = [] ∧ Inv [] u'.
Proof.
  intros Hq HI Hn.
  destruct (drain_ends_pot size (λ _, 0%nat) Inv) with (n := n) (q := q) (u := u) as (q' & u' & f & Hf & ? & ? & ? & _);
    [|done..|lia|by exists q', u', f].
  intros t ts u1 _. pose proof (run_size t u1). lia.
Qed.

(** C29: a [block_on] whose tasks do a finite amount of work, and whose future
    waits for nothing else, returns, whatever other threads would do while it
    slept (with none, a sleep has no result, so it never sleeps).  Either its
    first poll is ready, and no task is run; or there are one pending poll, one
    run through all the tasks, which runs every task that was queued or that the
    poll scheduled, in order, and those that these spawn and wake, until none is
    left, and one last poll, and what that schedules is all that stays queued. *)
Theorem block_on_returns q u :
  queue_ok q → Inv (contents q) u →
  ∃ v q' u', (∃ fuel0, ∀ fuel parks, (fuel0 ≤ fuel)%nat → drive fuel parks q u = Some (v, q', u')) ∧
    ((∃ new, poll_future u = (Ready v, u', new) ∧ contents q' = contents q ++ new) ∨
     (∃ u1 new log u2 last,
        poll_future u = (Pending, u1, new) ∧
        runs_all (contents q ++ new) u1 log u2 ∧ contents q ++ new `prefix_of` log ∧ log ≠ [] ∧
        poll_future u2 = (Ready v, u', last) ∧ contents q' = last)).
Proof.
  intros Hq HI. destruct (poll_future u) as [[p u1] ts] eqn:Ep.
  destruct (schedule_all_law ts q Hq) as [Hq1 Hc1]. destruct p as [v|].
  { exists v, (schedule_all ts q), u1. split; [|left; by exists ts].
    exists 1%nat. intros [|fuel] parks ?; [lia|]. simpl. by rewrite Ep. }
  pose proof (poll_inv _ _ _ _ HI Ep) as HI1. rewrite <-Hc1 in HI1.
  destruct (drain_ends _ _ _ Hq1 HI1 (Nat.lt_succ_diag_r _)) as (q2 & u2 & f1 & Hf1 & Hq2 & Hc2 & HI2).
  assert (contents q ++ ts ≠ []) as Hne.
  { intros [Hnil ->]%app_nil. rewrite Hnil in HI. apply poll_ready in HI. by rewrite Ep in HI. }
  rewrite Hc1, bool_decide_eq_false_2 in Hf1 by done. simpl in Hf1.
  destruct (drain_runs f1 _ _ _ _ _ Hq1 (Hf1 f1 ltac:(lia))) as (log & Hlog & _ & _). rewrite Hc1 in Hlog.
  pose proof (runs_all_prefix _ _ _ _ Hlog) as Hpre.
  pose proof (poll_ready u2 HI2) as Hr. destruct (poll_future u2) as [[[v|] u3] ts3] eqn:Ep2; [|done].
  exists v, (schedule_all ts3 q2), u3. split.
  - exists (2 + f1)%nat. intros [|[|fuel]] parks ?; [lia..|].
    pose proof (Hf1 (S (S fuel)) ltac:(lia)) as Hd. simpl in *. rewrite Ep. simpl. rewrite Hd. simpl. by rewrite Ep2.
  - right. exists u1, ts, log, u2, ts3. split_and!; try done.
    + intros ->. by apply prefix_nil_inv in Hpre.
    + destruct (schedule_all_law ts3 q2 Hq2) as [_ ->]. by rewrite Hc2.
Qed.
End finite_work.
End drive.

(** ** Two queues at once: [LocalRuntime::block_on]

    The tasks of the runtime and those of its [LocalSet]: what a task of
    either kind does may add to both queues. *)

(** A task run by the inner loop over its own queue, the other one being part
    of what user code reaches. *)
Section half.
Context {T L R U : Type} `{LawfulRunQueue L R} (run : T → U → U * list T * list L).

Definition half_step (t : T) (x : U * R) : U * R * list T :=
  let '(u, ts, ls) := run t x.1 in (u, schedule_all ls x.2, ts).

Context `{LawfulRunQueue T Q} (size : T → nat) (lsize : L → nat) (pot : U → nat) (Inv : list T → list L → U → Prop).
Definition work (ts : list T) (ls : list L) (u : U) : nat :=
  (sum_list_with size ts + sum_list_with lsize ls + pot u)%nat.

Lemma drain_half_ends q r u :
  (∀ t u, let '(u', ts, ls) := run t u in (work ts ls u' < size t + pot u)%nat) →
  (∀ t ts ls u, Inv (t :: ts) ls u → let '(u', ts', ls') := run t u in Inv (ts ++ ts') (ls ++ ls') u') →
  queue_ok q → queue_ok r → Inv (contents q) (contents r) u →
  ∃ q' r' u' fuel0, (∀ fuel, (fuel0 ≤ fuel)%nat →
      drain half_step fuel q (u, r) = Some (negb (bool_decide (contents q = [])), q', (u', r'))) ∧
    queue_ok q' ∧ queue_ok r' ∧ contents q' = [] ∧ Inv [] (contents r') u' ∧
    (if decide (contents q = []) then u' = u ∧ r' = r
     else (work [] (contents r') u' < work (contents q) (contents r) u)%nat).
Proof.
  intros Hwork Hinv Hq Hr HI.
  destruct (drain_ends_pot half_step size (λ x, sum_list_with lsize (contents x.2) + pot x.1)%nat
    (λ ts x, queue_ok x.2 ∧ Inv ts (contents x.2) x.1)) with (q := q) (u := (u, r)) (n := S (work (contents q) (contents r) u))
    as (q' & [u' r'] & f & Hf & Hq' & Hc' & [Hr' HI'] & Hd).
  - intros t ts [u1 r1] [Hr1 _]. unfold half_step. simpl in *. specialize (Hwork t u1).
    destruct (run t u1) as [[u2 ts2] ls2]. unfold work in Hwork. simpl.
    destruct (schedule_all_law ls2 r1 Hr1) as [_ ->]. rewrite sum_list_with_app. lia.
  - intros t ts [u1 r1] [Hr1 Hi1]. unfold half_step. simpl in *. specialize (Hinv t ts _ u1 Hi1).
    destruct (run t u1) as [[u2 ts2] ls2]. simpl. by destruct (schedule_all_law ls2 r1 Hr1) as [? ->].
  - done.
  - done.
  - unfold work. simpl. lia.
  - exists q', r', u', f. split_and!; try done. unfold work. simpl in *. case_decide; [by simplify_eq|lia].
Qed.
End half.

Section drive_both.
Context {T Q L R U A : Type} `{LawfulRunQueue T Q} `{LawfulRunQueue L R}.
(** Of the two lists of a task, its own kind comes first. *)
Context (poll_future : U → poll A * U * list T * list L)
        (run_task : T → U → U * list T * list L) (run_local : L → U → U * list L * list T).

(** The loop; each of [parks] is what other threads do while this one sleeps. *)
Fixpoint drive_both (fuel : nat) (parks : list (U → U * list T * list L)) (q : Q) (r : R) (u : U)
    : option (A * Q * R * U) :=
  match fuel with
  | O => None
  | S fuel' =>
      let '(p, u1, ts, ls) := poll_future u in
      let q1 := schedule_all ts q in
      let r1 := schedule_all ls r in
      match p with
      | Ready v => Some (v, q1, r1, u1)
      | Pending =>
          '(ran1, q2, (u2, r2)) ← drain (half_step run_task) fuel q1 (u1, r1);
          '(ran2, r3, (u3, q3)) ← drain (half_step run_local) fuel r2 (u2, q2);
          if (ran1 || ran2 : bool) then drive_both fuel' parks q3 r3 u3
          else match parks with
               | [] => None
               | others :: parks =>
                   let '(u4, ts, ls) := others u3 in
                   drive_both fuel' parks (schedule_all ts q3) (schedule_all ls r3) u4
               end
      end
  end.

(** A task of the runtime that always schedules itself again keeps every task
    of the [LocalSet], and the future, from being polled again. *)
Lemma drive_both_starves t fuel parks q r u :
  (∀ u, (run_task t u).1.2 = [t]) → queue_ok q → t ∈ contents q → (poll_future u).1.1.1 = Pending →
  drive_both fuel parks q r u = None.
Proof.
  intros Ht Hq Hin Hp. destruct fuel as [|fuel]; [done|].
  cbn [drive_both]. destruct (poll_future u) as [[[p u1] ts] ls] eqn:E. simpl in Hp. subst p.
  destruct (schedule_all_law ts q Hq) as [? Hc].
  rewrite (drain_starves (half_step run_task) t); [done| |done|rewrite Hc; set_solver].
  intros [u2 r2]. specialize (Ht u2). unfold half_step. simpl. by destruct (run_task t u2) as [[??]?].
Qed.

Section finite_work_of_both.
Context (size : T → nat) (lsize : L → nat) (pot : U → nat) (Inv : list T → list L → U → Prop).
Abbreviation total := (work size lsize pot).
(** Running a task of either kind leaves less to do than there was, polling
    the future no more. *)
Hypothesis run_work : ∀ t u, let '(u', ts, ls) := run_task t u in (total ts ls u' < size t + pot u)%nat.
Hypothesis local_work : ∀ t u, let '(u', ls, ts) := run_local t u in (total ts ls u' < lsize t + pot u)%nat.
Hypothesis poll_work : ∀ u u' ts ls, poll_future u = (Pending, u', ts, ls) → (total ts ls u' ≤ pot u)%nat.
Hypothesis run_inv : ∀ t ts ls u, Inv (t :: ts) ls u →
  let '(u', ts', ls') := run_task t u in Inv (ts ++ ts') (ls ++ ls') u'.
Hypothesis local_inv : ∀ t ts ls u, Inv ts (t :: ls) u →
  let '(u', ls', ts') := run_local t u in Inv (ts ++ ts') (ls ++ ls') u'.
Hypothesis poll_inv : ∀ ts ls u u' ts' ls', Inv ts ls u → poll_future u = (Pending, u', ts', ls') →
  Inv (ts ++ ts') (ls ++ ls') u'.
(** The future waits for nothing but the tasks. *)
Hypothesis poll_ready : ∀ u, Inv [] [] u → is_ready (poll_future u).1.1.1 = true.

(** Both inner loops. *)
Lemma drain_both_ends q r u :
  queue_ok q → queue_ok r → Inv (contents q) (contents r) u → contents q ≠ [] ∨ contents r ≠ [] →
  ∃ q2 r2 u2 q3 r3 u3 ran1 ran2 fuel0, (∀ fuel, (fuel0 ≤ fuel)%nat →
      drain (half_step run_task) fuel q (u, r) = Some (ran1, q2, (u2, r2)) ∧
      drain (half_step run_local) fuel r2 (u2, q2) = Some (ran2, r3, (u3, q3))) ∧
    ran1 || ran2 = true ∧ queue_ok q3 ∧ queue_ok r3 ∧ Inv (contents q3) (contents r3) u3 ∧
    (total (contents q3) (contents r3) u3 < total (contents q) (contents r) u)%nat.
Proof.
  intros Hq Hr HI Hne.
  destruct (drain_half_ends run_task size lsize pot Inv q r u run_work run_inv Hq Hr HI)
    as (q2 & r2 & u2 & f1 & Hf1 & Hq2 & Hr2 & Hc2 & HI2 & Hd1).
  destruct (drain_half_ends run_local lsize size pot (λ ls ts, Inv ts ls) r2 q2 u2)
    as (r3 & q3 & u3 & f2 & Hf2 & Hr3 & Hq3 & Hc3 & HI3 & Hd2); [| |done|done|by rewrite Hc2|].
  { intros t u1. specialize (local_work t u1). destruct (run_local t u1) as [[??]?]. unfold work in *. lia. }
  { intros t ls ts u1 Hi1. apply local_inv in Hi1. by destruct (run_local t u1) as [[??]?]. }
  exists q2, r2, u2, q3, r3, u3. do 2 eexists. exists (f1 `max` f2)%nat.
  split; [intros; split; [apply Hf1|apply Hf2]; lia|]. unfold work in *. rewrite Hc2, Hc3 in *. simpl in *.
  destruct (decide (contents q = [])) as [Eq|Eq]; [destruct Hd1; subst u2 r2|].
  - destruct (decide (contents r = [])) as [Er|Er]; [by destruct Hne|].
    rewrite (bool_decide_eq_false_2 (contents r = [])), orb_true_r by done. rewrite Eq. simpl. split_and!; [done..|]. lia.
  - rewrite (bool_decide_eq_false_2 (contents q = [])) by done. split_and!; [done..|].
    case_decide; [destruct Hd2; subst|]; rewrite ?Hc2 in *; simpl in *; lia.
Qed.

(** [LocalRuntime::block_on] drives both queues: when the tasks of the
    runtime and those of its [LocalSet], which may spawn and wake each other in
    any way, do a finite amount of work, and the future waits for nothing
    else, it returns, and never has to sleep. *)
Theorem local_runtime_returns q r u :
  queue_ok q → queue_ok r → Inv (contents q) (contents r) u →
  ∃ v q' r' u' fuel0, ∀ fuel parks, (fuel0 ≤ fuel)%nat → drive_both fuel parks q r u = Some (v, q', r', u').
Proof.
  remember (S (total (contents q) (contents r) u)) as n eqn:Hn.
  assert (total (contents q) (contents r) u < n)%nat as Hlt by lia. clear Hn.
  revert q r u Hlt. induction n as [|n IH]; intros q r u Hlt Hq Hr HI; [lia|].
  destruct (poll_future u) as [[[p u1] ts] ls] eqn:Ep.
  destruct (schedule_all_law ts q Hq) as [Hq1 Hc1], (schedule_all_law ls r Hr) as [Hr1 Hc2].
  destruct p as [v|].
  { exists v, (schedule_all ts q), (schedule_all ls r), u1, 1%nat. intros [|fuel] parks ?; [lia|]. simpl. by rewrite Ep. }
  pose proof (poll_inv _ _ _ _ _ _ HI Ep) as HI1. rewrite <-Hc1, <-Hc2 in HI1.
  pose proof (poll_work _ _ _ _ Ep) as Hw.
  destruct (drain_both_ends _ _ _ Hq1 Hr1 HI1) as (q2 & r2 & u2 & q3 & r3 & u3 & ran1 & ran2 & f1 & Hf1 & Hran & Hq3 & Hr3 & HI3 & Hlt3).
  { rewrite Hc1, Hc2. destruct (decide (contents q ++ ts = [])) as [[Eq ->]%app_nil|]; [right|by left].
    intros [Er ->]%app_nil. rewrite Eq, Er in HI. apply poll_ready in HI. by rewrite Ep in HI. }
  destruct (IH q3 r3 u3) as (v & q' & r' & u' & f2 & Hf2); [|done..|].
  { revert Hlt3 Hw Hlt. rewrite Hc1, Hc2. unfold work. rewrite !sum_list_with_app. lia. }
  exists v, q', r', u', (S (f1 `max` f2))%nat. intros [|fuel] parks ?; [lia|].
  destruct (Hf1 (S fuel)) as [E1 E2]; [lia|]. cbn [drive_both]. rewrite Ep, E1. cbn [mbind option_bind]. rewrite E2.
  cbn [mbind option_bind]. rewrite Hran. apply Hf2. lia.
Qed.
End finite_work_of_both.
End drive_both.

(** The two loops of the source. *)
Definition current_thread_block_on {T U A} `{Deque T}
    (poll_future : U → poll A * U * list T) (run_task : T → U → U * list T) :=
  drive (Q := Sched T) poll_future run_task.
Definition local_drive {T U A} (poll_future : U → poll A * U * list T) (run_task : T → U → U * list T) :=
  drive (Q := LocalShared T) poll_future run_task.

Definition local_runtime_block_on {T L U A} `{Deque T}
    (poll_future : U → poll A * U * list T * list L)
    (run_task : T → U → U * list T * list L) (run_local : L → U → U * list L * list T) :=
  drive_both (Q := Sched T) (R := LocalShared L) poll_future run_task run_local.

(** ** [block_on_inner]

    The other flavours' loop polls the future and sleeps on a flag its waker sets. *)

Abbreviation BlockOnWaker := bool (only parsing).
Definition block_on_waker_new : BlockOnWaker := false.
(** One look of the loop of [park] at the flag: [true] when it may return. *)
Definition park_look : M BlockOnWaker bool :=
  let! n := (get : M bool bool) in
  if n then put false ;! ret true else ret false.
(** [wake_by_ref] is two accesses: the flag, under its mutex, and [notify_one]. *)
Definition parker_wake : M BlockOnWaker unit := put true.

(** The thread of [block_on]: about to poll, in a poll, about to look at the
    flag in [park] (its mutex not yet taken), asleep in [condvar.wait], gone. *)
Inductive bpc := BPoll | BPolling | BPark | BAsleep | BReturned.
(** [notifying] counts the wakers between their two accesses. *)
Record blocking_call := mkCall {
  notified : BlockOnWaker; bcall : bpc; notifying : nat; woken_since_poll : bool
}.

(** A thread that sleeps looks at the flag again when it is notified. *)
Definition parker_notify (p : bpc) : bpc := match p with BAsleep => BPark | _ => p end.

Inductive cstep : blocking_call → blocking_call → Prop :=
| c_poll C : C.(bcall) = BPoll → cstep C (mkCall C.(notified) BPolling C.(notifying) false)
| c_poll_done C (ready : bool) :
    C.(bcall) = BPolling →
    cstep C (mkCall C.(notified) (if ready then BReturned else BPark) C.(notifying) C.(woken_since_poll))
| c_park C b s ws :   (* to sleep and to release the mutex is one step of [wait] *)
    C.(bcall) = BPark → park_look C.(notified) = Some (b, s, ws) →
    cstep C (mkCall s (if b then BPoll else BAsleep) C.(notifying) C.(woken_since_poll))
| c_spurious C :
    C.(bcall) = BAsleep → cstep C (mkCall C.(notified) BPark C.(notifying) C.(woken_since_poll))
| c_wake C s ws :   (* from any thread, the one that polls included *)
    parker_wake C.(notified) = Some (tt, s, ws) → cstep C (mkCall s C.(bcall) (S C.(notifying)) true)
| c_notify C n :
    C.(notifying) = S n → cstep C (mkCall C.(notified) (parker_notify C.(bcall)) n C.(woken_since_poll)).

Definition call_reachable : blocking_call → Prop :=
  reachable (.= mkCall block_on_waker_new BPoll 0 false) cstep.

(** What a set flag promises: a thread asleep has a notification to come; and a
    wake that the thread has not polled for keeps the flag set. *)
Definition call_ok (C : blocking_call) : Prop :=
  (C.(bcall) = BAsleep → C.(notified) = true → (0 < C.(notifying))%nat) ∧
  (C.(bcall) ∈ [BPolling; BPark; BAsleep] → C.(woken_since_poll) = true → C.(notified) = true).

Lemma cstep_ok C C' : call_ok C → cstep C C' → call_ok C'.
Proof.
  intros [H1 H2] Hst. destruct Hst as [C H|C ready H|C b s ws H Hop|C H|C s ws Hop|C n H];
    destruct C as [f p k w]; unfold parker_wake, park_look, call_ok, parker_notify in *; simpl in *.
  - by split.
  - subst p. destruct ready; split; try set_solver; intros _ ?; apply H2; set_solver.
  - subst p. run_M. destruct f; simplify_eq/=; split; try set_solver.
  - subst p. split; [done|]. intros _ ?. by apply H2; [set_solver|].
  - run_M. simplify_eq. split; [lia|done].
  - subst k. split; [by destruct p|]. intros Hp ?. apply H2; [|done]. destruct p; set_solver.
Qed.

(** C30: a wake is never lost by [block_on]: in every reachable state, if the
    future's waker was called since its last poll began and it has not
    resolved, the thread is about to poll it, or its next look at the flag has
    it return from [park] and poll; and that look comes: the thread is about to
    take it, when it is not still in the poll, or it sleeps and a waker that
    has set the flag has yet to notify it. *)
Theorem block_on_wakes C :
  call_reachable C → C.(woken_since_poll) = true →
  C.(bcall) = BPoll ∨ C.(bcall) = BReturned ∨
  (C.(bcall) = BPolling ∨ C.(bcall) = BPark ∨ C.(bcall) = BAsleep ∧ (0 < C.(notifying))%nat) ∧
  park_look C.(notified) = Some (true, false, []).
Proof.
  intros HC Hw.
  assert (call_ok C) as [H1 H2].
  { clear Hw. revert C HC. apply (invariant_reachable _ _ call_ok); [|exact cstep_ok].
    intros ? ->. split; [done|set_solver]. }
  destruct C as [n p k w]; simpl in *; subst. unfold park_look. run_M.
  destruct p; [by left| | | |by right; left];
    (rewrite H2 in * by (done || set_solver); right; right; split; [|done]); auto.
Qed.

(** ** Concrete runs *)

(** Asleep when the flag is set: the notification is to come. *)
Lemma block_on_wakes_witness :
  call_reachable (mkCall true BAsleep 1 true) ∧ park_look true = Some (true, false, []).
Proof.
  assert (call_reachable (mkCall true BAsleep 1 true)) as HR.
  { eexists. split; [done|].
    eapply rtc_l; [eapply c_poll; done|]; simpl.
    eapply rtc_l; [eapply (c_poll_done _ false); done|]; simpl.
    eapply rtc_l; [eapply c_park; done|]; simpl.
    eapply rtc_l; [eapply c_wake; done|]; simpl. apply rtc_refl. }
  split; [exact HR|]. destruct (block_on_wakes _ HR eq_refl) as [?|[?|[_ E]]]; [done..|exact E].
Defined.

#[local] Existing Instance list_deque.
#[local] Existing Instance list_lawful.

(** Task [n] spawns task [n - 1], down to 0; the future waits until none is left. *)
Definition chain_task (n : nat) (left : nat) : nat * list nat :=
  match n with O => (pred left, []) | S n => (left, [n]) end.
Definition none_left (left : nat) : poll unit * nat * list nat :=
  (match left with O => Ready tt | S _ => Pending end, left, []).

(** Two tasks are queued, and four are run: 2, 0, then 1 and 0, which they spawn. *)
Definition chain_queue : Sched nat := set_local (CurrentThread [2%nat; 0%nat]) new_core_shared.

Lemma block_on_returns_witness :
  single_ok chain_queue ∧
  ∃ q' u', (∃ fuel0, ∀ fuel parks, (fuel0 ≤ fuel)%nat →
      drive none_left chain_task fuel parks chain_queue 2%nat = Some (tt, q', u')) ∧
    runs_all chain_task [2%nat; 0%nat] 2%nat [2%nat; 0%nat; 1%nat; 0%nat] u' ∧ single_queue q' = [].
Proof.
  assert (single_ok chain_queue) as Hok by (split; [by eexists|done]).
  split; [exact Hok|].
  destruct (block_on_returns none_left chain_task S (λ ts left, left = length ts)) with
    (q := chain_queue) (u := 2%nat)
    as ([] & q' & u' & Hf & [(? & ? & _)|(u1 & new & log & u2 & last & Hp1 & Hlog & _ & _ & Hp2 & Hc)]).
  - intros [|n] u; simpl; lia.
  - intros [|n] ts u ->; simpl; [by rewrite app_nil_r|]. rewrite length_app. simpl. lia.
  - intros ts [|u] u' new Hu; simpl; intros [= <- <-]. by rewrite app_nil_r.
  - intros u ->. done.
  - exact Hok.
  - reflexivity.
  - done.
  - exists q', u'. split; [exact Hf|]. simpl in Hp1. injection Hp1 as <- <-. simpl in Hlog.
    assert (u2 = u' ∧ single_queue q' = []) as [-> Hc'] by (unfold none_left in Hp2; change (single_queue q' = last) in Hc; split; destruct u2; congruence). clear Hp2 Hc.
    repeat match goal with H : runs_all _ (_ :: _) _ _ _ |- _ => inversion H; clear H; simplify_eq/= end.
    repeat match goal with H : runs_all _ [] _ _ _ |- _ => inversion H; clear H; simplify_eq/= end.
    split; [|exact Hc']. repeat (eapply runs_next; [reflexivity|]; simpl). apply runs_none.
Defined.

(** Local task [n] spawns task [n - 1] on the runtime, and the other way round. *)
Definition ping (n : nat) (left : nat) : nat * list nat * list nat :=
  match n with O => (pred left, [], []) | S n => (left, [], [n]) end.
Definition both_done (left : nat) : poll unit * nat * list nat * list nat := (none_left left, []).

Lemma local_runtime_returns_witness :
  single_ok (set_local (CurrentThread [3%nat; 0%nat]) (new_core_shared (T := nat))) ∧
  ∃ q' r' u' fuel0, ∀ fuel parks, (fuel0 ≤ fuel)%nat →
    local_runtime_block_on both_done ping ping fuel parks
      (set_local (CurrentThread [3%nat; 0%nat]) new_core_shared) [2%nat] 3%nat = Some (tt, q', r', u').
Proof.
  assert (single_ok (set_local (CurrentThread [3%nat; 0%nat]) (new_core_shared (T := nat)))) as Hok
    by (split; [by eexists|done]).
  split; [exact Hok|].
  destruct (local_runtime_returns (Q := Sched nat) (R := LocalShared nat) both_done ping ping S S (λ _, 0%nat)
    (λ ts ls left, left = length ts + length ls)%nat) with
    (q := set_local (CurrentThread [3%nat; 0%nat]) (new_core_shared (T := nat))) (r := [2%nat] : LocalShared nat) (u := 3%nat)
    as ([] & q' & r' & u' & f & Hf).
  - intros [|n] u; unfold work; simpl; lia.
  - intros [|n] u; unfold work; simpl; lia.
  - intros [|u] u' ts ls; simpl; intros [= <- <- <-]; unfold work; simpl; lia.
  - intros [|n] ts ls u ->; simpl; rewrite ?app_nil_r, ?length_app; simpl; lia.
  - intros [|n] ts ls u ->; simpl; rewrite ?app_nil_r, ?length_app; simpl; lia.
  - intros ts ls [|u] u' ts' ls' Hu; simpl; intros [= <- <- <-]. by rewrite !app_nil_r.
  - intros u ->. done.
  - exact Hok.
  - exact I.
  - reflexivity.
  - by exists q', r', u', f.
Defined.
