(* ===== verification/Runtime.v ===== *)
(** The runtime as a whole ([src/src/runtime/mod.rs],
    [src/src/runtime/context.rs]): what a [Builder] accepts, where a task is
    placed, the ambient handle of a thread, and the three ways of shutting
    down. *)

From S2P Require Import Prelude.

(** ** The builder *)

Inductive Flavor := MultiThreadFlavor | CurrentThreadFlavor | ThreadPerCoreFlavor.

Record Builder := mkBuilder {
  flavor : Flavor;
  worker_threads : Z;
  max_blocking_threads : Z;
  stack_size : option Z;
  thread_keep_alive : Z;            (* in seconds *)
}.

(** [parallelism]: what [available_parallelism] reports, if it does. *)
Definition builder_new (parallelism : option Z) : Builder :=
  mkBuilder MultiThreadFlavor (default 1 parallelism) 32 None 10.
Definition builder_new_current_thread : Builder := mkBuilder CurrentThreadFlavor 1 32 None 10.
Definition builder_new_thread_per_core (parallelism : option Z) : Builder :=
  mkBuilder ThreadPerCoreFlavor (default 1 parallelism) 32 None 10.

(** [None] is a failed assertion. *)
Definition set_worker_threads (n : Z) (b : Builder) : option Builder :=
  if 0 <? n then
    match b.(flavor) with
    | CurrentThreadFlavor => None
    | _ => Some (mkBuilder b.(flavor) n b.(max_blocking_threads) b.(stack_size) b.(thread_keep_alive))
    end
  else None.
Definition set_max_blocking_threads (n : Z) (b : Builder) : option Builder :=
  if 0 <? n then
    Some (mkBuilder b.(flavor) b.(worker_threads) n b.(stack_size) b.(thread_keep_alive))
  else None.
Definition set_thread_stack_size (n : Z) (b : Builder) : Builder :=
  mkBuilder b.(flavor) b.(worker_threads) b.(max_blocking_threads) (Some n) b.(thread_keep_alive).
Definition set_thread_keep_alive (d : Z) (b : Builder) : Builder :=
  mkBuilder b.(flavor) b.(worker_threads) b.(max_blocking_threads) b.(stack_size) d.

(** ** The runtime *)

(** A [Shared], as far as shutting down is concerned. *)
Record Core := mkCore {
  shutdown : bool;
  torn_down : bool;
  shutting_down : bool;
  active_tasks : Z;
}.
Definition new_core : Core := mkCore false false false 0.

(** A worker thread is a number; a core is its place in the list. *)
Inductive RuntimeKind :=
| Single (shared : Core) (workers : option (list nat))
| PerCore (cores : list Core) (workers : list nat) (next : Z).

(** [build]: how many cores, and how many threads. *)
Definition build (b : Builder) : RuntimeKind :=
  match b.(flavor) with
  | CurrentThreadFlavor => Single new_core None
  | MultiThreadFlavor => Single new_core (Some (seq 0 (Z.to_nat b.(worker_threads))))
  | ThreadPerCoreFlavor =>
      let n := Z.to_nat (Z.max b.(worker_threads) 1) in PerCore (replicate n new_core) (seq 0 n) 0
  end.

Definition all_shared (k : RuntimeKind) : list Core :=
  match k with Single c _ => [c] | PerCore cores _ _ => cores end.
Definition num_cores (k : RuntimeKind) : nat := length (all_shared k).
(** The index of [primary_shared] is 0 for every kind. *)
Definition update_core (i : nat) (f : Core → Core) (k : RuntimeKind) : RuntimeKind :=
  match k with
  | Single c w => match i with O => Single (f c) w | S _ => k end
  | PerCore cores w n => PerCore (alter f i cores) w n
  end.

(** What shutting down does outside the runtime's own state. *)
Inductive action :=
| NotifyWaiters (core : nat)                 (* wake the tasks in [shutdown_notified] *)
| WaitTasks (core : nat) (deadline : Z)      (* [wait_for_tasks_drain] *)
| StopReactor (core : nat)
| StopTimer (core : nat)
| SignalPool (core : nat)
| WaitPool (core : nat) (deadline : option Z)
| JoinWorker (worker : nat).

Record running := mkRunning { kind : RuntimeKind; log : list action }.

Definition act (a : action) : M running unit :=
  let! r := get in put (mkRunning r.(kind) (r.(log) ++ [a])).
Definition on_core (i : nat) (f : Core → Core) : M running unit :=
  let! r := get in put (mkRunning (update_core i f r.(kind)) r.(log)).
(** [for shared in self.all_shared()] *)
Fixpoint for_each (xs : list nat) (m : nat → M running unit) : M running unit :=
  match xs with [] => ret tt | i :: xs => m i ;! for_each xs m end.
Definition for_all_shared (m : nat → M running unit) : M running unit :=
  let! r := get in for_each (seq 0 (num_cores r.(kind))) m.

Definition begin_graceful_shutdown (i : nat) : M running unit :=
  on_core i (λ c, mkCore c.(shutdown) c.(torn_down) true c.(active_tasks)) ;! act (NotifyWaiters i).

(** On the primary core: [true] only the first time. *)
Definition teardown_once : M running bool :=
  let! r := get in
  let! c := lift (all_shared r.(kind) !! 0%nat) in
  on_core 0 (λ c, mkCore c.(shutdown) true c.(shutting_down) c.(active_tasks)) ;!
  ret (negb c.(torn_down)).

Definition stop_scheduling_and_reactor : M running unit :=
  for_all_shared (λ i,
    on_core i (λ c, mkCore true c.(torn_down) c.(shutting_down) c.(active_tasks)) ;!
    act (StopReactor i) ;! act (StopTimer i)).

Definition take_workers : M running (list nat) :=
  let! r := get in
  match r.(kind) with
  | Single c w => put (mkRunning (Single c None) r.(log)) ;! ret (default [] w)
  | PerCore cores w n => put (mkRunning (PerCore cores [] n) r.(log)) ;! ret w
  end.

Definition shutdown_background : M running unit :=
  for_all_shared begin_graceful_shutdown ;!
  let! first := teardown_once in
  if negb first then ret tt
  else
    stop_scheduling_and_reactor ;!
    for_all_shared (λ i, act (SignalPool i)) ;!
    let! _ := take_workers in ret tt.

Definition shutdown_timeout (deadline : Z) : M running unit :=
  for_all_shared begin_graceful_shutdown ;!
  for_all_shared (λ i, act (WaitTasks i deadline)) ;!
  let! first := teardown_once in
  if negb first then ret tt
  else
    stop_scheduling_and_reactor ;!
    for_all_shared (λ i, act (SignalPool i) ;! act (WaitPool i (Some deadline))) ;!
    let! ws := take_workers in for_each ws (λ w, act (JoinWorker w)).

(** [Drop]; [BlockingPool::shutdown] signals, then waits without a deadline. *)
Definition runtime_drop : M running unit :=
  for_all_shared begin_graceful_shutdown ;!
  let! first := teardown_once in
  if negb first then ret tt
  else
    stop_scheduling_and_reactor ;!
    for_all_shared (λ i, act (SignalPool i) ;! act (WaitPool i None)) ;!
    let! ws := take_workers in for_each ws (λ w, act (JoinWorker w)).

(** One turn of [wait_for_tasks_drain]: [None] returns, [Some d] waits for at
    most [d] nanoseconds. *)
Definition tasks_drain_turn (deadline now : Z) (c : Core) : option Z :=
  if 0 <? c.(active_tasks) then
    if deadline <=? now then None else Some (Z.min (deadline - now) 50000000)
  else None.

(** Both wrap around; neither order nor overflow is checked. *)
Definition task_spawned (c : Core) : Core :=
  mkCore c.(shutdown) c.(torn_down) c.(shutting_down) ((c.(active_tasks) + 1) `mod` 2 ^ usize_bits).
Definition task_finished (c : Core) : Core :=
  mkCore c.(shutdown) c.(torn_down) c.(shutting_down) ((c.(active_tasks) - 1) `mod` 2 ^ usize_bits).

(** Where [Runtime::spawn] puts a task. *)
Definition spawn_on (k : RuntimeKind) : option (nat * RuntimeKind) :=
  match k with
  | Single c w => Some (0%nat, k)
  | PerCore cores w next =>
      if bool_decide (cores = []) then None     (* division by zero *)
      else Some (Z.to_nat (next `mod` Z.of_nat (length cores)),
                 PerCore cores w ((next + 1) `mod` 2 ^ usize_bits))
  end.

(** ** The thread's ambient handle *)

Section context.
Context {Handle : Type} (is_shutting_down : Handle → bool).

Inductive TryCurrentErrorKind := MissingContext | ThreadLocalDestroyed | RuntimeShutDown.

(** [CURRENT]: [None] when the thread-local has been destroyed. *)
Definition try_current_detailed (current : option (option Handle)) : result Handle TryCurrentErrorKind :=
  match current with
  | None => Err ThreadLocalDestroyed
  | Some None => Err MissingContext
  | Some (Some h) => if is_shutting_down h then Err RuntimeShutDown else Ok h
  end.

(** [enter] hands out what its guard puts back. *)
Definition enter (h : Handle) : M (option Handle) (option Handle) :=
  let! previous := get in put (Some h) ;! ret previous.
Definition enter_guard_drop (previous : option Handle) : M (option Handle) unit := put previous.
End context.

(** ** Facts about the loops over the cores *)

Definition acts (l : list action) : M running unit :=
  let! r := get in put (mkRunning r.(kind) (r.(log) ++ l)).
Definition map_cores (f : Core → Core) (k : RuntimeKind) : RuntimeKind :=
  match k with
  | Single c w => Single (f c) w
  | PerCore cores w n => PerCore (map f cores) w n
  end.
Definition workers_of (k : RuntimeKind) : list nat :=
  match k with Single _ w => default [] w | PerCore _ w _ => w end.

Lemma num_map_cores f k : num_cores (map_cores f k) = num_cores k.
Proof. unfold num_cores. destruct k; simpl; [done|]. by rewrite length_map. Qed.

Lemma workers_map_cores f k : workers_of (map_cores f k) = workers_of k.
Proof. by destruct k. Qed.

Lemma for_each_acts {A} (f : A → list action) (g : A → nat) xs m k l :
  (∀ i r, In i xs → m (g i) r = acts (f i) r) →
  for_each (map g xs) m (mkRunning k l) = Some (tt, mkRunning k (l ++ flat_map f xs), []).
Proof.
  revert l. induction xs as [|i xs IH]; intros l Hm; simpl; [by rewrite app_nil_r|].
  unfold bind. rewrite Hm by (by left). unfold acts at 1. run_M.
  rewrite IH by (intros; apply Hm; by right). by rewrite <-app_assoc.
Qed.

Lemma alter_middle {A} (f : A → A) pre x suf :
  alter f (length pre) (pre ++ x :: suf) = (pre ++ [f x]) ++ suf.
Proof. rewrite <-(Nat.add_0_r (length pre)), alter_app_r. simpl. by rewrite <-app_assoc. Qed.

Lemma for_cores f g m k l :
  (∀ i r, m i r = (on_core i f ;! acts (g i)) r) →
  for_each (seq 0 (num_cores k)) m (mkRunning k l) =
    Some (tt, mkRunning (map_cores f k) (l ++ flat_map g (seq 0 (num_cores k))), []).
Proof.
  intros Hm. destruct k as [c w|cores w n]; simpl.
  - unfold bind. rewrite Hm. unfold on_core, acts. run_M. by rewrite app_nil_r.
  - unfold num_cores. simpl.
    assert (∀ suf pre l, for_each (seq (length pre) (length suf)) m (mkRunning (PerCore (pre ++ suf) w n) l) =
      Some (tt, mkRunning (PerCore (pre ++ map f suf) w n) (l ++ flat_map g (seq (length pre) (length suf))), []))
      as Hgen; [|exact (Hgen cores [] l)].
    intros suf. induction suf as [|c suf IH]; intros pre l'; simpl; [by rewrite !app_nil_r|].
    unfold bind. rewrite Hm. unfold on_core, acts. run_M. rewrite alter_middle.
    specialize (IH (pre ++ [f c]) (l' ++ g (length pre))). rewrite length_app, Nat.add_1_r in IH. rewrite IH.
    by rewrite <-!app_assoc.
Qed.

Definition advised (c : Core) : Core := mkCore c.(shutdown) c.(torn_down) true c.(active_tasks).
Definition stopped (c : Core) : Core := mkCore true c.(torn_down) c.(shutting_down) c.(active_tasks).
Definition torn (c : Core) : Core := mkCore c.(shutdown) true c.(shutting_down) c.(active_tasks).
Definition without_workers (k : RuntimeKind) : RuntimeKind :=
  match k with Single c _ => Single c None | PerCore cores _ n => PerCore cores [] n end.
Definition primary (k : RuntimeKind) : option Core := all_shared k !! 0%nat.

Lemma for_all_acts f m k l :
  (∀ i r, m i r = acts (f i) r) →
  for_all_shared m (mkRunning k l) = Some (tt, mkRunning k (l ++ flat_map f (seq 0 (num_cores k))), []).
Proof.
  intros Hm. unfold for_all_shared, bind at 1, get. simpl.
  rewrite <-(map_id (seq 0 (num_cores k))). rewrite (for_each_acts f id); [by rewrite map_id|]. intros. apply Hm.
Qed.

Lemma for_all_cores f g m k l :
  (∀ i r, m i r = (on_core i f ;! acts (g i)) r) →
  for_all_shared m (mkRunning k l) =
    Some (tt, mkRunning (map_cores f k) (l ++ flat_map g (seq 0 (num_cores k))), []).
Proof. intros Hm. unfold for_all_shared, bind at 1, get. simpl. rewrite (for_cores f g); [done|exact Hm]. Qed.

(** What each loop of the shutdown paths leaves in the log. *)
Definition on_each (f : nat → list action) (k : RuntimeKind) : list action := flat_map f (seq 0 (num_cores k)).
Definition stops (i : nat) : list action := [StopReactor i; StopTimer i].

Lemma advise_all k l :
  for_all_shared begin_graceful_shutdown (mkRunning k l) =
    Some (tt, mkRunning (map_cores advised k) (l ++ on_each (λ i, [NotifyWaiters i]) k), []).
Proof. by apply for_all_cores. Qed.

Lemma stop_all k l :
  stop_scheduling_and_reactor (mkRunning k l) =
    Some (tt, mkRunning (map_cores stopped k) (l ++ on_each stops k), []).
Proof. apply for_all_cores. intros i r. unfold act, acts. run_M. by rewrite <-app_assoc. Qed.

Lemma act_all a k l :
  for_all_shared (λ i, act (a i)) (mkRunning k l) =
    Some (tt, mkRunning k (l ++ on_each (λ i, [a i]) k), []).
Proof. by apply for_all_acts. Qed.

Lemma act_all2 a b k l :
  for_all_shared (λ i, act (a i) ;! act (b i)) (mkRunning k l) =
    Some (tt, mkRunning k (l ++ on_each (λ i, [a i; b i]) k), []).
Proof. apply for_all_acts. intros i r. unfold act, acts. run_M. by rewrite <-app_assoc. Qed.

Lemma join_all ws k l :
  for_each ws (λ w, act (JoinWorker w)) (mkRunning k l) = Some (tt, mkRunning k (l ++ map JoinWorker ws), []).
Proof.
  rewrite <-(map_id ws) at 1. rewrite (for_each_acts (λ w, [JoinWorker w]) id) by done.
  assert (flat_map (λ w, [JoinWorker w]) ws = map JoinWorker ws) as ->; [|done].
  induction ws as [|w ws IH]; [done|]. simpl. by rewrite IH.
Qed.

Lemma take_all k l :
  take_workers (mkRunning k l) = Some (workers_of k, mkRunning (without_workers k) l, []).
Proof. by destruct k. Qed.

Lemma teardown_primary k l c :
  primary k = Some c →
  teardown_once (mkRunning k l) = Some (negb c.(torn_down), mkRunning (update_core 0 torn k) l, []).
Proof. unfold teardown_once, primary, on_core. intros E. run_M. rewrite E. done. Qed.

Lemma num_update_core i f k : num_cores (update_core i f k) = num_cores k.
Proof. unfold num_cores. destruct k; simpl; [by destruct i|]. by rewrite length_alter. Qed.
Lemma num_without_workers k : num_cores (without_workers k) = num_cores k.
Proof. by destruct k. Qed.
Lemma workers_update_core i f k : workers_of (update_core i f k) = workers_of k.
Proof. by destruct k, i. Qed.
Lemma primary_map_cores f k : primary (map_cores f k) = f <$> primary k.
Proof. unfold primary. destruct k as [|[] ]; done. Qed.
Lemma primary_update_core f k : primary (update_core 0 f k) = f <$> primary k.
Proof. unfold primary. destruct k as [|[] ]; done. Qed.
Lemma primary_without_workers k : primary (without_workers k) = primary k.
Proof. by destruct k. Qed.

(** ** The three ways of shutting down *)

Inductive path := Background | Timeout (deadline : Z) | JustDropped.

(** The call, if there is one, consumes the runtime, which is then dropped. *)
Definition take_path (p : path) : M running unit :=
  match p with
  | Background => shutdown_background ;! runtime_drop
  | Timeout d => shutdown_timeout d ;! runtime_drop
  | JustDropped => runtime_drop
  end.

Definition path_log (p : path) (k : RuntimeKind) : list action :=
  let advice := on_each (λ i, [NotifyWaiters i]) k in
  let joins := map JoinWorker (workers_of k) in
  match p with
  | Background => advice ++ on_each stops k ++ on_each (λ i, [SignalPool i]) k ++ advice
  | Timeout d =>
      advice ++ on_each (λ i, [WaitTasks i d]) k ++ on_each stops k ++
      on_each (λ i, [SignalPool i; WaitPool i (Some d)]) k ++ joins ++ advice
  | JustDropped => advice ++ on_each stops k ++ on_each (λ i, [SignalPool i; WaitPool i None]) k ++ joins
  end.

Lemma on_each_map_cores h f k : on_each f (map_cores h k) = on_each f k.
Proof. unfold on_each. by rewrite num_map_cores. Qed.
Lemma on_each_update i h f k : on_each f (update_core i h k) = on_each f k.
Proof. unfold on_each. by rewrite num_update_core. Qed.
Lemma on_each_without f k : on_each f (without_workers k) = on_each f k.
Proof. unfold on_each. by rewrite num_without_workers. Qed.

(** The runtime once [stop_scheduling_and_reactor] has run. *)
Definition down (k : RuntimeKind) : RuntimeKind :=
  map_cores stopped (update_core 0 torn (map_cores advised k)).

Lemma num_down k : num_cores (down k) = num_cores k.
Proof. unfold down. by rewrite num_map_cores, num_update_core, num_map_cores. Qed.
Lemma workers_down k : workers_of (down k) = workers_of k.
Proof. unfold down. by rewrite workers_map_cores, workers_update_core, workers_map_cores. Qed.

Ltac path_step :=
  erewrite bind_silent by first
    [ apply advise_all | apply stop_all | apply act_all2 | apply act_all | apply take_all
    | apply teardown_primary; rewrite primary_map_cores; match goal with E : primary _ = _ |- _ => by rewrite E end ];
  cbv beta.
Ltac path_end :=
  unfold down; rewrite ?on_each_without, ?on_each_map_cores, ?on_each_update, ?on_each_map_cores;
  rewrite <-?app_assoc; try done.

Lemma shutdown_background_eq k l c :
  primary k = Some c → c.(torn_down) = false →
  shutdown_background (mkRunning k l) = Some (tt, mkRunning (without_workers (down k))
    (l ++ on_each (λ i, [NotifyWaiters i]) k ++ on_each stops k ++ on_each (λ i, [SignalPool i]) k), []).
Proof.
  intros Hc Ht. unfold shutdown_background. path_step. path_step. simpl. rewrite Ht. simpl.
  path_step. fold (down k). path_step. path_step. unfold ret. path_end.
Qed.
Lemma shutdown_timeout_eq d k l c :
  primary k = Some c → c.(torn_down) = false →
  shutdown_timeout d (mkRunning k l) = Some (tt, mkRunning (without_workers (down k))
    (l ++ on_each (λ i, [NotifyWaiters i]) k ++ on_each (λ i, [WaitTasks i d]) k ++ on_each stops k ++
     on_each (λ i, [SignalPool i; WaitPool i (Some d)]) k ++ map JoinWorker (workers_of k)), []).
Proof.
  intros Hc Ht. unfold shutdown_timeout. path_step. path_step. path_step. simpl. rewrite Ht. simpl.
  path_step. fold (down k). path_step. path_step. rewrite join_all, workers_down. path_end.
Qed.

Lemma runtime_drop_first k l c :
  primary k = Some c → c.(torn_down) = false →
  runtime_drop (mkRunning k l) = Some (tt, mkRunning (without_workers (down k))
    (l ++ on_each (λ i, [NotifyWaiters i]) k ++ on_each stops k ++
     on_each (λ i, [SignalPool i; WaitPool i None]) k ++ map JoinWorker (workers_of k)), []).
Proof.
  intros Hc Ht. unfold runtime_drop. path_step. path_step. simpl. rewrite Ht. simpl.
  path_step. fold (down k). path_step. path_step. rewrite join_all, workers_down. path_end.
Qed.

(** A runtime that was shut down only gives the advice once more. *)
Lemma runtime_drop_again k l c :
  primary k = Some c → c.(torn_down) = true →
  runtime_drop (mkRunning k l) =
    Some (tt, mkRunning (update_core 0 torn (map_cores advised k)) (l ++ on_each (λ i, [NotifyWaiters i]) k), []).
Proof. intros Hc Ht. unfold runtime_drop. path_step. path_step. simpl. rewrite Ht. done. Qed.

Definition is_down (c : Core) : Prop := c.(shutdown) = true ∧ c.(shutting_down) = true.

Lemma down_is_down k : Forall is_down (all_shared (down k)).
Proof.
  destruct k as [c w|[|c cs] w n]; simpl; repeat constructor.
  rewrite !Forall_map. by apply Forall_true.
Qed.

Lemma advised_is_down k :
  Forall is_down (all_shared k) → Forall is_down (all_shared (update_core 0 torn (map_cores advised k))).
Proof.
  destruct k as [c w|[|c cs] w n]; simpl; rewrite ?Forall_cons; unfold is_down; simpl; [tauto|done|].
  intros [[??] ?]. split; [done|]. rewrite Forall_map. by eapply Forall_impl; [done|]; intros ? [].
Qed.

(** Shutting down is done once and in order: on every path, the runtime
    then being dropped, every task waiting for the advice is woken first; a
    shutdown with a timeout then waits for the tasks before anything is
    stopped; each core's reactor and timer are stopped once, its pool is told
    to stop once, after them, and the workers are joined, each once, except in
    the background; and in the end every core has both flags set and no
    worker is left to join. *)
Theorem shutdown_paths b p :
  let k := build b in
  ∃ k', take_path p (mkRunning k []) = Some (tt, mkRunning k' (path_log p k), []) ∧
    num_cores k' = num_cores k ∧ workers_of k' = [] ∧
    Forall (λ c, c.(shutdown) = true ∧ c.(shutting_down) = true) (all_shared k').
Proof.
  intros k. assert (∃ c, primary k = Some c ∧ c.(torn_down) = false) as (c & Hc & Ht).
  { unfold k, build, primary. destruct (flavor b); simpl; [by eexists..|].
    destruct (Z.to_nat (worker_threads b `max` 1)) eqn:E; [lia|]. by eexists. }
  clearbody k.
  assert (primary (without_workers (down k)) = Some (stopped (torn (advised c)))) as Hc'.
  { unfold down. by rewrite primary_without_workers, primary_map_cores, primary_update_core, primary_map_cores, Hc. }
  assert (∀ l, workers_of (without_workers (down k)) = [] ∧ Forall is_down (all_shared (without_workers (down k))) ∧
    runtime_drop (mkRunning (without_workers (down k)) l) = Some (tt, mkRunning
      (update_core 0 torn (map_cores advised (without_workers (down k))))
      (l ++ on_each (λ i, [NotifyWaiters i]) k), [])) as Hdrop.
  { intros l. split_and!; [by destruct k| |].
    - pose proof (down_is_down k) as Hd. by destruct k.
    - rewrite (runtime_drop_again _ _ _ Hc') by done. rewrite on_each_without. unfold down.
      by rewrite on_each_map_cores, on_each_update, on_each_map_cores. }
  unfold take_path, path_log. destruct p as [|d|].
  - exists (update_core 0 torn (map_cores advised (without_workers (down k)))).
    erewrite bind_silent by by apply (shutdown_background_eq k [] c).
    destruct (Hdrop []) as (Hw & Hd & _). split_and!.
    + etrans; [apply (proj2 (proj2 (Hdrop _)))|]. simpl. by rewrite <-!app_assoc.
    + by rewrite num_update_core, num_map_cores, num_without_workers, num_down.
    + by rewrite workers_update_core, workers_map_cores.
    + by apply advised_is_down.
  - exists (update_core 0 torn (map_cores advised (without_workers (down k)))).
    erewrite bind_silent by by apply (shutdown_timeout_eq d k [] c).
    destruct (Hdrop []) as (Hw & Hd & _). split_and!.
    + etrans; [apply (proj2 (proj2 (Hdrop _)))|]. simpl. by rewrite <-!app_assoc.
    + by rewrite num_update_core, num_map_cores, num_without_workers, num_down.
    + by rewrite workers_update_core, workers_map_cores.
    + by apply advised_is_down.
  - exists (without_workers (down k)). destruct (Hdrop []) as (Hw & Hd & _). split_and!.
    + by rewrite (runtime_drop_first k [] c).
    + by rewrite num_without_workers, num_down.
    + done.
    + done.
Qed.

(** ** Placing tasks *)

Fixpoint spawn_many (m : nat) (k : RuntimeKind) : option (list nat * RuntimeKind) :=
  match m with
  | O => Some ([], k)
  | S m => '(i, k1) ← spawn_on k; '(is_, k2) ← spawn_many m k1; Some (i :: is_, k2)
  end.

(** Tasks spawned one after the other go round the cores, and the cursor may
    wrap around on the way. *)
Lemma spawn_round_robin m cores w next :
  cores ≠ [] → in_range usize_bits next →
  ∃ k, spawn_many m (PerCore cores w next) =
    Some (map (λ j, Z.to_nat (((next + Z.of_nat j) `mod` 2 ^ usize_bits) `mod` Z.of_nat (length cores))) (seq 0 m), k).
Proof.
  intros Hne. revert next. induction m as [|m IH]; intros next Hn; simpl; [by eexists|].
  rewrite bool_decide_eq_false_2 by done. simpl.
  destruct (IH ((next + 1) `mod` 2 ^ usize_bits)) as [k ->]; [by apply Z.mod_pos_bound|].
  simpl. eexists. do 2 f_equal. f_equal.
  - replace (next + Z.of_nat 0) with next by lia. by rewrite (Z.mod_small next (2 ^ usize_bits)) by done.
  - rewrite <-seq_shift, map_map. apply map_ext. intros j.
    rewrite Zplus_mod_idemp_l. do 3 f_equal. lia.
Qed.

(** Three tasks on a runtime of two cores. *)
Example spawn_round_robin_example :
  spawn_many 3 (build (mkBuilder ThreadPerCoreFlavor 2 32 None 10)) =
    Some ([0; 1; 0]%nat, PerCore [new_core; new_core] [0; 1]%nat 3).
Proof. reflexivity. Qed.
