(* ===== verification/Readiness.v ===== *)
(** Readiness of registered descriptors ([src/src/io/reactor/mod.rs],
    [src/src/io/readiness.rs], [src/src/io/interest.rs],
    [src/src/io/async_fd.rs]): [ScheduledIo], the loop of [poll_io], and a task,
    the reactor's thread and the kernel working on one direction. *)

From S2P Require Import Prelude Coop.

(** ** Interest and Ready: two bits of a byte *)

Definition READABLE : Z := 1.
Definition WRITABLE : Z := 2.
Definition EMPTY : Z := 0.
Definition is_readable (x : Z) : bool := has x READABLE.
Definition is_writable (x : Z) : bool := has x WRITABLE.
Definition is_empty (x : Z) : bool := x =? 0.
Definition bitor (x y : Z) : Z := Z.lor x y.

(** ** [ScheduledIo] *)

Inductive Interest := Read | Write.

Record ScheduledIo := mkIo {
  readable : bool;
  writable : bool;
  read_waker : option waker;
  write_waker : option waker;
}.

Definition scheduled_io_new : ScheduledIo := mkIo true true None None.

(** The atomic accesses: to the flag of a direction, and to its slot. *)
Definition flag_of (i : Interest) (io : ScheduledIo) : bool :=
  match i with Read => io.(readable) | Write => io.(writable) end.
Definition slot_of (i : Interest) (io : ScheduledIo) : option waker :=
  match i with Read => io.(read_waker) | Write => io.(write_waker) end.
Definition load_flag (i : Interest) : M ScheduledIo bool := let! io := get in ret (flag_of i io).
Definition store_flag (i : Interest) (b : bool) : M ScheduledIo unit :=
  let! io := get in
  put (match i with
       | Read => mkIo b io.(writable) io.(read_waker) io.(write_waker)
       | Write => mkIo io.(readable) b io.(read_waker) io.(write_waker)
       end).
Definition store_waker (i : Interest) (w : option waker) : M ScheduledIo unit :=
  let! io := get in
  put (match i with
       | Read => mkIo io.(readable) io.(writable) w io.(write_waker)
       | Write => mkIo io.(readable) io.(writable) io.(read_waker) w
       end).
Definition take_waker (i : Interest) : M ScheduledIo (option waker) :=
  let! io := get in store_waker i None ;! ret (slot_of i io).

(** [ScheduledIo::poll_ready], one access at a time. *)
Inductive ready_pc := RLoad | RRegister | RReload.
Definition ready_step (i : Interest) (cx : waker) (at_ : ready_pc) : M ScheduledIo (next ready_pc (poll unit)) :=
  match at_ with
  | RLoad => let! b := load_flag i in ret (if b then Return (Ready tt) else Continue RRegister)
  | RRegister => store_waker i (Some cx) ;! ret (Continue RReload)
  | RReload => let! b := load_flag i in ret (Return (if b then Ready tt else Pending))
  end.
(** The whole of it, undisturbed. *)
Definition scheduled_poll_ready (i : Interest) (cx : waker) : M ScheduledIo (poll unit) :=
  let! b := load_flag i in
  if b then ret (Ready tt)
  else
    store_waker i (Some cx) ;!
    let! b := load_flag i in
    ret (if b then Ready tt else Pending).

Definition clear_ready (i : Interest) : M ScheduledIo unit := store_flag i false.

(** [mark_ready] is the store of the flag, then this. *)
Definition mark_ready_wake (i : Interest) : M ScheduledIo unit :=
  let! w := take_waker i in wake_opt w.
Definition mark_ready (i : Interest) : M ScheduledIo unit := store_flag i true ;! mark_ready_wake i.

(** ** [poll_io] *)

Inductive attempt (A E : Type) := Done (a : A) | WouldBlock | Failed (e : E).
Arguments Done {A E} a.
Arguments WouldBlock {A E}.
Arguments Failed {A E} e.

(** The loop, on the answers the operation gives, the time it is run for the
    first time, the second and so on; [None] is a list that is too short. *)
Fixpoint io_loop {A E} (i : Interest) (cx : waker) (op : list (attempt A E)) :
    M ScheduledIo (option (poll (result A E))) :=
  let! p := scheduled_poll_ready i cx in
  match p with
  | Pending => ret (Some Pending)
  | Ready _ =>
      match op with
      | [] => ret None
      | Done v :: _ => ret (Some (Ready (Ok v)))
      | Failed e :: _ => ret (Some (Ready (Err e)))
      | WouldBlock :: op => clear_ready i ;! io_loop i cx op
      end
  end.

(** ** [readiness::poll_ready], [try_io] and the guard of [AsyncFd] *)

Definition poll_ready_any (interest : Z) (cx : waker) : M ScheduledIo (poll Z) :=
  let! r := (if is_readable interest then
               let! p := scheduled_poll_ready Read cx in ret (if is_ready p then bitor EMPTY READABLE else EMPTY)
             else ret EMPTY) in
  let! r := (if is_writable interest then
               let! p := scheduled_poll_ready Write cx in ret (if is_ready p then bitor r WRITABLE else r)
             else ret r) in
  ret (if is_empty r then Pending else Ready r).

Definition clear_directions (x : Z) : M ScheduledIo unit :=
  (if is_readable x then clear_ready Read else ret tt) ;!
  (if is_writable x then clear_ready Write else ret tt).

Definition try_io {A E} (interest : Z) (answer : attempt A E) : M ScheduledIo (attempt A E) :=
  match answer with
  | WouldBlock => clear_directions interest ;! ret WouldBlock
  | _ => ret answer
  end.

(** [AsyncFdReadyGuard::try_io]: [Err] is [TryIoError]. *)
Definition guard_try_io {A E} (ready : Z) (answer : attempt A E) : M ScheduledIo (result (attempt A E) unit) :=
  match answer with
  | WouldBlock => clear_directions ready ;! ret (Err tt)
  | _ => ret (Ok answer)
  end.

(** [poll_read_ready] and [poll_write_ready]: the descriptor must have been
    opened for the direction. *)
Definition fd_poll_ready (interest : Z) (i : Interest) (cx : waker) : M ScheduledIo (poll Z) :=
  assert (match i with Read => is_readable interest | Write => is_writable interest end) ;!
  let! p := scheduled_poll_ready i cx in
  ret (match p with
       | Ready _ => Ready (match i with Read => READABLE | Write => WRITABLE end)
       | Pending => Pending
       end).

(** [poll_io]: the budget first, then the loop. *)
Definition poll_io {A E} (i : Interest) (cx : waker) (op : list (attempt A E)) :
    M (BUDGET * ScheduledIo) (option (poll (result A E))) :=
  let! p := zoom fst (λ b s, (b, s.2)) (poll_proceed cx) in
  match p with
  | Pending => ret (Some Pending)
  | Ready _ => zoom snd (λ io s, (s.1, io)) (io_loop i cx op)
  end.

(** ** Tasks, the reactor and the kernel

    Any number of polls wait for one direction of a descriptor; the other
    direction has a flag and a slot of its own.  [woken] and [displaced] are
    ghosts of a poll: its waker was called since the poll began; another poll
    has since put another waker into the slot. *)

Section direction.
Context (i : Interest) (edge_triggered : bool).

Inductive reactor_pc := RIdle | RWaking.
Inductive task_pc :=
| TIdle
| TReady (at_ : ready_pc)
| TOp                       (* about to try the operation *)
| TClear                    (* it would have blocked *)
| TParked.

Record client := mkClient { me : waker; task : task_pc; woken : bool; displaced : bool }.
Definition at_pc (p : task_pc) (c : client) : client := mkClient c.(me) p c.(woken) c.(displaced).
Definition deliver (ws : list waker) (c : client) : client :=
  mkClient c.(me) c.(task) (c.(woken) || bool_decide (c.(me) ∈ ws)) c.(displaced).
(** Poll [k] puts the waker [w] into the slot. *)
Definition displace (k : nat) (w : waker) (j : nat) (c : client) : client :=
  mkClient c.(me) c.(task) c.(woken)
    (if decide (j = k) then false else c.(displaced) || negb (bool_decide (c.(me) = w))).

Record world := mkWorld {
  io : ScheduledIo;
  kernel_ready : bool;      (* the operation would not block *)
  event : bool;             (* an edge that [epoll_wait] has still to report *)
  reactor : reactor_pc;
  clients : list client;
}.

Inductive dstep : world → world → Prop :=
| d_data W : dstep W (mkWorld W.(io) true true W.(reactor) W.(clients))
| d_event W s ws :
    W.(reactor) = RIdle → (if edge_triggered then W.(event) else W.(kernel_ready)) = true →
    store_flag i true W.(io) = Some (tt, s, ws) →
    dstep W (mkWorld s W.(kernel_ready) false RWaking W.(clients))
| d_wake W s ws :
    W.(reactor) = RWaking → mark_ready_wake i W.(io) = Some (tt, s, ws) →
    dstep W (mkWorld s W.(kernel_ready) W.(event) RIdle (map (deliver ws) W.(clients)))
| d_new W w :               (* another future on the descriptor *)
    dstep W (mkWorld W.(io) W.(kernel_ready) W.(event) W.(reactor)
               (W.(clients) ++ [mkClient w TIdle false false]))
| d_poll W k c w :          (* a poll that looks for readiness first *)
    W.(clients) !! k = Some c → c.(task) = TIdle ∨ c.(task) = TParked →
    dstep W (mkWorld W.(io) W.(kernel_ready) W.(event) W.(reactor)
               (<[k := mkClient w (TReady RLoad) false false]> W.(clients)))
| d_drop W k c :            (* the future is dropped, its waker staying in the slot *)
    W.(clients) !! k = Some c → c.(task) = TParked →
    dstep W (mkWorld W.(io) W.(kernel_ready) W.(event) W.(reactor) (<[k := at_pc TIdle c]> W.(clients)))
| d_ready W k c a x s ws :
    W.(clients) !! k = Some c → c.(task) = TReady a → ready_step i c.(me) a W.(io) = Some (x, s, ws) →
    dstep W (mkWorld s W.(kernel_ready) W.(event) W.(reactor)
      (<[k := mkClient c.(me)
           (match x with
            | Continue a' => TReady a'
            | Return (Ready _) => TOp
            | Return Pending | Panicked => TParked
            end) c.(woken) (match a with RRegister => false | _ => c.(displaced) end)]>
        (match a with RRegister => imap (displace k c.(me)) W.(clients) | _ => W.(clients) end)))
| d_done W k c more :       (* takes what there is; there may be more *)
    W.(clients) !! k = Some c → c.(task) = TOp → W.(kernel_ready) = true →
    dstep W (mkWorld W.(io) more W.(event) W.(reactor) (<[k := at_pc TIdle c]> W.(clients)))
| d_would_block W k c :
    W.(clients) !! k = Some c → c.(task) = TOp → W.(kernel_ready) = false →
    dstep W (mkWorld W.(io) false W.(event) W.(reactor) (<[k := at_pc TClear c]> W.(clients)))
| d_clear W k c s ws :
    W.(clients) !! k = Some c → c.(task) = TClear → clear_ready i W.(io) = Some (tt, s, ws) →
    dstep W (mkWorld s W.(kernel_ready) W.(event) W.(reactor) (<[k := at_pc (TReady RLoad) c]> W.(clients))).

(** A descriptor that was just registered. *)
Definition io_reachable : world → Prop :=
  reachable (λ W, ∃ k, W = mkWorld scheduled_io_new k k RIdle []) dstep.

Definition client_ok (s : ScheduledIo) (r : reactor_pc) (c : client) : Prop :=
  match c.(task) with
  | TReady RReload => c.(woken) = true ∨ c.(displaced) = true ∨ slot_of i s = Some c.(me)
  | TParked =>
      c.(woken) = true ∨ c.(displaced) = true ∨
      slot_of i s = Some c.(me) ∧ (flag_of i s = false ∨ r = RWaking)
  | _ => True
  end.

(** Only another poll displaces. *)
Definition rivals (cs : list client) : Prop :=
  ∀ (k : nat) c, cs !! k = Some c → c.(displaced) = true → ∃ j, j ≠ k ∧ is_Some (cs !! j).

Definition io_inv (W : world) : Prop :=
  (∀ (k : nat) c, W.(clients) !! k = Some c → client_ok W.(io) W.(reactor) c) ∧ rivals W.(clients).

Lemma client_ok_flag s s' r r' c :
  slot_of i s' = slot_of i s → (flag_of i s' = false ∨ r' = RWaking ∨ flag_of i s' = flag_of i s ∧ r' = r) →
  client_ok s r c → client_ok s' r' c.
Proof.
  unfold client_ok. intros Hs Hf. rewrite Hs. destruct (task c) as [|[| |]| | |]; try done.
  intros [?|[?|[? Hor]]]; [by left|by right; left|]. right; right. split; [done|].
  destruct Hf as [?|[?|[-> ->]]]; auto.
Qed.

(** One client moves on to a point where nothing is known of it. *)
Lemma io_inv_move s r cs (k : nat) c c' kr ev kr' ev' :
  io_inv (mkWorld s kr ev r cs) → cs !! k = Some c →
  client_ok s r c' → (c'.(displaced) = true → c.(displaced) = true) →
  io_inv (mkWorld s kr' ev' r (<[k := c']> cs)).
Proof.
  intros [HI HR] Hk Hok Hd. split; simpl in *.
  - intros j x [(_ & -> & _)|[_ Hj]]%list_lookup_insert_Some; eauto.
  - intros j x [(-> & -> & Hlt)|[Hne Hj]]%list_lookup_insert_Some Hx.
    + destruct (HR _ _ Hk (Hd Hx)) as (j' & ? & Hj').
      exists j'. split; [done|]. by rewrite list_lookup_insert_ne.
    + destruct (HR _ _ Hj Hx) as (j' & ? & Hj'). exists j'. split; [done|].
      destruct (decide (k = j')) as [->|]; [|by rewrite list_lookup_insert_ne].
      rewrite list_lookup_insert_eq; [done|by eapply lookup_lt_Some].
Qed.

(** A poll registers: it displaces the others that have another waker. *)
Lemma io_inv_register W (k : nat) c :
  io_inv W → W.(clients) !! k = Some c →
  io_inv (mkWorld
    (match i with
     | Read => mkIo W.(io).(readable) W.(io).(writable) (Some c.(me)) W.(io).(write_waker)
     | Write => mkIo W.(io).(readable) W.(io).(writable) W.(io).(read_waker) (Some c.(me))
     end) W.(kernel_ready) W.(event) W.(reactor)
    (<[k := mkClient c.(me) (TReady RReload) c.(woken) false]> (imap (displace k c.(me)) W.(clients)))).
Proof.
  intros [HI HR] Hk. pose proof (lookup_lt_Some _ _ _ Hk) as Hlt. split; simpl.
  - intros j x [(_ & Hx & _)|[Hne Hj]]%list_lookup_insert_Some.
    + subst x. unfold client_ok. simpl. right; right. by destruct i.
    + rewrite list_lookup_imap in Hj. destruct (clients W !! j) as [c0|] eqn:E; simplify_eq/=.
      specialize (HI _ _ E). unfold client_ok, displace in *. simpl. rewrite decide_False by done.
      destruct (bool_decide_reflect (me c0 = me c)) as [Heq|]; simpl; rewrite ?orb_false_r, ?orb_true_r.
      * rewrite Heq in *. destruct (task c0) as [|[| |]| | |]; try done; destruct i; simpl in *; naive_solver.
      * destruct (task c0) as [|[| |]| | |]; auto.
  - intros j x Hj Hd. destruct (decide (j = k)) as [->|Hne].
    { rewrite list_lookup_insert_eq in Hj by (by rewrite length_imap). by simplify_eq. }
    exists k. split; [done|]. rewrite list_lookup_insert_eq; [done|by rewrite length_imap].
Qed.

Lemma io_inv_step W W' : io_inv W → dstep W W' → io_inv W'.
Proof.
  intros [HI HR] Hst.
  destruct Hst as [W|W s ws Hr He Hop|W s ws Hr Hop|W w|W k c w Hk Ht|W k c Hk Ht|W k c a x s ws Hk Ht Hop
    |W k c more Hk Ht Hkr|W k c Hk Ht Hkr|W k c s ws Hk Ht Hop].
  - by split.
  - unfold store_flag in Hop. run_M. simplify_eq. split; [|done]. intros k c Hk. simpl in *.
    eapply client_ok_flag; [| |by eapply HI]; [by destruct i|]. auto.
  - assert (∀ w, slot_of i (io W) = Some w → w ∈ ws) as Hws.
    { unfold mark_ready_wake, take_waker, store_waker in Hop. run_M. intros w Hs. rewrite Hs in Hop.
      destruct i; simpl in Hop; simplify_eq/=; set_solver. }
    clear Hop. split; simpl.
    + intros k c Hk. rewrite list_lookup_fmap in Hk. destruct (clients W !! k) as [c0|] eqn:E; simplify_eq/=.
      specialize (HI _ _ E). unfold client_ok in *. simpl.
      assert (slot_of i (io W) = Some (me c0) → woken c0 || bool_decide (me c0 ∈ ws) = true) as Hwk.
      { intros Hs. apply orb_true_iff; right. by apply bool_decide_eq_true, Hws. }
      destruct (task c0) as [|[| |]| | |]; try done;
        (destruct HI as [->|[?|Hs]]; [by left|by right; left|]; left; apply Hwk; tauto).
    + intros k c Hk Hd. rewrite list_lookup_fmap in Hk. destruct (clients W !! k) as [c0|] eqn:E; simplify_eq/=.
      destruct (HR _ _ E Hd) as (j & ? & Hj). exists j. split; [done|].
      rewrite list_lookup_fmap. by destruct (clients W !! j).
  - split; simpl.
    + intros k c [Hk|Hk]%lookup_snoc_inv; [by eapply HI|]. by simplify_eq.
    + intros k c [Hk|Hk]%lookup_snoc_inv Hd; [|by simplify_eq].
      destruct (HR _ _ Hk Hd) as (j & ? & [y Hj]). exists j. split; [done|].
      exists y. by apply lookup_app_l_Some.
  - destruct W. by eapply io_inv_move.
  - destruct W. by eapply io_inv_move.
  - destruct a; unfold ready_step, load_flag, store_waker in Hop; run_M; simplify_eq.
    + destruct W. eapply io_inv_move; [by split|exact Hk| |done]. by destruct (flag_of i _).
    + apply io_inv_register; [by split|done].
    + destruct W as [s0 ? ? ? ?]. eapply io_inv_move; [by split|exact Hk| |done]. simpl in *.
      pose proof (HI _ _ Hk) as Hc. unfold client_ok in Hc. rewrite Ht in Hc.
      destruct (flag_of i s0) eqn:Ef; [done|]. unfold client_ok. simpl. naive_solver.
  - destruct W. by eapply io_inv_move.
  - destruct W. by eapply io_inv_move.
  - unfold clear_ready, store_flag in Hop. run_M. simplify_eq. destruct W as [s0 kr ev r cs]. simpl in *.
    eapply (io_inv_move _ r cs k c _ kr ev); [|done..]. split; [|done]. simpl. intros j y Hj.
    eapply client_ok_flag; [| |by eapply HI]; [by destruct i|]. left. by destruct i.
Qed.

(** C13: a readiness event that comes after a task has looked for one is not
    lost: in every reachable state, with any number of polls waiting for a
    direction, a task that was told to wait, and not woken since, has its waker
    in the slot, with the flag down or the reactor about to take the waker; so
    the next event wakes it, and it alone.  With level-triggered events such an
    event is there whenever the descriptor is ready.  The exception is a poll
    displaced by a later one: there is one slot to a direction, and another
    task that waits for the same direction has put its waker there. *)
Theorem readiness_registered W (k : nat) c :
  io_reachable W → W.(clients) !! k = Some c → c.(task) = TParked → c.(woken) = false →
  if c.(displaced) then ∃ j, j ≠ k ∧ is_Some (W.(clients) !! j)
  else
    (flag_of i W.(io) = false ∨ W.(reactor) = RWaking) ∧
    (∃ s, mark_ready_wake i W.(io) = Some (tt, s, [c.(me)])) ∧
    (∃ s, mark_ready i W.(io) = Some (tt, s, [c.(me)])) ∧
    (edge_triggered = false → W.(kernel_ready) = true →
     ∃ W1 W2 c', rtc dstep W W1 ∧ dstep W1 W2 ∧ W2.(clients) !! k = Some c' ∧ c'.(woken) = true).
Proof.
  intros HR Hk Ht Hw. assert (io_inv W) as [HI HRiv].
  { clear Hk. revert W HR. apply invariant_reachable; [|by eauto using io_inv_step].
    intros ? (b & ->). by split. }
  specialize (HI _ _ Hk). unfold client_ok in HI. rewrite Ht, Hw in HI.
  destruct (displaced c) eqn:Ed; [by eapply HRiv|].
  destruct HI as [?|[?|[Hs Hf]]]; [done..|].
  assert (∃ s, mark_ready_wake i (io W) = Some (tt, s, [c.(me)])) as [s Hmark].
  { unfold mark_ready_wake, take_waker, store_waker. run_M. rewrite Hs. by eexists. }
  assert (∃ s1 s2, store_flag i true (io W) = Some (tt, s1, []) ∧ mark_ready_wake i s1 = Some (tt, s2, [c.(me)]))
    as (s1 & s2 & Hst & Hmark2).
  { unfold mark_ready_wake, take_waker, store_waker, store_flag. run_M.
    destruct i; simpl in *; do 2 eexists; (split; [reflexivity|]); simpl; rewrite Hs; reflexivity. }
  split_and!; [done|by exists s|exists s2|].
  { unfold mark_ready, bind. by rewrite Hst, Hmark2. }
  assert (woken (deliver [me c] c) = true) as Hwk.
  { simpl. rewrite bool_decide_eq_true_2 by set_solver. by rewrite orb_true_r. }
  intros He Hkr. destruct (reactor W) eqn:Er.
  - eexists _, _, _. split_and!; [| | |exact Hwk].
    + apply rtc_once. eapply d_event; [done|by rewrite He|done].
    + eapply d_wake; [done|]. simpl. exact Hmark2.
    + simpl. by rewrite list_lookup_fmap, Hk.
  - eexists W, _, _. split_and!; [apply rtc_refl|by eapply d_wake| |exact Hwk]. simpl.
    by rewrite list_lookup_fmap, Hk.
Qed.
End direction.

(** ** One poll, undisturbed *)

(** The state a poll that has to wait leaves: the flag down, the waker in its slot. *)
Definition waiting (i : Interest) (cx : waker) (s : ScheduledIo) : ScheduledIo :=
  match i with
  | Read => mkIo false s.(writable) (Some cx) s.(write_waker)
  | Write => mkIo s.(readable) false s.(read_waker) (Some cx)
  end.

(** What one poll of an operation answers: with no budget left, nothing, and
    the task is woken at once; else, not ready, nothing; else what the
    operation answers, which is tried once, but for an operation that would
    block: then the poll has to wait.  Whenever it waits for the descriptor
    the flag is down and its waker is in the slot. *)
Theorem poll_io_answer {A E} i cx (a : attempt A E) op b s :
  poll_io i cx (a :: op) (b, s) =
    if bool_decide (b = Some 0) then Some (Some Pending, (b, s), [cx])
    else
      let b' := (λ n, n - 1) <$> b in
      if flag_of i s then
        match a with
        | Done v => Some (Some (Ready (Ok v)), (b', s), [])
        | Failed e => Some (Some (Ready (Err e)), (b', s), [])
        | WouldBlock => Some (Some Pending, (b', waiting i cx s), [])
        end
      else Some (Some Pending, (b', waiting i cx s), []).
Proof.
  assert (scheduled_poll_ready i cx s =
    Some (if flag_of i s then Ready tt else Pending, if flag_of i s then s else waiting i cx s, [])) as Hready.
  { unfold scheduled_poll_ready, load_flag, store_waker. run_M.
    destruct s, i; simpl; match goal with |- context [if ?f then _ else _] => destruct f; done end. }
  assert (io_loop i cx (a :: op) s =
    if flag_of i s then
      match a with
      | Done v => Some (Some (Ready (Ok v)), s, [])
      | Failed e => Some (Some (Ready (Err e)), s, [])
      | WouldBlock => Some (Some Pending, waiting i cx s, [])
      end
    else Some (Some Pending, waiting i cx s, [])) as Hloop.
  { simpl. unfold bind at 1. rewrite Hready. destruct (flag_of i s) eqn:Ef; [|done].
    destruct a as [v| |e]; [done| |done].
    unfold clear_ready, store_flag. run_M.
    destruct op as [|a' op]; simpl; unfold scheduled_poll_ready, load_flag, store_waker; run_M; by destruct i. }
  unfold poll_io, zoom, poll_proceed. run_M.
  destruct b as [[|n|n]|]; simpl; rewrite ?Hloop; try done;
    (destruct (flag_of i s); [destruct a|]); done.
Qed.

(** ** What is lost *)

Definition raced (me : waker) : world :=
  mkWorld (mkIo false true (Some me) None) true false RIdle [mkClient me TParked false false].

Tactic Notation "dstep_with" open_constr(c) :=
  eapply rtc_l; [eapply c; simpl; try reflexivity; try done; try (by left); try (by right)|]; simpl.

(** With edge-triggered events, which [epoll.rs] registers for, readiness
    that comes between an operation that would have blocked and the clearing of
    the flag is lost: the task waits, the descriptor is ready, no event is
    left, and nothing but more data, or a poll that looks again, wakes the
    task. *)
Theorem readiness_race me :
  io_reachable Read true (raced me) ∧
  ∀ W, dstep Read true (raced me) W →
    W.(event) = true ∨ (∃ c, W.(clients) !! 0%nat = Some c ∧ c.(task) ≠ TParked) ∨
    ∃ w, W = mkWorld (raced me).(io) true false RIdle ((raced me).(clients) ++ [mkClient w TIdle false false]).
Proof.
  split.
  - eexists. split; [by exists false|].
    dstep_with (d_new _ _ _ me).
    dstep_with (d_poll _ _ _ 0%nat _ me).
    dstep_with (d_ready _ _ _ 0%nat).
    dstep_with (d_would_block _ _ _ 0%nat).
    dstep_with d_data.
    dstep_with d_event.
    dstep_with d_wake.
    dstep_with (d_clear _ _ _ 0%nat).
    dstep_with (d_ready _ _ _ 0%nat).
    dstep_with (d_ready _ _ _ 0%nat).
    dstep_with (d_ready _ _ _ 0%nat).
    apply rtc_refl.
  - intros W Hst. inversion Hst; simplify_eq/=; try (by left);
      try (by right; right; eexists);
      match goal with H : [_] !! ?k = Some ?c |- _ => destruct k as [|[|k]]; simplify_eq/= end;
      try naive_solver.
Qed.

(** The slot holds one waker: a second task that waits for the same direction
    displaces the first, which the next event does not wake. *)
Lemma second_waiter_displaces i w1 w2 s :
  flag_of i s = false →
  ∃ s1 s2 s3, scheduled_poll_ready i w1 s = Some (Pending, s1, []) ∧
    scheduled_poll_ready i w2 s1 = Some (Pending, s2, []) ∧
    mark_ready i s2 = Some (tt, s3, [w2]).
Proof.
  intros Hf. destruct s, i; simpl in Hf; subst; do 3 eexists; split_and!; reflexivity.
Qed.

(** Two tasks wait to read; the second is the one the next event wakes. *)
Definition two_readers : world :=
  mkWorld (mkIo false true (Some 5%nat) None) false false RIdle
    [mkClient 4%nat TParked false true; mkClient 5%nat TParked false false].

Lemma two_readers_reachable : io_reachable Read true two_readers.
Proof.
  eexists. split; [by exists false|].
  dstep_with (d_new _ _ _ 4%nat).
  dstep_with (d_poll _ _ _ 0%nat _ 4%nat).
  dstep_with (d_ready _ _ _ 0%nat).
  dstep_with (d_would_block _ _ _ 0%nat).
  dstep_with (d_clear _ _ _ 0%nat).
  dstep_with (d_ready _ _ _ 0%nat).
  dstep_with (d_ready _ _ _ 0%nat).
  dstep_with (d_ready _ _ _ 0%nat).
  dstep_with (d_new _ _ _ 5%nat).
  dstep_with (d_poll _ _ _ 1%nat _ 5%nat).
  dstep_with (d_ready _ _ _ 1%nat).
  dstep_with (d_ready _ _ _ 1%nat).
  dstep_with (d_ready _ _ _ 1%nat).
  apply rtc_refl.
Qed.

Lemma readiness_registered_witness :
  io_reachable Read true two_readers ∧
  ∃ s, mark_ready Read two_readers.(io) = Some (tt, s, [5%nat]).
Proof.
  split; [exact two_readers_reachable|].
  destruct (readiness_registered Read true two_readers 1%nat _ two_readers_reachable eq_refl eq_refl eq_refl)
    as (_ & _ & Hm & _). exact Hm.
Defined.
