(* ===== verification/Macros.v ===== *)
(** [select!], [join!] and [try_join!] ([src/src/macros.rs]).

    The source spells each macro out for two to five futures; here it takes a
    list of them.  A future is what its poll does to a shared state.  The
    theorem runs the macros on scripted futures, each resolving at the poll its
    script says and panicking when it is polled again, as a future may. *)

From S2P Require Import Prelude.

Section macros.
Context {S : Type}.

(** A pinned future of the expansion. *)
Definition future (A : Type) : Type := waker → M S (poll A).

(** [select!]: which branch, and its output. *)
Fixpoint select_from {A} (i : nat) (fs : list (future A)) (cx : waker) : M S (poll (nat * A)) :=
  match fs with
  | [] => ret Pending
  | f :: fs =>
      let! r := f cx in
      match r with
      | Ready out => ret (Ready (i, out))
      | Pending => select_from (Datatypes.S i) fs cx
      end
  end.
Definition select {A} (fs : list (future A)) (cx : waker) (_ : unit) : M S (poll (nat * A) * unit) :=
  let! r := select_from 0 fs cx in ret (r, tt).

(** The slots of [join!] and [try_join!], all empty at first. *)
Definition join_start {A} (fs : list (future A)) : list (option A) := map (λ _, None) fs.

Fixpoint join_pass {A} (fs : list (future A)) (outs : list (option A)) (cx : waker) : M S (list (option A)) :=
  match fs, outs with
  | f :: fs, o :: outs =>
      let! o := match o with
                | Some out => ret (Some out)
                | None => let! r := f cx in ret (match r with Ready out => Some out | Pending => None end)
                end in
      let! outs := join_pass fs outs cx in
      ret (o :: outs)
  | _, _ => ret []
  end.
(** [take().unwrap()] of every slot, when they are all full. *)
Definition join {A} (fs : list (future A)) (cx : waker) (outs : list (option A))
    : M S (poll (list A) * list (option A)) :=
  let! outs := join_pass fs outs cx in
  match mapM id outs with
  | Some values => ret (Ready values, map (λ _, None) outs)
  | None => ret (Pending, outs)
  end.

(** An error ends the pass. *)
Fixpoint try_join_pass {A E} (fs : list (future (result A E))) (outs : list (option A)) (cx : waker)
    : M S (result (list (option A)) E) :=
  match fs, outs with
  | f :: fs, o :: outs =>
      let! o := match o with
                | Some v => ret (Ok (Some v))
                | None =>
                    let! r := f cx in
                    ret (match r with Ready (Ok v) => Ok (Some v) | Ready (Err e) => Err e | Pending => Ok None end)
                end in
      match o with
      | Err e => ret (Err e)
      | Ok o =>
          let! r := try_join_pass fs outs cx in
          ret (match r with Ok outs => Ok (o :: outs) | Err e => Err e end)
      end
  | _, _ => ret (Ok [])
  end.
Definition try_join {A E} (fs : list (future (result A E))) (cx : waker) (outs : list (option A))
    : M S (poll (result (list A) E) * list (option A)) :=
  let! r := try_join_pass fs outs cx in
  match r with
  | Err e => ret (Ready (Err e), outs)
  | Ok outs =>
      match mapM id outs with
      | Some values => ret (Ready (Ok values), map (λ _, None) outs)
      | None => ret (Pending, outs)
      end
  end.
End macros.

(** ** Scripted futures *)

(** [(k, out)] resolves with [out] at its [k]-th poll; the state counts the
    polls of each. *)
Definition script_poll {A} (j : nat) (s : nat * A) : future (S := list nat) A := λ _,
  let! counts := get in
  match counts !! j with
  | Some n =>
      if (n <? s.1)%nat then
        put (<[j := S n]> counts) ;!
        ret (if (S n =? s.1)%nat then Ready s.2 else Pending)
      else panic
  | None => panic
  end.
Fixpoint scripted_from {A} (j : nat) (scs : list (nat * A)) : list (future (S := list nat) A) :=
  match scs with [] => [] | s :: scs => script_poll j s :: scripted_from (S j) scs end.
Definition scripted {A} (scs : list (nat * A)) := scripted_from 0 scs.
Definition unpolled {A} (scs : list (nat * A)) : list nat := map (λ _, 0%nat) scs.

(** ** What each macro is to answer at its [t]-th poll *)

(** The first branch due. *)
Fixpoint select_at {A} (i : nat) (scs : list (nat * A)) (t : nat) : poll (nat * A) :=
  match scs with
  | [] => Pending
  | (k, out) :: scs => if (k =? t)%nat then Ready (i, out) else select_at (S i) scs t
  end.
(** All of them, once all are due. *)
Definition join_at {A} (scs : list (nat * A)) (t : nat) : poll (list A) :=
  if forallb (λ s, s.1 <=? t)%nat scs then Ready (map snd scs) else Pending.
(** The first error due, else all of them. *)
Fixpoint error_at {A E} (scs : list (nat * result A E)) (t : nat) : option E :=
  match scs with
  | [] => None
  | (k, Err e) :: scs => if (k =? t)%nat then Some e else error_at scs t
  | _ :: scs => error_at scs t
  end.
Definition ok_value {A E} (s : nat * result A E) : option A := match s.2 with Ok v => Some v | Err _ => None end.
Definition try_join_at {A E} (scs : list (nat * result A E)) (t : nat) : poll (result (list A) E) :=
  match error_at scs t with
  | Some e => Ready (Err e)
  | None => if forallb (λ s, s.1 <=? t)%nat scs then Ready (Ok (omap ok_value scs)) else Pending
  end.

(** The answer of [n] polls, the first being the [t + 1]-st. *)
Fixpoint first_ready {B} (answer : nat → poll B) (t n : nat) : poll B :=
  match n with
  | O => Pending
  | S n => match answer (S t) with Ready b => Ready b | Pending => first_ready answer (S t) n end
  end.

(** A macro whose poll answers [answer], poll after poll. *)
Lemma run_polls_answer {C St B} (step : waker → St → M C (poll B * St)) (answer : nat → poll B)
    (at_ : nat → St → C → Prop) :
  (∀ t cx st s, at_ t st s → ∃ st' s', step cx st s = Some ((answer (S t), st'), s', []) ∧
     (answer (S t) = Pending → at_ (S t) st' s')) →
  ∀ polls t st s, at_ t st s →
  ∃ st' s', run_polls step polls st s = Some ((first_ready answer t (length polls), st'), s', []).
Proof.
  intros Hstep polls. induction polls as [|cx polls IH]; intros t st s Hat; simpl; [by do 2 eexists|].
  destruct (Hstep t cx st s Hat) as (st' & s' & E & Hn). rewrite (bind_silent _ _ _ _ _ E).
  destruct (answer (S t)) as [b|]; [by do 2 eexists|]. by apply IH, Hn.
Qed.

(** ** The passes on scripted futures *)

Section passes.
Context {A : Type}.
Implicit Types (scs : list (nat * A)) (s : nat * A) (t : nat).

(** After [t] polls of a macro: how often a future was polled, and its slot. *)
Definition polls_by t (s : nat * A) : nat := Nat.min t s.1.
Definition slot_at t (s : nat * A) : option A := if (s.1 <=? t)%nat then Some s.2 else None.

Lemma script_poll_run pre n post (s : nat * A) cx : (n < s.1)%nat →
  script_poll (length pre) s cx (pre ++ n :: post) =
    Some (if (S n =? s.1)%nat then Ready s.2 else Pending, pre ++ S n :: post, []).
Proof.
  intros Hn. unfold script_poll. rewrite (bind_silent get _ _ _ _ eq_refl).
  rewrite list_lookup_middle by done. rewrite (proj2 (Nat.ltb_lt _ _) Hn).
  rewrite insert_app_r_alt by lia. by rewrite Nat.sub_diag.
Qed.

Lemma slot_due t s : (s.1 ≤ t)%nat →
  slot_at t s = Some s.2 ∧ slot_at (S t) s = Some s.2 ∧ polls_by (S t) s = polls_by t s.
Proof.
  intros Hs. unfold slot_at, polls_by. rewrite !(proj2 (Nat.leb_le _ _)) by lia. split_and!; [done..|lia].
Qed.
Lemma slot_not_due t s : (t < s.1)%nat →
  slot_at t s = None ∧ slot_at (S t) s = (if (S t =? s.1)%nat then Some s.2 else None) ∧
  polls_by t s = t ∧ polls_by (S t) s = S t.
Proof.
  intros Hs. unfold slot_at, polls_by. rewrite (proj2 (Nat.leb_gt _ _)) by lia.
  destruct (Nat.leb_spec s.1 (S t)), (Nat.eqb_spec (S t) s.1); try lia; split_and!; try done; lia.
Qed.

Lemma join_pass_run scs t cx pre :
  join_pass (scripted_from (length pre) scs) (map (slot_at t) scs) cx (pre ++ map (polls_by t) scs) =
    Some (map (slot_at (S t)) scs, pre ++ map (polls_by (S t)) scs, []).
Proof.
  revert pre. induction scs as [|s scs IH]; intros pre; [done|]. cbn [join_pass scripted_from map].
  assert (∀ n, join_pass (scripted_from (S (length pre)) scs) (map (slot_at t) scs) cx
    (pre ++ n :: map (polls_by t) scs) = Some (map (slot_at (S t)) scs, pre ++ n :: map (polls_by (S t)) scs, [])) as IH'.
  { intros n. specialize (IH (pre ++ [n])). rewrite length_app, Nat.add_1_r, <- !app_assoc in IH. exact IH. }
  destruct (Nat.le_gt_cases s.1 t) as [Hd|Hd].
  - destruct (slot_due t s Hd) as (-> & -> & ->).
    rewrite (bind_silent (ret _) _ _ _ _ eq_refl). by rewrite (bind_silent _ _ _ _ _ (IH' _)).
  - destruct (slot_not_due t s Hd) as (-> & -> & -> & ->).
    erewrite (bind_silent (bind _ _)); [|by rewrite (bind_silent _ _ _ _ _ (script_poll_run pre t _ s cx Hd))].
    rewrite (bind_silent _ _ _ _ _ (IH' _)). unfold ret. by destruct (S t =? s.1)%nat.
Qed.

(** [select_from] stops at the first branch due: the ones before it were
    polled once more, the ones after it were not. *)
Lemma select_from_run scs t cx pre :
  Forall (λ s, (t < s.1)%nat) scs →
  ∃ counts, select_from (length pre) (scripted_from (length pre) scs) cx (pre ++ map (polls_by t) scs) =
    Some (select_at (length pre) scs (S t), counts, []) ∧
    (select_at (length pre) scs (S t) = Pending →
       counts = pre ++ map (polls_by (S t)) scs ∧ Forall (λ s, (S t < s.1)%nat) scs).
Proof.
  intros Hs. revert pre. induction Hs as [|[k a] scs Hk Hs IH]; intros pre; [by eexists|].
  cbn [select_from scripted_from map select_at]. simpl in Hk.
  destruct (slot_not_due t (k, a) Hk) as (_ & _ & -> & ->).
  rewrite (bind_silent _ _ _ _ _ (script_poll_run pre t (map (polls_by t) scs) (k, a) cx Hk)).
  cbn [fst snd]. rewrite (Nat.eqb_sym k). destruct (Nat.eqb_spec (S t) k) as [->|Hne]; [by eexists|].
  destruct (IH (pre ++ [S t])) as (counts & E & Hp). rewrite length_app, Nat.add_1_r, <- !app_assoc in E, Hp.
  exists counts. split; [exact E|]. intros Hpend. destruct (Hp Hpend) as [-> ?]. split; [done|]. constructor; [simpl; lia|done].
Qed.

Lemma slots_full scs t :
  mapM id (map (slot_at t) scs) = match join_at scs t with Ready l => Some l | Pending => None end.
Proof.
  unfold join_at. induction scs as [|[k a] scs IH]; [done|]. cbn [map mapM forallb]. rewrite IH.
  unfold slot_at. cbn [fst snd id]. destruct (k <=? t)%nat; [|done]. simpl.
  by destruct (forallb _ scs).
Qed.
End passes.

Section try_passes.
Context {A E : Type}.
Implicit Types (scs : list (nat * result A E)) (s : nat * result A E) (t : nat).

Definition ok_slot_at t s : option A := if (s.1 <=? t)%nat then ok_value s else None.

(** No error was due by [t]. *)
Definition no_error_by t s : Prop := (s.1 ≤ t)%nat → ∃ v, s.2 = Ok v.

(** One slot of the pass. *)
Lemma try_slot_run t s cx pre post :
  no_error_by t s →
  (match ok_slot_at t s with
   | Some v => ret (Ok (Some v))
   | None =>
       let! r := script_poll (length pre) s cx in
       ret (match r with Ready (Ok v) => Ok (Some v) | Ready (Err e) => Err e | Pending => Ok None end)
   end : M (list nat) (result (option A) E)) (pre ++ polls_by t s :: post) =
  Some (match s.2 with
        | Ok _ => Ok (ok_slot_at (S t) s)
        | Err e => if (s.1 =? S t)%nat then Err e else Ok None
        end, pre ++ polls_by (S t) s :: post, []).
Proof.
  destruct s as [k x]. intros Hk. destruct (Nat.le_gt_cases k t) as [Hd|Hd].
  - destruct (Hk Hd) as (v & Hv). simpl in Hv. subst x. destruct (slot_due t (k, Ok v : result A E) Hd) as (_ & _ & ->).
    unfold ok_slot_at. cbn [fst snd]. by rewrite !(proj2 (Nat.leb_le _ _)) by lia.
  - destruct (slot_not_due t (k, x) Hd) as (_ & _ & -> & ->). unfold ok_slot_at. cbn [fst snd].
    rewrite (proj2 (Nat.leb_gt _ _) Hd). rewrite (bind_silent _ _ _ _ _ (script_poll_run pre t post (k, x) cx Hd)).
    cbn [fst snd]. rewrite (Nat.eqb_sym k). unfold ret. destruct (Nat.eqb_spec (S t) k) as [<-|Hne].
    + rewrite Nat.leb_refl. by destruct x.
    + rewrite (proj2 (Nat.leb_gt k (S t))) by lia. by destruct x.
Qed.

Lemma no_error_later t k x : no_error_by t (k, x) → (match x with Ok _ => True | Err _ => k ≠ S t end) → no_error_by (S t) (k, x).
Proof.
  intros Hk Hx Hle. simpl in *. destruct x as [v|e]; [by exists v|]. destruct (Hk ltac:(simpl; lia)) as (v & [=]).
Qed.

Lemma try_join_pass_run scs t cx pre :
  Forall (no_error_by t) scs →
  ∃ counts, try_join_pass (scripted_from (length pre) scs) (map (ok_slot_at t) scs) cx (pre ++ map (polls_by t) scs) =
    Some (match error_at scs (S t) with Some e => Err e | None => Ok (map (ok_slot_at (S t)) scs) end, counts, []) ∧
    (error_at scs (S t) = None → counts = pre ++ map (polls_by (S t)) scs ∧ Forall (no_error_by (S t)) scs).
Proof.
  intros Hs. revert pre. induction Hs as [|[k x] scs Hk Hs IH]; intros pre; [by eexists|].
  cbn [try_join_pass scripted_from map error_at].
  rewrite (bind_silent _ _ _ _ _ (try_slot_run t (k, x) cx pre (map (polls_by t) scs) Hk)). cbn [fst snd].
  destruct (IH (pre ++ [polls_by (S t) (k, x)])) as (counts & He & Hn).
  rewrite length_app, Nat.add_1_r, <- !app_assoc in He. rewrite <- !app_assoc in Hn.
  destruct x as [v|e]; [|destruct (Nat.eqb_spec k (S t)) as [->|Hne]; [by eexists|]];
    exists counts; rewrite (bind_silent _ _ _ _ _ He).
  - split; [by destruct (error_at scs (S t))|]. intros Hno. destruct (Hn Hno) as [-> ?]. split; [done|].
    constructor; [by apply no_error_later|done].
  - split.
    + assert (ok_slot_at (S t) (k, Err e) = None) as -> by (unfold ok_slot_at; simpl; by destruct (_ <=? _)%nat).
      by destruct (error_at scs (S t)).
    + intros Hno. destruct (Hn Hno) as [-> ?]. split; [done|]. constructor; [by apply no_error_later|done].
Qed.

Lemma ok_slots_full scs t : Forall (no_error_by t) scs →
  mapM id (map (ok_slot_at t) scs) = if forallb (λ s, s.1 <=? t)%nat scs then Some (omap ok_value scs) else None.
Proof.
  induction 1 as [|[k x] scs Hk Hs IH]; [done|]. cbn [map mapM forallb]. rewrite IH.
  unfold ok_slot_at. cbn [fst id]. destruct (Nat.leb_spec k t) as [Hle|]; [|done].
  destruct (Hk Hle) as (v & Hv). simpl in Hv. subst x. simpl. by destruct (forallb _ scs).
Qed.
End try_passes.

Definition due_later {A} (s : nat * A) : Prop := (1 ≤ s.1)%nat.

Lemma start_slots {A B} (scs : list (nat * A)) (slot : nat * A → option B) (fs : list (future (S := list nat) A)) :
  length fs = length scs → Forall (λ s, slot s = None) scs → map (λ _, None) fs = map slot scs.
Proof.
  intros Hl Hs. revert fs Hl. induction Hs as [|s scs Hn Hs IH]; intros [|f fs] Hl; simplify_eq/=; [done|].
  rewrite Hn. f_equal. by apply IH.
Qed.

Lemma scripted_length {A} j (scs : list (nat * A)) : length (scripted_from j scs) = length scs.
Proof. revert j. induction scs as [|s scs IH]; intros j; simpl; [done|by rewrite IH]. Qed.

Lemma unpolled_start {A} (scs : list (nat * A)) : unpolled scs = map (polls_by 0) scs.
Proof. done. Qed.

(** The macros answer as they should.  Each future resolving at whichever poll
    it likes: [select!] resolves at the first poll at which some branch is
    due, with the first such branch in the order written; [join!] at the first
    poll by which all are due, with all the outputs in order; [try_join!] at
    the first poll at which an error is due, with the first such error in
    order, or like [join!] when none is by then.  Up to there the macro is
    pending, and no future is ever polled again after it has resolved. *)
Theorem macros_exact {A B E} (scs : list (nat * A)) (rscs : list (nat * result B E)) polls :
  Forall due_later scs → Forall due_later rscs →
  let n := length polls in
  (∃ st s, run_polls (select (scripted scs)) polls tt (unpolled scs) =
     Some ((first_ready (select_at 0 scs) 0 n, st), s, [])) ∧
  (∃ st s, run_polls (join (scripted scs)) polls (join_start (scripted scs)) (unpolled scs) =
     Some ((first_ready (join_at scs) 0 n, st), s, [])) ∧
  (∃ st s, run_polls (try_join (scripted rscs)) polls (map (λ _, None) (scripted rscs)) (unpolled rscs) =
     Some ((first_ready (try_join_at rscs) 0 n, st), s, [])).
Proof.
  intros Hs Hr n. rewrite !unpolled_start. split; [|split].
  - apply (run_polls_answer _ _ (λ t _ s, s = map (polls_by t) scs ∧ Forall (λ s, (t < s.1)%nat) scs)); [|by split].
    intros t cx [] s [-> Hl]. destruct (select_from_run scs t cx [] Hl) as (counts & He & Hn).
    exists tt, counts. split; [unfold select; by rewrite (bind_silent _ _ _ _ _ He)|done].
  - apply (run_polls_answer _ _ (λ t st s, st = map (slot_at t) scs ∧ s = map (polls_by t) scs)).
    + intros t cx st s [-> ->]. unfold join. rewrite (bind_silent _ _ _ _ _ (join_pass_run scs t cx [])), slots_full.
      destruct (join_at scs (S t)); by do 2 eexists.
    + split; [|done]. apply start_slots; [apply scripted_length|]. eapply Forall_impl; [exact Hs|].
      intros s Hk. unfold slot_at, due_later in *. by rewrite (proj2 (Nat.leb_gt _ _)) by lia.
  - apply (run_polls_answer _ _ (λ t st s, st = map (ok_slot_at t) rscs ∧ s = map (polls_by t) rscs ∧ Forall (no_error_by t) rscs)).
    + intros t cx st s (-> & -> & Hno). unfold try_join, try_join_at.
      destruct (try_join_pass_run rscs t cx [] Hno) as (counts & He & Hn). rewrite (bind_silent _ _ _ _ _ He).
      destruct (error_at rscs (S t)) as [e|]; [by do 2 eexists|]. destruct (Hn eq_refl) as [-> Hno'].
      rewrite ok_slots_full by done. destruct (forallb _ rscs); by do 2 eexists.
    + split_and!; [|done|].
      * apply start_slots; [apply scripted_length|]. eapply Forall_impl; [exact Hr|].
        intros s Hk. unfold ok_slot_at, due_later in *. by rewrite (proj2 (Nat.leb_gt _ _)) by lia.
      * eapply Forall_impl; [exact Hr|]. intros s Hk Hle. unfold due_later in *. lia.
Qed.

Lemma macros_exact_witness :
  let scs := [(3%nat, true); (2%nat, false); (2%nat, true)] in
  let rscs := [(1%nat, Ok 7); (3%nat, Err 8); (4%nat, Err 9)] in
  Forall due_later scs ∧ Forall due_later rscs ∧
  (∃ st s, run_polls (select (scripted scs)) (repeat 0%nat 5) tt (unpolled scs) = Some ((Ready (1%nat, false), st), s, [])) ∧
  (∃ st s, run_polls (try_join (scripted rscs)) (repeat 0%nat 5) [None; None; None] (unpolled rscs) =
     Some ((Ready (Err 8), st), s, [])).
Proof.
  intros scs rscs. assert (Forall due_later scs) as Hs by (repeat constructor).
  assert (Forall due_later rscs) as Hr by (repeat constructor).
  destruct (macros_exact scs rscs (repeat 0%nat 5) Hs Hr) as (Hsel & _ & Htry).
  split; [exact Hs|]. split; [exact Hr|]. split; [exact Hsel|exact Htry].
Defined.
