(* ===== verification/Local.v ===== *)
(** Local tasks ([src/src/task/local.rs]).

    [LocalTask::run] repeats [Task::run] on one thread, with a [RefCell] for
    the [Mutex] and without the count of finished tasks; wakers and aborts
    still come from any thread.  The model runs it next to the same wakers and
    aborters as [Task] does, and adds what is special here: which operating
    system thread does what, and who holds the [Arc] that the future lives
    in. *)

From S2P Require Import Prelude TaskState Task.

(** ** [LocalTask]

    Its fields are those of [Task] but [task_finished], which no step here
    touches. *)

Inductive local_pc :=
| L_begin (p : begin_poll_pc)
| L_unpolled_take
| L_unpolled_fire
| L_unpolled_return
| L_check_aborted
| L_aborted_take
| L_take_slot
| L_poll
| L_put_back
| L_drop_panicked
| L_end (k : ending) (p : end_poll_pc)
| L_fire (o : Outcome)
| L_take_hook
| L_return_finished
| L_schedule
| L_return
| L_panicked.

Definition local_after_end (k : ending) (woken : bool) : local_pc :=
  match k with
  | end_aborted => L_fire Aborted
  | end_ready => L_take_hook
  | end_pending => if woken then L_schedule else L_return
  | end_panicked => L_fire PanickedWith
  end.

(** [LocalTask::run], one access at a time. *)
Definition local_run_step `{BuildProfile} (a : poll_answer) (p : local_pc) (t : Task) : Task * local_pc :=
  match p with
  | L_begin b =>
      match begin_poll_step b t.(state) with
      | (s, Continue b') => (set_state t s, L_begin b')
      | (s, Return true) => (set_state t s, L_check_aborted)
      | (s, Return false) => (set_state t s, L_unpolled_take)
      | (s, Panicked) => (set_state t s, L_panicked)
      end
  | L_unpolled_take => (set_future t false, L_unpolled_fire)
  | L_unpolled_fire => (fire_abnormal_hook Aborted t, L_unpolled_return)
  | L_check_aborted => (t, if is_aborted t.(state) then L_aborted_take else L_take_slot)
  | L_aborted_take => (set_future t false, L_end end_aborted (end_poll true))
  | L_take_slot =>
      if t.(future) then (set_future t false, L_poll)
      else (t, L_end end_aborted (end_poll true))
  | L_poll =>
      match a with
      | polled_ready => (notify_join t Completed, L_end end_ready (end_poll true))
      | polled_pending => (t, L_put_back)
      | polled_panic => (t, L_drop_panicked)
      end
  | L_put_back => (set_future t true, L_end end_pending (end_poll false))
  | L_drop_panicked => (set_future t false, L_end end_panicked (end_poll true))
  | L_end k e =>
      match end_poll_step e t.(state) with
      | (s, Continue e') => (set_state t s, L_end k e')
      | (s, Return woken) => (set_state t s, local_after_end k woken)
      | (s, Panicked) => (set_state t s, L_panicked)
      end
  | L_fire o => (fire_abnormal_hook o t, L_return_finished)
  | L_take_hook => (take_abnormal_hook t, L_return_finished)
  | L_schedule => (schedule t, L_return)
  | L_unpolled_return | L_return_finished | L_return | L_panicked => (t, p)
  end.

(** ** A [LocalSet], one of its tasks, and the threads around them *)

Inductive local_thread :=
| LT_run (p : local_pc)
| LT_wake (p : wake_by_ref_pc)
| LT_abort (p : abort_pc).

Definition local_thread_step `{BuildProfile} (a : poll_answer) (th : local_thread) (t : Task)
    : Task * local_thread :=
  match th with
  | LT_run p => let '(t', p') := local_run_step a p t in (t', LT_run p')
  | LT_wake p => let '(t', p') := wake_by_ref_step p t in (t', LT_wake p')
  | LT_abort p => let '(t', p') := abort_step p t in (t', LT_abort p')
  end.

(** [owner_thread], with the thread that asks: [None] is the panic of the
    assertion. *)
Definition bind_or_check_thread (current : nat) (owner : option nat) : option (option nat) :=
  match owner with
  | Some o => if (o =? current)%nat then Some owner else None
  | None => Some (Some current)
  end.

(** [refs]: the threads on which a handle or a waker, each an [Arc] of the
    task, lives; [freed]: the thread that dropped the last [Arc] with the
    future still in its slot, and so dropped the future. *)
Record local_config := mkLocal {
  ltask : option Task;
  lthreads : list (nat * local_thread);
  lowed : bool;
  owner : option nat;
  refs : list nat;
  freed : option nat;
}.

Definition local_owed_after (th th' : local_thread) (owed : bool) : bool :=
  match th, th' with
  | LT_wake (w_wake _), LT_wake (w_schedule | w_return) => true
  | LT_abort (a_request (ra_wake _)), LT_abort (a_schedule | a_return) => true
  | LT_run (L_begin _), LT_run (L_check_aborted | L_unpolled_take) => false
  | _, _ => owed
  end.

(** [run], [wake] and [abort] hold an [Arc] of their own until they return. *)
Definition returned (x : nat * local_thread) : bool :=
  match x.2 with
  | LT_run (L_unpolled_return | L_return_finished | L_return | L_panicked) => true
  | LT_wake w_return | LT_abort a_return => true
  | _ => false
  end.

(** The owners of the task let go of an [Arc] on thread [os], with [ths] and
    [rs] left: whether that was the last one, with the future unfinished. *)
Definition drop_arc (os : nat) (t : Task) (ths : list (nat * local_thread)) (rs : list nat)
    (freed : option nat) : option nat :=
  match freed with
  | Some _ => freed
  | None =>
      if bool_decide (rs = []) && forallb returned ths && (queue_len t =? 0)%nat && t.(future)
      then Some os else None
  end.

Section steps.
Context `{BuildProfile}.

Inductive local_step : relation local_config :=
(** [enter], [run_until] and [spawn_local] of other tasks bind the set. *)
| ls_enter c os o :
    bind_or_check_thread os c.(owner) = Some o →
    local_step c (mkLocal c.(ltask) c.(lthreads) c.(lowed) o c.(refs) c.(freed))
(** [spawn_local] of the task followed here, whose handle is the first
    reference. *)
| ls_spawn c os o :
    c.(ltask) = None → bind_or_check_thread os c.(owner) = Some o →
    local_step c (mkLocal (Some spawn_named) c.(lthreads) c.(lowed) o [os] c.(freed))
| ls_thread c t l1 os th l2 a t' th' :
    c.(ltask) = Some t → c.(lthreads) = l1 ++ (os, th) :: l2 →
    local_thread_step a th t = (t', th') →
    local_step c (mkLocal (Some t') (l1 ++ (os, th') :: l2) (local_owed_after th th' c.(lowed))
      c.(owner) c.(refs) (drop_arc os t' (l1 ++ (os, th') :: l2) c.(refs) c.(freed)))
(** The loop of [run_until] on thread [os] pops the task. *)
| ls_dequeue c t os o n :
    c.(ltask) = Some t → bind_or_check_thread os c.(owner) = Some o → t.(scheduler) = Some (S n) →
    local_step c (mkLocal (Some (set_scheduler t (Some n))) (c.(lthreads) ++ [(os, LT_run (L_begin bp_load))])
      c.(lowed) o c.(refs) c.(freed))
(** [poll] cloned the task's waker, or a waker or an [AbortHandle] is cloned. *)
| ls_waker c os :
    (os, LT_run L_poll) ∈ c.(lthreads) ∨ os ∈ c.(refs) →
    local_step c (mkLocal c.(ltask) c.(lthreads) c.(lowed) c.(owner) (os :: c.(refs)) c.(freed))
(** A waker or a handle is used, sent to another thread, dropped. *)
| ls_wake c t os :
    c.(ltask) = Some t → os ∈ c.(refs) →
    local_step c (mkLocal c.(ltask) (c.(lthreads) ++ [(os, LT_wake (w_wake wk_load))]) c.(lowed) c.(owner) c.(refs) c.(freed))
| ls_abort c t os :
    c.(ltask) = Some t → os ∈ c.(refs) →
    local_step c (mkLocal c.(ltask) (c.(lthreads) ++ [(os, LT_abort (a_request ra_or))]) c.(lowed) c.(owner) c.(refs) c.(freed))
| ls_send c l1 os os' l2 :
    c.(refs) = l1 ++ os :: l2 →
    local_step c (mkLocal c.(ltask) c.(lthreads) c.(lowed) c.(owner) (l1 ++ os' :: l2) c.(freed))
| ls_drop_ref c t l1 os l2 :
    c.(ltask) = Some t → c.(refs) = l1 ++ os :: l2 →
    local_step c (mkLocal c.(ltask) c.(lthreads) c.(lowed) c.(owner) (l1 ++ l2)
      (drop_arc os t c.(lthreads) (l1 ++ l2) c.(freed)))
(** The [LocalSet] is dropped by its thread, its queue with it. *)
| ls_drop_set c t os :
    c.(ltask) = Some t → c.(owner) = Some os →
    local_step c (mkLocal (Some (set_scheduler t None)) c.(lthreads) c.(lowed) c.(owner) c.(refs)
      (drop_arc os (set_scheduler t None) c.(lthreads) c.(refs) c.(freed))).

Definition local_init : local_config := mkLocal None [] false None [] None.
Definition local_reachable : local_config → Prop := reachable (.= local_init) local_step.

(** ** A local task is a task *)

(** [run] returned where [Task::run] goes on to count the end. *)
Definition as_run_pc (p : local_pc) : run_pc :=
  match p with
  | L_begin b => r_begin b
  | L_unpolled_take => r_unpolled_take
  | L_unpolled_fire => r_unpolled_fire
  | L_unpolled_return => r_unpolled_mark
  | L_check_aborted => r_check_aborted
  | L_aborted_take => r_aborted_take
  | L_take_slot => r_take_slot
  | L_poll => r_poll
  | L_put_back => r_put_back
  | L_drop_panicked => r_drop_panicked
  | L_end k e => r_end k e
  | L_fire o => r_fire o
  | L_take_hook => r_take_hook
  | L_return_finished => r_mark
  | L_schedule => r_schedule
  | L_return => r_return
  | L_panicked => r_panicked
  end.
Definition as_thread (x : nat * local_thread) : thread :=
  match x.2 with
  | LT_run p => T_run (as_run_pc p)
  | LT_wake p => T_wake p
  | LT_abort p => T_abort p
  end.
Definition as_config (c : local_config) : config :=
  mkConfig (default spawn_named c.(ltask)) (map as_thread c.(lthreads)) c.(lowed).

(** [run] has not returned. *)
Definition in_run (p : local_pc) : bool :=
  match p with L_unpolled_return | L_return_finished | L_return | L_panicked => false | _ => true end.

Lemma local_run_step_task a p t t' p' :
  in_run p = true → local_run_step a p t = (t', p') → run_step a (as_run_pc p) t = (t', as_run_pc p').
Proof.
  destruct p; try done; intros _; simpl.
  all: try (by intros [= <- <-]).
  - destruct (begin_poll_step p (state t)) as [s [|[]|]]; by intros [= <- <-].
  - intros [= <- <-]. by destruct (is_aborted _).
  - destruct (future t); by intros [= <- <-].
  - destruct a; by intros [= <- <-].
  - destruct (end_poll_step p (state t)) as [s [|w|]]; intros [= <- <-]; [done| |done]. by destruct k, w.
Qed.

Lemma local_run_step_returned a p t t' p' :
  in_run p = false → local_run_step a p t = (t', p') → t' = t ∧ p' = p.
Proof. destruct p; try done; intros _; by intros [= <- <-]. Qed.

Lemma bind_or_check_owner os o o' :
  bind_or_check_thread os o = Some o' → o' = Some os ∧ (∀ os', o = Some os' → os' = os).
Proof.
  unfold bind_or_check_thread. destruct o as [x|]; [destruct (Nat.eqb_spec x os)|];
    intros; simplify_eq; split; congruence.
Qed.

(** A step of a local thread is a step of the [Task] thread it stands for, or
    none at all. *)
Lemma local_thread_simulated a os th t t' th' o :
  local_thread_step a th t = (t', th') →
  (thread_step a (as_thread (os, th)) t = (t', as_thread (os, th')) ∧
   local_owed_after th th' o = owed_after (as_thread (os, th)) (as_thread (os, th')) o) ∨
  (t' = t ∧ th' = th ∧ local_owed_after th th' o = o).
Proof.
  destruct th as [p|p|p]; simpl.
  - destruct (local_run_step a p t) as [t1 p1] eqn:E. intros [= <- <-].
    destruct (in_run p) eqn:Hp.
    + left. cbn [as_thread snd thread_step]. rewrite (local_run_step_task _ _ _ _ _ Hp E).
      split; [done|]. by destruct p, p1.
    + right. destruct (local_run_step_returned _ _ _ _ _ Hp E) as [-> ->]. by destruct p.
  - destruct (wake_by_ref_step p t) as [t1 p1] eqn:E. intros [= <- <-]. left.
    done.
  - destruct (abort_step p t) as [t1 p1] eqn:E. intros [= <- <-]. left.
    done.
Qed.

Record local_Inv (c : local_config) : Prop := {
  li_unborn : c.(ltask) = None → c.(lthreads) = [] ∧ c.(lowed) = false ∧ c.(refs) = [];
  li_bound : ∀ os p, (os, LT_run p) ∈ c.(lthreads) → c.(owner) = Some os;
  li_task : run_reachable (as_config c);
}.

Lemma local_thread_step_run a th t t' p' :
  local_thread_step a th t = (t', LT_run p') → ∃ p, th = LT_run p.
Proof. destruct th; simpl; repeat case_match; intros; simplify_eq; eauto. Qed.

(** A new thread leaves the bound as it is, unless it runs the task. *)
Lemma bound_snoc (l : list (nat * local_thread)) os th o :
  (∀ os' p, (os', LT_run p) ∈ l → o = Some os') →
  (∀ p, th = LT_run p → o = Some os) →
  ∀ os' p, (os', LT_run p) ∈ l ++ [(os, th)] → o = Some os'.
Proof. intros Hl Hth os' p [?|Hin]%elem_of_app; [by eapply Hl|]. set_solver. Qed.

Lemma local_step_unborn c c' :
  local_Inv c → local_step c c' →
  c'.(ltask) = None → c'.(lthreads) = [] ∧ c'.(lowed) = false ∧ c'.(refs) = [].
Proof.
  intros [Hu _ _] Hs Hn; destruct Hs; simpl in *; try congruence; destruct (Hu Hn) as (Ht & Ho & Hrf);
    rewrite ?Ht, ?Hrf in *; try done;
    match goal with
    | H : _ ∨ _ |- _ => by destruct H as [?%elem_of_nil|?%elem_of_nil]
    | H : [] = ?l ++ _ |- _ => by destruct l
    end.
Qed.

Lemma local_step_bound c c' :
  local_Inv c → local_step c c' →
  ∀ os p, (os, LT_run p) ∈ c'.(lthreads) → c'.(owner) = Some os.
Proof.
  intros [Hu Hb _] Hs; destruct Hs; simpl; try done.
  - match goal with H : bind_or_check_thread _ _ = _ |- _ =>
      apply bind_or_check_owner in H as [-> Ho] end.
    intros os' p Hin. f_equal. symmetry. apply Ho. by eapply Hb.
  - destruct (Hu ltac:(done)) as (-> & _ & _). set_solver.
  - match goal with H : lthreads c = _ |- _ => rewrite H in Hb end.
    intros os' p Hin. apply elem_of_app in Hin as [Hin|[Heq|Hin]%elem_of_cons].
    + apply (Hb os' p). set_solver.
    + simplify_eq. match goal with H : local_thread_step _ _ _ = _ |- _ =>
        apply local_thread_step_run in H as [p0 ->] end.
      apply (Hb os p0). set_solver.
    + apply (Hb os' p). set_solver.
  - match goal with H : bind_or_check_thread _ _ = _ |- _ =>
      apply bind_or_check_owner in H as [-> Ho] end.
    apply bound_snoc; [|done]. intros os' p Hin. f_equal. symmetry. apply Ho. by eapply Hb.
  - by apply bound_snoc.
  - by apply bound_snoc.
Qed.

(** The same configuration of the task, as [Task] sees it. *)
Lemma local_step_task c c' :
  local_Inv c → local_step c c' → as_config c' = as_config c ∨ step (as_config c) (as_config c').
Proof.
  intros [Hu _ _] Hs. destruct Hs; unfold as_config; simpl; try (by left).
  - left. match goal with H : ltask c = None |- _ => by rewrite H end.
  - match goal with H : ltask c = _, H1 : lthreads c = _, H2 : local_thread_step _ _ _ = _ |- _ =>
      rewrite H, H1; simpl; destruct (local_thread_simulated _ os _ _ _ _ (lowed c) H2)
        as [[Hst ->]|(-> & -> & ->)] end; [right|left; by rewrite !map_app].
    rewrite !map_app. simpl.
    match goal with |- step ?c1 (mkConfig _ (?l ++ ?x :: ?r) _) =>
      pose proof (step_thread (length l) (as_thread (os, th)) a c1 t' x) as Hst' end.
    simpl in Hst'. rewrite insert_app_r_alt, Nat.sub_diag in Hst' by done.
    apply Hst'; [by rewrite list_lookup_middle|done].
  - right. match goal with H : ltask c = _ |- _ => rewrite H end. rewrite map_app.
    by apply (step_dequeue (mkConfig _ _ _) n).
  - right. rewrite map_app. apply (step_wake (mkConfig _ _ _)).
  - right. rewrite map_app. apply (step_abort (mkConfig _ _ _)).
  - right. match goal with H : ltask c = _ |- _ => rewrite H end.
    apply (step_drop_scheduler (mkConfig _ _ _)).
Qed.

Lemma local_reachable_Inv c : local_reachable c → local_Inv c.
Proof.
  apply invariant_reachable.
  - intros ? ->. split; [done|set_solver|]. by apply reachable_init.
  - intros c1 c2 HI Hs. split; [by eapply local_step_unborn|by eapply local_step_bound|].
    destruct (local_step_task _ _ HI Hs) as [->|Hs']; [apply HI|].
    eapply reachable_step; [apply HI|done].
Qed.

(** [LocalTask] refines [Task]: whatever wakers, aborts and handles on any
    threads do, a [LocalSet]'s task goes through states a scheduler's task can
    go through; it has at most one queue entry and at most one call of [run]
    inside it; and every call of [run] is on the thread that owns the set, so
    the [RefCell]s and the [!Send] future inside a poll stay on that thread. *)
Theorem local_task_refines c :
  local_reachable c →
  (c.(ltask) ≠ None → run_reachable (as_config c)) ∧
  (∀ os p, (os, LT_run p) ∈ c.(lthreads) → c.(owner) = Some os) ∧
  (queue_len (as_config c).(task) ≤ 1)%nat ∧
  (count (holds running) (map as_thread c.(lthreads)) ≤ 1)%nat.
Proof.
  intros [_ Hb Hr]%local_reachable_Inv. pose proof (reachable_Inv _ Hr) as HI.
  split_and!; [done|exact Hb| |].
  - pose proof (inv_queue_le _ HI). destruct (has _ QUEUED); simpl in *; lia.
  - change (map as_thread (lthreads c)) with (as_config c).(threads).
    rewrite (inv_running _ HI). by destruct (has _ RUNNING); simpl; lia.
Qed.

(** What the argument at [unsafe impl Send for LocalTask] leaves out: the last
    reference may go on another thread, with the future still inside. *)
Lemma local_future_freed_elsewhere :
  ∃ c, local_reachable c ∧ c.(owner) = Some 0%nat ∧ c.(freed) = Some 1%nat.
Proof.
  assert (H0 : local_reachable local_init) by (by apply reachable_init).
  pose proof (reachable_step _ _ _ _ H0 ltac:(eapply (ls_spawn local_init 0%nat _); reflexivity)) as H1.
  pose proof (reachable_step _ _ _ _ H1 ltac:(eapply (ls_send _ [] 0%nat 1%nat []); reflexivity)) as H2.
  pose proof (reachable_step _ _ _ _ H2 ltac:(eapply (ls_drop_set _ _ 0%nat); reflexivity)) as H3.
  pose proof (reachable_step _ _ _ _ H3 ltac:(eapply (ls_drop_ref _ _ [] 1%nat []); reflexivity)) as H4.
  by eexists.
Qed.
End steps.

(** A wake from a second thread during the poll on the first one. *)
Lemma local_task_refines_witness :
  ∃ c, @local_reachable dev_profile c ∧ (c.(lthreads) ≠ []) ∧
    (@run_reachable dev_profile (as_config c)) ∧ (queue_len (as_config c).(task) ≤ 1)%nat.
Proof.
  assert (∃ c, @local_reachable dev_profile c ∧ c.(lthreads) ≠ [] ∧ c.(ltask) ≠ None)
    as (c & Hc & Hl & Ht).
  { assert (H0 : @local_reachable dev_profile local_init) by (by apply reachable_init).
    pose proof (reachable_step _ _ _ _ H0 ltac:(eapply (ls_spawn local_init 0%nat _); reflexivity)) as H1.
    pose proof (reachable_step _ _ _ _ H1 ltac:(eapply (ls_dequeue _ _ 0%nat _ _); reflexivity)) as H2.
    pose proof (reachable_step _ _ _ _ H2 ltac:(eapply (ls_send _ [] 0%nat 1%nat []); reflexivity)) as H3.
    pose proof (reachable_step _ _ _ _ H3 ltac:(eapply (ls_wake _ _ 1%nat); [reflexivity|apply list_elem_of_here])) as H4.
    by eexists. }
  destruct (local_task_refines c Hc) as (Hr & _ & Hq & _).
  exists c. split_and!; [done|done|by apply Hr|done].
Defined.
