(* ===== verification/TaskLocal.v ===== *)
(** Task-local values ([src/src/task/local_key.rs]).

    A [LocalKey] is one thread-local cell; the model keeps that cell for every
    operating system thread and lets any number of [TaskLocalFuture]s be
    polled on any of them in any order.  What the user's futures do in a poll
    is a parameter. *)

From S2P Require Import Prelude.

(** How a call ended: normally, or by unwinding. *)
Inductive polled (B : Type) :=
| Pending
| Ready (b : B)
| Unwound.
Arguments Pending {B}.
Arguments Ready {B} _.
Arguments Unwound {B}.

Section local_key.
Context {T : Type}.

(** [LocalKey::try_with]; [None] is [AccessError].  The closure runs while the
    thread's cell is borrowed. *)
Definition try_with {R} (f : T → R) (cell : option T) : option R := f <$> cell.

(** [LocalKey::with]. *)
Definition with_ {R} (f : T → R) (cell : option T) : polled R :=
  match try_with f cell with Some r => Ready r | None => Unwound end.

(** [LocalKey::sync_scope]: the guard restores on return and on unwinding.
    [borrowed]: it is called from inside a [with] of this key, whose borrow of
    the cell makes [borrow_mut] panic. *)
Definition sync_scope {R} (borrowed : bool) (value : T) (f : option T → option T * polled R) (cell : option T)
    : option T * polled R :=
  if borrowed then (cell, Unwound) else
  let previous := cell in
  let '(_, r) := f (Some value) in
  (previous, r).

Record TaskLocalFuture (F : Type) := mkScope {
  slot : option T;
  inner : F;
}.
Arguments mkScope {F} _ _.
Arguments slot {F} _.
Arguments inner {F} _.

(** [LocalKey::scope]. *)
Definition scope {F} (value : T) (future : F) : TaskLocalFuture F := mkScope (Some value) future.

(** A poll of a future on a thread: from what the rest of the program gives it
    ([E]), its state and the cell of the thread it runs on. *)
Definition poll_fn (E F B : Type) : Type := E → F → option T → F * option T * polled B.

Section scoped.
Context {E F B : Type} (poll : poll_fn E F B).

(** [TaskLocalFuture::poll].  With the cell borrowed, [borrow_mut] panics and
    the value, already taken out of its slot, is gone. *)
Definition scope_poll : poll_fn (bool * E) (TaskLocalFuture F) B := λ '(borrowed, e) this cell,
  match this.(slot) with
  | None => (this, cell, Unwound)
  | Some value =>
      if (borrowed : bool) then (mkScope None this.(inner), cell, Unwound) else
      let previous := cell in
      let '(future, cell, result) := poll e this.(inner) (Some value) in
      let current := cell in
      let cell := previous in
      match result with
      | Pending => (mkScope current future, cell, Pending)
      | Ready v => (mkScope None future, cell, Ready v)
      | Unwound => (mkScope None future, cell, Unwound)
      end
  end.

(** What code can do to a cell it can only reach through the methods above. *)
Class Restores : Prop :=
  restores : ∀ e f cell, (poll e f cell).1.2 = cell.
End scoped.

(** A scope leaves the cell as it was even around a future that does not, so
    scopes nest. *)
#[export] Instance scope_restores {E F B} (poll : poll_fn E F B) : Restores (scope_poll poll).
Proof.
  intros [[] e] [[v|] f] cell; try done. unfold scope_poll; simpl.
  destruct (poll e f (Some v)) as [[f' c'] [| |]]; done.
Qed.

Lemma sync_scope_restores {R} b v (f : option T → option T * polled R) cell :
  (sync_scope b v f cell).1 = cell.
Proof. unfold sync_scope. destruct b; [done|]. by destruct (f (Some v)). Qed.

(** ** Many scopes on many threads *)

Section interleaved.
Context {E F B : Type} (poll : poll_fn E F B) `{!Restores poll}.

(** One entry of a schedule: which future is polled, on which thread, whether
    from inside a [with] of the key, and what the rest of the program gives that
    poll. *)
Record turn := mkTurn { future_no : nat; os_thread : nat; within : bool; given : E }.

Definition set_cell (os : nat) (o : option T) (cells : gmap nat T) : gmap nat T :=
  partial_alter (λ _, o) os cells.

Definition poll_turn (x : turn) (futures : list (TaskLocalFuture F)) (cells : gmap nat T)
    : list (TaskLocalFuture F) * gmap nat T * list (nat * polled B) :=
  match futures !! x.(future_no) with
  | None => (futures, cells, [])
  | Some tf =>
      let '(tf', cell, r) := scope_poll poll (x.(within), x.(given)) tf (cells !! x.(os_thread)) in
      (<[x.(future_no) := tf']> futures, set_cell x.(os_thread) cell cells, [(x.(future_no), r)])
  end.

Fixpoint poll_turns (xs : list turn) (futures : list (TaskLocalFuture F)) (cells : gmap nat T)
    : list (TaskLocalFuture F) * gmap nat T * list (nat * polled B) :=
  match xs with
  | [] => (futures, cells, [])
  | x :: xs =>
      let '(futures, cells, l) := poll_turn x futures cells in
      let '(futures, cells, l') := poll_turns xs futures cells in
      (futures, cells, l ++ l')
  end.

(** The reference: the future alone, with a constant in place of the cell; a
    poll from inside a [with] ends it. *)
Fixpoint poll_alone (v : option T) (f : F) (es : list (bool * E))
    : TaskLocalFuture F * list (polled B) :=
  match v, es with
  | _, [] => (mkScope v f, [])
  | None, _ => (mkScope None f, map (λ _, Unwound) es)
  | Some _, (true, _) :: es => (mkScope None f, Unwound :: map (λ _, Unwound) es)
  | Some _, (false, e) :: es =>
      let '(f', _, r) := poll e f v in
      let '(tf, rs) := poll_alone (match r with Pending => v | _ => None end) f' es in
      (tf, r :: rs)
  end.

(** What the schedule gives future [i], and what that future's polls gave. *)
Definition given_to (i : nat) (xs : list turn) : list (bool * E) :=
  (λ x, (x.(within), x.(given))) <$> filter (λ x, x.(future_no) = i) xs.
Definition results_of (i : nat) (l : list (nat * polled B)) : list (polled B) :=
  snd <$> filter (λ y, y.1 = i) l.

Lemma set_cell_same os (cells : gmap nat T) : set_cell os (cells !! os) cells = cells.
Proof. apply partial_alter_self. Qed.

(** One poll through a scope is one poll alone. *)
Lemma poll_alone_cons e tf cell es :
  poll_alone tf.(slot) tf.(inner) (e :: es) =
    (let '(tf', _, r) := scope_poll poll e tf cell in
     let '(tf'', rs) := poll_alone tf'.(slot) tf'.(inner) es in (tf'', r :: rs)).
Proof using Type*.
  destruct tf as [[v|] f]; destruct e as [[] e]; unfold scope_poll; simpl; [by destruct es| |by destruct es..].
  - pose proof (restores poll e f (Some v)) as Hr.
    destruct (poll e f (Some v)) as [[f' c'] [| |]]; simpl in *; by subst.
Qed.

Lemma poll_turn_cells x futures cells futures' cells' l :
  poll_turn x futures cells = (futures', cells', l) → cells' = cells.
Proof.
  unfold poll_turn. destruct (futures !! _) as [tf|]; [|by intros [= ? <- ?]].
  pose proof (restores (scope_poll poll) (within x, given x) tf (cells !! os_thread x)) as Hr.
  destruct (scope_poll _ _ _ _) as [[tf' c] r]. simpl in Hr. subst c.
  intros [= ? <- ?]. apply set_cell_same.
Qed.

(** What one turn does to future [i] and to what is known of its polls. *)
Lemma poll_turn_alone x futures cells futures' cells' l i tf es rs tf'' :
  poll_turn x futures cells = (futures', cells', l) → futures !! i = Some tf →
  ∃ tf', futures' !! i = Some tf' ∧
    (poll_alone tf'.(slot) tf'.(inner) es = (tf'', rs) →
     poll_alone tf.(slot) tf.(inner) (given_to i [x] ++ es) = (tf'', results_of i l ++ rs)).
Proof using Type*.
  unfold poll_turn, given_to, results_of. intros Hx Hi. destruct (decide (x.(future_no) = i)) as [Hn|Hn].
  - rewrite Hn, Hi in Hx. pose proof (poll_alone_cons (within x, given x) tf (cells !! os_thread x) es) as Hc.
    destruct (scope_poll _ _ _ _) as [[tf1 c] r]. simplify_eq. exists tf1. split.
    + apply list_lookup_insert_eq. by eapply lookup_lt_Some.
    + intros Ha. rewrite !filter_cons_True by done. cbn [fmap list_fmap app filter list_filter].
      rewrite Hc, Ha. done.
  - exists tf. rewrite filter_cons_False by done.
    destruct (futures !! x.(future_no)) as [tf1|]; [|by simplify_eq].
    destruct (scope_poll _ _ _ _) as [[tf2 c] r]. simplify_eq.
    rewrite list_lookup_insert_ne, filter_cons_False by done. done.
Qed.

Lemma given_to_cons i x xs : given_to i (x :: xs) = given_to i [x] ++ given_to i xs.
Proof. unfold given_to. by rewrite <- fmap_app, <- filter_app. Qed.

Lemma poll_turns_alone xs : ∀ futures cells futures' cells' l,
  poll_turns xs futures cells = (futures', cells', l) →
  cells' = cells ∧
  ∀ i tf, futures !! i = Some tf →
    ∃ tf', futures' !! i = Some tf' ∧
      poll_alone tf.(slot) tf.(inner) (given_to i xs) = (tf', results_of i l).
Proof using Type*.
  induction xs as [|x xs IH]; simpl; intros futures cells futures' cells' l.
  - intros [= <- <- <-]. split; [done|]. intros i [s f] Hi. exists (mkScope s f). by destruct s.
  - destruct (poll_turn x futures cells) as [[fs1 cs1] l1] eqn:E1.
    destruct (poll_turns xs fs1 cs1) as [[fs2 cs2] l2] eqn:E2. intros [= <- <- <-].
    destruct (IH _ _ _ _ _ E2) as [-> Hall]. split; [by eapply poll_turn_cells|].
    intros i tf Hi. destruct (poll_turn_alone _ _ _ _ _ _ _ _ (given_to i xs) (results_of i l2)
      (mkScope None tf.(inner)) E1 Hi) as (tf1 & Hi1 & _).
    destruct (Hall i tf1 Hi1) as (tf2 & Hi2 & Ha). exists tf2. split; [done|].
    destruct (poll_turn_alone _ _ _ _ _ _ _ _ (given_to i xs) (results_of i l2) tf2 E1 Hi)
      as (tf1' & Hi1' & Hstep). simplify_eq.
    rewrite given_to_cons. unfold results_of. rewrite filter_app, fmap_app. by apply Hstep.
Qed.

(** C40: any number of scopes of one key, polled in any order on any threads:
    each future goes through exactly the polls it would go through alone with
    its own value in place of the thread's cell, gives the same results, and
    panics
    once it has ended, or when polled from inside a [with] of the key on that
    thread, which ends it; and every thread's cell is back to what it was,
    panicking polls included. *)
Theorem task_locals_isolated xs vfs cells futures' cells' l :
  poll_turns xs (map (λ vf, scope vf.1 vf.2) vfs) cells = (futures', cells', l) →
  cells' = cells ∧
  ∀ i v f, vfs !! i = Some (v, f) →
    ∃ tf', futures' !! i = Some tf' ∧
      poll_alone (Some v) f (given_to i xs) = (tf', results_of i l).
Proof using Type*.
  intros [Hc Hall]%poll_turns_alone. split; [done|]. intros i v f Hi.
  apply (Hall i (scope v f)). by rewrite list_lookup_fmap, Hi.
Qed.
End interleaved.
End local_key.

#[global] Arguments mkScope {T F} _ _.
#[global] Arguments slot {T F} _.
#[global] Arguments inner {T F} _.

(** A future that records what [try_with] gives it; it ends when told to. *)
Definition recorder : poll_fn (T := nat) bool (list (option nat)) nat := λ last log cell,
  let log := log ++ [try_with (λ v, v) cell] in
  (log, cell, if last then Ready (length log) else Pending).

#[export] Instance recorder_restores : Restores recorder.
Proof. by intros [] f cell. Qed.

(** Two recorders, each in a scope of its own inside another scope of the same
    key, polled in turns on two threads, the second one past its end, and the
    first one at last from inside a [with]. *)
Lemma task_locals_isolated_witness :
  let vfs := [(1%nat, scope 10%nat []); (2%nat, scope 20%nat [])] in
  let xs := [mkTurn 0 7 false (false, false); mkTurn 1 7 false (false, true); mkTurn 0 8 false (false, false); mkTurn 1 8 false (false, false);
             mkTurn 0 7 true (false, false)] in
  ∃ futures', poll_turns (scope_poll recorder) xs (map (λ vf, scope vf.1 vf.2) vfs) ∅
      = (futures', ∅, [(0%nat, Pending); (1%nat, Ready 1%nat); (0%nat, Pending); (1%nat, Unwound); (0%nat, Unwound)]) ∧
    (∃ tf', futures' !! 0%nat = Some tf' ∧
      poll_alone (scope_poll recorder) (Some 1%nat) (scope 10%nat [])
        [(false, (false, false)); (false, (false, false)); (true, (false, false))] =
        (tf', [Pending; Pending; Unwound])).
Proof.
  intros vfs xs.
  destruct (poll_turns (scope_poll recorder) xs (map (λ vf, scope vf.1 vf.2) vfs) ∅)
    as [[fs cs] l] eqn:E.
  destruct (task_locals_isolated (scope_poll recorder) xs vfs ∅ fs cs l E) as [-> Hall].
  exists fs. assert (l = [(0%nat, Pending); (1%nat, Ready 1%nat); (0%nat, Pending); (1%nat, Unwound); (0%nat, Unwound)])
    as -> by (vm_compute in E; congruence).
  split; [done|]. by apply (Hall 0%nat).
Defined.

(** Inside, the inner value; between the scopes, the outer one. *)
Example nested_scopes_see_their_own :
  (poll_alone (scope_poll recorder) (Some 1%nat) (scope 10%nat []) [(false, (false, false)); (false, (false, false))]).1
  = mkScope (Some 1%nat) (mkScope (Some 10%nat) [Some 10%nat; Some 10%nat]).
Proof. done. Qed.
