(* ===== verification/UringSim.v ===== *)
(** Positional files and the simulated disk ([src/src/io/uring_fs.rs]):
    [UringFile] over the trait [OpDriver], and [SimDriver], the driver that
    keeps its files in memory and injects faults.

    [OpDriver] is a type class of operations on a driver's state, whose calls
    are seen from their start to the result the caller awaits; the raw pointer
    and length of a buffer are the memory it points to.  A [PathBuf] is an
    element of any countable type: paths are only compared.  The [f64] of a
    torn write is the standard library's [spec_float]. *)

From Stdlib Require Import SpecFloat.
From S2P Require Import Prelude AsyncIo.

(** ** Conversions *)

Definition as_u32 (n : Z) : Z := n `mod` 2 ^ 32.
Definition as_i32 (n : Z) : Z :=
  let m := n `mod` 2 ^ 32 in if m <? 2 ^ 31 then m else m - 2 ^ 32.
Definition isize_max : Z := 2 ^ (usize_bits - 1) - 1.

(** [-n] on [i32]. *)
Definition neg_i32 `{BuildProfile} (n : Z) : option Z :=
  if n =? - 2 ^ 31 then (if debug_build then None else Some n) else Some (- n).

Definition f64_of_usize (n : Z) : spec_float := binary_normalize 53 1024 n 0 false.
Definition f64_mul : spec_float → spec_float → spec_float := SFmul 53 1024.
(** [x as usize]: towards zero, saturating, zero for a NaN. *)
Definition usize_of_f64 (x : spec_float) : Z :=
  match x with
  | S754_finite false m e =>
      Z.min usize_max (if 0 <=? e then Zpos m * 2 ^ e else Zpos m / 2 ^ (- e))
  | S754_infinity false => usize_max
  | _ => 0
  end.
Definition f64_zero : spec_float := S754_zero false.
Definition f64_one : spec_float := f64_of_usize 1.

(** Linux's numbers. *)
Definition ENOSPC : Z := 28.
Definition EBADF : Z := 9.
Definition O_RDONLY : Z := 0.
Definition O_WRONLY : Z := 1.
Definition O_RDWR : Z := 2.
Definition O_CREAT : Z := 64.
Definition O_EXCL : Z := 128.
Definition O_TRUNC : Z := 512.
Definition O_APPEND : Z := 1024.
Definition O_CLOEXEC : Z := 524288.

(** A result in the shape of a completion: a count, or [-errno]. *)
Definition result_to_io `{BuildProfile} (r : Z) : option (result Z io_error) :=
  if r <? 0 then (λ e, Err (OsError e)) <$> neg_i32 r else Some (Ok r).

Definition of_result (r : result Z Z) : Z := match r with Ok n => n | Err errno => - errno end.

(** ** [OpDriver] *)

Class OpDriver (Path D : Type) := {
  drv_open : Path → Z → Z → M D (result Z io_error);
  (* the memory at the pointer, the length, the position *)
  drv_read_at : Z → list byte → Z → Z → M D (Z * list byte);
  drv_write_at : Z → list byte → Z → Z → M D Z;
  drv_fsync : Z → bool → M D (result unit io_error);
  drv_fallocate : Z → Z → Z → M D (result unit io_error);
  drv_set_len : Z → Z → M D (result unit io_error);
  drv_close : Z → M D (result unit io_error);
  drv_close_sync : Z → M D unit;
  drv_rename : Path → Path → M D (result unit io_error);
  drv_remove_file : Path → M D (result unit io_error);
}.

(** ** [SimDriver] *)

Record SimFile := mkSimFile { data : list byte; durable_len : Z }.

Section sim.
Context {Path : Type} `{Countable Path} `{BuildProfile}.

Record SimState := mkSim {
  paths : gmap Path Z;
  files : gmap Z SimFile;
  next_handle : Z;
  closed : gset Z;
  capacity_bytes : option Z;
  bytes_used : Z;
  fsync_lies : bool;
  torn_write : option spec_float;
}.

Definition sim_new : SimState := mkSim ∅ ∅ 0 ∅ None 0 false None.

Definition set_paths p (s : SimState) :=
  mkSim p s.(files) s.(next_handle) s.(closed) s.(capacity_bytes) s.(bytes_used) s.(fsync_lies) s.(torn_write).
Definition set_files f (s : SimState) :=
  mkSim s.(paths) f s.(next_handle) s.(closed) s.(capacity_bytes) s.(bytes_used) s.(fsync_lies) s.(torn_write).
Definition set_next_handle n (s : SimState) :=
  mkSim s.(paths) s.(files) n s.(closed) s.(capacity_bytes) s.(bytes_used) s.(fsync_lies) s.(torn_write).
Definition set_closed c (s : SimState) :=
  mkSim s.(paths) s.(files) s.(next_handle) c s.(capacity_bytes) s.(bytes_used) s.(fsync_lies) s.(torn_write).
Definition set_bytes_used n (s : SimState) :=
  mkSim s.(paths) s.(files) s.(next_handle) s.(closed) s.(capacity_bytes) n s.(fsync_lies) s.(torn_write).
Definition with_torn t (s : SimState) :=
  mkSim s.(paths) s.(files) s.(next_handle) s.(closed) s.(capacity_bytes) s.(bytes_used) s.(fsync_lies) t.
Definition modify (f : SimState → SimState) : M SimState unit := let! s := get in put (f s).

(** The knobs. *)
Definition set_disk_full_at (n : Z) : M SimState unit :=
  let! s := get in
  put (mkSim s.(paths) s.(files) s.(next_handle) s.(closed) (Some n) s.(bytes_used) s.(fsync_lies) s.(torn_write)).
Definition set_fsync_lies (b : bool) : M SimState unit :=
  let! s := get in
  put (mkSim s.(paths) s.(files) s.(next_handle) s.(closed) s.(capacity_bytes) s.(bytes_used) b s.(torn_write)).
Definition set_torn_write (t : option spec_float) : M SimState unit := modify (with_torn t).
Definition inject_torn_write (fraction : spec_float) : M SimState unit :=
  assert (SFleb f64_zero fraction && SFleb fraction f64_one) ;! set_torn_write (Some fraction).

(** The bytes of all files. *)
Definition total (fs : gmap Z SimFile) : Z := msum ((λ f, blen f.(data)) <$> fs).

Definition resize (n : Z) (l : list byte) : list byte := l ++ replicate (Z.to_nat (n - blen l)) 0.

(** [Vec::resize]: a capacity over [isize::MAX] panics, and the allocator
    aborts when the files do not fit the address space together. *)
Definition resize_file (handle new_len : Z) : M SimState unit :=
  let! s := get in
  match s.(files) !! handle with
  | Some f =>
      if blen f.(data) <? new_len then
        assert (new_len <=? isize_max) ;!
        let fs := <[handle := mkSimFile (resize new_len f.(data)) f.(durable_len)]> s.(files) in
        assert (total fs <=? usize_max) ;!
        put (set_files fs s)
      else ret tt
  | None => ret tt
  end.

Definition grow_to (handle new_len : Z) : M SimState (result unit Z) :=
  let! s := get in
  let current_len := match s.(files) !! handle with Some f => blen f.(data) | None => 0 end in
  let! room :=
    (if current_len <? new_len then
       let growth := new_len - current_len in
       let! full := (match s.(capacity_bytes) with
                     | Some cap => let! used := lift (uadd u64_bits s.(bytes_used) growth) in ret (cap <? used)
                     | None => ret false
                     end) in
       if full then ret false
       else let! used := lift (uadd u64_bits s.(bytes_used) growth) in modify (set_bytes_used used) ;! ret true
     else ret true) in
  if negb room then ret (Err ENOSPC)
  else resize_file handle new_len ;! ret (Ok tt).

Definition saturating_sub (a b : Z) : Z := Z.max 0 (a - b).

Definition sim_truncate (handle : Z) : M SimState unit :=
  let! s := get in
  match s.(files) !! handle with
  | Some f =>
      modify (set_files (<[handle := mkSimFile [] 0]> s.(files))) ;!
      modify (set_bytes_used (saturating_sub s.(bytes_used) (blen f.(data))))
  | None => ret tt
  end.

Definition sim_open (path : Path) (flags _mode : Z) : M SimState (result Z io_error) :=
  let create := has flags O_CREAT in
  let create_new := create && has flags O_EXCL in
  let truncate := has flags O_TRUNC in
  let! s := get in
  let exists_ := bool_decide (is_Some (s.(paths) !! path)) in
  if exists_ && create_new then ret (Err AlreadyExists)
  else if negb exists_ && negb create then ret (Err NotFound)
  else
    let! handle :=
      (match s.(paths) !! path with
       | Some h => ret h
       | None =>
           let h := s.(next_handle) in
           let! n := lift (uadd u64_bits h 1) in
           modify (set_next_handle n) ;!
           modify (λ s, set_paths (<[path := h]> s.(paths)) s) ;!
           modify (λ s, set_files (<[h := mkSimFile [] 0]> s.(files)) s) ;!
           ret h
       end) in
    (if truncate then sim_truncate handle else ret tt) ;!
    modify (λ s, set_closed (s.(closed) ∖ {[handle]}) s) ;!
    ret (Ok handle).

Definition sim_read_at (handle : Z) (mem : list byte) (buf_len pos : Z) : M SimState (Z * list byte) :=
  let! s := get in
  if bool_decide (handle ∈ s.(closed)) then ret (- EBADF, mem)
  else
    match s.(files) !! handle with
    | None => ret (- EBADF, mem)
    | Some f =>
        let avail := saturating_sub (blen f.(data)) pos in
        let n := Z.min avail buf_len in
        let! end_ := lift (uadd usize_bits pos n) in
        (* the slice [pos..end_] of the file *)
        assert ((pos <=? end_) && (end_ <=? blen f.(data))) ;!
        let chunk := upto n (from pos f.(data)) in
        ret (as_i32 n, chunk ++ from n mem)
    end.

Definition sim_write_at (handle : Z) (src : list byte) (pos : Z) : M SimState Z :=
  let! s := get in
  if bool_decide (handle ∈ s.(closed)) || negb (bool_decide (is_Some (s.(files) !! handle)))
  then ret (- EBADF)
  else
    let! end_ := lift (uadd usize_bits pos (blen src)) in
    let! room := grow_to handle end_ in
    match room with
    | Err errno => ret (- errno)
    | Ok _ =>
        let! s := get in
        let torn := s.(torn_write) in
        set_torn_write None ;!
        let apply_len := Z.min (match torn with
                                | Some fraction => usize_of_f64 (f64_mul (f64_of_usize (blen src)) fraction)
                                | None => blen src
                                end) (blen src) in
        let! s := get in
        match s.(files) !! handle with
        | None => panic
        | Some f =>
            let! stop := lift (uadd usize_bits pos apply_len) in
            assert ((pos <=? stop) && (stop <=? blen f.(data))) ;!
            let d := upto pos f.(data) ++ upto apply_len src ++ from stop f.(data) in
            modify (set_files (<[handle := mkSimFile d f.(durable_len)]> s.(files))) ;!
            ret (as_i32 (blen src))
        end
    end.

Definition sim_fsync (handle : Z) (_datasync : bool) : M SimState (result unit io_error) :=
  let! s := get in
  if bool_decide (handle ∈ s.(closed)) then ret (Err (OsError EBADF))
  else if s.(fsync_lies) then ret (Ok tt)
  else
    match s.(files) !! handle with
    | None => ret (Err (OsError EBADF))
    | Some f =>
        modify (set_files (<[handle := mkSimFile f.(data) (blen f.(data))]> s.(files))) ;! ret (Ok tt)
    end.

Definition grow_answer (r : result unit Z) : result unit io_error :=
  match r with Ok _ => Ok tt | Err errno => Err (OsError errno) end.

Definition sim_fallocate (handle offset len : Z) : M SimState (result unit io_error) :=
  let! s := get in
  if negb (bool_decide (is_Some (s.(files) !! handle))) then ret (Err (OsError EBADF))
  else
    let! end_ := lift (uadd u64_bits offset len) in
    let! r := grow_to handle end_ in ret (grow_answer r).

Definition sim_set_len (handle len : Z) : M SimState (result unit io_error) :=
  let! s := get in
  match s.(files) !! handle with
  | None => ret (Err (OsError EBADF))
  | Some f =>
      let current_len := blen f.(data) in
      if current_len <=? len then let! r := grow_to handle len in ret (grow_answer r)
      else
        let shrink := current_len - len in
        modify (set_files (<[handle := mkSimFile (upto len f.(data)) (Z.min f.(durable_len) len)]> s.(files))) ;!
        modify (set_bytes_used (saturating_sub s.(bytes_used) shrink)) ;!
        ret (Ok tt)
  end.

Definition sim_close_sync (handle : Z) : M SimState unit :=
  modify (λ s, set_closed ({[handle]} ∪ s.(closed)) s).
Definition sim_close (handle : Z) : M SimState (result unit io_error) :=
  sim_close_sync handle ;! ret (Ok tt).

(** A file whose last name is gone, with its bytes. *)
Definition drop_file (handle : Z) : M SimState unit :=
  let! s := get in
  match s.(files) !! handle with
  | Some f =>
      modify (set_files (delete handle s.(files))) ;!
      modify (set_bytes_used (saturating_sub s.(bytes_used) (blen f.(data))))
  | None => ret tt
  end.

Definition sim_rename (from_ to_ : Path) : M SimState (result unit io_error) :=
  let! s := get in
  match s.(paths) !! from_ with
  | None => ret (Err NotFound)
  | Some handle =>
      let ps := delete from_ s.(paths) in
      modify (set_paths (<[to_ := handle]> ps)) ;!
      (match ps !! to_ with
       | Some old_handle => if old_handle =? handle then ret tt else drop_file old_handle
       | None => ret tt
       end) ;!
      ret (Ok tt)
  end.

Definition sim_remove_file (path : Path) : M SimState (result unit io_error) :=
  let! s := get in
  match s.(paths) !! path with
  | None => ret (Err NotFound)
  | Some handle =>
      modify (set_paths (delete path s.(paths))) ;! drop_file handle ;! ret (Ok tt)
  end.

(** What a crash leaves of a file. *)
Definition crash_file (f : SimFile) : SimFile :=
  let durable := upto f.(durable_len) f.(data) in mkSimFile durable (blen durable).

Definition crash_and_reopen (s : SimState) : SimState :=
  let fs := crash_file <$> s.(files) in
  mkSim s.(paths) fs s.(next_handle) (map_to_set (λ _ h, h) s.(paths)) s.(capacity_bytes)
    (total fs) false None.

#[export] Instance SimDriver : OpDriver Path SimState := {
  drv_open := sim_open;
  drv_read_at := sim_read_at;
  drv_write_at := λ h mem len pos, sim_write_at h (upto len mem) pos;
  drv_fsync := sim_fsync;
  drv_fallocate := sim_fallocate;
  drv_set_len := sim_set_len;
  drv_close := sim_close;
  drv_close_sync := sim_close_sync;
  drv_rename := sim_rename;
  drv_remove_file := sim_remove_file;
}.
(** ** Histories of a disk *)

Inductive sim_op :=
| Open (p : Path) (flags mode : Z)
| ReadAt (h : Z) (mem : list byte) (len pos : Z)
| WriteAt (h : Z) (src : list byte) (pos : Z)
| Fsync (h : Z) (datasync : bool)
| Fallocate (h offset len : Z)
| SetLen (h len : Z)
| Close (h : Z)
| Rename (from_ to_ : Path)
| RemoveFile (p : Path)
| SetDiskFullAt (n : Z)
| SetFsyncLies (b : bool)
| InjectTornWrite (fraction : spec_float)
| CrashAndReopen.

(** The answer, for the theorems: whether it was a success. *)
Definition is_ok {A E} (r : result A E) : bool := match r with Ok _ => true | Err _ => false end.

Definition run_op (o : sim_op) : M SimState bool :=
  match o with
  | Open p flags mode => let! r := sim_open p flags mode in ret (is_ok r)
  | ReadAt h mem len pos => let! r := sim_read_at h mem len pos in ret (0 <=? r.1)
  | WriteAt h src pos => let! r := sim_write_at h src pos in ret (0 <=? r)
  | Fsync h d => let! r := sim_fsync h d in ret (is_ok r)
  | Fallocate h off len => let! r := sim_fallocate h off len in ret (is_ok r)
  | SetLen h len => let! r := sim_set_len h len in ret (is_ok r)
  | Close h => let! r := sim_close h in ret (is_ok r)
  | Rename p q => let! r := sim_rename p q in ret (is_ok r)
  | RemoveFile p => let! r := sim_remove_file p in ret (is_ok r)
  | SetDiskFullAt n => set_disk_full_at n ;! ret true
  | SetFsyncLies b => set_fsync_lies b ;! ret true
  | InjectTornWrite x => inject_torn_write x ;! ret true
  | CrashAndReopen => modify crash_and_reopen ;! ret true
  end.

(** Positions and lengths are [u64]s, and slices no longer than a slice can be. *)
Definition op_ok (o : sim_op) : Prop :=
  match o with
  | ReadAt _ mem len pos => 0 ≤ len ≤ blen mem ∧ blen mem ≤ isize_max ∧ in_range u64_bits pos
  | WriteAt _ src pos => blen src ≤ isize_max ∧ in_range u64_bits pos
  | Fallocate _ off len => in_range u64_bits off ∧ in_range u64_bits len
  | SetLen _ len => in_range u64_bits len
  | _ => True
  end.
End sim.
Arguments SimState Path {_ _}.
Arguments sim_op Path : clear implicits.

(** ** What every state satisfies *)

Section sim_facts.
Context {Path : Type} `{Countable Path} `{BuildProfile}.
Implicit Types s : SimState Path.

Lemma blen_resize n l : blen (resize n l) = Z.max n (blen l).
Proof. unfold resize. rewrite blen_app. unfold blen at 2. rewrite length_replicate. pose proof (blen_nonneg l). lia. Qed.

Lemma resize_short n l : n ≤ blen l → resize n l = l.
Proof. intros. unfold resize. replace (Z.to_nat (n - blen l)) with 0%nat by lia. apply app_nil_r. Qed.

Lemma total_insert fs h f f' :
  fs !! h = Some f → total (<[h := f']> fs) = total fs - blen f.(data) + blen f'.(data).
Proof.
  intros Hf. unfold total. rewrite (msum_delete (_ <$> fs) h (blen (data f))) by (by rewrite lookup_fmap, Hf).
  rewrite fmap_insert, <- insert_delete_eq, msum_insert by apply lookup_delete_eq. lia.
Qed.

Lemma total_fresh fs h f' : fs !! h = None → total (<[h := f']> fs) = total fs + blen f'.(data).
Proof.
  intros Hf. unfold total. rewrite fmap_insert, msum_insert by (by rewrite lookup_fmap, Hf). lia.
Qed.

Lemma total_delete fs h f : fs !! h = Some f → total (delete h fs) = total fs - blen f.(data).
Proof.
  intros Hf. unfold total. rewrite fmap_delete, (msum_delete (_ <$> fs) h (blen (data f))); [lia|].
  by rewrite lookup_fmap, Hf.
Qed.

Lemma total_nonneg fs : 0 ≤ total fs.
Proof.
  apply msum_nonneg. intros h n. rewrite lookup_fmap_Some. intros (f & <- & _). apply blen_nonneg.
Qed.

(** Names and files are in bijection, handles are fresh, what is durable is a
    prefix, and the disk usage is the bytes of the files. *)
Record sim_ok s : Prop := {
  ok_named p h : s.(paths) !! p = Some h → is_Some (s.(files) !! h);
  ok_name h f : s.(files) !! h = Some f → ∃ p, s.(paths) !! p = Some h;
  ok_inj p q h : s.(paths) !! p = Some h → s.(paths) !! q = Some h → p = q;
  ok_fresh h f : s.(files) !! h = Some f → h < s.(next_handle);
  ok_durable h f : s.(files) !! h = Some f → 0 ≤ f.(durable_len) ≤ blen f.(data);
  ok_len h f : s.(files) !! h = Some f → blen f.(data) ≤ isize_max;
  ok_used : s.(bytes_used) = total s.(files);
  ok_space : total s.(files) ≤ usize_max;
}.

(** The state with other contents for one file. *)
Definition with_file h f s : SimState Path :=
  set_bytes_used (total (<[h := f]> s.(files))) (set_files (<[h := f]> s.(files)) s).

Lemma with_file_same h f s : sim_ok s → s.(files) !! h = Some f → with_file h f s = s.
Proof.
  intros Hok Hf. unfold with_file. rewrite insert_id, <- ok_used by done. by destruct s.
Qed.

Lemma ok_with_file h f f' s :
  sim_ok s → s.(files) !! h = Some f → 0 ≤ f'.(durable_len) ≤ blen f'.(data) →
  blen f'.(data) ≤ isize_max →
  total (<[h := f']> s.(files)) ≤ usize_max → sim_ok (with_file h f' s).
Proof.
  intros [Hnd Hn Hi Hfr Hd Hl Hu Hs] Hf Hf' Hl' Ht. constructor; simpl; try done.
  - intros p h' Hp. destruct (decide (h = h')) as [<-|]; [by rewrite lookup_insert_eq|].
    rewrite lookup_insert_ne by done. eauto.
  - intros h' f1 [[<- <-]|[? Hf1]]%lookup_insert_Some; eauto.
  - intros h' f1 [[<- <-]|[? Hf1]]%lookup_insert_Some; eauto.
  - intros h' f1 [[<- <-]|[? Hf1]]%lookup_insert_Some; eauto.
  - intros h' f1 [[<- <-]|[? Hf1]]%lookup_insert_Some; eauto.
Qed.

(** Fields the invariant does not look at. *)
Lemma ok_same s s' :
  s'.(paths) = s.(paths) → s'.(files) = s.(files) → s'.(next_handle) = s.(next_handle) →
  s'.(bytes_used) = s.(bytes_used) → sim_ok s → sim_ok s'.
Proof. intros E1 E2 E3 E4 []. constructor; rewrite ?E1, ?E2, ?E3, ?E4; done. Qed.

Lemma ok_torn t s : sim_ok s → sim_ok (with_torn t s).
Proof. by apply ok_same. Qed.

Lemma total_release fs h f :
  fs !! h = Some f → saturating_sub (total fs) (blen f.(data)) = total fs - blen f.(data).
Proof.
  intros Hf. unfold saturating_sub. pose proof (total_nonneg (delete h fs)) as Hn.
  rewrite (total_delete _ _ _ Hf) in Hn. lia.
Qed.

Lemma modify_inv (g : SimState Path → SimState Path) s u s' w :
  modify g s = Some (u, s', w) → s' = g s ∧ w = [].
Proof. by intros [= _ <- <-]. Qed.

Ltac sim_inv :=
  repeat (M_inv_step || match goal with
                        | E : modify _ _ = Some (_, _, _) |- _ => apply modify_inv in E as (? & ?); subst
                        end).

Lemma resize_file_spec h n f s u s' ws :
  s.(files) !! h = Some f → resize_file h n s = Some (u, s', ws) →
  ws = [] ∧
  let fs := <[h := mkSimFile (resize n f.(data)) f.(durable_len)]> s.(files) in
  s' = set_files fs s ∧ (blen f.(data) < n → n ≤ isize_max ∧ total fs ≤ usize_max).
Proof.
  intros Hf E. unfold resize_file in E. sim_inv; [|simplify_eq..].
  - simplify_eq. split; [done|]. cbv zeta. split; [done|]. intros _. by split; apply Z.leb_le.
  - apply Z.ltb_ge in Eq0. simplify_eq. split; [done|]. cbv zeta. split; [|lia].
    rewrite resize_short by done. destruct f, s. by rewrite insert_id.
Qed.

(** Growing a file that is there: it is not there yet when the disk is full. *)
Lemma grow_to_spec h n f s r s' ws :
  sim_ok s → s.(files) !! h = Some f → grow_to h n s = Some (r, s', ws) →
  ws = [] ∧
  match r with
  | Ok _ => s' = with_file h (mkSimFile (resize n f.(data)) f.(durable_len)) s ∧
      blen (resize n f.(data)) ≤ isize_max ∧
      total (<[h := mkSimFile (resize n f.(data)) f.(durable_len)]> s.(files)) ≤ usize_max ∧
      ∀ cap, s.(capacity_bytes) = Some cap → blen f.(data) < n → s'.(bytes_used) ≤ cap
  | Err e => e = ENOSPC ∧ s' = s ∧ blen f.(data) < n ∧ s.(capacity_bytes) ≠ None
  end.
Proof.
  intros Hok Hf E. pose proof (ok_used _ Hok) as Hu. pose proof (total_nonneg (files s)) as Ht0.
  pose proof (ok_space _ Hok) as Hsp.
  set (f' := mkSimFile (resize n (data f)) (durable_len f)).
  assert (blen (data f) < n → total (<[h := f']> (files s)) = bytes_used s + (n - blen (data f))) as Ht.
  { intros. rewrite (total_insert _ _ _ _ Hf). simpl. rewrite blen_resize. lia. }
  unfold grow_to in E. rewrite (bind_silent _ _ _ _ _ eq_refl), Hf in E. cbv zeta in E.
  assert (∀ x1 u s2 w2, resize_file h n (set_bytes_used x1 s) = Some (u, s2, w2) →
    uadd u64_bits (bytes_used s) (n - blen (data f)) = Some x1 →
    blen (data f) < n → w2 = [] ∧ s2 = with_file h f' s ∧ x1 = bytes_used s2 ∧
      n ≤ isize_max ∧ total (<[h := f']> (files s)) ≤ usize_max) as Hgo.
  { intros x1 u s2 w2 Hr Hx Hlt. destruct (resize_file_spec h n f (set_bytes_used x1 s) u s2 w2 Hf Hr) as (-> & -> & Hs).
    destruct (Hs Hlt) as [? Hs']. clear Hs. specialize (Ht Hlt). rename Hs' into Hs. fold f' in Hs |- *. simpl in Hs.
    assert (x1 = total (<[h := f']> (files s))) as ->; [|done].
    apply uadd_mod in Hx as ->; [|lia]. rewrite Ht. apply Z.mod_small.
    unfold usize_max, usize_bits, u64_bits in *. lia. }
  destruct (Z.ltb_spec (blen (data f)) n) as [Hlt|Hge].
  - sim_inv; try done;
      match goal with
      | R : resize_file _ _ (set_bytes_used ?x1 _) = _, U : uadd _ _ _ = Some ?x1 |- _ =>
          destruct (Hgo _ _ _ _ R U Hlt) as (-> & -> & Hx & Hn & Hle)
      end; rewrite blen_resize; pose proof (ok_len _ Hok _ _ Hf); split_and!; try done; try lia.
    intros cap [= <-] _. rewrite <-Hx.
    match goal with L : false = (_ <? ?x) |- _ ≤ _ => symmetry in L; apply Z.ltb_ge in L end.
    congruence.
  - sim_inv; try done.
    match goal with R : resize_file _ _ _ = _ |- _ =>
      destruct (resize_file_spec _ _ _ _ _ _ _ Hf R) as (-> & -> & _) end.
    subst f'. rewrite resize_short by done. destruct f as [d l]. simpl in *.
    split_and!; [done| |by eapply ok_len in Hf|by rewrite insert_id|lia].
    rewrite with_file_same by done. rewrite insert_id by done. by destruct s.
Qed.

(** The disk never fills past its capacity. *)
Definition capped s s' : Prop :=
  ∀ cap, s.(capacity_bytes) = Some cap → s'.(bytes_used) ≤ Z.max cap s.(bytes_used).

Lemma capped_refl s : capped s s.
Proof. intros cap _. lia. Qed.

Lemma grow_to_capped h n f s u s' ws :
  sim_ok s → s.(files) !! h = Some f → grow_to h n s = Some (Ok u, s', ws) → capped s s'.
Proof.
  intros Hok Hf E cap Hcap. destruct (grow_to_spec _ _ _ _ _ _ _ Hok Hf E) as (_ & -> & _ & _ & Hg).
  destruct (decide (blen (data f) < n)) as [Hlt|Hge]; [specialize (Hg _ Hcap Hlt); lia|].
  simpl. rewrite resize_short by lia. destruct f as [d l]. simpl. rewrite insert_id by done.
  rewrite (ok_used _ Hok). lia.
Qed.

(** [src] over the bytes from [pos] on. *)
Definition overwrite (pos : Z) (src d : list byte) : list byte :=
  upto pos d ++ src ++ from (pos + blen src) d.

Lemma blen_overwrite pos src d :
  0 ≤ pos → pos + blen src ≤ blen d → blen (overwrite pos src d) = blen d.
Proof.
  intros. pose proof (blen_nonneg src). unfold overwrite.
  rewrite !blen_app, blen_upto, blen_from by lia. lia.
Qed.

Lemma usize_of_f64_nonneg x : 0 ≤ usize_of_f64 x.
Proof.
  assert (0 ≤ usize_max) by done.
  destruct x as [| [] | |[] m e]; simpl; try lia. apply Z.min_glb; [done|].
  destruct (0 <=? e) eqn:?; [apply Z.mul_nonneg_nonneg; lia|].
  apply Z.div_pos; lia.
Qed.

Lemma write_at_spec h src pos s r s' ws :
  sim_ok s → 0 ≤ pos → blen src ≤ isize_max → sim_write_at h src pos s = Some (r, s', ws) →
  ws = [] ∧
  (s' = s ∧ (r = - EBADF ∨ r = - ENOSPC ∧ s.(capacity_bytes) ≠ None) ∨
   ∃ f k, s.(files) !! h = Some f ∧ (h ∉ s.(closed)) ∧ 0 ≤ k ≤ blen src ∧
     (s.(torn_write) = None → k = blen src) ∧ r = as_i32 (blen src) ∧
     let d := overwrite pos (upto k src) (resize (pos + blen src) f.(data)) in
     s' = with_torn None (with_file h (mkSimFile d f.(durable_len)) s) ∧ capped s s' ∧
     blen d ≤ isize_max ∧ blen f.(data) ≤ blen d ∧
     total (<[h := mkSimFile d f.(durable_len)]> s.(files)) ≤ usize_max).
Proof.
  intros Hok Hpos Hsrc E. unfold sim_write_at in E.
  rewrite (bind_silent _ _ _ _ _ eq_refl) in E.
  case_bool_decide as Hc; [sim_inv; split; [done|]; left; auto|].
  destruct (files s !! h) as [f|] eqn:Hf; [|sim_inv; split; [done|]; left; auto].
  rewrite bool_decide_eq_true_2 in E by done. simpl in E.
  apply bind_inv in E as (end_ & s1 & w1 & w2 & E1 & E & ->).
  apply lift_inv in E1 as (Hend & -> & ->).
  apply bind_inv in E as (room & s2 & w1 & w3 & E1 & E & ->).
  destruct (grow_to_spec _ _ _ _ _ _ _ Hok Hf E1) as [-> Hroom].
  destruct room as [u|e]; [pose proof (grow_to_capped _ _ _ _ _ _ _ Hok Hf E1) as Hcap|destruct Hroom as (-> & -> & _ & ?); sim_inv; split; [done|]; left; auto].
  destruct Hroom as (-> & Hl & Ht & _). pose proof (blen_nonneg src) as Hb.
  set (f1 := mkSimFile (resize end_ (data f)) (durable_len f)) in *.
  rewrite !(bind_silent _ _ _ _ _ eq_refl) in E. simpl in E. rewrite lookup_insert_eq in E.
  set (k := Z.min _ (blen src)) in E.
  assert (0 ≤ k ≤ blen src) as Hk.
  { subst k. destruct (torn_write s); [|lia].
    match goal with |- context [usize_of_f64 ?x] => pose proof (usize_of_f64_nonneg x) end. lia. }
  apply bind_inv in E as (stop & s1 & w1 & w2 & E2 & E & ->). apply lift_inv in E2 as (Hstop & -> & ->).
  apply bind_inv in E as (? & s1 & w1 & w4 & E2 & E & ->). apply assert_inv in E2 as (Hin & -> & ->).
  apply andb_true_iff in Hin as [Hin1%Z.leb_le Hin2%Z.leb_le].
  sim_inv. split; [done|]. right. exists f, k.
  assert (pos + blen src < 2 ^ usize_bits) as Hw.
  { subst f1. simpl in *. unfold isize_max, usize_bits in *. lia. }
  rewrite uadd_in_range in Hend by done. injection Hend as <-.
  rewrite uadd_in_range in Hstop by lia. injection Hstop as <-.
  assert (blen (upto k src) = k) as Hk' by (by apply blen_upto).
  assert (overwrite pos (upto k src) (data f1) =
    upto pos (data f1) ++ upto k src ++ from (pos + k) (data f1)) as Ho by (unfold overwrite; by rewrite Hk').
  assert (∀ d, blen d = blen (data f1) →
    total (<[h := mkSimFile d (durable_len f)]> (files s)) = total (<[h := f1]> (files s))) as Htot.
  { intros d Hd. rewrite !(total_insert _ _ _ _ Hf). simpl in *. lia. }
  assert (blen (overwrite pos (upto k src) (data f1)) = blen (data f1)) as Hbl.
  { apply blen_overwrite; [done|]. subst f1. simpl. rewrite Hk', blen_resize. lia. }
  split_and!; [done|done|lia|lia| |done|].
  - subst k. intros ->. lia.
  - cbv zeta. unfold with_file, set_files, set_bytes_used, with_torn; simpl. subst f1. simpl in *.
    rewrite <-Ho, insert_insert_eq, (Htot _ Hbl). split; [done|]. split; [exact Hcap|].
    rewrite Hbl. split; [done|]. split; [rewrite blen_resize; lia|done].
Qed.

(** What each of the other operations does, when it returns. *)

Lemma ok_delete h s p :
  sim_ok s → s.(paths) !! p = Some h → ∀ f, s.(files) !! h = Some f →
  sim_ok (set_bytes_used (total (delete h s.(files)))
    (set_files (delete h s.(files)) (set_paths (delete p s.(paths)) s))).
Proof.
  intros [Hnd Hn Hi Hfr Hd Hl Hu Hs] Hp f Hf. constructor; simpl.
  - intros q h' [? Hq]%lookup_delete_Some. rewrite lookup_delete_ne; [eauto|]. intros <-. eauto.
  - intros h' f' [? Hf']%lookup_delete_Some. destruct (Hn _ _ Hf') as [q Hq]. exists q.
    rewrite lookup_delete_ne; [done|]. intros <-. congruence.
  - intros q1 q2 h' [? ?]%lookup_delete_Some [? ?]%lookup_delete_Some. eauto.
  - intros h' f' [? ?]%lookup_delete_Some. eauto.
  - intros h' f' [? ?]%lookup_delete_Some. eauto.
  - intros h' f' [? ?]%lookup_delete_Some. eauto.
  - done.
  - rewrite (total_delete _ _ _ Hf). pose proof (blen_nonneg (data f)). lia.
Qed.

Lemma drop_file_spec h f s u s' ws :
  sim_ok s → s.(files) !! h = Some f →
  ∀ ps, drop_file h (set_paths ps s) = Some (u, s', ws) →
  ws = [] ∧ s' = set_bytes_used (total (delete h s.(files))) (set_files (delete h s.(files)) (set_paths ps s)).
Proof.
  intros Hok Hf ps E. unfold drop_file in E. rewrite (bind_silent _ _ _ _ _ eq_refl) in E. simpl in E.
  rewrite Hf in E. sim_inv. split; [done|].
  by rewrite (ok_used _ Hok), (total_release _ h f Hf), (total_delete _ h f Hf).
Qed.

Lemma ok_rename p q h s :
  sim_ok s → s.(paths) !! p = Some h → (delete p s.(paths)) !! q = None →
  sim_ok (set_paths (<[q := h]> (delete p s.(paths))) s).
Proof.
  intros [Hnd Hn Hi Hfr Hd Hl Hu Hs] Hp Hq. constructor; simpl; try done.
  - intros r h' [[<- <-]|[? [? ?]%lookup_delete_Some]]%lookup_insert_Some; eauto.
  - intros h' f' Hf'. destruct (Hn _ _ Hf') as [r Hr]. destruct (decide (r = p)) as [->|].
    + exists q. simplify_eq. by rewrite lookup_insert_eq.
    + exists r. rewrite lookup_insert_ne, lookup_delete_ne; [done..|]. intros <-.
      by rewrite lookup_delete_ne, Hr in Hq by done.
  - intros r1 r2 h'. rewrite !lookup_insert_Some, !lookup_delete_Some. naive_solver.
Qed.

Lemma rename_spec p q s r s' ws :
  sim_ok s → sim_rename p q s = Some (r, s', ws) → ws = [] ∧ sim_ok s' ∧
  match r with
  | Err e => s' = s ∧ e = NotFound ∧ s.(paths) !! p = None
  | Ok _ => ∃ h, s.(paths) !! p = Some h ∧ s'.(paths) = <[q := h]> (delete p s.(paths)) ∧
      total s'.(files) ≤ total s.(files) ∧ s'.(files) ⊆ s.(files) ∧
      ∀ h', h' = h ∨ s.(paths) !! q ≠ Some h' → s'.(files) !! h' = s.(files) !! h'
  end.
Proof.
  intros Hok E. unfold sim_rename in E. rewrite (bind_silent _ _ _ _ _ eq_refl) in E. cbv zeta in E.
  destruct (paths s !! p) as [h|] eqn:Hp; [|sim_inv; done].
  set (ps := delete p (paths s)) in *.
  rewrite (bind_silent _ _ _ _ (set_paths (<[q := h]> ps) s) eq_refl) in E.
  destruct (ps !! q) as [h'|] eqn:Hq.
  - assert (p ≠ q ∧ paths s !! q = Some h') as [Hpq Hq'] by (by apply lookup_delete_Some in Hq).
    destruct (Z.eqb_spec h' h) as [->|Hne].
    { destruct Hpq. by eapply ok_inj. }
    destruct (ok_named _ Hok _ _ Hq') as [f Hf].
    apply bind_inv in E as (u & s1 & w1 & w2 & E1 & E & ->).
    destruct (drop_file_spec _ _ _ _ _ _ Hok Hf _ E1) as [-> ->]. sim_inv.
    pose proof (ok_delete _ _ _ Hok Hq' _ Hf) as Hok'.
    split; [done|]. split; [|exists h; split_and!; [done|done| |apply delete_subseteq|]].
    + eapply (ok_rename p q h) in Hok'; simpl.
      * eapply ok_same; [..|exact Hok']; try done. simpl.
        by rewrite delete_delete, insert_delete_eq.
      * by rewrite lookup_delete_ne.
      * rewrite delete_delete. apply lookup_delete_eq.
    + simpl. rewrite (total_delete _ _ _ Hf). pose proof (blen_nonneg (data f)). lia.
    + intros k Hk. simpl. apply lookup_delete_ne. intros <-. destruct Hk as [->|]; [done|congruence].
  - sim_inv. split; [done|]. split; [by apply ok_rename|]. by exists h.
Qed.

Lemma remove_spec p s r s' ws :
  sim_ok s → sim_remove_file p s = Some (r, s', ws) → ws = [] ∧ sim_ok s' ∧
  match r with
  | Err e => s' = s ∧ e = NotFound ∧ s.(paths) !! p = None
  | Ok _ => ∃ h, s.(paths) !! p = Some h ∧ s'.(paths) = delete p s.(paths) ∧ s'.(files) = delete h s.(files)
  end.
Proof.
  intros Hok E. unfold sim_remove_file in E. rewrite (bind_silent _ _ _ _ _ eq_refl) in E. cbv zeta in E.
  destruct (paths s !! p) as [h|] eqn:Hp; [|sim_inv; done].
  rewrite (bind_silent _ _ _ _ (set_paths (delete p (paths s)) s) eq_refl) in E.
  destruct (ok_named _ Hok _ _ Hp) as [f Hf].
  apply bind_inv in E as (u & s1 & w1 & w2 & E1 & E & ->).
  destruct (drop_file_spec _ _ _ _ _ _ Hok Hf _ E1) as [-> ->]. sim_inv.
  split; [done|]. split; [by apply ok_delete with (f := f)|]. by exists h.
Qed.

Lemma set_len_spec h len s r s' ws :
  sim_ok s → in_range u64_bits len → sim_set_len h len s = Some (r, s', ws) → ws = [] ∧ sim_ok s' ∧
  match r with
  | Err _ => s' = s
  | Ok _ => capped s s' ∧ ∃ f, s.(files) !! h = Some f ∧
      s' = with_file h (mkSimFile (upto len (resize len f.(data))) (Z.min f.(durable_len) len)) s
  end.
Proof.
  intros Hok [Hl0 Hl1] E. unfold sim_set_len in E. rewrite (bind_silent _ _ _ _ _ eq_refl) in E.
  destruct (files s !! h) as [f|] eqn:Hf; [|sim_inv; done]. cbv zeta in E.
  pose proof (ok_durable _ Hok _ _ Hf) as Hd. pose proof (ok_len _ Hok _ _ Hf) as Hlen.
  destruct (Z.leb_spec (blen (data f)) len) as [Hle|Hlt].
  - apply bind_inv in E as (x & s1 & w1 & w2 & E1 & E & ->). sim_inv.
    destruct (grow_to_spec _ _ _ _ _ _ _ Hok Hf E1) as [-> Hg].
    destruct x as [u|e]; simpl; [|by destruct Hg as (_ & -> & _)].
    pose proof (grow_to_capped _ _ _ _ _ _ _ Hok Hf E1) as Hcap.
    destruct Hg as (-> & Hb & Ht & _). split; [done|]. split; [apply ok_with_file with (f := f); simpl; rewrite ?blen_resize in *; try done; lia|].
    split; [exact Hcap|]. exists f. split; [done|]. f_equal. f_equal; [|lia]. symmetry. apply firstn_all2.
    rewrite blen_resize in Hb. pose proof (blen_resize len (data f)). unfold blen in *. lia.
  - sim_inv. split; [done|].
    assert (set_bytes_used (saturating_sub (bytes_used s) (blen (data f) - len))
        (set_files (<[h := mkSimFile (upto len (data f)) (durable_len f `min` len)]> (files s)) s)
      = with_file h (mkSimFile (upto len (resize len (data f))) (Z.min (durable_len f) len)) s) as Heq.
    { unfold with_file. rewrite resize_short by lia. f_equal.
      rewrite (ok_used _ Hok), (total_insert _ _ _ _ Hf). simpl. rewrite blen_upto by lia.
      unfold saturating_sub. pose proof (total_nonneg (delete h (files s))) as Hn.
      rewrite (total_delete _ _ _ Hf) in Hn. lia. }
    rewrite resize_short in * by lia. pose proof (ok_space _ Hok).
    assert (sim_ok (with_file h (mkSimFile (upto len (data f)) (Z.min (durable_len f) len)) s)) as Hok'.
    { eapply ok_with_file; [done|done| | |]; simpl; rewrite ?(total_insert _ _ _ _ Hf); simpl;
        rewrite ?blen_upto by lia; lia. }
    split; [by rewrite Heq|]. split; [intros cap _; simpl; unfold saturating_sub; pose proof (total_nonneg (files s)); rewrite (ok_used _ Hok); lia|].
    exists f. split; [done|]. rewrite resize_short by lia. exact Heq.
Qed.

Lemma fallocate_spec h off len s r s' ws :
  sim_ok s → sim_fallocate h off len s = Some (r, s', ws) → ws = [] ∧ sim_ok s' ∧
  match r with
  | Err _ => s' = s
  | Ok _ => capped s s' ∧ ∃ f n, s.(files) !! h = Some f ∧
      s' = with_file h (mkSimFile (resize n f.(data)) f.(durable_len)) s
  end.
Proof.
  intros Hok E. unfold sim_fallocate in E. rewrite (bind_silent _ _ _ _ _ eq_refl) in E.
  destruct (files s !! h) as [f|] eqn:Hf; [|sim_inv; done].
  rewrite bool_decide_eq_true_2 in E by done. simpl in E.
  apply bind_inv in E as (end_ & s1 & w1 & w2 & E1 & E & ->). apply lift_inv in E1 as (_ & -> & ->).
  apply bind_inv in E as (x & s1 & w1 & w3 & E1 & E & ->). sim_inv.
  pose proof (ok_durable _ Hok _ _ Hf).
  destruct (grow_to_spec _ _ _ _ _ _ _ Hok Hf E1) as [-> Hg].
  destruct x as [u|e]; simpl; [|by destruct Hg as (_ & -> & _)].
  pose proof (grow_to_capped _ _ _ _ _ _ _ Hok Hf E1) as Hcap.
  destruct Hg as (-> & Hb & Ht & _). split; [done|]. split; [|split; [exact Hcap|by exists f, end_]].
  apply ok_with_file with (f := f); simpl; rewrite ?blen_resize in *; try done; lia.
Qed.

Lemma fsync_spec h d s r s' ws :
  sim_ok s → sim_fsync h d s = Some (r, s', ws) → ws = [] ∧ sim_ok s' ∧
  match r with
  | Err _ => s' = s
  | Ok _ => (h ∉ s.(closed)) ∧
      (s.(fsync_lies) = true ∧ s' = s ∨
       s.(fsync_lies) = false ∧ ∃ f, s.(files) !! h = Some f ∧
         s' = with_file h (mkSimFile f.(data) (blen f.(data))) s)
  end.
Proof.
  intros Hok E. unfold sim_fsync in E. rewrite (bind_silent _ _ _ _ _ eq_refl) in E.
  case_bool_decide; [sim_inv; done|]. destruct (fsync_lies s) eqn:?.
  { sim_inv. split_and!; [done..|by left]. }
  destruct (files s !! h) as [f|] eqn:Hf; [|sim_inv; done]. sim_inv. split; [done|].
  set (f' := mkSimFile (data f) (blen (data f))).
  assert (total (<[h := f']> (files s)) = total (files s)) as Ht.
  { rewrite (total_insert _ _ _ _ Hf). simpl. lia. }
  assert (set_files (<[h := f']> (files s)) s = with_file h f' s) as ->.
  { unfold with_file. rewrite Ht, <-ok_used by done. by destruct s. }
  split; [|split; [done|]; right; split; [done|]; by exists f].
  pose proof (blen_nonneg (data f)). pose proof (ok_space _ Hok).
  apply ok_with_file with (f := f); simpl; [done..| | |by rewrite Ht]; [lia|by eapply ok_len].
Qed.

(** A new name and its empty file. *)
Definition create_file p s : SimState Path :=
  let h := s.(next_handle) in
  set_files (<[h := mkSimFile [] 0]> s.(files)) (set_paths (<[p := h]> s.(paths)) (set_next_handle (h + 1) s)).

Lemma fresh_handle s h : sim_ok s → s.(next_handle) ≤ h → s.(files) !! h = None.
Proof.
  intros Hok Hh. destruct (files s !! h) as [f|] eqn:Hf; [|done]. apply (ok_fresh _ Hok) in Hf. lia.
Qed.

Lemma ok_create p s : sim_ok s → s.(paths) !! p = None → sim_ok (create_file p s).
Proof.
  intros Hok Hp. pose proof (fresh_handle s _ Hok (Z.le_refl _)) as Hh.
  assert (total (<[next_handle s := mkSimFile [] 0]> (files s)) = total (files s)) as Ht
    by (rewrite total_fresh by done; simpl; unfold blen; simpl; lia).
  destruct Hok as [Hnd Hn Hi Hfr Hd Hl Hu Hs]. unfold create_file. constructor; simpl; rewrite ?Ht; try done.
  - intros q h [[<- <-]|[? Hq]]%lookup_insert_Some; [by rewrite lookup_insert_eq|].
    apply lookup_insert_is_Some'. right. eauto.
  - intros h f [[<- <-]|[? Hf]]%lookup_insert_Some; [exists p; by rewrite lookup_insert_eq|].
    destruct (Hn _ _ Hf) as [q Hq]. exists q. rewrite lookup_insert_ne; [done|]. intros <-. congruence.
  - intros q1 q2 h [[<- <-]|[? Hq1]]%lookup_insert_Some [[<- E2]|[? Hq2]]%lookup_insert_Some; try done; [| |eauto].
    + apply Hnd in Hq2. rewrite Hh in Hq2. by destruct Hq2.
    + subst h. apply Hnd in Hq1. rewrite Hh in Hq1. by destruct Hq1.
  - intros h f [[<- <-]|[? Hf]]%lookup_insert_Some; [lia|]. apply Hfr in Hf. lia.
  - intros h f [[<- <-]|[? Hf]]%lookup_insert_Some; [done|]. eauto.
  - intros h f [[<- <-]|[? Hf]]%lookup_insert_Some; [done|]. eauto.
Qed.

Definition truncate_file h s : SimState Path := with_file h (mkSimFile [] 0) s.

Lemma ok_truncate h f s : sim_ok s → s.(files) !! h = Some f → sim_ok (truncate_file h s).
Proof.
  intros Hok Hf. pose proof (ok_space _ Hok). pose proof (blen_nonneg (data f)).
  apply ok_with_file with (f := f); simpl; [done|done|done|done|].
  rewrite (total_insert _ _ _ _ Hf). simpl. change (blen []) with 0. lia.
Qed.

Lemma truncate_spec h f s1 u s2 w :
  sim_ok s1 → files s1 !! h = Some f → sim_truncate h s1 = Some (u, s2, w) →
  w = [] ∧ s2 = truncate_file h s1.
Proof.
  intros Hok1 Hf1 E1. unfold sim_truncate in E1. rewrite (bind_silent _ _ _ _ _ eq_refl), Hf1 in E1. sim_inv.
  split; [done|]. unfold truncate_file, with_file.
  rewrite (ok_used _ Hok1), (total_release _ _ _ Hf1), (total_insert _ _ _ _ Hf1).
  simpl. change (blen []) with 0. by rewrite Z.add_0_r.
Qed.

(** Opening: an existing file or a new one, emptied or not. *)
Lemma open_spec p flags mode s r s' ws :
  sim_ok s → s.(next_handle) + 1 < 2 ^ u64_bits → sim_open p flags mode s = Some (r, s', ws) →
  ws = [] ∧ sim_ok s' ∧
  match r with
  | Err _ => s' = s
  | Ok h => s'.(paths) !! p = Some h ∧ (h ∉ s'.(closed)) ∧
      (s.(paths) !! p = Some h ∧ is_Some (s.(files) !! h) ∧ s'.(paths) = s.(paths) ∧
         s'.(files) = (if has flags O_TRUNC then <[h := mkSimFile [] 0]> s.(files) else s.(files)) ∨
       s.(paths) !! p = None ∧ h = s.(next_handle) ∧ s.(files) !! h = None ∧
         s'.(paths) = <[p := h]> s.(paths) ∧ s'.(files) = <[h := mkSimFile [] 0]> s.(files))
  end.
Proof.
  intros Hok Hn E. unfold sim_open in E. rewrite (bind_silent _ _ _ _ _ eq_refl) in E. cbv zeta in E.
  destruct (bool_decide (is_Some (paths s !! p)) && _); [sim_inv; done|].
  destruct (negb (bool_decide (is_Some (paths s !! p))) && _); [sim_inv; done|].
  apply bind_inv in E as (h & s1 & w1 & w2 & E1 & E & ->).
  assert (w1 = [] ∧ sim_ok s1 ∧ paths s1 !! p = Some h ∧
    (paths s !! p = Some h ∧ s1 = s ∨ paths s !! p = None ∧ h = next_handle s ∧ s1 = create_file p s))
    as (-> & Hok1 & Hp1 & Hcase).
  { clear E. destruct (paths s !! p) as [h0|] eqn:Hp.
    - sim_inv. split_and!; [done..|by left].
    - rewrite uadd_in_range in E1 by done. sim_inv.
      simplify_eq. pose proof (ok_create p s Hok Hp) as Hc. split_and!; [done|exact Hc| |by right].
      simpl. by rewrite lookup_insert_eq. }
  destruct (ok_named _ Hok1 _ _ Hp1) as [f1 Hf1].
  apply bind_inv in E as (u & s2 & w1 & w3 & E2 & E & ->).
  assert (w1 = [] ∧ s2 = if has flags O_TRUNC then truncate_file h s1 else s1) as [-> Hs2].
  { clear E. destruct (has flags O_TRUNC); [by eapply truncate_spec|]. by sim_inv. }
  assert (sim_ok s2) as Hok2.
  { subst s2. destruct (has flags O_TRUNC); [by eapply ok_truncate|done]. }
  clear E1 E2. sim_inv. split; [done|]. split; [by eapply ok_same, Hok2|]. simpl.
  assert (paths (if has flags O_TRUNC then truncate_file h s1 else s1) = paths s1 ∧
    files (if has flags O_TRUNC then truncate_file h s1 else s1) =
      if has flags O_TRUNC then <[h := mkSimFile [] 0]> (files s1) else files s1) as [-> ->]
    by (by destruct (has flags O_TRUNC)).
  split_and!; [done|set_solver|]. destruct Hcase as [[Hp ->]|(Hp & -> & ->)]; [left|right].
  - split_and!; [done|done|done|done].
  - split_and!; [done|done|by apply fresh_handle|done|]. simpl.
    destruct (has flags O_TRUNC); [|done]. apply insert_insert_eq.
Qed.

Lemma blen_crash f : 0 ≤ f.(durable_len) ≤ blen f.(data) → blen (data (crash_file f)) = f.(durable_len).
Proof. intros. by apply blen_upto. Qed.

Lemma total_crash fs :
  (∀ h f, fs !! h = Some f → 0 ≤ f.(durable_len) ≤ blen f.(data)) → total (crash_file <$> fs) ≤ total fs.
Proof.
  induction fs as [|h f fs Hf IH] using map_ind; intros Hd; [by rewrite fmap_empty|].
  rewrite fmap_insert, !total_fresh by (rewrite ?lookup_fmap, ?Hf; done).
  assert (0 ≤ durable_len f ≤ blen (data f)) as Hdf by (eapply Hd, lookup_insert_eq).
  rewrite (blen_crash _ Hdf).
  assert (total (crash_file <$> fs) ≤ total fs); [|lia]. apply IH. intros h' f' Hf'.
  eapply (Hd h'). rewrite lookup_insert_ne; [done|]. by intros ->; simplify_eq.
Qed.

Lemma ok_crash s : sim_ok s → sim_ok (crash_and_reopen s).
Proof.
  intros Hok.
  constructor; simpl.
  - intros p h Hp. rewrite lookup_fmap. destruct (ok_named _ Hok _ _ Hp) as [f ->]. by eexists.
  - intros h f'. rewrite lookup_fmap_Some. intros (f & <- & Hf). by eapply ok_name.
  - by eapply ok_inj.
  - intros h f'. rewrite lookup_fmap_Some. intros (f & <- & Hf). by eapply ok_fresh.
  - intros h f'. rewrite lookup_fmap_Some. intros (f & <- & Hf).
    split; [apply blen_nonneg|done].
  - intros h f'. rewrite lookup_fmap_Some. intros (f & <- & Hf).
    rewrite blen_crash by (by eapply ok_durable). pose proof (ok_durable _ Hok _ _ Hf).
    pose proof (ok_len _ Hok _ _ Hf). lia.
  - done.
  - etrans; [|exact (ok_space _ Hok)]. apply total_crash. intros h f Hf. by eapply ok_durable.
Qed.

Lemma read_at_spec h mem len pos s r s' ws :
  sim_read_at h mem len pos s = Some (r, s', ws) → ws = [] ∧ s' = s.
Proof. intros E. unfold sim_read_at in E. rewrite (bind_silent _ _ _ _ _ eq_refl) in E. sim_inv; done. Qed.

(** The bytes of each file that its owner can count on: those it had at the
    last successful [fsync] that was no lie, less what was cut off since. *)
Definition durable_after (o : sim_op Path) (ok : bool) s s' (g : gmap Z (list byte)) : gmap Z (list byte) :=
  if ok then
    match o with
    | Open p flags _ =>
        match s'.(paths) !! p with
        | Some h => if has flags O_TRUNC || bool_decide (s.(paths) !! p = None) then <[h := []]> g else g
        | None => g
        end
    | Fsync h _ =>
        if s.(fsync_lies) then g
        else match s.(files) !! h with Some f => <[h := f.(data)]> g | None => g end
    | SetLen h len => alter (upto len) h g
    | _ => g
    end
  else g.

(** A log: nothing is written below what is durable. *)
Definition appends s (o : sim_op Path) : Prop :=
  match o with
  | WriteAt h _ pos => ∀ f, s.(files) !! h = Some f → f.(durable_len) ≤ pos
  | _ => True
  end.

(** A state reached from a new disk, and what is durable in it; handles do not
    run out. *)
Inductive history (disciplined : bool) : SimState Path → gmap Z (list byte) → Prop :=
| h_new : history disciplined sim_new ∅
| h_op s g o ok s' ws :
    history disciplined s g → op_ok o → s.(next_handle) + 1 < 2 ^ u64_bits →
    (disciplined = true → appends s o) →
    run_op o s = Some (ok, s', ws) →
    history disciplined s' (durable_after o ok s s' g).

Definition durable_is s (g : gmap Z (list byte)) : Prop :=
  ∀ h f, s.(files) !! h = Some f → g !! h = Some (upto f.(durable_len) f.(data)).

Lemma upto_upto n k l : 0 ≤ k ≤ n → upto k (upto n l) = upto k l.
Proof. intros. unfold upto. rewrite take_take. f_equal. lia. Qed.

Lemma upto_app_l n l k : n ≤ blen l → upto n (l ++ k) = upto n l.
Proof. intros. unfold upto, blen in *. apply take_app_le. lia. Qed.

Lemma upto_overwrite k pos src d : 0 ≤ k ≤ pos → pos ≤ blen d → upto k (overwrite pos src d) = upto k d.
Proof.
  intros. unfold overwrite. rewrite upto_app_l by (rewrite blen_upto by lia; lia). by apply upto_upto.
Qed.

Lemma upto_resize k n l : k ≤ blen l → upto k (resize n l) = upto k l.
Proof. apply upto_app_l. Qed.

Lemma durable_with_file h f f' s g g' :
  durable_is s g → s.(files) !! h = Some f →
  g' !! h = Some (upto f'.(durable_len) f'.(data)) → (∀ h', h' ≠ h → g' !! h' = g !! h') →
  durable_is (with_file h f' s) g'.
Proof.
  intros Hg Hf Hh Hne h' f1. simpl. intros [[<- <-]|[? Hf1]]%lookup_insert_Some; [done|].
  rewrite Hne by done. by apply Hg.
Qed.

Lemma capped_total s s' : sim_ok s → sim_ok s' → total s'.(files) ≤ total s.(files) → capped s s'.
Proof. intros Hok Hok' Ht cap _. rewrite (ok_used _ Hok), (ok_used _ Hok'). lia. Qed.

Lemma total_replace fs h f f' :
  fs !! h = Some f → blen f'.(data) ≤ blen f.(data) → total (<[h := f']> fs) ≤ total fs.
Proof. intros Hf ?. rewrite (total_insert _ _ _ _ Hf). lia. Qed.

Lemma run_op_ok o s ok s' ws :
  sim_ok s → op_ok o → s.(next_handle) + 1 < 2 ^ u64_bits →
  run_op o s = Some (ok, s', ws) → sim_ok s' ∧ capped s s'.
Proof.
  intros Hok Ho Hn E. destruct o; simpl in E; apply bind_inv in E as (r & s1 & w1 & w2 & E1 & E & ->);
    apply ret_inv in E as (-> & -> & ->).
  - apply (open_spec _ _ _ _ _ _ _ Hok Hn) in E1 as (_ & Hok' & Hr). split; [done|].
    apply capped_total; [done..|]. destruct r as [h0|]; [|by subst].
    destruct Hr as (_ & _ & [(_ & [f Hf] & _ & ->)|(_ & _ & Hf & _ & ->)]).
    + destruct (has flags O_TRUNC); [|done]. apply total_replace with f; [done|]. apply blen_nonneg.
    + rewrite total_fresh by done. simpl. unfold blen. simpl. lia.
  - apply read_at_spec in E1 as [_ ->]. split; [done|apply capped_refl].
  - destruct Ho as [Hs [Hp _]]. apply write_at_spec in E1 as [_ [[-> _]|(f & k & Hf & _ & _ & _ & _ & Hw)]]; [|..|done|done|done].
    + split; [done|apply capped_refl].
    + destruct Hw as (-> & Hc & Hb & Hle & Ht). split; [|done]. apply ok_torn.
      pose proof (ok_durable _ Hok _ _ Hf). eapply ok_with_file; [done|done| |done|done]. simpl in *. lia.
  - apply fsync_spec in E1 as (_ & Hok' & Hr); [|done]. split; [done|]. apply capped_total; [done..|].
    destruct r; [|by subst]. destruct Hr as [_ [[_ ->]|(_ & f & Hf & ->)]]; [done|].
    simpl. by apply total_replace with f.
  - apply fallocate_spec in E1 as (_ & Hok' & Hr); [|done]. split; [done|].
    destruct r; [apply Hr|subst; apply capped_refl].
  - apply set_len_spec in E1 as (_ & Hok' & Hr); [|done..]. split; [done|].
    destruct r; [apply Hr|subst; apply capped_refl].
  - unfold sim_close, sim_close_sync in E1. sim_inv. split; [by eapply ok_same, Hok|]. intros cap _. simpl. lia.
  - apply rename_spec in E1 as (_ & Hok' & Hr); [|done]. split; [done|]. apply capped_total; [done..|].
    destruct r; [|by destruct Hr as (-> & _)]. by destruct Hr as (h & _ & _ & ? & _).
  - apply remove_spec in E1 as (_ & Hok' & Hr); [|done]. split; [done|]. apply capped_total; [done..|].
    destruct r; [|by destruct Hr as (-> & _)]. destruct Hr as (h & Hp & _ & ->).
    destruct (ok_named _ Hok _ _ Hp) as [f Hf]. rewrite (total_delete _ _ _ Hf).
    pose proof (blen_nonneg (data f)). lia.
  - unfold set_disk_full_at in E1. sim_inv. split; [by eapply ok_same, Hok|]. intros cap _. simpl. lia.
  - unfold set_fsync_lies in E1. sim_inv. split; [by eapply ok_same, Hok|]. intros cap _. simpl. lia.
  - unfold inject_torn_write, set_torn_write in E1. sim_inv. split; [by eapply ok_same, Hok|]. intros cap _. simpl. lia.
  - sim_inv. pose proof (ok_crash _ Hok). split; [done|]. apply capped_total; [done..|].
    apply total_crash. intros h f Hf. exact (ok_durable _ Hok _ _ Hf).
Qed.

Lemma run_op_durable o s g ok s' ws :
  sim_ok s → durable_is s g → op_ok o → appends s o → s.(next_handle) + 1 < 2 ^ u64_bits →
  run_op o s = Some (ok, s', ws) → durable_is s' (durable_after o ok s s' g).
Proof.
  intros Hok Hg Ho Ha Hn E.
  destruct o; simpl in E; apply bind_inv in E as (r & s1 & w1 & w2 & E1 & E & ->);
    apply ret_inv in E as (-> & -> & ->); unfold durable_after.
  - apply (open_spec _ _ _ _ _ _ _ Hok Hn) in E1 as (_ & Hok' & Hr).
    destruct r as [h0|]; simpl; [|by subst].
    destruct Hr as (-> & _ & [(Hp & [f Hf] & _ & Hfs)|(Hp & _ & Hf & _ & Hfs)]); intros h f1; rewrite Hfs.
    + rewrite (bool_decide_eq_false_2 (paths s !! p = None)), orb_false_r by congruence.
      destruct (has flags O_TRUNC); [|by apply Hg].
      intros [[<- <-]|[? ?]]%lookup_insert_Some; [by rewrite lookup_insert_eq|].
      rewrite lookup_insert_ne by done. by apply Hg.
    + rewrite bool_decide_eq_true_2, orb_true_r by done.
      intros [[<- <-]|[? ?]]%lookup_insert_Some; [by rewrite lookup_insert_eq|].
      rewrite lookup_insert_ne by done. by apply Hg.
  - apply read_at_spec in E1 as [_ ->]. by destruct (_ <=? _).
  - destruct Ho as [Hs [Hp _]]. destruct (0 <=? r);
      (apply write_at_spec in E1 as [_ [[-> _]|(f & k & Hf & _ & Hk & _ & _ & Hw)]]; [done| |done..];
       destruct Hw as (-> & _); apply Ha in Hf as Hd; pose proof (ok_durable _ Hok _ _ Hf);
       intros h1 f1; simpl; intros [[<- <-]|[? Hf1]]%lookup_insert_Some; [|by apply Hg];
       simpl; rewrite upto_overwrite, upto_resize by (rewrite ?blen_resize; pose proof (blen_nonneg src); lia);
       by apply Hg).
  - apply fsync_spec in E1 as (_ & Hok' & Hr); [|done].
    destruct r; simpl; [|by subst]. destruct Hr as [_ [[-> ->]|(-> & f & Hf & ->)]]; [done|].
    rewrite Hf. eapply durable_with_file; [done|done| |].
    + rewrite lookup_insert_eq. f_equal. symmetry. apply take_ge. simpl. unfold blen. lia.
    + intros h' ?. by rewrite lookup_insert_ne.
  - apply fallocate_spec in E1 as (_ & Hok' & Hr); [|done].
    destruct r; simpl; [|by subst]. destruct Hr as (_ & f & n & Hf & ->).
    pose proof (ok_durable _ Hok _ _ Hf).
    eapply durable_with_file; [done|done| |done]. simpl. rewrite upto_resize by lia. by apply Hg.
  - apply set_len_spec in E1 as (_ & Hok' & Hr); [|done..].
    destruct r; simpl; [|by subst]. destruct Hr as (_ & f & Hf & ->).
    pose proof (ok_durable _ Hok _ _ Hf). destruct Ho as [Hlen _].
    eapply durable_with_file; [done|done| |].
    + rewrite lookup_alter_eq, (Hg _ _ Hf). simpl. f_equal.
      unfold upto, resize, blen in *. rewrite !take_take, take_app_le by lia. f_equal. lia.
    + intros h' ?. by rewrite lookup_alter_ne.
  - unfold sim_close, sim_close_sync in E1. sim_inv. by intros h' f ?%Hg.
  - apply rename_spec in E1 as (_ & Hok' & Hr); [|done].
    destruct r; simpl; [|by destruct Hr as (-> & _)]. destruct Hr as (h & _ & _ & _ & Hsub & _).
    intros h' f Hf. eapply Hg, lookup_weaken; done.
  - apply remove_spec in E1 as (_ & Hok' & Hr); [|done].
    destruct r; simpl; [|by destruct Hr as (-> & _)]. destruct Hr as (h & _ & _ & Hfs).
    intros h' f. rewrite Hfs. intros [_ Hf]%lookup_delete_Some. by apply Hg.
  - unfold set_disk_full_at in E1. sim_inv. by intros h f ?%Hg.
  - unfold set_fsync_lies in E1. sim_inv. by intros h f ?%Hg.
  - unfold inject_torn_write, set_torn_write in E1. sim_inv. by intros h f ?%Hg.
  - sim_inv. intros h f'. simpl. rewrite lookup_fmap_Some. intros (f & <- & Hf).
    pose proof (ok_durable _ Hok _ _ Hf). rewrite (Hg _ _ Hf). simpl. f_equal. symmetry.
    unfold upto. rewrite take_take. f_equal. unfold blen in *. rewrite length_take. lia.
Qed.

Lemma ok_new : sim_ok sim_new.
Proof. constructor; simpl; intros; by simplify_map_eq. Qed.

Lemma history_ok b s g : history b s g → sim_ok s.
Proof. induction 1 as [|s g o ok s' ws Hh IH]; [apply ok_new|]. by eapply run_op_ok. Qed.

Lemma history_durable s g : history true s g → durable_is s g.
Proof.
  induction 1 as [|s g o ok s' ws Hh IH]; [by intros ??; simplify_map_eq|].
  eapply run_op_durable; try done; [by eapply history_ok|auto].
Qed.

(** The simulated disk keeps its books: after any operations and faults,
    names and files correspond one to one, what is durable is a prefix of each
    file, the usage is the sum of the sizes and fits the address space; and no
    operation takes the usage past the configured capacity. *)
Theorem sim_accounts s g :
  history false s g →
  sim_ok s ∧
  ∀ o ok s' ws, op_ok o → s.(next_handle) + 1 < 2 ^ u64_bits → run_op o s = Some (ok, s', ws) →
    ∀ cap, s.(capacity_bytes) = Some cap → s'.(bytes_used) ≤ Z.max cap s.(bytes_used).
Proof.
  intros Hok%history_ok. split; [done|]. intros o ok s' ws Ho Hn E. by eapply run_op_ok.
Qed.

Lemma sim_reads h d f s mem len pos :
  (h ∉ s.(closed)) → s.(files) !! h = Some (mkSimFile d f) → blen d ≤ isize_max →
  0 ≤ pos ≤ blen d → 0 ≤ len → len < 2 ^ 31 →
  let n := Z.min len (blen d - pos) in
  sim_read_at h mem len pos s = Some ((n, upto n (from pos d) ++ from n mem), s, []).
Proof.
  intros Hc Hf Hmax Hp Hl Hl2 n. unfold sim_read_at. rewrite (bind_silent _ _ _ _ _ eq_refl).
  rewrite bool_decide_eq_false_2, Hf by done. simpl.
  replace (saturating_sub (blen d) pos `min` len) with n by (unfold saturating_sub; lia).
  rewrite uadd_in_range by (unfold isize_max, usize_bits in *; lia). simpl.
  rewrite (bind_silent _ _ _ (pos + n) s eq_refl).
  assert (((pos <=? pos + n) && (pos + n <=? blen d)) = true) as ->
    by (apply andb_true_iff; split; apply Z.leb_le; lia).
  rewrite (bind_silent _ _ _ tt s eq_refl). unfold ret, as_i32. rewrite Z.mod_small by lia.
  by destruct (Z.ltb_spec n (2 ^ 31)); [|lia].
Qed.

(** C14: crash safety of logs: in a history that writes no byte below what is
    durable, whatever else happens (torn writes, lying syncs, a full disk,
    renames, truncations, earlier crashes), a crash leaves of each file exactly
    what it held at its last honest sync, less what was cut off since; and
    reopened by name the file reads as that. *)
Theorem sim_crash_keeps_durable s g p h :
  history true s g → s.(paths) !! p = Some h →
  ∃ d s2, g !! h = Some d ∧ sim_open p O_RDWR 438 (crash_and_reopen s) = Some (Ok h, s2, []) ∧
    ∀ mem len pos, 0 ≤ pos ≤ blen d → 0 ≤ len < 2 ^ 31 →
      let n := Z.min len (blen d - pos) in
      sim_read_at h mem len pos s2 = Some ((n, upto n (from pos d) ++ from n mem), s2, []).
Proof.
  intros Hh Hp. pose proof (history_ok _ _ _ Hh) as Hok. destruct (ok_named _ Hok _ _ Hp) as [f Hf].
  pose proof (history_durable _ _ Hh _ _ Hf) as Hd. pose proof (ok_durable _ Hok _ _ Hf) as Hdur.
  pose proof (ok_len _ Hok _ _ Hf). set (d := upto (durable_len f) (data f)) in *.
  exists d, (set_closed (closed (crash_and_reopen s) ∖ {[h]}) (crash_and_reopen s)).
  split_and!; [done| |].
  - unfold sim_open. rewrite (bind_silent _ _ _ _ _ eq_refl).
    assert (paths (crash_and_reopen s) !! p = Some h) as Hp' by done.
    rewrite Hp', bool_decide_eq_true_2 by done. simpl.
    by rewrite (bind_silent _ _ _ h (crash_and_reopen s) eq_refl).
  - intros mem len pos ? ? n. apply (sim_reads h d (blen d)); [simpl; set_solver| | |lia..].
    + simpl. rewrite lookup_fmap, Hf. done.
    + subst d. rewrite blen_upto by lia. lia.
Qed.
End sim_facts.

(** ** [OpenOptions] and [UringFile], over any driver *)

Record OpenOptions := mkOpenOptions {
  o_read : bool;
  o_write : bool;
  o_append : bool;
  o_truncate : bool;
  o_create : bool;
  o_create_new : bool;
  o_mode : Z;
}.

Definition open_options_new : OpenOptions := mkOpenOptions false false false false false false 438.

Definition set_read (b : bool) (o : OpenOptions) : OpenOptions :=
  mkOpenOptions b o.(o_write) o.(o_append) o.(o_truncate) o.(o_create) o.(o_create_new) o.(o_mode).
Definition set_write (b : bool) (o : OpenOptions) : OpenOptions :=
  mkOpenOptions o.(o_read) b o.(o_append) o.(o_truncate) o.(o_create) o.(o_create_new) o.(o_mode).
Definition set_append (b : bool) (o : OpenOptions) : OpenOptions :=
  mkOpenOptions o.(o_read) o.(o_write) b o.(o_truncate) o.(o_create) o.(o_create_new) o.(o_mode).
Definition set_truncate (b : bool) (o : OpenOptions) : OpenOptions :=
  mkOpenOptions o.(o_read) o.(o_write) o.(o_append) b o.(o_create) o.(o_create_new) o.(o_mode).
Definition set_create (b : bool) (o : OpenOptions) : OpenOptions :=
  mkOpenOptions o.(o_read) o.(o_write) o.(o_append) o.(o_truncate) b o.(o_create_new) o.(o_mode).
Definition set_create_new (b : bool) (o : OpenOptions) : OpenOptions :=
  mkOpenOptions o.(o_read) o.(o_write) o.(o_append) o.(o_truncate) o.(o_create) b o.(o_mode).
Definition set_mode (m : Z) (o : OpenOptions) : OpenOptions :=
  mkOpenOptions o.(o_read) o.(o_write) o.(o_append) o.(o_truncate) o.(o_create) o.(o_create_new) m.

Definition raw_flags (o : OpenOptions) : Z :=
  let flags := O_CLOEXEC in
  let flags := Z.lor flags (if o.(o_write) then (if o.(o_read) then O_RDWR else O_WRONLY) else O_RDONLY) in
  let flags := if o.(o_append) then Z.lor flags O_APPEND else flags in
  let flags := if o.(o_truncate) then Z.lor flags O_TRUNC else flags in
  if o.(o_create_new) then Z.lor flags (Z.lor O_CREAT O_EXCL)
  else if o.(o_create) then Z.lor flags O_CREAT
  else flags.

(** A [Vec<u8>]: its allocation, and how much of it is initialised. *)
Record Vec := mkVec { mem : list byte; vlen : Z }.
Definition bytes_init (v : Vec) : Z := v.(vlen).
Definition bytes_total (v : Vec) : Z := blen v.(mem).
Definition vec_bytes (v : Vec) : list byte := upto v.(vlen) v.(mem).
Definition vec_ok (v : Vec) : Prop := 0 ≤ v.(vlen) ≤ blen v.(mem).

(** [set_init]: more than the capacity is undefined in a release build, and a
    panic in both here. *)
Definition set_init (n : Z) (v : Vec) : option Vec :=
  if v.(vlen) <? n then (if n <=? bytes_total v then Some (mkVec v.(mem) n) else None) else Some v.

Record UringFile := mkUringFile { handle : Z; file_closed : bool }.

Section file.
Context {Path D : Type} `{OpDriver Path D} `{BuildProfile}.

Definition open_on (o : OpenOptions) (path : Path) : M D (result UringFile io_error) :=
  let! r := drv_open path (raw_flags o) o.(o_mode) in
  ret match r with Ok h => Ok (mkUringFile h false) | Err e => Err e end.
Definition file_open_on : Path → M D (result UringFile io_error) :=
  open_on (set_write true (set_read true open_options_new)).
Definition file_create_on : Path → M D (result UringFile io_error) :=
  open_on (set_truncate true (set_create true (set_write true (set_read true open_options_new)))).

Definition uring_read_at (f : UringFile) (v : Vec) (pos : Z) : M D (result Z io_error * Vec) :=
  let! res := drv_read_at f.(handle) v.(mem) (as_u32 (bytes_total v)) pos in
  let v := mkVec res.2 v.(vlen) in
  let! r := lift (result_to_io res.1) in
  match r with
  | Ok n => let! v := lift (set_init n v) in ret (Ok n, v)
  | Err e => ret (Err e, v)
  end.
Definition uring_write_at (f : UringFile) (v : Vec) (pos : Z) : M D (result Z io_error * Vec) :=
  let! res := drv_write_at f.(handle) v.(mem) (as_u32 (bytes_init v)) pos in
  let! r := lift (result_to_io res) in
  ret (r, v).
Definition uring_fsync (f : UringFile) : M D (result unit io_error) := drv_fsync f.(handle) false.
Definition uring_fdatasync (f : UringFile) : M D (result unit io_error) := drv_fsync f.(handle) true.
Definition uring_fallocate (f : UringFile) (offset len : Z) : M D (result unit io_error) :=
  drv_fallocate f.(handle) offset len.
Definition uring_set_len (f : UringFile) (len : Z) : M D (result unit io_error) :=
  drv_set_len f.(handle) len.
Definition uring_drop (f : UringFile) : M D unit :=
  if f.(file_closed) then ret tt else drv_close_sync f.(handle).
(** [close] takes the file, whose drop then does nothing. *)
Definition uring_close (f : UringFile) : M D (result unit io_error) :=
  let f := mkUringFile f.(handle) true in
  let! r := drv_close f.(handle) in
  uring_drop f ;! ret r.
Definition rename_on : Path → Path → M D (result unit io_error) := drv_rename.
Definition remove_file_on : Path → M D (result unit io_error) := drv_remove_file.

(** What a driver promises of a file that is open and not past its end: a read
    gives the bytes that are there, a write that counts its bytes has put them
    there, and nothing else has changed. *)
Class LawfulDriver := {
  drv_ok : D → Prop;
  contents : D → Z → option (list byte);
  drv_read_law h mem len pos d c :
    drv_ok d → contents d h = Some c → 0 ≤ pos ≤ blen c → 0 ≤ len ≤ blen mem → len < 2 ^ 31 →
    let n := Z.min len (blen c - pos) in
    drv_read_at h mem len pos d = Some ((n, upto n (from pos c) ++ from n mem), d, []);
  drv_write_law h mem len pos d c r d' ws :
    drv_ok d → contents d h = Some c → 0 ≤ len ≤ blen mem → len < 2 ^ 31 → in_range u64_bits pos →
    drv_write_at h mem len pos d = Some (r, d', ws) →
    drv_ok d' ∧
    (- 2 ^ 31 < r < 0 ∧ d' = d ∨
     r = len ∧ contents d' h = Some (overwrite pos (upto len mem) (resize (pos + len) c)) ∧
     ∀ h', h' ≠ h → contents d' h' = contents d h');
}.

Lemma from_overwrite pos src c : 0 ≤ pos → pos + blen src ≤ blen c →
  upto (blen src) (from pos (overwrite pos src c)) = src.
Proof.
  intros. unfold overwrite, from, upto, blen in *.
  rewrite (drop_app_le _ _ (Z.to_nat pos)) by (rewrite length_take; lia).
  rewrite (drop_ge (take _ _)) by (rewrite length_take; lia). simpl.
  rewrite take_app_le by lia. apply take_ge. lia.
Qed.

(** On any driver that keeps its promise, a write that succeeds counts all
    its bytes and gives the buffer back as it was; reading there again, with
    any buffer large enough, succeeds and gives those bytes first.  A write
    that fails leaves the driver as it was, buffer included. *)
Theorem uring_roundtrip `{!LawfulDriver} f v pos c d r v' d' ws :
  drv_ok d → contents d f.(handle) = Some c → vec_ok v → blen v.(mem) < 2 ^ 31 → in_range u64_bits pos →
  uring_write_at f v pos d = Some ((r, v'), d', ws) →
  v' = v ∧
  match r with
  | Err _ => d' = d
  | Ok n => n = v.(vlen) ∧
      ∀ w, vec_ok w → v.(vlen) ≤ blen w.(mem) < 2 ^ 31 →
        ∃ m w', uring_read_at f w pos d' = Some ((Ok m, w'), d', []) ∧
          n ≤ m ∧ vec_ok w' ∧ m ≤ w'.(vlen) ∧ upto n (vec_bytes w') = vec_bytes v
  end.
Proof.
  intros Hd Hc [Hv1 Hv2] Hv3 Hpos E. unfold uring_write_at, as_u32, bytes_init in E.
  rewrite Z.mod_small in E by lia.
  apply bind_inv in E as (res & d1 & w1 & w2 & E1 & E & ->).
  destruct (drv_write_law f.(handle) v.(mem) (vlen v) pos d c res d1 w1 Hd Hc ltac:(lia) ltac:(lia) Hpos E1)
    as [Hd' [[Hres ->]|(-> & Hc' & _)]].
  { apply bind_inv in E as (x & d2 & w1' & w3 & E2 & E & ->). apply lift_inv in E2 as (Hr & -> & ->).
    apply ret_inv in E as ([= -> ->] & -> & ->). split; [done|].
    unfold result_to_io in Hr. destruct (Z.ltb_spec res 0); [|lia].
    unfold neg_i32 in Hr. destruct (Z.eqb_spec res (- 2 ^ 31)); [lia|]. simpl in Hr. by simplify_eq. }
  apply bind_inv in E as (x & d2 & w1' & w3 & E2 & E & ->). apply lift_inv in E2 as (Hr & -> & ->).
  apply ret_inv in E as ([= -> ->] & -> & ->). split; [done|].
  unfold result_to_io in Hr. destruct (Z.ltb_spec (vlen v) 0); [lia|]. simplify_eq. split; [done|].
  intros w [Hw1 Hw2] Hw. set (c' := overwrite _ _ _) in Hc'.
  assert (blen (upto (vlen v) (mem v)) = vlen v) as Hlen by (by apply blen_upto).
  assert (blen c' = Z.max (pos + vlen v) (blen c)) as Hc'len.
  { subst c'. destruct Hpos. rewrite blen_overwrite; rewrite ?Hlen, ?blen_resize; lia. }
  destruct Hpos as [Hpos _].
  set (m := Z.min (blen (mem w)) (blen c' - pos)).
  assert (m ≤ blen (mem w) ∧ m ≤ blen c' - pos ∧ vlen v ≤ m) as (Hm1 & Hm2 & Hm3) by lia.
  set (mem' := upto m (from pos c') ++ from m (mem w)).
  pose proof (drv_read_law f.(handle) (mem w) (blen (mem w)) pos d1 c' Hd' Hc' ltac:(lia) ltac:(lia) ltac:(lia)) as Hread.
  simpl in Hread. fold m mem' in Hread.
  assert (blen mem' = blen (mem w)) as Hmem.
  { subst mem'. rewrite blen_app, blen_upto, blen_from; rewrite ?blen_from; lia. }
  assert (upto (vlen v) mem' = vec_bytes v) as Hgot.
  { subst mem'. rewrite upto_app_l by (rewrite blen_upto; rewrite ?blen_from; lia).
    rewrite upto_upto by lia. unfold vec_bytes. rewrite <-Hlen at 1. subst c'.
    apply from_overwrite; [done|]. rewrite Hlen, blen_resize. lia. }
  exists m, (mkVec mem' (Z.max (vlen w) m)). unfold uring_read_at, as_u32, bytes_total.
  rewrite Z.mod_small by lia. rewrite (bind_silent _ _ _ _ _ Hread). simpl.
  unfold result_to_io. destruct (Z.ltb_spec m 0); [lia|]. simpl.
  rewrite (bind_silent _ _ _ (Ok m) d1 eq_refl).
  assert (set_init m (mkVec mem' (vlen w)) = Some (mkVec mem' (Z.max (vlen w) m))) as Hset.
  { unfold set_init, bytes_total. simpl. destruct (Z.ltb_spec (vlen w) m).
    - destruct (Z.leb_spec m (blen mem')); [|lia]. do 2 f_equal. lia.
    - do 2 f_equal. lia. }
  rewrite Hset. split_and!; [done|lia| |simpl; lia|].
  - unfold vec_ok. simpl. lia.
  - unfold vec_bytes. simpl. rewrite upto_upto by lia. done.
Qed.
End file.
Arguments LawfulDriver Path D {_}.

(** ** The simulated disk keeps the promise, faults apart *)

Section sim_lawful.
Context {Path : Type} `{Countable Path} `{BuildProfile}.

#[export] Program Instance SimDriver_lawful : LawfulDriver Path (SimState Path) := {
  drv_ok s := sim_ok s ∧ s.(torn_write) = None;
  contents s h := if bool_decide (h ∈ s.(closed)) then None else data <$> s.(files) !! h;
}.
Next Obligation.
  intros h mem len pos s c [Hok _] Hc Hp Hl Hl2 n. case_bool_decide as Hcl; [done|].
  destruct (files s !! h) as [[d l]|] eqn:Hf; simplify_eq/=.
  eapply sim_reads; [done..| | | |]; [by eapply ok_len in Hf|lia..].
Qed.
Next Obligation.
  intros h mem len pos s c r s' ws [Hok Ht] Hc Hl Hl2 Hp E. case_bool_decide as Hcl; [done|].
  destruct (files s !! h) as [f|] eqn:Hf; simplify_eq/=.
  assert (blen (upto len mem) = len) as Hlen by (by apply blen_upto).
  pose proof (write_at_spec _ _ _ _ _ _ _ Hok (proj1 Hp) ltac:(rewrite Hlen; change isize_max with (2 ^ 63 - 1); lia) E)
    as [_ [[-> Hr]|(f' & k & Hf' & _ & Hk & Hkt & Hr & Hw)]].
  - split; [done|]. left. split; [|done]. unfold EBADF, ENOSPC in Hr. lia.
  - simplify_eq. rewrite (Hkt Ht), Hlen in *. rewrite upto_upto in Hw by lia. destruct Hw as (-> & _ & Hb & Hle & Htot).
    pose proof (ok_durable _ Hok _ _ Hf). split.
    { split; [|done]. apply ok_torn. eapply ok_with_file; [done|done| |done|done]. simpl in *. lia. }
    right. split_and!.
    + unfold as_i32. rewrite Z.mod_small by lia. by destruct (Z.ltb_spec len (2 ^ 31)); [|lia].
    + simpl. by rewrite bool_decide_eq_false_2, lookup_insert_eq by done.
    + intros h' ?. simpl. by rewrite lookup_insert_ne.
Qed.
End sim_lawful.

(** ** At work *)

Section demo.
#[local] Existing Instance dev_profile.

Definition RW : Z := Z.lor O_RDWR O_CREAT.
(** A log on [1]: written, synced, appended to under a lying sync and a torn
    write; [2] is another file renamed over. *)
Definition log_ops : list (sim_op nat) :=
  [Open 1%nat RW 438; WriteAt 0 [10; 11; 12; 13] 0; Fsync 0 false;
   InjectTornWrite (SFdiv 53 1024 (f64_of_usize 1) (f64_of_usize 2));
   WriteAt 0 [14; 15; 16; 17] 4; SetFsyncLies true; Fsync 0 true;
   Open 2%nat RW 438; Rename 2%nat 3%nat].

Fixpoint run_ops (os : list (sim_op nat)) (s : SimState nat) : option (SimState nat) :=
  match os with
  | [] => Some s
  | o :: os => match run_op o s with Some (_, s', _) => run_ops os s' | None => None end
  end.
Fixpoint run_durable (os : list (sim_op nat)) (s : SimState nat) (g : gmap Z (list byte)) : gmap Z (list byte) :=
  match os with
  | [] => g
  | o :: os =>
      match run_op o s with
      | Some (ok, s', _) => run_durable os s' (durable_after o ok s s' g)
      | None => g
      end
  end.

Example torn_write_tears :
  (λ s, data <$> s.(files) !! 0) <$> run_ops log_ops sim_new = Some (Some [10; 11; 12; 13; 14; 15; 0; 0]).
Proof. vm_compute. reflexivity. Qed.

(** The side conditions of [history], for the operations above. *)
Definition side_ok (o : sim_op nat) (s : SimState nat) : bool :=
  (s.(next_handle) + 1 <? 2 ^ u64_bits) &&
  match o with
  | WriteAt h src pos =>
      (blen src <=? isize_max) && (0 <=? pos) && (pos <? 2 ^ u64_bits) &&
      match s.(files) !! h with Some f => f.(durable_len) <=? pos | None => true end
  | ReadAt _ _ _ _ | Fallocate _ _ _ | SetLen _ _ => false
  | _ => true
  end.
Fixpoint all_ok (os : list (sim_op nat)) (s : SimState nat) : bool :=
  match os with
  | [] => true
  | o :: os => side_ok o s && match run_op o s with Some (_, s', _) => all_ok os s' | None => false end
  end.

Lemma side_ok_sound b o s :
  side_ok o s = true → op_ok o ∧ s.(next_handle) + 1 < 2 ^ u64_bits ∧ (b = true → appends s o).
Proof.
  unfold side_ok. intros [Hn%Z.ltb_lt Ho]%andb_true_iff. split_and!; [|done|]; destruct o; try done.
  - rewrite !andb_true_iff, !Z.leb_le, Z.ltb_lt in Ho. split; [|split]; tauto.
  - rewrite !andb_true_iff in Ho. destruct Ho as [_ Ho]. intros _ f Hf. rewrite Hf in Ho. by apply Z.leb_le.
Qed.

Lemma run_ops_history b os : ∀ s g s',
  history b s g → all_ok os s = true → run_ops os s = Some s' → history b s' (run_durable os s g).
Proof.
  induction os as [|o os IH]; simpl; intros s g s' Hh Hs E; [by simplify_eq|].
  apply andb_true_iff in Hs as [Hs1 Hs2]. destruct (side_ok_sound b o s Hs1) as (Ho & Hn & Ha).
  destruct (run_op o s) as [[[ok s1] ws]|] eqn:E1; [|done]. apply IH; [by eapply h_op|done|done].
Qed.

Lemma log_history b :
  ∃ s, run_ops log_ops sim_new = Some s ∧ history b s (run_durable log_ops sim_new ∅) ∧
    s.(paths) !! 1%nat = Some 0 ∧ run_durable log_ops sim_new ∅ !! 0 = Some [10; 11; 12; 13].
Proof.
  destruct (run_ops log_ops sim_new) as [s|] eqn:E; [|by vm_compute in E]. exists s.
  split_and!; [done| | |vm_compute; reflexivity].
  - eapply run_ops_history; [apply h_new|vm_compute; reflexivity|done].
  - assert ((λ s, s.(paths) !! 1%nat) <$> run_ops log_ops sim_new = Some (Some 0)) as Hp
      by (vm_compute; reflexivity).
    rewrite E in Hp. by injection Hp.
Qed.

Lemma sim_accounts_witness : ∃ s, run_ops log_ops sim_new = Some s ∧ sim_ok s.
Proof.
  destruct (log_history false) as (s & Hs & Hh & _). exists s. split; [done|].
  by apply (sim_accounts s _ Hh).
Defined.

Lemma sim_crash_keeps_durable_witness :
  ∃ s s2, run_ops log_ops sim_new = Some s ∧
    sim_open 1%nat O_RDWR 438 (crash_and_reopen s) = Some (Ok 0, s2, []) ∧
    sim_read_at 0 [0; 0; 0; 0; 0; 0] 6 1 s2 = Some ((3, [11; 12; 13; 0; 0; 0]), s2, []).
Proof.
  destruct (log_history true) as (s & Hs & Hh & Hp & Hd).
  destruct (sim_crash_keeps_durable s _ _ _ Hh Hp) as (d & s2 & Hg & Ho & Hr).
  rewrite Hd in Hg. injection Hg as <-. exists s, s2. split; [done|]. split; [exact Ho|].
  assert (0 ≤ 1 ≤ blen [10; 11; 12; 13]) as H1 by (change (blen _) with 4; lia).
  assert (0 ≤ 6 < 2 ^ 31) as H6 by lia. exact (Hr [0; 0; 0; 0; 0; 0] 6 1 H1 H6).
Defined.

(** A file with one byte, open as handle 0. *)
Definition one_byte : SimState nat :=
  mkSim {[1%nat := 0]} {[0 := mkSimFile [7] 0]} 1 ∅ None 1 false None.

Lemma one_byte_ok : sim_ok one_byte.
Proof.
  constructor; simpl; intros *; rewrite ?lookup_singleton_Some; intros; destruct_and?; subst;
    rewrite ?lookup_singleton_eq in *; simplify_eq/=; try done.
  exists 1%nat. apply lookup_singleton_eq.
Qed.

Lemma uring_roundtrip_witness :
  ∃ d' ws, uring_write_at (mkUringFile 0 false) (mkVec [1; 2; 3] 2) 3 one_byte = Some ((Ok 2, mkVec [1; 2; 3] 2), d', ws) ∧
    ∃ m w', uring_read_at (mkUringFile 0 false) (mkVec [0; 0; 0; 0] 0) 3 d' = Some ((Ok m, w'), d', []) ∧
      upto 2 (vec_bytes w') = [1; 2].
Proof.
  assert ((λ x, x.1.1) <$> uring_write_at (mkUringFile 0 false) (mkVec [1; 2; 3] 2) 3 one_byte
    = Some (Ok 2, mkVec [1; 2; 3] 2)) as Hr by (vm_compute; reflexivity).
  destruct (uring_write_at _ _ _ one_byte) as [[[r d'] ws]|] eqn:E; [|done].
  injection Hr as ->. exists d', ws. split; [done|].
  assert (vec_ok (mkVec [1; 2; 3] 2) ∧ blen [1; 2; 3] < 2 ^ 31 ∧ in_range u64_bits 3) as (Hv & Hm & Hp)
    by (unfold vec_ok, blen, in_range, u64_bits; simpl; lia).
  assert (drv_ok one_byte) as Hok by (by split; [apply one_byte_ok|]).
  destruct (uring_roundtrip (mkUringFile 0 false) _ 3 [7] one_byte _ _ _ _ Hok eq_refl Hv Hm Hp E) as [_ [_ Hread]].
  destruct (Hread (mkVec [0; 0; 0; 0] 0)) as (m & w' & Hrd & _ & _ & _ & Hb);
    [by unfold vec_ok, blen; simpl; lia..|].
  exists m, w'. split; [exact Hrd|exact Hb].
Defined.

(** ** Where the disk departs from what it says *)

(** Reading from beyond the end does not read nothing: it panics. *)
Example read_past_end_panics : sim_read_at 0 [0; 0] 2 5 one_byte = None.
Proof. vm_compute. reflexivity. Qed.

(** A byte written over a durable one survives a crash with no sync after it. *)
Example overwritten_survives_crash :
  (λ s, data <$> s.(files) !! 0) <$>
    run_ops [Open 1%nat RW 438; WriteAt 0 [1; 2] 0; Fsync 0 false; WriteAt 0 [9] 0; CrashAndReopen] sim_new
  = Some (Some [9; 2]).
Proof. vm_compute. reflexivity. Qed.

(** The capacity, a fault setting, is inherited. *)
Example capacity_survives_crash s : capacity_bytes (crash_and_reopen s : SimState nat) = capacity_bytes s.
Proof. done. Qed.

(** Two opens of one path share one handle: closing the one closes the other,
    while [fallocate] and [set_len] go on working on closed handles. *)
Example close_closes_the_other :
  (λ s, ((λ x, x.1.1) <$> sim_fsync 0 false s, (λ x, x.1.1) <$> sim_set_len 0 1 s)) <$>
    run_ops [Open 1%nat RW 438; Open 1%nat RW 438; Close 0] sim_new
  = Some (Some (Err (OsError EBADF)), Some (Ok tt)).
Proof. vm_compute. reflexivity. Qed.

(** A read of fewer bytes than the buffer had leaves its length as it was. *)
Example short_read_keeps_length :
  (λ x, x.1.1) <$> uring_read_at (mkUringFile 0 false) (mkVec [1; 2; 3] 3) 0 one_byte
  = Some (Ok 1, mkVec [7; 2; 3] 3).
Proof. vm_compute. reflexivity. Qed.
End demo.
