(* ===== verification/UringRing.v ===== *)
(** The io_uring file driver ([src/src/io/uring_fs.rs]: [IoUringDriver],
    [OpFuture]): callers that submit, poll and drop operations, the driver's
    thread, and the kernel, one access at a time.

    What the kernel does with an entry is a parameter: it completes whatever it
    has consumed in any order and with any result.  A submission consumes the
    whole queue or, when the call fails, none of it.  An operation's id is its
    [user_data], and also stands for the waker of the task that polls it; ids
    are counted up and never reach the one reserved for the [eventfd]. *)

From S2P Require Import Prelude.

(** [user_data]: the wake [eventfd] or an operation. *)
Inductive entry := Wake | Op (id : nat).

#[export] Instance entry_eq_dec : EqDecision entry.
Proof. solve_decision. Defined.

(** [buf]: whether the submitted buffer is still inside. *)
Record OpState := mkOp { result : option Z; op_waker : option nat; buf : bool }.

Inductive submit_pc := SSlab | SPending | SWake.
Inductive poll_pc := PLoad | PStore | PReload.
(** The caller's side of an operation: inside [submit], between polls, inside
    [poll], told to wait, resolved, dropped. *)
Inductive future_pc :=
| FSubmit (p : submit_pc)
| FIdle
| FPoll (p : poll_pc)
| FParked
| FDone (r : Z)
| FPanicked
| FDropped.
Record OpFuture := mkFuture { pc : future_pc; woken : bool }.

(** The driver's thread in [event_loop] and [drain_pending]. *)
Inductive driver_pc :=
| DStart
| DCheck                       (* the top of the loop *)
| DPush                        (* the loop of [drain_pending] *)
| DFlush                       (* the queue is full: [submit] *)
| DPushAgain
| DSubmit                      (* [submit_and_wait]: submit *)
| DWait                        (* and wait *)
| DHandle                      (* the loop over the completions *)
| DDrainFd
| DArm
| DStore (id : nat) (r : Z)
| DTakeWaker (id : nat)
| DCallWaker (id : nat) (w : option nat)
| DExit.

Record world := mkWorld {
  next_id : nat;
  ops : gmap nat OpState;
  futures : gmap nat OpFuture;
  slab : gset nat;
  pending : list nat;
  eventfd : bool;
  driver : driver_pc;
  todo : list nat;             (* what [drain_pending] has taken *)
  sq : list entry;
  kernel : list entry;
  cq : list (entry * Z);
  completions : list (entry * Z);
  lost : list nat;             (* could not be pushed twice *)
}.

Definition set_future i f (W : world) := mkWorld W.(next_id) W.(ops) (<[i := f]> W.(futures)) W.(slab) W.(pending) W.(eventfd) W.(driver) W.(todo) W.(sq) W.(kernel) W.(cq) W.(completions) W.(lost).
Definition set_op i o (W : world) := mkWorld W.(next_id) (<[i := o]> W.(ops)) W.(futures) W.(slab) W.(pending) W.(eventfd) W.(driver) W.(todo) W.(sq) W.(kernel) W.(cq) W.(completions) W.(lost).
Definition set_next n (W : world) := mkWorld n W.(ops) W.(futures) W.(slab) W.(pending) W.(eventfd) W.(driver) W.(todo) W.(sq) W.(kernel) W.(cq) W.(completions) W.(lost).
Definition set_slab s (W : world) := mkWorld W.(next_id) W.(ops) W.(futures) s W.(pending) W.(eventfd) W.(driver) W.(todo) W.(sq) W.(kernel) W.(cq) W.(completions) W.(lost).
Definition set_pending l (W : world) := mkWorld W.(next_id) W.(ops) W.(futures) W.(slab) l W.(eventfd) W.(driver) W.(todo) W.(sq) W.(kernel) W.(cq) W.(completions) W.(lost).
Definition set_eventfd b (W : world) := mkWorld W.(next_id) W.(ops) W.(futures) W.(slab) W.(pending) b W.(driver) W.(todo) W.(sq) W.(kernel) W.(cq) W.(completions) W.(lost).
Definition set_driver d (W : world) := mkWorld W.(next_id) W.(ops) W.(futures) W.(slab) W.(pending) W.(eventfd) d W.(todo) W.(sq) W.(kernel) W.(cq) W.(completions) W.(lost).
Definition set_todo l (W : world) := mkWorld W.(next_id) W.(ops) W.(futures) W.(slab) W.(pending) W.(eventfd) W.(driver) l W.(sq) W.(kernel) W.(cq) W.(completions) W.(lost).
Definition set_queues s k c b (W : world) := mkWorld W.(next_id) W.(ops) W.(futures) W.(slab) W.(pending) W.(eventfd) W.(driver) W.(todo) s k c b W.(lost).
Definition set_lost l (W : world) := mkWorld W.(next_id) W.(ops) W.(futures) W.(slab) W.(pending) W.(eventfd) W.(driver) W.(todo) W.(sq) W.(kernel) W.(cq) W.(completions) l.

Section ring.
Context (entries : nat).       (* of the submission queue; 256 in [new] *)

(** [sq.push], when there is room. *)
Definition push (e : entry) (W : world) : option world :=
  if (length W.(sq) <? entries)%nat
  then Some (set_queues (W.(sq) ++ [e]) W.(kernel) W.(cq) W.(completions) W) else None.
(** [ring.submit]. *)
Definition consume (W : world) : world :=
  set_queues [] (W.(kernel) ++ W.(sq)) W.(cq) W.(completions) W.
Definition arm_wake (W : world) : world := default W (push Wake W).

(** [submit], up to the allocation of the operation. *)
Definition submit_new (W : world) : world :=
  let id := W.(next_id) in
  set_future id (mkFuture (FSubmit SSlab) false) (set_op id (mkOp None None true) (set_next (S id) W)).

(** The rest of [submit]: [slab], [pending], [wake]. *)
Definition submit_step (id : nat) (p : submit_pc) (W : world) : world * future_pc :=
  match p with
  | SSlab => (set_slab ({[id]} ∪ W.(slab)) W, FSubmit SPending)
  | SPending => (set_pending (W.(pending) ++ [id]) W, FSubmit SWake)
  | SWake => (set_eventfd true W, FIdle)
  end.

(** [OpFuture::take_result]. *)
Definition take_result (id : nat) (o : OpState) (r : Z) (W : world) : world * future_pc :=
  if o.(buf) then (set_op id (mkOp o.(result) o.(op_waker) false) W, FDone r) else (W, FPanicked).

(** [OpFuture::poll]. *)
Definition poll_step (id : nat) (p : poll_pc) (o : OpState) (W : world) : world * future_pc :=
  match p with
  | PLoad =>
      match o.(result) with Some r => take_result id o r W | None => (W, FPoll PStore) end
  | PStore => (set_op id (mkOp o.(result) (Some id) o.(buf)) W, FPoll PReload)
  | PReload =>
      match o.(result) with Some r => take_result id o r W | None => (W, FParked) end
  end.

(** One access of the driver's thread; [ok] is whether a submission, if it
    makes one, works. *)
Definition driver_step (ok : bool) (W : world) : option world :=
  match W.(driver) with
  | DStart => Some (set_driver DCheck (arm_wake W))
  | DCheck => Some (set_driver DPush (set_pending [] (set_todo W.(pending) W)))
  | DPush =>
      match W.(todo) with
      | [] => Some (set_driver DSubmit W)
      | id :: rest =>
          match push (Op id) W with
          | Some W => Some (set_todo rest W)
          | None => Some (set_driver DFlush W)
          end
      end
  | DFlush => Some (set_driver DPushAgain (if ok then consume W else W))
  | DPushAgain =>
      match W.(todo) with
      | [] => None
      | id :: rest =>
          match push (Op id) W with
          | Some W => Some (set_driver DPush (set_todo rest W))
          | None => Some (set_driver DPush (set_todo rest (set_lost (id :: W.(lost)) W)))
          end
      end
  | DSubmit => if ok then Some (set_driver DWait (consume W)) else None
  | DWait =>
      match W.(cq) with
      | [] => None
      | _ => Some (set_driver DHandle (set_queues W.(sq) W.(kernel) [] W.(cq) W))
      end
  | DHandle =>
      match W.(completions) with
      | [] => Some (set_driver DCheck W)
      | (e, r) :: rest =>
          let W := set_queues W.(sq) W.(kernel) W.(cq) rest W in
          match e with
          | Wake => Some (set_driver DDrainFd W)
          | Op id =>
              if bool_decide (id ∈ W.(slab))
              then Some (set_driver (DStore id r) (set_slab (W.(slab) ∖ {[id]}) W))
              else Some W
          end
      end
  | DDrainFd => Some (set_driver DArm (set_eventfd false W))
  | DArm => Some (set_driver DHandle (arm_wake W))
  | DStore id r =>
      match W.(ops) !! id with
      | Some o => Some (set_driver (DTakeWaker id) (set_op id (mkOp (Some r) o.(op_waker) o.(buf)) W))
      | None => None
      end
  | DTakeWaker id =>
      match W.(ops) !! id with
      | Some o => Some (set_driver (DCallWaker id o.(op_waker)) (set_op id (mkOp o.(result) None o.(buf)) W))
      | None => None
      end
  | DCallWaker id w =>
      Some (set_driver DHandle
        (match w with
         | Some i => match W.(futures) !! i with Some f => set_future i (mkFuture f.(pc) true) W | None => W end
         | None => W
         end))
  | DExit => None
  end.

Inductive step : relation world :=
| s_submit W : step W (submit_new W)
| s_submitting W id p b W' q :
    W.(futures) !! id = Some (mkFuture (FSubmit p) b) → submit_step id p W = (W', q) →
    step W (set_future id (mkFuture q b) W')
| s_poll W id f :
    W.(futures) !! id = Some f → f.(pc) = FIdle ∨ f.(pc) = FParked →
    step W (set_future id (mkFuture (FPoll PLoad) false) W)
| s_polling W id p b o W' q :
    W.(futures) !! id = Some (mkFuture (FPoll p) b) → W.(ops) !! id = Some o →
    poll_step id p o W = (W', q) →
    step W (set_future id (mkFuture q b) W')
(** A future is dropped between polls. *)
| s_drop W id f :
    W.(futures) !! id = Some f → f.(pc) = FIdle ∨ f.(pc) = FParked ∨ (∃ r, f.(pc) = FDone r) →
    step W (set_future id (mkFuture FDropped f.(woken)) W)
| s_driver W ok W' : driver_step ok W = Some W' → step W W'
(** [submit_and_wait] is interrupted, before or after the submission, or fails. *)
| s_interrupted W :
    W.(driver) = DSubmit ∨ W.(driver) = DWait → step W (set_driver DCheck W)
| s_fatal W :
    W.(driver) = DSubmit ∨ W.(driver) = DWait → step W (set_driver DExit W)
(** The shutdown flag is seen set at the top of the loop. *)
| s_shutdown W : W.(driver) = DCheck → step W (set_driver DExit W)
| s_complete W id r l1 l2 :
    W.(kernel) = l1 ++ Op id :: l2 →
    step W (set_queues W.(sq) (l1 ++ l2) (W.(cq) ++ [(Op id, r)]) W.(completions) W)
| s_fd_ready W r l1 l2 :
    W.(kernel) = l1 ++ Wake :: l2 → W.(eventfd) = true →
    step W (set_queues W.(sq) (l1 ++ l2) (W.(cq) ++ [(Wake, r)]) W.(completions) W).

Definition ring_init : world := mkWorld 0 ∅ ∅ ∅ [] false DStart [] [] [] [] [] [].
Definition ring_reachable : world → Prop := reachable (.= ring_init) step.

(** ** The invariant *)

(** How often an entry is on its way: it moves through six queues. *)
Definition occ (e : entry) (W : world) : nat :=
  (cnt e (Op <$> W.(pending)) + cnt e (Op <$> W.(todo)) + cnt e W.(sq) + cnt e W.(kernel)
   + cnt e (fst <$> W.(cq)) + cnt e (fst <$> W.(completions)))%nat.
#[local] Arguments list_fmap : simpl never.

Lemma is1_wake_op id : is1 Wake (Op id) = 0%nat.
Proof. by rewrite is1_ne. Qed.

Lemma is1_op_wake id : is1 (Op id) Wake = 0%nat.
Proof. by rewrite is1_ne. Qed.

(** Driver points from which the loop goes through all completions before it
    waits again, and those at which the wake [eventfd] is about to be armed. *)
Definition handling (d : driver_pc) : bool :=
  match d with
  | DHandle | DDrainFd | DArm | DStore _ _ | DTakeWaker _ | DCallWaker _ _ => true
  | _ => false
  end.
Definition arming (d : driver_pc) : bool :=
  match d with DStart | DDrainFd | DArm => true | _ => false end.
Definition pushing (d : driver_pc) : bool :=
  match d with DPush | DFlush | DPushAgain => true | _ => false end.
Definition blocking (d : driver_pc) : bool :=
  match d with DPush | DFlush | DPushAgain | DSubmit | DWait => true | _ => false end.

(** Somebody will still look at the future of an operation that has to wait. *)
Definition will_wake (W : world) (id : nat) (f : OpFuture) (o : OpState) : Prop :=
  f.(woken) = true ∨
  o.(op_waker) = Some id ∧ (o.(result) = None ∨ W.(driver) = DTakeWaker id) ∨
  W.(driver) = DCallWaker id (Some id).

Definition future_ok (W : world) (id : nat) (f : OpFuture) (o : OpState) : Prop :=
  match f.(pc) with
  | FSubmit SSlab => o = mkOp None None true ∧ (id ∉ W.(slab))
  | FSubmit SPending => o.(buf) = true ∧ (id ∈ W.(slab)) ∧ occ (Op id) W = 0%nat
  | FSubmit SWake | FIdle | FPoll PLoad | FPoll PStore => o.(buf) = true
  | FPoll PReload => o.(buf) = true ∧ (o.(result) = None → o.(op_waker) = Some id)
  | FParked => o.(buf) = true ∧ will_wake W id f o
  | FDone r => o.(result) = Some r ∧ o.(buf) = false
  | FPanicked => False
  | FDropped => True
  end ∧
  (o.(result) = None → (id ∈ W.(slab)) ∨ (∃ r, W.(driver) = DStore id r) ∨ f.(pc) = FSubmit SSlab).

Definition driver_ok (W : world) : Prop :=
  match W.(driver) with
  | DStart => W.(sq) = []
  | DWait => W.(sq) = []
  | DStore id _ => (id ∉ W.(slab)) ∧ (∀ f, W.(futures) !! id = Some f → f.(pc) ≠ FSubmit SSlab) ∧
      ∃ w, W.(ops) !! id = Some (mkOp None w true)
  | DTakeWaker id => ∃ r w b, W.(ops) !! id = Some (mkOp (Some r) w b)
  | _ => True
  end.

Record ring_inv (W : world) : Prop := {
  v_once e : (occ e W ≤ 1)%nat;
  v_wake : occ Wake W = if arming W.(driver) then 0%nat else 1%nat;
  v_slab id : (1 ≤ occ (Op id) W)%nat → id ∈ W.(slab);
  v_way id : id ∈ W.(slab) →
    (1 ≤ occ (Op id) W)%nat ∨ (id ∈ W.(lost)) ∨
    (∃ b, W.(futures) !! id = Some (mkFuture (FSubmit SPending) b));
  v_op id : id ∈ W.(slab) → ∃ w, W.(ops) !! id = Some (mkOp None w true);
  v_fresh id : (W.(next_id) ≤ id)%nat → W.(futures) !! id = None ∧ W.(ops) !! id = None;
  v_fut id f : W.(futures) !! id = Some f → ∃ o, W.(ops) !! id = Some o ∧ future_ok W id f o;
  v_driver : driver_ok W;
  v_sq e : handling W.(driver) = true → e ∈ W.(sq) → e = Wake;
  v_todo : pushing W.(driver) = false → W.(todo) = [];
  v_completions : handling W.(driver) = false → W.(completions) = [];
  v_fd : blocking W.(driver) = true → W.(pending) ≠ [] →
    W.(eventfd) = true ∨ ∃ id b, W.(futures) !! id = Some (mkFuture (FSubmit SWake) b);
}.

Context (Hentries : (0 < entries)%nat).

Ltac occ_simpl :=
  unfold occ in *; simpl in *;
  repeat (rewrite ?fmap_app, ?fmap_cons, ?fmap_nil, ?cnt_app, ?cnt_cons, ?cnt_nil, ?is1_same, ?is1_wake_op,
    ?is1_op_wake in *; simpl in * ).

Lemma init_inv : ring_inv ring_init.
Proof.
  constructor; simpl; try done; try (intros; set_solver).
  intros id. occ_simpl. lia.
Qed.

(** Driver points with a completion in hand. *)
Definition quiet (d : driver_pc) : bool :=
  match d with DStore _ _ | DTakeWaker _ | DCallWaker _ _ => false | _ => true end.

Lemma future_ok_mono W W' id f o :
  (id ∈ W'.(slab) ↔ id ∈ W.(slab)) → (occ (Op id) W' ≤ occ (Op id) W)%nat →
  W'.(driver) = W.(driver) ∨ quiet W.(driver) = true →
  future_ok W id f o → future_ok W' id f o.
Proof.
  intros Hs Ho Hd. unfold future_ok, will_wake. rewrite Hs.
  destruct Hd as [->|Hd].
  { intros [H1 H2]. split; [|done]. destruct (pc f) as [[]| |[]| | | |]; tauto || intuition lia. }
  intros [H1 H2]. split.
  - destruct (pc f) as [[]| |[]| | | |]; try done; try (intuition (lia || auto); fail).
    destruct H1 as [? [?|[(? & [?|H3])|H3]]]; try (rewrite H3 in Hd; done); tauto.
  - intros H. destruct (H2 H) as [?|[[r H3]|?]]; try (rewrite H3 in Hd; done); tauto.
Qed.

(** Steps of the driver and the kernel that move entries about. *)
Lemma shuffle W W' :
  ring_inv W →
  W'.(next_id) = W.(next_id) → W'.(ops) = W.(ops) → W'.(futures) = W.(futures) →
  W'.(slab) = W.(slab) → W'.(lost) = W.(lost) →
  (∀ id, occ (Op id) W' = occ (Op id) W) →
  occ Wake W' = (if arming W'.(driver) then 0%nat else 1%nat) →
  W'.(driver) = W.(driver) ∨ quiet W.(driver) = true ∧ quiet W'.(driver) = true →
  driver_ok W' →
  (∀ e, handling W'.(driver) = true → e ∈ W'.(sq) → e = Wake) →
  (pushing W'.(driver) = false → W'.(todo) = []) →
  (handling W'.(driver) = false → W'.(completions) = []) →
  (blocking W'.(driver) = true → W'.(pending) ≠ [] →
   W'.(eventfd) = true ∨ ∃ id b, W.(futures) !! id = Some (mkFuture (FSubmit SWake) b)) →
  ring_inv W'.
Proof.
  intros HI Hn Ho Hf Hs Hl Hocc Hw Hd ? ? ? ? ?. constructor; rewrite ?Hn, ?Ho, ?Hf, ?Hs, ?Hl; try done.
  - intros [|id]; [rewrite Hw; destruct (arming _); lia|]. rewrite Hocc. apply HI.
  - intros id. rewrite Hocc. apply HI.
  - intros id. rewrite Hocc. apply HI.
  - apply HI.
  - apply HI.
  - intros id f Hid. destruct (v_fut _ HI id f Hid) as (o & ? & ?). exists o. split; [done|].
    eapply future_ok_mono; [by rewrite Hs|by rewrite Hocc| |done]. destruct Hd as [?|[? ?]]; auto.
Qed.

Lemma cons_ne_same {A} (x : A) l : x :: l = l → False.
Proof. intros H%(f_equal length). simpl in H. lia. Qed.

Ltac shuffling HI Ed :=
  eapply (shuffle _ _ HI); unfold driver_ok; simpl; rewrite ?Ed; simpl; try done; try tauto.

Lemma push_inv e W W' :
  push e W = Some W' → W' = set_queues (W.(sq) ++ [e]) W.(kernel) W.(cq) W.(completions) W.
Proof. unfold push. destruct (_ <? _)%nat; by intros [= <-]. Qed.

Lemma push_empty e W :
  W.(sq) = [] → push e W = Some (set_queues [e] W.(kernel) W.(cq) W.(completions) W).
Proof.
  intros Hs. unfold push. rewrite Hs. destruct (Nat.ltb_spec (length (@nil entry)) entries); [done|].
  simpl in *. lia.
Qed.

Lemma arm_sq W :
  ring_inv W → handling W.(driver) = true → arming W.(driver) = true → W.(sq) = [].
Proof.
  intros HI Hh Ha. destruct (W.(sq)) as [|e l] eqn:Hs; [done|]. assert (He : e = Wake).
  { apply (v_sq _ HI); [done|]. rewrite Hs. left. }
  pose proof (v_wake _ HI) as Hw. rewrite Ha in Hw. occ_simpl. rewrite Hs, He in Hw.
  rewrite cnt_cons, is1_same in Hw. lia.
Qed.

Lemma arm_eq W :
  W.(sq) = [] → arm_wake W = set_queues [Wake] W.(kernel) W.(cq) W.(completions) W.
Proof. intros Hs. unfold arm_wake. by rewrite push_empty. Qed.

Lemma cnt_op_wake l : cnt Wake (Op <$> l) = 0%nat.
Proof. induction l as [|x l IH]; [done|]. by rewrite fmap_cons, cnt_cons, is1_ne. Qed.

(** The driver and the kernel move entries: nothing else changes. *)
Lemma inv_moves W ok W' :
  ring_inv W → driver_step ok W = Some W' →
  match W.(driver) with
  | DStart | DCheck | DPush | DFlush | DSubmit | DWait | DDrainFd | DArm => True
  | DPushAgain => W'.(lost) = W.(lost)
  | DHandle => W'.(slab) = W.(slab)
  | _ => False
  end → ring_inv W'.
Proof.
  intros HI Hstep Hd. pose proof (v_wake _ HI) as Hw. pose proof (v_driver _ HI) as Hdo.
  pose proof (v_todo _ HI) as Ht. pose proof (v_completions _ HI) as Hc. pose proof (v_fd _ HI) as Hfd.
  pose proof (v_sq _ HI) as Hsq. unfold driver_ok in Hdo.
  unfold driver_step in Hstep. destruct (driver W) eqn:Ed; try done; simpl in *.
  - injection Hstep as <-. rewrite arm_eq by done. shuffling HI Ed.
    + intros id. occ_simpl. rewrite Hdo, cnt_nil. lia.
    + occ_simpl. rewrite Hdo, cnt_nil in Hw. lia.
  - injection Hstep as <-. shuffling HI Ed.
    + intros id. occ_simpl. rewrite Ht by done. occ_simpl. lia.
    + occ_simpl. rewrite !cnt_op_wake in *. lia.
  - destruct (todo W) as [|x rest] eqn:Ex; simpl in *.
    + injection Hstep as <-. shuffling HI Ed.
    + destruct (push (Op x) W) as [W1|] eqn:Ep; injection Hstep as <-.
      * apply push_inv in Ep as ->. shuffling HI Ed.
        -- intros id. occ_simpl. rewrite Ex. occ_simpl. lia.
        -- occ_simpl. rewrite Ex in Hw. occ_simpl. lia.
      * shuffling HI Ed.
  - injection Hstep as <-. destruct ok; shuffling HI Ed.
    + intros id. occ_simpl. lia.
    + occ_simpl. lia.
  - destruct (todo W) as [|x rest] eqn:Ex; [done|]. simpl in *.
    destruct (push (Op x) W) as [W1|] eqn:Ep; injection Hstep as <-.
    + apply push_inv in Ep as ->. shuffling HI Ed.
      * intros id. occ_simpl. rewrite Ex. occ_simpl. lia.
      * occ_simpl. rewrite Ex in Hw. occ_simpl. lia.
    + simpl in Hd. by apply cons_ne_same in Hd.
  - destruct ok; [|done]. injection Hstep as <-. shuffling HI Ed.
    + intros id. occ_simpl. lia.
    + occ_simpl. lia.
  - destruct (cq W) as [|c l] eqn:Ex; [done|]. injection Hstep as <-.
    shuffling HI Ed.
    + intros id. occ_simpl. rewrite Ex, Hc by done. occ_simpl. lia.
    + occ_simpl. rewrite Ex, Hc in Hw by done. occ_simpl. lia.
    + rewrite Hdo. set_solver.
  - destruct (completions W) as [|[e r] rest] eqn:Ex; simpl in *.
    + injection Hstep as <-. shuffling HI Ed.
    + destruct e as [|x]; [|case_bool_decide; injection Hstep as <-].
      * injection Hstep as <-. shuffling HI Ed.
        -- intros id. occ_simpl. rewrite Ex. occ_simpl. lia.
        -- occ_simpl. rewrite Ex in Hw. occ_simpl. lia.
      * simpl in Hd. set_solver.
      * exfalso. apply H. apply (v_slab _ HI). occ_simpl. rewrite Ex. occ_simpl. lia.
  - injection Hstep as <-. shuffling HI Ed.
  - injection Hstep as <-. assert (Hs : W.(sq) = []) by (apply (arm_sq _ HI); by rewrite Ed).
    rewrite arm_eq by done. shuffling HI Ed.
    + intros id. occ_simpl. rewrite Hs. occ_simpl. lia.
    + occ_simpl. rewrite Hs in Hw. occ_simpl. lia.
    + set_solver.
Qed.

Lemma inv_lost W ok W' :
  ring_inv W → W.(driver) = DPushAgain → driver_step ok W = Some W' → W'.(lost) ≠ W.(lost) → ring_inv W'.
Proof.
  intros HI Ed Hstep Hl. unfold driver_step in Hstep. rewrite Ed in Hstep.
  destruct (todo W) as [|x rest] eqn:Ex; [done|].
  destruct (push (Op x) W) as [W1|] eqn:Ep; injection Hstep as <-; [by apply push_inv in Ep as ->|].
  assert (Hle : ∀ id, occ (Op id) W = (is1 (Op x) (Op id) +
    occ (Op id) (set_driver DPush (set_todo rest (set_lost (x :: W.(lost)) W))))%nat).
  { intros id. occ_simpl. rewrite Ex. occ_simpl. lia. }
  assert (Hw : occ Wake (set_driver DPush (set_todo rest (set_lost (x :: W.(lost)) W))) = occ Wake W).
  { occ_simpl. rewrite Ex. occ_simpl. lia. }
  constructor; simpl; try apply HI; try done.
  - intros [|id]; [rewrite Hw; apply HI|]. pose proof (v_once _ HI (Op id)) as H1. rewrite Hle in H1. lia.
  - rewrite Hw, (v_wake _ HI), Ed. done.
  - intros id H1. apply (v_slab _ HI). rewrite Hle. lia.
  - intros id Hid. destruct (v_way _ HI id Hid) as [H1|[H1|H1]]; [|set_solver|auto].
    rewrite Hle in H1. destruct (decide (x = id)) as [->|Hne]; [set_solver|].
    rewrite is1_ne in H1 by congruence. auto.
  - intros id f Hf. destruct (v_fut _ HI id f Hf) as (o & Ho & Hok). exists o. split; [done|].
    eapply future_ok_mono; [..|exact Hok]; [done| |right; by rewrite Ed]. rewrite Hle. lia.
  - intros _. apply (v_completions _ HI). by rewrite Ed.
  - intros _. apply (v_fd _ HI). by rewrite Ed.
Qed.

(** A completion is taken up: the operation leaves the slab. *)
Lemma inv_found W x r rest :
  ring_inv W → W.(driver) = DHandle → W.(completions) = (Op x, r) :: rest → x ∈ W.(slab) →
  ring_inv (set_driver (DStore x r) (set_slab (W.(slab) ∖ {[x]})
    (set_queues W.(sq) W.(kernel) W.(cq) rest W))).
Proof.
  intros HI Ed Ex Hx. set (W' := set_driver _ _).
  assert (Hle : ∀ e, occ e W = (is1 (Op x) e + occ e W')%nat).
  { intros e. occ_simpl. rewrite Ex. occ_simpl. lia. }
  assert (H0 : occ (Op x) W' = 0%nat).
  { pose proof (v_once _ HI (Op x)) as H1. rewrite Hle, is1_same in H1. lia. }
  destruct (v_op _ HI x Hx) as [w Hw].
  assert (Hfx : ∀ f, W.(futures) !! x = Some f → f.(pc) ≠ FSubmit SSlab ∧ f.(pc) ≠ FSubmit SPending).
  { intros f Hf. destruct (v_fut _ HI x f Hf) as (o & Ho & [Hok _]). split; intros E; rewrite E in Hok.
    - naive_solver.
    - destruct Hok as (_ & _ & Hok). rewrite Hle, is1_same in Hok. lia. }
  constructor; simpl; try done.
  - intros e. pose proof (v_once _ HI e) as H1. rewrite Hle in H1. lia.
  - pose proof (v_wake _ HI) as H1. rewrite Ed, Hle, is1_op_wake in H1. done.
  - intros id H1. destruct (decide (id = x)) as [->|]; [lia|].
    pose proof (v_slab _ HI id) as H2. rewrite Hle in H2. assert (id ∈ slab W) by (apply H2; lia). set_solver.
  - intros id [Hid Hne]%elem_of_difference. destruct (v_way _ HI id Hid) as [H1|H1]; [left|auto].
    rewrite Hle, is1_ne in H1; [done|set_solver].
  - intros id [Hid Hne]%elem_of_difference. by apply (v_op _ HI).
  - apply (v_fresh _ HI).
  - intros id f Hf. destruct (v_fut _ HI id f Hf) as (o & Ho & Hok). exists o. split; [done|].
    destruct (decide (id = x)) as [->|Hne].
    + destruct Hok as [Hok _], (Hfx f Hf). split; [|eauto].
      destruct (pc f) as [[]| |[]| | | |] eqn:Ep; try done.
      destruct Hok as [? [?|[(? & [?|H3])|H3]]]; try (rewrite H3 in Ed; done); unfold will_wake; tauto.
    + eapply future_ok_mono; [..|exact Hok]; [simpl; set_solver| |right; by rewrite Ed]. rewrite Hle. lia.
  - split; [simpl; set_solver|]. split; [|by exists w]. intros f Hf. by apply Hfx.
  - intros e _. apply (v_sq _ HI). by rewrite Ed.
  - intros _. apply (v_todo _ HI). by rewrite Ed.
Qed.

Lemma inv_store W x r o :
  ring_inv W → W.(driver) = DStore x r → W.(ops) !! x = Some o →
  ring_inv (set_driver (DTakeWaker x) (set_op x (mkOp (Some r) o.(op_waker) o.(buf)) W)).
Proof.
  intros HI Ed Ho. pose proof (v_driver _ HI) as Hdo. unfold driver_ok in Hdo. rewrite Ed in Hdo.
  destruct Hdo as (Hx & Hfx & w & Hw). rewrite Hw in Ho. injection Ho as <-. simpl.
  constructor; simpl; try apply HI; try done.
  - pose proof (v_wake _ HI) as H1. by rewrite Ed in H1.
  - intros id Hid. rewrite lookup_insert_ne by set_solver. by apply (v_op _ HI).
  - intros id Hid. destruct (v_fresh _ HI id Hid) as [? Hn]. split; [done|].
    rewrite lookup_insert_ne; [done|]. intros ->. by rewrite Hn in Hw.
  - intros id f Hf. destruct (v_fut _ HI id f Hf) as (o & Ho & Hok).
    destruct (decide (id = x)) as [->|Hne].
    + eexists. split; [by rewrite lookup_insert_eq|]. rewrite Hw in Ho. injection Ho as <-.
      pose proof (Hfx f Hf). destruct Hok as [Hok _]. split; [|done]. simpl in *.
      destruct (pc f) as [[]| |[]| | | |] eqn:Ep; simpl in *; try tauto.
      * destruct Hok as [_ [?|[(? & _)|H3]]]; [| |congruence]; unfold will_wake; simpl in *; tauto.
      * by destruct Hok.
    + exists o. split; [by rewrite lookup_insert_ne|]. destruct Hok as [Hok Hr]. split.
      * destruct (pc f) as [[]| |[]| | | |]; try done.
        destruct Hok as [? [?|[(? & [?|H3])|H3]]]; try congruence; unfold will_wake; tauto.
      * intros H. destruct (Hr H) as [?|[[? H3]|?]]; [tauto| |tauto]. congruence.
  - unfold driver_ok. simpl. rewrite lookup_insert_eq. eauto.
  - intros e _. apply (v_sq _ HI). by rewrite Ed.
  - intros _. apply (v_todo _ HI). by rewrite Ed.
Qed.

Lemma inv_take_waker W x o :
  ring_inv W → W.(driver) = DTakeWaker x → W.(ops) !! x = Some o →
  ring_inv (set_driver (DCallWaker x o.(op_waker)) (set_op x (mkOp o.(result) None o.(buf)) W)).
Proof.
  intros HI Ed Ho. pose proof (v_driver _ HI) as Hdo. unfold driver_ok in Hdo. rewrite Ed in Hdo.
  destruct Hdo as (r & w & b & Hw). rewrite Hw in Ho. injection Ho as <-. simpl.
  constructor; simpl; try apply HI; try done.
  - pose proof (v_wake _ HI) as H1. by rewrite Ed in H1.
  - intros id Hid. destruct (v_op _ HI id Hid) as [w' Hw']. rewrite lookup_insert_ne; [eauto|congruence].
  - intros id Hid. destruct (v_fresh _ HI id Hid) as [? Hn]. split; [done|].
    rewrite lookup_insert_ne; [done|]. intros ->. by rewrite Hn in Hw.
  - intros id f Hf. destruct (v_fut _ HI id f Hf) as (o & Ho & Hok).
    destruct (decide (id = x)) as [->|Hne].
    + eexists. split; [by rewrite lookup_insert_eq|]. rewrite Hw in Ho. injection Ho as <-.
      destruct Hok as [Hok _]. split; [|done]. simpl in *.
      destruct (pc f) as [[]| |[]| | | |] eqn:Ep; simpl in *; try naive_solver.
      unfold will_wake in *. simpl in *. destruct Hok as [-> [?|[(-> & _)|H3]]]; [tauto|tauto|congruence].
    + exists o. split; [by rewrite lookup_insert_ne|]. destruct Hok as [Hok Hr]. split.
      * destruct (pc f) as [[]| |[]| | | |]; try done.
        destruct Hok as [? [?|[(? & [?|H3])|H3]]]; try congruence; unfold will_wake; tauto.
      * intros H. destruct (Hr H) as [?|[[? H3]|?]]; [tauto| |tauto]. congruence.
  - intros e _. apply (v_sq _ HI). by rewrite Ed.
  - intros _. apply (v_todo _ HI). by rewrite Ed.
Qed.

(** The caller's side: one future and its operation change. *)
Lemma inv_caller W x f f' o o' :
  ring_inv W → W.(futures) !! x = Some f → W.(ops) !! x = Some o →
  (∀ p, f.(pc) ≠ FSubmit p) → (∀ p, f'.(pc) ≠ FSubmit p) →
  o'.(result) = o.(result) → (o.(result) = None → o'.(buf) = o.(buf)) →
  (future_ok W x f o → future_ok W x f' o') →
  ring_inv (set_future x f' (set_op x o' W)).
Proof.
  intros HI Hf Ho Hp Hp' Hr Hb Hok. assert (Hx : (x < W.(next_id))%nat).
  { destruct (decide (x < W.(next_id))%nat); [done|]. destruct (v_fresh _ HI x); [lia|congruence]. }
  constructor; simpl; try apply HI; try done.
  - intros id Hid. destruct (v_way _ HI id Hid) as [?|[?|[b H1]]]; [tauto|tauto|]. right. right.
    exists b. rewrite lookup_insert_ne; [done|]. intros ->. rewrite Hf in H1. injection H1 as ->.
    by apply (Hp SPending).
  - intros id Hid. destruct (v_op _ HI id Hid) as [w Hw]. destruct (decide (id = x)) as [->|Hne].
    + rewrite lookup_insert_eq. rewrite Hw in Ho. injection Ho as <-. destruct o' as [r' w' b']; simpl in *.
      exists w'. by rewrite Hr, Hb.
    + exists w. by rewrite lookup_insert_ne.
  - intros id Hid. rewrite !lookup_insert_ne by lia. by apply (v_fresh _ HI).
  - intros id g Hg. destruct (decide (id = x)) as [->|Hne].
    + rewrite lookup_insert_eq in Hg. injection Hg as <-. exists o'. rewrite lookup_insert_eq.
      split; [done|]. apply Hok. destruct (v_fut _ HI x f Hf) as (o2 & Ho2 & H2).
      rewrite Ho in Ho2. by injection Ho2 as <-.
    + rewrite lookup_insert_ne in Hg by done. rewrite lookup_insert_ne by done. by apply (v_fut _ HI).
  - pose proof (v_driver _ HI) as Hdo. unfold driver_ok in *. simpl. destruct (driver W); try done.
    + destruct Hdo as (Hx' & Hfx & w & Hw). split; [done|]. split.
      * intros g. destruct (decide (id = x)) as [->|Hne]; [rewrite lookup_insert_eq; intros [= <-]; apply Hp'|].
        rewrite lookup_insert_ne by done. apply Hfx.
      * destruct (decide (id = x)) as [->|Hne]; [|exists w; by rewrite lookup_insert_ne].
        rewrite lookup_insert_eq. rewrite Hw in Ho. injection Ho as <-. destruct o' as [r' w' b']; simpl in *.
        exists w'. by rewrite Hr, Hb.
    + destruct Hdo as (r & w & b & Hw). destruct (decide (id = x)) as [->|Hne].
      * rewrite lookup_insert_eq. rewrite Hw in Ho. injection Ho as <-. destruct o' as [r' w' b']; simpl in *.
        subst. eauto.
      * rewrite lookup_insert_ne by done. eauto.
  - intros Hb' Hp''. destruct (v_fd _ HI Hb' Hp'') as [?|(id & b & H1)]; [auto|]. right. exists id, b.
    rewrite lookup_insert_ne; [done|]. intros ->. rewrite Hf in H1. injection H1 as ->.
    by apply (Hp SWake).
Qed.

(** The waker is called: the future it stands for, if there is one, is told. *)
Lemma inv_call_waker W x w W' :
  ring_inv W → W.(driver) = DCallWaker x w →
  W' = match w with
       | Some i => match W.(futures) !! i with Some f => set_future i (mkFuture f.(pc) true) W | None => W end
       | None => W
       end → ring_inv (set_driver DHandle W').
Proof.
  intros HI Ed Heq.
  assert (Hsame : ∃ m, W' = mkWorld W.(next_id) W.(ops) m W.(slab) W.(pending) W.(eventfd) W.(driver)
      W.(todo) W.(sq) W.(kernel) W.(cq) W.(completions) W.(lost) ∧
    ∀ id, (W.(futures) !! id = m !! id ∧ w ≠ Some id) ∨
      ∃ f, W.(futures) !! id = Some f ∧ m !! id = Some (mkFuture f.(pc) true) ∨
      W.(futures) !! id = None ∧ m !! id = None).
  { exists (match w with Some i => match W.(futures) !! i with
      Some f => <[i := mkFuture f.(pc) true]> W.(futures) | None => W.(futures) end | None => W.(futures) end).
    subst W'. destruct w as [i|].
    - destruct (futures W !! i) as [f|] eqn:Ef.
      + split; [by destruct W|]. intros id. destruct (decide (id = i)) as [->|Hne].
        * right. exists f. rewrite lookup_insert_eq. auto.
        * left. rewrite lookup_insert_ne by done. split; [done|congruence].
      + split; [by destruct W|]. intros id. destruct (decide (id = i)) as [->|Hne].
        * right. exists (mkFuture FIdle false). auto.
        * left. split; [done|congruence].
    - split; [by destruct W|]. intros id. left. done. }
  clear Heq. destruct Hsame as (m & -> & Hm).
  assert (Hback : ∀ id p b, p = FSubmit SPending ∨ p = FSubmit SWake → W.(futures) !! id = Some (mkFuture p b) →
    ∃ b', m !! id = Some (mkFuture p b')).
  { intros id p b _ Hf. destruct (Hm id) as [[H1 _]|[f [[H1 H2]|[H1 _]]]]; [| |congruence].
    - exists b. congruence.
    - exists true. rewrite H1 in Hf. by injection Hf as ->. }
  constructor; simpl; try apply HI; try done.
  - pose proof (v_wake _ HI) as H1. by rewrite Ed in H1.
  - intros id Hid. destruct (v_way _ HI id Hid) as [?|[?|[b Hb]]]; [tauto|tauto|]. eauto.
  - intros id Hid. destruct (v_fresh _ HI id Hid) as [H1 ?]. split; [|done].
    destruct (Hm id) as [[? _]|[f [[H2 _]|[_ H2]]]]; congruence.
  - intros id f Hf.
    assert (∃ g, W.(futures) !! id = Some g ∧ f.(pc) = g.(pc) ∧
      (f.(woken) = true ∨ w ≠ Some id ∧ f.(woken) = g.(woken))) as (g & Hg & Hp & Hfw).
    { destruct (Hm id) as [[H1 H2]|[g [[H1 H2]|[H1 H2]]]].
      - exists f. rewrite H1. auto.
      - exists g. rewrite H1. rewrite H2 in Hf. injection Hf as <-. auto.
      - congruence. }
    destruct (v_fut _ HI id g Hg) as (o & Ho & [Hok Hr]). exists o. split; [done|].
    unfold future_ok. rewrite Hp. split.
    + destruct (pc g) as [[]| |[]| | | |]; try done. unfold will_wake in *. simpl.
      destruct Hok as [? [?|[(? & [?|H3])|H3]]]; try (rewrite Ed in H3; discriminate); [|tauto|].
      * destruct Hfw as [?|[_ Hfw]]; [tauto|]. rewrite Hfw. tauto.
      * rewrite Ed in H3. injection H3 as -> ->. destruct Hfw as [?|[? _]]; tauto.
    + intros H. destruct (Hr H) as [?|[[? H3]|?]]; [tauto| |tauto]. congruence.
  - intros e _. apply (v_sq _ HI). by rewrite Ed.
  - intros _. apply (v_todo _ HI). by rewrite Ed.
Qed.

Lemma fresh_slab W : ring_inv W → W.(next_id) ∉ W.(slab).
Proof. intros HI Hid. destruct (v_op _ HI _ Hid) as [w Hw]. by rewrite (proj2 (v_fresh _ HI _ (le_n _))) in Hw. Qed.

Lemma inv_submit W : ring_inv W → ring_inv (submit_new W).
Proof.
  intros HI. pose proof (fresh_slab _ HI) as Hs. destruct (v_fresh _ HI _ (le_n _)) as [Hf Ho].
  unfold submit_new. constructor; simpl; try apply HI; try done.
  - intros id Hid. destruct (v_way _ HI id Hid) as [?|[?|[b Hb]]]; [tauto|tauto|]. right. right.
    exists b. rewrite lookup_insert_ne; [done|]. intros Hn. congruence.
  - intros id Hid. destruct (v_op _ HI id Hid) as [w Hw]. exists w. rewrite lookup_insert_ne; [done|congruence].
  - intros id Hid. rewrite !lookup_insert_ne by lia. apply (v_fresh _ HI). lia.
  - intros id f Hfid. destruct (decide (id = W.(next_id))) as [->|Hne].
    + rewrite lookup_insert_eq in Hfid. injection Hfid as <-. eexists.
      split; [by rewrite lookup_insert_eq|]. split; simpl; tauto.
    + rewrite lookup_insert_ne in Hfid by done. rewrite lookup_insert_ne by done. by apply (v_fut _ HI).
  - pose proof (v_driver _ HI) as Hdo. unfold driver_ok in *. simpl. destruct (driver W); try done.
    + destruct Hdo as (? & Hfx & w & Hw). split; [done|]. rewrite !lookup_insert_ne by congruence. eauto.
    + destruct Hdo as (r & w & b & Hw). rewrite lookup_insert_ne by congruence. eauto.
  - intros Hb Hp. destruct (v_fd _ HI Hb Hp) as [?|(id & b & H1)]; [tauto|]. right. exists id, b.
    rewrite lookup_insert_ne; [done|congruence].
Qed.

(** A future in [submit] takes the step that [pc] names. *)
Lemma submitting_driver W x p b q s :
  ring_inv W → W.(futures) !! x = Some (mkFuture (FSubmit p) b) → q ≠ FSubmit SSlab →
  (∀ y, y ∈ s ↔ y ∈ W.(slab) ∨ p = SSlab ∧ y = x) →
  driver_ok (set_future x (mkFuture q b) (set_slab s W)).
Proof.
  intros HI Hf Hq Hs. pose proof (v_driver _ HI) as Hdo. unfold driver_ok in *. simpl.
  destruct (driver W); try done. destruct Hdo as (Hx & Hfx & Hw). split; [|split; [|done]].
  - rewrite Hs. intros [?|[-> ->]]; [done|]. by apply (Hfx _ Hf).
  - intros g. destruct (decide (id = x)) as [->|Hne]; [rewrite lookup_insert_eq; by intros [= <-]|].
    rewrite lookup_insert_ne by done. apply Hfx.
Qed.

Lemma inv_submit_slab W x b :
  ring_inv W → W.(futures) !! x = Some (mkFuture (FSubmit SSlab) b) →
  ring_inv (set_future x (mkFuture (FSubmit SPending) b) (set_slab ({[x]} ∪ W.(slab)) W)).
Proof.
  intros HI Hf. destruct (v_fut _ HI x _ Hf) as (o & Ho & [[-> Hx] _]). simpl in Hx.
  assert (H0 : occ (Op x) W = 0%nat).
  { pose proof (v_slab _ HI x). destruct (decide (1 ≤ occ (Op x) W)%nat); [tauto|lia]. }
  constructor; simpl; try apply HI; try done.
  - intros id H1. assert (id ∈ W.(slab)) by by apply (v_slab _ HI). set_solver.
  - intros id Hid. destruct (decide (id = x)) as [->|Hne].
    + right. right. exists b. by rewrite lookup_insert_eq.
    + rewrite lookup_insert_ne by done. apply (v_way _ HI). set_solver.
  - intros id Hid. destruct (decide (id = x)) as [->|Hne]; [eauto|]. apply (v_op _ HI). set_solver.
  - intros id Hid. rewrite lookup_insert_ne; [by apply (v_fresh _ HI)|]. intros ->.
    destruct (v_fresh _ HI id Hid). congruence.
  - intros id f Hfid. destruct (decide (id = x)) as [->|Hne].
    + rewrite lookup_insert_eq in Hfid. injection Hfid as <-. eexists. split; [done|].
      split; simpl; [|left; set_solver]. split; [done|]. split; [set_solver|done].
    + rewrite lookup_insert_ne in Hfid by done. destruct (v_fut _ HI id f Hfid) as (o & Ho' & Hok).
      exists o. split; [done|]. eapply future_ok_mono; [..|exact Hok]; [simpl; set_solver|done|by left].
  - eapply submitting_driver; [done|done|done|]. set_solver.
  - intros Hb Hp. destruct (v_fd _ HI Hb Hp) as [?|(id & b' & H1)]; [tauto|]. right. exists id, b'.
    rewrite lookup_insert_ne; [done|congruence].
Qed.

Lemma inv_submit_pending W x b :
  ring_inv W → W.(futures) !! x = Some (mkFuture (FSubmit SPending) b) →
  ring_inv (set_future x (mkFuture (FSubmit SWake) b) (set_pending (W.(pending) ++ [x]) W)).
Proof.
  intros HI Hf. destruct (v_fut _ HI x _ Hf) as (o & Ho & [(Hb & Hx & H0) _]).
  set (W' := set_future _ _ _).
  assert (Hle : ∀ e, occ e W' = (is1 (Op x) e + occ e W)%nat) by (intros e; occ_simpl; lia).
  constructor; simpl; try apply HI; try done.
  - intros e. rewrite Hle. destruct (decide (Op x = e)) as [<-|Hne]; [rewrite is1_same; lia|].
    rewrite is1_ne by done. apply HI.
  - rewrite Hle, is1_op_wake. apply (v_wake _ HI).
  - intros id. rewrite Hle. destruct (decide (x = id)) as [->|Hne]; [done|].
    rewrite is1_ne by congruence. apply (v_slab _ HI).
  - intros id Hid. rewrite Hle. destruct (decide (x = id)) as [->|Hne]; [rewrite is1_same; lia|].
    rewrite lookup_insert_ne by done. rewrite is1_ne by congruence. by apply (v_way _ HI).
  - intros id Hid. rewrite lookup_insert_ne; [by apply (v_fresh _ HI)|]. intros ->.
    destruct (v_fresh _ HI id Hid). congruence.
  - intros id f Hfid. destruct (decide (id = x)) as [->|Hne].
    + rewrite lookup_insert_eq in Hfid. injection Hfid as <-. exists o. split; [done|]. split; simpl; tauto.
    + rewrite lookup_insert_ne in Hfid by done. destruct (v_fut _ HI id f Hfid) as (o' & Ho' & Hok).
      exists o'. split; [done|]. eapply future_ok_mono; [..|exact Hok]; [done| |by left].
      rewrite Hle, is1_ne; [done|congruence].
  - eapply (submitting_driver W x SPending); [done|done|done|]. set_solver.
  - intros _ _. right. exists x, b. by rewrite lookup_insert_eq.
Qed.

Lemma inv_submit_wake W x b :
  ring_inv W → W.(futures) !! x = Some (mkFuture (FSubmit SWake) b) →
  ring_inv (set_future x (mkFuture FIdle b) (set_eventfd true W)).
Proof.
  intros HI Hf. destruct (v_fut _ HI x _ Hf) as (o & Ho & Hok).
  constructor; simpl; try apply HI; try done.
  - intros id Hid. destruct (v_way _ HI id Hid) as [?|[?|[b' Hb]]]; [tauto|tauto|]. right. right.
    exists b'. rewrite lookup_insert_ne; [done|congruence].
  - intros id Hid. rewrite lookup_insert_ne; [by apply (v_fresh _ HI)|]. intros ->.
    destruct (v_fresh _ HI id Hid). congruence.
  - intros id f Hfid. destruct (decide (id = x)) as [->|Hne].
    + rewrite lookup_insert_eq in Hfid. injection Hfid as <-. exists o. split; [done|].
      destruct Hok as [Hb Hr]. split; [done|]. intros H. destruct (Hr H) as [?|[?|?]]; [tauto|tauto|done].
    + rewrite lookup_insert_ne in Hfid by done. by apply (v_fut _ HI).
  - eapply (submitting_driver W x SWake); [done|done|done|]. set_solver.
  - auto.
Qed.

Lemma inv_driver W ok W' : ring_inv W → driver_step ok W = Some W' → ring_inv W'.
Proof.
  intros HI Hs. pose proof Hs as Hs'. unfold driver_step in Hs.
  destruct (driver W) eqn:Ed; try (apply (inv_moves W ok); [done|done|by rewrite Ed]).
  - destruct (decide (W'.(lost) = W.(lost))) as [Hl|Hl].
    + apply (inv_moves W ok); [done|done|by rewrite Ed].
    + by apply (inv_lost W ok).
  - destruct (decide (W'.(slab) = W.(slab))) as [Hl|Hl].
    + apply (inv_moves W ok); [done|done|by rewrite Ed].
    + destruct (completions W) as [|[[|x] r] rest] eqn:Ex; simplify_eq; try done.
      simpl in Hs. case_bool_decide; simplify_eq. by apply inv_found.
  - destruct (ops W !! id) eqn:Eo; simplify_eq. by apply inv_store.
  - destruct (ops W !! id) eqn:Eo; simplify_eq. by apply inv_take_waker.
  - simplify_eq. eapply inv_call_waker; [done|done|]. by destruct w.
Qed.

Lemma set_op_same x o W : W.(ops) !! x = Some o → set_op x o W = W.
Proof. intros H. destruct W. unfold set_op. simpl in *. by rewrite insert_id. Qed.

Lemma inv_polling W x p b o W' q :
  ring_inv W → W.(futures) !! x = Some (mkFuture (FPoll p) b) → W.(ops) !! x = Some o →
  poll_step x p o W = (W', q) → ring_inv (set_future x (mkFuture q b) W').
Proof.
  intros HI Hf Ho Hs. destruct (v_fut _ HI x _ Hf) as (o1 & Ho1 & Hok). rewrite Ho in Ho1.
  injection Ho1 as <-. destruct o as [r w bf]. unfold future_ok in Hok. simpl in Hok.
  assert (bf = true) as -> by (destruct p; tauto).
  assert (Htake : ∀ y, r = Some y → ring_inv (set_future x (mkFuture (FDone y) b) (set_op x (mkOp r w false) W))).
  { intros y ->. eapply inv_caller; [done..|]. intros _. done. }
  assert (Hstay : ∀ q, (∀ p, q ≠ FSubmit p) →
    (future_ok W x (mkFuture (FPoll p) b) (mkOp r w true) → future_ok W x (mkFuture q b) (mkOp r w true)) →
    ring_inv (set_future x (mkFuture q b) W)).
  { intros q' ? ?. rewrite <-(set_op_same _ _ _ Ho). by eapply inv_caller. }
  destruct p; simpl in Hs.
  - destruct r as [y|]; unfold take_result in Hs; simpl in Hs; simplify_eq; [by apply Htake|]. apply Hstay; [done|].
    intros [? Hr]. split; [done|]. intros Hn. destruct (Hr Hn) as [?|[?|?]]; [tauto|tauto|done].
  - simplify_eq. eapply inv_caller; [done..|]. intros [? Hr]. split; [done|].
    intros Hn. destruct (Hr Hn) as [?|[?|?]]; [tauto|tauto|done].
  - destruct r as [y|]; unfold take_result in Hs; simpl in Hs; simplify_eq; [by apply Htake|]. apply Hstay; [done|].
    intros [[_ Hw] Hr]. split.
    + split; [done|]. right. left. simpl in *. auto.
    + intros Hn. destruct (Hr Hn) as [?|[?|?]]; [tauto|tauto|done].
Qed.

Lemma inv_leave W q :
  ring_inv W → W.(driver) = DCheck ∨ W.(driver) = DSubmit ∨ W.(driver) = DWait → q = DCheck ∨ q = DExit →
  ring_inv (set_driver q W).
Proof.
  intros HI Hd Hq. pose proof (v_wake _ HI) as Hw. pose proof (v_todo _ HI) as Ht.
  pose proof (v_completions _ HI) as Hc.
  destruct Hd as [Ed|[Ed|Ed]]; rewrite Ed in *; destruct Hq as [-> | ->]; shuffling HI Ed.
Qed.

Lemma inv_kernel W e r l1 l2 :
  ring_inv W → W.(kernel) = l1 ++ e :: l2 →
  ring_inv (set_queues W.(sq) (l1 ++ l2) (W.(cq) ++ [(e, r)]) W.(completions) W).
Proof.
  intros HI Hk. eapply (shuffle _ _ HI); simpl; try done; try apply HI; try by left.
  - intros id. occ_simpl. rewrite Hk. occ_simpl. lia.
  - rewrite <-(v_wake _ HI). occ_simpl. rewrite Hk. occ_simpl. lia.
Qed.

Lemma inv_step W W' : ring_inv W → step W W' → ring_inv W'.
Proof.
  intros HI Hs. destruct Hs.
  - by apply inv_submit.
  - destruct p; simpl in *; simplify_eq.
    + by eapply inv_submit_slab.
    + by eapply inv_submit_pending.
    + by eapply inv_submit_wake.
  - destruct (v_fut _ HI id f H) as (o & Ho & Hok). rewrite <-(set_op_same _ _ _ Ho).
    eapply inv_caller; [done|done|done|intros p; by destruct H0 as [-> | ->]|done..|].
    intros [H1 H2]. split; simpl.
    + destruct H0 as [E|E]; rewrite E in H1; [done|apply H1].
    + intros Hr. destruct (H2 Hr) as [?|[?|E]]; [tauto|tauto|].
      destruct H0 as [E'|E']; rewrite E' in E; done.
  - by eapply inv_polling.
  - destruct (v_fut _ HI id f H) as (o & Ho & Hok). rewrite <-(set_op_same _ _ _ Ho).
    eapply inv_caller; [done|done|done|intros p; by destruct H0 as [-> |[-> |[? ->]]]|done..|].
    intros [H1 H2]. split; [done|]. intros Hr. destruct (H2 Hr) as [?|[?|E]]; [tauto|tauto|].
    destruct H0 as [E'|[E'|[? E']]]; rewrite E' in E; done.
  - by eapply inv_driver.
  - apply inv_leave; tauto.
  - apply inv_leave; tauto.
  - apply inv_leave; tauto.
  - by eapply inv_kernel.
  - by eapply inv_kernel.
Qed.

Lemma ring_reachable_inv W : ring_reachable W → ring_inv W.
Proof. apply invariant_reachable; [|intros; by eapply inv_step]. intros ? ->. apply init_inv. Qed.

(** ** Properties *)

Lemma occ_in e W :
  e ∈ Op <$> W.(pending) ∨ e ∈ Op <$> W.(todo) ∨ e ∈ W.(sq) ∨ e ∈ W.(kernel) → (1 ≤ occ e W)%nat.
Proof. unfold occ. intros [H|[H|[H|H]]]; apply cnt_in in H; lia. Qed.

(** C15: Whatever callers do, and whether or not the future of an operation has
    been dropped, an operation that has been queued or handed to the kernel and
    not completed is still in the driver's slab with the submitted buffer in
    it and no result; no entry is ever handed over twice; and a buffer is given
    back once, with the operation's own result: no poll finds it gone. *)
Theorem uring_memory_safe W :
  ring_reachable W →
  (∀ id, id ∈ W.(pending) ∨ id ∈ W.(todo) ∨ Op id ∈ W.(sq) ∨ Op id ∈ W.(kernel) →
     (id ∈ W.(slab)) ∧ ∃ w, W.(ops) !! id = Some (mkOp None w true)) ∧
  (∀ id, (cnt (Op id) W.(sq) + cnt (Op id) W.(kernel) ≤ 1)%nat) ∧
  (∀ id f, W.(futures) !! id = Some f →
     f.(pc) ≠ FPanicked ∧
     ∀ r, f.(pc) = FDone r → ∃ w, W.(ops) !! id = Some (mkOp (Some r) w false)).
Proof.
  intros HI%ring_reachable_inv. split_and!.
  - intros id Hid. assert (Hs : id ∈ W.(slab)).
    { apply (v_slab _ HI), occ_in. destruct Hid as [H|[H|H]]; [left|right; left|tauto];
        apply list_elem_of_fmap; eauto. }
    split; [done|]. by apply (v_op _ HI).
  - intros id. pose proof (v_once _ HI (Op id)) as H. unfold occ in H. lia.
  - intros id f Hf. destruct (v_fut _ HI id f Hf) as ([r w b] & Ho & [Hok _]). split.
    + intros E. by rewrite E in Hok.
    + intros y E. rewrite E in Hok. destruct Hok as [H1 H2]. simpl in *. subst. eauto.
Qed.

(** A future that waits and has not been told to look again is still going
    to be: its operation is in the slab with the future's waker stored, on its
    way to the kernel or back (or could not be queued even after a flush), or
    the driver is between taking up its completion and calling its waker.  And
    a driver about to wait while an operation is queued has armed its
    [eventfd], which is readable or will be as soon as the submitter's [wake]
    runs. *)
Theorem uring_wakeup W :
  ring_reachable W →
  (∀ id, W.(futures) !! id = Some (mkFuture FParked false) →
     ((id ∈ W.(slab)) ∧ W.(ops) !! id = Some (mkOp None (Some id) true) ∧
        ((1 ≤ occ (Op id) W)%nat ∨ (id ∈ W.(lost)))) ∨
     (∃ r, W.(driver) = DStore id r ∧ W.(ops) !! id = Some (mkOp None (Some id) true)) ∨
     (∃ r, W.(driver) = DTakeWaker id ∧ W.(ops) !! id = Some (mkOp (Some r) (Some id) true)) ∨
     W.(driver) = DCallWaker id (Some id)) ∧
  (W.(driver) = DWait → W.(cq) = [] → W.(pending) ≠ [] →
     Wake ∈ W.(kernel) ∧
     (W.(eventfd) = true ∨ ∃ id b, W.(futures) !! id = Some (mkFuture (FSubmit SWake) b))).
Proof.
  intros HI%ring_reachable_inv. split.
  - intros id Hf. destruct (v_fut _ HI id _ Hf) as ([r w b] & Ho & [[Hb Hw] Hr]). simpl in *. subst b.
    unfold will_wake in Hw. simpl in Hw. destruct Hw as [?|[[-> Hw]|?]]; [done| |tauto].
    pose proof (v_driver _ HI) as Hdo. unfold driver_ok in Hdo. destruct Hw as [->|Hd].
    + destruct (Hr eq_refl) as [Hs|[[r Hd]|?]]; [left|right; left; eauto|done].
      split; [done|]. split; [done|]. destruct (v_way _ HI id Hs) as [?|[?|[b H1]]]; [tauto|tauto|congruence].
    + right. right. left. rewrite Hd in Hdo. destruct Hdo as (y & w' & b & Hy). exists y. split; [done|].
      rewrite Ho in Hy. injection Hy as -> _ _. done.
  - intros Hd Hq Hp. split; [|apply (v_fd _ HI); by rewrite ?Hd].
    pose proof (v_wake _ HI) as Hw. pose proof (v_driver _ HI) as Hdo. unfold driver_ok in Hdo.
    rewrite Hd in Hw, Hdo. assert (Hc : W.(completions) = []) by (apply (v_completions _ HI); by rewrite Hd).
    unfold occ in Hw. rewrite Hdo, Hq, Hc, !cnt_op_wake in Hw. occ_simpl. apply cnt_pos. lia.
Qed.
End ring.

(** ** Concrete runs *)

(** A schedule of the steps used below, executed. *)
Inductive move := MSubmit | MSubmitting (id : nat) | MPoll (id : nat) | MPolling (id : nat) | MDriver (ok : bool).

Section run.
Context (entries : nat).

Definition do_move (m : move) (W : world) : option world :=
  match m with
  | MSubmit => Some (submit_new W)
  | MSubmitting id =>
      match W.(futures) !! id with
      | Some (mkFuture (FSubmit p) b) =>
          Some (set_future id (mkFuture (submit_step id p W).2 b) (submit_step id p W).1)
      | _ => None
      end
  | MPoll id =>
      match W.(futures) !! id with
      | Some (mkFuture FIdle b) => Some (set_future id (mkFuture (FPoll PLoad) false) W)
      | _ => None
      end
  | MPolling id =>
      match W.(futures) !! id, W.(ops) !! id with
      | Some (mkFuture (FPoll p) b), Some o =>
          Some (set_future id (mkFuture (poll_step id p o W).2 b) (poll_step id p o W).1)
      | _, _ => None
      end
  | MDriver ok => driver_step entries ok W
  end.

Lemma do_move_step m W W' : do_move m W = Some W' → step entries W W'.
Proof.
  destruct m as [|id|id|id|ok]; simpl; intros E; simplify_eq.
  - apply s_submit.
  - destruct (futures W !! id) as [[[p| | | | | |] b]|] eqn:Ef; simplify_eq.
    eapply s_submitting; [done|]. by destruct (submit_step id p W).
  - destruct (futures W !! id) as [[[| | | | | |] b]|] eqn:Ef; simplify_eq. eapply s_poll; [done|by left].
  - destruct (futures W !! id) as [[[| |p| | | |] b]|] eqn:Ef; simplify_eq.
    destruct (ops W !! id) as [o|] eqn:Eo; simplify_eq.
    eapply s_polling; [done|done|]. by destruct (poll_step id p o W).
  - by eapply s_driver.
Qed.
End run.

Lemma ring_run entries (ms : list move) (P : world → Prop) (test : world → bool) :
  (∀ W, test W = true → P W) →
  match run_moves (do_move entries) ms ring_init with Some W => test W | None => false end = true →
  ∃ W, ring_reachable entries W ∧ P W.
Proof. apply run_ends; [intros; by eapply do_move_step|done]. Qed.

Definition submit_and_poll (id : nat) : list move :=
  [MSubmit; MSubmitting id; MSubmitting id; MSubmitting id; MPoll id; MPolling id; MPolling id; MPolling id].

Lemma uring_memory_safe_witness :
  ∃ W : world, ring_reachable 256 W ∧ W.(kernel) = [Wake; Op 0] ∧
    ∃ w, W.(ops) !! 0%nat = Some (mkOp None w true).
Proof.
  destruct (ring_run 256 (submit_and_poll 0 ++ replicate 5 (MDriver true))
    (λ W, W.(kernel) = [Wake; Op 0]) (λ W, bool_decide (W.(kernel) = [Wake; Op 0])))
    as (W & HW & Hk); [intros W; apply bool_decide_eq_true_1|vm_compute; reflexivity|].
  exists W. split; [exact HW|]. split; [exact Hk|].
  destruct (uring_memory_safe 256 ltac:(lia) W HW) as (H & _). apply (H 0%nat). rewrite Hk.
  right. right. right. set_solver.
Defined.

Lemma uring_wakeup_witness :
  ∃ W : world, ring_reachable 256 W ∧ W.(driver) = DWait ∧ W.(pending) ≠ [] ∧ Wake ∈ W.(kernel).
Proof.
  destruct (ring_run 256 (replicate 4 (MDriver true) ++ [MSubmit; MSubmitting 0; MSubmitting 0])
    (λ W, W.(driver) = DWait ∧ W.(cq) = [] ∧ W.(pending) = [0%nat])
    (λ W, match W.(driver), W.(cq), W.(pending) with DWait, [], [0%nat] => true | _, _, _ => false end))
    as (W & HW & Hd & Hc & Hp); [|vm_compute; reflexivity|].
  { intros W. destruct (driver W); try done. destruct (cq W); try done.
    destruct (pending W) as [|[|] []]; done. }
  exists W. split; [exact HW|]. split; [exact Hd|]. rewrite Hp. split; [done|].
  destruct (uring_wakeup 256 ltac:(lia) _ HW) as [_ H]. apply H; [done|done|by rewrite Hp].
Defined.

(** When the queue is full and the flush fails, the entry is dropped and its
    future waits for ever: nothing in the ring mentions the operation. *)
Example uring_entry_lost :
  ∃ W, ring_reachable 1 W ∧ W.(driver) = DWait ∧
    W.(futures) !! 0%nat = Some (mkFuture FParked false) ∧ occ (Op 0) W = 0%nat.
Proof.
  apply (ring_run 1 (submit_and_poll 0 ++ replicate 5 (MDriver false) ++ replicate 2 (MDriver true)) _
    (λ W, match W.(driver), W.(futures) !! 0%nat, occ (Op 0) W with
          | DWait, Some (mkFuture FParked false), 0%nat => true | _, _, _ => false end)).
  - intros W. destruct (driver W); try done.
    destruct (futures W !! 0%nat) as [[[] []]|]; try done. by destruct (occ (Op 0) W).
  - vm_compute. reflexivity.
Qed.
