(* ===== verification/Signal.v ===== *)
(** Signals ([src/src/signal.rs]): the handler, the pipe, the task that reads
    it, and the listeners, one access at a time, on both platforms.

    The operating system is the environment: whether the set-up and
    [sigaction] work is an argument, and so is how much a read of the pipe
    returns.  The reading task waits through the reactor ([Readiness]); here it
    may go on when the pipe has bytes.  A listener has one task polling it, so
    its stored waker is a flag.  [owed] and [fired] are what the theorems
    compare: a signal arrived since the listener last resolved, and how often
    it has. *)

From S2P Require Import Prelude AsyncIo.

Inductive platform := Unix | Windows.
(** [NSIG], [NCTRL]. *)
Definition slot_count (p : platform) : Z := match p with Unix => 64 | Windows => 7 end.

Inductive listener_pc := LIdle | LSwap | LStore | LSwapAgain | LParked | LDropped.
Record ListenerState := mkListener {
  kind : nat; pending : bool; waker : bool; pc : listener_pc; woken : bool; owed : bool; fired : nat;
}.

(** [reader_loop]: about to read; with the bytes of a batch in hand; in
    [dispatch] with the slot of [s] locked, the listeners kept so far and those
    to come; about to take the waker of [i]; stopped. *)
Inductive reader_pc :=
| RRead
| RBytes (bs : list nat)
| RSlot (s : nat) (kept todo : list nat) (bs : list nat)
| RWaker (s : nat) (kept : list nat) (i : nat) (todo : list nat) (bs : list nat)
| RGone.

Record world := mkWorld {
  initialized : option (result unit io_error);   (* [GLOBAL] *)
  slots : gmap nat (list nat);                   (* weak references, by kind *)
  installed : gset nat;
  listeners : gmap nat ListenerState;
  next_id : nat;
  pipe : list nat;
  reader : reader_pc;
  lost : bool;                                   (* a write has failed *)
  raised : gmap nat nat;
}.

Definition set_initialized g (W : world) := mkWorld g W.(slots) W.(installed) W.(listeners) W.(next_id) W.(pipe) W.(reader) W.(lost) W.(raised).
Definition set_slot s l (W : world) := mkWorld W.(initialized) (<[s := l]> W.(slots)) W.(installed) W.(listeners) W.(next_id) W.(pipe) W.(reader) W.(lost) W.(raised).
Definition set_installed i (W : world) := mkWorld W.(initialized) W.(slots) i W.(listeners) W.(next_id) W.(pipe) W.(reader) W.(lost) W.(raised).
Definition set_listeners m (W : world) := mkWorld W.(initialized) W.(slots) W.(installed) m W.(next_id) W.(pipe) W.(reader) W.(lost) W.(raised).
Definition set_next n (W : world) := mkWorld W.(initialized) W.(slots) W.(installed) W.(listeners) n W.(pipe) W.(reader) W.(lost) W.(raised).
Definition set_pipe p (W : world) := mkWorld W.(initialized) W.(slots) W.(installed) W.(listeners) W.(next_id) p W.(reader) W.(lost) W.(raised).
Definition set_reader r (W : world) := mkWorld W.(initialized) W.(slots) W.(installed) W.(listeners) W.(next_id) W.(pipe) r W.(lost) W.(raised).
Definition set_lost (W : world) := mkWorld W.(initialized) W.(slots) W.(installed) W.(listeners) W.(next_id) W.(pipe) W.(reader) true W.(raised).
Definition set_raised r (W : world) := mkWorld W.(initialized) W.(slots) W.(installed) W.(listeners) W.(next_id) W.(pipe) W.(reader) W.(lost) r.

Definition slot (s : nat) (W : world) : list nat := default [] (W.(slots) !! s).
Definition raises (s : nat) (W : world) : nat := default 0%nat (W.(raised) !! s).
Definition live (l : ListenerState) : bool := match l.(pc) with LDropped => false | _ => true end.
Definition locked (s : nat) (W : world) : bool :=
  match W.(reader) with
  | RSlot s' _ _ _ | RWaker s' _ _ _ _ => bool_decide (s' = s)
  | _ => false
  end.

Section signal.
Context (p : platform) (capacity : nat).      (* of the pipe, in bytes *)

(** [global]: set up once, the outcome kept for good. *)
Definition global (env : result unit io_error) (W : world) : world * result unit io_error :=
  match W.(initialized) with
  | Some r => (W, r)
  | None => (set_initialized (Some env) W, env)
  end.

Definition new_listener (s : nat) (W : world) : world * result nat io_error :=
  let i := W.(next_id) in
  (set_slot s (slot s W ++ [i])
     (set_next (S i) (set_listeners (<[i := mkListener s false false LIdle false false 0]> W.(listeners)) W)),
   Ok i).

(** [signal] (Unix): [env] is what the set-up gives if it is still to be done,
    [inst] what [sigaction] does. *)
Definition signal (env inst : result unit io_error) (k : Z) (W : world) : world * result nat io_error :=
  let '(W, r) := global env W in
  match r with
  | Err e => (W, Err e)
  | Ok _ =>
      let signum := k mod 2 ^ usize_bits in
      if signum <? slot_count Unix then
        let s := Z.to_nat signum in
        if bool_decide (s ∈ W.(installed)) then new_listener s W
        else
          match inst with
          | Err e => (W, Err e)
          | Ok _ => new_listener s (set_installed ({[s]} ∪ W.(installed)) W)
          end
      else (W, Err InvalidInput)
  end.

(** [listen_for] (Windows). *)
Definition listen_for (env : result unit io_error) (ctrl_type : Z) (W : world) : world * result nat io_error :=
  let '(W, r) := global env W in
  match r with
  | Err e => (W, Err e)
  | Ok _ =>
      let signum := ctrl_type mod 2 ^ usize_bits in
      if signum <? slot_count Windows then new_listener (Z.to_nat signum) W else (W, Err InvalidInput)
  end.

Definition subscribe (env inst : result unit io_error) (k : Z) (W : world) : world * result nat io_error :=
  match p with Unix => signal env inst k W | Windows => listen_for env k W end.

(** The write end: [write(2)] on the pipe that is full, or that nobody reads
    any more, is lost; on Windows a full socket blocks. *)
Definition write_byte (s : nat) (W : world) : option world :=
  match W.(reader) with
  | RGone => Some (set_lost W)
  | _ =>
      if (length W.(pipe) <? capacity)%nat then Some (set_pipe (W.(pipe) ++ [s]) W)
      else match p with Unix => Some (set_lost W) | Windows => None end
  end.

Definition console_event_has_listeners (s : nat) (W : world) : bool :=
  match slot s W with [] => false | _ => true end.

(** A signal of kind [s] has arrived for the listeners there are. *)
Definition arrived (s : nat) (W : world) : world :=
  set_raised (<[s := S (raises s W)]> W.(raised))
    (set_listeners ((λ l, if bool_decide (l.(kind) = s)
      then mkListener l.(kind) l.(pending) l.(waker) l.(pc) l.(woken) true l.(fired) else l) <$> W.(listeners)) W).

(** [handle_signal] runs where it is installed. *)
Definition handle_signal (s : nat) (W : world) : option world :=
  if bool_decide (s ∈ W.(installed)) then write_byte s (arrived s W) else None.

(** [console_ctrl_handler], and its answer: whether the event is dealt with. *)
Definition console_ctrl_handler (s : nat) (W : world) : option (world * bool) :=
  match W.(initialized) with
  | Some (Ok _) =>
      if (Z.of_nat s <? slot_count Windows) && locked s W then None
      else if (Z.of_nat s <? slot_count Windows) && console_event_has_listeners s W
      then W' ← write_byte s (arrived s W); Some (W', true)
      else Some (arrived s W, false)
  | _ => None
  end.

Definition arrives (s : nat) (W : world) : option (world * bool) :=
  match p with
  | Unix => W' ← handle_signal s W; Some (W', true)
  | Windows => console_ctrl_handler s W
  end.

(** [reader_loop] and [dispatch], past the read. *)
Definition reader_step (W : world) : option world :=
  match W.(reader) with
  | RRead | RGone => None
  | RBytes [] => Some (set_reader RRead W)
  | RBytes (s :: bs) =>
      if Z.of_nat s <? slot_count p then Some (set_reader (RSlot s [] (slot s W) bs) W)
      else Some (set_reader (RBytes bs) W)
  | RSlot s kept [] bs => Some (set_reader (RBytes bs) (set_slot s kept W))
  | RSlot s kept (i :: todo) bs =>
      match W.(listeners) !! i with
      | Some l =>
          if live l then
            Some (set_reader (RWaker s kept i todo bs)
              (set_listeners (<[i := mkListener l.(kind) true l.(waker) l.(pc) l.(woken) l.(owed) l.(fired)]> W.(listeners)) W))
          else Some (set_reader (RSlot s kept todo bs) W)
      | None => Some (set_reader (RSlot s kept todo bs) W)
      end
  | RWaker s kept i todo bs =>
      match W.(listeners) !! i with
      | Some l =>
          Some (set_reader (RSlot s (kept ++ [i]) todo bs)
            (set_listeners (<[i := mkListener l.(kind) l.(pending) false l.(pc) (l.(waker) || l.(woken)) l.(owed) l.(fired)]> W.(listeners)) W))
      | None => None
      end
  end.

(** [poll_listener]. *)
Definition poll_listener (l : ListenerState) : option ListenerState :=
  let resolved := mkListener l.(kind) false l.(waker) LIdle l.(woken) false (S l.(fired)) in
  match l.(pc) with
  | LSwap => Some (if l.(pending) then resolved else mkListener l.(kind) false l.(waker) LStore l.(woken) l.(owed) l.(fired))
  | LStore => Some (mkListener l.(kind) l.(pending) true LSwapAgain l.(woken) l.(owed) l.(fired))
  | LSwapAgain => Some (if l.(pending) then resolved else mkListener l.(kind) false l.(waker) LParked l.(woken) l.(owed) l.(fired))
  | _ => None
  end.

Inductive move :=
| MSignal (env inst : result unit io_error) (k : Z)
| MArrives (s : nat)
| MRead (n : nat)
| MReader
| MGone                       (* the runtime of the reading task goes away *)
| MPoll (i : nat)             (* the future of [recv] is polled *)
| MPolling (i : nat)
| MCancel (i : nat)           (* that future is dropped *)
| MDrop (i : nat).            (* the listener is *)

Definition set_pc (q : listener_pc) (l : ListenerState) : ListenerState :=
  mkListener l.(kind) l.(pending) l.(waker) q (match q with LSwap => false | _ => l.(woken) end) l.(owed) l.(fired).

Definition at_rest (l : ListenerState) : bool := match l.(pc) with LIdle | LParked => true | _ => false end.

Definition signal_move (m : move) (W : world) : option world :=
  match m with
  | MSignal env inst k =>
      if (k mod 2 ^ usize_bits <? slot_count p) && locked (Z.to_nat (k mod 2 ^ usize_bits)) W then None else Some (subscribe env inst k W).1
  | MArrives s => fst <$> arrives s W
  | MRead n =>
      match W.(reader) with
      | RRead =>
          if (1 <=? n)%nat && (n <=? 64)%nat && (n <=? length W.(pipe))%nat
          then Some (set_reader (RBytes (take n W.(pipe))) (set_pipe (drop n W.(pipe)) W)) else None
      | _ => None
      end
  | MReader => reader_step W
  | MGone => match W.(reader) with RRead => Some (set_reader RGone W) | _ => None end
  | MPoll i =>
      l ← W.(listeners) !! i;
      if at_rest l then Some (set_listeners (<[i := set_pc LSwap l]> W.(listeners)) W) else None
  | MPolling i =>
      l ← W.(listeners) !! i;
      l' ← poll_listener l;
      Some (set_listeners (<[i := l']> W.(listeners)) W)
  | MCancel i =>
      l ← W.(listeners) !! i;
      if at_rest l then Some (set_listeners (<[i := set_pc LIdle l]> W.(listeners)) W) else None
  | MDrop i =>
      l ← W.(listeners) !! i;
      if at_rest l then Some (set_listeners (<[i := set_pc LDropped l]> W.(listeners)) W) else None
  end.

Definition signal_init : world := mkWorld None ∅ ∅ ∅ 0 [] RRead false ∅.
Definition signal_reachable : world → Prop := reachable (.= signal_init) (moves signal_move).

(** ** The invariant *)

(** The bytes still to be dispatched, and where the dispatch at work stands. *)
Definition rem_bytes (r : reader_pc) : list nat :=
  match r with RBytes bs | RSlot _ _ _ bs | RWaker _ _ _ _ bs => bs | _ => [] end.
Definition in_slot (r : reader_pc) : option (nat * list nat) :=
  match r with RSlot s _ todo _ | RWaker s _ _ todo _ => Some (s, todo) | _ => None end.
Definition bytes_of (s : nat) (W : world) : nat := (cnt s W.(pipe) + cnt s (rem_bytes W.(reader)))%nat.
Definition ahead (r : reader_pc) (s i : nat) : nat :=
  match in_slot r with Some (s', todo) => if bool_decide (s' = s) then cnt i todo else 0%nat | None => 0%nat end.
Definition busy (r : reader_pc) (s : nat) : nat :=
  match in_slot r with Some (s', _) => is1 s' s | None => 0%nat end.
Definition at_waker (r : reader_pc) (i : nat) : Prop :=
  match r with RWaker _ _ j _ _ => j = i | _ => False end.

Definition wait_ok (r : reader_pc) (i : nat) (l : ListenerState) : Prop :=
  match l.(pc) with
  | LSwapAgain => l.(woken) = true ∨ l.(pending) = true ∨ l.(waker) = true
  | LParked => l.(woken) = true ∨ l.(waker) = true ∧ (l.(pending) = false ∨ at_waker r i)
  | _ => True
  end.
Definition owed_ok (W : world) (i : nat) (l : ListenerState) : Prop :=
  l.(pending) = true ∨ (1 ≤ bytes_of l.(kind) W)%nat ∨ (1 ≤ ahead W.(reader) l.(kind) i)%nat.
Definition scan_ok (W : world) (s : nat) (ls : list nat) : Prop :=
  NoDup ls ∧ (∀ i, i ∈ ls → i ∈ slot s W) ∧
  ∀ i l, W.(listeners) !! i = Some l → l.(kind) = s → live l = true → i ∈ ls.

Record signal_inv (W : world) : Prop := {
  s_fresh i : (W.(next_id) ≤ i)%nat → W.(listeners) !! i = None;
  s_slot s i : i ∈ slot s W → ∃ l, W.(listeners) !! i = Some l ∧ l.(kind) = s;
  s_range s i : i ∈ slot s W → Z.of_nat s < slot_count p;
  s_nodup s : NoDup (slot s W);
  s_live i l : W.(listeners) !! i = Some l → live l = true → i ∈ slot l.(kind) W;
  s_scan : match W.(reader) with
    | RSlot s kept todo _ => scan_ok W s (kept ++ todo)
    | RWaker s kept i todo _ => scan_ok W s (kept ++ i :: todo)
    | _ => True
    end;
  s_installed i l : p = Unix → W.(listeners) !! i = Some l → l.(kind) ∈ W.(installed);
  s_wait i l : W.(listeners) !! i = Some l → wait_ok W.(reader) i l;
  s_owed i l : W.(lost) = false → W.(reader) ≠ RGone → W.(listeners) !! i = Some l →
    l.(owed) = true → live l = true → owed_ok W i l;
  s_count i l : W.(listeners) !! i = Some l →
    (l.(fired) + Nat.b2n l.(pending) + bytes_of l.(kind) W + ahead W.(reader) l.(kind) i ≤ raises l.(kind) W)%nat;
  s_raised s : (bytes_of s W + busy W.(reader) s ≤ raises s W)%nat;
}.

Lemma signal_init_inv : signal_inv signal_init.
Proof.
  constructor; simpl; try done; try (intros; set_solver).
  intros s. constructor.
Qed.

(** The listener's own steps. *)
Lemma inv_listener W i l l' :
  signal_inv W → W.(listeners) !! i = Some l → l'.(kind) = l.(kind) →
  (live l' = true → live l = true) → (wait_ok W.(reader) i l → wait_ok W.(reader) i l') →
  (l'.(fired) + Nat.b2n l'.(pending) ≤ l.(fired) + Nat.b2n l.(pending))%nat →
  (l'.(owed) = true → l.(owed) = true ∧ (l.(pending) = true → l'.(pending) = true)) →
  signal_inv (set_listeners (<[i := l']> W.(listeners)) W).
Proof.
  intros HI Hi Hk Hl Hw Hf Ho.
  assert (Hcase : ∀ j m, <[i := l']> W.(listeners) !! j = Some m →
    j = i ∧ m = l' ∨ j ≠ i ∧ W.(listeners) !! j = Some m).
  { intros j m. destruct (decide (j = i)) as [->|Hne].
    - rewrite lookup_insert_eq. intros [= <-]. auto.
    - rewrite lookup_insert_ne by done. auto. }
  assert (Hscan : ∀ s ls, scan_ok W s ls → scan_ok (set_listeners (<[i := l']> W.(listeners)) W) s ls).
  { intros s ls (? & ? & H). split; [done|]. split; [done|]. intros j m [[-> ->]|[? ?]]%Hcase ? ?.
    - apply (H i l); [done|congruence|auto].
    - by eapply H. }
  constructor; simpl.
  - intros j Hj. rewrite lookup_insert_ne; [by apply (s_fresh _ HI)|]. intros ->.
    by rewrite (s_fresh _ HI) in Hi.
  - intros s j Hj. destruct (s_slot _ HI s j Hj) as (m & Hm & ?). destruct (decide (j = i)) as [->|Hne].
    + exists l'. rewrite lookup_insert_eq. split; [done|congruence].
    + exists m. by rewrite lookup_insert_ne.
  - apply (s_range _ HI).
  - apply (s_nodup _ HI).
  - intros j m [[-> ->]|[? ?]]%Hcase Hm.
    + rewrite Hk. apply (s_live _ HI); auto.
    + by apply (s_live _ HI).
  - pose proof (s_scan _ HI) as H. destruct (reader W); auto.
  - intros j m Hp [[-> ->]|[? ?]]%Hcase; [rewrite Hk; by eapply (s_installed _ HI)|by eapply (s_installed _ HI)].
  - intros j m [[-> ->]|[? ?]]%Hcase; [apply Hw|]; by apply (s_wait _ HI).
  - intros j m Hlost Hr [[-> ->]|[? ?]]%Hcase Hm1 Hm2; [|by apply (s_owed _ HI)].
    destruct (Ho Hm1) as [H1 H2]. destruct (s_owed _ HI i l Hlost Hr Hi H1 (Hl Hm2)) as [H|H].
    + left. auto.
    + right. by rewrite Hk.
  - intros j m [[-> ->]|[? ?]]%Hcase; [|by apply (s_count _ HI)].
    pose proof (s_count _ HI i l Hi). unfold bytes_of, raises in *. simpl. rewrite Hk. lia.
  - apply (s_raised _ HI).
Qed.

Lemma inv_initialized W g : signal_inv W → signal_inv (set_initialized g W).
Proof. intros []. by constructor. Qed.

Lemma inv_installed W I : signal_inv W → W.(installed) ⊆ I → signal_inv (set_installed I W).
Proof. intros HI H. constructor; try apply HI. intros i l Hp Hi. apply H. by eapply (s_installed _ HI). Qed.

Lemma ahead_busy r s i : (∀ s' todo, in_slot r = Some (s', todo) → (cnt i todo ≤ 1)%nat) → (ahead r s i ≤ busy r s)%nat.
Proof.
  intros H. unfold ahead, busy. destruct (in_slot r) as [[s' todo]|]; [|done]. specialize (H s' todo eq_refl).
  case_bool_decide; [subst; rewrite is1_same; lia|lia].
Qed.

Lemma scan_todo W s' todo i : signal_inv W → in_slot W.(reader) = Some (s', todo) → (cnt i todo ≤ 1)%nat.
Proof.
  intros HI E. pose proof (s_scan _ HI) as H. destruct (reader W); simplify_eq/=.
  - destruct H as [H _]. apply NoDup_app in H as (_ & _ & H). by apply cnt_NoDup.
  - destruct H as [H _]. apply NoDup_app in H as (_ & _ & H). apply NoDup_cons in H as [_ H]. by apply cnt_NoDup.
Qed.

Lemma slot_set_slot s l s' W : slot s' (set_slot s l W) = if bool_decide (s' = s) then l else slot s' W.
Proof.
  unfold slot. simpl. case_bool_decide as E; [subst; by rewrite lookup_insert_eq|by rewrite lookup_insert_ne].
Qed.

Lemma inv_new_listener W s W' i :
  signal_inv W → locked s W = false → Z.of_nat s < slot_count p →
  (p = Unix → s ∈ W.(installed)) → new_listener s W = (W', Ok i) → signal_inv W'.
Proof.
  intros HI Hlock Hrange Hinst [= <- _]. pose proof (s_fresh _ HI _ (le_n _)) as Hfresh.
  assert (Hn : ∀ s', next_id W ∉ slot s' W).
  { intros s' (l & Hl & _)%(s_slot _ HI). congruence. }
  set (W0 := set_next _ _).
  assert (Hslot : ∀ s', slot s' W0 = slot s' W) by done.
  assert (Hscan : ∀ s' ls, s' ≠ s → scan_ok W s' ls → scan_ok (set_slot s (slot s W ++ [next_id W]) W0) s' ls).
  { intros s' ls Hne (? & Hin & H). split; [done|]. split.
    - intros j Hj. rewrite slot_set_slot, bool_decide_eq_false_2 by done. by apply Hin.
    - intros j m Hj Hm Hl. simpl in Hj. rewrite lookup_insert_ne in Hj; [by eapply H|].
      intros <-. rewrite lookup_insert_eq in Hj. injection Hj as <-. simpl in Hm. congruence. }
  constructor; simpl.
  - intros j Hj. rewrite lookup_insert_ne by lia. apply (s_fresh _ HI). lia.
  - intros s' j. rewrite slot_set_slot, Hslot. intros Hj. destruct (decide (j = next_id W)) as [->|Hne].
    + eexists. split; [by rewrite lookup_insert_eq|]. case_bool_decide; [done|]. by apply Hn in Hj.
    + rewrite lookup_insert_ne by done. apply (s_slot _ HI). case_bool_decide; [subst; set_solver|done].
  - intros s' j. rewrite slot_set_slot, Hslot. case_bool_decide; [congruence|apply (s_range _ HI)].
  - intros s'. rewrite slot_set_slot, Hslot. case_bool_decide; [subst|apply (s_nodup _ HI)].
    apply NoDup_app. split; [apply (s_nodup _ HI)|]. split; [set_solver|]. apply NoDup_singleton.
  - intros j m Hj Hm. rewrite slot_set_slot, Hslot. destruct (decide (j = next_id W)) as [->|Hne].
    + rewrite lookup_insert_eq in Hj. injection Hj as <-. simpl. rewrite bool_decide_eq_true_2 by done. set_solver.
    + rewrite lookup_insert_ne in Hj by done. pose proof (s_live _ HI j m Hj Hm).
      case_bool_decide as E; [rewrite <-E; set_solver|done].
  - pose proof (s_scan _ HI) as H. unfold locked in Hlock. destruct (reader W); try done;
      apply bool_decide_eq_false_1 in Hlock; auto.
  - intros j m Hp Hj. destruct (decide (j = next_id W)) as [->|Hne].
    + rewrite lookup_insert_eq in Hj. injection Hj as <-. auto.
    + rewrite lookup_insert_ne in Hj by done. by eapply (s_installed _ HI).
  - intros j m Hj. destruct (decide (j = next_id W)) as [->|Hne].
    + rewrite lookup_insert_eq in Hj. by injection Hj as <-.
    + rewrite lookup_insert_ne in Hj by done. by apply (s_wait _ HI).
  - intros j m Hlost Hr Hj Hm1 Hm2. destruct (decide (j = next_id W)) as [->|Hne].
    + rewrite lookup_insert_eq in Hj. by injection Hj as <-.
    + rewrite lookup_insert_ne in Hj by done. by apply (s_owed _ HI).
  - intros j m Hj. destruct (decide (j = next_id W)) as [->|Hne].
    + rewrite lookup_insert_eq in Hj. injection Hj as <-. simpl. pose proof (s_raised _ HI s) as H.
      pose proof (ahead_busy W.(reader) s (next_id W) (λ s' todo, scan_todo W s' todo _ HI)).
      unfold bytes_of, raises in *. simpl. lia.
    + rewrite lookup_insert_ne in Hj by done. by apply (s_count _ HI).
  - apply (s_raised _ HI).
Qed.

Lemma subscribe_eq env inst k W :
  subscribe env inst k W =
  let '(W, r) := global env W in
  match r with
  | Err e => (W, Err e)
  | Ok _ =>
      let s := Z.to_nat (k mod 2 ^ usize_bits) in
      if k mod 2 ^ usize_bits <? slot_count p then
        match p with
        | Unix =>
            if bool_decide (s ∈ W.(installed)) then new_listener s W
            else match inst with
                 | Err e => (W, Err e)
                 | Ok _ => new_listener s (set_installed ({[s]} ∪ W.(installed)) W)
                 end
        | Windows => new_listener s W
        end
      else (W, Err InvalidInput)
  end.
Proof. unfold subscribe. by destruct p. Qed.

Lemma inv_signal W env inst k :
  signal_inv W → (k mod 2 ^ usize_bits <? slot_count p) && locked (Z.to_nat (k mod 2 ^ usize_bits)) W = false →
  signal_inv (subscribe env inst k W).1.
Proof.
  intros HI Hlock. rewrite subscribe_eq. cbv zeta.
  assert (Hg : signal_inv (global env W).1 ∧ locked (Z.to_nat (k mod 2 ^ usize_bits)) (global env W).1
      = locked (Z.to_nat (k mod 2 ^ usize_bits)) W).
  { unfold global. destruct (initialized W); simpl; [done|]. split; [by apply inv_initialized|done]. }
  destruct (global env W) as [W1 [u|e]]; simpl in Hg; destruct Hg as [HI1 Hl]; [|done].
  destruct (Z.ltb_spec (k mod 2 ^ usize_bits) (slot_count p)) as [Hr|]; [|done]. simpl in Hlock. rewrite <-Hl in Hlock.
  assert (Hr' : Z.of_nat (Z.to_nat (k mod 2 ^ usize_bits)) < slot_count p).
  { rewrite Z2Nat.id; [done|]. by apply Z.mod_pos_bound. }
  destruct p eqn:Ep; [|eapply inv_new_listener; [done|done|congruence|intros; congruence|done]].
  case_bool_decide; [eapply inv_new_listener; [done|done|congruence|done|done]|].
  destruct inst; [|done].
  refine (inv_new_listener (set_installed ({[Z.to_nat (k mod 2 ^ usize_bits)]} ∪ installed W1) W1)
    _ _ _ _ _ _ _ eq_refl); [|done|congruence|intros _; simpl; set_solver].
  apply inv_installed; [done|set_solver].
Qed.

(** A signal arrives, and its byte is written, or is lost, or nobody listens. *)
Lemma inv_arrives W s pipe' lost' :
  signal_inv W →
  pipe' = W.(pipe) ++ [s] ∧ lost' = W.(lost) ∨
  pipe' = W.(pipe) ∧ (lost' = true ∨ lost' = W.(lost) ∧ slot s W = []) →
  signal_inv (mkWorld W.(initialized) W.(slots) W.(installed)
    ((λ l, if bool_decide (l.(kind) = s)
      then mkListener l.(kind) l.(pending) l.(waker) l.(pc) l.(woken) true l.(fired) else l) <$> W.(listeners))
    W.(next_id) pipe' W.(reader) lost' (<[s := S (raises s W)]> W.(raised))).
Proof.
  intros HI Hcase. set (owing := λ l, _). set (W' := mkWorld _ _ _ _ _ _ _ _ _).
  assert (Hof : ∀ s', raises s' W' = (raises s' W + is1 s s')%nat ∧
    (bytes_of s' W ≤ bytes_of s' W' ≤ bytes_of s' W + is1 s s')%nat).
  { intros s'. split.
    - unfold raises at 1. simpl. destruct (decide (s = s')) as [->|Hne].
      + rewrite lookup_insert_eq, is1_same. simpl. lia.
      + rewrite lookup_insert_ne, is1_ne by done. unfold raises. lia.
    - unfold bytes_of. simpl. destruct Hcase as [[-> _]|[-> _]]; [|lia].
      rewrite cnt_app, cnt_cons, cnt_nil. lia. }
  assert (Hlk : ∀ i l, W'.(listeners) !! i = Some l → ∃ l0, W.(listeners) !! i = Some l0 ∧ l = owing l0 ∧
    l.(kind) = l0.(kind) ∧ live l = live l0 ∧ wait_ok W.(reader) i l = wait_ok W.(reader) i l0 ∧
    l.(fired) = l0.(fired) ∧ l.(pending) = l0.(pending)).
  { intros i l. simpl. rewrite lookup_fmap. intros (l0 & -> & H)%fmap_Some. exists l0.
    assert (l = owing l0) as -> by done. unfold owing. by case_bool_decide. }
  assert (Hscan : ∀ s' ls, scan_ok W s' ls → scan_ok W' s' ls).
  { intros s' ls (? & ? & H). split; [done|]. split; [done|].
    intros i l (l0 & ? & ? & Hk & Hl & _)%Hlk. rewrite Hk, Hl. by apply H. }
  constructor.
  - intros i Hi. simpl. rewrite lookup_fmap. by rewrite (s_fresh _ HI).
  - intros s' i Hi. destruct (s_slot _ HI s' i Hi) as (l & Hl & Hk). exists (owing l). simpl.
    rewrite lookup_fmap, Hl. split; [done|]. unfold owing. by case_bool_decide.
  - apply (s_range _ HI).
  - apply (s_nodup _ HI).
  - intros i l (l0 & ? & ? & Hk & Hl & _)%Hlk. rewrite Hk, Hl. by apply (s_live _ HI).
  - pose proof (s_scan _ HI) as H. simpl. destruct (reader W); auto.
  - intros i l Hp (l0 & ? & ? & Hk & _)%Hlk. rewrite Hk. by eapply (s_installed _ HI).
  - intros i l (l0 & ? & ? & _ & _ & Hw & _)%Hlk. simpl. rewrite Hw. by apply (s_wait _ HI).
  - intros i l Hlost Hr (l0 & Hl0 & Hl & Hk & Hlv & _ & _ & Hp)%Hlk Ho Hlive. unfold owed_ok. rewrite Hk, Hp.
    destruct (Hof l0.(kind)) as [_ Hof']. destruct (decide (l0.(kind) = s)) as [E|Hne].
    + destruct Hcase as [[-> _]|[-> [H|[? H]]]].
      * right. left. unfold bytes_of. simpl. rewrite cnt_app, cnt_cons, E, is1_same. lia.
      * simpl in Hlost. congruence.
      * exfalso. rewrite Hlv in Hlive. pose proof (s_live _ HI i l0 Hl0 Hlive) as Hin. rewrite E, H in Hin. set_solver.
    + assert (Hlost0 : W.(lost) = false) by (simpl in Hlost; destruct Hcase as [[_ ?]|[_ [?|[? _]]]]; congruence).
      assert (l = l0) as ->. { rewrite Hl. unfold owing. by rewrite bool_decide_eq_false_2. }
      destruct (s_owed _ HI i l0 Hlost0 Hr Hl0 Ho Hlive) as [?|[?|?]]; [tauto|right; left; lia|tauto].
  - intros i l (l0 & Hl0 & _ & Hk & _ & _ & Hf & Hp)%Hlk. destruct (Hof l.(kind)) as [H1 H2].
    pose proof (s_count _ HI i l0 Hl0) as H. rewrite Hf, Hp, H1. rewrite Hk in *. simpl. lia.
  - intros s'. destruct (Hof s') as [H1 H2]. pose proof (s_raised _ HI s'). rewrite H1. simpl. lia.
Qed.

Lemma slot_none W s : console_event_has_listeners s W = false → slot s W = [].
Proof. unfold console_event_has_listeners. by destruct (slot s W). Qed.

Lemma out_of_range W s : signal_inv W → (Z.of_nat s <? slot_count p) = false → slot s W = [].
Proof.
  intros HI Hs. destruct (slot s W) as [|i l] eqn:E; [done|]. apply Z.ltb_ge in Hs.
  assert (Z.of_nat s < slot_count p); [|lia]. apply (s_range _ HI s i). rewrite E. left.
Qed.

Lemma inv_arrives_step W s W' b : signal_inv W → arrives s W = Some (W', b) → signal_inv W'.
Proof.
  intros HI Ha. set (W1 := arrived s W).
  assert (Hwrite : ∀ W2, write_byte s W1 = Some W2 → signal_inv W2).
  { intros W2 Hw. unfold write_byte in Hw.
    destruct (reader W1); try (injection Hw as <-; refine (inv_arrives W s _ true HI _); auto; fail);
      (destruct (_ <? _)%nat; [injection Hw as <-; refine (inv_arrives W s _ _ HI _); auto|]);
      (destruct p; [|done]; injection Hw as <-; refine (inv_arrives W s _ true HI _); auto). }
  unfold arrives, handle_signal, console_ctrl_handler in Ha. fold W1 in Ha. destruct p eqn:Ep.
  - case_bool_decide; [|done]. destruct (write_byte s W1) eqn:Ew; [|done]. injection Ha as <- _. by apply Hwrite.
  - destruct (initialized W) as [[]|]; [|done..].
    assert (Hnone : slot s W = [] → Some (W1, false) = Some (W', b) → signal_inv W').
    { intros Hs [= <- _]. refine (inv_arrives W s _ _ HI _). auto. }
    destruct (Z.of_nat s <? slot_count Windows) eqn:Ec; simpl in Ha.
    + destruct (locked s W); [done|].
      destruct (console_event_has_listeners s W) eqn:El; [|apply Hnone; [by apply slot_none|done]].
      destruct (write_byte s W1) eqn:Ew; [|done]. injection Ha as <- _. by apply Hwrite.
    + apply Hnone; [|done]. apply (out_of_range W); [done|]. by rewrite Ep.
Qed.

(** The reading task moves bytes about, between two dispatches. *)
Lemma inv_batch W pipe' r :
  signal_inv W → in_slot W.(reader) = None → in_slot r = None →
  (∀ s, (cnt s pipe' + cnt s (rem_bytes r) ≤ bytes_of s W)%nat) →
  (∀ i l, r ≠ RGone → W.(listeners) !! i = Some l → live l = true →
     (bytes_of l.(kind) W ≤ cnt l.(kind) pipe' + cnt l.(kind) (rem_bytes r))%nat ∧ W.(reader) ≠ RGone) →
  signal_inv (set_reader r (set_pipe pipe' W)).
Proof.
  intros HI H0 H1 Hle Hge. constructor; try apply HI; simpl.
  - destruct r; simpl in *; done.
  - intros i l Hl. pose proof (s_wait _ HI i l Hl) as H. unfold wait_ok in *.
    destruct (pc l); try done. destruct H as [?|[? [?|H]]]; [tauto|tauto|]. destruct (reader W); simpl in *; done.
  - intros i l Hlost Hr Hl Ho Hlv. destruct (Hge i l Hr Hl Hlv) as [Hb Hr'].
    destruct (s_owed _ HI i l Hlost Hr' Hl Ho Hlv) as [?|[H|H]]; unfold owed_ok.
    + by left.
    + right. left. unfold bytes_of in *. simpl. lia.
    + unfold ahead in H. rewrite H0 in H. lia.
  - intros i l Hl. pose proof (s_count _ HI i l Hl) as H. specialize (Hle l.(kind)).
    unfold ahead in *. simpl. rewrite H1. rewrite H0 in H. unfold bytes_of, raises in *. simpl. lia.
  - intros s. specialize (Hle s). pose proof (s_raised _ HI s) as H. unfold busy in *. rewrite H0 in H.
    simpl. rewrite H1. unfold bytes_of, raises in *. simpl. lia.
Qed.

(** [dispatch] begins: the slot of [s] is locked. *)
Lemma inv_lock W s bs :
  signal_inv W → W.(reader) = RBytes (s :: bs) → signal_inv (set_reader (RSlot s [] (slot s W) bs) W).
Proof.
  intros HI Er.
  assert (Hb : ∀ s', bytes_of s' W = (is1 s s' + bytes_of s' (set_reader (RSlot s [] (slot s W) bs) W))%nat).
  { intros s'. unfold bytes_of. simpl. rewrite Er. simpl. rewrite cnt_cons. lia. }
  constructor; try apply HI.
  - simpl. split; [apply (s_nodup _ HI)|]. split; [done|]. intros i l Hl <- Hlv. by apply (s_live _ HI).
  - intros i l Hl. pose proof (s_wait _ HI i l Hl) as H. rewrite Er in H. simpl. unfold wait_ok in *.
    destruct (pc l); done.
  - intros i l Hlost _ Hl Ho Hlv. assert (Hr : W.(reader) ≠ RGone) by by rewrite Er.
    destruct (s_owed _ HI i l Hlost Hr Hl Ho Hlv) as [?|[H|H]]; unfold owed_ok.
    + by left.
    + rewrite Hb in H. destruct (decide (s = l.(kind))) as [E|Hne].
      * right. right. simpl. unfold ahead. simpl. rewrite bool_decide_eq_true_2 by done.
        apply cnt_in. rewrite E. by apply (s_live _ HI).
      * rewrite is1_ne in H by done. right. left. lia.
    + rewrite Er in H. unfold ahead in H. simpl in H. lia.
  - intros i l Hl. pose proof (s_count _ HI i l Hl) as H. rewrite Hb, Er in H.
    unfold ahead in *. simpl in *. unfold raises in *. simpl. case_bool_decide as E; [|lia].
    rewrite <-E in *. rewrite is1_same in H. pose proof (cnt_NoDup i (slot s W) (s_nodup _ HI s)). lia.
  - intros s'. pose proof (s_raised _ HI s') as H. rewrite Hb, Er in H. unfold busy in *. simpl in *.
    unfold raises in *. simpl. lia.
Qed.

(** It ends: the listeners kept are the slot. *)
Lemma inv_unlock W s kept bs :
  signal_inv W → W.(reader) = RSlot s kept [] bs → signal_inv (set_reader (RBytes bs) (set_slot s kept W)).
Proof.
  intros HI Er. pose proof (s_scan _ HI) as Hs. rewrite Er in Hs. destruct Hs as (Hnd & Hsub & Hlive).
  rewrite app_nil_r in *.
  assert (Hslot : ∀ s', slot s' (set_reader (RBytes bs) (set_slot s kept W)) = if bool_decide (s' = s) then kept else slot s' W).
  { intros s'. rewrite <-slot_set_slot. done. }
  assert (Hin : ∀ s' i, i ∈ slot s' (set_reader (RBytes bs) (set_slot s kept W)) → i ∈ slot s' W).
  { intros s' i. rewrite Hslot. case_bool_decide; [subst; apply Hsub|done]. }
  constructor.
  - apply (s_fresh _ HI).
  - intros s' i Hi%Hin. by apply (s_slot _ HI).
  - intros s' i Hi%Hin. by eapply (s_range _ HI).
  - intros s'. rewrite Hslot. case_bool_decide; [done|apply (s_nodup _ HI)].
  - intros i l Hl Hlv. rewrite Hslot. case_bool_decide; [by eapply Hlive|by apply (s_live _ HI)].
  - done.
  - apply (s_installed _ HI).
  - intros i l Hl. pose proof (s_wait _ HI i l Hl) as H. rewrite Er in H. exact H.
  - intros i l Hlost _ Hl Ho Hlv. assert (Hr : W.(reader) ≠ RGone) by by rewrite Er.
    destruct (s_owed _ HI i l Hlost Hr Hl Ho Hlv) as [?|[H|H]]; unfold owed_ok.
    + by left.
    + right. left. unfold bytes_of in *. simpl. by rewrite Er in H.
    + rewrite Er in H. unfold ahead in H. simpl in H. case_bool_decide; [rewrite cnt_nil in H|]; lia.
  - intros i l Hl. pose proof (s_count _ HI i l Hl) as H. rewrite Er in H. unfold bytes_of, raises, ahead in *.
    simpl in *. rewrite Er in H. simpl in H. lia.
  - intros s'. pose proof (s_raised _ HI s') as H. unfold bytes_of, raises, busy in *. rewrite Er in H.
    simpl in *. lia.
Qed.

Definition scan_list (r : reader_pc) : list nat :=
  match r with RSlot _ kept todo _ => kept ++ todo | RWaker _ kept i todo _ => kept ++ i :: todo | _ => [] end.

(** A step of the dispatch: listener [i] of the slot changes, and perhaps is
    behind now. *)
Lemma inv_dispatch W s todo r todo' i l l' :
  signal_inv W → in_slot W.(reader) = Some (s, todo) → in_slot r = Some (s, todo') →
  rem_bytes r = rem_bytes W.(reader) → scan_ok W s (scan_list r) →
  W.(listeners) !! i = Some l → l.(kind) = s → l'.(kind) = s → live l' = live l → l'.(owed) = l.(owed) →
  (∀ j m, j ≠ i → wait_ok W.(reader) j m → wait_ok r j m) →
  (wait_ok W.(reader) i l → wait_ok r i l') →
  (∀ j, j ≠ i → cnt j todo' = cnt j todo) →
  (l'.(fired) + Nat.b2n l'.(pending) + cnt i todo' ≤ l.(fired) + Nat.b2n l.(pending) + cnt i todo)%nat →
  (live l = true → l.(pending) = true ∨ (1 ≤ cnt i todo)%nat → l'.(pending) = true ∨ (1 ≤ cnt i todo')%nat) →
  signal_inv (set_reader r (set_listeners (<[i := l']> W.(listeners)) W)).
Proof.
  intros HI E0 E1 Hb Hscan Hi Hk Hk' Hlv Ho Hw Hwi Ht Hc Hp.
  assert (Hr0 : W.(reader) ≠ RGone) by (intros E; by rewrite E in E0).
  set (W' := set_reader _ _).
  assert (Hcase : ∀ j m, W'.(listeners) !! j = Some m → j = i ∧ m = l' ∨ j ≠ i ∧ W.(listeners) !! j = Some m).
  { intros j m. simpl. destruct (decide (j = i)) as [->|Hne].
    - rewrite lookup_insert_eq. intros [= <-]. auto.
    - rewrite lookup_insert_ne by done. auto. }
  assert (Hbs : ∀ s', bytes_of s' W' = bytes_of s' W) by (intros; unfold bytes_of; simpl; by rewrite Hb).
  assert (Hah : ∀ s' j, ahead r s' j = if bool_decide (s = s') then cnt j todo' else 0%nat) by (intros; unfold ahead; by rewrite E1).
  assert (Hah0 : ∀ s' j, ahead W.(reader) s' j = if bool_decide (s = s') then cnt j todo else 0%nat) by (intros; unfold ahead; by rewrite E0).
  constructor.
  - intros j Hj. simpl. rewrite lookup_insert_ne; [by apply (s_fresh _ HI)|]. intros ->.
    by rewrite (s_fresh _ HI) in Hi.
  - intros s' j Hj. destruct (s_slot _ HI s' j Hj) as (m & Hm & ?). simpl. destruct (decide (j = i)) as [->|Hne].
    + exists l'. rewrite lookup_insert_eq. split; [done|congruence].
    + exists m. by rewrite lookup_insert_ne.
  - apply (s_range _ HI).
  - apply (s_nodup _ HI).
  - intros j m [[-> ->]|[? ?]]%Hcase Hm; [rewrite Hk', <-Hk|]; apply (s_live _ HI); congruence.
  - assert (scan_ok W' s (scan_list r)).
    { destruct Hscan as (? & ? & Hsc). split; [done|]. split; [done|].
      intros j m [[-> ->]|[? ?]]%Hcase Hm1 Hm2; [apply (Hsc i l); congruence|by eapply Hsc]. }
    simpl. destruct r; simpl in E1; simplify_eq; done.
  - intros j m Hpl [[-> ->]|[? ?]]%Hcase; [rewrite Hk', <-Hk|]; by eapply (s_installed _ HI).
  - intros j m [[-> ->]|[? ?]]%Hcase; [apply Hwi|apply Hw; [done|]]; by apply (s_wait _ HI).
  - intros j m Hlost _ [[-> ->]|[Hji Hj]]%Hcase Hm1 Hm2; unfold owed_ok; rewrite Hbs; simpl; rewrite Hah.
    + rewrite Ho in Hm1. rewrite Hlv in Hm2.
      pose proof (s_owed _ HI i l Hlost Hr0 Hi Hm1 Hm2) as H. unfold owed_ok in H.
      rewrite Hah0, Hk, bool_decide_eq_true_2 in H by done. rewrite Hk', bool_decide_eq_true_2 by done. tauto.
    + pose proof (s_owed _ HI j m Hlost Hr0 Hj Hm1 Hm2) as H. unfold owed_ok in H. rewrite Hah0 in H.
      by rewrite Ht.
  - intros j m [[-> ->]|[Hji Hj]]%Hcase; rewrite Hbs; simpl; rewrite Hah.
    + pose proof (s_count _ HI i l Hi) as H. rewrite Hah0, Hk, bool_decide_eq_true_2 in H by done.
      rewrite Hk', bool_decide_eq_true_2 by done. unfold raises in *. simpl. lia.
    + pose proof (s_count _ HI j m Hj) as H. rewrite Hah0 in H. unfold raises in *. simpl. by rewrite Ht.
  - intros s'. pose proof (s_raised _ HI s') as H. rewrite Hbs. unfold busy in *. rewrite E0 in H. simpl.
    rewrite E1. unfold raises in *. simpl. done.
Qed.

Lemma scan_inv W s todo :
  signal_inv W → in_slot W.(reader) = Some (s, todo) → scan_ok W s (scan_list W.(reader)).
Proof. intros HI E. pose proof (s_scan _ HI) as H. destruct (reader W); simplify_eq/=; done. Qed.

Lemma inv_reader_step W W' : signal_inv W → reader_step W = Some W' → signal_inv W'.
Proof.
  intros HI Hs. unfold reader_step in Hs. destruct (reader W) as [|[|s bs]|s kept [|i todo] bs|s kept i todo bs|] eqn:Er.
  - done.
  - injection Hs as <-. replace (set_reader RRead W) with (set_reader RRead (set_pipe W.(pipe) W)) by (by destruct W).
    apply inv_batch; rewrite ?Er; [done|done|done| |].
    + intros s. unfold bytes_of. rewrite Er. simpl. lia.
    + intros i l _ _ _. unfold bytes_of. rewrite Er. simpl. split; [lia|done].
  - destruct (Z.of_nat s <? slot_count p) eqn:Ec; injection Hs as <-; [by apply inv_lock|].
    replace (set_reader (RBytes bs) W) with (set_reader (RBytes bs) (set_pipe W.(pipe) W)) by (by destruct W).
    apply inv_batch; rewrite ?Er; [done|done|done| |].
    + intros s'. unfold bytes_of. rewrite Er. simpl. rewrite cnt_cons. lia.
    + intros i l _ Hl Hlv. unfold bytes_of. rewrite Er. simpl. rewrite cnt_cons, is1_ne; [split; [lia|done]|].
      intros ->. apply Z.ltb_ge in Ec. pose proof (s_range _ HI _ _ (s_live _ HI i l Hl Hlv)). lia.
  - injection Hs as <-. by apply inv_unlock.
  - assert (Hscan := scan_inv _ s (i :: todo) HI). rewrite Er in Hscan. specialize (Hscan eq_refl). simpl in Hscan.
    destruct Hscan as (Hnd & Hsub & Hlive). destruct (s_slot _ HI s i) as (l & Hl & Hk); [apply Hsub; set_solver|].
    rewrite Hl in Hs. destruct (live l) eqn:Elv; injection Hs as <-.
    + eapply (inv_dispatch W s (i :: todo) _ todo i l);
        [done|by rewrite Er|done|by rewrite Er|done|done|done|done|done|done|..]; simpl.
      * intros j m Hj Hw. unfold wait_ok in *. rewrite Er in Hw. simpl in *. destruct (pc m); tauto.
      * intros Hw. unfold wait_ok in *. rewrite Er in Hw. simpl in *. destruct (pc l); tauto.
      * intros j Hj. rewrite cnt_cons, is1_ne; done.
      * rewrite cnt_cons, is1_same. destruct (pending l); simpl; lia.
      * auto.
    + assert (Hsame : set_listeners (<[i := l]> W.(listeners)) W = W).
      { destruct W. unfold set_listeners. simpl in *. by rewrite insert_id. }
      enough (signal_inv (set_reader (RSlot s kept todo bs) (set_listeners (<[i := l]> W.(listeners)) W)))
        as HE by (by rewrite Hsame in HE).
      eapply (inv_dispatch W s (i :: todo) _ todo i l);
        [done|by rewrite Er|done|by rewrite Er| |done|done|done|done|done|..]; simpl.
      * split; [rewrite <-Permutation_middle in Hnd; by apply NoDup_cons in Hnd as [_ ?]|].
        split; [set_solver|]. intros j m Hj Hm Hmlv. pose proof (Hlive j m Hj Hm Hmlv).
        destruct (decide (j = i)) as [->|]; [congruence|set_solver].
      * intros j m Hj Hw. by rewrite Er in Hw.
      * intros Hw. by rewrite Er in Hw.
      * intros j Hj. rewrite cnt_cons, is1_ne; done.
      * rewrite cnt_cons. lia.
      * congruence.
  - assert (Hscan := scan_inv _ s todo HI). rewrite Er in Hscan. specialize (Hscan eq_refl). simpl in Hscan.
    destruct (W.(listeners) !! i) as [l|] eqn:Hl; [|done]. injection Hs as <-.
    assert (Hk : l.(kind) = s).
    { destruct (s_slot _ HI s i) as (l' & Hl' & Hk); [apply Hscan; set_solver|congruence]. }
    eapply (inv_dispatch W s todo _ todo i l);
      [done|by rewrite Er|done|by rewrite Er| |done|done|done|done|done|..]; simpl.
    + by rewrite <-app_assoc.
    + intros j m Hj Hw. unfold wait_ok in *. rewrite Er in Hw. simpl in *. destruct (pc m); try tauto.
      destruct Hw as [?|[? [?|?]]]; [tauto|tauto|congruence].
    + intros Hw. unfold wait_ok in *. rewrite Er in Hw. simpl in *. destruct (pc l), (waker l); simpl in *; intuition congruence.
    + done.
    + lia.
    + tauto.
  - done.
Qed.

Lemma inv_signal_step W W' : signal_inv W → moves signal_move W W' → signal_inv W'.
Proof.
  intros HI (m & Hm). destruct m; simpl in Hm.
  - destruct (_ && _) eqn:E; [done|]. injection Hm as <-. by apply inv_signal.
  - destruct (arrives s W) as [[W1 b]|] eqn:E; [|done]. injection Hm as <-. by eapply inv_arrives_step.
  - destruct (reader W) eqn:Er; try done. destruct (_ && _) eqn:E; [|done]. injection Hm as <-.
    assert (Hb : ∀ s, bytes_of s W = (cnt s (drop n W.(pipe)) + cnt s (take n W.(pipe)))%nat).
    { intros s. unfold bytes_of. rewrite Er. simpl. rewrite cnt_nil, <-(take_drop n W.(pipe)) at 1.
      rewrite cnt_app. lia. }
    apply inv_batch; rewrite ?Er; [done|done|done| |].
    + intros s. rewrite Hb. done.
    + intros i l _ _ _. rewrite Hb. done.
  - by eapply inv_reader_step.
  - destruct (reader W) eqn:Er; try done. injection Hm as <-.
    replace (set_reader RGone W) with (set_reader RGone (set_pipe W.(pipe) W)) by (by destruct W).
    apply inv_batch; rewrite ?Er; [done|done|done| |done].
    intros s. unfold bytes_of. simpl. rewrite cnt_nil. lia.
  - destruct (W.(listeners) !! i) as [l|] eqn:El; [|done]. simpl in Hm. destruct (at_rest l) eqn:E; [|done].
    injection Hm as <-. apply (inv_listener W i l); try done. unfold at_rest, live in *. by destruct (pc l).
  - destruct (W.(listeners) !! i) as [l|] eqn:El; [|done]. simpl in Hm.
    destruct (poll_listener l) as [l'|] eqn:E; [|done]. injection Hm as <-. unfold poll_listener in E.
    destruct (pc l) eqn:Ep; simplify_eq; apply (inv_listener W i l); try done; unfold live, wait_ok;
      rewrite ?Ep; destruct (pending l) eqn:Epd; simpl; auto; try lia; try done.
    intros [?|[?|?]]; [tauto|done|tauto].
  - destruct (W.(listeners) !! i) as [l|] eqn:El; [|done]. simpl in Hm. destruct (at_rest l) eqn:E; [|done].
    injection Hm as <-. apply (inv_listener W i l); try done. unfold at_rest, live in *. by destruct (pc l).
  - destruct (W.(listeners) !! i) as [l|] eqn:El; [|done]. simpl in Hm. destruct (at_rest l) eqn:E; [|done].
    injection Hm as <-. by apply (inv_listener W i l).
Qed.

Lemma signal_reachable_inv W : signal_reachable W → signal_inv W.
Proof. apply invariant_reachable; [|intros; by eapply inv_signal_step]. intros ? ->. apply signal_init_inv. Qed.

(** ** Termination of the reading task *)

Definition reader_move (W W' : world) : Prop :=
  ∃ m, (m = MReader ∨ ∃ n, m = MRead n) ∧ signal_move m W = Some W'.

Lemma reader_move_step W W' : reader_move W W' → moves signal_move W W'.
Proof. intros (m & _ & Hm). by exists m. Qed.

Lemma in_dispatch W W' : reader_move W W' → W.(reader) ≠ RRead → reader_step W = Some W'.
Proof. intros (m & [->|[n ->]] & Hm) Hr; simpl in Hm; [done|]. by destruct (reader W). Qed.

Lemma dispatch_sn s bs todo kept W :
  W.(reader) = RSlot s kept todo bs →
  (∀ W', W'.(reader) = RBytes bs → W'.(pipe) = W.(pipe) → sn reader_move W') → sn reader_move W.
Proof.
  revert kept W. induction todo as [|i todo IH]; intros kept W Er Hk; constructor; intros W1 H1;
    apply in_dispatch in H1; try (by rewrite Er); unfold reader_step in H1; rewrite Er in H1.
  - injection H1 as <-. by apply Hk.
  - destruct (W.(listeners) !! i) as [l|] eqn:El; [|injection H1 as <-; by eapply IH].
    destruct (live l); injection H1 as <-; [|by eapply IH].
    constructor. intros W2 H2. apply in_dispatch in H2; [|done]. unfold reader_step in H2. simpl in H2.
    rewrite lookup_insert_eq in H2. injection H2 as <-. by eapply IH.
Qed.

Lemma batch_sn bs W :
  W.(reader) = RBytes bs →
  (∀ W', W'.(reader) = RRead → W'.(pipe) = W.(pipe) → sn reader_move W') → sn reader_move W.
Proof.
  revert W. induction bs as [|s bs IH]; intros W Er Hk; constructor; intros W1 H1;
    apply in_dispatch in H1; try (by rewrite Er); unfold reader_step in H1; rewrite Er in H1.
  - injection H1 as <-. by apply Hk.
  - destruct (_ <? _); injection H1 as <-; [|by apply IH]. eapply dispatch_sn; [done|].
    intros W2 E2 Hp. apply IH; [done|]. intros W3 E3 Hp3. apply Hk; [done|]. by rewrite Hp3, Hp.
Qed.

Lemma read_sn W : W.(reader) = RRead → sn reader_move W.
Proof.
  remember (length W.(pipe)) as n eqn:En. revert W En. induction n as [n IH] using lt_wf_ind. intros W En Er.
  constructor. intros W1 (m & [->|[k ->]] & Hm); unfold signal_move in Hm.
  - unfold reader_step in Hm. by rewrite Er in Hm.
  - rewrite Er in Hm. destruct (_ && _) eqn:E; [|discriminate].
    injection Hm as <-. apply andb_true_iff in E as [[E1 _]%andb_true_iff E2].
    apply Nat.leb_le in E1, E2. eapply batch_sn; [done|]. intros W2 E3 Hp. eapply IH; [|done|done].
    rewrite Hp. simpl. rewrite length_drop. lia.
Qed.

Lemma reader_sn W : signal_inv W → sn reader_move W.
Proof.
  intros HI. destruct (reader W) as [|bs|s kept todo bs|s kept i todo bs|] eqn:Er.
  - by apply read_sn.
  - eapply batch_sn; [done|]. intros. by apply read_sn.
  - eapply dispatch_sn; [done|]. intros. eapply batch_sn; [done|]. intros. by apply read_sn.
  - constructor. intros W1 H1. apply in_dispatch in H1; [|by rewrite Er]. unfold reader_step in H1.
    rewrite Er in H1. destruct (W.(listeners) !! i); [|done]. injection H1 as <-.
    eapply dispatch_sn; [done|]. intros. eapply batch_sn; [done|]. intros. by apply read_sn.
  - constructor. intros W1 H1. apply in_dispatch in H1; [|by rewrite Er]. unfold reader_step in H1.
    by rewrite Er in H1.
Qed.

Lemma reader_stuck W :
  signal_inv W → (¬ ∃ W', reader_move W W') → W.(reader) = RGone ∨ W.(reader) = RRead ∧ W.(pipe) = [].
Proof.
  intros HI Hno. destruct (reader W) as [|bs|s kept todo bs|s kept i todo bs|] eqn:Er; [|exfalso..|tauto].
  - right. split; [done|]. destruct (pipe W) as [|b l] eqn:Ep; [done|]. exfalso. apply Hno.
    eexists. exists (MRead 1). split; [eauto|]. simpl. rewrite Er, Ep. done.
  - apply Hno. destruct bs as [|b bs]; [|destruct (Z.of_nat b <? slot_count p) eqn:Eb]; eexists; exists MReader;
      (split; [auto|]); simpl; unfold reader_step; rewrite Er, ?Eb; done.
  - apply Hno. destruct todo as [|i todo]; [|destruct (W.(listeners) !! i) as [l|] eqn:El; [destruct (live l) eqn:Elv|]];
      eexists; exists MReader; (split; [auto|]); simpl; unfold reader_step; rewrite Er, ?El, ?Elv; done.
  - apply Hno. pose proof (s_scan _ HI) as Hs. rewrite Er in Hs. destruct Hs as (_ & Hs & _).
    destruct (s_slot _ HI s i) as (l & Hl & _); [apply Hs; set_solver|].
    eexists. exists MReader. split; [auto|]. simpl. unfold reader_step. by rewrite Er, Hl.
Qed.

(** ** Properties *)

(** C20: As long as no write to the pipe was lost and the reading task lives, a
    signal that arrived since a listener last resolved is never forgotten: the
    listener's flag is set, or the byte is in the pipe or in the batch being
    dispatched, or the dispatch of that kind has yet to come to the listener.
    No listener resolves more often than its kind has arrived.  A listener that
    waits and has not been told to look again has its waker stored, and its
    flag is clear unless the dispatch is just about to call that waker. *)
Theorem signal_delivered W :
  signal_reachable W →
  (∀ i l, W.(listeners) !! i = Some l → (l.(fired) + Nat.b2n l.(pending) ≤ raises l.(kind) W)%nat) ∧
  (W.(lost) = false → W.(reader) ≠ RGone → ∀ i l,
     W.(listeners) !! i = Some l → live l = true → l.(owed) = true →
     l.(pending) = true ∨ l.(kind) ∈ W.(pipe) ∨ l.(kind) ∈ rem_bytes W.(reader) ∨
     ∃ todo, in_slot W.(reader) = Some (l.(kind), todo) ∧ i ∈ todo) ∧
  (∀ i l, W.(listeners) !! i = Some l → l.(pc) = LParked → l.(woken) = false →
     l.(waker) = true ∧ (l.(pending) = false ∨ at_waker W.(reader) i)).
Proof.
  intros HI%signal_reachable_inv. split_and!.
  - intros i l Hl. pose proof (s_count _ HI i l Hl). lia.
  - intros Hlost Hr i l Hl Hlv Ho. destruct (s_owed _ HI i l Hlost Hr Hl Ho Hlv) as [?|[H|H]]; [tauto| |].
    + unfold bytes_of in H. destruct (decide (1 ≤ cnt l.(kind) W.(pipe))%nat) as [Hc|Hc].
      * right. left. by apply cnt_pos.
      * right. right. left. apply cnt_pos. lia.
    + right. right. right. unfold ahead in H. destruct (in_slot (reader W)) as [[s todo]|]; [|lia].
      case_bool_decide; [subst|lia]. exists todo. split; [done|by apply cnt_pos].
  - intros i l Hl Hp Hw. pose proof (s_wait _ HI i l Hl) as H. unfold wait_ok in H. rewrite Hp, Hw in H.
    destruct H as [?|H]; [done|exact H].
Qed.

(** Left alone the reading task always comes to an end of its work, whatever
    the reads return; and then, unless it has stopped or a write was lost, the
    pipe is empty and every live listener whose kind has arrived since it last
    resolved has its flag set, and has been told to look again if it waits. *)
Theorem reader_finishes W :
  signal_reachable W →
  sn reader_move W ∧
  ∀ W', rtc reader_move W W' → (¬ ∃ W'', reader_move W' W'') → W'.(reader) ≠ RGone →
    W'.(reader) = RRead ∧ W'.(pipe) = [] ∧
    (W'.(lost) = false → ∀ i l, W'.(listeners) !! i = Some l → live l = true → l.(owed) = true →
       l.(pending) = true ∧ (l.(pc) = LParked → l.(woken) = true)).
Proof.
  intros HI%signal_reachable_inv. split; [by apply reader_sn|]. intros W' Hrtc Hstuck Hr.
  assert (HI' : signal_inv W').
  { clear Hstuck Hr. induction Hrtc as [|W W1 W2 H1 _ IH]; [done|]. apply IH. eapply inv_signal_step; [done|].
    by apply reader_move_step. }
  destruct (reader_stuck W' HI' Hstuck) as [?|[Er Ep]]; [done|]. split; [done|]. split; [done|].
  intros Hlost i l Hl Hlv Ho.
  assert (Hp : l.(pending) = true).
  { destruct (s_owed _ HI' i l Hlost Hr Hl Ho Hlv) as [?|[H|H]]; [done| |].
    - unfold bytes_of in H. rewrite Er, Ep in H. simpl in H. rewrite cnt_nil in H. lia.
    - rewrite Er in H. unfold ahead in H. simpl in H. lia. }
  split; [done|]. intros Hpc. pose proof (s_wait _ HI' i l Hl) as H. unfold wait_ok in H. rewrite Hpc, Er, Hp in H.
  simpl in H. destruct H as [?|[_ [?|?]]]; done.
Qed.

Lemma new_listener_spec s W W' r :
  new_listener s W = (W', r) →
  W'.(initialized) = W.(initialized) ∧ r = Ok W.(next_id) ∧ slot s W' = slot s W ++ [W.(next_id)] ∧
  (∀ s', s' ≠ s → slot s' W' = slot s' W) ∧
  W'.(listeners) = <[W.(next_id) := mkListener s false false LIdle false false 0]> W.(listeners) ∧
  W'.(installed) = W.(installed).
Proof.
  intros [= <- <-]. rewrite slot_set_slot, bool_decide_eq_true_2 by done. split_and!; try done.
  intros s' Hne. by rewrite slot_set_slot, bool_decide_eq_false_2.
Qed.

(** [kind as usize] is in range exactly when the number is. *)
Lemma signum_range k :
  - 2 ^ 31 ≤ k < 2 ^ 31 →
  if k mod 2 ^ usize_bits <? slot_count p
  then 0 ≤ k < slot_count p ∧ Z.to_nat (k mod 2 ^ usize_bits) = Z.to_nat k
  else ¬ 0 ≤ k < slot_count p.
Proof.
  unfold usize_bits. intros Hk. destruct (Z.ltb_spec (k mod 2 ^ 64) (slot_count p)) as [H|H].
  - assert (0 ≤ k).
    { destruct (Z_lt_le_dec k 0); [|done]. exfalso. assert (E : k mod 2 ^ 64 = k + 2 ^ 64).
      { symmetry. apply (Z.mod_unique_pos _ _ (-1)); lia. }
      rewrite E in H. destruct p; simpl in H; lia. }
    rewrite Z.mod_small in * by lia. done.
  - intros ?. rewrite Z.mod_small in H by lia. lia.
Qed.

Lemma global_keeps env W :
  ∃ g, global env W = (set_initialized (Some g) W, g) ∧ ∀ g', W.(initialized) = Some g' → g' = g.
Proof.
  unfold global. destruct (initialized W) as [g|] eqn:E; [|by exists env]. exists g. split; [|congruence].
  f_equal. destruct W; simpl in *. unfold set_initialized. simpl. congruence.
Qed.

(** [signal] and [listen_for] either register one new listener, of the kind asked for,
    with a handler installed for that kind (on Unix) and all others as they
    were, or change neither listeners nor handlers, and then because the set-up
    failed, now or at the first call, because the number is no valid one, or
    because this first installation of its handler failed.  What the first call
    of all found out about the set-up is kept. *)
Theorem signal_exact env inst k W W' r :
  - 2 ^ 31 ≤ k < 2 ^ 31 → subscribe env inst k W = (W', r) →
  (∀ g, W.(initialized) = Some g → W'.(initialized) = Some g) ∧
  match r with
  | Ok i =>
      0 ≤ k < slot_count p ∧ W'.(initialized) = Some (Ok tt) ∧
      i = W.(next_id) ∧ slot (Z.to_nat k) W' = slot (Z.to_nat k) W ++ [i] ∧
      (∀ s, s ≠ Z.to_nat k → slot s W' = slot s W) ∧
      W'.(listeners) = <[i := mkListener (Z.to_nat k) false false LIdle false false 0]> W.(listeners) ∧
      W'.(installed) = match p with Unix => {[Z.to_nat k]} ∪ W.(installed) | Windows => W.(installed) end
  | Err e =>
      W'.(slots) = W.(slots) ∧ W'.(listeners) = W.(listeners) ∧ W'.(installed) = W.(installed) ∧
      (W'.(initialized) = Some (Err e) ∨
       e = InvalidInput ∧ ¬ 0 ≤ k < slot_count p ∨
       p = Unix ∧ (Z.to_nat k ∉ W.(installed)) ∧ inst = Err e)
  end.
Proof.
  intros Hk Hs. rewrite subscribe_eq in Hs. cbv zeta in Hs. destruct (global_keeps env W) as (g & Hg & Hkeep). rewrite Hg in Hs.
  assert (Hkept : ∀ g', W.(initialized) = Some g' → Some g = Some g') by (intros g' E; by rewrite (Hkeep g' E)).
  destruct g as [[]|e]; [|injection Hs as <- <-; simpl; tauto].
  pose proof (signum_range k Hk) as Hr. destruct (k mod 2 ^ usize_bits <? slot_count p).
  - destruct Hr as [Hr E]. rewrite E in Hs. destruct p eqn:Ep.
    + case_bool_decide as Hin; [|destruct inst as [|e]].
      * apply new_listener_spec in Hs as (-> & -> & Hs & Ho & -> & ->). split; [done|].
        split_and!; try done; [apply Hr..|]. simpl in *. set_solver.
      * apply new_listener_spec in Hs as (-> & -> & Hs & Ho & -> & ->). split; [done|].
        split_and!; try done; apply Hr.
      * injection Hs as <- <-. simpl. tauto.
    + apply new_listener_spec in Hs as (-> & -> & Hs & Ho & -> & ->). split; [done|].
      split_and!; try done; apply Hr.
  - injection Hs as <- <-. simpl. tauto.
Qed.
End signal.

(** ** Concrete runs *)

Lemma signal_run pl cap (ms : list move) (P : world → Prop) (test : world → bool) :
  (∀ W, test W = true → P W) →
  match run_moves (signal_move pl cap) ms signal_init with Some W => test W | None => false end = true →
  ∃ W, signal_reachable pl cap W ∧ P W.
Proof. apply run_ends; [intros m W W' E; by exists m|done]. Qed.

Definition listen (k : Z) (i : nat) : list move :=
  [MSignal (Ok tt) (Ok tt) k; MPoll i; MPolling i; MPolling i; MPolling i].

Definition shows (i : nat) (W : world) : option (bool * bool * bool) :=
  match W.(listeners) !! i with
  | Some (mkListener _ pd _ LParked wk ow _) => Some (pd, wk, ow)
  | _ => None
  end.

(** SIGINT arrives for a listener that waits. *)
Lemma interrupted_run :
  ∃ W, signal_reachable Unix 4096 W ∧ W.(lost) = false ∧ W.(reader) = RRead ∧ W.(pipe) = [2%nat] ∧
    W.(listeners) !! 0%nat = Some (mkListener 2 false true LParked false true 0).
Proof.
  apply (signal_run Unix 4096 (listen 2 0 ++ [MArrives 2]) _
    (λ W, match W.(lost), W.(reader), W.(pipe), W.(listeners) !! 0%nat with
          | false, RRead, [2%nat], Some (mkListener 2 false true LParked false true 0) => true
          | _, _, _, _ => false end)); [|vm_compute; reflexivity].
  intros W. destruct (lost W), (reader W); try done. destruct (pipe W) as [|[|[|[|]]] []]; try done.
  by destruct (listeners W !! 0%nat) as [[[|[|[|]]] [] [] [] [] [] []]|].
Defined.

Lemma signal_delivered_witness :
  ∃ W, signal_reachable Unix 4096 W ∧ W.(pipe) = [2%nat] ∧
    ∃ l, W.(listeners) !! 0%nat = Some l ∧ l.(owed) = true ∧ l.(waker) = true.
Proof.
  destruct interrupted_run as (W & HW & _ & _ & Hp & Hl). exists W. split; [exact HW|]. split; [exact Hp|].
  eexists. split; [exact Hl|]. split; [reflexivity|].
  destruct (signal_delivered Unix 4096 W HW) as (_ & _ & H). apply (H 0%nat _ Hl); reflexivity.
Defined.

Lemma reader_finishes_witness :
  ∃ W, signal_reachable Unix 4096 W ∧ W.(pipe) = [2%nat] ∧ sn (reader_move Unix 4096) W.
Proof.
  destruct interrupted_run as (W & HW & _ & _ & Hp & Hl). exists W. split; [exact HW|]. split; [exact Hp|].
  apply (reader_finishes Unix 4096 W HW).
Defined.

Lemma signal_exact_witness :
  (subscribe Unix (Ok tt) (Ok tt) (-1) signal_init).2 = Err InvalidInput ∧
  slots (subscribe Unix (Ok tt) (Ok tt) (-1) signal_init).1 = ∅.
Proof.
  split; [reflexivity|].
  apply (signal_exact Unix (Ok tt) (Ok tt) (-1) signal_init _ (Err InvalidInput)); [lia|reflexivity].
Defined.

(** Once the runtime of the first call has gone [signal] still succeeds, but
    nothing it returns will ever resolve. *)
Example signal_after_runtime :
  ∃ W, signal_reachable Unix 4096 W ∧ W.(reader) = RGone ∧ W.(pipe) = [] ∧ shows 1 W = Some (false, false, true).
Proof.
  apply (signal_run Unix 4096 (listen 2 0 ++ [MGone] ++ listen 2 1 ++ [MArrives 2]) _
    (λ W, match W.(reader), W.(pipe), shows 1 W with
          | RGone, [], Some (false, false, true) => true | _, _, _ => false end)); [|vm_compute; reflexivity].
  intros W. destruct (reader W), (pipe W); try done. by destruct (shows 1 W) as [[[[] []] []]|].
Qed.

(** When the pipe is full of one signal, another is lost for good. *)
Example pipe_full_loses :
  ∃ W, signal_reachable Unix 1 W ∧ W.(reader) = RRead ∧ W.(pipe) = [] ∧
    shows 0 W = Some (true, true, true) ∧ shows 1 W = Some (false, false, true).
Proof.
  apply (signal_run Unix 1 (listen 2 0 ++ listen 15 1 ++ [MArrives 2; MArrives 15; MRead 1] ++ replicate 5 MReader) _
    (λ W, match W.(reader), W.(pipe), shows 0 W, shows 1 W with
          | RRead, [], Some (true, true, true), Some (false, false, true) => true | _, _, _, _ => false end));
    [|vm_compute; reflexivity].
  intros W. destruct (reader W), (pipe W); try done.
  by destruct (shows 0 W) as [[[[] []] []]|], (shows 1 W) as [[[[] []] []]|].
Qed.

(** On Windows an event is reported as handled when every listener for it has
    been dropped. *)
Example dropped_listeners_swallow :
  ∃ W, signal_reachable Windows 4096 W ∧ (∀ i l, W.(listeners) !! i = Some l → live l = false) ∧
    snd <$> arrives Windows 4096 0 W = Some true.
Proof.
  apply (signal_run Windows 4096 [MSignal (Ok tt) (Ok tt) 0; MDrop 0] _
    (λ W, bool_decide (map_Forall (λ _ l, live l = false) W.(listeners)) &&
          bool_decide (snd <$> arrives Windows 4096 0 W = Some true))); [|vm_compute; reflexivity].
  intros W [H1%bool_decide_eq_true H2%bool_decide_eq_true]%andb_true_iff. split; [|done].
  intros i l Hl. by apply (H1 i l).
Qed.
