(* ===== verification/Process.v ===== *)
(** Child processes ([src/src/process/mod.rs]): [Command::spawn], the [Child]
    and its operations, and the Windows pipes to it.

    The operating system and [std::process::Child] are what they are documented
    to be: a process runs, exits and is reaped once, [kill] ends one that runs.
    The calls may fail; whether they do is an argument.  [inner] moves: from the
    [Child] into the job that [wait] sends to the pool, or into the one that
    [drop] sends there; [holder] says where it is.  The Unix pipes are streams
    over [poll_io] like the others ([Streams]); the Windows pipes are shown to
    be [Files]' loop with one operation. *)

From S2P Require Import Prelude AsyncIo Files.

Definition SIGKILL_STATUS : Z := 9.

Inductive process := PRunning | PZombie (st : Z) | PReaped (st : Z).
(** Where the [std::process::Child] is: in the [Child], in the job of a [wait],
    in the job of the destructor; or gone. *)
Inductive holder := HChild | HWaitJob | HReaper | HNone.

Record Child := mkChild {
  proc : process;
  inner : holder;
  status : option Z;
  kill_on_drop : bool;
  waiting : bool;                            (* a [wait] is suspended *)
  job_result : option (result Z io_error);   (* what its job came to *)
  broken : bool;                             (* a [wait] was dropped or failed *)
  dropped : bool;
}.

Definition set_proc p (c : Child) := mkChild p c.(inner) c.(status) c.(kill_on_drop) c.(waiting) c.(job_result) c.(broken) c.(dropped).
Definition set_inner h (c : Child) := mkChild c.(proc) h c.(status) c.(kill_on_drop) c.(waiting) c.(job_result) c.(broken) c.(dropped).
Definition set_status st (c : Child) := mkChild c.(proc) c.(inner) st c.(kill_on_drop) c.(waiting) c.(job_result) c.(broken) c.(dropped).
Definition set_waiting b r (c : Child) := mkChild c.(proc) c.(inner) c.(status) c.(kill_on_drop) b r c.(broken) c.(dropped).
Definition set_broken (c : Child) := mkChild c.(proc) c.(inner) c.(status) c.(kill_on_drop) c.(waiting) c.(job_result) true c.(dropped).
Definition set_dropped (c : Child) := mkChild c.(proc) c.(inner) c.(status) c.(kill_on_drop) c.(waiting) c.(job_result) c.(broken) true.

(** [Command::spawn]: [std] is how the process was started, [adopts] what
    became of the pipes asked for.  What is left running comes first. *)
Fixpoint first_err (rs : list (result unit io_error)) : option io_error :=
  match rs with [] => None | Err e :: _ => Some e | Ok _ :: rs => first_err rs end.
Definition spawn (kill_on_drop : bool) (std : result unit io_error) (adopts : list (result unit io_error))
    : option process * result Child io_error :=
  match std with
  | Err e => (None, Err e)
  | Ok _ =>
      match first_err adopts with
      | Some e => (Some PRunning, Err e)
      | None => (Some PRunning, Ok (mkChild PRunning HChild None kill_on_drop false None false false))
      end
  end.

(** [std]'s [kill], on a handle that has not been waited on. *)
Definition std_kill (env : result unit io_error) (c : Child) : Child * result unit io_error :=
  match env with
  | Err e => (c, Err e)
  | Ok _ => (match c.(proc) with PRunning => set_proc (PZombie SIGKILL_STATUS) c | _ => c end, Ok tt)
  end.

(** [Child::kill]. *)
Definition kill (env : result unit io_error) (c : Child) : Child * result unit io_error :=
  match c.(inner) with HChild => std_kill env c | _ => (c, Ok tt) end.

(** [Child::try_wait]. *)
Definition try_wait (env : result unit io_error) (c : Child) : Child * result (option Z) io_error :=
  match c.(status) with
  | Some st => (c, Ok (Some st))
  | None =>
      match c.(inner) with
      | HChild =>
          match env, c.(proc) with
          | Err e, _ => (c, Err e)
          | Ok _, PZombie st => (set_inner HNone (set_status (Some st) (set_proc (PReaped st) c)), Ok (Some st))
          | Ok _, _ => (c, Ok None)
          end
      | _ => (c, Ok None)
      end
  end.

(** [Child::wait], up to its suspension, ... *)
Definition wait (c : Child) : Child * next unit (result Z io_error) :=
  match c.(status) with
  | Some st => (c, Return (Ok st))
  | None =>
      match c.(inner) with
      | HChild => (set_waiting true None (set_inner HWaitJob c), Continue tt)
      | _ => (c, Panicked)
      end
  end.
(** ... and from there on. *)
Definition wait_resume (r : result Z io_error) (c : Child) : Child * result Z io_error :=
  match r with
  | Ok st => (set_status (Some st) (set_waiting false None c), Ok st)
  | Err e => (set_broken (set_waiting false None c), Err e)
  end.

(** The destructor; [runtime] is whether one is current. *)
Definition drop_child (env : result unit io_error) (runtime : bool) (c : Child) : Child :=
  let c := set_dropped c in
  if c.(kill_on_drop) then
    match c.(inner) with
    | HChild => let c := (std_kill env c).1 in set_inner (if runtime then HReaper else HNone) c
    | _ => c
    end
  else match c.(inner) with HChild => set_inner HNone c | _ => c end.

Inductive child_move :=
| MExit (st : Z)                           (* the process ends *)
| MKill (env : result unit io_error)
| MTryWait (env : result unit io_error)
| MWait
| MResume
| MCancel                                  (* the future of [wait] is dropped *)
| MDropChild (env : result unit io_error) (runtime : bool)
| MJob (env : option io_error)             (* the job of [wait] ends *)
| MReap.                                   (* that of the destructor *)

Inductive answer :=
| AKill (r : result unit io_error)
| ATryWait (r : result (option Z) io_error)
| AWait (r : result Z io_error)
| APanic
| ANone.

(** The caller has the [Child] to itself unless a [wait] borrows it. *)
Definition free (c : Child) : bool := negb c.(waiting) && negb c.(dropped).

Definition child_step (m : child_move) (c : Child) : option (Child * answer) :=
  match m with
  | MExit st => match c.(proc) with PRunning => Some (set_proc (PZombie st) c, ANone) | _ => None end
  | MKill env => if free c then let '(c, r) := kill env c in Some (c, AKill r) else None
  | MTryWait env => if free c then let '(c, r) := try_wait env c in Some (c, ATryWait r) else None
  | MWait =>
      if free c then
        match wait c with
        | (c, Return r) => Some (c, AWait r)
        | (c, Continue _) => Some (c, ANone)
        | (c, Panicked) => Some (c, APanic)
        end
      else None
  | MResume =>
      if c.(waiting) then
        match c.(job_result) with
        | Some r => let '(c, r) := wait_resume r c in Some (c, AWait r)
        | None => None
        end
      else None
  | MCancel => if c.(waiting) then Some (set_broken (set_waiting false None c), ANone) else None
  | MDropChild env runtime => if free c then Some (drop_child env runtime c, ANone) else None
  | MJob env =>
      match c.(inner) with
      | HWaitJob =>
          let ends r c := set_waiting c.(waiting) (if c.(waiting) then Some r else None) (set_inner HNone c) in
          match env, c.(proc) with
          | Some e, _ => Some (ends (Err e) c, ANone)
          | None, PZombie st => Some (ends (Ok st) (set_proc (PReaped st) c), ANone)
          | None, _ => None
          end
      | _ => None
      end
  | MReap =>
      match c.(inner), c.(proc) with
      | HReaper, PZombie st => Some (set_inner HNone (set_proc (PReaped st) c), ANone)
      | _, _ => None
      end
  end.

Definition child_init (kd : bool) : Child := mkChild PRunning HChild None kd false None false false.
Definition child_reachable (kd : bool) : Child → Prop :=
  reachable (.= child_init kd) (λ c c', ∃ m a, child_step m c = Some (c', a)).

(** ** The invariant *)

Definition unreaped (p : process) : Prop := match p with PReaped _ => False | _ => True end.

(** The phases of a [Child]'s life. *)
Inductive child_inv : Child → Prop :=
| ph_held p kd : unreaped p → child_inv (mkChild p HChild None kd false None false false)
| ph_waiting p kd : unreaped p → child_inv (mkChild p HWaitJob None kd true None false false)
| ph_answered p kd r : (∀ st, r = Ok st → p = PReaped st) →
    child_inv (mkChild p HNone None kd true (Some r) false false)
| ph_known st kd dr : child_inv (mkChild (PReaped st) HNone (Some st) kd false None false dr)
| ph_broken p h kd dr : h = HWaitJob ∧ unreaped p ∨ h = HNone → child_inv (mkChild p h None kd false None true dr)
| ph_dropped p h kd : h = HReaper ∧ unreaped p ∨ h = HNone → child_inv (mkChild p h None kd false None false true).
#[local] Hint Constructors child_inv : core.

Ltac child_cases :=
  unfold kill, try_wait, wait, wait_resume, drop_child, free, std_kill in *;
  unfold set_proc, set_inner, set_status, set_waiting, set_broken, set_dropped in *; simpl in *;
  repeat (case_match; simpl in *; simplify_eq); simpl in *; simplify_eq.

Lemma child_step_inv m c c' a : child_inv c → child_step m c = Some (c', a) → child_inv c'.
Proof.
  intros Hi Hs. destruct Hi as [p kd Hu|p kd Hu|p kd r Hr|st kd dr|p h kd dr Hh|p h kd Hh];
    destruct m; simpl in Hs; child_cases; try done; auto;
    try (destruct Hh as [[? ?]|?]; simplify_eq; auto; done).
  - by apply ph_answered.
  - apply ph_answered. by intros ? [= ->].
  - apply ph_answered. intros ? ->. by specialize (Hr _ eq_refl).
  - rewrite (Hr _ eq_refl). apply ph_known.
Qed.

Lemma child_reachable_inv kd c : child_reachable kd c → child_inv c.
Proof.
  apply invariant_reachable.
  - intros ? ->. by apply ph_held.
  - intros c1 c2 Hi (m & a & Hs). by eapply child_step_inv.
Qed.

(** ** Properties *)

(** The steps in which the caller learns a status. *)
Definition told (a : answer) (st : Z) : Prop := a = AWait (Ok st) ∨ a = ATryWait (Ok (Some st)).

(** C22: A [Child] of which no [wait] has failed or been dropped: every status
    told is the one the process was reaped with; once told, both [wait] and
    [try_wait] tell it again, at once; [wait] never panics, and [kill], if the
    system does it, leaves no process running; nothing signals a process that
    has been reaped.  Dropped with [kill_on_drop], with no [wait] suspended, it
    leaves no process running that can be killed, and one that is not reaped
    is reaped by the job of the destructor when a runtime is there. *)
Theorem child_lifecycle kd c m c' a :
  child_reachable kd c → child_step m c = Some (c', a) → c.(broken) = false →
  (∀ st, told a st → c'.(proc) = PReaped st) ∧
  (∀ st, c.(status) = Some st → (m = MWait → a = AWait (Ok st)) ∧ (∀ env, m = MTryWait env → a = ATryWait (Ok (Some st)))) ∧
  a ≠ APanic ∧
  (m = MKill (Ok tt) → c'.(proc) ≠ PRunning ∧ ∀ st, c.(proc) = PReaped st → c' = c) ∧
  (∀ rt, m = MDropChild (Ok tt) rt → c.(kill_on_drop) = true →
     c'.(proc) ≠ PRunning ∧ (rt = true → unreaped c'.(proc) → c'.(inner) = HReaper)).
Proof.
  intros Hi%child_reachable_inv Hs Hb.
  destruct Hi as [p kd' Hu|p kd' Hu|p kd' r Hr|st kd' dr|p h kd' dr Hh|p h kd' Hh]; simpl in Hb; try done;
    destruct m; simpl in Hs; child_cases; try done;
    split_and!; try done; try (by intros ? [?|?]); try (by intros; simplify_eq);
    intros ? [?|?]; simplify_eq; try done. by apply Hr.
Qed.

(** After a [wait] has been dropped before it resolved, or has failed, the
    [Child] has lost its process for good: [kill] says [Ok] and does nothing,
    [try_wait] says that the process still runs, whatever it does, a second
    [wait] panics, and dropping the [Child] neither kills the process nor sees
    to its being reaped, [kill_on_drop] or not. *)
Theorem child_forgotten kd c m c' a :
  child_reachable kd c → c.(broken) = true → child_step m c = Some (c', a) →
  c'.(broken) = true ∧
  (∀ env, m = MKill env → a = AKill (Ok tt) ∧ c' = c) ∧
  (∀ env, m = MTryWait env → a = ATryWait (Ok None) ∧ c' = c) ∧
  (m = MWait → a = APanic ∧ c' = c) ∧
  (∀ env rt, m = MDropChild env rt → c'.(proc) = c.(proc) ∧ c'.(inner) = c.(inner) ∧ c.(inner) ≠ HChild).
Proof.
  intros Hi%child_reachable_inv Hb Hs.
  destruct Hi as [p kd' Hu|p kd' Hu|p kd' r Hr|st kd' dr|p h kd' dr Hh|p h kd' Hh]; simpl in Hb; try done.
  destruct Hh as [[-> ?]| ->]; destruct m; simpl in Hs; child_cases; try done;
    split_and!; try done; intros; simplify_eq; done.
Qed.

Lemma child_run kd (ms : list child_move) (P : Child → Prop) (test : Child → bool) :
  (∀ c, test c = true → P c) →
  match run_moves (λ m c, fst <$> child_step m c) ms (child_init kd) with Some c => test c | None => false end = true →
  ∃ c, child_reachable kd c ∧ P c.
Proof.
  apply run_ends; [|done]. intros m c c' E. destruct (child_step m c) as [[c1 a]|] eqn:Es; [|done].
  injection E as <-. by exists m, a.
Qed.

Lemma child_lifecycle_witness :
  ∃ c c', child_reachable true c ∧ child_step (MDropChild (Ok tt) true) c = Some (c', ANone) ∧
    c.(proc) = PRunning ∧ c'.(proc) ≠ PRunning.
Proof.
  assert (Hr : child_reachable true (child_init true)) by (by apply reachable_init).
  eexists (child_init true), _. split; [exact Hr|]. split; [reflexivity|]. split; [reflexivity|].
  destruct (child_lifecycle true _ (MDropChild (Ok tt) true) _ ANone Hr eq_refl eq_refl) as (_ & _ & _ & _ & H).
  exact (proj1 (H true eq_refl eq_refl)).
Defined.

(** [wait] in a [select] that another branch wins. *)
Lemma child_forgotten_witness :
  ∃ c c', child_reachable true c ∧ c.(proc) = PRunning ∧ c.(kill_on_drop) = true ∧
    child_step MWait c = Some (c', APanic) ∧ c' = c.
Proof.
  destruct (child_run true [MWait; MCancel]
    (λ c, c = mkChild PRunning HWaitJob None true false None true false)
    (λ c, match c with mkChild PRunning HWaitJob None true false None true false => true | _ => false end))
    as (c & Hr & ->); [intros [[] [] [] [] [] [] [] []]; done|reflexivity|].
  eexists _, _. split; [exact Hr|]. split; [reflexivity|]. split; [reflexivity|]. split; [reflexivity|].
  destruct (child_forgotten true _ MWait _ APanic Hr eq_refl eq_refl) as (_ & _ & _ & H & _).
  apply (H eq_refl).
Defined.

(** A pipe that cannot be adopted: [spawn] fails, and the process runs on with
    nobody to wait for it. *)
Example spawn_leaves_running :
  spawn true (Ok tt) [Ok tt; Err Other] = (Some PRunning, Err Other).
Proof. reflexivity. Qed.

(** ** The Windows pipes *)

(** [std]'s ends of a pipe. *)
Class StdPipe (T : Type) := {
  pipe_read : Z → T → T * result (list byte) io_error;
  pipe_write : list byte → T → T * result Z io_error;
}.

Definition CHUNK_CAP : Z := 64 * 1024.

Section pipe.
Context {T : Type} `{StdPipe T} `{BuildProfile}.

Inductive read_job := ReadRunning (want : Z) (t : T) | ReadFinished (x : option (T * result (list byte) io_error)).
Inductive ReadState := ReadIdle (t : T) | ReadBusy (j : read_job) (w : option waker) | ReadPoisoned.

Definition read_pool_runs : M ReadState unit :=
  let! s := get in
  match s with
  | ReadBusy (ReadRunning want t) w => put (ReadBusy (ReadFinished (Some (pipe_read want t))) None) ;! wake_opt w
  | _ => ret tt
  end.

Fixpoint poll_blocking_read (fuel : nat) (quick : bool) (cx : waker) (b : ReadBuf)
    : M ReadState (poll (result unit io_error * ReadBuf)) :=
  match fuel with
  | O => panic
  | S fuel =>
      let! s := get in
      match s with
      | ReadIdle t =>
          put (ReadBusy (ReadRunning (Z.min (remaining b) CHUNK_CAP) t) None) ;!
          (if quick then read_pool_runs else ret tt) ;!
          poll_blocking_read fuel quick cx b
      | ReadBusy (ReadRunning want t) _ => put (ReadBusy (ReadRunning want t) (Some cx)) ;! ret Pending
      | ReadBusy (ReadFinished None) _ => put ReadPoisoned ;! ret (Ready (Err Other, b))
      | ReadBusy (ReadFinished (Some (t, r))) _ =>
          put (ReadIdle t) ;!
          match r with
          | Ok chunk =>
              assert (blen chunk <=? remaining b) ;!
              let! b' := lift (advance (blen chunk) (write_unfilled chunk b)) in
              ret (Ready (Ok tt, b'))
          | Err e => ret (Ready (Err e, b))
          end
      | ReadPoisoned => ret (Ready (Err Other, b))
      end
  end.

Inductive write_job := WriteRunning (data : list byte) (t : T) | WriteFinished (x : option (T * result Z io_error)).
Inductive WriteState := WriteIdle (t : T) | WriteBusy (j : write_job) (w : option waker) | WritePoisoned.

Definition write_pool_runs : M WriteState unit :=
  let! s := get in
  match s with
  | WriteBusy (WriteRunning data t) w => put (WriteBusy (WriteFinished (Some (pipe_write data t))) None) ;! wake_opt w
  | _ => ret tt
  end.

Fixpoint poll_blocking_write (fuel : nat) (quick : bool) (cx : waker) (buf : list byte)
    : M WriteState (poll (result Z io_error)) :=
  match fuel with
  | O => panic
  | S fuel =>
      let! s := get in
      match s with
      | WriteIdle t =>
          put (WriteBusy (WriteRunning (upto (Z.min (blen buf) CHUNK_CAP) buf) t) None) ;!
          (if quick then write_pool_runs else ret tt) ;!
          poll_blocking_write fuel quick cx buf
      | WriteBusy (WriteRunning data t) _ => put (WriteBusy (WriteRunning data t) (Some cx)) ;! ret Pending
      | WriteBusy (WriteFinished None) _ => put WritePoisoned ;! ret (Ready (Err Other))
      | WriteBusy (WriteFinished (Some (t, r))) _ => put (WriteIdle t) ;! ret (Ready r)
      | WritePoisoned => ret (Ready (Err Other))
      end
  end.

(** A pipe as a file that can only be read or written. *)
#[local] Instance pipe_file : StdFile T := {
  permissions := unit;
  std_read := pipe_read;
  std_write := pipe_write;
  std_seek _ f := (f, Err Other);
  std_set_len _ f := (f, Err Other);
  std_set_permissions _ f := (f, Err Other);
  std_sync_all f := (f, Err Other);
  std_sync_data f := (f, Err Other);
  std_try_clone f := (f, Err Other);
}.

Definition read_file (s : ReadState) : File T :=
  mkFile (match s with
          | ReadIdle t => Idle t
          | ReadBusy (ReadRunning want t) w => Busy (Running (DoRead want) t) w
          | ReadBusy (ReadFinished x) w => Busy (Finished ((λ '(t, r), (t, OpRead r)) <$> x)) w
          | ReadPoisoned => Poisoned
          end) CHUNK_CAP.
Definition write_file (s : WriteState) : File T :=
  mkFile (match s with
          | WriteIdle t => Idle t
          | WriteBusy (WriteRunning data t) w => Busy (Running (DoWrite data) t) w
          | WriteBusy (WriteFinished x) w => Busy (Finished ((λ '(t, r), (t, OpWrite r)) <$> x)) w
          | WritePoisoned => Poisoned
          end) CHUNK_CAP.

Ltac pipe_eval :=
  cbv -[pipe_read pipe_write remaining Z.min Z.leb blen advance write_unfilled upto CHUNK_CAP];
  repeat match goal with
         | |- context [pipe_read ?a ?t] => destruct (pipe_read a t) as [? [?|?]]
         | |- context [pipe_write ?a ?t] => destruct (pipe_write a t) as [? ?]
         | |- context [Z.leb ?a ?b] => destruct (Z.leb a b)
         | |- context [advance ?n ?b] => destruct (advance n b)
         end; reflexivity.

(** The Windows pipes of a child are the file's loop with one kind of
    operation: polled or left to the pool in any state, they do what a [File]
    over the same handle does whose cap is theirs, panics included. *)
Theorem pipe_is_file quick cx b buf (s : ReadState) (w : WriteState) :
  (λ '(p, s, ws), (p, read_file s, ws)) <$> poll_blocking_read 2 quick cx b s = file_poll_read quick cx b (read_file s) ∧
  (λ '(p, s, ws), (p, read_file s, ws)) <$> read_pool_runs s = pool_runs (read_file s) ∧
  (λ '(p, s, ws), (p, write_file s, ws)) <$> poll_blocking_write 2 quick cx buf w =
    file_poll_write quick cx buf (write_file w) ∧
  (λ '(p, s, ws), (p, write_file s, ws)) <$> write_pool_runs w = pool_runs (write_file w).
Proof.
  split_and!.
  - destruct s as [t|[want t|[[t [chunk|e]]|]] w'|]; [destruct quick| | | | |]; pipe_eval.
  - destruct s as [t|[want t|[[t [chunk|e]]|]] [w'|]|]; pipe_eval.
  - destruct w as [t|[data t|[[t r]|]] w'|]; [destruct quick| | | |]; pipe_eval.
  - destruct w as [t|[data t|[[t r]|]] [w'|]|]; pipe_eval.
Qed.
End pipe.
