(* ===== verification/Reactors.v ===== *)
(** The reactors' back ends ([src/src/io/reactor/epoll.rs], [kqueue.rs],
    [io_uring.rs], [windows.rs]): what their events mark ready, the registry of
    the [io_uring] one, and the poll requests of the Windows one.

    What [mark_ready] does, and a registration that has its events, is
    [Readiness].  The constants are those of [libc] and of the Windows file.
    A poll of [io_uring] refers to the open file its descriptor named when it
    was consumed, and keeps it; removing a poll by its [user_data] removes the
    first it finds and completes it; polling no open descriptor completes with
    an error. *)

From S2P Require Import Prelude AsyncIo Readiness.

(** ** What an event marks *)

Definition EPOLLIN : Z := 1.
Definition EPOLLOUT : Z := 4.
Definition EPOLLERR : Z := 8.
Definition EPOLLHUP : Z := 16.
Definition EPOLLRDHUP : Z := 8192.

(** The loop of [epoll.rs]; the [POLL*] flags of [io_uring.rs] are the same bits. *)
Definition epoll_marks (flags : Z) : list Interest :=
  (if has flags (Z.lor EPOLLIN (Z.lor EPOLLHUP (Z.lor EPOLLERR EPOLLRDHUP))) then [Read] else []) ++
  (if has flags (Z.lor EPOLLOUT (Z.lor EPOLLHUP EPOLLERR)) then [Write] else []).

Definition uring_marks (result : Z) : list Interest :=
  if result <? 0 then [Read; Write]
  else
    (if has result (Z.lor EPOLLIN (Z.lor EPOLLHUP (Z.lor EPOLLERR EPOLLRDHUP))) then [Read] else []) ++
    (if has result (Z.lor EPOLLOUT (Z.lor EPOLLHUP EPOLLERR)) then [Write] else []).

Inductive filter := EVFILT_READ | EVFILT_WRITE.
Definition EV_ERROR : Z := 16384.
Definition EV_EOF : Z := 32768.
Definition kqueue_marks (f : filter) (flags : Z) : list Interest :=
  let eof_or_err := has flags (Z.lor EV_EOF EV_ERROR) in
  (if match f with EVFILT_READ => true | _ => false end || eof_or_err then [Read] else []) ++
  (if match f with EVFILT_WRITE => true | _ => false end || eof_or_err then [Write] else []).

Definition POLL_RECEIVE : Z := 1.
Definition POLL_SEND : Z := 4.
Definition POLL_DISCONNECT : Z := 8.
Definition POLL_ABORT : Z := 16.
Definition POLL_LOCAL_CLOSE : Z := 32.
Definition POLL_ACCEPT : Z := 128.
Definition POLL_CONNECT_FAIL : Z := 256.
Definition READABLE_FLAGS : Z :=
  Z.lor POLL_RECEIVE (Z.lor POLL_DISCONNECT (Z.lor POLL_ACCEPT (Z.lor POLL_ABORT POLL_CONNECT_FAIL))).
Definition WRITABLE_FLAGS : Z := Z.lor POLL_SEND (Z.lor POLL_ABORT POLL_CONNECT_FAIL).
Definition WATCHED_FLAGS : Z := Z.lor READABLE_FLAGS (Z.lor WRITABLE_FLAGS POLL_LOCAL_CLOSE).

(** [None] stops watching the socket. *)
Definition afd_marks (status events : Z) : option (list Interest) :=
  if status <? 0 then Some [Read; Write]
  else if has events POLL_LOCAL_CLOSE then None
  else Some ((if has events READABLE_FLAGS then [Read] else []) ++
             (if has events WRITABLE_FLAGS then [Write] else [])).

Lemma has_or s f g : has s (Z.lor f g) = has s f || has s g.
Proof.
  unfold has. rewrite Z.land_lor_distr_r.
  destruct (Z.eqb_spec (Z.land s f) 0) as [->|Hf]; simpl; [by rewrite Z.lor_0_l|].
  apply negb_true_iff, Z.eqb_neq. rewrite Z.lor_eq_0_iff. tauto.
Qed.

Lemma has_bits s l : Forall (Z.le 0) l →
  has s (foldr (λ k m, Z.lor (2 ^ k) m) 0 l) = existsb (Z.testbit s) l.
Proof.
  induction 1 as [|k l Hk Hl IH]; simpl; [by unfold has; rewrite Z.land_0_r|].
  by rewrite has_or, has_testbit, IH.
Qed.

(** A test against a mask of bits, as a test of the bits. *)
Ltac mask ks :=
  match goal with |- context [has ?s ?m] =>
    replace (has s m) with (existsb (Z.testbit s) ks)
      by (rewrite <-has_bits by (repeat constructor; done); done) end.

Lemma marks_in (r w : bool) i :
  i ∈ (if r then [Read] else []) ++ (if w then [Write] else []) ↔ match i with Read => r = true | Write => w = true end.
Proof. destruct r, w, i; set_solver. Qed.

(** The back ends agree on what an event means.  The [io_uring] one's poll
    result marks what [epoll] marks, or both ways when the poll failed; the
    bits that mark are exactly those named; and no condition the Windows one
    watches goes unmarked, but that of a socket closed under it. *)
Theorem reactor_marks flags events status i :
  (0 ≤ flags → uring_marks flags = epoll_marks flags) ∧
  (flags < 0 → i ∈ uring_marks flags) ∧
  (i ∈ epoll_marks flags ↔
     existsb (Z.testbit flags) (match i with Read => [0; 4; 3; 13] | Write => [2; 4; 3] end) = true) ∧
  (∀ f, i ∈ kqueue_marks f flags ↔
     f = match i with Read => EVFILT_READ | Write => EVFILT_WRITE end ∨ existsb (Z.testbit flags) [15; 14] = true) ∧
  (afd_marks status events = None ↔ 0 ≤ status ∧ Z.testbit events 5 = true) ∧
  (0 ≤ status → has events WATCHED_FLAGS = true → afd_marks status events ≠ Some []).
Proof.
  split; [|split; [|split; [|split; [|split]]]].
  - intros H. unfold uring_marks, epoll_marks. destruct (Z.ltb_spec flags 0); [lia|done].
  - intros H. unfold uring_marks. destruct (Z.ltb_spec flags 0); [|lia]. destruct i; set_solver.
  - unfold epoll_marks. rewrite marks_in. destruct i; [mask [0; 4; 3; 13]|mask [2; 4; 3]]; done.
  - intros f. unfold kqueue_marks. mask [15; 14]. simpl. rewrite marks_in. destruct i, f; simpl; naive_solver.
  - unfold afd_marks. mask [5]. unfold existsb. destruct (Z.ltb_spec status 0); [split; [done|intros []; lia]|].
    destruct (Z.testbit events 5); split; try done; by intros [].
  - intros Hs. unfold afd_marks, WATCHED_FLAGS. rewrite !has_or. destruct (Z.ltb_spec status 0); [lia|].
    destruct (has events POLL_LOCAL_CLOSE); [done|]. rewrite orb_false_r.
    destruct (has events READABLE_FLAGS), (has events WRITABLE_FLAGS); done.
Qed.

(** The end of a stream marks both ways; a reset of a Windows socket too. *)
Example reactor_marks_witness :
  uring_marks 8208 = epoll_marks 8208 ∧ Read ∈ uring_marks (-9) ∧ afd_marks 0 POLL_ABORT ≠ Some [] ∧ afd_marks 0 32 = None.
Proof.
  destruct (reactor_marks 8208 POLL_ABORT 0 Read) as (H1 & _ & _ & _ & _ & H2).
  destruct (reactor_marks (-9) 32 0 Read) as (_ & H3 & _ & _ & H4 & _).
  split; [by apply H1|]. split; [by apply H3|]. split; [by apply H2|by apply H4].
Defined.

(** What each back end registers for: [EPOLLET] is an edge, and the others -
    [EV_ADD] alone, a one-shot poll armed again at each event, and an AFD
    request submitted again at each - report a level. *)
Inductive backend := Epoll | Kqueue | IoUring | Iocp.
Definition edge_triggered (b : backend) : bool := match b with Epoll => true | _ => false end.

(** An idle descriptor that is ready for a direction keeps the reactor's
    thread going round when events are levels: its two steps on it lead back
    to where it was.  On an edge there is nothing to report. *)
Lemma level_spins (b : backend) i cs W :
  W = mkWorld (mkIo true true None None) true false RIdle cs →
  (edge_triggered b = false → ∃ W', dstep i (edge_triggered b) W W' ∧ dstep i (edge_triggered b) W' W) ∧
  (edge_triggered b = true → ∀ W', dstep i (edge_triggered b) W W' → W'.(reactor) = RIdle).
Proof.
  intros ->. split; intros Hb; rewrite Hb.
  - exists (mkWorld (mkIo true true None None) true false RWaking cs).
    split; [by apply (d_event i false (mkWorld _ true false RIdle cs) _ []); destruct i|].
    assert (map (deliver []) cs = cs) as Hcs.
    { induction cs as [|[w t k dp] cs IH]; simpl; [done|]. rewrite IH. unfold deliver. simpl. by rewrite orb_false_r. }
    pose proof (d_wake i false (mkWorld (mkIo true true None None) true false RWaking cs) (mkIo true true None None) []) as Hw.
    simpl in Hw. rewrite Hcs in Hw. apply Hw; by destruct i.
  - intros W' Hs. inversion Hs; simplify_eq/=; done.
Qed.

(** ** The registry of the io_uring reactor *)

Module Uring.

Inductive PendingOp := Register (fd : nat) | Deregister (fd : nat).
Inductive entry := PollAdd (fd : nat) | PollRemove (fd : nat).
(** [event_loop]: about to drain, draining, about to submit, waiting, in the
    loop over the completions; returned. *)
Inductive loop_pc := UDrain | UPush | USubmit | UWait | UHandle | UExit.
(** What a submission comes to. *)
Inductive submitted := SOk | SInterrupted | SFatal.

Record Reactor := mkReactor {
  files : gmap nat nat;              (* open descriptors *)
  next_file : nat;
  registry : gmap nat nat;           (* and the file that was registered *)
  registering : list nat;            (* between the two locks of [register] *)
  deregistering : list nat;
  pending : list PendingOp;
  pc : loop_pc;
  ops : list PendingOp;              (* what [drain_pending] has taken *)
  sq : list entry;
  polls : list (nat * nat);          (* armed: descriptor, and file *)
  cq : list nat;
  completions : list nat;
  lost : list nat;                   (* could not be pushed twice *)
}.

Definition set_files m n (R : Reactor) := mkReactor m n R.(registry) R.(registering) R.(deregistering) R.(pending) R.(pc) R.(ops) R.(sq) R.(polls) R.(cq) R.(completions) R.(lost).
Definition set_registry s r d (R : Reactor) := mkReactor R.(files) R.(next_file) s r d R.(pending) R.(pc) R.(ops) R.(sq) R.(polls) R.(cq) R.(completions) R.(lost).
Definition set_pending l (R : Reactor) := mkReactor R.(files) R.(next_file) R.(registry) R.(registering) R.(deregistering) l R.(pc) R.(ops) R.(sq) R.(polls) R.(cq) R.(completions) R.(lost).
Definition set_pc q (R : Reactor) := mkReactor R.(files) R.(next_file) R.(registry) R.(registering) R.(deregistering) R.(pending) q R.(ops) R.(sq) R.(polls) R.(cq) R.(completions) R.(lost).
Definition set_ops l (R : Reactor) := mkReactor R.(files) R.(next_file) R.(registry) R.(registering) R.(deregistering) R.(pending) R.(pc) l R.(sq) R.(polls) R.(cq) R.(completions) R.(lost).
Definition set_sq l (R : Reactor) := mkReactor R.(files) R.(next_file) R.(registry) R.(registering) R.(deregistering) R.(pending) R.(pc) R.(ops) l R.(polls) R.(cq) R.(completions) R.(lost).
Definition set_kernel p c b (R : Reactor) := mkReactor R.(files) R.(next_file) R.(registry) R.(registering) R.(deregistering) R.(pending) R.(pc) R.(ops) R.(sq) p c b R.(lost).
Definition set_lost l (R : Reactor) := mkReactor R.(files) R.(next_file) R.(registry) R.(registering) R.(deregistering) R.(pending) R.(pc) R.(ops) R.(sq) R.(polls) R.(cq) R.(completions) l.

(** What the kernel makes of one entry. *)
Fixpoint remove_poll (fd : nat) (l : list (nat * nat)) : option (list (nat * nat)) :=
  match l with
  | [] => None
  | (fd', f) :: l =>
      if bool_decide (fd' = fd) then Some l
      else match remove_poll fd l with Some l => Some ((fd', f) :: l) | None => None end
  end.
Definition consume_entry (e : entry) (R : Reactor) : Reactor :=
  match e with
  | PollAdd fd =>
      match R.(files) !! fd with
      | Some f => set_kernel (R.(polls) ++ [(fd, f)]) R.(cq) R.(completions) R
      | None => set_kernel R.(polls) (R.(cq) ++ [fd]) R.(completions) R
      end
  | PollRemove fd =>
      match remove_poll fd R.(polls) with
      | Some l => set_kernel l (R.(cq) ++ [fd]) R.(completions) R
      | None => R
      end
  end.
Fixpoint consume_entries (es : list entry) (R : Reactor) : Reactor :=
  match es with [] => R | e :: es => consume_entries es (consume_entry e R) end.
Definition submit (R : Reactor) : Reactor := consume_entries R.(sq) (set_sq [] R).

Section reactor.
Context (entries : nat).             (* of the submission queue; 256 in [new] *)

Definition push (e : entry) (R : Reactor) : option Reactor :=
  if (length R.(sq) <? entries)%nat then Some (set_sq (R.(sq) ++ [e]) R) else None.

(** [arm]; [ok] is what the submission comes to that a full queue calls for. *)
Definition arm (ok : submitted) (fd : nat) (R : Reactor) : Reactor :=
  match push (PollAdd fd) R with
  | Some R => R
  | None =>
      let R := match ok with SOk => submit R | _ => R end in
      match push (PollAdd fd) R with Some R => R | None => set_lost (fd :: R.(lost)) R end
  end.

Definition loop_step (ok : submitted) (R : Reactor) : option Reactor :=
  match R.(pc) with
  | UDrain => Some (set_pc UPush (set_pending [] (set_ops R.(pending) R)))
  | UPush =>
      match R.(ops) with
      | [] => Some (set_pc USubmit R)
      | Register fd :: ops => Some (set_ops ops (arm ok fd R))
      | Deregister fd :: ops =>
          Some (set_ops ops (match push (PollRemove fd) R with Some R => R | None => R end))
      end
  | USubmit =>
      Some (match ok with
            | SOk => set_pc UWait (submit R)
            | SInterrupted => set_pc UDrain R
            | SFatal => set_pc UExit R
            end)
  | UWait =>
      match R.(cq) with
      | [] => None
      | _ => Some (set_pc UHandle (set_kernel R.(polls) [] R.(cq) R))
      end
  | UHandle =>
      match R.(completions) with
      | [] => Some (set_pc UDrain R)
      | fd :: l =>
          let R := set_kernel R.(polls) R.(cq) l R in
          Some (if bool_decide (is_Some (R.(registry) !! fd)) then arm ok fd R else R)
      end
  | UExit => None
  end.

Inductive move :=
| MOpen (fd : nat)
| MClose (fd : nat)
| MRegister (fd : nat)               (* [registry.insert] *)
| MRegistered (fd : nat)             (* [pending.push_back] *)
| MDeregister (fd : nat)
| MDeregistered (fd : nat)
| MReady (i : nat)                   (* an armed poll completes *)
| MLoop (ok : submitted)
| MShutdown                          (* the loop finds the flag set *)
| MWake.                             (* the wait ends with nothing of the descriptors' *)

(** A descriptor can be closed at any time; a number that is still in the
    registry can be opened for another file, and registered anew: the entry is
    overwritten. *)
Definition reactor_move (m : move) (R : Reactor) : option Reactor :=
  match m with
  | MOpen fd =>
      match R.(files) !! fd with
      | None => Some (set_files (<[fd := R.(next_file)]> R.(files)) (S R.(next_file)) R)
      | Some _ => None
      end
  | MClose fd =>
      match R.(files) !! fd with
      | Some _ => Some (set_files (delete fd R.(files)) R.(next_file) R)
      | None => None
      end
  | MRegister fd =>
      match R.(files) !! fd with
      | Some f => Some (set_registry (<[fd := f]> R.(registry)) (fd :: R.(registering)) R.(deregistering) R)
      | None => None
      end
  | MRegistered fd =>
      if bool_decide (fd ∈ R.(registering)) then
        Some (set_pending (R.(pending) ++ [Register fd])
          (set_registry R.(registry) (List.remove Nat.eq_dec fd R.(registering)) R.(deregistering) R))
      else None
  | MDeregister fd =>
      if bool_decide (is_Some (R.(registry) !! fd)) && negb (bool_decide (fd ∈ R.(registering))) then
        Some (set_registry (delete fd R.(registry)) R.(registering) (fd :: R.(deregistering)) R)
      else None
  | MDeregistered fd =>
      if bool_decide (fd ∈ R.(deregistering)) then
        Some (set_pending (R.(pending) ++ [Deregister fd])
          (set_registry R.(registry) R.(registering) (List.remove Nat.eq_dec fd R.(deregistering)) R))
      else None
  | MReady i =>
      match R.(polls) !! i with
      | Some (fd, _) => Some (set_kernel (take i R.(polls) ++ drop (S i) R.(polls)) (R.(cq) ++ [fd]) R.(completions) R)
      | None => None
      end
  | MLoop ok => loop_step ok R
  | MShutdown => match R.(pc) with UDrain => Some (set_pc UExit R) | _ => None end
  | MWake => match R.(pc) with UWait => Some (set_pc UDrain R) | _ => None end
  end.

Definition reactor_init : Reactor := mkReactor ∅ 0 ∅ [] [] [] UDrain [] [] [] [] [] [].
Definition reactor_reachable : Reactor → Prop := reachable (.= reactor_init) (moves reactor_move).

(** ** A registered descriptor is polled *)

(** What will poll a registered descriptor, or does. *)
Definition on_its_way (fd : nat) (R : Reactor) : Prop :=
  fd ∈ R.(registering) ∨ Register fd ∈ R.(pending) ∨ Register fd ∈ R.(ops) ∨
  PollAdd fd ∈ R.(sq) ∨ fd ∈ R.(cq) ∨ fd ∈ R.(completions) ∨ fd ∈ R.(lost).
Definition polled (fd : nat) (R : Reactor) : Prop :=
  ∃ f, R.(files) !! fd = Some f ∧ (fd, f) ∈ R.(polls).

Record reactor_inv (R : Reactor) : Prop := {
  u_polled fd f : R.(registry) !! fd = Some f → R.(files) !! fd = Some f → on_its_way fd R ∨ polled fd R;
  u_fresh fd f : R.(files) !! fd = Some f ∨ R.(registry) !! fd = Some f → (f < R.(next_file))%nat;
  u_ops : R.(pc) ≠ UPush → R.(pc) ≠ UExit → R.(ops) = [];
  u_completions : R.(pc) ≠ UHandle → R.(pc) ≠ UExit → R.(completions) = [];
}.

Lemma remove_poll_inv fd l l' : remove_poll fd l = Some l' → ∀ x, x ∈ l → x ∈ l' ∨ x.1 = fd.
Proof.
  revert l'. induction l as [|[fd' f] l IH]; simpl; intros l' E x; [done|]. case_bool_decide.
  - simplify_eq. intros [->|?]%elem_of_cons; [by right|by left].
  - destruct (remove_poll fd l) as [l1|]; simplify_eq. intros [->|Hx]%elem_of_cons; [left; left|].
    destruct (IH _ eq_refl x Hx); [left; by right|by right].
Qed.

(** Consuming the queue loses nobody. *)
Lemma consume_polled fd es R :
  is_Some (R.(files) !! fd) →
  PollAdd fd ∈ es ∨ fd ∈ R.(cq) ∨ polled fd R →
  fd ∈ (consume_entries es R).(cq) ∨ polled fd (consume_entries es R).
Proof.
  revert R. induction es as [|e es IH]; intros R Ho H; simpl; [set_solver|]. apply IH.
  - by destruct e; simpl; repeat case_match.
  - unfold polled in *. destruct e as [fd'|fd']; simpl.
    + destruct (files R !! fd') as [f'|] eqn:Ef; simpl.
      * destruct H as [[[= <-]|?]%elem_of_cons|[?|(f & ? & ?)]]; [|auto|auto|].
        -- right. right. exists f'. split; [done|set_solver].
        -- right. right. exists f. split; [done|set_solver].
      * destruct H as [[[= <-]|?]%elem_of_cons|[?|(f & ? & ?)]]; [|auto|set_solver|].
        -- by rewrite Ef in Ho; destruct Ho.
        -- right. right. eauto.
    + destruct (remove_poll fd' (polls R)) as [l|] eqn:Er; simpl.
      * destruct H as [?|[?|(f & ? & Hf)]]; [set_solver|set_solver|].
        destruct (remove_poll_inv _ _ _ Er _ Hf) as [?|E]; [right; right; eauto|].
        right. left. simpl in E. subst. set_solver.
      * set_solver.
Qed.

Lemma consume_same es R :
  let R' := consume_entries es R in
  R'.(files) = R.(files) ∧ R'.(registry) = R.(registry) ∧ R'.(registering) = R.(registering) ∧
  R'.(deregistering) = R.(deregistering) ∧ R'.(pending) = R.(pending) ∧ R'.(ops) = R.(ops) ∧
  R'.(sq) = R.(sq) ∧ R'.(completions) = R.(completions) ∧ R'.(lost) = R.(lost) ∧ R'.(pc) = R.(pc).
Proof.
  revert R. induction es as [|e es IH]; intros R; simpl; [done|].
  destruct (IH (consume_entry e R)) as (-> & -> & -> & -> & -> & -> & -> & -> & -> & ->).
  destruct e; simpl; repeat case_match; done.
Qed.

Definition token (fd : nat) (R : Reactor) : Prop := on_its_way fd R ∨ polled fd R.

Lemma submit_token fd R : is_Some (R.(files) !! fd) → token fd R → token fd (submit R).
Proof.
  intros Ho H. unfold submit. set (R0 := set_sq [] R).
  destruct (consume_same R.(sq) R0) as (Ef & Er & Eg & _ & Ep & Eo & _ & Ec & El & _).
  pose proof (consume_polled fd R.(sq) R0 Ho) as Hc. unfold token, on_its_way.
  rewrite Eg, Ep, Eo, Ec, El. unfold token, on_its_way, polled in *. simpl in *. tauto.
Qed.

(** What a step of the loop leaves alone. *)
Definition same_registry (R R' : Reactor) : Prop :=
  R'.(files) = R.(files) ∧ R'.(registry) = R.(registry) ∧ R'.(registering) = R.(registering) ∧
  R'.(pc) = R.(pc) ∧ R'.(ops) = R.(ops) ∧ R'.(completions) = R.(completions).

Lemma submit_same R : same_registry R (submit R).
Proof. destruct (consume_same R.(sq) (set_sq [] R)) as (? & ? & ? & _ & _ & ? & _ & ? & _ & ?). done. Qed.

Lemma arm_push_inv e R R' : push e R = Some R' → R' = set_sq (R.(sq) ++ [e]) R.
Proof. unfold push. destruct (_ <? _)%nat; by intros [= <-]. Qed.

Lemma push_token e fd R R' : push e R = Some R' → token fd R → token fd R'.
Proof. intros -> %arm_push_inv. unfold token, on_its_way, polled. simpl. set_solver. Qed.

Lemma arm_same ok fd R : same_registry R (arm ok fd R).
Proof.
  unfold arm. destruct (push _ R) as [R1|] eqn:E; [by apply arm_push_inv in E as ->|].
  assert (Hs : same_registry R (match ok with SOk => submit R | _ => R end)) by (destruct ok; [apply submit_same|done..]).
  destruct (push _ (match ok with SOk => _ | _ => _ end)) as [R1|] eqn:E1; [by apply arm_push_inv in E1 as ->|done].
Qed.

Lemma consume_next es R : (consume_entries es R).(next_file) = R.(next_file).
Proof.
  revert R. induction es as [|e es IH]; intros R; simpl; [done|]. rewrite IH.
  destruct e; simpl; by repeat case_match.
Qed.

Lemma submit_next R : (submit R).(next_file) = R.(next_file).
Proof. exact (consume_next _ _). Qed.

Lemma arm_next ok fd R : (arm ok fd R).(next_file) = R.(next_file).
Proof.
  unfold arm. destruct (push _ R) as [R1|] eqn:E; [by apply arm_push_inv in E as ->|].
  destruct (push _ (match ok with SOk => _ | _ => _ end)) as [R1|] eqn:E1; [apply arm_push_inv in E1 as ->|];
    destruct ok; simpl; by rewrite ?submit_next.
Qed.

Lemma arm_own ok fd R : PollAdd fd ∈ (arm ok fd R).(sq) ∨ fd ∈ (arm ok fd R).(lost).
Proof.
  unfold arm. destruct (push (PollAdd fd) R) as [R1|] eqn:E; [apply arm_push_inv in E as ->; simpl; set_solver|].
  destruct (push (PollAdd fd) (match ok with SOk => _ | _ => _ end)) as [R1|] eqn:E1; [apply arm_push_inv in E1 as ->|]; simpl; set_solver.
Qed.

Lemma arm_token ok fd fd' R : is_Some (R.(files) !! fd') → token fd' R → token fd' (arm ok fd R).
Proof.
  intros Ho H. unfold arm. destruct (push (PollAdd fd) R) as [R1|] eqn:E; [by eapply push_token|].
  assert (Ht : token fd' (match ok with SOk => submit R | _ => R end)) by (destruct ok; [by apply submit_token|done..]).
  destruct (push (PollAdd fd) (match ok with SOk => _ | _ => _ end)) as [R1|] eqn:E1; [by eapply push_token|].
  unfold token, on_its_way, polled in *. simpl. set_solver.
Qed.

(** Steps of the loop, and of the kernel. *)
Lemma inv_mono R R' :
  reactor_inv R → R'.(files) = R.(files) → R'.(registry) = R.(registry) → R'.(next_file) = R.(next_file) →
  (R'.(pc) ≠ UPush → R'.(pc) ≠ UExit → R'.(ops) = []) →
  (R'.(pc) ≠ UHandle → R'.(pc) ≠ UExit → R'.(completions) = []) →
  (∀ fd, is_Some (R.(files) !! fd) → is_Some (R.(registry) !! fd) → token fd R → token fd R') →
  reactor_inv R'.
Proof.
  intros HI Ef Er En Ho Hc Ht. constructor; [| |done..].
  - intros fd f. rewrite Er, Ef. intros Hr Hf. apply Ht; [by eexists..|]. by eapply HI.
  - intros fd f. rewrite Er, Ef, En. apply HI.
Qed.

Ltac tokens := unfold token, on_its_way, polled; simpl; set_solver.

Lemma inv_loop ok R R' : reactor_inv R → loop_step ok R = Some R' → reactor_inv R'.
Proof.
  intros HI Hs. pose proof (u_ops _ HI) as Ho. pose proof (u_completions _ HI) as Hc.
  unfold loop_step in Hs. destruct (pc R) eqn:Ep; [..|done].
  - injection Hs as <-. apply (inv_mono R); try done; [intros _ _; by apply Hc|].
    intros fd _ _. rewrite <-(app_nil_r R.(pending)), <-Ho at 1 by done. tokens.
  - destruct (ops R) as [|[fd|fd] l] eqn:Eo; injection Hs as <-.
    + apply (inv_mono R); try done; intros _ _; by apply Hc.
    + destruct (arm_same ok fd R) as (Ef & Er & Eg & Epc & _ & Ec). apply (inv_mono R); try done; simpl; [by rewrite arm_next|..].
      * congruence.
      * rewrite Ec. intros _ _. by apply Hc.
      * intros fd' Hf _ Ht. apply (arm_token ok fd) in Ht; [|done]. pose proof (arm_own ok fd R) as Hw.
        destruct (arm_same ok fd R) as (_ & _ & _ & _ & E & _). rewrite Eo in E.
        unfold token, on_its_way, polled in *. simpl. rewrite E in Ht. set_solver.
    + destruct (push (PollRemove fd) R) as [R1|] eqn:E; [apply arm_push_inv in E as ->|];
        (apply (inv_mono R); try done; [intros _ _; by apply Hc|]);
        intros fd' _ _; unfold token, on_its_way, polled; simpl; rewrite Eo; set_solver.
  - injection Hs as <-. destruct ok; [|apply (inv_mono R); try done; intros; first [by apply Ho|by apply Hc]..].
    destruct (submit_same R) as (Ef & Er & Eg & _ & Eo & Ec).
    apply (inv_mono R); try done; simpl; rewrite ?Eo, ?Ec; auto using submit_next.
    intros fd Hf _ Ht%submit_token; [exact Ht|done].
  - destruct (cq R) as [|c l] eqn:Eq; [done|]. injection Hs as <-. apply (inv_mono R); try done; simpl; [by intros; apply Ho|].
    intros fd _ _. unfold token, on_its_way, polled. simpl. rewrite Eq, Hc by done. rewrite elem_of_nil. tauto.
  - destruct (completions R) as [|fd l] eqn:Ecs; injection Hs as <-.
    { apply (inv_mono R); try done. intros _ _. by apply Ho. }
    case_bool_decide as Hin.
    + set (R1 := set_kernel R.(polls) R.(cq) l R). destruct (arm_same ok fd R1) as (Ef & Er & Eg & Epc & Eo & Ec).
      apply (inv_mono R); try done; rewrite ?Eo, ?Ec, ?Epc, ?arm_next; simpl; [done|by intros; apply Ho|by intros []; exact Ep|].
      intros fd' Hf _ Ht. destruct (decide (fd' = fd)) as [->|Hne].
      * pose proof (arm_own ok fd R1). left. unfold on_its_way. tauto.
      * apply arm_token; [done|]. unfold token, on_its_way, polled in *. simpl. rewrite Ecs in Ht. set_solver.
    + apply (inv_mono R); try done; simpl; [by intros; apply Ho|].
      intros fd' Hf Hr Ht. assert (fd' ≠ fd) by congruence.
      unfold token, on_its_way, polled in *. simpl. rewrite Ecs in Ht. set_solver.
Qed.

Lemma reactor_init_inv : reactor_inv reactor_init.
Proof. constructor; try done. by intros fd f []. Qed.

Lemma elem_of_remove (x y : nat) l : x ∈ List.remove Nat.eq_dec y l ↔ x ∈ l ∧ x ≠ y.
Proof.
  induction l as [|z l IH]; simpl; [set_solver|]. destruct (Nat.eq_dec y z); set_solver.
Qed.

Lemma ready_token fd i g f R :
  R.(polls) !! i = Some (g, f) → token fd R →
  token fd (set_kernel (take i R.(polls) ++ drop (S i) R.(polls)) (R.(cq) ++ [g]) R.(completions) R).
Proof.
  intros Ei H. unfold token, on_its_way, polled in *. simpl.
  destruct H as [?|(h & Hf & Hp)]; [set_solver|].
  rewrite <-(take_drop_middle _ _ _ Ei) in Hp. rewrite elem_of_app, elem_of_cons in Hp.
  destruct Hp as [?|[[= <- <-]|?]]; [right; exists h; set_solver|left; set_solver|right; exists h; set_solver].
Qed.

Lemma reactor_step_inv m R R' : reactor_inv R → reactor_move m R = Some R' → reactor_inv R'.
Proof.
  intros HI Hs. destruct m as [fd|fd|fd|fd|fd|fd|i|ok| |]; simpl in Hs.
  - destruct (files R !! fd) as [f|] eqn:Ef; [done|]. injection Hs as <-.
    destruct HI as [Hp Hn H1 H2]. constructor; simpl; try done.
    + intros g f Hr [[<- <-]|[Hne Hf]]%lookup_insert_Some; [specialize (Hn _ _ (or_intror Hr)); lia|].
      destruct (Hp g f Hr Hf) as [?|(h & Hh & ?)]; [by left|right; exists h].
      split; [by simpl; rewrite lookup_insert_ne|done].
    + intros g f [[[<- <-]|[_ Hf]]%lookup_insert_Some|Hr]; [lia|specialize (Hn g f (or_introl Hf)); lia|specialize (Hn g f (or_intror Hr)); lia].
  - destruct (files R !! fd) as [f|] eqn:Ef; [|done]. injection Hs as <-.
    destruct HI as [Hp Hn H1 H2]. constructor; simpl; try done.
    2:{ intros g f' [[_ Hf]%lookup_delete_Some|Hr]; [by apply (Hn g); left|by apply (Hn g); right]. }
    intros g f' Hr [Hne Hf]%lookup_delete_Some. destruct (Hp g f' Hr Hf) as [?|(h & Hh & ?)]; [by left|right; exists h].
    split; [by simpl; rewrite lookup_delete_ne|done].
  - destruct (files R !! fd) as [f|] eqn:Ef; [|done]. injection Hs as <-.
    destruct HI as [Hp Hn H1 H2]. constructor; simpl; try done.
    2:{ intros g f' [Hf|[[<- <-]|[_ Hr]]%lookup_insert_Some]; [by apply (Hn g); left|by apply (Hn fd); left|by apply (Hn g); right]. }
    intros g f' [[<- <-]|[Hne Hr]]%lookup_insert_Some Hf; [left; left; simpl; set_solver|].
    destruct (Hp g f' Hr Hf) as [Hw|]; [left|by right]. unfold on_its_way in *. simpl. set_solver.
  - case_bool_decide as Hm; [|done]. injection Hs as <-.
    destruct HI as [Hp Hn H1 H2]. constructor; simpl; try done.
    intros g f Hr Hf. destruct (Hp g f Hr Hf) as [Hw|]; [left|by right]. unfold on_its_way in *. simpl.
    rewrite elem_of_remove, elem_of_app. destruct (decide (g = fd)) as [->|]; [set_solver|tauto].
  - destruct (bool_decide (is_Some (registry R !! fd)) && _) eqn:Eb; [|done]. injection Hs as <-.
    destruct HI as [Hp Hn H1 H2]. constructor; simpl; try done.
    + intros g f [_ Hr]%lookup_delete_Some. exact (Hp g f Hr).
    + intros g f [Hf|[_ Hr]%lookup_delete_Some]; [by apply (Hn g); left|by apply (Hn g); right].
  - case_bool_decide as Hn; [|done]. injection Hs as <-.
    apply (inv_mono R); simpl; try done; [apply HI..|]. intros g _ _. tokens.
  - destruct (polls R !! i) as [[g f]|] eqn:Ei; [|done]. injection Hs as <-.
    apply (inv_mono R); simpl; try done; [apply HI..|]. intros fd _ _. by apply ready_token with f.
  - by eapply inv_loop.
  - destruct (pc R) eqn:Ep; try done. injection Hs as <-. by apply (inv_mono R).
  - destruct (pc R) eqn:Ep; try done. injection Hs as <-.
    apply (inv_mono R); simpl; try done; intros _ _; apply HI; by rewrite Ep.
Qed.

Lemma reactor_reachable_inv R : reactor_reachable R → reactor_inv R.
Proof.
  apply invariant_reachable; [intros ? ->; apply reactor_init_inv|].
  intros R1 R2 H1 [m Hm]. by eapply reactor_step_inv.
Qed.

Lemma run_inv ms R : run_moves reactor_move ms reactor_init = Some R → reactor_inv R.
Proof.
  intros H. apply reactor_reachable_inv. exists reactor_init. split; [done|].
  eapply run_moves_rtc; [|exact H]. intros m c c' ?. by exists m.
Qed.

(** A poll is lost only when the submission a full queue calls for fails. *)
Lemma arm_lost fd R : (0 < entries)%nat → (arm SOk fd R).(lost) = R.(lost).
Proof.
  intros He. unfold arm. destruct (push (PollAdd fd) R) as [R1|] eqn:E; [by apply arm_push_inv in E as ->|].
  destruct (consume_same R.(sq) (set_sq [] R)) as (_ & _ & _ & _ & _ & _ & Eq & _ & El & _).
  unfold push, submit. rewrite Eq. simpl. destruct (Nat.ltb_spec 0 entries); [exact El|lia].
Qed.

Lemma move_lost m R R' :
  (0 < entries)%nat → reactor_move m R = Some R' → m ≠ MLoop SInterrupted → m ≠ MLoop SFatal →
  R'.(lost) = R.(lost).
Proof.
  intros He Hs Hm Hm'. destruct m as [| | | | | | |ok| |]; [..|destruct ok; [|done..]| |]; clear Hm Hm'; simpl in Hs.
  8: unfold loop_step in Hs.
  all: repeat (case_match; simplify_eq; simpl); try done; try by rewrite arm_lost.
  - by match goal with H : push _ _ = Some _ |- _ => apply arm_push_inv in H as -> end.
  - by destruct (consume_same R.(sq) (set_sq [] R)) as (_ & _ & _ & _ & _ & _ & _ & _ & ? & _).
Qed.

Lemma run_lost ms R R' :
  (0 < entries)%nat → run_moves reactor_move ms R = Some R' →
  MLoop SInterrupted ∉ ms → MLoop SFatal ∉ ms → R'.(lost) = R.(lost).
Proof.
  intros He. revert R. induction ms as [|m ms IH]; simpl; intros R Hr Hm Hm'; [by simplify_eq|].
  destruct (reactor_move m R) as [R1|] eqn:E; [|done]. apply not_elem_of_cons in Hm as [? ?].
  apply not_elem_of_cons in Hm' as [? ?]. rewrite (IH _ Hr) by done. by eapply move_lost.
Qed.

(** The loop returns only on the flag or on a fatal error. *)
Lemma move_pc m R R' :
  reactor_move m R = Some R' → m ≠ MShutdown → m ≠ MLoop SFatal → R.(pc) ≠ UExit → R'.(pc) ≠ UExit.
Proof.
  intros Hs Hm Hm' Hpc. destruct m as [| | | | | | |ok| |]; simpl in Hs; [..|done|].
  8: unfold loop_step in Hs.
  all: repeat (case_match; simplify_eq; simpl); try done.
  all: try (match goal with |- pc (arm ?o ?f ?Q) ≠ _ => destruct (arm_same o f Q) as (_ & _ & _ & -> & _) end).
  all: try (match goal with H : push _ _ = Some _ |- _ => apply arm_push_inv in H as -> end).
  all: simpl; congruence.
Qed.

Lemma run_pc ms R R' :
  run_moves reactor_move ms R = Some R' → MShutdown ∉ ms → MLoop SFatal ∉ ms → R.(pc) ≠ UExit → R'.(pc) ≠ UExit.
Proof.
  revert R. induction ms as [|m ms IH]; simpl; intros R Hr Hm Hm' Hpc; [by simplify_eq|].
  destruct (reactor_move m R) as [R1|] eqn:E; [|done]. apply not_elem_of_cons in Hm as [? ?].
  apply not_elem_of_cons in Hm' as [? ?]. eapply (IH R1); try done. by eapply move_pc.
Qed.

(** C16: whatever tasks, the loop and the kernel do, a registered descriptor
    that still names the file it was registered with has a poll of that file
    armed, or on its way (waiting in the pending queue, the submission queue or
    a batch, or an event for it is about to re-arm it); a poll is lost only to
    a submission that fails while the submission queue is full, and the loop
    that has polls armed runs on until it is shut down or a wait fails for
    good.  A descriptor closed while it is registered, as a failed [connect]
    does, is excluded: see uring_closed_spins. *)
Theorem uring_registered_armed ms R fd f :
  (0 < entries)%nat → run_moves reactor_move ms reactor_init = Some R →
  R.(registry) !! fd = Some f → R.(files) !! fd = Some f →
  (polled fd R ∨ on_its_way fd R) ∧
  (MLoop SInterrupted ∉ ms → MLoop SFatal ∉ ms → R.(lost) = []) ∧
  (MShutdown ∉ ms → MLoop SFatal ∉ ms → R.(pc) ≠ UExit).
Proof.
  intros He Hr Hfd Hf. destruct (run_inv _ _ Hr) as [Hp _ _ _].
  split_and!.
  - destruct (Hp fd f Hfd Hf); tauto.
  - intros Hm Hm'. by rewrite (run_lost _ _ _ He Hr Hm Hm').
  - intros Hm Hm'. by apply (run_pc _ _ _ Hr Hm Hm').
Qed.

(** A descriptor closed while it is registered - a failed [connect] does, in
    [Net] - keeps the loop going round: its poll fails at once, and is armed
    again. *)
Lemma uring_closed_spins R fd :
  (0 < entries)%nat → is_Some (R.(registry) !! fd) → R.(files) !! fd = None → R.(pc) = USubmit → R.(sq) = [PollAdd fd] →
  R.(pending) = [] → R.(ops) = [] → R.(cq) = [] → R.(completions) = [] →
  run_moves reactor_move (repeat (MLoop SOk) 6) R = Some R.
Proof.
  intros He Hr Hf Ep Es. intros. destruct R as [fs nf reg rg dr pe q op s po c co lo]. simpl in *. subst.
  set (R := mkReactor _ _ _ _ _ _ _ _ _ _ _ _ _).
  assert (submit R = set_kernel po [fd] [] (set_sq [] R)) as Hs by (unfold submit, R; simpl; by rewrite Hf).
  simpl. unfold loop_step at 1. simpl. rewrite Hs. simpl. rewrite bool_decide_eq_true_2 by done.
  unfold arm, push. simpl. destruct (Nat.ltb_spec 0 entries); [done|lia].
Qed.
End reactor.

(** One descriptor registered, armed, and reported once. *)
Example uring_registered_armed_witness :
  let ms := [MOpen 5; MRegister 5; MRegistered 5; MLoop SOk; MLoop SOk; MLoop SOk; MLoop SOk; MReady 0; MLoop SOk] in
  match run_moves (reactor_move 256) ms reactor_init with
  | Some R => (polled 5 R ∨ on_its_way 5 R) ∧ R.(lost) = [] ∧ R.(pc) = UHandle
  | None => False
  end.
Proof.
  intros ms.
  assert (Hin : match run_moves (reactor_move 256) ms reactor_init with
                | Some R => bool_decide (R.(registry) !! 5%nat = Some 0%nat ∧ R.(files) !! 5%nat = Some 0%nat) &&
                    match R.(pc) with UHandle => true | _ => false end
                | None => false end = true) by by vm_compute.
  destruct (run_moves (reactor_move 256) ms reactor_init) as [R|] eqn:E; [|done].
  apply andb_prop in Hin as [[Hreg Hf]%bool_decide_eq_true Hpc].
  pose proof (uring_registered_armed 256 ms R 5 0 ltac:(lia) E Hreg Hf) as (? & Hl & _).
  split; [done|]. split; [apply Hl; unfold ms; clear; set_solver|]. by destruct (pc R).
Defined.

(** A descriptor deregistered and closed while its event is already in the
    completion queue - the removal finds no poll - and opened for another file
    and registered before the loop handles that event: the event finds the new
    registration and arms a poll, and the registration arms its own.  The file
    is polled twice, one removal takes back one, and the other keeps the file
    that the second [close] closes. *)
Example uring_reuse_pins :
  let arms := [MOpen 5; MRegister 5; MRegistered 5; MLoop SOk; MLoop SOk; MLoop SOk; MLoop SOk] in
  let drop5 := [MDeregister 5; MDeregistered 5; MClose 5] in
  let again := [MWake; MLoop SOk; MLoop SOk; MReady 0; MOpen 5; MRegister 5; MRegistered 5; MLoop SOk; MLoop SOk] in
  let rearm := [MLoop SOk; MLoop SOk; MLoop SOk; MLoop SOk; MLoop SOk; MLoop SOk; MLoop SOk] in
  let drain := [MWake; MLoop SOk; MLoop SOk; MLoop SOk; MLoop SOk; MLoop SOk; MLoop SOk; MLoop SOk; MLoop SOk; MLoop SOk; MLoop SOk] in
  (match run_moves (reactor_move 256) (arms ++ drop5 ++ again ++ rearm) reactor_init with
   | Some R => R.(polls) = [(5, 1); (5, 1)]%nat
   | None => False
   end) ∧
  match run_moves (reactor_move 256) (arms ++ drop5 ++ again ++ rearm ++ drop5 ++ drain) reactor_init with
  | Some R => R.(files) !! 5%nat = None ∧
      (R.(polls), R.(pending), R.(ops), R.(sq), R.(cq), R.(completions)) = ([(5, 1)]%nat, [], [], [], [], [])
  | None => False
  end.
Proof. vm_compute. done. Qed.
End Uring.

(** ** The poll requests of the Windows reactor *)

Module Afd.

(** One socket's [SockState], the references to it and the request that
    points into it.  [inflight], [queued] and [batch] count the requests the
    kernel may still write through, the completions in the port's queue, and
    those of the batch [event_loop] is going through. *)
Record SockState := mkSock {
  registered : bool;                 (* the registry's reference *)
  registering : bool;                (* [register], before [submit_poll] *)
  resubmitting : bool;               (* [event_loop], between the lock and [submit_poll] *)
  pending : bool;
  deleting : bool;
  inflight : nat;
  queued : nat;
  batch : nat;
}.

(** [Arc::strong_count]: a request holds the reference [into_raw] leaked. *)
Definition refs (s : SockState) : nat :=
  Nat.b2n s.(registered) + Nat.b2n s.(registering) + Nat.b2n s.(resubmitting) +
  s.(inflight) + s.(queued) + s.(batch).

Definition registered_new : SockState := mkSock true true false false false 0 0 0.

(** [submit_poll]; [ok] is whether the kernel takes the request. *)
Definition submit_poll (ok : bool) (s : SockState) : SockState :=
  if s.(deleting) then s
  else
    let s := mkSock s.(registered) s.(registering) s.(resubmitting) true s.(deleting) s.(inflight) s.(queued) s.(batch) in
    if ok then mkSock s.(registered) s.(registering) s.(resubmitting) s.(pending) s.(deleting) (S s.(inflight)) s.(queued) s.(batch)
    else s.

(** One completion in [event_loop]. *)
Definition completed (status events : Z) (s : SockState) : SockState :=
  let s := mkSock s.(registered) s.(registering) s.(resubmitting) false s.(deleting) s.(inflight) s.(queued) (pred s.(batch)) in
  if s.(deleting) then s
  else
    match afd_marks status events with
    | None => mkSock s.(registered) s.(registering) s.(resubmitting) s.(pending) true s.(inflight) s.(queued) s.(batch)
    | Some _ => mkSock s.(registered) s.(registering) true s.(pending) s.(deleting) s.(inflight) s.(queued) s.(batch)
    end.

(** [cancel] has the kernel complete the request it finds. *)
Definition cancel (s : SockState) : SockState :=
  match s.(inflight) with
  | O => s
  | S n => mkSock s.(registered) s.(registering) s.(resubmitting) s.(pending) s.(deleting) n (S s.(queued)) s.(batch)
  end.
Definition deregister (s : SockState) : SockState :=
  if s.(registered) then
    let s := mkSock false s.(registering) s.(resubmitting) s.(pending) true s.(inflight) s.(queued) s.(batch) in
    if s.(pending) then cancel s else s
  else s.

Inductive move :=
| MRegister (ok : bool)
| MDeregister
| MComplete                          (* the kernel *)
| MRetrieve                          (* [GetQueuedCompletionStatusEx] *)
| MHandle (status events : Z)
| MResubmit (ok : bool).

Definition sock_move (m : move) (s : SockState) : option SockState :=
  match m with
  | MRegister ok =>
      if s.(registering) then
        let s := submit_poll ok s in
        Some (mkSock s.(registered) false s.(resubmitting) s.(pending) s.(deleting) s.(inflight) s.(queued) s.(batch))
      else None
  | MDeregister => if s.(registering) then None else Some (deregister s)
  | MComplete =>
      match s.(inflight) with
      | S n => Some (mkSock s.(registered) s.(registering) s.(resubmitting) s.(pending) s.(deleting) n (S s.(queued)) s.(batch))
      | O => None
      end
  | MRetrieve =>
      match s.(queued) with
      | S n => Some (mkSock s.(registered) s.(registering) s.(resubmitting) s.(pending) s.(deleting) s.(inflight) n (S s.(batch)))
      | O => None
      end
  | MHandle status events =>
      match s.(batch) with S _ => if s.(resubmitting) then None else Some (completed status events s) | O => None end
  | MResubmit ok =>
      if s.(resubmitting) then
        let s := submit_poll ok s in
        Some (mkSock s.(registered) s.(registering) false s.(pending) s.(deleting) s.(inflight) s.(queued) s.(batch))
      else None
  end.

Definition sock_reachable : SockState → Prop := reachable (.= registered_new) (moves sock_move).

Definition outstanding (s : SockState) : nat := (s.(inflight) + s.(queued) + s.(batch))%nat.

Record sock_inv (s : SockState) : Prop := {
  a_one : (outstanding s ≤ 1)%nat;
  a_pending : (outstanding s = 1)%nat → s.(pending) = true;
  a_idle : s.(registering) = true ∨ s.(resubmitting) = true → (outstanding s = 0)%nat ∧ s.(pending) = false;
  a_excl : s.(registering) && s.(resubmitting) = false;
  a_gone : s.(registered) = false → s.(deleting) = true;
}.

Lemma sock_step_inv m s s' : sock_inv s → sock_move m s = Some s' → sock_inv s'.
Proof.
  unfold outstanding. intros [H1 H2 H3 H4 H5] Hs. unfold outstanding in *.
  destruct s as [r g b p d i q k]; simpl in *.
  destruct m as [ok| | | |st ev|ok]; simpl in Hs;
    [destruct g; [|done]; destruct b; [done|]; destruct (H3 (or_introl eq_refl)) as [? ->]; unfold submit_poll in Hs; simpl in Hs
    |destruct g; [done|]; unfold deregister, cancel in Hs; simpl in Hs
    | | |unfold completed in Hs; simpl in Hs
    |destruct b; [|done]; destruct g; [done|]; destruct (H3 (or_intror eq_refl)) as [? ->]; unfold submit_poll in Hs; simpl in Hs].
  all: repeat (case_match; simplify_eq; simpl in * ).
  all: constructor; unfold outstanding; simpl in *; try done; try lia; auto; try (intros [|]; done);
    rewrite ?Nat.add_succ_r in *; simpl in *; auto.
  all: destruct g; [|done]; destruct (H3 (or_introl eq_refl)); lia.
Qed.

Lemma sock_reachable_inv s : sock_reachable s → sock_inv s.
Proof.
  apply invariant_reachable; [intros ? ->; constructor; unfold outstanding; simpl; auto; lia|].
  intros s1 s2 H1 [m Hm]. by eapply sock_step_inv.
Qed.

Lemma sock_deleting m s s' :
  s.(deleting) = true → sock_move m s = Some s' → (s'.(inflight) ≤ s.(inflight))%nat ∧ s'.(deleting) = true.
Proof.
  destruct s as [r g b p d i q k]. simpl. intros ->.
  destruct m as [ok| | | |st ev|ok]; simpl; unfold submit_poll, deregister, cancel, completed; simpl;
    intros Hs; repeat (case_match; simplify_eq; simpl in * ); split; try done; lia.
Qed.

(** C17: the kernel is handed a socket's [iosb] and [poll_info] for one request
    at a time, [submit_poll] rewrites them only when none is outstanding, a
    request outstanding is marked [pending], so [deregister] cancels it, and
    the references are the registry's, the callers' and the request's: a
    socket deregistered and with no request left is freed.  One that is being
    torn down stays so, and is not polled again. *)
Theorem afd_one_request s :
  sock_reachable s →
  (outstanding s ≤ 1)%nat ∧
  (outstanding s = 1%nat → s.(pending) = true) ∧
  (s.(registering) = true ∨ s.(resubmitting) = true → outstanding s = 0%nat) ∧
  (s.(inflight) = 1%nat → s.(registered) = true → s.(registering) = false →
     sock_move MDeregister s = Some (mkSock false false s.(resubmitting) true true 0 1 0)) ∧
  (s.(registered) = false → s.(registering) = false → s.(resubmitting) = false → outstanding s = 0%nat → refs s = 0%nat) ∧
  (∀ m s', s.(deleting) = true → sock_move m s = Some s' → (s'.(inflight) ≤ s.(inflight))%nat ∧ s'.(deleting) = true).
Proof.
  intros [H1 H2 H3 H4 H5]%sock_reachable_inv. split; [done|]. split; [done|]. split; [intros ?%H3; tauto|].
  split; [|split; [|intros m s'; apply sock_deleting]].
  - intros Hi Hr Hg. unfold outstanding in *. destruct s as [r g b p d i q k]; simpl in *. subst.
    assert (q = 0%nat) as -> by lia. assert (k = 0%nat) as -> by lia. unfold deregister. simpl. by rewrite H2.
  - unfold refs, outstanding. intros -> -> -> ?. simpl. lia.
Qed.

Lemma sock_test ms (P : SockState → Prop) (test : SockState → bool) :
  (∀ s, test s = true → P s) →
  match run_moves sock_move ms registered_new with Some s => test s | None => false end = true →
  ∃ s, sock_reachable s ∧ P s.
Proof. apply run_ends; [intros m c c' ?; by exists m|done]. Qed.

(** A socket reported readable, polled again, deregistered and released. *)
Example afd_one_request_witness :
  let ms := [MRegister true; MComplete; MRetrieve; MHandle 0 POLL_RECEIVE; MResubmit true; MDeregister; MRetrieve; MHandle (-1) 0] in
  match run_moves sock_move ms registered_new with
  | Some s => refs s = 0%nat ∧ (outstanding s ≤ 1)%nat
  | None => False
  end.
Proof.
  intros ms. destruct (run_moves sock_move ms registered_new) as [s|] eqn:E; [|by vm_compute in E].
  assert (Hr : sock_reachable s) by (exists registered_new; split; [done|]; eapply run_moves_rtc; [|exact E]; intros m c c' ?; by exists m).
  destruct (afd_one_request s Hr) as (? & _). split; [|done]. by vm_compute in E; injection E as <-.
Defined.

(** A request the kernel refuses leaves [pending] set, with none outstanding:
    [deregister] cancels one that is not there, and a [register] that failed
    leaves its entry in the registry. *)
Example afd_refused_pending :
  run_moves sock_move [MRegister false] registered_new = Some (mkSock true false false true false 0 0 0).
Proof. done. Qed.

(** Between the retrieval of a batch and its handling, [deregister] cancels a
    request whose completion has been retrieved. *)
Example afd_cancel_retrieved :
  match run_moves sock_move [MRegister true; MComplete; MRetrieve] registered_new with
  | Some s => s.(registered) = true ∧ s.(pending) = true ∧ s.(inflight) = 0%nat ∧ s.(queued) = 0%nat
  | None => False
  end.
Proof. done. Qed.
End Afd.
