(* ===== verification/Streams.v ===== *)
(** Streams over a descriptor: the reading and writing of [src/src/io/tcp.rs],
    [unix.rs], [pipe.rs] and the Unix half of [src/src/process/mod.rs], and the
    datagrams of [udp.rs].

    A descriptor is read and written by system calls ([socket::read] and
    [write] of [src/src/io/socket/posix.rs]) that answer at once or would block;
    [Fd] is what the code calls, [LawfulFd] what those calls promise.  All the
    streams poll them through [poll_io]; [op_loop] is its loop with the
    operation's effect on the descriptor ([Readiness.io_loop] has its answers
    only).  A [FdStream] is then a lawful reader and writer, so what [AsyncIo]
    and [Buffered] show of those holds for sockets and pipes. *)

From S2P Require Import Prelude Coop AsyncIo Readiness.

Class Fd (F : Type) := {
  sys_read : Z → F → attempt (list byte) io_error * F;
  sys_write : list byte → F → attempt Z io_error * F;
  sys_peek : Z → F → attempt (list byte) io_error * F;
  sys_shutdown : F → result unit io_error * F;
}.

(** [rx] is what is still to be received, to the end of the stream, and [tx]
    what was sent. *)
Class LawfulFd (F : Type) `{Fd F} := {
  rx : F → list byte;
  tx : F → list byte;
  fd_read_law : ∀ n f, 0 < n → let '(a, f') := sys_read n f in
    tx f' = tx f ∧
    match a with
    | Done d => blen d ≤ n ∧ rx f = d ++ rx f' ∧ (d = [] → rx f = [])
    | _ => rx f' = rx f
    end;
  fd_write_law : ∀ l f, let '(a, f') := sys_write l f in
    rx f' = rx f ∧
    match a with
    | Done n => 0 ≤ n ≤ blen l ∧ tx f' = tx f ++ upto n l
    | _ => tx f' = tx f
    end;
  fd_peek_law : ∀ n f, 0 ≤ n → let '(a, f') := sys_peek n f in
    rx f' = rx f ∧ tx f' = tx f ∧
    match a with Done d => blen d ≤ n ∧ d `prefix_of` rx f | _ => True end;
  fd_shutdown_law : ∀ f, let '(_, f') := sys_shutdown f in rx f' = rx f ∧ tx f' = tx f;
}.

Section fd.
Context {F : Type} `{Fd F}.

(** The budget is the polling task's. *)
Record FdStream := mkStream { units : BUDGET; sio : ScheduledIo; file : F }.

Definition in_sio {A} (m : M ScheduledIo A) : M FdStream A :=
  zoom sio (λ io s, mkStream s.(units) io s.(file)) m.
Definition on_file {A} (op : F → A * F) : M FdStream A :=
  let! s := get in
  put (mkStream s.(units) s.(sio) (op s.(file)).2) ;! ret (op s.(file)).1.

(** The loop of [poll_io], ... *)
Fixpoint op_loop {A} (fuel : nat) (i : Interest) (cx : waker) (op : F → attempt A io_error * F)
    : M FdStream (poll (result A io_error)) :=
  match fuel with
  | O => panic
  | S fuel =>
      let! p := in_sio (scheduled_poll_ready i cx) in
      match p with
      | Pending => ret Pending
      | Ready _ =>
          let! a := on_file op in
          match a with
          | Done v => ret (Ready (Ok v))
          | WouldBlock => in_sio (clear_ready i) ;! op_loop fuel i cx op
          | Failed e => ret (Ready (Err e))
          end
      end
  end.
(** ... which undisturbed goes round twice at most. *)
Definition ROUNDS : nat := 2.
Definition poll_op {A} (i : Interest) (cx : waker) (op : F → attempt A io_error * F)
    : M FdStream (poll (result A io_error)) :=
  let! p := zoom units (λ b s, mkStream b s.(sio) s.(file)) (poll_proceed cx) in
  match p with
  | Pending => ret Pending
  | Ready _ => op_loop ROUNDS i cx op
  end.

(** ** The traits *)

Context `{BuildProfile}.

Definition stream_poll_read (cx : waker) (b : ReadBuf) : M FdStream (poll (result unit io_error) * ReadBuf) :=
  let! r := poll_op Read cx (sys_read (remaining b)) in
  match r with
  | Ready (Ok d) =>
      let! b' := lift (advance (blen d) (write_unfilled d b)) in
      ret (Ready (Ok tt), b')
  | Ready (Err e) => ret (Ready (Err e), b)
  | Pending => ret (Pending, b)
  end.
#[export] Instance stream_read : AsyncRead FdStream := stream_poll_read.

#[export] Instance stream_write : AsyncWrite FdStream := {
  poll_write cx data := poll_op Write cx (sys_write data);
  poll_flush _ := ret (Ready (Ok tt));
  poll_shutdown _ := let! r := on_file sys_shutdown in ret (Ready r);
}.

(** ** The inherent operations

    One poll of each; the caller's slice comes back with what the call wrote
    at its start. *)

Definition overwrite (d dst : list byte) : list byte := d ++ from (blen d) dst.
Definition received (r : poll (result (list byte) io_error)) (dst : list byte)
    : poll (result Z io_error) * list byte :=
  match r with
  | Ready (Ok d) => (Ready (Ok (blen d)), overwrite d dst)
  | Ready (Err e) => (Ready (Err e), dst)
  | Pending => (Pending, dst)
  end.

Definition fd_read (cx : waker) (dst : list byte) : M FdStream (poll (result Z io_error) * list byte) :=
  let! r := poll_op Read cx (sys_read (blen dst)) in ret (received r dst).
Definition fd_peek (cx : waker) (dst : list byte) : M FdStream (poll (result Z io_error) * list byte) :=
  let! r := poll_op Read cx (sys_peek (blen dst)) in ret (received r dst).
Definition fd_write (cx : waker) (src : list byte) : M FdStream (poll (result Z io_error)) :=
  poll_op Write cx (sys_write src).

Fixpoint fd_write_all (fuel : nat) (cx : waker) (src : list byte)
    : M FdStream (poll (result unit io_error) * list byte) :=
  match src with
  | [] => ret (Ready (Ok tt), [])
  | _ =>
      match fuel with
      | O => panic
      | S fuel =>
          let! r := fd_write cx src in
          match r with
          | Ready (Ok n) =>
              if n =? 0 then ret (Ready (Err WriteZero), src)
              else if blen src <? n then panic
              else fd_write_all fuel cx (from n src)
          | Ready (Err e) => ret (Ready (Err e), src)
          | Pending => ret (Pending, src)
          end
      end
  end.

Fixpoint fd_read_exact (fuel : nat) (cx : waker) (dst : list byte) (done : Z)
    : M FdStream (poll (result unit io_error) * (list byte * Z)) :=
  match from done dst with
  | [] => ret (Ready (Ok tt), (dst, done))
  | rest =>
      match fuel with
      | O => panic
      | S fuel =>
          let! r := fd_read cx rest in
          match r with
          | (Ready (Ok n), rest') =>
              let dst' := upto done dst ++ rest' in
              if n =? 0 then ret (Ready (Err UnexpectedEof), (dst', done))
              else fd_read_exact fuel cx dst' (done + n)
          | (Ready (Err e), rest') => ret (Ready (Err e), (upto done dst ++ rest', done))
          | (Pending, rest') => ret (Pending, (upto done dst ++ rest', done))
          end
      end
  end.

(** [try_read], [try_write], [try_peek]: [readiness::try_io], and no budget. *)
Definition try_op {A} (interest : Z) (op : F → attempt A io_error * F) : M FdStream (attempt A io_error) :=
  let! a := on_file op in in_sio (try_io interest a).
Definition try_read (dst : list byte) : M FdStream (attempt (list byte) io_error) :=
  try_op READABLE (sys_read (blen dst)).
Definition try_write (src : list byte) : M FdStream (attempt Z io_error) :=
  try_op WRITABLE (sys_write src).
Definition try_peek (dst : list byte) : M FdStream (attempt (list byte) io_error) :=
  try_op READABLE (sys_peek (blen dst)).

(** The private chunk of [try_read_buf]. *)
Definition TRY_CHUNK : Z := 8192.
Definition try_read_buf (room : Z) : M FdStream (attempt (list byte) io_error) :=
  if room =? 0 then ret (Done []) else try_op READABLE (sys_read (Z.min TRY_CHUNK room)).

(** ** One poll *)

(** What [poll_op] comes to, as [poll_io_answer] says of [poll_io]. *)
Lemma poll_op_eq {A} i cx (op : F → attempt A io_error * F) s :
  poll_op i cx op s =
    if bool_decide (s.(units) = Some 0) then Some (Pending, s, [cx])
    else
      let b' := (λ n, n - 1) <$> s.(units) in
      if flag_of i s.(sio) then
        let '(a, f') := op s.(file) in
        match a with
        | Done v => Some (Ready (Ok v), mkStream b' s.(sio) f', [])
        | Failed e => Some (Ready (Err e), mkStream b' s.(sio) f', [])
        | WouldBlock => Some (Pending, mkStream b' (waiting i cx s.(sio)) f', [])
        end
      else Some (Pending, mkStream b' (waiting i cx s.(sio)) s.(file), []).
Proof.
  destruct s as [b io f]. unfold poll_op, zoom, poll_proceed. run_M.
  assert (∀ io, scheduled_poll_ready i cx io =
    Some (if flag_of i io then Ready tt else Pending, if flag_of i io then io else waiting i cx io, [])) as Hr.
  { clear. intros io. unfold scheduled_poll_ready, load_flag, store_waker. run_M.
    destruct io, i; simpl; match goal with |- context [if ?f then _ else _] => destruct f; done end. }
  assert (op_loop ROUNDS i cx op (mkStream ((λ n, n - 1) <$> b) io f) =
    let b' := (λ n, n - 1) <$> b in
    if flag_of i io then
      let '(a, f') := op f in
      match a with
      | Done v => Some (Ready (Ok v), mkStream b' io f', [])
      | Failed e => Some (Ready (Err e), mkStream b' io f', [])
      | WouldBlock => Some (Pending, mkStream b' (waiting i cx io) f', [])
      end
    else Some (Pending, mkStream b' (waiting i cx io) f, [])) as Hl.
  { simpl. unfold in_sio, zoom, on_file. unfold bind at 1. simpl. rewrite Hr. simpl.
    destruct (flag_of i io) eqn:Ef; [|done]. run_M.
    destruct (op f) as [[v| |e] f'] eqn:Eo; simpl; try done.
    unfold clear_ready, store_flag. run_M. unfold bind. rewrite Hr.
    destruct io, i; simpl; done. }
  destruct b as [[|n|n]|]; simpl in *; rewrite ?Hl; try done;
    destruct (flag_of i io); try done; destruct (op f) as [[]]; done.
Qed.
End fd.

Section laws.
Context {F : Type} `{LawfulFd F} `{BuildProfile}.
Implicit Types s : FdStream (F := F).

(** Whatever an operation answers, if its effect is described by [P], so is a
    poll of it: an answer only with its effect. *)
Lemma poll_op_law {A} i cx (op : F → attempt A io_error * F) s
    (P : F → poll (result A io_error) → F → Prop) :
  (∀ f, P f Pending f) →
  (∀ f, let '(a, f') := op f in
     P f (match a with Done v => Ready (Ok v) | Failed e => Ready (Err e) | WouldBlock => Pending end) f') →
  ∃ p s' ws, poll_op i cx op s = Some (p, s', ws) ∧ P s.(file) p s'.(file).
Proof.
  intros Hp Ho. rewrite poll_op_eq. case_bool_decide; [by do 3 eexists|].
  specialize (Ho s.(file)). destruct (flag_of i s.(sio)); [|by do 3 eexists].
  destruct (op s.(file)) as [[v| |e] f']; by do 3 eexists.
Qed.

#[export, program] Instance stream_lawful_read : LawfulRead (FdStream (F := F)) := {
  stream s := rx s.(file); read_ok _ := True;
}.
Next Obligation.
  intros cx b s _ Hb Hrem. unfold poll_read, stream_read, stream_poll_read.
  destruct (poll_op_law Read cx (sys_read (remaining b)) s (λ f p f', match p with
    | Ready (Ok d) => blen d ≤ remaining b ∧ rx f = d ++ rx f' ∧ (d = [] → rx f = [])
    | _ => rx f' = rx f end)) as (p & s' & ws & E & Hp); [done| |].
  { intros f. pose proof (fd_read_law (remaining b) f Hrem) as Hl.
    destruct (sys_read (remaining b) f) as [[]]; by destruct Hl. }
  unfold bind. rewrite E. destruct p as [[d|e]|]; [|by do 4 eexists..].
  destruct Hp as (Hd & Hs & Hz).
  destruct (advance_written b d Hb Hd) as (b' & Ea & Hb' & Hlen & Hf). rewrite Ea. simpl.
  do 4 eexists. split; [done|]. split_and!; [done..|]. by exists d.
Qed.

#[export, program] Instance stream_lawful_write : LawfulWrite (FdStream (F := F)) := {
  sink s := tx s.(file); write_ok _ := True;
}.
Next Obligation.
  intros cx data s _ _ _. simpl.
  destruct (poll_op_law Write cx (sys_write data) s (λ f p f', match p with
    | Ready (Ok n) => 0 ≤ n ≤ blen data ∧ tx f' = tx f ++ upto n data
    | _ => tx f' = tx f end)) as (p & s' & ws & E & Hp); [done| |by do 3 eexists].
  intros f. pose proof (fd_write_law data f) as Hl. destruct (sys_write data f) as [[]]; by destruct Hl.
Qed.
Next Obligation. intros cx s _. simpl. by do 3 eexists. Qed.
Next Obligation.
  intros cx s _. simpl. unfold on_file. run_M. pose proof (fd_shutdown_law s.(file)) as Hl.
  destruct (sys_shutdown (file s)) as [r f']. simpl. do 3 eexists. split; [done|]. split; [done|]. by destruct Hl.
Qed.

(** ** The inherent operations are those of the traits *)

Lemma stream_read_ok s : read_ok s.
Proof. exact I. Qed.
Lemma stream_write_ok s : write_ok s.
Proof. exact I. Qed.

Lemma overwrite_new dst d :
  blen d ≤ blen dst → blen dst < 2 ^ (usize_bits - 1) →
  advance (blen d) (write_unfilled d (read_buf_new dst)) = Some (mkReadBuf (overwrite d dst) (blen d)).
Proof.
  intros Hd Hlim. pose proof (blen_nonneg d).
  assert (write_unfilled d (read_buf_new dst) = mkReadBuf (overwrite d dst) 0) as ->.
  { unfold write_unfilled, overwrite, unfilled, filled_bytes, from, upto, blen. simpl. by rewrite Nat2Z.id. }
  unfold advance. simpl. assert (2 ^ (usize_bits - 1) < 2 ^ usize_bits) by reflexivity.
  rewrite uadd_in_range, Z.add_0_l by lia.
  destruct (Z.leb_spec (blen d) (blen (overwrite d dst))) as [|Hlt]; [done|].
  unfold overwrite in Hlt. rewrite blen_app in Hlt. pose proof (blen_nonneg (from (blen d) dst)). lia.
Qed.

Lemma fd_read_is_read cx dst s :
  dst ≠ [] → blen dst < 2 ^ (usize_bits - 1) → fd_read cx dst s = read cx dst s.
Proof.
  intros Hd Hlim. pose proof (blen_pos _ Hd) as Hpos.
  unfold fd_read, read, poll_read, stream_read, stream_poll_read.
  assert (remaining (read_buf_new dst) = blen dst) as -> by (unfold remaining; simpl; lia).
  destruct (poll_op_law Read cx (sys_read (blen dst)) s (λ f p f', match p with
    | Ready (Ok d) => blen d ≤ blen dst | _ => True end)) as (p & s' & ws & E & Hp); [done| |].
  { intros f. pose proof (fd_read_law (blen dst) f Hpos) as Hl. destruct (sys_read (blen dst) f) as [[]]; [|done..].
    by destruct Hl as (_ & ? & _). }
  unfold bind. rewrite E. destruct p as [[d|e]|]; [|by simpl; rewrite ?app_nil_r..].
  rewrite overwrite_new by done. simpl. unfold filled_bytes, overwrite. simpl. by rewrite upto_app, ?app_nil_r.
Qed.

Lemma fd_read_exact_is fuel cx dst got s :
  0 ≤ got ≤ blen dst → blen dst < 2 ^ (usize_bits - 1) →
  fd_read_exact fuel cx dst got s = read_exact fuel cx dst got s.
Proof.
  revert dst got s. induction fuel as [|fuel IH]; intros dst got s Hdone Hlim; [done|]. simpl.
  destruct (from got dst) as [|x rest] eqn:Er; [done|]. rewrite <-Er.
  assert (from got dst ≠ []) as Hne by congruence.
  assert (got < blen dst) as Hlt.
  { destruct (Z_lt_le_dec got (blen dst)); [done|]. destruct Hne. by apply from_all. }
  pose proof (blen_from got dst Hdone) as Hlen.
  destruct (async_read_spec cx (from got dst) s (stream_read_ok s) Hne) as (p & rest' & s' & ws & E & _ & Hl & Hp); [lia|].
  unfold bind. rewrite fd_read_is_read, E by (done || lia). destruct p as [[n|e]|]; [|done..].
  destruct (n =? 0) eqn:En; [done|].
  assert (blen (upto got dst ++ rest') = blen dst) as Hb.
  { rewrite blen_app, blen_upto by lia. unfold blen in *. lia. }
  destruct Hp as [Hn _]. rewrite IH; [done|rewrite Hb; lia..].
Qed.

Lemma fd_write_all_is fuel cx src s : fd_write_all fuel cx src s = write_all fuel cx src s.
Proof.
  revert src s. induction fuel as [|fuel IH]; intros src s; [done|]. destruct src as [|x src]; [done|].
  change (fd_write_all (S fuel) cx (x :: src)) with
    (let! r := fd_write cx (x :: src) in
     match r with
     | Ready (Ok n) =>
         if n =? 0 then ret (Ready (Err WriteZero), x :: src)
         else if blen (x :: src) <? n then panic
         else fd_write_all fuel cx (from n (x :: src))
     | Ready (Err e) => ret (Ready (Err e), x :: src)
     | Pending => ret (Pending, x :: src)
     end).
  cbn [write_all]. unfold bind, write, fd_write. cbn [poll_write stream_write].
  destruct (poll_op _ _ _ s) as [[[[[n|e]|] s'] ws]|]; try done.
  destruct (n =? 0); [done|]. destruct (blen (x :: src) <? n); [done|]. by rewrite IH.
Qed.

(** The inherent [read_exact] and [write_all] of a stream are those of
    [AsyncReadExt] and [AsyncWriteExt] over it.  A poll of either, whatever the
    readiness, the budget and the progress it starts from, loses no byte and
    invents none, whether it resolves, waits or fails (so one that is dropped
    has told how far it came); [Ok] is for the whole buffer. *)
Theorem stream_exact_io fuel cx dst got src s :
  0 ≤ got ≤ blen dst → blen dst < 2 ^ (usize_bits - 1) → blen src < 2 ^ (usize_bits - 1) →
  blen dst - got ≤ Z.of_nat fuel → blen src ≤ Z.of_nat fuel →
  fd_read_exact fuel cx dst got s = read_exact fuel cx dst got s ∧
  fd_write_all fuel cx src s = write_all fuel cx src s ∧
  (∃ p dst' got' s' ws, fd_read_exact fuel cx dst got s = Some ((p, (dst', got')), s', ws) ∧
     length dst' = length dst ∧ got ≤ got' ≤ blen dst ∧
     upto got' dst' ++ rx s'.(file) = upto got dst ++ rx s.(file) ∧
     (p = Ready (Ok tt) → got' = blen dst)) ∧
  (∃ p src' s' ws, fd_write_all fuel cx src s = Some ((p, src'), s', ws) ∧
     tx s'.(file) ++ src' = tx s.(file) ++ src ∧ (p = Ready (Ok tt) → src' = [])).
Proof.
  intros Hd Hl Hs Hf Hf'. rewrite fd_read_exact_is, fd_write_all_is by done. split; [done|]. split; [done|]. split.
  - destruct (read_exact_spec fuel cx dst got s (stream_read_ok s) Hd Hl Hf) as (p & dst' & got' & s' & ws & E & _ & ? & ? & ? & Hp).
    do 5 eexists. split; [exact E|]. split; [done|]. split; [done|]. split; [done|]. by intros ->.
  - destruct (write_all_spec fuel cx src s (stream_write_ok s) Hs Hf') as (p & src' & s' & ws & E & _ & _ & ? & Hp).
    do 4 eexists. split; [exact E|]. split; [done|]. by intros ->.
Qed.

(** [try_read], [try_write] and [try_peek] never wait and take no budget;
    one that would block clears the readiness of its own direction and of that
    only; peeking takes nothing from what is to be received, and gives its
    beginning. *)
Theorem stream_try_ops dst src s :
  (∃ a s' ws, try_read dst s = Some (a, s', ws) ∧ ws = [] ∧ s'.(units) = s.(units) ∧
     s'.(sio) = match a with WouldBlock => mkIo false s.(sio).(writable) s.(sio).(read_waker) s.(sio).(write_waker) | _ => s.(sio) end ∧
     (dst ≠ [] → match a with Done d => rx s.(file) = d ++ rx s'.(file) ∧ (d = [] → rx s.(file) = []) | _ => rx s'.(file) = rx s.(file) end)) ∧
  (∃ a s' ws, try_write src s = Some (a, s', ws) ∧ ws = [] ∧ s'.(units) = s.(units) ∧
     s'.(sio) = match a with WouldBlock => mkIo s.(sio).(readable) false s.(sio).(read_waker) s.(sio).(write_waker) | _ => s.(sio) end ∧
     match a with Done n => 0 ≤ n ≤ blen src ∧ tx s'.(file) = tx s.(file) ++ upto n src | _ => tx s'.(file) = tx s.(file) end) ∧
  (∃ a s' ws, try_peek dst s = Some (a, s', ws) ∧ ws = [] ∧ rx s'.(file) = rx s.(file) ∧
     match a with Done d => blen d ≤ blen dst ∧ d `prefix_of` rx s.(file) | _ => True end).
Proof.
  destruct s as [b io f]. unfold try_read, try_write, try_peek, try_op, on_file, in_sio, zoom, try_io.
  split; [|split]; run_M; simpl.
  - pose proof (λ H, fd_read_law (blen dst) f (blen_pos _ H)) as Hl. destruct (sys_read (blen dst) f) as [[d| |e] f']; simpl;
      do 3 eexists; (split; [reflexivity|]); (split; [done|]); (split; [done|]); (split; [done|]); intros Hd; simpl; naive_solver.
  - pose proof (fd_write_law src f) as Hl. destruct (sys_write src f) as [[n| |e] f']; simpl;
      do 3 eexists; (split; [reflexivity|]); (split; [done|]); (split; [done|]); (split; [done|]); simpl; naive_solver.
  - pose proof (fd_peek_law (blen dst) f (blen_nonneg dst)) as Hl. destruct (sys_peek (blen dst) f) as [[d| |e] f']; simpl;
      do 3 eexists; (split; [reflexivity|]); (split; [done|]); simpl; naive_solver.
Qed.
End laws.

(** ** Datagrams *)

(** [recvfrom]: with [peek], the datagram stays in the queue.  [sendto], or
    [write] to the peer [connect] fixed. *)
Class Dgram (A F : Type) := {
  sys_recv_from : bool → Z → F → attempt (list byte * A) io_error * F;
  sys_send_to : option A → list byte → F → attempt Z io_error * F;
}.
(** What does not fit the buffer of a datagram that is taken is discarded; one
    is sent whole or not at all. *)
Class LawfulDgram (A F : Type) `{Dgram A F} := {
  dq : F → list (list byte * A);
  sent : F → list (option A * list byte);
  send_to_law : ∀ dest m f, let '(a, f') := sys_send_to dest m f in
    dq f' = dq f ∧ match a with Done n => n = blen m ∧ sent f' = sent f ++ [(dest, m)] | _ => sent f' = sent f end;
  recv_from_law : ∀ peek n f, let '(a, f') := sys_recv_from peek n f in
    match a with
    | Done (d, a) => ∃ m rest, dq f = (m, a) :: rest ∧ d = upto n m ∧ dq f' = (if peek : bool then dq f else rest)
    | _ => dq f' = dq f
    end;
  recv_from_sent : ∀ peek n f, sent (sys_recv_from peek n f).2 = sent f;
}.

Definition MAX_UDP_DATAGRAM_SIZE : Z := 65507.

Section udp.
Context {A F : Type} `{LawfulDgram A F}.

Definition poll_recv_from (cx : waker) (room : Z) : M FdStream (poll (result (list byte * A) io_error)) :=
  poll_op Read cx (sys_recv_from false room).
Definition poll_peek_from (cx : waker) (room : Z) : M FdStream (poll (result (list byte * A) io_error)) :=
  poll_op Read cx (sys_recv_from true room).
(** A zero-length peek. *)
Definition poll_peek_sender (cx : waker) : M FdStream (poll (result A io_error)) :=
  let! r := poll_peek_from cx 0 in
  ret (match r with
       | Ready (Ok (_, a)) => Ready (Ok a)
       | Ready (Err e) => Ready (Err e)
       | Pending => Pending
       end).

Definition poll_recv (cx : waker) (room : Z) : M FdStream (poll (result (list byte) io_error)) :=
  let! r := poll_recv_from cx room in
  ret (match r with
       | Ready (Ok (d, _)) => Ready (Ok d)
       | Ready (Err e) => Ready (Err e)
       | Pending => Pending
       end).
Definition poll_send_to (cx : waker) (m : list byte) (dest : A) : M FdStream (poll (result Z io_error)) :=
  poll_op Write cx (sys_send_to (Some dest) m).
Definition poll_send (cx : waker) (m : list byte) : M FdStream (poll (result Z io_error)) :=
  poll_op Write cx (sys_send_to None m).
Definition try_recv_from (room : Z) : M FdStream (attempt (list byte * A) io_error) :=
  try_op READABLE (sys_recv_from false room).
Definition try_peek_from (room : Z) : M FdStream (attempt (list byte * A) io_error) :=
  try_op READABLE (sys_recv_from true room).
Definition try_send_to (m : list byte) (dest : A) : M FdStream (attempt Z io_error) :=
  try_op WRITABLE (sys_send_to (Some dest) m).
Definition try_send (m : list byte) : M FdStream (attempt Z io_error) :=
  try_op WRITABLE (sys_send_to None m).

(** One poll of [recv_buf_from] (or, without the sender, [recv_buf]), on a
    buffer with room for [remaining_mut] bytes: what is put into it. *)
Definition recv_buf_from (cx : waker) (remaining_mut : Z) : M FdStream (poll (result (list byte * A) io_error)) :=
  let want := Z.min remaining_mut MAX_UDP_DATAGRAM_SIZE in
  let! r := poll_recv_from cx want in
  ret (match r with
       | Ready (Ok (d, a)) => Ready (Ok (upto (blen d) (overwrite d (repeat 0 (Z.to_nat want))), a))
       | r => r
       end).

(** [recv_buf_from] takes one datagram, with its sender, or none; it fills
    no more than the room there is, nor a temporary buffer of more than
    [MAX_UDP_DATAGRAM_SIZE] bytes however much that is; and it cuts a datagram
    short only if it is larger than the room or than that.  Sending sends the
    whole datagram once, or nothing. *)
Theorem udp_recv_buf cx room (s : FdStream (F := F)) :
  0 ≤ room →
  ∃ p s' ws, recv_buf_from cx room s = Some (p, s', ws) ∧
    match p with
    | Ready (Ok (d, a)) =>
        ∃ m rest, dq s.(file) = (m, a) :: rest ∧ dq s'.(file) = rest ∧
          d `prefix_of` m ∧ blen d ≤ room ∧ blen d ≤ MAX_UDP_DATAGRAM_SIZE ∧
          (blen m ≤ room → blen m ≤ MAX_UDP_DATAGRAM_SIZE → d = m)
    | _ => dq s'.(file) = dq s.(file)
    end ∧
    ∀ m dest, ∃ p s' ws, poll_send_to cx m dest s = Some (p, s', ws) ∧ dq s'.(file) = dq s.(file) ∧
      match p with
      | Ready (Ok n) => n = blen m ∧ sent s'.(file) = sent s.(file) ++ [(Some dest, m)]
      | _ => sent s'.(file) = sent s.(file)
      end.
Proof.
  intros Hroom. cut (∃ p s' ws, recv_buf_from cx room s = Some (p, s', ws) ∧
    match p with
    | Ready (Ok (d, a)) =>
        ∃ m rest, dq s.(file) = (m, a) :: rest ∧ dq s'.(file) = rest ∧
          d `prefix_of` m ∧ blen d ≤ room ∧ blen d ≤ MAX_UDP_DATAGRAM_SIZE ∧
          (blen m ≤ room → blen m ≤ MAX_UDP_DATAGRAM_SIZE → d = m)
    | _ => dq s'.(file) = dq s.(file)
    end).
  { intros (p & s' & ws & E & Hp). exists p, s', ws. split; [exact E|]. split; [exact Hp|]. intros m dest.
    destruct (poll_op_law Write cx (sys_send_to (F := F) (Some dest) m) s (λ f p f', dq f' = dq f ∧ match p with
      | Ready (Ok n) => n = blen m ∧ sent f' = sent f ++ [(Some dest, m)] | _ => sent f' = sent f end)) as (p1 & s1 & ws1 & E1 & H1);
      [done| |by do 3 eexists].
    intros f. pose proof (send_to_law (Some dest) m f) as Hl. by destruct (sys_send_to (Some dest) m f) as [[] f']. }
  unfold recv_buf_from. set (want := Z.min room MAX_UDP_DATAGRAM_SIZE).
  assert (0 ≤ want) as Hw by (unfold want, MAX_UDP_DATAGRAM_SIZE; lia).
  destruct (poll_op_law Read cx (sys_recv_from (F := F) false want) s (λ f p f', match p with
    | Ready (Ok (d, a)) => ∃ m rest, dq f = (m, a) :: rest ∧ d = upto want m ∧ dq f' = rest
    | _ => dq f' = dq f end)) as (p & s' & ws & E & Hp); [done| |].
  { intros f. pose proof (recv_from_law false want f) as Hl. by destruct (sys_recv_from false want f) as [[[]| |] f']. }
  unfold poll_recv_from, bind. rewrite E. destruct p as [[[d a]|e]|]; [|by do 3 eexists..].
  destruct Hp as (m & rest & Hd & -> & Hr). do 3 eexists. split; [done|]. unfold overwrite. rewrite upto_app.
  assert (blen (upto want m) ≤ want) as Hu by (unfold blen, upto; rewrite length_take; lia).
  exists m, rest. split_and!; [done..| | | |].
  - exists (from want m). symmetry. apply upto_from.
  - unfold want in *. lia.
  - unfold want in *. lia.
  - intros ??. unfold upto. apply take_ge. unfold blen, want in *. lia.
Qed.

(** Peeking takes nothing, and shows the sender whatever room there is. *)
Lemma udp_peek cx room (s : FdStream (F := F)) :
  ∃ p s' ws, poll_peek_from cx room s = Some (p, s', ws) ∧ dq s'.(file) = dq s.(file) ∧
    match p with Ready (Ok (d, a)) => ∃ m rest, dq s.(file) = (m, a) :: rest ∧ d = upto room m | _ => True end.
Proof.
  destruct (poll_op_law Read cx (sys_recv_from (F := F) true room) s (λ f p f', dq f' = dq f ∧ match p with
    | Ready (Ok (d, a)) => ∃ m rest, dq f = (m, a) :: rest ∧ d = upto room m
    | _ => True end)) as (p & s' & ws & E & Hp); [done| |].
  { intros f. pose proof (recv_from_law true room f) as Hl.
    destruct (sys_recv_from true room f) as [[[]| |] f']; [|done..]. destruct Hl as (? & ? & ? & ? & ?). eauto. }
  do 3 eexists. split; [exact E|]. by destruct Hp as [? Hp].
Qed.
End udp.

(** ** Descriptors to try things on *)

(** It reads and writes two bytes at most at a time, and would block once
    before each. *)
Record MemFd := mkMemFd { incoming : list byte; outgoing : list byte; is_ready : bool; in_shut : bool }.

#[export] Instance mem_fd : Fd MemFd := {
  sys_read n f :=
    if f.(is_ready) then
      let d := take (Nat.min 2 (Z.to_nat n)) f.(incoming) in
      (Done d, mkMemFd (drop (length d) f.(incoming)) f.(outgoing) false f.(in_shut))
    else (WouldBlock, mkMemFd f.(incoming) f.(outgoing) true f.(in_shut));
  sys_write l f :=
    if f.(is_ready) then
      (Done (blen (take 2 l)), mkMemFd f.(incoming) (f.(outgoing) ++ take 2 l) false f.(in_shut))
    else (WouldBlock, mkMemFd f.(incoming) f.(outgoing) true f.(in_shut));
  sys_peek n f :=
    if f.(is_ready) then (Done (take (Nat.min 2 (Z.to_nat n)) f.(incoming)), f) else (WouldBlock, f);
  sys_shutdown f := (Ok tt, mkMemFd f.(incoming) f.(outgoing) f.(is_ready) true);
}.

#[local] Arguments Nat.min : simpl never.

#[export, program] Instance mem_fd_lawful : LawfulFd MemFd := { rx f := f.(incoming); tx f := f.(outgoing) }.
Next Obligation.
  intros n [l o [|] b] Hn; simpl; [|done]. set (k := Nat.min 2 (Z.to_nat n)).
  split; [done|]. split_and!.
  - unfold blen. rewrite length_take. lia.
  - rewrite length_take. destruct (decide (k ≤ length l)%nat).
    + rewrite Nat.min_l by lia. by rewrite take_drop.
    + rewrite Nat.min_r, take_ge, drop_ge by lia. by rewrite app_nil_r.
  - intros E. destruct l; [done|]. apply (f_equal length) in E. rewrite length_take in E. simpl in E. lia.
Qed.
Next Obligation.
  intros l [i o [|] b]; simpl; [|done]. split; [done|]. unfold blen, upto. rewrite Nat2Z.id, length_take. split; [lia|].
  f_equal. destruct l as [|x [|y l]]; done.
Qed.
Next Obligation.
  intros n [l o [|] b] Hn; simpl; [|done]. split_and!; [done..| |].
  - unfold blen. rewrite length_take. lia.
  - apply prefix_take.
Qed.
Next Obligation. by intros []. Qed.

#[local] Existing Instance dev_profile.

Definition fresh_stream (l : list byte) : FdStream := mkStream None scheduled_io_new (mkMemFd l [] true false).

(** One poll fills two bytes of three and has to wait. *)
Lemma stream_exact_io_witness :
  let s := fresh_stream [1; 2; 3; 4] in
  ∃ p dst' got' s' ws, fd_read_exact 3 7 [0; 0; 0] 0 s = Some ((p, (dst', got')), s', ws) ∧
    upto got' dst' ++ rx s'.(file) = [1; 2; 3; 4] ∧ p = Pending ∧ got' = 2.
Proof.
  intros s.
  destruct (stream_exact_io 3 7%nat [0; 0; 0] 0 [9] s ltac:(done) ltac:(done) ltac:(done) ltac:(done) ltac:(done))
    as (_ & _ & (p & dst' & got' & s' & ws & E & _ & _ & Hc & _) & _).
  exists p, dst', got', s', ws. split; [exact E|]. split; [exact Hc|]. vm_compute in E. by simplify_eq.
Defined.

(** A queue of datagrams, and those sent. *)
Record Datagrams := mkDatagrams { arrived : list (list byte * nat); departed : list (option nat * list byte) }.
#[export] Instance datagrams : Dgram nat Datagrams := {
  sys_recv_from peek n q :=
    match q.(arrived) with
    | [] => (WouldBlock, q)
    | (m, a) :: rest => (Done (upto n m, a), mkDatagrams (if peek then q.(arrived) else rest) q.(departed))
    end;
  sys_send_to dest m q := (Done (blen m), mkDatagrams q.(arrived) (q.(departed) ++ [(dest, m)]));
}.
#[export, program] Instance datagrams_lawful : LawfulDgram nat Datagrams := { dq := arrived; sent := departed }.
Next Obligation. by intros. Qed.
Next Obligation. intros peek n [[|[m a] q] d]; simpl; [done|]. by do 2 eexists. Qed.
Next Obligation. by intros peek n [[|[]] d]. Qed.

Definition arriving (m : list byte) (a : nat) : FdStream := mkStream None scheduled_io_new (mkDatagrams [(m, a)] []).

Lemma udp_recv_buf_witness :
  ∃ p s' ws, recv_buf_from (A := nat) 7 2 (arriving [1; 2; 3] 8) = Some (p, s', ws) ∧
    p = Ready (Ok ([1; 2], 8%nat)) ∧ dq s'.(file) = [].
Proof.
  destruct (udp_recv_buf (A := nat) 7%nat 2 (arriving [1; 2; 3] 8) ltac:(done)) as (p & s' & ws & E & Hp & _).
  exists p, s', ws. split; [exact E|]. vm_compute in E. simplify_eq. by destruct Hp as (m & rest & Hd & Hr & _); simplify_eq.
Defined.

(** The largest datagram of UDP over IPv6 has 65527 bytes: with room for more,
    its last twenty are discarded. *)
Example udp_ipv6_cut :
  match recv_buf_from (A := nat) 7 100000 (arriving (repeat 1 (Z.to_nat 65527)) 8) with
  | Some (Ready (Ok (d, _)), s, _) => blen d = 65507 ∧ s.(file).(arrived) = []
  | _ => False
  end.
Proof. vm_compute. done. Qed.

(** ** The other types that read and write a descriptor *)

(** [try_read_vectored] and [try_write_vectored]: one [readv] or [writev]. *)
Fixpoint scatter (d : list byte) (dsts : list (list byte)) : list (list byte) :=
  match dsts with
  | [] => []
  | dst :: dsts => overwrite (upto (blen dst) d) dst :: scatter (from (blen dst) d) dsts
  end.
Definition try_read_vectored `{Fd F} (dsts : list (list byte)) : M (FdStream (F := F)) (attempt (Z * list (list byte)) io_error) :=
  let! a := try_op READABLE (sys_read (blen (concat dsts))) in
  ret (match a with Done d => Done (blen d, scatter d dsts) | WouldBlock => WouldBlock | Failed e => Failed e end).
Definition try_write_vectored `{Fd F} (srcs : list (list byte)) : M (FdStream (F := F)) (attempt Z io_error) :=
  try_op WRITABLE (sys_write (concat srcs)).

(** What was read is the buffers, one after the other. *)
Lemma scatter_concat d dsts : blen d ≤ blen (concat dsts) → concat (scatter d dsts) = overwrite d (concat dsts).
Proof.
  revert d. induction dsts as [|dst dsts IH]; intros d Hd.
  { simpl in *. unfold blen in Hd. destruct d; [done|simpl in Hd; lia]. }
  simpl in *. rewrite blen_app in Hd. rewrite IH by (unfold blen, from in *; rewrite length_drop; lia).
  unfold overwrite, from, upto, blen in *. rewrite !Nat2Z.id. rewrite length_take, length_drop, drop_app, app_assoc.
  destruct (decide (length dst ≤ length d)%nat).
  - rewrite (drop_ge dst (length dst `min` length d)) by lia. rewrite (drop_ge dst (length d)) by lia. rewrite app_nil_r. simpl.
    by rewrite take_drop.
  - rewrite take_ge, (drop_ge d) by lia. replace (length dst `min` length d)%nat with (length d) by lia.
    rewrite <-!app_assoc. simpl. by do 2 f_equal.
Qed.

(** The same again in [unix.rs]. *)
Module UnixIo.
Section unix.
Context {F : Type} `{Fd F} `{BuildProfile}.
Definition poll_read_priv (cx : waker) (n : Z) : M (FdStream (F := F)) _ := poll_op Read cx (sys_read n).
Definition poll_write_priv (cx : waker) (src : list byte) : M (FdStream (F := F)) _ := poll_op Write cx (sys_write src).
Definition poll_read : waker → ReadBuf → M (FdStream (F := F)) _ := stream_poll_read.
Definition poll_write : waker → list byte → M (FdStream (F := F)) _ := poll_write_priv.
Definition read : waker → list byte → M (FdStream (F := F)) _ := fd_read.
Definition write : waker → list byte → M (FdStream (F := F)) _ := fd_write.
Definition write_all : nat → waker → list byte → M (FdStream (F := F)) _ := fd_write_all.
Definition read_exact : nat → waker → list byte → Z → M (FdStream (F := F)) _ := fd_read_exact.
Definition try_read : list byte → M (FdStream (F := F)) _ := try_read.
Definition try_write : list byte → M (FdStream (F := F)) _ := try_write.
End unix.
End UnixIo.

(** A pipe's ends; there is nothing to shut down but by dropping it. *)
Module PipeIo.
Section pipe.
Context {F : Type} `{Fd F} `{BuildProfile}.
Definition poll_read : waker → ReadBuf → M (FdStream (F := F)) _ := stream_poll_read.
Definition try_read : list byte → M (FdStream (F := F)) _ := try_read.
Definition try_write : list byte → M (FdStream (F := F)) _ := try_write.
Definition sender_write : AsyncWrite (FdStream (F := F)) := {|
  poll_write cx data := poll_op Write cx (sys_write data);
  poll_flush _ := ret (Ready (Ok tt));
  poll_shutdown _ := ret (Ready (Ok tt));
|}.
End pipe.
(** It is a lawful writer, too. *)
Definition sender_lawful `{LawfulFd F} : @LawfulWrite (FdStream (F := F)) sender_write.
Proof.
  refine {| sink s := tx s.(file); write_ok _ := True |}.
  - intros cx data s _ H1 H2. exact (write_law cx data s I H1 H2).
  - intros cx s _. exact (flush_law cx s I).
  - intros cx s _. simpl. by do 3 eexists.
Defined.
End PipeIo.
