(* ===== verification/Net.v ===== *)
(** Sockets as descriptors: who owns one, whether it is registered and
    non-blocking, and connecting ([src/src/io/tcp.rs], [unix.rs], [udp.rs],
    [unix_datagram.rs], [src/src/io/socket/posix.rs]).

    A system call that may fail takes whether it does as an argument ([None] is
    success); a new descriptor is whichever the kernel picks among those not
    open.  [fds] maps an open descriptor to its open file and to what owns it,
    so a duplicate shares the file; [registry] is the reactor's map.  What is
    read and written is [Streams]. *)

From S2P Require Import Prelude Coop AsyncIo Readiness.

(** ** Files, descriptors and the reactor's registry *)

Inductive conn := Unconnected | Listening | Connecting | Connected | Broken.
Record sock_file := mkSock { nonblocking : bool; state : conn; so_error : option io_error }.

(** A bare socket ([TcpSocket], [UnixSocket]) was made by the program, or
    adopted from elsewhere; so was what it connects. *)
Inductive owner := Std | Bare (adopted : bool) | Pend (adopted : bool) | Live (adopted : bool).

Record net := mkNet {
  fds : gmap nat (nat * owner);
  files : gmap nat sock_file;
  next_file : nat;
  registry : gmap nat ScheduledIo;
}.

Definition open_fd (fd : nat) (f : sock_file) (o : owner) (N : net) : net :=
  mkNet (<[fd := (N.(next_file), o)]> N.(fds)) (<[N.(next_file) := f]> N.(files)) (S N.(next_file)) N.(registry).
Definition close_fd (fd : nat) (N : net) : net :=
  mkNet (delete fd N.(fds)) N.(files) N.(next_file) N.(registry).
Definition on_sock (g : sock_file → sock_file) (fd : nat) (N : net) : net :=
  match N.(fds) !! fd with
  | Some (i, _) => mkNet N.(fds) (alter g i N.(files)) N.(next_file) N.(registry)
  | None => N
  end.
Definition set_owner (o : owner) (fd : nat) (N : net) : net :=
  mkNet (alter (λ '(i, _), (i, o)) fd N.(fds)) N.(files) N.(next_file) N.(registry).

Definition with_nonblocking (b : bool) (f : sock_file) : sock_file := mkSock b f.(state) f.(so_error).
Definition with_state (c : conn) (f : sock_file) : sock_file := mkSock f.(nonblocking) c f.(so_error).
Definition with_error (e : option io_error) (f : sock_file) : sock_file := mkSock f.(nonblocking) f.(state) e.

(** [Reactor::register] and [deregister], as far as the registry goes.  The
    reactor of Windows fills its entry in before the first poll request, which
    may then fail ([reg_late]) and leaves the entry there; an earlier failure,
    and any of [epoll] and [kqueue], comes before the entry. *)
Record reg_error := mkRegError { reg_err : io_error; reg_late : bool }.
Definition add_entry (fd : nat) (N : net) : net :=
  mkNet N.(fds) N.(files) N.(next_file) (<[fd := scheduled_io_new]> N.(registry)).
Definition register (env : option reg_error) (fd : nat) (N : net) : net * result unit io_error :=
  match env with
  | Some e => (if e.(reg_late) then add_entry fd N else N, Err e.(reg_err))
  | None => (add_entry fd N, Ok tt)
  end.
Definition deregister (fd : nat) (N : net) : net :=
  mkNet N.(fds) N.(files) N.(next_file) (delete fd N.(registry)).

Definition set_nonblocking (env : option io_error) (b : bool) (fd : nat) (N : net) : net * result unit io_error :=
  match env with
  | Some e => (N, Err e)
  | None => (on_sock (with_nonblocking b) fd N, Ok tt)
  end.

(** The destructors of the listeners, streams and datagram sockets. *)
Definition drop_sock (fd : nat) (N : net) : net := close_fd fd (deregister fd N).

(** ** Making one *)

(** [from_accepted]: the socket is dropped, and so closed, on an error. *)
Definition from_accepted (env_reg : option reg_error) (adopted : bool) (fd : nat) (N : net) : net * result nat io_error :=
  match register env_reg fd N with
  | (N, Err e) => (close_fd fd N, Err e)
  | (N, Ok _) => (set_owner (Live adopted) fd N, Ok fd)
  end.
(** The end of [bind], [bind_addr], [from_std], [listen] and [poll_accept]. *)
Definition adopt (env_nb : option io_error) (env_reg : option reg_error) (fd : nat) (N : net) : net * result nat io_error :=
  match set_nonblocking env_nb true fd N with
  | (N, Err e) => (close_fd fd N, Err e)
  | (N, Ok _) => from_accepted env_reg false fd N
  end.

(** [bind] of a listener or a datagram socket: [PlatformTcpListener::bind] and
    the like make a blocking one. *)
Definition bind_sock (env_bind env_nb : option io_error) (env_reg : option reg_error) (c : conn) (fd : nat) (N : net) : net * result nat io_error :=
  match env_bind with
  | Some e => (N, Err e)
  | None => adopt env_nb env_reg fd (open_fd fd (mkSock false c None) Std N)
  end.
(** [poll_accept], once [accept] has returned a socket. *)
Definition accepted (env_nb : option io_error) (env_reg : option reg_error) (fd : nat) (N : net) : net * result nat io_error :=
  adopt env_nb env_reg fd (open_fd fd (mkSock false Connected None) Std N).
Definition from_std (env_nb : option io_error) (env_reg : option reg_error) (fd : nat) (N : net) : net * result nat io_error :=
  adopt env_nb env_reg fd N.
(** [UnixStream::pair]. *)
Definition pair_socks (env_pair : option io_error) (env_a env_b : option reg_error) (a b : nat) (N : net) : net * result (nat * nat) io_error :=
  match env_pair with
  | Some e => (N, Err e)
  | None =>
      let N := open_fd b (mkSock true Connected None) Std (open_fd a (mkSock true Connected None) Std N) in
      match from_accepted env_a false a N with
      | (N, Err e) => (close_fd b N, Err e)
      | (N, Ok _) =>
          match from_accepted env_b false b N with
          | (N, Err e) => (drop_sock a N, Err e)
          | (N, Ok _) => (N, Ok (a, b))
          end
      end
  end.

(** [new_tcp_socket], [new_unix_socket]; and a bare socket from elsewhere. *)
Definition new_socket (env : option io_error) (fd : nat) (N : net) : net * result nat io_error :=
  match env with
  | Some e => (N, Err e)
  | None => (open_fd fd (mkSock true Unconnected None) (Bare false) N, Ok fd)
  end.
Definition adopt_bare (fd : nat) (N : net) : net := set_owner (Bare true) fd N.

(** [TcpSocket::listen]. *)
Definition listen (env_listen env_nb : option io_error) (env_reg : option reg_error) (fd : nat) (N : net) : net * result nat io_error :=
  match env_listen with
  | Some e => (close_fd fd N, Err e)
  | None => adopt env_nb env_reg fd (on_sock (with_state Listening) fd N)
  end.

(** A duplicate of the descriptor is handed out, and the socket dropped. *)
Definition hand_out (fd fd' : nat) (N : net) : net :=
  match N.(fds) !! fd with
  | Some (i, _) => drop_sock fd (mkNet (<[fd' := (i, Std)]> N.(fds)) N.(files) N.(next_file) N.(registry))
  | None => N
  end.
(** [into_std]: one that blocks again; [into_nonblocking_fd] of a pipe: as it is. *)
Definition into_nonblocking_fd (env_dup : option io_error) (fd fd' : nat) (N : net) : net * result nat io_error :=
  match env_dup with
  | Some e => (drop_sock fd N, Err e)
  | None => (hand_out fd fd' N, Ok fd')
  end.
Definition into_std (env_nb env_dup env_again : option io_error) (fd fd' : nat) (N : net) : net * result nat io_error :=
  match set_nonblocking env_nb false fd N with
  | (N, Err e) => (drop_sock fd N, Err e)
  | (N, Ok _) =>
      match into_nonblocking_fd env_dup fd fd' N with
      | (N, Err e) => (N, Err e)
      | (N, Ok fd') => ((set_nonblocking env_again false fd' N).1, Ok fd')   (* whose failure is ignored *)
      end
  end.

(** ** Connecting *)

(** [connect(2)]: at once, in progress, or an error. *)
Inductive connected := CNow | CInProgress | CErr (e : io_error).
Definition sys_connect (env : connected) (fd : nat) (N : net) : net * result unit io_error :=
  match env with
  | CNow => (on_sock (with_state Connected) fd N, Ok tt)
  | CInProgress => (on_sock (with_state Connecting) fd N, Ok tt)
  | CErr e => (N, Err e)
  end.

(** [TcpSocket::connect] (and [UnixSocket::connect]) up to its first poll of
    [ready_io]; [TcpStream::connect_addr] makes the socket first. *)
Definition connect_bare (env_connect : connected) (env_reg : option reg_error) (fd : nat) (N : net) : net * result nat io_error :=
  let adopted := match N.(fds) !! fd with Some (_, Bare a) => a | _ => false end in
  match sys_connect env_connect fd N with
  | (N, Err e) => (close_fd fd N, Err e)
  | (N, Ok _) =>
      match register env_reg fd N with
      | (N, Err e) => (close_fd fd N, Err e)
      | (N, Ok _) => (set_owner (Pend adopted) fd N, Ok fd)
      end
  end.
Definition connect_addr (env_socket : option io_error) (env_connect : connected) (env_reg : option reg_error) (fd : nat) (N : net)
    : net * result nat io_error :=
  match new_socket env_socket fd N with
  | (N, Err e) => (N, Err e)
  | (N, Ok fd) => connect_bare env_connect env_reg fd N
  end.

(** [take_error] reads [SO_ERROR], and clears it; [take_socket_error]. *)
Definition take_error (env : option io_error) (fd : nat) (N : net) : net * result (option io_error) io_error :=
  match env with
  | Some e => (N, Err e)
  | None =>
      match N.(fds) !! fd with
      | Some (i, _) =>
          match N.(files) !! i with
          | Some f => (on_sock (with_error None) fd N, Ok f.(so_error))
          | None => (N, Ok None)
          end
      | None => (N, Ok None)
      end
  end.
Definition take_socket_error (env : option io_error) (fd : nat) (N : net) : net * attempt unit io_error :=
  match take_error env fd N with
  | (N, Ok None) => (N, Done tt)
  | (N, Ok (Some e)) => (N, Failed e)
  | (N, Err e) => (N, Failed e)
  end.

(** One poll of what is left of [connect]: the answer of [poll_io] on the
    error, which is never [WouldBlock]; on an error the socket is dropped
    before there is a stream to deregister it. *)
Definition connect_poll (env : option io_error) (cx : waker) (b : BUDGET) (fd : nat) (N : net)
    : option (net * BUDGET * poll (result nat io_error) * list waker) :=
  match N.(registry) !! fd, N.(fds) !! fd with
  | Some io, Some (_, Pend adopted) =>
      let '(N', a) := take_socket_error env fd N in
      match poll_io Write cx [a] (b, io) with
      | Some (Some (Ready r), (b, io), ws) =>
          let N := mkNet N'.(fds) N'.(files) N'.(next_file) (<[fd := io]> N'.(registry)) in
          match r with
          | Ok _ => Some (set_owner (Live adopted) fd N, b, Ready (Ok fd), ws)
          | Err e => Some (close_fd fd N, b, Ready (Err e), ws)
          end
      | Some (Some Pending, (b, io), ws) =>
          Some (mkNet N.(fds) N.(files) N.(next_file) (<[fd := io]> N.(registry)), b, Pending, ws)
      | _ => None
      end
  | _, _ => None
  end.
(** Its future dropped. *)
Definition connect_cancel (fd : nat) (N : net) : net := close_fd fd N.

(** [connect] over several addresses, [bind_addrs] and [connect_addrs]: what
    comes of one after the other. *)
Fixpoint try_each {A} (last_err : option io_error) (outcomes : list (result A io_error)) : result A io_error :=
  match outcomes with
  | [] => Err (default InvalidInput last_err)
  | Ok a :: _ => Ok a
  | Err e :: outcomes => try_each (Some e) outcomes
  end.

(** ** The program, and the network under it *)

Inductive move :=
| MBind (env_bind env_nb : option io_error) (env_reg : option reg_error) (c : conn) (fd : nat)
| MStd (nonblocking : bool) (c : conn) (fd : nat)     (* the program has a socket of its own *)
| MFromStd (env_nb : option io_error) (env_reg : option reg_error) (fd : nat)
| MAccept (env_nb : option io_error) (env_reg : option reg_error) (fd : nat)
| MPair (env_pair : option io_error) (env_a env_b : option reg_error) (a b : nat)
| MNew (env : option io_error) (fd : nat)
| MAdoptBare (fd : nat)
| MListen (env_listen env_nb : option io_error) (env_reg : option reg_error) (fd : nat)
| MConnectBare (env_connect : connected) (env_reg : option reg_error) (fd : nat)
| MConnectAddr (env_socket : option io_error) (env_connect : connected) (env_reg : option reg_error) (fd : nat)
| MPeer (env : connected) (fd : nat)                    (* a datagram socket's peer *)
| MConnectPoll (env : option io_error) (cx : waker) (b : BUDGET) (fd : nat)
| MConnectCancel (fd : nat)
| MIntoStd (env_nb env_dup env_again : option io_error) (fd fd' : nat)
| MIntoFd (env_dup : option io_error) (fd fd' : nat)
| MSetStd (b : bool) (fd : nat)                        (* the program flips its own *)
| MDrop (fd : nat)
| MEstablished (fd : nat)                              (* the handshake is done *)
| MRefused (e : io_error) (fd : nat)
| MEvent (i : Interest) (fd : nat).                    (* the reactor reports one *)

Definition free (fd : nat) (N : net) : bool := bool_decide (N.(fds) !! fd = None).
Definition owned_by (p : owner → bool) (fd : nat) (N : net) : bool :=
  match N.(fds) !! fd with Some (_, o) => p o | None => false end.
Definition is_std (o : owner) : bool := match o with Std => true | _ => false end.
Definition is_bare (o : owner) : bool := match o with Bare _ => true | _ => false end.
Definition is_pend (o : owner) : bool := match o with Pend _ => true | _ => false end.
Definition is_live (o : owner) : bool := match o with Live _ => true | _ => false end.

Definition net_move (m : move) (N : net) : option net :=
  match m with
  | MBind e1 e2 e3 c fd => if free fd N then Some (bind_sock e1 e2 e3 c fd N).1 else None
  | MStd nb c fd => if free fd N then Some (open_fd fd (mkSock nb c None) Std N) else None
  | MFromStd e1 e2 fd => if owned_by (λ o, is_std o || is_bare o) fd N then Some (from_std e1 e2 fd N).1 else None
  | MAccept e1 e2 fd => if free fd N then Some (accepted e1 e2 fd N).1 else None
  | MPair e1 e2 e3 a b => if free a N && free b N && negb (bool_decide (a = b)) then Some (pair_socks e1 e2 e3 a b N).1 else None
  | MNew e fd => if free fd N then Some (new_socket e fd N).1 else None
  | MAdoptBare fd => if owned_by is_std fd N then Some (adopt_bare fd N) else None
  | MListen e1 e2 e3 fd => if owned_by is_bare fd N then Some (listen e1 e2 e3 fd N).1 else None
  | MConnectBare c e fd => if owned_by is_bare fd N then Some (connect_bare c e fd N).1 else None
  | MConnectAddr e1 c e2 fd => if free fd N then Some (connect_addr e1 c e2 fd N).1 else None
  | MPeer c fd => if owned_by is_live fd N then Some (sys_connect c fd N).1 else None
  | MConnectPoll e cx b fd => match connect_poll e cx b fd N with Some (N, _, _, _) => Some N | None => None end
  | MConnectCancel fd => if owned_by is_pend fd N then Some (connect_cancel fd N) else None
  | MIntoStd e1 e2 e3 fd fd' => if owned_by is_live fd N && free fd' N then Some (into_std e1 e2 e3 fd fd' N).1 else None
  | MIntoFd e fd fd' => if owned_by is_live fd N && free fd' N then Some (into_nonblocking_fd e fd fd' N).1 else None
  | MSetStd b fd => if owned_by is_std fd N then Some (on_sock (with_nonblocking b) fd N) else None
  | MDrop fd =>
      if owned_by is_live fd N then Some (drop_sock fd N)
      else if owned_by (λ o, is_std o || is_bare o) fd N then Some (close_fd fd N) else None
  | MEstablished fd => if owned_by is_pend fd N then Some (on_sock (with_state Connected) fd N) else None
  | MRefused e fd => if owned_by is_pend fd N then Some (on_sock (λ f, with_error (Some e) (with_state Broken f)) fd N) else None
  | MEvent i fd =>
      match N.(registry) !! fd with
      | Some io =>
          match mark_ready i io with
          | Some (_, io, _) => Some (mkNet N.(fds) N.(files) N.(next_file) (<[fd := io]> N.(registry)))
          | None => None
          end
      | None => None
      end
  end.

Definition net_init : net := mkNet ∅ ∅ 0 ∅.
Definition net_reachable : net → Prop := reachable (.= net_init) (moves net_move).

(** ** What each step does to one descriptor *)

Definition view (N : net) (fd : nat) : option (owner * sock_file) :=
  '(i, o) ← N.(fds) !! fd; f ← N.(files) !! i; Some (o, f).
Definition is_registered (N : net) (fd : nat) : bool := bool_decide (is_Some (N.(registry) !! fd)).

(** Every open descriptor has its own file. *)
Record wf (N : net) : Prop := {
  wf_file fd i o : N.(fds) !! fd = Some (i, o) → (i < N.(next_file))%nat ∧ is_Some (N.(files) !! i);
  wf_inj a b i o o' : N.(fds) !! a = Some (i, o) → N.(fds) !! b = Some (i, o') → a = b;
}.

Lemma wf_open fd f o N : wf N → wf (open_fd fd f o N).
Proof.
  intros [Hf Hi]. constructor; simpl.
  - intros fd' i o'. rewrite lookup_insert_Some. intros [[<- [= <- <-]]|[Hne E]]; [split; [lia|by simplify_map_eq]|].
    destruct (Hf _ _ _ E). rewrite lookup_insert_ne by lia. split; [lia|done].
  - intros a b i o1 o2. rewrite !lookup_insert_Some.
    intros [[<- [= <- <-]]|[? E1]] [[<- [= <-]]|[? E2]]; [done|..|by eapply Hi];
      [destruct (Hf _ _ _ E2)|destruct (Hf _ _ _ E1)]; lia.
Qed.
Lemma wf_close fd N : wf N → wf (close_fd fd N).
Proof.
  intros [Hf Hi]. constructor; simpl.
  - intros fd' i o [_ E]%lookup_delete_Some. by eapply Hf.
  - intros a b i o1 o2 [_ E1]%lookup_delete_Some [_ E2]%lookup_delete_Some. by eapply Hi.
Qed.
Lemma wf_on_sock g fd N : wf N → wf (on_sock g fd N).
Proof.
  intros [Hf Hi]. unfold on_sock. destruct (fds N !! fd) as [[j oj]|] eqn:E; [|done]. constructor; simpl; [|done].
  intros fd' i o E'. destruct (Hf _ _ _ E') as [? [f' Ef]]. split; [done|].
  rewrite lookup_alter. case_decide; [subst; rewrite Ef; eauto|eauto].
Qed.
Lemma wf_set_owner o fd N : wf N → wf (set_owner o fd N).
Proof.
  intros [Hf Hi]. assert (∀ a i o', alter (λ '(i, _), (i, o)) fd N.(fds) !! a = Some (i, o') → ∃ o'', N.(fds) !! a = Some (i, o'')) as Ha.
  { intros a i o'. rewrite lookup_alter. case_decide; [subst|eauto].
    destruct (fds N !! a) as [[j oj]|]; simpl; [|done]. intros [= <- _]. eauto. }
  constructor; simpl.
  - intros fd' i o' [o'' E]%Ha. by eapply Hf.
  - intros a b i o1 o2 [? E1]%Ha [? E2]%Ha. by eapply Hi.
Qed.
Lemma wf_same N N' : N'.(fds) = N.(fds) → N'.(files) = N.(files) → N'.(next_file) = N.(next_file) → wf N → wf N'.
Proof. intros E1 E2 E3 [Hf Hi]. constructor; rewrite E1, ?E2, ?E3; done. Qed.

Lemma view_open fd f o N fd' : wf N →
  view (open_fd fd f o N) fd' = if bool_decide (fd' = fd) then Some (o, f) else view N fd'.
Proof.
  intros [Hf _]. unfold view. simpl. case_bool_decide as He; [subst; by simplify_map_eq|].
  rewrite lookup_insert_ne by congruence. destruct (fds N !! fd') as [[i o']|] eqn:E; simpl; [|done].
  destruct (Hf _ _ _ E). by rewrite lookup_insert_ne by lia.
Qed.
Lemma view_close fd N fd' : view (close_fd fd N) fd' = if bool_decide (fd' = fd) then None else view N fd'.
Proof.
  unfold view. simpl. case_bool_decide as He; [subst; by simplify_map_eq|]. by rewrite lookup_delete_ne by congruence.
Qed.
Lemma view_on_sock g fd N fd' : wf N →
  view (on_sock g fd N) fd' = if bool_decide (fd' = fd) then (λ '(o, f), (o, g f)) <$> view N fd else view N fd'.
Proof.
  intros [Hf Hi]. unfold on_sock, view. destruct (fds N !! fd) as [[j oj]|] eqn:E; simpl.
  - case_bool_decide as He; [subst; rewrite E; simpl; rewrite lookup_alter_eq; by destruct (files N !! j)|].
    destruct (fds N !! fd') as [[i o']|] eqn:E'; simpl; [|done].
    rewrite lookup_alter_ne; [done|]. intros <-. destruct He. by eapply Hi.
  - case_bool_decide as He; [subst; by rewrite E|done].
Qed.
Lemma view_set_owner o fd N fd' :
  view (set_owner o fd N) fd' = if bool_decide (fd' = fd) then (λ '(_, f), (o, f)) <$> view N fd else view N fd'.
Proof.
  unfold view. simpl. case_bool_decide as He; [subst; rewrite lookup_alter_eq; by destruct (fds N !! fd) as [[]|]; simpl; [destruct (files N !! _)|]|].
  by rewrite lookup_alter_ne by congruence.
Qed.

(** A step about [fd]: how it leaves it, and that the others are left alone. *)
Record about (fd : nat) (N N' : net) (v : option (owner * sock_file)) (r : bool) : Prop := {
  ab_wf : wf N';
  ab_view : view N' fd = v;
  ab_reg : is_registered N' fd = r;
  ab_others fd' : fd' ≠ fd → view N' fd' = view N fd' ∧ N'.(registry) !! fd' = N.(registry) !! fd';
}.

Lemma about_refl fd N : wf N → about fd N N (view N fd) (is_registered N fd).
Proof. by intros. Qed.
Lemma about_trans fd N N1 N2 v1 r1 v2 r2 : about fd N N1 v1 r1 → about fd N1 N2 v2 r2 → about fd N N2 v2 r2.
Proof.
  intros [_ _ _ H1] [? ? ? H2]. constructor; try done. intros fd' Hne.
  destruct (H1 _ Hne), (H2 _ Hne). split; congruence.
Qed.
Lemma about_open fd f o N : wf N → about fd N (open_fd fd f o N) (Some (o, f)) (is_registered N fd).
Proof.
  intros Hw. constructor; [by apply wf_open|by rewrite view_open, bool_decide_eq_true_2|done|].
  intros fd' Hne. by rewrite view_open, bool_decide_eq_false_2.
Qed.
Lemma about_close fd N : wf N → about fd N (close_fd fd N) None (is_registered N fd).
Proof.
  intros Hw. constructor; [by apply wf_close|by rewrite view_close, bool_decide_eq_true_2|done|].
  intros fd' Hne. by rewrite view_close, bool_decide_eq_false_2.
Qed.
Lemma about_on_sock g fd N : wf N →
  about fd N (on_sock g fd N) ((λ '(o, f), (o, g f)) <$> view N fd) (is_registered N fd).
Proof.
  intros Hw. assert (registry (on_sock g fd N) = registry N) as Hr by (unfold on_sock; by destruct (fds N !! fd) as [[]|]).
  constructor; [by apply wf_on_sock|by rewrite view_on_sock, bool_decide_eq_true_2|unfold is_registered; by rewrite Hr|].
  intros fd' Hne. by rewrite view_on_sock, bool_decide_eq_false_2, Hr.
Qed.
Lemma about_set_owner o fd N : wf N →
  about fd N (set_owner o fd N) ((λ '(_, f), (o, f)) <$> view N fd) (is_registered N fd).
Proof.
  intros Hw. constructor; [by apply wf_set_owner|by rewrite view_set_owner, bool_decide_eq_true_2|done|].
  intros fd' Hne. by rewrite view_set_owner, bool_decide_eq_false_2.
Qed.
Lemma about_registry fd N (io : ScheduledIo) : wf N →
  about fd N (mkNet N.(fds) N.(files) N.(next_file) (<[fd := io]> N.(registry))) (view N fd) true.
Proof.
  intros Hw. constructor; [by apply (wf_same N)|done| |].
  - unfold is_registered. simpl. rewrite lookup_insert_eq. by rewrite bool_decide_eq_true_2.
  - intros fd' Hne. simpl. by rewrite lookup_insert_ne.
Qed.
Lemma about_deregister fd N : wf N → about fd N (deregister fd N) (view N fd) false.
Proof.
  intros Hw. constructor; [by apply (wf_same N)|done| |].
  - unfold is_registered. simpl. rewrite lookup_delete_eq. by rewrite bool_decide_eq_false_2 by (by intros []).
  - intros fd' Hne. simpl. by rewrite lookup_delete_ne.
Qed.
Lemma about_drop fd N : wf N → about fd N (drop_sock fd N) None false.
Proof.
  intros Hw. pose proof (about_deregister fd N Hw) as H1. eapply about_trans; [exact H1|].
  rewrite <-(ab_reg _ _ _ _ _ H1). apply about_close, H1.
Qed.

(** ** The operations, whole *)

(** Whether a failed registration leaves its entry. *)
Definition late (env : option reg_error) : bool := match env with Some e => e.(reg_late) | None => false end.

Lemma about_failed_entry e fd N : wf N →
  about fd N (if e.(reg_late) then add_entry fd N else N) (view N fd) (e.(reg_late) || is_registered N fd).
Proof. intros Hw. destruct (reg_late e); simpl; [by apply about_registry|by apply about_refl]. Qed.

Lemma about_from_accepted env a fd N o f : wf N → view N fd = Some (o, f) →
  let '(N', r) := from_accepted env a fd N in
  match env with
  | Some e => r = Err e.(reg_err) ∧ about fd N N' None (e.(reg_late) || is_registered N fd)
  | None => r = Ok fd ∧ about fd N N' (Some (Live a, f)) true
  end.
Proof.
  intros Hw Hv. unfold from_accepted, register. destruct env as [e|].
  { split; [done|]. pose proof (about_failed_entry e fd N Hw) as H1. eapply about_trans; [exact H1|].
    rewrite <-(ab_reg _ _ _ _ _ H1). apply about_close, H1. }
  split; [done|]. pose proof (about_registry fd N scheduled_io_new Hw) as H1. eapply about_trans; [exact H1|].
  pose proof (about_set_owner (Live a) fd _ (ab_wf _ _ _ _ _ H1)) as H2.
  rewrite (ab_view _ _ _ _ _ H1), (ab_reg _ _ _ _ _ H1), Hv in H2. exact H2.
Qed.

Lemma about_adopt env_nb env_reg fd N o f : wf N → view N fd = Some (o, f) →
  let '(N', r) := adopt env_nb env_reg fd N in
  match env_nb, env_reg with
  | None, None => r = Ok fd ∧ about fd N N' (Some (Live false, with_nonblocking true f)) true
  | None, Some e => r = Err e.(reg_err) ∧ about fd N N' None (e.(reg_late) || is_registered N fd)
  | Some e, _ => r = Err e ∧ about fd N N' None (is_registered N fd)
  end.
Proof.
  intros Hw Hv. unfold adopt, set_nonblocking. destruct env_nb as [e|].
  { split; [done|]. by apply about_close. }
  pose proof (about_on_sock (with_nonblocking true) fd N Hw) as H1. rewrite Hv in H1.
  pose proof (about_from_accepted env_reg false fd _ _ _ (ab_wf _ _ _ _ _ H1) (ab_view _ _ _ _ _ H1)) as H2.
  destruct (from_accepted _ _ _ _) as [N' r]. rewrite (ab_reg _ _ _ _ _ H1) in H2.
  destruct env_reg; destruct H2 as [-> H2]; (split; [done|]); by eapply about_trans.
Qed.

Lemma about_opened c nb o env_nb env_reg fd N : wf N →
  let '(N', r) := adopt env_nb env_reg fd (open_fd fd (mkSock nb c None) o N) in
  match env_nb, env_reg with
  | None, None => r = Ok fd ∧ about fd N N' (Some (Live false, mkSock true c None)) true
  | None, Some e => r = Err e.(reg_err) ∧ about fd N N' None (e.(reg_late) || is_registered N fd)
  | Some e, _ => r = Err e ∧ about fd N N' None (is_registered N fd)
  end.
Proof.
  intros Hw. pose proof (about_open fd (mkSock nb c None) o N Hw) as H1.
  pose proof (about_adopt env_nb env_reg fd _ _ _ (ab_wf _ _ _ _ _ H1) (ab_view _ _ _ _ _ H1)) as H2.
  destruct (adopt _ _ _ _) as [N' r]. rewrite (ab_reg _ _ _ _ _ H1) in H2.
  destruct env_nb, env_reg; destruct H2 as [-> H2]; (split; [done|]); by eapply about_trans.
Qed.

Lemma about_pending g env_reg o fd N o0 f : wf N → view N fd = Some (o0, f) →
  let '(N', r) := match register env_reg fd (on_sock g fd N) with
                  | (N, Err e) => (close_fd fd N, Err e)
                  | (N, Ok _) => (set_owner o fd N, Ok fd)
                  end in
  match env_reg with
  | Some e => r = Err e.(reg_err) ∧ about fd N N' None (e.(reg_late) || is_registered N fd)
  | None => r = Ok fd ∧ about fd N N' (Some (o, g f)) true
  end.
Proof.
  intros Hw Hv. pose proof (about_on_sock g fd N Hw) as H1. rewrite Hv in H1. destruct env_reg as [e|]; simpl.
  - split; [done|]. pose proof (about_trans _ _ _ _ _ _ _ _ H1 (about_failed_entry e fd _ (ab_wf _ _ _ _ _ H1))) as H2.
    eapply about_trans; [exact H2|]. rewrite <-(ab_reg _ _ _ _ _ H1), <-(ab_reg _ _ _ _ _ H2). apply about_close, H2.
  - split; [done|]. pose proof (about_trans _ _ _ _ _ _ _ _ H1 (about_registry fd _ scheduled_io_new (ab_wf _ _ _ _ _ H1))) as H2.
    eapply about_trans; [exact H2|]. pose proof (about_set_owner o fd _ (ab_wf _ _ _ _ _ H2)) as H3.
    by rewrite (ab_view _ _ _ _ _ H2), (ab_reg _ _ _ _ _ H2), (ab_view _ _ _ _ _ H1) in H3.
Qed.

Lemma about_connect_bare env env_reg fd N a f : wf N → view N fd = Some (Bare a, f) →
  let '(N', r) := connect_bare env env_reg fd N in
  match env, env_reg with
  | CErr e, _ => r = Err e ∧ about fd N N' None (is_registered N fd)
  | _, Some e => r = Err e.(reg_err) ∧ about fd N N' None (e.(reg_late) || is_registered N fd)
  | CNow, None => r = Ok fd ∧ about fd N N' (Some (Pend a, with_state Connected f)) true
  | CInProgress, None => r = Ok fd ∧ about fd N N' (Some (Pend a, with_state Connecting f)) true
  end.
Proof.
  intros Hw Hv. assert (match N.(fds) !! fd with Some (_, Bare b) => b | _ => false end = a) as Ha.
  { unfold view in Hv. destruct (fds N !! fd) as [[i o]|]; simpl in Hv; [|done]. destruct (files N !! i); by simplify_eq/=. }
  unfold connect_bare. rewrite Ha. destruct env as [| |e]; simpl; [| |split; [done|by apply about_close]].
  - pose proof (about_pending (with_state Connected) env_reg (Pend a) fd N _ _ Hw Hv) as H1. by destruct env_reg.
  - pose proof (about_pending (with_state Connecting) env_reg (Pend a) fd N _ _ Hw Hv) as H1. by destruct env_reg.
Qed.

Lemma view_owner fd N p : wf N → owned_by p fd N = true → ∃ o f, view N fd = Some (o, f) ∧ p o = true.
Proof.
  intros [Hf _]. unfold owned_by, view. destruct (fds N !! fd) as [[i o]|] eqn:E; [|done]. intros Hp.
  destruct (Hf _ _ _ E) as [_ [f Ef]]. exists o, f. simpl. by rewrite Ef.
Qed.

(** What one poll of a connect in progress comes to: it waits only for budget
    or for a cleared flag, and else takes the socket's error as it is then. *)
Lemma about_connect_poll env cx b fd N N' b' p ws : wf N →
  connect_poll env cx b fd N = Some (N', b', p, ws) →
  ∃ a f, view N fd = Some (Pend a, f) ∧
    let e := match env with Some e => Some e | None => f.(so_error) end in
    match p with
    | Pending => about fd N N' (Some (Pend a, f)) true
    | Ready (Ok fd') => fd' = fd ∧ e = None ∧ about fd N N' (Some (Live a, f)) true
    | Ready (Err e') => e = Some e' ∧ about fd N N' None true
    end.
Proof.
  intros Hw. unfold connect_poll. destruct (registry N !! fd) as [io|] eqn:Er; [|done].
  destruct (fds N !! fd) as [[i []]|] eqn:Ef; try done. destruct (wf_file _ Hw _ _ _ Ef) as [_ [f Hf]].
  assert (view N fd = Some (Pend adopted, f)) as Hv by (unfold view; rewrite Ef; simpl; by rewrite Hf).
  set (a := match env with Some e => Failed e | None => match f.(so_error) with Some e => Failed e | None => Done tt end end : attempt unit io_error).
  set (N1 := match env with Some _ => N | None => on_sock (with_error None) fd N end).
  assert (take_socket_error env fd N = (N1, a)) as ->.
  { unfold take_socket_error, take_error, N1, a. destruct env; [done|]. rewrite Ef, Hf. by destruct (so_error f). }
  assert (∃ f1, about fd N N1 (Some (Pend adopted, f1)) (is_registered N fd) ∧ (a = Done tt → f1 = f)) as (f1 & H1 & Hf1).
  { unfold N1, a. destruct env as [e|]; [exists f; by rewrite <-Hv; split; [apply about_refl|]|].
    exists (with_error None f). pose proof (about_on_sock (with_error None) fd N Hw) as H1. rewrite Hv in H1.
    split; [exact H1|]. destruct f as [n c [e|]]; by unfold with_error. }
  pose proof (λ io', about_trans _ _ _ _ _ _ _ _ H1 (about_registry fd N1 io' (ab_wf _ _ _ _ _ H1))) as H2.
  rewrite poll_io_answer. case_bool_decide.
  { intros [= <- <- <- <-]. exists adopted, f. split; [done|]. rewrite <-Hv. by apply about_registry. }
  simpl. destruct (writable io).
  - destruct a as [[]| |e'] eqn:Ea.
    + simpl; intros [= <- <- <- <-]. exists adopted, f. split; [done|]. unfold a in Ea. split; [done|].
      split; [by destruct env; [|destruct (so_error f)]|]. rewrite <-(Hf1 eq_refl). eapply about_trans; [apply H2|].
      pose proof (about_set_owner (Live adopted) fd _ (ab_wf _ _ _ _ _ (H2 io))) as H3.
      rewrite (ab_view _ _ _ _ _ (H2 io)), (ab_reg _ _ _ _ _ (H2 io)), (ab_view _ _ _ _ _ H1) in H3. exact H3.
    + unfold a in Ea. by destruct env; [|destruct (so_error f)].
    + simpl; intros [= <- <- <- <-]. exists adopted, f. split; [done|]. unfold a in Ea.
      split; [by destruct env; [|destruct (so_error f)]; simplify_eq|]. eapply about_trans; [apply (H2 io)|].
      rewrite <-(ab_reg _ _ _ _ _ (H2 io)). apply about_close, H2.
  - simpl; intros [= <- <- <- <-]. exists adopted, f. split; [done|]. rewrite <-Hv. by apply about_registry.
Qed.

(** ** Who is registered *)

(** A descriptor in use by the runtime is registered; so is one connecting; and
    but for those connected from an adopted bare socket they do not block. *)
Definition good (v : option (owner * sock_file)) (r : bool) : Prop :=
  match v with
  | Some (Live a, f) | Some (Pend a, f) => r = true ∧ (a = false → f.(nonblocking) = true)
  | Some (Bare false, f) => f.(nonblocking) = true
  | _ => True
  end.
Record net_inv (N : net) : Prop := { n_wf : wf N; n_good fd : good (view N fd) (is_registered N fd) }.

(** In the registry for nobody. *)
Definition stale (v : option (owner * sock_file)) (r : bool) : Prop :=
  r = true ∧ match v with Some (Live _, _) | Some (Pend _, _) => False | _ => True end.
Definition leaked (N : net) (fd : nat) : Prop := stale (view N fd) (is_registered N fd).

(** A step that leaves what it is about good, and stale only if it was, or if
    [P] excuses it. *)
Definition keeps (P : nat → Prop) (N N' : net) : Prop := net_inv N' ∧ ∀ fd, leaked N' fd → leaked N fd ∨ P fd.
(** The excuse of a failed registration. *)
Definition by_entry (env : option reg_error) (fd fd' : nat) : Prop := late env = true ∧ fd' = fd.
Definition none (fd : nat) : Prop := False.

Lemma about_inv fd N N' v r : net_inv N → about fd N N' v r → good v r → net_inv N'.
Proof.
  intros [Hw Hg] [Hw' Hv Hr Ho] Hgd. constructor; [done|]. intros fd'.
  destruct (decide (fd' = fd)) as [->|Hne]; [by rewrite Hv, Hr|].
  destruct (Ho _ Hne) as [-> E]. unfold is_registered. rewrite E. apply Hg.
Qed.
Lemma about_leaked fd N N' v r fd' : about fd N N' v r → leaked N' fd' → fd' ≠ fd ∧ leaked N fd' ∨ fd' = fd ∧ stale v r.
Proof.
  intros [_ Hv Hr Ho] Hl. destruct (decide (fd' = fd)) as [->|Hne]; [right; unfold leaked in Hl; by rewrite Hv, Hr in Hl|left].
  split; [done|]. destruct (Ho _ Hne) as [E1 E2]. unfold leaked, is_registered in *. by rewrite E1, E2 in Hl.
Qed.
Lemma about_keeps P fd N N' v r :
  net_inv N → about fd N N' v r → good v r → (stale v r → leaked N fd ∨ P fd) → keeps P N N'.
Proof.
  intros HI Ha Hg Hs. split; [by eapply about_inv|]. intros fd' Hl.
  destruct (about_leaked _ _ _ _ _ _ Ha Hl) as [[_ ?]|[-> ?%Hs]]; [by left|done].
Qed.
Lemma keeps_refl P N : net_inv N → keeps P N N.
Proof. split; [done|by left]. Qed.
Lemma keeps_trans P N N1 N2 : keeps P N N1 → keeps P N1 N2 → keeps P N N2.
Proof. intros [_ H1] [? H2]. split; [done|]. intros fd [?%H1|?]%H2; auto. Qed.
Lemma keeps_weaken (P Q : nat → Prop) N N' : (∀ fd, P fd → Q fd) → keeps P N N' → keeps Q N N'.
Proof. intros HPQ [? H]. split; [done|]. intros fd [?|?]%H; auto. Qed.
Lemma keeps_none P N N' : keeps none N N' → keeps P N N'.
Proof. by apply keeps_weaken. Qed.

(** A descriptor that was nobody's, or the program's, given up. *)
Lemma keeps_closed P fd N N' : net_inv N → about fd N N' None (is_registered N fd) →
  (is_registered N fd = true → leaked N fd) → keeps P N N'.
Proof. intros HI Ha Hl. eapply about_keeps; [done..|]. intros [? _]; auto. Qed.
Lemma keeps_refused e fd N N' : net_inv N → about fd N N' None (e.(reg_late) || is_registered N fd) →
  (is_registered N fd = true → leaked N fd) → keeps (by_entry (Some e) fd) N N'.
Proof.
  intros HI Ha Hl. eapply about_keeps; [done..|]. intros [[?|?]%orb_true_iff _]; [by right|left; auto].
Qed.
Lemma keeps_live P fd N N' a f : net_inv N → about fd N N' (Some (Live a, f)) true →
  (a = false → f.(nonblocking) = true) → keeps P N N'.
Proof. intros HI Ha Hf. eapply about_keeps; [done..| |]; [done|by intros []]. Qed.
Lemma keeps_pend P fd N N' a f : net_inv N → about fd N N' (Some (Pend a, f)) true →
  (a = false → f.(nonblocking) = true) → keeps P N N'.
Proof. intros HI Ha Hf. eapply about_keeps; [done..| |]; [done|by intros []]. Qed.

Lemma not_in_use fd N o f : view N fd = Some (o, f) → is_std o || is_bare o = true → is_registered N fd = true → leaked N fd.
Proof. unfold leaked. intros -> Ho ->. by destruct o. Qed.
Lemma free_view fd N : free fd N = true → view N fd = None.
Proof. unfold free, view. intros ->%bool_decide_eq_true. done. Qed.
Lemma not_open fd N : free fd N = true → is_registered N fd = true → leaked N fd.
Proof. unfold leaked. by intros ->%free_view ->. Qed.

Lemma keeps_opened c nb o env_nb env_reg fd N : net_inv N → free fd N = true →
  keeps (by_entry env_reg fd) N (adopt env_nb env_reg fd (open_fd fd (mkSock nb c None) o N)).1.
Proof.
  intros HI Hf. pose proof (about_opened c nb o env_nb env_reg fd N (n_wf _ HI)) as H1.
  destruct (adopt _ _ _ _) as [N' r]. destruct env_nb, env_reg; destruct H1 as [_ H1]; simpl.
  all: try first [eapply keeps_closed; [done..|by apply not_open]|eapply keeps_refused; [done..|by apply not_open]].
  by eapply keeps_live.
Qed.
Lemma keeps_adopt env_nb env_reg fd N o f : net_inv N → view N fd = Some (o, f) → is_std o || is_bare o = true →
  keeps (by_entry env_reg fd) N (adopt env_nb env_reg fd N).1.
Proof.
  intros HI Hv Ho. pose proof (about_adopt env_nb env_reg fd N _ _ (n_wf _ HI) Hv) as H1.
  destruct (adopt _ _ _ _) as [N' r]. destruct env_nb, env_reg; destruct H1 as [_ H1]; simpl.
  all: try first [eapply keeps_closed; [done..|by apply (not_in_use _ _ o f)]|eapply keeps_refused; [done..|by apply (not_in_use _ _ o f)]].
  by eapply keeps_live.
Qed.
Lemma keeps_close P fd N o f : net_inv N → view N fd = Some (o, f) → is_std o || is_bare o = true → keeps P N (close_fd fd N).
Proof. intros HI Hv Ho. eapply keeps_closed; [done|apply about_close, HI|by apply (not_in_use _ _ o f)]. Qed.
Lemma keeps_drop P fd N : net_inv N → keeps P N (drop_sock fd N).
Proof. intros HI. eapply about_keeps; [done|apply about_drop, HI|done|by intros []]. Qed.
Lemma keeps_bare P fd N : net_inv N → free fd N = true →
  keeps P N (open_fd fd (mkSock true Unconnected None) (Bare false) N) ∧
  view (open_fd fd (mkSock true Unconnected None) (Bare false) N) fd = Some (Bare false, mkSock true Unconnected None).
Proof.
  intros HI Hf. pose proof (about_open fd (mkSock true Unconnected None) (Bare false) N (n_wf _ HI)) as H1.
  split; [|apply H1]. eapply about_keeps; [done..|]. intros [? _]. left. by apply not_open.
Qed.
Lemma keeps_connect env env_reg fd N a f : net_inv N → view N fd = Some (Bare a, f) →
  keeps (by_entry env_reg fd) N (connect_bare env env_reg fd N).1.
Proof.
  intros HI Hv. pose proof (about_connect_bare env env_reg fd N _ _ (n_wf _ HI) Hv) as H1.
  pose proof (n_good _ HI fd) as Hg. rewrite Hv in Hg.
  destruct (connect_bare _ _ _ _) as [N' r]. destruct env, env_reg; destruct H1 as [_ H1]; simpl.
  all: try first [eapply keeps_closed; [done..|by apply (not_in_use _ _ (Bare a) f)]|eapply keeps_refused; [done..|by apply (not_in_use _ _ (Bare a) f)]].
  all: eapply keeps_pend; [done..|]; by intros ->.
Qed.
Lemma keeps_on_sock P g fd N : net_inv N → (∀ f, (g f).(nonblocking) = f.(nonblocking)) → keeps P N (on_sock g fd N).
Proof.
  intros HI Hg. pose proof (n_good _ HI fd) as Hgd. eapply about_keeps; [done|apply about_on_sock, HI| |].
  - destruct (view N fd) as [[[|[]| |] f]|]; simpl in *; rewrite ?Hg; done.
  - intros Hs. left. revert Hs. unfold leaked. by destruct (view N fd) as [[[] f]|].
Qed.

Lemma keeps_listen e1 e2 e3 fd N a f : net_inv N → view N fd = Some (Bare a, f) →
  keeps (by_entry e3 fd) N (listen e1 e2 e3 fd N).1.
Proof.
  intros HI Hv. unfold listen. destruct e1; simpl; [by eapply keeps_close|].
  pose proof (keeps_on_sock (by_entry e3 fd) (with_state Listening) fd N HI ltac:(done)) as H1.
  eapply keeps_trans; [exact H1|]. destruct H1 as [HI1 _]. pose proof (ab_view _ _ _ _ _ (about_on_sock (with_state Listening) fd N (n_wf _ HI))) as Hv1.
  rewrite Hv in Hv1. simpl in Hv1. by eapply keeps_adopt.
Qed.

Lemma keeps_accepted_pair e1 e2 e3 a b N : net_inv N → free a N = true → free b N = true → a ≠ b →
  keeps (λ fd, by_entry e2 a fd ∨ by_entry e3 b fd) N (pair_socks e1 e2 e3 a b N).1.
Proof.
  intros HI Ha Hb Hab. set (P := λ fd, by_entry e2 a fd ∨ by_entry e3 b fd).
  unfold pair_socks. destruct e1; simpl; [by apply keeps_refl|].
  set (f := mkSock true Connected None). set (Na := open_fd a f Std N).
  assert (about a N Na (Some (Std, f)) (is_registered N a)) as H1 by apply about_open, HI.
  assert (keeps P N Na) as K1 by (eapply about_keeps; [done..|]; intros [? _]; left; by apply not_open).
  set (Nb := open_fd b f Std Na).
  assert (about b Na Nb (Some (Std, f)) (is_registered Na b)) as H2 by apply about_open, H1.
  assert (free b Na = true) as Hb1.
  { unfold free in *. simpl. rewrite lookup_insert_ne by congruence. exact Hb. }
  assert (keeps P Na Nb) as K2 by (eapply about_keeps; [apply K1|done|done|]; intros [? _]; left; by apply not_open).
  assert (view Nb a = Some (Std, f)) as Va by (destruct (ab_others _ _ _ _ _ H2 a Hab) as [-> _]; apply H1).
  pose proof (about_from_accepted e2 false a Nb _ _ (ab_wf _ _ _ _ _ H2) Va) as H3.
  destruct (from_accepted e2 false a Nb) as [Nc r]. pose proof (keeps_trans _ _ _ _ K1 K2) as K.
  destruct e2 as [x2|]; destruct H3 as [-> H3]; simpl.
  - assert (keeps P Nb Nc) as K3.
    { eapply keeps_weaken, keeps_refused; [|apply K2|done|by apply (not_in_use _ _ Std f)]. by left. }
    eapply keeps_trans; [eapply keeps_trans; [exact K|exact K3]|]. eapply (keeps_close P b Nc Std f); [apply K3| |done].
    destruct (ab_others _ _ _ _ _ H3 b ltac:(done)) as [-> _]. apply H2.
  - assert (keeps P Nb Nc) as K3 by (eapply keeps_live; [apply K2|done|done]).
    pose proof (keeps_trans _ _ _ _ K K3) as K4.
    assert (view Nc b = Some (Std, f)) as Vb by (destruct (ab_others _ _ _ _ _ H3 b ltac:(done)) as [-> _]; apply H2).
    pose proof (about_from_accepted e3 false b Nc _ _ (ab_wf _ _ _ _ _ H3) Vb) as H4.
    destruct (from_accepted e3 false b Nc) as [Nd r]. destruct e3 as [x3|]; destruct H4 as [-> H4]; simpl.
    + assert (keeps P Nc Nd) as K5.
      { eapply keeps_weaken, keeps_refused; [|apply K3|done|by apply (not_in_use _ _ Std f)]. by right. }
      eapply keeps_trans; [eapply keeps_trans; [exact K4|exact K5]|]. apply keeps_drop, K5.
    + eapply keeps_trans; [exact K4|]. eapply keeps_live; [apply K3|done|done].
Qed.

(** What is handed out shares the file. *)
Lemma hand_out_ok fd fd' N o f : wf N → view N fd = Some (o, f) → free fd' N = true →
  let N' := hand_out fd fd' N in
  wf N' ∧ N'.(registry) = delete fd N.(registry) ∧
  ∀ x, view N' x = if bool_decide (x = fd) then None else
                   if bool_decide (x = fd') then Some (Std, f) else view N x.
Proof.
  intros [Hwf Hwi] Hv Ef'%bool_decide_eq_true. unfold view in Hv.
  destruct (fds N !! fd) as [[i o0]|] eqn:Ef; simpl in Hv; [|done].
  destruct (files N !! i) as [f0|] eqn:Efi; simplify_eq/=. assert (fd ≠ fd') as Hne by congruence.
  unfold hand_out. rewrite Ef. split; [|split; [done|]].
  - constructor; simpl.
    + intros x j o1 [_ [[<- [= <- <-]]|[_ E]]%lookup_insert_Some]%lookup_delete_Some; by eapply Hwf.
    + assert (∀ x o1, fds N !! x = Some (i, o1) → x = fd) as Hu by (intros; by eapply Hwi).
      intros x y j o1 o2 [? [[<- [= <- <-]]|[? E1]]%lookup_insert_Some]%lookup_delete_Some
        [? [[<- Hj]|[? E2]]%lookup_insert_Some]%lookup_delete_Some.
      * done.
      * by apply Hu in E2.
      * injection Hj as <- <-. by apply Hu in E1.
      * by eapply Hwi.
  - intros x. unfold view. simpl. case_bool_decide as H1; [subst; by rewrite lookup_delete_eq|].
    rewrite lookup_delete_ne by done. case_bool_decide as H2.
    + subst. rewrite lookup_insert_eq. simpl. by rewrite Efi.
    + by rewrite lookup_insert_ne.
Qed.

(** The duplicate is the program's own; the socket, whatever was done to its
    file, is gone. *)
Lemma keeps_hand_out P fd fd' N N1 a f r : net_inv N → free fd' N = true → free fd' N1 = true →
  about fd N N1 (Some (Live a, f)) r → keeps P N (hand_out fd fd' N1).
Proof.
  intros HI Hf Hf1 [Hw Hv Hr Ho]. destruct (hand_out_ok fd fd' N1 _ _ Hw Hv Hf1) as (Hw' & Er & Hvw).
  set (N' := hand_out fd fd' N1) in *.
  assert (∀ x, x ≠ fd → is_registered N' x = is_registered N x) as Hreg.
  { intros x Hx. unfold is_registered. rewrite Er, lookup_delete_ne by done. by destruct (Ho x Hx) as [_ ->]. }
  assert (is_registered N' fd = false) as Hfd.
  { unfold is_registered. rewrite Er, lookup_delete_eq. by rewrite bool_decide_eq_false_2 by (by intros []). }
  assert (∀ x, view N' x = if bool_decide (x = fd) then None else if bool_decide (x = fd') then Some (Std, f) else view N x) as Hvw'.
  { intros x. rewrite Hvw. case_bool_decide; [done|]. case_bool_decide; [done|]. by apply Ho. }
  clear Hvw. split; [constructor; [done|]|].
  - intros x. rewrite Hvw'. case_bool_decide as Hx; [done|]. case_bool_decide; [done|]. rewrite Hreg by done. apply HI.
  - intros x [Hrx Hs]. rewrite Hvw' in Hs. case_bool_decide as Hx; [subst; by rewrite Hfd in Hrx|].
    rewrite Hreg in Hrx by done. left. case_bool_decide as Hx'; [|by split]. subst. by apply not_open.
Qed.

Lemma free_on_sock g fd fd' N : free fd' (on_sock g fd N) = free fd' N.
Proof. unfold free, on_sock. by destruct (fds N !! fd) as [[]|]. Qed.

Lemma keeps_into_fd P e fd fd' N N1 a f r : net_inv N → free fd' N = true → free fd' N1 = true →
  about fd N N1 (Some (Live a, f)) r → keeps P N (into_nonblocking_fd e fd fd' N1).1.
Proof.
  intros HI Hf Hf1 Ha. destruct e; simpl; [|by eapply keeps_hand_out].
  eapply about_keeps; [done|eapply about_trans; [exact Ha|apply about_drop, Ha]|done|by intros []].
Qed.

(** The program flips its own socket. *)
Lemma keeps_std P b fd N f : net_inv N → view N fd = Some (Std, f) → keeps P N (on_sock (with_nonblocking b) fd N).
Proof.
  intros HI Hv. pose proof (about_on_sock (with_nonblocking b) fd N (n_wf _ HI)) as H1. rewrite Hv in H1.
  eapply about_keeps; [done|exact H1|done|]. intros [? _]. left. by apply (not_in_use _ _ Std f).
Qed.

Lemma keeps_into_std P e1 e2 e3 fd fd' N a f : net_inv N → view N fd = Some (Live a, f) → free fd' N = true →
  keeps P N (into_std e1 e2 e3 fd fd' N).1.
Proof.
  intros HI Hv Hf. unfold into_std. destruct e1; simpl; [by apply keeps_drop|].
  pose proof (about_on_sock (with_nonblocking false) fd N (n_wf _ HI)) as H1. rewrite Hv in H1.
  assert (free fd' (on_sock (with_nonblocking false) fd N) = true) as Hf1 by by rewrite free_on_sock.
  pose proof (keeps_into_fd P e2 fd fd' N _ _ _ _ HI Hf Hf1 H1) as K1. destruct e2; [exact K1|]. simpl in *.
  destruct e3; [exact K1|]. eapply keeps_trans; [exact K1|]. eapply keeps_std; [apply K1|].
  destruct (hand_out_ok fd fd' _ _ _ (ab_wf _ _ _ _ _ H1) (ab_view _ _ _ _ _ H1) Hf1) as (_ & _ & Hvw).
  rewrite Hvw, bool_decide_eq_false_2 by (intros ->; by rewrite (free_view _ _ Hf) in Hv). by rewrite bool_decide_eq_true_2.
Qed.

(** The moves that may leave a registration behind: the connects; and on
    Windows, those whose registration fails late. *)
Definition gives_up (m : move) (fd : nat) : Prop :=
  match m with MConnectPoll _ _ _ fd' | MConnectCancel fd' => fd' = fd | _ => False end.
Definition fails_late (m : move) (fd : nat) : Prop :=
  match m with
  | MBind _ _ e _ fd' | MFromStd _ e fd' | MAccept _ e fd' | MListen _ _ e fd' | MConnectBare _ e fd' | MConnectAddr _ _ e fd' =>
      by_entry e fd' fd
  | MPair _ e1 e2 a b => by_entry e1 a fd ∨ by_entry e2 b fd
  | _ => False
  end.

Lemma net_step m N N' : net_inv N → net_move m N = Some N' →
  net_inv N' ∧ ∀ fd, leaked N' fd → leaked N fd ∨ gives_up m fd ∨ fails_late m fd.
Proof.
  intros HI Hm. pose proof (n_wf _ HI) as Hw.
  assert (keeps (fails_late m) N N' → net_inv N' ∧ ∀ fd, leaked N' fd → leaked N fd ∨ gives_up m fd ∨ fails_late m fd) as Hk
    by (intros [? H]; split; [done|]; intros fd [?|?]%H; auto).
  destruct m as [e1 e2 e3 c fd|nb c fd|e1 e2 fd|e1 e2 fd|e1 e2 e3 a b|e fd|fd|e1 e2 e3 fd|c e fd|e1 c e2 fd|c fd|e cx b fd|fd|e1 e2 e3 fd fd'|e fd fd'|b fd|fd|fd|e fd|i fd]; cbn [net_move] in Hm.
  - destruct (free fd N) eqn:Ef; simplify_eq. apply Hk. unfold bind_sock. destruct e1; [by apply keeps_refl|by apply keeps_opened].
  - destruct (free fd N) eqn:Ef; simplify_eq. apply Hk. eapply about_keeps; [done|by apply about_open|done|].
    intros [? _]. left. by apply not_open.
  - destruct (owned_by _ fd N) eqn:Eo; simplify_eq. destruct (view_owner _ _ _ Hw Eo) as (o & f & Hv & Ho).
    apply Hk. eapply keeps_adopt; [done..|by rewrite Ho].
  - destruct (free fd N) eqn:Ef; simplify_eq. apply Hk. by apply keeps_opened.
  - destruct (free a N) eqn:Ea; [|done]. destruct (free b N) eqn:Eb; [|done]. simpl in Hm.
    case_bool_decide; [done|]. simplify_eq/=. apply Hk. by apply keeps_accepted_pair.
  - destruct (free fd N) eqn:Ef; simplify_eq. apply Hk. unfold new_socket. destruct e; [by apply keeps_refl|by apply keeps_bare].
  - destruct (owned_by _ fd N) eqn:Eo; simplify_eq. destruct (view_owner _ _ _ Hw Eo) as ([] & f & Hv & Ho); try done.
    apply Hk. pose proof (about_set_owner (Bare true) fd N Hw) as H1. rewrite Hv in H1.
    eapply about_keeps; [done|exact H1|done|]. intros [? _]. left. by apply (not_in_use _ _ Std f).
  - destruct (owned_by _ fd N) eqn:Eo; simplify_eq. destruct (view_owner _ _ _ Hw Eo) as ([] & f & Hv & Ho); try done.
    apply Hk. by eapply keeps_listen.
  - destruct (owned_by _ fd N) eqn:Eo; simplify_eq. destruct (view_owner _ _ _ Hw Eo) as ([] & f & Hv & Ho); try done.
    apply Hk. by eapply keeps_connect.
  - destruct (free fd N) eqn:Ef; simplify_eq. apply Hk. unfold connect_addr, new_socket. destruct e1; [by apply keeps_refl|].
    destruct (keeps_bare (by_entry e2 fd) fd N HI Ef) as [K1 V1]. eapply keeps_trans; [exact K1|]. eapply keeps_connect; [apply K1|exact V1].
  - destruct (owned_by _ fd N); simplify_eq. apply Hk. destruct c; simpl; [by apply keeps_on_sock..|by apply keeps_refl].
  - destruct (connect_poll e cx b fd N) as [[[[N1 b'] p] ws]|] eqn:Ep; simplify_eq.
    destruct (about_connect_poll _ _ _ _ _ _ _ _ _ Hw Ep) as (a & f & Hv & Hp). pose proof (n_good _ HI fd) as Hg. rewrite Hv in Hg.
    assert (∃ v, about fd N N' v true ∧ good v true) as (v & Ha & Hgv).
    { destruct p as [[fd'|e']|]; [destruct Hp as (_ & _ & Hp)|destruct Hp as (_ & Hp)|];
        (eexists; split; [exact Hp|]); try done; split; [done|apply Hg|done|apply Hg]. }
    split; [by eapply about_inv|]. intros fd' Hl. destruct (about_leaked _ _ _ _ _ _ Ha Hl) as [[_ ?]|[-> _]]; [by left|by right; left].
  - destruct (owned_by _ fd N) eqn:Eo; simplify_eq. pose proof (about_close fd N Hw) as Ha.
    split; [by eapply about_inv|]. intros fd' Hl. destruct (about_leaked _ _ _ _ _ _ Ha Hl) as [[_ ?]|[-> _]]; [by left|by right; left].
  - destruct (owned_by _ fd N) eqn:Eo; [|done]. destruct (free fd' N) eqn:Ef; simplify_eq/=.
    destruct (view_owner _ _ _ Hw Eo) as ([] & f & Hv & Ho); try done. apply Hk. by eapply keeps_into_std.
  - destruct (owned_by _ fd N) eqn:Eo; [|done]. destruct (free fd' N) eqn:Ef; simplify_eq/=.
    destruct (view_owner _ _ _ Hw Eo) as ([] & f & Hv & Ho); try done. apply Hk.
    eapply keeps_into_fd; [done..|rewrite <-Hv; by apply about_refl].
  - destruct (owned_by _ fd N) eqn:Eo; simplify_eq. destruct (view_owner _ _ _ Hw Eo) as ([] & f & Hv & Ho); try done.
    apply Hk. by eapply keeps_std.
  - destruct (owned_by is_live fd N) eqn:Eo; simplify_eq; [by apply Hk, keeps_drop|].
    destruct (owned_by (λ o, _) fd N) eqn:Eo2; simplify_eq. destruct (view_owner _ _ _ Hw Eo2) as (o & f & Hv & Ho).
    apply Hk. by eapply keeps_close.
  - destruct (owned_by _ fd N); simplify_eq. apply Hk. by apply keeps_on_sock.
  - destruct (owned_by _ fd N); simplify_eq. apply Hk. by apply keeps_on_sock.
  - destruct (registry N !! fd) as [io|] eqn:Er; [|done]. destruct (mark_ready i io) as [[[u io'] ws]|]; simplify_eq.
    assert (is_registered N fd = true) as Hr by (unfold is_registered; rewrite Er; by rewrite bool_decide_eq_true_2).
    pose proof (n_good _ HI fd) as Hg. rewrite Hr in Hg. apply Hk.
    eapply about_keeps; [done|by apply about_registry|done|]. intros Hs. left. unfold leaked. by rewrite Hr.
Qed.

Lemma net_reachable_inv N : net_reachable N → net_inv N.
Proof.
  apply invariant_reachable; [|intros N1 N2 H1 [m Hm]; by eapply net_step].
  intros ? ->. constructor; [constructor; simpl; intros *; by rewrite lookup_empty|done].
Qed.

(** C18: however sockets are bound, accepted, adopted, paired, connected, handed
    out and dropped, and whatever fails: a socket in use is registered, and its
    file does not block unless it was connected from a bare socket adopted from
    elsewhere; only a [connect] that fails once it has registered, or is
    dropped then, leaves a registration behind, and on Windows also a
    registration that fails in its first poll request; a socket dropped is closed and
    no longer registered; and [into_std] hands out a blocking descriptor of the
    same file and leaves none of its own. *)
Theorem sockets_accounted N :
  net_reachable N →
  (∀ fd a f, view N fd = Some (Live a, f) → is_registered N fd = true ∧ (a = false → f.(nonblocking) = true)) ∧
  (∀ m N' fd, net_move m N = Some N' → leaked N' fd → leaked N fd ∨ gives_up m fd ∨ fails_late m fd) ∧
  (∀ fd N', owned_by is_live fd N = true → net_move (MDrop fd) N = Some N' → view N' fd = None ∧ is_registered N' fd = false) ∧
  (∀ env fd fd' N', net_move (MIntoStd None None env fd fd') N = Some N' →
     (∃ a f, view N fd = Some (Live a, f) ∧ view N' fd' = Some (Std, with_nonblocking false f)) ∧
     view N' fd = None ∧ is_registered N' fd = false).
Proof.
  intros HI%net_reachable_inv. pose proof (n_wf _ HI) as Hw. split; [|split; [|split]].
  - intros fd a f Hv. pose proof (n_good _ HI fd) as Hg. by rewrite Hv in Hg.
  - intros m N' fd Hm. by apply (net_step m N N').
  - intros fd N' Ho. simpl. rewrite Ho. intros [= <-]. pose proof (about_drop fd N Hw) as [_ ? ? _]. done.
  - intros env fd fd' N'. simpl. destruct (owned_by is_live fd N) eqn:Eo; [|done]. destruct (free fd' N) eqn:Ef; [|done].
    destruct (view_owner _ _ _ Hw Eo) as ([| | |a] & f & Hv & Ho); try done.
    pose proof (about_on_sock (with_nonblocking false) fd N Hw) as H1. rewrite Hv in H1.
    unfold into_std. simpl. destruct (hand_out_ok fd fd' _ _ _ (ab_wf _ _ _ _ _ H1) (ab_view _ _ _ _ _ H1)) as (Hw' & Er & Hvw);
      [by rewrite free_on_sock|]. set (N2 := hand_out _ _ _) in *. intros [= <-].
    assert (fd ≠ fd') as Hne by (intros <-; by rewrite (free_view _ _ Ef) in Hv).
    assert (about fd' N2 (set_nonblocking env false fd' N2).1 (Some (Std, with_nonblocking false f)) (is_registered N2 fd')) as [_ H3 _ Ho3].
    { assert (view N2 fd' = Some (Std, with_nonblocking false f)) as Hv2.
      { rewrite Hvw. by rewrite bool_decide_eq_false_2, bool_decide_eq_true_2. }
      destruct env; simpl; [rewrite <-Hv2; by apply about_refl|].
      pose proof (about_on_sock (with_nonblocking false) fd' N2 Hw') as H3. by rewrite Hv2 in H3. }
    destruct (Ho3 fd Hne) as [Hv3 Er3]. split; [by exists a, f|]. split.
    + rewrite Hv3, Hvw. by rewrite bool_decide_eq_true_2.
    + unfold is_registered. rewrite Er3, Er, lookup_delete_eq. by rewrite bool_decide_eq_false_2 by (by intros []).
Qed.

(** ** Connecting too soon *)

Lemma connect_bare_registry env fd N N' : connect_bare env None fd N = (N', Ok fd) → N'.(registry) !! fd = Some scheduled_io_new.
Proof.
  unfold connect_bare. destruct env; simpl; intros [= <-]; simpl; [by rewrite lookup_insert_eq..].
Qed.

(** With budget and the flag up, the socket's error is the answer. *)
Lemma connect_poll_now cx b fd N a f io :
  view N fd = Some (Pend a, f) → N.(registry) !! fd = Some io → io.(writable) = true → b ≠ Some 0 →
  ∃ N', connect_poll None cx b fd N =
    Some (N', (λ n, n - 1) <$> b, match f.(so_error) with None => Ready (Ok fd) | Some e => Ready (Err e) end, []).
Proof.
  unfold view. intros Hv Er Hw Hb. unfold connect_poll. rewrite Er.
  destruct (fds N !! fd) as [[i o]|] eqn:Ef; simpl in Hv; [|done]. destruct (files N !! i) as [f0|] eqn:Ei; simplify_eq/=.
  unfold take_socket_error, take_error. rewrite Ef, Ei.
  destruct (so_error f) as [e|]; rewrite poll_io_answer, bool_decide_eq_false_2 by done; simpl; rewrite Hw; by eexists.
Qed.

(** C35: [connect] does not wait for the handshake.  With a connect in progress
    and budget to poll with, its first poll resolves with a stream that is
    still connecting, since a new registration is taken to be writable and a
    socket that is still connecting has no error yet; an address that refuses
    later is not tried past. *)
Theorem connect_premature N fd cx b rest :
  net_reachable N → free fd N = true → b ≠ Some 0 →
  ∃ N1 N2, connect_addr None CInProgress None fd N = (N1, Ok fd) ∧
    connect_poll None cx b fd N1 = Some (N2, (λ n, n - 1) <$> b, Ready (Ok fd), []) ∧
    view N2 fd = Some (Live false, mkSock true Connecting None) ∧ is_registered N2 fd = true ∧
    try_each None (Ok fd :: rest) = Ok fd.
Proof.
  intros HI%net_reachable_inv Hf Hb.
  destruct (keeps_bare none fd N HI Hf) as [[HI0 _] V0]. set (N0 := open_fd fd (mkSock true Unconnected None) (Bare false) N) in *.
  pose proof (about_connect_bare CInProgress None fd N0 _ _ (n_wf _ HI0) V0) as H1.
  unfold connect_addr, new_socket. fold N0.
  destruct (connect_bare CInProgress None fd N0) as [N1 r] eqn:E1. destruct H1 as [-> H1].
  destruct (connect_poll_now cx b fd N1 _ _ _ (ab_view _ _ _ _ _ H1) (connect_bare_registry _ _ _ _ E1) eq_refl Hb) as [N2 E2].
  simpl in E2. destruct (about_connect_poll _ _ _ _ _ _ _ _ _ (ab_wf _ _ _ _ _ H1) E2) as (a & f & Hv & _ & _ & H2).
  rewrite (ab_view _ _ _ _ _ H1) in Hv. simplify_eq/=. exists N1, N2. split; [done|]. split; [done|]. split; [apply H2|]. split; [apply H2|done].
Qed.

(** Over several addresses, [connect], [bind_addrs] and [connect_addrs]
    give the first success, whatever failed before it; with none, the last
    address's error; and with no address at all, [InvalidInput]. *)
Theorem try_each_answer {A} (outcomes : list (result A io_error)) :
  (∀ a, try_each None outcomes = Ok a ↔ ∃ es rest, outcomes = map Err es ++ Ok a :: rest) ∧
  (∀ e, try_each None outcomes = Err e ↔
     ∃ es, outcomes = map Err es ∧ e = default InvalidInput (last es)).
Proof.
  assert (∀ l (outcomes : list (result A io_error)),
    (∀ a, try_each l outcomes = Ok a ↔ ∃ es rest, outcomes = map Err es ++ Ok a :: rest) ∧
    (∀ e, try_each l outcomes = Err e ↔
      ∃ es, outcomes = map Err es ∧ e = default InvalidInput (last (option_list l ++ es)))) as H; [|by apply (H None)].
  clear. intros l outcomes. revert l. induction outcomes as [|[a|e] outcomes IH]; intros l; simpl.
  - split; [intros a; split; [done|by intros ([] & ? & ?)]|]. intros e. split.
    + intros [= <-]. exists []. split; [done|]. rewrite app_nil_r. by destruct l.
    + intros ([] & ? & ->); [|done]. rewrite app_nil_r. by destruct l.
  - split; [|intros e; split; [done|by intros ([] & ? & ?)]]. intros a'. split.
    + intros [= <-]. by exists [], outcomes.
    + by intros ([] & ? & ?); simplify_eq/=.
  - destruct (IH (Some e)) as [H1 H2]. split.
    + intros a. rewrite H1. split; [intros (es & rest & ->); by exists (e :: es), rest|].
      intros ([|e' es] & rest & ?); simplify_eq/=. by exists es, rest.
    + intros e'. rewrite H2. split.
      * intros (es & -> & ->). exists (e :: es). split; [done|]. f_equal. simpl.
        change (e :: es) with ([e] ++ es). by destruct l.
      * intros ([|e2 es] & ? & ->); simplify_eq/=. exists es. split; [done|]. f_equal.
        change (e2 :: es) with ([e2] ++ es). by destruct l.
Qed.

Lemma net_init_reachable : net_reachable net_init.
Proof. by apply reachable_init. Qed.

Lemma connect_premature_witness :
  net_reachable net_init ∧ free 5 net_init = true ∧
  ∃ N1 N2, connect_addr None CInProgress None 5 net_init = (N1, Ok 5%nat) ∧
    connect_poll None 7 (Some 128) 5 N1 = Some (N2, Some 127, Ready (Ok 5%nat), []) ∧
    (snd <$> view N2 5) = Some (mkSock true Connecting None).
Proof.
  split; [exact net_init_reachable|]. split; [done|].
  destruct (connect_premature net_init 5 7%nat (Some 128) [] net_init_reachable eq_refl ltac:(discriminate)) as (N1 & N2 & E1 & E2 & Hv & _ & _).
  exists N1, N2. split; [exact E1|]. split; [exact E2|]. by rewrite Hv.
Defined.

Definition run (ms : list move) : option net := run_moves net_move ms net_init.

Lemma run_reachable ms N : run ms = Some N → net_reachable N.
Proof.
  intros E. exists net_init. split; [done|]. eapply run_moves_rtc; [|exact E]. intros m c c' ?. by exists m.
Qed.

(** A listener bound, and handed out as a [std] one. *)
Lemma sockets_accounted_witness :
  match run [MBind None None None Listening 3; MIntoStd None None None 3 4] with
  | Some N => net_reachable N ∧ ¬ leaked N 3 ∧ (∀ N', net_move (MDrop 4) N = Some N' → ¬ leaked N' 4)
  | None => False
  end.
Proof.
  destruct (run _) as [N|] eqn:E; [|by vm_compute in E]. pose proof (run_reachable _ _ E) as HR.
  destruct (sockets_accounted N HR) as (_ & Hl & _ & _).
  assert (is_registered N 3 = false ∧ is_registered N 4 = false) as [H3 H4] by (vm_compute in E; injection E as <-; done).
  split; [done|]. split; [intros [? _]; congruence|].
  intros N' Hm Hl'. destruct (Hl _ _ _ Hm Hl') as [[? _]|[Hg|Hg]]; [congruence|exact Hg..].
Defined.

(** A connect that is refused before its first poll, or given up before it for
    want of budget, closes its descriptor and leaves it in the registry. *)
Example connect_leaks :
  (match run [MConnectAddr None CInProgress None 5; MRefused (OsError 111) 5; MConnectPoll None 7 None 5] with
   | Some N => view N 5 = None ∧ is_registered N 5 = true
   | None => False
   end) ∧
  match run [MConnectAddr None CInProgress None 5; MConnectPoll None 7 (Some 0) 5; MConnectCancel 5] with
  | Some N => view N 5 = None ∧ is_registered N 5 = true
  | None => False
  end.
Proof. done. Qed.

(** On Windows: the first poll request of a listener's registration fails. *)
Example late_register_leaks :
  match run [MBind None None (Some (mkRegError (OsError 10024) true)) Listening 5] with
  | Some N => view N 5 = None ∧ is_registered N 5 = true
  | None => False
  end.
Proof. done. Qed.

(** A bare socket adopted from elsewhere may block, and connecting it does not
    change that: the stream's reads then block the thread that polls them. *)
Example adopted_blocks :
  match run [MStd false Unconnected 5; MAdoptBare 5; MConnectBare CNow None 5; MConnectPoll None 7 None 5] with
  | Some N => view N 5 = Some (Live true, mkSock false Connected None)
  | None => False
  end.
Proof. done. Qed.

(** ** Owned halves ([into_split] and [reunite]) *)

Module Halves.

(** The allocations: how many references there are to each, and its stream. *)
Record arcs := mkArcs { heap : gmap nat (nat * nat); dropped : list nat }.

(** A half is a reference to one; [into_split] makes two. *)
Definition into_split (id fd : nat) (A : arcs) : arcs * (nat * nat) :=
  (mkArcs (<[id := (2%nat, fd)]> A.(heap)) A.(dropped), (id, id)).

(** The last reference drops the stream. *)
Definition drop_half (h : nat) (A : arcs) : arcs :=
  match A.(heap) !! h with
  | Some (S (S n), fd) => mkArcs (<[h := (S n, fd)]> A.(heap)) A.(dropped)
  | Some (_, fd) => mkArcs (delete h A.(heap)) (fd :: A.(dropped))
  | None => A
  end.
(** [None] is the [unreachable!] of [try_unwrap]. *)
Definition reunite (read write : nat) (A : arcs) : option (arcs * result nat (nat * nat)) :=
  if bool_decide (read = write) then
    let A := drop_half write A in
    match A.(heap) !! read with
    | Some (1%nat, fd) => Some (mkArcs (delete read A.(heap)) A.(dropped), Ok fd)
    | _ => None
    end
  else Some (A, Err (read, write)).

(** The program holds the halves, by their ends, and the streams. *)
Record world := mkWorld { arcs_of : arcs; reads : gset nat; writes : gset nat; streams : list nat }.

Inductive move :=
| MSplit (id fd : nat) (rest : list nat)
| MDropRead (h : nat)
| MDropWrite (h : nat)
| MReunite (r w : nat).

Definition half_move (m : move) (W : world) : option world :=
  match m with
  | MSplit id fd rest =>
      if bool_decide (W.(arcs_of).(heap) !! id = None) && bool_decide (W.(streams) = fd :: rest) then
        let '(A, (r, w)) := into_split id fd W.(arcs_of) in
        Some (mkWorld A ({[r]} ∪ W.(reads)) ({[w]} ∪ W.(writes)) rest)
      else None
  | MDropRead h =>
      if bool_decide (h ∈ W.(reads)) then Some (mkWorld (drop_half h W.(arcs_of)) (W.(reads) ∖ {[h]}) W.(writes) W.(streams)) else None
  | MDropWrite h =>
      if bool_decide (h ∈ W.(writes)) then Some (mkWorld (drop_half h W.(arcs_of)) W.(reads) (W.(writes) ∖ {[h]}) W.(streams)) else None
  | MReunite r w =>
      if bool_decide (r ∈ W.(reads)) && bool_decide (w ∈ W.(writes)) then
        match reunite r w W.(arcs_of) with
        | Some (A, Ok fd) => Some (mkWorld A (W.(reads) ∖ {[r]}) (W.(writes) ∖ {[w]}) (fd :: W.(streams)))
        | Some (A, Err _) => Some (mkWorld A W.(reads) W.(writes) W.(streams))
        | None => None
        end
      else None
  end.

Definition half_init (fds : list nat) : world := mkWorld (mkArcs ∅ []) ∅ ∅ fds.
Definition half_reachable (fds : list nat) : world → Prop := reachable (.= half_init fds) (moves half_move).

Definition ends (h : nat) (W : world) : nat := Nat.b2n (bool_decide (h ∈ W.(reads))) + Nat.b2n (bool_decide (h ∈ W.(writes))).
(** The streams inside allocations. *)
Definition held (m : gmap nat (nat * nat)) : list nat := (λ p, p.2.2) <$> map_to_list m.

Record half_inv (fds : list nat) (W : world) : Prop := {
  h_count h : match W.(arcs_of).(heap) !! h with Some (n, _) => n = ends h W ∧ (0 < n)%nat | None => ends h W = 0%nat end;
  h_streams : fds ≡ₚ W.(streams) ++ held W.(arcs_of).(heap) ++ W.(arcs_of).(dropped);
}.

Lemma held_insert m h n fd : m !! h = None → held (<[h := (n, fd)]> m) ≡ₚ fd :: held m.
Proof. intros Hn. unfold held. by rewrite map_to_list_insert. Qed.
Lemma held_delete m h n fd : m !! h = Some (n, fd) → held m ≡ₚ fd :: held (delete h m).
Proof. intros E. unfold held. by rewrite <-(map_to_list_delete m h (n, fd)). Qed.
Lemma held_update m h n n' fd : m !! h = Some (n, fd) → held (<[h := (n', fd)]> m) ≡ₚ held m.
Proof.
  intros E. rewrite (held_delete m h n fd E), <-insert_delete_eq. apply held_insert. by rewrite lookup_delete_eq.
Qed.

Lemma drop_half_heap h A n fd : A.(heap) !! h = Some (n, fd) → (0 < n)%nat →
  (drop_half h A).(heap) = (if (n =? 1)%nat then delete h A.(heap) else <[h := (pred n, fd)]> A.(heap)) ∧
  (drop_half h A).(dropped) = (if (n =? 1)%nat then [fd] else []) ++ A.(dropped).
Proof. intros E Hn. unfold drop_half. rewrite E. by destruct n as [|[|n]]; [lia|..]. Qed.

Lemma drop_half_held h A n fd : A.(heap) !! h = Some (n, fd) → (0 < n)%nat →
  held (drop_half h A).(heap) ++ (drop_half h A).(dropped) ≡ₚ held A.(heap) ++ A.(dropped).
Proof.
  intros E Hn. destruct (drop_half_heap h A n fd E Hn) as [-> ->]. destruct (n =? 1)%nat.
  - rewrite (held_delete _ _ _ _ E). simpl. by rewrite Permutation_middle.
  - by rewrite (held_update _ _ _ _ _ E).
Qed.

(** Dropping an end that is held. *)
Lemma drop_half_inv fds W W' h :
  half_inv fds W → (0 < ends h W)%nat → W'.(arcs_of) = drop_half h W.(arcs_of) → W'.(streams) = W.(streams) →
  (∀ h', ends h' W' = if bool_decide (h' = h) then pred (ends h W) else ends h' W) → half_inv fds W'.
Proof.
  intros [Hc Hs] He Ea Es Hends. pose proof (Hc h) as Hh.
  destruct (heap (arcs_of W) !! h) as [[n fd]|] eqn:E; [|lia]. destruct Hh as [Hn H0].
  destruct (drop_half_heap h _ n fd E H0) as [Eh Ed]. constructor.
  - intros h'. rewrite Ea, Eh, Hends. case_bool_decide as Hne; [subst h'|].
    + destruct (Nat.eqb_spec n 1); [rewrite lookup_delete_eq; lia|rewrite lookup_insert_eq; lia].
    + specialize (Hc h'). destruct (n =? 1)%nat; [by rewrite lookup_delete_ne|by rewrite lookup_insert_ne].
  - rewrite Ea, Es, (drop_half_held _ _ _ _ E H0). exact Hs.
Qed.

Lemma reunite_same fds W h :
  half_inv fds W → h ∈ W.(reads) → h ∈ W.(writes) →
  ∃ fd, W.(arcs_of).(heap) !! h = Some (2%nat, fd) ∧
    reunite h h W.(arcs_of) = Some (mkArcs (delete h W.(arcs_of).(heap)) W.(arcs_of).(dropped), Ok fd).
Proof.
  intros [Hc _] Hr Hw. specialize (Hc h). unfold ends in Hc. rewrite !bool_decide_eq_true_2 in Hc by done.
  destruct (heap (arcs_of W) !! h) as [[n fd]|] eqn:E; simpl in Hc; [|lia]. destruct Hc as [-> _]. exists fd. split; [done|].
  unfold reunite. rewrite bool_decide_eq_true_2 by done.
  destruct (drop_half_heap h _ 2 fd E ltac:(lia)) as [Eh Ed]. rewrite Eh, Ed. simpl. rewrite lookup_insert_eq. simpl. by rewrite delete_insert_eq.
Qed.

Lemma b2n_minus (h h' : nat) (s : gset nat) :
  Nat.b2n (bool_decide (h' ∈ s ∖ {[h]})) = if bool_decide (h' = h) then 0%nat else Nat.b2n (bool_decide (h' ∈ s)).
Proof.
  destruct (decide (h' = h)) as [->|Hne].
  - rewrite (bool_decide_eq_true_2 (h = h)) by done. by rewrite bool_decide_eq_false_2 by set_solver.
  - rewrite (bool_decide_eq_false_2 (h' = h)) by done. f_equal. apply bool_decide_ext. set_solver.
Qed.
Lemma b2n_plus (h h' : nat) (s : gset nat) :
  Nat.b2n (bool_decide (h' ∈ {[h]} ∪ s)) = if bool_decide (h' = h) then 1%nat else Nat.b2n (bool_decide (h' ∈ s)).
Proof.
  destruct (decide (h' = h)) as [->|Hne].
  - rewrite (bool_decide_eq_true_2 (h = h)) by done. by rewrite bool_decide_eq_true_2 by set_solver.
  - rewrite (bool_decide_eq_false_2 (h' = h)) by done. f_equal. apply bool_decide_ext. set_solver.
Qed.
Lemma b2n_in (h : nat) (s : gset nat) : h ∈ s → Nat.b2n (bool_decide (h ∈ s)) = 1%nat.
Proof. intros. by rewrite bool_decide_eq_true_2. Qed.

Ltac same x y :=
  destruct (decide (x = y)) as [->|];
  [rewrite !(bool_decide_eq_true_2 (y = y)) by done|rewrite !(bool_decide_eq_false_2 (x = y)) by done].

Lemma half_inv_step fds m W W' : half_inv fds W → half_move m W = Some W' → half_inv fds W'.
Proof.
  intros HI Hm. destruct m as [id fd rest|h|h|r w]; simpl in Hm.
  - destruct (bool_decide _) eqn:E1; [|done]. destruct (bool_decide (streams W = _)) eqn:E2; [|done]. simplify_eq/=.
    apply bool_decide_eq_true in E1, E2. destruct HI as [Hc Hs]. constructor; simpl.
    + intros h. specialize (Hc h). unfold ends in *. simpl. rewrite !b2n_plus. same h id.
      * rewrite lookup_insert_eq. lia.
      * by rewrite lookup_insert_ne.
    + rewrite Hs, E2, (held_insert _ _ _ _ E1). simpl. by rewrite Permutation_middle.
  - case_bool_decide as Hin; [|done]. injection Hm as <-. apply b2n_in in Hin.
    eapply drop_half_inv; [done| |done..|]; unfold ends; simpl; [lia|].
    intros h'. rewrite b2n_minus. same h' h; lia.
  - case_bool_decide as Hin; [|done]. injection Hm as <-. apply b2n_in in Hin.
    eapply drop_half_inv; [done| |done..|]; unfold ends; simpl; [lia|].
    intros h'. rewrite b2n_minus. same h' h; lia.
  - case_bool_decide as Hr; [|done]. case_bool_decide as Hw; [|done]. simpl in Hm.
    destruct (decide (r = w)) as [<-|Hne].
    + destruct (reunite_same fds W r HI Hr Hw) as (fd & Eh & E). rewrite E in Hm. injection Hm as <-.
      destruct HI as [Hc Hs]. constructor; simpl.
      * intros h. specialize (Hc h). unfold ends in *. simpl. rewrite !b2n_minus. same h r.
        -- by rewrite lookup_delete_eq.
        -- by rewrite lookup_delete_ne.
      * rewrite Hs, (held_delete _ _ _ _ Eh). simpl. symmetry. apply Permutation_middle.
    + unfold reunite in Hm. rewrite bool_decide_eq_false_2 in Hm by done. injection Hm as <-. by destruct W.
Qed.

Lemma half_reachable_inv fds W : half_reachable fds W → half_inv fds W.
Proof.
  apply invariant_reachable; [|intros W1 W2 H1 [m Hm]; by eapply half_inv_step].
  intros ? ->. constructor; simpl; [intros h; by rewrite lookup_empty|]. unfold held. rewrite map_to_list_empty. simpl. by rewrite app_nil_r.
Qed.

(** Reuniting the two halves of one [into_split] gives its stream back -
    the [unreachable!] is not reached - and reuniting others gives both halves
    back with nothing changed; no stream is lost or dropped twice: each is
    whole, in an allocation some half refers to, or dropped, once. *)
Theorem halves_reunite fds W :
  half_reachable fds W →
  (∀ h, h ∈ W.(reads) → h ∈ W.(writes) →
     ∃ fd, W.(arcs_of).(heap) !! h = Some (2%nat, fd) ∧
       reunite h h W.(arcs_of) = Some (mkArcs (delete h W.(arcs_of).(heap)) W.(arcs_of).(dropped), Ok fd)) ∧
  (∀ r w, r ≠ w → reunite r w W.(arcs_of) = Some (W.(arcs_of), Err (r, w))) ∧
  fds ≡ₚ W.(streams) ++ held W.(arcs_of).(heap) ++ W.(arcs_of).(dropped) ∧
  (∀ h n fd, W.(arcs_of).(heap) !! h = Some (n, fd) → h ∈ W.(reads) ∨ h ∈ W.(writes)).
Proof.
  intros HI%half_reachable_inv. split; [intros h; by eapply reunite_same|]. split; [|split; [apply HI|]].
  - intros r w Hne. unfold reunite. by rewrite bool_decide_eq_false_2.
  - intros h n fd E. pose proof (h_count _ _ HI h) as Hc. rewrite E in Hc. destruct Hc as [Hn H0]. unfold ends in Hn.
    destruct (decide (h ∈ W.(reads))); [by left|]. destruct (decide (h ∈ W.(writes))); [by right|].
    rewrite !bool_decide_eq_false_2 in Hn by done. simpl in Hn. lia.
Qed.

(** Split, and reunited. *)
Lemma halves_reunite_witness :
  match run_moves half_move [MSplit 0 5 [6]] (half_init [5; 6]) with
  | Some W => half_reachable [5; 6] W ∧ ∃ A fd, reunite 0 0 W.(arcs_of) = Some (A, Ok fd) ∧ reunite 0 1 W.(arcs_of) = Some (W.(arcs_of), Err (0, 1))
  | None => False
  end%nat.
Proof.
  destruct (run_moves half_move [MSplit 0 5 [6%nat]] (half_init [5; 6]%nat)) as [W|] eqn:E; [|by vm_compute in E].
  assert (half_reachable [5; 6]%nat W) as HR.
  { exists (half_init [5; 6]%nat). split; [done|]. eapply run_moves_rtc; [|exact E]. intros m c c' ?. by exists m. }
  split; [exact HR|]. destruct (halves_reunite _ W HR) as (H1 & H2 & _).
  assert (0%nat ∈ W.(reads) ∧ 0%nat ∈ W.(writes)) as [Hr Hw] by (vm_compute in E; injection E as <-; simpl; set_solver).
  destruct (H1 0%nat Hr Hw) as (fd & _ & E'). exists (mkArcs (delete 0%nat W.(arcs_of).(heap)) W.(arcs_of).(dropped)), fd.
  split; [exact E'|]. by apply H2.
Defined.
End Halves.
