(* ===== verification/Sockets.v ===== *)
(** The socket and pipe types, operation by operation ([src/src/io/tcp.rs],
    [udp.rs], [unix.rs], [unix_datagram.rs], [pipe.rs]): what each constructor
    does to the descriptors of [Net], in the order it does it, and that
    together they are moves of [Net]. *)

From S2P Require Import Prelude Coop AsyncIo Readiness Net.

Definition outcome : Type := net * result nat io_error.

(** [bind_addrs] and [connect_addrs]: one address after the other. *)
Fixpoint try_addrs {A} (attempt : A → net → outcome) (last_err : option io_error) (addrs : list A) (N : net) : outcome :=
  match addrs with
  | [] => (N, Err (default InvalidInput last_err))
  | a :: addrs =>
      match attempt a N with
      | (N, Ok fd) => (N, Ok fd)
      | (N, Err e) => try_addrs attempt (Some e) addrs N
      end
  end.

(** [expect]: [None] is its panic, once it has unwound. *)
Definition expect (o : outcome) : net * option nat := (o.1, match o.2 with Ok fd => Some fd | Err _ => None end).

Record bind_env := mkBindEnv { be_bind : option io_error; be_nb : option io_error; be_reg : option reg_error; be_fd : nat }.

(** The futures of [connect]: a poll gives their budget back, their answer and
    the wakers called. *)
Definition polled : Type := net * BUDGET * poll (result nat io_error) * list waker.
(** The first poll: what comes before the [await], then that, at once. *)
Definition connect_first (start : outcome) (env_take : option io_error) (cx : waker) (b : BUDGET) : option polled :=
  match start with
  | (N, Err e) => Some (N, b, Ready (Err e), [])
  | (N, Ok fd) => connect_poll env_take cx b fd N
  end.
(** What the calls about one address answer, and its socket. *)
Record addr_env := mkAddrEnv {
  ae_socket : option io_error; ae_connect : connected; ae_reg : option reg_error; ae_take : option io_error; ae_fd : nat;
}.

Module TcpListener.
Definition bind (e : bind_env) (N : net) : outcome :=
  bind_sock e.(be_bind) e.(be_nb) e.(be_reg) Listening e.(be_fd) N.
Definition bind_addrs (addrs : list bind_env) (N : net) : outcome := try_addrs bind None addrs N.
(** [poll_accept], on what [poll_io] made of [accept]. *)
Definition poll_accept (r : poll (result nat io_error)) (env_nb : option io_error) (env_reg : option reg_error) (N : net) : net * poll (result nat io_error) :=
  match r with
  | Pending => (N, Pending)
  | Ready (Err e) => (N, Ready (Err e))
  | Ready (Ok fd) =>
      match accepted env_nb env_reg fd N with (N, r) => (N, Ready r) end
  end.
Definition from_std := Net.from_std.
Definition into_std := Net.into_std.
Definition drop := drop_sock.
(** [FromRawFd] and [IntoRawFd]. *)
Definition from_raw_fd (env_nb : option io_error) (env_reg : option reg_error) (fd : nat) (N : net) : net * option nat :=
  expect (from_std env_nb env_reg fd N).
Definition into_raw_fd (env_nb env_dup env_again : option io_error) (fd fd' : nat) (N : net) : net * option nat :=
  expect (into_std env_nb env_dup env_again fd fd' N).
End TcpListener.

Module TcpStream.
(** [connect_addr] up to its end or its first suspension. *)
Definition connect_addr (a : addr_env) (cx : waker) (b : BUDGET) (N : net) : option polled :=
  connect_first (Net.connect_addr a.(ae_socket) a.(ae_connect) a.(ae_reg) a.(ae_fd) N) a.(ae_take) cx b.
(** [connect], from the addresses that are left; when it is suspended, the
    socket it waits for and the addresses after it. *)
Fixpoint connect (last_err : option io_error) (addrs : list addr_env) (cx : waker) (b : BUDGET) (N : net)
    : option (polled * option (nat * list addr_env)) :=
  match addrs with
  | [] => Some ((N, b, Ready (Err (default InvalidInput last_err)), []), None)
  | a :: addrs =>
      '(N, b, p, ws) ← connect_addr a cx b N;
      match p with
      | Pending => Some ((N, b, Pending, ws), Some (a.(ae_fd), addrs))
      | Ready (Ok fd) => Some ((N, b, Ready (Ok fd), ws), None)
      | Ready (Err e) =>
          '(N, b, p, ws', k) ← connect (Some e) addrs cx b N;
          Some ((N, b, p, ws ++ ws'), k)
      end
  end.
(** Its next poll. *)
Definition connect_again (env_take : option io_error) (fd : nat) (addrs : list addr_env) (cx : waker) (b : BUDGET) (N : net)
    : option (polled * option (nat * list addr_env)) :=
  '(N, b, p, ws) ← connect_poll env_take cx b fd N;
  match p with
  | Pending => Some ((N, b, Pending, ws), Some (fd, addrs))
  | Ready (Ok fd) => Some ((N, b, Ready (Ok fd), ws), None)
  | Ready (Err e) =>
      '(N, b, p, ws', k) ← connect (Some e) addrs cx b N;
      Some ((N, b, p, ws ++ ws'), k)
  end.
Definition from_std := Net.from_std.
Definition into_std := Net.into_std.
Definition from_accepted := Net.from_accepted.
Definition drop := drop_sock.
Definition from_raw_fd := TcpListener.from_raw_fd.
Definition into_raw_fd := TcpListener.into_raw_fd.
End TcpStream.

Module TcpSocket.
Definition new_v4 := new_socket.
Definition from_std_stream := adopt_bare.
Definition listen := Net.listen.
Definition connect (env_connect : connected) (env_reg : option reg_error) (env_take : option io_error) (cx : waker) (b : BUDGET)
    (fd : nat) (N : net) : option polled :=
  connect_first (connect_bare env_connect env_reg fd N) env_take cx b.
End TcpSocket.

Module UdpSocket.
Definition bind (e : bind_env) (N : net) : outcome :=
  bind_sock e.(be_bind) e.(be_nb) e.(be_reg) Unconnected e.(be_fd) N.
Definition bind_addrs (addrs : list bind_env) (N : net) : outcome := try_addrs bind None addrs N.
(** [socket::connect] on a datagram socket fixes its peer. *)
Definition connect (fd : nat) (env : connected) (N : net) : outcome :=
  match sys_connect env fd N with (N, Err e) => (N, Err e) | (N, Ok _) => (N, Ok fd) end.
Definition connect_addrs (fd : nat) (addrs : list connected) (N : net) : outcome := try_addrs (connect fd) None addrs N.
Definition from_std := Net.from_std.
Definition into_std (env_nb env_dup : option io_error) (fd fd' : nat) (N : net) : outcome :=
  match set_nonblocking env_nb false fd N with
  | (N, Err e) => (drop_sock fd N, Err e)
  | (N, Ok _) => into_nonblocking_fd env_dup fd fd' N
  end.
Definition drop := drop_sock.
Definition from_raw_fd (env_nb : option io_error) (env_reg : option reg_error) (fd : nat) (N : net) : net * option nat :=
  expect (from_std env_nb env_reg fd N).
Definition into_raw_fd (env_nb env_dup : option io_error) (fd fd' : nat) (N : net) : net * option nat :=
  expect (into_std env_nb env_dup fd fd' N).
End UdpSocket.

Module UnixListener.
Definition bind (e : bind_env) (N : net) : outcome :=
  bind_sock e.(be_bind) e.(be_nb) e.(be_reg) Listening e.(be_fd) N.
Definition BACKLOG : Z := 1024.
Definition bind_addr (env_socket env_bind env_listen env_nb : option io_error) (env_reg : option reg_error) (fd : nat) (N : net) : outcome :=
  match new_socket env_socket fd N with
  | (N, Err e) => (N, Err e)
  | (N, Ok fd) =>
      match env_bind with
      | Some e => (close_fd fd N, Err e)
      | None => Net.listen env_listen env_nb env_reg fd N
      end
  end.
Definition poll_accept := TcpListener.poll_accept.
Definition drop := drop_sock.
Definition from_raw_fd (env_nb : option io_error) (env_reg : option reg_error) (fd : nat) (N : net) : net * option nat :=
  expect (adopt env_nb env_reg fd N).
(** The duplicate stays non-blocking. *)
Definition into_raw_fd (env_dup : option io_error) (fd fd' : nat) (N : net) : net * option nat :=
  expect (into_nonblocking_fd env_dup fd fd' N).
End UnixListener.

(** [SO_TYPE]. *)
Inductive sock_type := SOCK_STREAM | SOCK_DGRAM.
#[export] Instance sock_type_eq_dec : EqDecision sock_type.
Proof. solve_decision. Defined.

Module UnixSocket.
Definition new_stream := new_socket.
Definition new_datagram := new_socket.
Definition checked (env_type : result sock_type io_error) (wrong : sock_type) (fd : nat) (N : net) (k : outcome) : outcome :=
  match env_type with
  | Err e => (close_fd fd N, Err e)
  | Ok t => if bool_decide (t = wrong) then (close_fd fd N, Err Other) else k
  end.
Definition listen (env_type : result sock_type io_error) (env_listen env_nb : option io_error) (env_reg : option reg_error) (fd : nat) (N : net) : outcome :=
  checked env_type SOCK_DGRAM fd N (Net.listen env_listen env_nb env_reg fd N).
Definition connect (env_type : result sock_type io_error) (env_connect : connected) (env_reg : option reg_error)
    (env_take : option io_error) (cx : waker) (b : BUDGET) (fd : nat) (N : net) : option polled :=
  connect_first (checked env_type SOCK_DGRAM fd N (connect_bare env_connect env_reg fd N)) env_take cx b.
Definition datagram (env_type : result sock_type io_error) (env_nb : option io_error) (env_reg : option reg_error) (fd : nat) (N : net) : outcome :=
  checked env_type SOCK_STREAM fd N (adopt env_nb env_reg fd N).
End UnixSocket.

Module UnixStream.
Definition connect_addr := TcpStream.connect_addr.
Definition connect := TcpStream.connect_addr.
(** [connect] of Windows: what the blocking pool has connected. *)
Definition connect_windows (env_connect env_nb : option io_error) (env_reg : option reg_error) (fd : nat) (N : net) : outcome :=
  bind_sock env_connect env_nb env_reg Connected fd N.
Definition pair := pair_socks.
Definition from_accepted := Net.from_accepted.
Definition drop := drop_sock.
Definition from_raw_fd := UnixListener.from_raw_fd.
(** Unlike [TcpStream]'s, the duplicate does not block again. *)
Definition into_raw_fd := UnixListener.into_raw_fd.
End UnixStream.

Module UnixDatagram.
Definition bind (e : bind_env) (N : net) : outcome :=
  bind_sock e.(be_bind) e.(be_nb) e.(be_reg) Unconnected e.(be_fd) N.
Definition unbound := bind.
Definition from_owned_fd := adopt.
Definition connect := UdpSocket.connect.
Definition drop := drop_sock.
End UnixDatagram.

(** ** Pipes *)

Module Pipe.
Definition S_IFMT : Z := 61440.
Definition S_IFIFO : Z := 4096.
Definition O_ACCMODE : Z := 3.
Definition O_RDONLY : Z := 0.
Definition O_WRONLY : Z := 1.
Definition O_RDWR : Z := 2.
Definition O_NONBLOCK : Z := 2048.

Definition is_pipe (st_mode : Z) : bool := Z.land st_mode S_IFMT =? S_IFIFO.
Definition has_read_access (flags : Z) : bool :=
  (Z.land flags O_ACCMODE =? O_RDONLY) || (Z.land flags O_ACCMODE =? O_RDWR).
Definition has_write_access (flags : Z) : bool :=
  (Z.land flags O_ACCMODE =? O_WRONLY) || (Z.land flags O_ACCMODE =? O_RDWR).
(** What [set_nonblocking] makes of the flags. *)
Definition nonblocking_flags (previous : Z) (nonblocking : bool) : Z :=
  if nonblocking then Z.lor previous O_NONBLOCK else Z.land previous (Z.lnot O_NONBLOCK).

Inductive PipeEnd := Sender | Receiver.
Record PipeOpenOptions := mkOptions { read_write : bool; unchecked : bool }.
Definition new_options : PipeOpenOptions := mkOptions false false.
Definition set_read_write (value : bool) (o : PipeOpenOptions) : PipeOpenOptions := mkOptions value o.(unchecked).
Definition set_unchecked (value : bool) (o : PipeOpenOptions) : PipeOpenOptions := mkOptions o.(read_write) value.
(** The access [open] asks for, as [std]'s [OpenOptions] makes flags of it. *)
Definition access (o : PipeOpenOptions) (e : PipeEnd) : Z :=
  if o.(read_write) then O_RDWR else match e with Receiver => O_RDONLY | Sender => O_WRONLY end.

Definition from_file_unchecked (env_reg : option reg_error) (fd : nat) (N : net) : outcome :=
  Net.from_accepted env_reg false fd N.
(** [fstat] and [fcntl] answer the mode and the flags, or fail. *)
Definition end_access (e : PipeEnd) (flags : Z) : bool :=
  match e with Sender => has_write_access flags | Receiver => has_read_access flags end.
Definition from_file (e : PipeEnd) (env_stat env_flags : result Z io_error) (env_nb : option io_error) (env_reg : option reg_error)
    (fd : nat) (N : net) : outcome :=
  match env_stat with
  | Err err => (close_fd fd N, Err err)
  | Ok mode =>
      if is_pipe mode then
        match env_flags with
        | Err err => (close_fd fd N, Err err)
        | Ok flags =>
            if end_access e flags then
              match set_nonblocking env_nb true fd N with
              | (N, Err err) => (close_fd fd N, Err err)
              | (N, Ok _) => from_file_unchecked env_reg fd N
              end
            else (close_fd fd N, Err InvalidInput)
        end
      else (close_fd fd N, Err InvalidInput)
  end.
Definition sender_from_file := from_file Sender.
Definition receiver_from_file := from_file Receiver.
Definition receiver_from_file_unchecked := from_file_unchecked.
Definition sender_from_owned_fd := sender_from_file.
Definition receiver_from_owned_fd := receiver_from_file.
Definition from_owned_fd_unchecked := from_file_unchecked.
Definition receiver_from_owned_fd_unchecked := receiver_from_file_unchecked.
(** [open]: the file is opened non-blocking. *)
Definition open (o : PipeOpenOptions) (env_open : option io_error) (env_stat : result Z io_error) (fd : nat) (N : net) : outcome :=
  match env_open with
  | Some err => (N, Err err)
  | None =>
      let N := open_fd fd (mkSock true Connected None) Std N in
      if o.(unchecked) then (N, Ok fd)
      else
        match env_stat with
        | Err err => (close_fd fd N, Err err)
        | Ok mode => if is_pipe mode then (N, Ok fd) else (close_fd fd N, Err InvalidInput)
        end
  end.
(** [open_sender] and [open_receiver]. *)
Definition open_end (o : PipeOpenOptions) (env_open : option io_error) (env_stat : result Z io_error) (env_reg : option reg_error)
    (fd : nat) (N : net) : outcome :=
  match open o env_open env_stat fd N with
  | (N, Err err) => (N, Err err)
  | (N, Ok fd) => from_file_unchecked env_reg fd N
  end.
(** [pipe]: the sender is made first. *)
Definition pipe (env_pipe : option io_error) (env_sender env_receiver : option reg_error) (write_fd read_fd : nat) (N : net)
    : net * result (nat * nat) io_error :=
  pair_socks env_pipe env_sender env_receiver write_fd read_fd N.
Definition into_nonblocking_fd := Net.into_nonblocking_fd.
Definition into_blocking_fd (env_dup env_nb : option io_error) (fd fd' : nat) (N : net) : outcome :=
  match into_nonblocking_fd env_dup fd fd' N with
  | (N, Err e) => (N, Err e)
  | (N, Ok fd') =>
      match set_nonblocking env_nb false fd' N with
      | (N, Err e) => (close_fd fd' N, Err e)
      | (N, Ok _) => (N, Ok fd')
      end
  end.
Definition receiver_into_blocking_fd := into_blocking_fd.
Definition receiver_into_nonblocking_fd := into_nonblocking_fd.
Definition drop := drop_sock.
Definition receiver_drop := drop_sock.
End Pipe.


(** ** Every operation is moves of [Net] *)

Inductive op :=
| OTcpBind (addrs : list bind_env) | OUdpBind (addrs : list bind_env) | OUnixBind (e : bind_env)
| ODatagramBind (e : bind_env) | ODatagramUnbound (e : bind_env)
| OUnixBindAddr (env_socket env_bind env_listen env_nb : option io_error) (env_reg : option reg_error) (fd : nat)
| OUnixConnectWindows (env_connect env_nb : option io_error) (env_reg : option reg_error) (fd : nat)
| OAccept (r : poll (result nat io_error)) (env_nb : option io_error) (env_reg : option reg_error)
| OFromStd (env_nb : option io_error) (env_reg : option reg_error) (fd : nat)
| OIntoStd (env_nb env_dup env_again : option io_error) (fd fd' : nat)
| OUdpIntoStd (env_nb env_dup : option io_error) (fd fd' : nat)
| OTcpFromRaw (env_nb : option io_error) (env_reg : option reg_error) (fd : nat)
| OTcpIntoRaw (env_nb env_dup env_again : option io_error) (fd fd' : nat)
| OUnixFromRaw (env_nb : option io_error) (env_reg : option reg_error) (fd : nat)
| OUnixIntoRaw (env_dup : option io_error) (fd fd' : nat)
| OUdpConnect (fd : nat) (addrs : list connected) | ODatagramConnect (fd : nat) (env : connected)
| OTcpNew (env : option io_error) (fd : nat) | OTcpFromStdStream (fd : nat)
| OTcpListen (env_listen env_nb : option io_error) (env_reg : option reg_error) (fd : nat)
| OUnixListen (env_type : result sock_type io_error) (env_listen env_nb : option io_error) (env_reg : option reg_error) (fd : nat)
| OUnixDatagram (env_type : result sock_type io_error) (env_nb : option io_error) (env_reg : option reg_error) (fd : nat)
| OConnectAddr (a : addr_env) (cx : waker) (b : BUDGET)
| OTcpConnect (addrs : list addr_env) (cx : waker) (b : BUDGET)
| OTcpConnectAgain (env_take : option io_error) (fd : nat) (addrs : list addr_env) (cx : waker) (b : BUDGET)
| OBareConnect (env_connect : connected) (env_reg : option reg_error) (env_take : option io_error) (cx : waker) (b : BUDGET) (fd : nat)
| OUnixConnect (env_type : result sock_type io_error) (env_connect : connected) (env_reg : option reg_error)
    (env_take : option io_error) (cx : waker) (b : BUDGET) (fd : nat)
| OConnectAgain (env_take : option io_error) (cx : waker) (b : BUDGET) (fd : nat)
| OConnectDrop (fd : nat)
| OPair (env_pair : option io_error) (env_a env_b : option reg_error) (a b : nat)
| OPipe (env_pipe : option io_error) (env_sender env_receiver : option reg_error) (write_fd read_fd : nat)
| OPipeFromFile (e : Pipe.PipeEnd) (env_stat env_flags : result Z io_error) (env_nb : option io_error) (env_reg : option reg_error) (fd : nat)
| OPipeUnchecked (env_reg : option reg_error) (fd : nat)
| OPipeOpen (o : Pipe.PipeOpenOptions) (env_open : option io_error) (env_stat : result Z io_error) (env_reg : option reg_error) (fd : nat)
| OPipeBlocking (env_dup env_nb : option io_error) (fd fd' : nat)
| OPipeNonblocking (env_dup : option io_error) (fd fd' : nat)
| ODrop (fd : nat) | ODropBare (fd : nat).

(** What it needs: new descriptors are free, the others belong to the caller;
    a file adopted unchecked does not block, as the caller vouches. *)
Definition op_pre (o : op) (N : net) : bool :=
  let bare := owned_by is_bare in let live := owned_by is_live in let std := owned_by is_std in let pend := owned_by is_pend in
  match o with
  | OTcpBind addrs | OUdpBind addrs => forallb (λ e, free e.(be_fd) N) addrs
  | OUnixBind e | ODatagramBind e | ODatagramUnbound e => free e.(be_fd) N
  | OUnixBindAddr _ _ _ _ _ fd | OPipeOpen _ _ _ _ fd | OUnixConnectWindows _ _ _ fd | OTcpNew _ fd => free fd N
  | OAccept r _ _ => match r with Ready (Ok fd) => free fd N | _ => true end
  | OFromStd _ _ fd | OTcpFromRaw _ _ fd | OUnixFromRaw _ _ fd | OPipeFromFile _ _ _ _ _ fd | OTcpFromStdStream fd => std fd N
  | OPipeUnchecked _ fd => match view N fd with Some (Std, f) => f.(nonblocking) | _ => false end
  | OIntoStd _ _ _ fd fd' | OUdpIntoStd _ _ fd fd' | OTcpIntoRaw _ _ _ fd fd' | OUnixIntoRaw _ fd fd' | OPipeBlocking _ _ fd fd'
  | OPipeNonblocking _ fd fd' => live fd N && free fd' N
  | OUdpConnect fd _ | ODatagramConnect fd _ | ODrop fd => live fd N
  | OTcpListen _ _ _ fd | OUnixListen _ _ _ _ fd | OBareConnect _ _ _ _ _ fd | OUnixConnect _ _ _ _ _ _ fd | OUnixDatagram _ _ _ fd
  | ODropBare fd => bare fd N
  | OConnectAddr a _ _ => free a.(ae_fd) N
  | OTcpConnect addrs _ _ => forallb (λ a, free a.(ae_fd) N) addrs
  | OTcpConnectAgain _ fd addrs _ _ => pend fd N && forallb (λ a, free a.(ae_fd) N || bool_decide (a.(ae_fd) = fd)) addrs
  | OConnectAgain _ _ _ fd | OConnectDrop fd => pend fd N
  | OPair _ _ _ w r | OPipe _ _ _ w r => free w N && free r N && negb (bool_decide (w = r))
  end.

Definition op_run (o : op) (N : net) : option net :=
  match o with
  | OTcpBind addrs => Some (TcpListener.bind_addrs addrs N).1
  | OUdpBind addrs => Some (UdpSocket.bind_addrs addrs N).1
  | OUnixBind e => Some (UnixListener.bind e N).1
  | ODatagramBind e => Some (UnixDatagram.bind e N).1
  | ODatagramUnbound e => Some (UnixDatagram.unbound e N).1
  | OUnixBindAddr e1 e2 e3 e4 e5 fd => Some (UnixListener.bind_addr e1 e2 e3 e4 e5 fd N).1
  | OUnixConnectWindows e1 e2 e3 fd => Some (UnixStream.connect_windows e1 e2 e3 fd N).1
  | OAccept r e1 e2 => Some (TcpListener.poll_accept r e1 e2 N).1
  | OFromStd e1 e2 fd => Some (TcpStream.from_std e1 e2 fd N).1
  | OIntoStd e1 e2 e3 fd fd' => Some (TcpStream.into_std e1 e2 e3 fd fd' N).1
  | OUdpIntoStd e1 e2 fd fd' => Some (UdpSocket.into_std e1 e2 fd fd' N).1
  | OTcpFromRaw e1 e2 fd => Some (TcpListener.from_raw_fd e1 e2 fd N).1
  | OTcpIntoRaw e1 e2 e3 fd fd' => Some (TcpListener.into_raw_fd e1 e2 e3 fd fd' N).1
  | OUnixFromRaw e1 e2 fd => Some (UnixStream.from_raw_fd e1 e2 fd N).1
  | OUnixIntoRaw e fd fd' => Some (UnixStream.into_raw_fd e fd fd' N).1
  | OUdpConnect fd addrs => Some (UdpSocket.connect_addrs fd addrs N).1
  | ODatagramConnect fd c => Some (UnixDatagram.connect fd c N).1
  | OTcpNew e fd => Some (TcpSocket.new_v4 e fd N).1
  | OTcpFromStdStream fd => Some (TcpSocket.from_std_stream fd N)
  | OTcpListen e1 e2 e3 fd => Some (TcpSocket.listen e1 e2 e3 fd N).1
  | OUnixListen t e1 e2 e3 fd => Some (UnixSocket.listen t e1 e2 e3 fd N).1
  | OUnixDatagram t e1 e2 fd => Some (UnixSocket.datagram t e1 e2 fd N).1
  | OConnectAddr a cx b => '(N, _, _, _) ← TcpStream.connect_addr a cx b N; Some N
  | OTcpConnect addrs cx b => '(N, _, _, _, _) ← TcpStream.connect None addrs cx b N; Some N
  | OTcpConnectAgain e fd addrs cx b => '(N, _, _, _, _) ← TcpStream.connect_again e fd addrs cx b N; Some N
  | OBareConnect c e1 e2 cx b fd => '(N, _, _, _) ← TcpSocket.connect c e1 e2 cx b fd N; Some N
  | OUnixConnect t c e1 e2 cx b fd => '(N, _, _, _) ← UnixSocket.connect t c e1 e2 cx b fd N; Some N
  | OConnectAgain e cx b fd => '(N, _, _, _) ← connect_poll e cx b fd N; Some N
  | OConnectDrop fd => Some (connect_cancel fd N)
  | OPair e1 e2 e3 a b => Some (UnixStream.pair e1 e2 e3 a b N).1
  | OPipe e1 e2 e3 w r => Some (Pipe.pipe e1 e2 e3 w r N).1
  | OPipeFromFile e st fl e1 e2 fd => Some (Pipe.from_file e st fl e1 e2 fd N).1
  | OPipeUnchecked e fd => Some (Pipe.from_file_unchecked e fd N).1
  | OPipeOpen o e1 st e2 fd => Some (Pipe.open_end o e1 st e2 fd N).1
  | OPipeBlocking e1 e2 fd fd' => Some (Pipe.into_blocking_fd e1 e2 fd fd' N).1
  | OPipeNonblocking e fd fd' => Some (Pipe.into_nonblocking_fd e fd fd' N).1
  | ODrop fd => Some (TcpListener.drop fd N)
  | ODropBare fd => Some (close_fd fd N)
  end.

(** The sockets a [connect] waits for; and what is registered, with what the
    registration answers. *)
Definition op_connects (o : op) : list nat :=
  match o with
  | OConnectAddr a _ _ => [a.(ae_fd)]
  | OTcpConnect addrs _ _ => ae_fd <$> addrs
  | OTcpConnectAgain _ fd addrs _ _ => fd :: (ae_fd <$> addrs)
  | OBareConnect _ _ _ _ _ fd | OUnixConnect _ _ _ _ _ _ fd | OConnectAgain _ _ _ fd | OConnectDrop fd => [fd]
  | _ => []
  end.
Definition op_registers (o : op) : list (option reg_error * nat) :=
  match o with
  | OTcpBind addrs | OUdpBind addrs => (λ e, (e.(be_reg), e.(be_fd))) <$> addrs
  | OUnixBind e | ODatagramBind e | ODatagramUnbound e => [(e.(be_reg), e.(be_fd))]
  | OUnixBindAddr _ _ _ _ e fd | OUnixConnectWindows _ _ e fd | OFromStd _ e fd | OTcpFromRaw _ e fd | OUnixFromRaw _ e fd
  | OTcpListen _ _ e fd | OUnixListen _ _ _ e fd | OUnixDatagram _ _ e fd | OBareConnect _ e _ _ _ fd | OUnixConnect _ _ e _ _ _ fd
  | OPipeFromFile _ _ _ _ e fd | OPipeUnchecked e fd | OPipeOpen _ _ _ e fd => [(e, fd)]
  | OAccept (Ready (Ok fd)) _ e => [(e, fd)]
  | OConnectAddr a _ _ => [(a.(ae_reg), a.(ae_fd))]
  | OTcpConnect addrs _ _ | OTcpConnectAgain _ _ addrs _ _ => (λ a, (a.(ae_reg), a.(ae_fd))) <$> addrs
  | OPair _ e1 e2 a b | OPipe _ e1 e2 a b => [(e1, a); (e2, b)]
  | _ => []
  end.
Definition op_late (o : op) (fd : nat) : Prop := ∃ p, p ∈ op_registers o ∧ by_entry p.1 p.2 fd.

(** Moves that leave no registration behind but what [G] excuses. *)
Definition tidy (G : nat → Prop) (N N' : net) : Prop :=
  ∃ ms, run_moves net_move ms N = Some N' ∧ ∀ m fd, m ∈ ms → gives_up m fd ∨ fails_late m fd → G fd.

Section tidy.
Context (G : nat → Prop).

Lemma tidy_refl N : tidy G N N.
Proof. exists []. split; [done|]. intros ?? []%elem_of_nil. Qed.
Lemma tidy_one m N N' : net_move m N = Some N' → (∀ fd, gives_up m fd ∨ fails_late m fd → G fd) → tidy G N N'.
Proof. intros E H. exists [m]. simpl. rewrite E. split; [done|]. intros ?? ->%list_elem_of_singleton. apply H. Qed.
Lemma tidy_trans N N1 N2 : tidy G N N1 → tidy G N1 N2 → tidy G N N2.
Proof.
  intros (ms1 & E1 & H1) (ms2 & E2 & H2). exists (ms1 ++ ms2). split; [by eapply run_moves_app|].
  intros m fd [?|?]%elem_of_app; eauto.
Qed.
Lemma tidy_keeps N N' : net_inv N → tidy G N N' → keeps G N N'.
Proof.
  intros HI (ms & E & H). revert N HI E. induction ms as [|m ms IH]; simpl; intros N HI E; [simplify_eq; by apply keeps_refl|].
  destruct (net_move m N) as [N1|] eqn:Em; [|done]. destruct (net_step m N N1 HI Em) as [HI1 Hl].
  eapply keeps_trans; [|apply IH; [|exact HI1|exact E]]; [split; [done|]|].
  - intros fd Hfd. destruct (Hl fd Hfd) as [?|Hg]; [by left|right]. by apply (H m); [left|].
  - intros m' fd' ?. apply H. by right.
Qed.
Lemma tidy_inv N N' : net_inv N → tidy G N N' → net_inv N'.
Proof. intros HI Ht. by apply (tidy_keeps N N' HI Ht). Qed.
End tidy.

Lemma tidy_weaken (G H : nat → Prop) N N' : (∀ fd, G fd → H fd) → tidy G N N' → tidy H N N'.
Proof. intros HG (ms & E & Hm). exists ms. split; [done|]. intros m fd Hin Hg. by apply HG, (Hm m). Qed.

Lemma owned_weaken (p q : owner → bool) fd N : (∀ o, p o = true → q o = true) → owned_by p fd N = true → owned_by q fd N = true.
Proof. unfold owned_by. destruct (fds N !! fd) as [[i o]|]; eauto. Qed.
Lemma owned_not_live p fd N : (∀ o, p o = true → is_live o = false) → owned_by p fd N = true → owned_by is_live fd N = false.
Proof. unfold owned_by. destruct (fds N !! fd) as [[i o]|]; eauto. Qed.

Ltac no_excuse := by intros ? [[]|[]].

(** The program, or an error path, closes what is its own. *)
Lemma tidy_close G fd N : owned_by (λ o, is_std o || is_bare o) fd N = true → tidy G N (close_fd fd N).
Proof.
  intros Ho. apply (tidy_one _ (MDrop fd)); [|no_excuse]. cbn [net_move]. rewrite Ho.
  erewrite owned_not_live; [done| |exact Ho]. by intros [].
Qed.
Lemma tidy_close_std G fd N : owned_by is_std fd N = true → tidy G N (close_fd fd N).
Proof. intros Ho. apply tidy_close. by eapply owned_weaken, Ho; intros []. Qed.
Lemma tidy_close_bare G fd N : owned_by is_bare fd N = true → tidy G N (close_fd fd N).
Proof. intros Ho. apply tidy_close. by eapply owned_weaken, Ho; intros []. Qed.
Lemma tidy_adopt e1 e2 fd N : owned_by (λ o, is_std o || is_bare o) fd N = true → tidy (by_entry e2 fd) N (adopt e1 e2 fd N).1.
Proof. intros Ho. apply (tidy_one _ (MFromStd e1 e2 fd)); [cbn [net_move]; by rewrite Ho|by intros ? [[]|?]]. Qed.
Lemma tidy_bind e1 e2 e3 c fd N : free fd N = true → tidy (by_entry e3 fd) N (bind_sock e1 e2 e3 c fd N).1.
Proof. intros Hf. apply (tidy_one _ (MBind e1 e2 e3 c fd)); [cbn [net_move]; by rewrite Hf|by intros ? [[]|?]]. Qed.

(** A failed [bind] opens nothing. *)
Lemma bind_failed e1 e2 e3 c fd N e : free fd N = true →
  (bind_sock e1 e2 e3 c fd N).2 = Err e → ∀ fd', free fd' (bind_sock e1 e2 e3 c fd N).1 = free fd' N.
Proof.
  intros Hf%bool_decide_eq_true. unfold bind_sock, adopt, set_nonblocking, from_accepted, register.
  destruct e1; [done|]. destruct e2; [|destruct e3 as [[? []]|]]; simpl; intros [= ->] fd'; unfold free, on_sock; simpl;
    rewrite ?lookup_insert_eq; simpl; apply bool_decide_ext; destruct (decide (fd' = fd)) as [->|];
    by rewrite ?lookup_delete_eq, ?lookup_delete_ne, ?lookup_insert_ne by done.
Qed.

Lemma tidy_try_addrs {A} G (attempt : A → net → outcome) (ok : A → net → bool) :
  ∀ addrs, (∀ a N, a ∈ addrs → ok a N = true → tidy G N (attempt a N).1) →
  (∀ a a' N e, ok a N = true → (attempt a N).2 = Err e → ok a' N = true → ok a' (attempt a N).1 = true) →
  ∀ l N, forallb (λ a, ok a N) addrs = true → tidy G N (try_addrs attempt l addrs N).1.
Proof.
  intros addrs Ht Hok. induction addrs as [|a addrs IH]; intros l N H; [apply tidy_refl|].
  simpl in H. apply andb_true_iff in H as [Ha Hr]. pose proof (Ht a N (list_elem_of_here _ _) Ha) as H1. pose proof (Hok a) as H2. simpl.
  destruct (attempt a N) as [N1 [fd|e]] eqn:E; [exact H1|]. eapply tidy_trans; [exact H1|].
  apply IH; [intros a' N' ?; by apply Ht; right|].
  rewrite forallb_forall in *. intros a' Hin. specialize (H2 a' N e Ha). rewrite E in H2. by apply H2, Hr.
Qed.

Lemma tidy_bind_all addrs c N : forallb (λ e, free e.(be_fd) N) addrs = true →
  tidy (λ fd, ∃ p, p ∈ (λ e, (e.(be_reg), e.(be_fd))) <$> addrs ∧ by_entry p.1 p.2 fd) N
    (try_addrs (λ e N, bind_sock e.(be_bind) e.(be_nb) e.(be_reg) c e.(be_fd) N) None addrs N).1.
Proof.
  apply (tidy_try_addrs _ _ (λ e N, free e.(be_fd) N)).
  - intros a N' Hin ?. eapply tidy_weaken, tidy_bind; [|done]. intros fd' Hg. eexists. split; [by apply list_elem_of_fmap_2|exact Hg].
  - intros a a' N' e Ha E Ha'. by rewrite (bind_failed _ _ _ _ _ _ e).
Qed.
Lemma tidy_peer G c fd N : owned_by is_live fd N = true → tidy G N (UdpSocket.connect fd c N).1.
Proof.
  intros Ho. apply (tidy_one _ (MPeer c fd)); [|no_excuse]. cbn [net_move]. rewrite Ho.
  unfold UdpSocket.connect. by destruct (sys_connect c fd N) as [? []].
Qed.
Lemma tidy_connect_all G fd addrs N : owned_by is_live fd N = true → tidy G N (UdpSocket.connect_addrs fd addrs N).1.
Proof.
  intros Ho. apply (tidy_try_addrs _ _ (λ _, owned_by is_live fd)); [| |by apply forallb_forall].
  - intros c N' _ Ho'. by apply tidy_peer.
  - intros c c' N' e Ho' E _. unfold UdpSocket.connect in *. by destruct c; simplify_eq/=.
Qed.

Lemma bare_opened fd f a N : owned_by is_bare fd (open_fd fd f (Bare a) N) = true.
Proof. unfold owned_by. simpl. by rewrite lookup_insert_eq. Qed.
Lemma tidy_bare G fd e1 N : free fd N = true → tidy G N (new_socket e1 fd N).1.
Proof. intros Hf. apply (tidy_one _ (MNew e1 fd)); [|no_excuse]. cbn [net_move]. by rewrite Hf. Qed.
Lemma tidy_adopt_bare G fd N : owned_by is_std fd N = true → tidy G N (adopt_bare fd N).
Proof. intros Ho. apply (tidy_one _ (MAdoptBare fd)); [|no_excuse]. cbn [net_move]. by rewrite Ho. Qed.
Lemma tidy_listen e1 e2 e3 fd N : owned_by is_bare fd N = true → tidy (by_entry e3 fd) N (Net.listen e1 e2 e3 fd N).1.
Proof. intros Hb. apply (tidy_one _ (MListen e1 e2 e3 fd)); [cbn [net_move]; by rewrite Hb|by intros ? [[]|?]]. Qed.
Lemma tidy_bind_addr e1 e2 e3 e4 e5 fd N : free fd N = true → tidy (by_entry e5 fd) N (UnixListener.bind_addr e1 e2 e3 e4 e5 fd N).1.
Proof.
  intros Hf. pose proof (tidy_bare (by_entry e5 fd) fd e1 N Hf) as H1. unfold UnixListener.bind_addr. unfold new_socket in *. destruct e1; [exact H1|].
  eapply tidy_trans; [exact H1|]. destruct e2; [apply tidy_close_bare|apply tidy_listen]; apply bare_opened.
Qed.

Lemma tidy_checked G t wrong fd N k : owned_by is_bare fd N = true → tidy G N k.1 → tidy G N (UnixSocket.checked t wrong fd N k).1.
Proof.
  intros Hb Hk. unfold UnixSocket.checked. destruct t as [t|e]; [|by apply tidy_close_bare].
  case_bool_decide; [by apply tidy_close_bare|exact Hk].
Qed.

(** A file already non-blocking needs no flip before it is adopted. *)
Lemma adopt_nonblocking e fd f N : wf N → view N fd = Some (Std, f) → f.(nonblocking) = true →
  adopt None e fd N = Net.from_accepted e false fd N.
Proof.
  intros Hw Hv Hf. unfold adopt. simpl. f_equal. unfold on_sock. unfold view in Hv.
  destruct (fds N !! fd) as [[i o]|] eqn:Ef; [|done]. simpl in Hv. destruct (files N !! i) as [f'|] eqn:Ei; simplify_eq/=.
  assert (alter (with_nonblocking true) i (files N) = files N) as ->; [|by destruct N].
  apply map_eq. intros j. rewrite lookup_alter. case_decide; [subst|done]. rewrite Ei. simpl. f_equal.
  destruct f as [n c e']. simpl in Hf. by subst.
Qed.

Lemma tidy_unchecked e fd N f : net_inv N → view N fd = Some (Std, f) → f.(nonblocking) = true →
  tidy (by_entry e fd) N (Pipe.from_file_unchecked e fd N).1.
Proof.
  intros HI Hv Hf. unfold Pipe.from_file_unchecked. rewrite <-(adopt_nonblocking e fd f N (n_wf _ HI) Hv Hf).
  apply tidy_adopt. unfold owned_by. unfold view in Hv. destruct (fds N !! fd) as [[i o]|]; [|done].
  simpl in Hv. by destruct (files N !! i); simplify_eq/=.
Qed.
Lemma tidy_open_end o e1 st e2 fd N : net_inv N → free fd N = true → tidy (by_entry e2 fd) N (Pipe.open_end o e1 st e2 fd N).1.
Proof.
  intros HI Hf. unfold Pipe.open_end, Pipe.open. destruct e1; [apply tidy_refl|].
  set (f := mkSock true Connected None). set (N1 := open_fd fd f Std N).
  assert (tidy (by_entry e2 fd) N N1) as H1 by (apply (tidy_one _ (MStd true Connected fd)); [cbn [net_move]; by rewrite Hf|no_excuse]).
  assert (owned_by is_std fd N1 = true) as Ho by (unfold owned_by; simpl; by rewrite lookup_insert_eq).
  pose proof (about_open fd f Std N (n_wf _ HI)) as Ha.
  assert (tidy (by_entry e2 fd) N1 (Pipe.from_file_unchecked e2 fd N1).1) as H2.
  { eapply tidy_unchecked; [by eapply tidy_inv|apply Ha|done]. }
  destruct (Pipe.unchecked o); [by eapply tidy_trans|]. destruct st as [mode|]; [destruct (Pipe.is_pipe mode)|];
    (eapply tidy_trans; [exact H1|]); [exact H2|by apply tidy_close_std..].
Qed.
Lemma tidy_from_file e st fl e1 e2 fd N : owned_by is_std fd N = true → tidy (by_entry e2 fd) N (Pipe.from_file e st fl e1 e2 fd N).1.
Proof.
  intros Ho. pose proof (tidy_close_std (by_entry e2 fd) fd N Ho) as Hc. unfold Pipe.from_file. destruct st as [mode|]; [|exact Hc].
  destruct (Pipe.is_pipe mode); [|exact Hc]. destruct fl as [flags|]; [|exact Hc]. destruct (Pipe.end_access e flags); [|exact Hc].
  apply (tidy_adopt e1 e2). by eapply owned_weaken, Ho; intros [].
Qed.

Lemma tidy_into_fd G e fd fd' N : owned_by is_live fd N = true → free fd' N = true → tidy G N (Net.into_nonblocking_fd e fd fd' N).1.
Proof. intros Ho Hf. apply (tidy_one _ (MIntoFd e fd fd')); [|no_excuse]. cbn [net_move]. by rewrite Ho, Hf. Qed.
Lemma tidy_into_std G e1 e2 e3 fd fd' N : owned_by is_live fd N = true → free fd' N = true → tidy G N (Net.into_std e1 e2 e3 fd fd' N).1.
Proof. intros Ho Hf. apply (tidy_one _ (MIntoStd e1 e2 e3 fd fd')); [|no_excuse]. cbn [net_move]. by rewrite Ho, Hf. Qed.
Lemma tidy_blocking G e1 e2 fd fd' N : owned_by is_live fd N = true → free fd' N = true → tidy G N (Pipe.into_blocking_fd e1 e2 fd fd' N).1.
Proof.
  intros Ho Hf. pose proof (tidy_into_fd G e1 fd fd' N Ho Hf) as H1. unfold Pipe.into_blocking_fd, Pipe.into_nonblocking_fd.
  assert (e1 = None → owned_by is_std fd' (hand_out fd fd' N) = true) as Hs.
  { intros ->. unfold owned_by, hand_out in *. destruct (fds N !! fd) as [[i o]|] eqn:Ef; [|done]. simpl.
    apply bool_decide_eq_true in Hf. rewrite lookup_delete_ne by congruence. by rewrite lookup_insert_eq. }
  unfold Net.into_nonblocking_fd in *. destruct e1; [exact H1|]. specialize (Hs eq_refl). eapply tidy_trans; [exact H1|].
  destruct e2; simpl; [by apply tidy_close_std|]. apply (tidy_one _ (MSetStd false fd')); [|no_excuse]. cbn [net_move]. by rewrite Hs.
Qed.

Lemma tidy_udp_into_std G e1 e2 fd fd' N : owned_by is_live fd N = true → free fd' N = true → tidy G N (UdpSocket.into_std e1 e2 fd fd' N).1.
Proof.
  intros Ho Hf. pose proof (tidy_into_std G e1 e2 (Some Other) fd fd' N Ho Hf) as H1.
  unfold Net.into_std, UdpSocket.into_std in *. by destruct e1, e2.
Qed.
Lemma tidy_accepted e1 e2 fd N : free fd N = true → tidy (by_entry e2 fd) N (accepted e1 e2 fd N).1.
Proof. intros Hf. apply (tidy_one _ (MAccept e1 e2 fd)); [cbn [net_move]; by rewrite Hf|by intros ? [[]|?]]. Qed.
Lemma tidy_pair e1 e2 e3 a b N : free a N = true → free b N = true → negb (bool_decide (a = b)) = true →
  tidy (λ fd, by_entry e2 a fd ∨ by_entry e3 b fd) N (Pipe.pipe e1 e2 e3 a b N).1.
Proof. intros Ha Hb Hab. apply (tidy_one _ (MPair e1 e2 e3 a b)); [cbn [net_move]; by rewrite Ha, Hb, Hab|by intros ? [[]|?]]. Qed.
Lemma tidy_drop G fd N : owned_by is_live fd N = true → tidy G N (drop_sock fd N).
Proof. intros Ho. apply (tidy_one _ (MDrop fd)); [|no_excuse]. cbn [net_move]. by rewrite Ho. Qed.

(** *** Connects *)

Lemma view_free fd N : wf N → view N fd = None → free fd N = true.
Proof.
  intros Hw Hv. apply bool_decide_eq_true. unfold view in Hv. destruct (fds N !! fd) as [[i o]|] eqn:E; [|done].
  destruct (wf_file _ Hw _ _ _ E) as [_ [f Hf]]. simpl in Hv. by rewrite Hf in Hv.
Qed.
Lemma about_free fd N N' r fd' : wf N → about fd N N' None r → free fd' N = true ∨ fd' = fd → free fd' N' = true.
Proof.
  intros Hw Ha Hf. apply view_free; [apply Ha|]. destruct (decide (fd' = fd)) as [->|Hne]; [apply Ha|].
  destruct (ab_others _ _ _ _ _ Ha fd' Hne) as [-> _]. destruct Hf; [by apply free_view|done].
Qed.
Lemma pend_owned fd N a f : view N fd = Some (Pend a, f) → owned_by is_pend fd N = true.
Proof.
  unfold view, owned_by. destruct (fds N !! fd) as [[i o]|]; simpl; [|done]. destruct (files N !! i); by intros; simplify_eq/=.
Qed.

(** A poll of a [connect] in progress has an answer; an error closes its socket. *)
Lemma connect_poll_ends env cx b fd N : net_inv N → owned_by is_pend fd N = true →
  ∃ N' b' p ws, connect_poll env cx b fd N = Some (N', b', p, ws) ∧ tidy (.= fd) N N' ∧
    (∀ e, p = Ready (Err e) → ∃ r, about fd N N' None r).
Proof.
  intros HI Ho. destruct (view_owner _ _ _ (n_wf _ HI) Ho) as ([] & f & Hv & Hp); try done. clear Hp.
  assert (∃ x, connect_poll env cx b fd N = Some x) as [[[[N' b'] p] ws] E].
  { pose proof (n_good _ HI fd) as Hg. rewrite Hv in Hg. destruct Hg as [Hr _]. apply bool_decide_eq_true in Hr as [io Hio].
    unfold connect_poll. rewrite Hio. unfold owned_by in Ho. destruct (fds N !! fd) as [[i []]|]; try done.
    destruct (take_socket_error env fd N) as [N1 a]. rewrite poll_io_answer. case_bool_decide; [by eexists|].
    simpl. destruct (writable io); [|by eexists]. destruct a; by eexists. }
  exists N', b', p, ws. split; [done|]. split.
  - apply (tidy_one _ (MConnectPoll env cx b fd)); [cbn [net_move]; by rewrite E|by intros ? [<-|[]]].
  - intros e ->. destruct (about_connect_poll _ _ _ _ _ _ _ _ _ (n_wf _ HI) E) as (a & f' & _ & _ & Ha). by eexists.
Qed.

(** The whole first poll, its start being known. *)
Lemma connect_first_ends G (start : outcome) env cx b fd N : net_inv N → tidy G N start.1 →
  match start.2 with
  | Ok fd' => fd' = fd ∧ owned_by is_pend fd start.1 = true ∧ ∃ v r, about fd N start.1 v r
  | Err _ => (∃ r, about fd N start.1 None r) ∨ start.1 = N
  end →
  ∃ N' b' p ws, connect_first start env cx b = Some (N', b', p, ws) ∧ tidy (λ x, G x ∨ x = fd) N N' ∧
    (∀ e, p = Ready (Err e) → (∃ r, about fd N N' None r) ∨ N' = N).
Proof.
  intros HI Ht Hs. destruct start as [N1 [fd'|e]]; simpl in *.
  - destruct Hs as (-> & Ho & v & r & Ha). pose proof (tidy_inv _ _ _ HI Ht) as HI1.
    destruct (connect_poll_ends env cx b fd N1 HI1 Ho) as (N' & b' & p & ws & E & Ht' & He).
    exists N', b', p, ws. split; [exact E|]. split.
    + eapply tidy_trans; [eapply tidy_weaken, Ht; by left|eapply tidy_weaken, Ht'; by right].
    + intros e Hp. destruct (He e Hp) as [r' Hr]. left. exists r'. by eapply about_trans.
  - exists N1, b, (Ready (Err e)), []. split; [done|]. split; [eapply tidy_weaken, Ht; by left|]. by intros.
Qed.

Lemma bare_start c e fd N : net_inv N → owned_by is_bare fd N = true →
  match (connect_bare c e fd N).2 with
  | Ok fd' => fd' = fd ∧ owned_by is_pend fd (connect_bare c e fd N).1 = true ∧ ∃ v r, about fd N (connect_bare c e fd N).1 v r
  | Err _ => ∃ r, about fd N (connect_bare c e fd N).1 None r
  end.
Proof.
  intros HI Ho. destruct (view_owner _ _ _ (n_wf _ HI) Ho) as ([] & f & Hv & Hp); try done.
  pose proof (about_connect_bare c e fd N _ _ (n_wf _ HI) Hv) as H1. destruct (connect_bare c e fd N) as [N' r].
  destruct c, e; destruct H1 as [-> H1]; simpl; eauto;
    (split; [done|]; split; [eapply pend_owned; apply H1|by do 2 eexists]).
Qed.
Lemma tidy_connect c e fd N : owned_by is_bare fd N = true → tidy (by_entry e fd) N (connect_bare c e fd N).1.
Proof. intros Hb. apply (tidy_one _ (MConnectBare c e fd)); [cbn [net_move]; by rewrite Hb|by intros ? [[]|?]]. Qed.

Lemma bare_connect_ends c e env cx b fd N : net_inv N → owned_by is_bare fd N = true →
  ∃ N' b' p ws, TcpSocket.connect c e env cx b fd N = Some (N', b', p, ws) ∧ tidy (λ x, by_entry e fd x ∨ x = fd) N N'.
Proof.
  intros HI Ho. pose proof (bare_start c e fd N HI Ho) as Hs.
  destruct (connect_first_ends (by_entry e fd) (connect_bare c e fd N) env cx b fd N HI) as (N' & b' & p & ws & E & Ht & _);
    [by apply tidy_connect|destruct (connect_bare c e fd N) as [? []]; simpl in *; auto|by exists N', b', p, ws].
Qed.

Lemma unix_connect_ends t c e env cx b fd N : net_inv N → owned_by is_bare fd N = true →
  ∃ N' b' p ws, UnixSocket.connect t c e env cx b fd N = Some (N', b', p, ws) ∧ tidy (λ x, by_entry e fd x ∨ x = fd) N N'.
Proof.
  intros HI Ho. pose proof (bare_start c e fd N HI Ho) as Hs. pose proof (about_close fd N (n_wf _ HI)) as Hc.
  destruct (connect_first_ends (by_entry e fd) (UnixSocket.checked t SOCK_DGRAM fd N (connect_bare c e fd N)) env cx b fd N HI)
    as (N' & b' & p & ws & E & Ht & _); [by apply tidy_checked, tidy_connect| |by exists N', b', p, ws].
  unfold UnixSocket.checked. destruct t as [t|]; [|simpl; eauto]. case_bool_decide; [simpl; eauto|].
  destruct (connect_bare c e fd N) as [? []]; simpl in *; auto.
Qed.

(** The excuse of one address. *)
Definition by_connect (a : addr_env) (fd : nat) : Prop := by_entry a.(ae_reg) a.(ae_fd) fd ∨ fd = a.(ae_fd).

Lemma connect_addr_ends a cx b N : net_inv N → free a.(ae_fd) N = true →
  ∃ N' b' p ws, TcpStream.connect_addr a cx b N = Some (N', b', p, ws) ∧ tidy (by_connect a) N N' ∧
    (∀ e, p = Ready (Err e) → (∃ r, about a.(ae_fd) N N' None r) ∨ N' = N).
Proof.
  intros HI Hf. destruct a as [e1 c e2 env fd]. unfold TcpStream.connect_addr, by_connect. simpl in *.
  apply connect_first_ends; [done| |]; unfold Net.connect_addr.
  - pose proof (tidy_bare (by_entry e2 fd) fd e1 N Hf) as H1. unfold new_socket in *. destruct e1; [exact H1|].
    eapply tidy_trans; [exact H1|]. apply tidy_connect, bare_opened.
  - unfold new_socket. destruct e1; [by right|]. destruct (keeps_bare none fd N HI Hf) as [[HI1 _] _].
    pose proof (about_open fd (mkSock true Unconnected None) (Bare false) N (n_wf _ HI)) as Ha.
    pose proof (bare_start c e2 fd _ HI1 (bare_opened _ _ _ _)) as Hs.
    destruct (connect_bare c e2 fd _) as [N' [fd'|e]]; simpl in *.
    + destruct Hs as (-> & Ho & v & r & H2). split; [done|]. split; [done|]. exists v, r. by eapply about_trans.
    + left. destruct Hs as [r H2]. exists r. by eapply about_trans.
Qed.

Lemma connect_ends cx addrs : ∀ last b N, net_inv N → forallb (λ a, free a.(ae_fd) N) addrs = true →
  ∃ N' b' p ws k, TcpStream.connect last addrs cx b N = Some (N', b', p, ws, k) ∧
    tidy (λ fd, ∃ a, a ∈ addrs ∧ by_connect a fd) N N'.
Proof.
  induction addrs as [|a addrs IH]; intros last b N HI Hf.
  { do 5 eexists. split; [done|apply tidy_refl]. }
  simpl in Hf. apply andb_true_iff in Hf as [Ha Hr].
  destruct (connect_addr_ends a cx b N HI Ha) as (N1 & b1 & p1 & ws1 & E & Ht & He). cbn [TcpStream.connect]. rewrite E. simpl.
  assert (tidy (λ fd, ∃ a', a' ∈ a :: addrs ∧ by_connect a' fd) N N1) as Ht1.
  { eapply tidy_weaken, Ht. intros fd ?. exists a. split; [left|done]. }
  destruct p1 as [[fd|e]|]; [do 5 eexists; by split| |do 5 eexists; by split].
  pose proof (tidy_inv _ _ _ HI Ht) as HI1.
  destruct (IH (Some e) b1 N1 HI1) as (N2 & b2 & p2 & ws2 & k & E2 & Ht2).
  { destruct (He e eq_refl) as [[r Hb]| ->]; [|done]. rewrite forallb_forall in *. intros a' Hin.
    eapply about_free; [apply HI|exact Hb|left; by apply Hr]. }
  rewrite E2. simpl. do 5 eexists. split; [done|]. eapply tidy_trans; [exact Ht1|].
  eapply tidy_weaken, Ht2. intros fd (a' & ? & ?). exists a'. split; [by right|done].
Qed.

Lemma connect_again_ends env fd addrs cx b N : net_inv N → owned_by is_pend fd N = true →
  forallb (λ a, free a.(ae_fd) N || bool_decide (a.(ae_fd) = fd)) addrs = true →
  ∃ N' b' p ws k, TcpStream.connect_again env fd addrs cx b N = Some (N', b', p, ws, k) ∧
    tidy (λ x, x = fd ∨ ∃ a, a ∈ addrs ∧ by_connect a x) N N'.
Proof.
  intros HI Ho Hr. destruct (connect_poll_ends env cx b fd N HI Ho) as (N1 & b1 & p1 & ws1 & E & Ht & He).
  unfold TcpStream.connect_again. rewrite E. simpl.
  assert (tidy (λ x, x = fd ∨ ∃ a, a ∈ addrs ∧ by_connect a x) N N1) as Ht1.
  { eapply tidy_weaken, Ht. by left. }
  destruct p1 as [[fd'|e]|]; [do 5 eexists; by split| |do 5 eexists; by split].
  destruct (He e eq_refl) as [r Hb]. pose proof (tidy_inv _ _ _ HI Ht) as HI1.
  destruct (connect_ends cx addrs (Some e) b1 N1 HI1) as (N2 & b2 & p2 & ws2 & k & E2 & Ht2).
  { rewrite forallb_forall in *. intros a' [?|?%bool_decide_eq_true]%Hr%orb_true_iff;
      (eapply about_free; [apply HI|exact Hb|]); [by left|by right]. }
  rewrite E2. simpl. do 5 eexists. split; [done|]. eapply tidy_trans; [exact Ht1|]. eapply tidy_weaken, Ht2. by right.
Qed.

(** What an operation may leave behind. *)
Definition op_leaves (o : op) (fd : nat) : Prop := fd ∈ op_connects o ∨ op_late o fd.

Lemma op_late_one o e fd : (e, fd) ∈ op_registers o → ∀ x, by_entry e fd x → op_leaves o x.
Proof. intros Hin x Hx. right. by exists (e, fd). Qed.
Lemma op_leaves_connect o e fd : (e, fd) ∈ op_registers o → fd ∈ op_connects o → ∀ x, by_entry e fd x ∨ x = fd → op_leaves o x.
Proof. intros Hr Hc x [?| ->]; [by eapply op_late_one|by left]. Qed.
Lemma op_leaves_addrs o (addrs : list addr_env) : (∀ a, a ∈ addrs → (a.(ae_reg), a.(ae_fd)) ∈ op_registers o ∧ a.(ae_fd) ∈ op_connects o) →
  ∀ x, (∃ a, a ∈ addrs ∧ by_connect a x) → op_leaves o x.
Proof. intros H x (a & Ha & Hx). destruct (H a Ha). by eapply op_leaves_connect. Qed.

Ltac late_one := apply op_late_one; by left.

Lemma tidy_op_pair o e1 e2 e3 a b N :
  (e2, a) ∈ op_registers o → (e3, b) ∈ op_registers o →
  free a N = true → free b N = true → negb (bool_decide (a = b)) = true → tidy (op_leaves o) N (pair_socks e1 e2 e3 a b N).1.
Proof.
  intros H2 H3 Ha Hb Hab. eapply tidy_weaken, tidy_pair; [|done..].
  intros x [Hx|Hx]; [exact (op_late_one o e2 a H2 x Hx)|exact (op_late_one o e3 b H3 x Hx)].
Qed.

Lemma op_tidy o N : net_inv N → op_pre o N = true → ∃ N', op_run o N = Some N' ∧ tidy (op_leaves o) N N'.
Proof.
  intros HI Hp. destruct o; cbn [op_pre] in Hp; cbn [op_run]; repeat (apply andb_true_iff in Hp as [Hp ?]).
  all: try by (eexists; split; [done|];
    first [by apply tidy_connect_all|by apply tidy_peer|by apply tidy_into_std|by apply tidy_into_fd|by apply tidy_blocking
          |by apply tidy_udp_into_std|by apply tidy_bare|by apply tidy_adopt_bare|by apply tidy_drop|by apply tidy_close_bare]).
  all: try by (eexists; split; [done|];
    first [eapply tidy_weaken, tidy_bind_all; [|done]; intros x Hx; right; exact Hx
          |eapply tidy_weaken, tidy_bind; [late_one|done]|eapply tidy_weaken, tidy_bind_addr; [late_one|done]
          |eapply tidy_weaken, tidy_from_file; [late_one|done]|eapply tidy_weaken, tidy_open_end; [late_one|done..]
          |eapply tidy_weaken, tidy_listen; [late_one|done]
          |eapply tidy_weaken, tidy_adopt; [late_one|eapply owned_weaken, Hp; intros []]]).
  - eexists. split; [done|]. destruct r as [[fd|e]|]; [|apply tidy_refl..].
    pose proof (tidy_accepted env_nb env_reg fd N Hp) as H1. simpl. destruct (accepted env_nb env_reg fd N).
    eapply tidy_weaken, H1. late_one.
  - eexists. split; [done|]. apply tidy_checked; [done|]. eapply tidy_weaken, tidy_listen, Hp. late_one.
  - eexists. split; [done|]. apply tidy_checked; [done|]. eapply tidy_weaken, tidy_adopt; [late_one|].
    eapply owned_weaken, Hp. by intros [].
  - destruct (connect_addr_ends a cx b N HI Hp) as (N' & ? & ? & ? & -> & Ht & _). exists N'. split; [done|].
    eapply tidy_weaken, Ht. apply op_leaves_connect; by left.
  - destruct (connect_ends cx addrs None b N HI Hp) as (N' & ? & ? & ? & ? & -> & Ht). exists N'. split; [done|].
    eapply tidy_weaken, Ht. apply op_leaves_addrs. intros a Ha. split; [by apply (list_elem_of_fmap_2 (λ a, (a.(ae_reg), a.(ae_fd))))|by apply list_elem_of_fmap_2].
  - destruct (connect_again_ends env_take fd addrs cx b N HI Hp) as (N' & ? & ? & ? & ? & -> & Ht); [done|]. exists N'. split; [done|].
    eapply tidy_weaken, Ht. intros y [-> |Hx]; [by left; left|]. revert y Hx. apply op_leaves_addrs.
    intros a Ha. split; [by apply (list_elem_of_fmap_2 (λ a, (a.(ae_reg), a.(ae_fd))))|by right; apply list_elem_of_fmap_2].
  - destruct (bare_connect_ends env_connect env_reg env_take cx b fd N HI Hp) as (N' & ? & ? & ? & -> & Ht). exists N'. split; [done|].
    eapply tidy_weaken, Ht. apply op_leaves_connect; by left.
  - destruct (unix_connect_ends env_type env_connect env_reg env_take cx b fd N HI Hp) as (N' & ? & ? & ? & -> & Ht). exists N'. split; [done|].
    eapply tidy_weaken, Ht. apply op_leaves_connect; by left.
  - destruct (connect_poll_ends env_take cx b fd N HI Hp) as (N' & ? & ? & ? & -> & Ht & _). exists N'. split; [done|].
    eapply tidy_weaken, Ht. intros y ->. by left; left.
  - eexists. split; [done|]. apply (tidy_one _ (MConnectCancel fd)); [cbn [net_move]; by rewrite Hp|].
    intros y [<-|[]]. by left; left.
  - eexists. split; [done|]. apply tidy_op_pair; try done; simpl; set_solver.
  - eexists. split; [done|]. apply tidy_op_pair; try done; simpl; set_solver.
  - eexists. split; [done|]. destruct (view N fd) as [[[] f]|] eqn:Hv; try done.
    eapply tidy_weaken, tidy_unchecked; [late_one|done..].
Qed.

(** C36: the operations of the listeners, streams, datagram sockets, bare sockets
    and pipes - to bind at one address or the first that will have it, accept,
    adopt, connect (each poll of its future, up to its end, and its being
    dropped), check a bare socket's type, open or check a pipe, hand a descriptor
    out, drop - have a result on every path, errors included, and are sequences
    of the moves of [Net]; so what [Net] says holds of programs that use them.
    None leaves a registration behind, but for two exceptions, that of a stream's
    [connect] whose [await] ends with an error, or whose future is dropped while
    it waits; and on Windows that of a socket whose registration fails in its
    first poll request. *)
Theorem sockets_refine o N :
  net_reachable N → op_pre o N = true →
  ∃ N', op_run o N = Some N' ∧ net_reachable N' ∧
    (∃ ms, run_moves net_move ms N = Some N' ∧
       ∀ m fd, m ∈ ms → gives_up m fd ∨ fails_late m fd → fd ∈ op_connects o ∨ op_late o fd) ∧
    (∀ fd, leaked N' fd → leaked N fd ∨ fd ∈ op_connects o ∨ op_late o fd).
Proof.
  intros HR Hp. pose proof (net_reachable_inv N HR) as HI. destruct (op_tidy o N HI Hp) as (N' & E & Ht).
  exists N'. split; [done|]. split; [|split; [exact Ht|apply (tidy_keeps _ N _ HI Ht)]].
  destruct HR as (N0 & H0 & HR), Ht as (ms & Em & _).
  exists N0. split; [done|]. etrans; [exact HR|]. eapply run_moves_rtc; [|exact Em]. intros m c c' ?. by exists m.
Qed.

Lemma bind_addrs_answer c addrs N :
  (try_addrs (λ e N, bind_sock e.(be_bind) e.(be_nb) e.(be_reg) c e.(be_fd) N) None addrs N).2 =
  try_each None ((λ e, match e.(be_bind), e.(be_nb), e.(be_reg) with
                       | Some err, _, _ | None, Some err, _ => Err err
                       | None, None, Some err => Err err.(reg_err)
                       | None, None, None => Ok e.(be_fd) end) <$> addrs).
Proof.
  generalize (@None io_error); revert N. induction addrs as [|e addrs IH]; intros N l; [done|]. simpl.
  unfold bind_sock at 1, adopt, set_nonblocking, from_accepted, register.
  destruct (be_bind e); [apply IH|]. destruct (be_nb e); [apply IH|]. by destruct (be_reg e); [apply IH|].
Qed.

(** A second address bound after the first failed, and its listener handed out;
    meanwhile a connect that is refused in its [await]. *)
Lemma sockets_refine_witness :
  let es := [mkBindEnv (Some (OsError 98)) None None 3; mkBindEnv None None None 3] in
  let refused := OConnectAddr (mkAddrEnv None CInProgress None (Some (OsError 111)) 5) 7 None in
  match run_moves op_run [OTcpBind es; refused; OTcpIntoRaw None None None 3 4] net_init with
  | Some N => net_reachable N ∧ view N 4 = Some (Std, mkSock false Listening None) ∧ ¬ leaked N 3 ∧ leaked N 5
  | None => False
  end.
Proof.
  intros es refused.
  destruct (sockets_refine (OTcpBind es) net_init net_init_reachable eq_refl) as (N1 & E1 & R1 & _). cbn [run_moves]. rewrite E1.
  assert (op_pre refused N1 = true) as P2 by (vm_compute in E1; injection E1 as <-; reflexivity).
  destruct (sockets_refine refused N1 R1 P2) as (N2 & E2 & R2 & _). rewrite E2.
  vm_compute in E1. injection E1 as <-.
  assert (op_pre (OTcpIntoRaw None None None 3 4) N2 = true) as P3 by (vm_compute in E2; injection E2 as <-; reflexivity).
  destruct (sockets_refine (OTcpIntoRaw None None None 3 4) N2 R2 P3) as (N3 & E3 & R3 & _). rewrite E3.
  split; [exact R3|]. vm_compute in E2. injection E2 as <-. vm_compute in E3. injection E3 as <-.
  split; [reflexivity|]. split; [by intros [[=] _]|]. by split.
Defined.

(** A bare Unix socket whose [connect] is refused in its [await] is closed, and
    stays in the registry. *)
Example unix_connect_leaks :
  match run_moves op_run [OTcpNew None 5; OUnixConnect (Ok SOCK_STREAM) CInProgress None (Some (OsError 111)) 7 None 5] net_init with
  | Some N => view N 5 = None ∧ is_registered N 5 = true
  | None => False
  end.
Proof. done. Qed.

(** ** What a pipe's end may be *)

Lemma O_ACCMODE_mod flags : Z.land flags Pipe.O_ACCMODE = flags mod 4.
Proof. apply (Z.land_ones flags 2). lia. Qed.

Definition own_access (e : Pipe.PipeEnd) : Z := match e with Pipe.Sender => Pipe.O_WRONLY | Pipe.Receiver => Pipe.O_RDONLY end.
Lemma end_access_mod e flags : Pipe.end_access e flags = true ↔ flags mod 4 = own_access e ∨ flags mod 4 = Pipe.O_RDWR.
Proof.
  unfold Pipe.end_access, Pipe.has_write_access, Pipe.has_read_access. rewrite !O_ACCMODE_mod.
  destruct e; by rewrite orb_true_iff, !Z.eqb_eq.
Qed.

Lemma nonblocking_testbit flags b n : 0 ≤ n →
  Z.testbit (Pipe.nonblocking_flags flags b) n = if bool_decide (n = 11) then b else Z.testbit flags n.
Proof.
  intros Hn. unfold Pipe.nonblocking_flags. change Pipe.O_NONBLOCK with (2 ^ 11).
  destruct (decide (n = 11)) as [->|Hne].
  - rewrite bool_decide_eq_true_2 by done. destruct b; [rewrite Z.lor_spec|rewrite Z.land_spec, Z.lnot_spec by lia];
      rewrite Z.pow2_bits_true by lia; [by rewrite orb_true_r|by rewrite andb_false_r].
  - rewrite bool_decide_eq_false_2 by done. destruct b; [rewrite Z.lor_spec|rewrite Z.land_spec, Z.lnot_spec by lia];
      rewrite Z.pow2_bits_false by lia; [by rewrite orb_false_r|by rewrite andb_true_r].
Qed.

(** A file is adopted as a pipe's end exactly if it is a fifo, open for
    what the end is for, and can be made non-blocking and registered; it is then
    in use, registered and non-blocking; else it is closed and nothing about it
    stays registered (but what a registration that fails late leaves).  What [open_sender] and [open_receiver] open passes the
    check of access, and flipping [O_NONBLOCK] changes that flag and no other. *)
Theorem pipe_from_file e env_stat env_flags env_nb env_reg fd N f :
  net_reachable N → view N fd = Some (Std, f) →
  let '(N', r) := Pipe.from_file e env_stat env_flags env_nb env_reg fd N in
  (r = Ok fd ↔ env_nb = None ∧ env_reg = None ∧ ∃ mode flags,
     env_stat = Ok mode ∧ Z.land mode Pipe.S_IFMT = Pipe.S_IFIFO ∧
     env_flags = Ok flags ∧ (flags mod 4 = own_access e ∨ flags mod 4 = Pipe.O_RDWR)) ∧
  (∀ fd', r = Ok fd' → fd' = fd ∧ view N' fd = Some (Live false, with_nonblocking true f) ∧ is_registered N' fd = true) ∧
  (∀ err, r = Err err → view N' fd = None ∧ (is_registered N' fd = is_registered N fd ∨ late env_reg = true)) ∧
  (∀ o, Pipe.end_access e (Pipe.access o e) = true) ∧
  (∀ flags b n, 0 ≤ n → Z.testbit (Pipe.nonblocking_flags flags b) n = if bool_decide (n = 11) then b else Z.testbit flags n).
Proof.
  intros HI%net_reachable_inv Hv. destruct (Pipe.from_file _ _ _ _ _ _ _) as [N' r] eqn:E.
  apply and_assoc. apply and_assoc. split; [|split; [by intros [[] []]; destruct e|by intros; apply nonblocking_testbit]].
  pose proof (about_close fd N (n_wf _ HI)) as Hc. pose proof (about_adopt env_nb env_reg fd N _ _ (n_wf _ HI) Hv) as Ha.
  unfold Pipe.from_file in E.
  assert (∀ P : Prop, (P → False) → (close_fd fd N, r) = (N', r) → (∃ err, r = Err err) →
    ((r = Ok fd ↔ P) ∧ (∀ fd', r = Ok fd' → fd' = fd ∧ view N' fd = Some (Live false, with_nonblocking true f) ∧ is_registered N' fd = true)) ∧
    (∀ err, r = Err err → view N' fd = None ∧ (is_registered N' fd = is_registered N fd ∨ late env_reg = true))) as Hbad.
  { intros P HP [= <-] [err ->]. split; [split; [split; done|done]|]. intros ? _. split; [apply Hc|left; apply Hc]. }
  destruct env_stat as [mode|]; [|simplify_eq; apply Hbad; [naive_solver|done|eauto]].
  unfold Pipe.is_pipe in E. destruct (Z.eqb_spec (Z.land mode Pipe.S_IFMT) Pipe.S_IFIFO); [|simplify_eq; apply Hbad; [naive_solver|done|eauto]].
  destruct env_flags as [flags|]; [|simplify_eq; apply Hbad; [naive_solver|done|eauto]].
  pose proof (end_access_mod e flags) as He. destruct (Pipe.end_access e flags);
    [|simplify_eq; apply Hbad; [|done|eauto]; intros (_ & _ & ? & ? & ? & ? & [= <-] & H%He); done].
  change (adopt env_nb env_reg fd N = (N', r)) in E. rewrite E in Ha.
  destruct env_nb, env_reg; destruct Ha as [-> Ha].
  1-3: split; [split; [split; [done|naive_solver]|done]|]; intros ? _; split; [apply Ha|].
  1-2: left; apply Ha.
  { rewrite (ab_reg _ _ _ _ _ Ha). simpl. destruct (reg_late _); [by right|by left]. }
  split; [split; [|intros ? [= <-]; split; [done|split; apply Ha]]|done]. split; [|done]. intros _. split; [done|]. split; [done|].
  exists mode, flags. split; [done|]. split; [done|]. split; [done|]. by apply He.
Qed.

(** A fifo open for writing only is no receiver; a sender it can be. *)
Lemma pipe_from_file_witness :
  match run [MStd false Connected 5] with
  | Some N =>
      (Pipe.from_file Pipe.Receiver (Ok 4516) (Ok 32769) None None 5 N).2 = Err InvalidInput ∧
      view (Pipe.from_file Pipe.Receiver (Ok 4516) (Ok 32769) None None 5 N).1 5 = None ∧
      (Pipe.from_file Pipe.Sender (Ok 4516) (Ok 32769) None None 5 N).2 = Ok 5%nat
  | None => False
  end.
Proof.
  destruct (run [MStd false Connected 5]) as [N|] eqn:E; [|by vm_compute in E]. pose proof (run_reachable _ _ E) as HR.
  assert (view N 5 = Some (Std, mkSock false Connected None)) as Hv by (vm_compute in E; injection E as <-; done).
  pose proof (pipe_from_file Pipe.Receiver (Ok 4516) (Ok 32769) None None 5 N _ HR Hv) as H1.
  pose proof (pipe_from_file Pipe.Sender (Ok 4516) (Ok 32769) None None 5 N _ HR Hv) as H2.
  split; [done|]. destruct (Pipe.from_file Pipe.Receiver _ _ _ _ _ _) as [N1 r1] eqn:E1, (Pipe.from_file Pipe.Sender _ _ _ _ _ _) as [N2 r2].
  destruct H1 as (_ & _ & H1 & _), H2 as (H2 & _). split; [|apply H2].
  - assert (r1 = Err InvalidInput) as -> by (by injection E1 as _ <-). by destruct (H1 InvalidInput eq_refl).
  - split; [done|]. split; [done|]. exists 4516, 32769. split; [done|]. split; [done|]. split; [done|]. by left.
Defined.
