(* ===== verification/Sockaddr.v ===== *)
(** Socket addresses and options as the kernel sees them
    ([src/src/io/socket/posix.rs], [windows.rs]): a [SocketAddr] packed into the
    bytes of a [sockaddr_in] or [sockaddr_in6] and back, a Unix one into a
    [sockaddr_un], and the integers the options are converted through.

    What differs between targets - the byte order, the layout, the constants of
    [libc] - is a [Platform]; integers in memory are in its byte order. *)

From S2P Require Import Prelude AsyncIo Readiness.

Class Platform := {
  ne : endian;                 (* the byte order of the machine *)
  has_len : bool;              (* BSD: a length byte, and one byte of family *)
  AF_INET6 : Z;
  sun_path_len : Z;
  abstract_names : bool;       (* Linux and Android *)
  AF_INET6_ok : 2 < AF_INET6 < 256;
  sun_path_ok : 1 < sun_path_len < 254;
}.
Definition AF_UNIX : Z := 1.
Definition AF_INET : Z := 2.

Section platform.
Context `{Platform}.

Definition to_ne (w : nat) (n : Z) : list byte := to_bytes ne (mkInt w false) n.
Definition from_ne (l : list byte) : Z := from_bytes ne (mkInt (length l) false) l.
(** [to_be] of an integer swaps its bytes where the machine's order is the other. *)
Definition to_be (w : nat) (n : Z) : Z := from_ne (to_be_bytes w n).
Definition from_be (w : nat) (n : Z) : Z := from_be_bytes (to_ne w n).

(** A structure of zeros with its family, and its length on BSD, filled in. *)
Definition family (len fam : Z) : list byte := if has_len then [len; fam] else to_ne 2 fam.
Definition field (off w : Z) (mem : list byte) : list byte := upto w (from off mem).
Definition ss_family (mem : list byte) : Z := if has_len then from_le_bytes (field 1 1 mem) else from_ne (field 0 2 mem).
Definition pad (n : Z) (mem : list byte) : list byte := mem ++ repeat 0 (Z.to_nat (n - blen mem)).

(** ** IP addresses *)

Inductive SocketAddr :=
| V4 (octets : list byte) (port : Z)
| V6 (octets : list byte) (port flowinfo scope_id : Z).
Definition port_of (a : SocketAddr) : Z := match a with V4 _ port | V6 _ port _ _ => port end.

Definition domain_for (a : SocketAddr) : Z := match a with V4 _ _ => AF_INET | V6 _ _ _ _ => AF_INET6 end.

Definition STORAGE : Z := 128.
Definition sockaddr_in (port s_addr : Z) : list byte :=
  family 0 AF_INET ++ to_ne 2 port ++ to_ne 4 s_addr ++ repeat 0 8.
Definition sockaddr_in6 (port flowinfo : Z) (s6_addr : list byte) (scope_id : Z) : list byte :=
  family 0 AF_INET6 ++ to_ne 2 port ++ to_ne 4 flowinfo ++ s6_addr ++ to_ne 4 scope_id.

Definition to_sockaddr (a : SocketAddr) : list byte * Z :=
  match a with
  | V4 octets port => (pad STORAGE (sockaddr_in (to_be 2 port) (from_ne octets)), 16)
  | V6 octets port flowinfo scope_id => (pad STORAGE (sockaddr_in6 (to_be 2 port) flowinfo octets scope_id), 28)
  end.
Definition from_sockaddr (mem : list byte) : result SocketAddr io_error :=
  let port := from_be 2 (from_ne (field 2 2 mem)) in
  if ss_family mem =? AF_INET then Ok (V4 (to_ne 4 (from_ne (field 4 4 mem))) port)
  else if ss_family mem =? AF_INET6 then
    Ok (V6 (field 8 16 mem) port (from_ne (field 4 4 mem)) (from_ne (field 24 4 mem)))
  else Err InvalidInput.

(** On Windows the octets of an IPv4 address are written and read as bytes. *)
Definition win_to_sockaddr (a : SocketAddr) : list byte * Z :=
  match a with
  | V4 octets port => (pad STORAGE (family 0 AF_INET ++ to_ne 2 (to_be 2 port) ++ octets ++ repeat 0 8), 16)
  | V6 octets port flowinfo scope_id => (pad STORAGE (sockaddr_in6 (to_be 2 port) flowinfo octets scope_id), 28)
  end.
Definition win_from_sockaddr (mem : list byte) : result SocketAddr io_error :=
  let port := from_be 2 (from_ne (field 2 2 mem)) in
  if ss_family mem =? AF_INET then Ok (V4 (field 4 4 mem) port)
  else if ss_family mem =? AF_INET6 then
    Ok (V6 (field 8 16 mem) port (from_ne (field 4 4 mem)) (from_ne (field 24 4 mem)))
  else Err InvalidInput.

(** ** Unix addresses *)

(** What [std]'s [SocketAddr] is: a path, an abstract name, or neither. *)
Inductive UnixAddr := Pathname (path : list byte) | Abstract (name : list byte) | Unnamed.

Definition sun_path_offset : Z := 2.
Definition sockaddr_un (sun_len : Z) (sun_path : list byte) : list byte :=
  family sun_len AF_UNIX ++ pad sun_path_len sun_path.

Definition to_sockaddr_un (path : list byte) : result (list byte * Z) io_error :=
  if bool_decide (0 ∈ path) then Err InvalidInput
  else if sun_path_len <=? blen path then Err InvalidInput
  else
    let len := sun_path_offset + blen path + 1 in
    Ok (sockaddr_un (len `mod` 256) path, len).
Definition to_sockaddr_un_abstract (name : list byte) : result (list byte * Z) io_error :=
  if sun_path_len <? blen name + 1 then Err InvalidInput
  else Ok (sockaddr_un 0 (0 :: name), sun_path_offset + 1 + blen name).
(** [None] is the [unreachable!]. *)
Definition to_sockaddr_un_from_addr (a : UnixAddr) : option (result (list byte * Z) io_error) :=
  match a with
  | Pathname path => Some (to_sockaddr_un path)
  | Abstract name => if abstract_names then Some (to_sockaddr_un_abstract name) else None
  | Unnamed => Some (Ok (sockaddr_un 0 [], sun_path_offset))
  end.

(** What the [len] bytes at an address mean (unix(7)). *)
Fixpoint until_nul (l : list byte) : list byte :=
  match l with [] => [] | b :: l => if b =? 0 then [] else b :: until_nul l end.
Definition un_meaning (mem : list byte) (len : Z) : UnixAddr :=
  let path := field sun_path_offset (len - sun_path_offset) mem in
  match path with
  | [] => Unnamed
  | b :: name => if abstract_names && (b =? 0) then Abstract name else Pathname (until_nul path)
  end.
End platform.

(** ** Options *)

(** [as c_int] of a [u32] or a [u64], and back. *)
Definition as_c_int (n : Z) : Z := as_signed 4 (n `mod` 2 ^ 32).
Definition as_u32 (v : Z) : Z := v `mod` 2 ^ 32.
Definition as_u64 (v : Z) : Z := v `mod` 2 ^ 64.

(** The value a setter hands to [setsockopt_int], and what its getter makes of
    the one it is given. *)
Definition set_bool (b : bool) : Z := Z.b2z b.
Definition get_bool (v : Z) : bool := negb (v =? 0).
Definition set_u32 (n : Z) : Z := as_c_int n.
Definition get_u32 (v : Z) : Z := as_u32 v.

(** [struct linger], of a whole number of seconds. *)
Record linger := mkLinger { l_onoff : Z; l_linger : Z }.
Definition set_linger (secs : option Z) : linger :=
  mkLinger (Z.b2z (bool_decide (is_Some secs))) (match secs with Some s => as_c_int s | None => 0 end).
Definition get_linger (l : linger) : option Z :=
  if l.(l_onoff) =? 0 then None else Some (as_u64 l.(l_linger)).
Definition win_set_linger (secs : option Z) : linger :=
  mkLinger (Z.b2z (bool_decide (is_Some secs))) (match secs with Some s => Z.min s 65535 | None => 0 end).
(** [set_zero_linger]. *)
Definition set_zero_linger : linger := set_linger (Some 0).

(** [SO_BINDTODEVICE], read back into [IFNAMSIZ] bytes. *)
Definition IFNAMSIZ : Z := 16.
Definition set_bind_device (interface : option (list byte)) : list byte := default [] interface.
Definition bind_device (buf : list byte) (len : Z) : option (list byte) :=
  if (len =? 0) || (match buf with b :: _ => b =? 0 | [] => true end) then None else Some (until_nul buf).

(** ** Winsock's errors *)

Definition WSAEINTR : Z := 10004.
Definition WSAEWOULDBLOCK : Z := 10035.
Definition WSAEINPROGRESS : Z := 10036.
Definition WSAEALREADY : Z := 10037.
Definition WSAEADDRINUSE : Z := 10048.
Definition WSAEADDRNOTAVAIL : Z := 10049.
Definition WSAECONNABORTED : Z := 10053.
Definition WSAECONNRESET : Z := 10054.
Definition WSAENOTCONN : Z := 10057.
Definition WSAETIMEDOUT : Z := 10060.
Definition WSAECONNREFUSED : Z := 10061.

(** What a call that failed with this code answers its caller; the kind [std]
    gives [WSAEWOULDBLOCK] is [WouldBlock]. *)
Definition wsa_error {A} (code : Z) : attempt A io_error :=
  if (code =? WSAENOTCONN) || (code =? WSAEALREADY) || (code =? WSAEINPROGRESS) then WouldBlock
  else if code =? WSAEWOULDBLOCK then WouldBlock else Failed (OsError code).

Inductive PKind :=
| ConnectionRefused | ConnectionReset | ConnectionAborted | NotConnected | AddrInUse | AddrNotAvailable
| TimedOut | Interrupted | PWouldBlock | POther.
#[export] Instance PKind_eq_dec : EqDecision PKind.
Proof. solve_decision. Defined.
Definition kind_for (code : Z) : PKind :=
  if code =? WSAECONNREFUSED then ConnectionRefused
  else if code =? WSAECONNRESET then ConnectionReset
  else if code =? WSAECONNABORTED then ConnectionAborted
  else if code =? WSAENOTCONN then NotConnected
  else if code =? WSAEADDRINUSE then AddrInUse
  else if code =? WSAEADDRNOTAVAIL then AddrNotAvailable
  else if code =? WSAETIMEDOUT then TimedOut
  else if code =? WSAEINTR then Interrupted
  else if (code =? WSAEWOULDBLOCK) || (code =? WSAEINPROGRESS) then PWouldBlock
  else POther.

(** How much of a buffer [recv] and [send] are given, with their [i32] length. *)
Definition win_len (n : Z) : Z := Z.min n (2 ^ 31 - 1).

(** ** Bytes *)

Definition bytes_ok (l : list byte) : Prop := Forall (λ b, 0 ≤ b < 256) l.

Lemma to_from_le l : bytes_ok l → to_le_bytes (length l) (from_le_bytes l) = l.
Proof.
  induction 1 as [|b l Hb Hl IH]; simpl; [done|].
  rewrite Z.mul_comm, Z.mod_add, Z.mod_small, Z.div_add, Z.div_small, Z.add_0_l by lia. by rewrite IH.
Qed.
Lemma to_le_ok w n : bytes_ok (to_le_bytes w n).
Proof. revert n. induction w as [|w IH]; intros n; simpl; constructor; [|apply IH]. apply Z.mod_pos_bound. lia. Qed.
Lemma bytes_ok_rev l : bytes_ok l → bytes_ok (rev l).
Proof. intros H. unfold bytes_ok. rewrite rev_alt. by apply Forall_reverse. Qed.

Lemma from_le_bound l : bytes_ok l → 0 ≤ from_le_bytes l < 2 ^ bits (length l).
Proof.
  unfold bits. induction 1 as [|b l Hb Hl IH]; simpl; [lia|].
  rewrite Nat2Z.inj_succ, Z.mul_succ_r, Z.pow_add_r by lia. change (2 ^ 8) with 256. lia.
Qed.

Section proofs.
Context `{Platform}.

Lemma to_ne_length w n : length (to_ne w n) = w.
Proof. apply to_bytes_length. Qed.
Lemma to_from_ne l : bytes_ok l → to_ne (length l) (from_ne l) = l.
Proof.
  intros Hl. unfold to_ne, from_ne, to_bytes, from_bytes, to_be_bytes, from_be_bytes. simpl. destruct ne; [|by apply to_from_le].
  rewrite <-(length_rev l), to_from_le by by apply bytes_ok_rev. apply rev_involutive.
Qed.
Lemma from_to_ne w n : (0 < w)%nat → 0 ≤ n < 2 ^ bits w → from_ne (to_ne w n) = n.
Proof. intros Hw Hn. unfold from_ne. rewrite to_ne_length. by apply (from_to_bytes ne (mkInt w false)). Qed.

(** A port in memory is in network order, whatever the machine's. *)
Lemma to_ne_to_be w n : to_ne w (to_be w n) = to_be_bytes w n.
Proof.
  unfold to_be. assert (length (to_be_bytes w n) = w) as Hl by (unfold to_be_bytes; by rewrite length_rev, to_le_bytes_length).
  rewrite <-Hl at 1. apply to_from_ne. unfold to_be_bytes. apply bytes_ok_rev, to_le_ok.
Qed.
Lemma from_be_to_be w n : 0 ≤ n < 2 ^ bits w → from_be w (to_be w n) = n.
Proof. intros Hn. unfold from_be. rewrite to_ne_to_be. unfold from_be_bytes, to_be_bytes. by rewrite rev_involutive, from_to_le. Qed.
Lemma from_ne_bound l : bytes_ok l → 0 ≤ from_ne l < 2 ^ bits (length l).
Proof.
  intros Hl. unfold from_ne, from_bytes, from_be_bytes. simpl. destruct ne; [|by apply from_le_bound].
  rewrite <-(length_rev l). by apply from_le_bound, bytes_ok_rev.
Qed.

(** ** Fields of a structure *)

Lemma field_skip l off w rest : blen l ≤ off → field off w (l ++ rest) = field (off - blen l) w rest.
Proof.
  intros Hl. unfold field, from, blen in *. rewrite drop_app_ge by lia. do 2 f_equal. lia.
Qed.
Lemma field_here w l rest : blen l = w → field 0 w (l ++ rest) = l.
Proof. intros <-. unfold field, from. simpl. apply upto_app. Qed.

Lemma family_len len fam : blen (family len fam) = 2.
Proof. unfold family, blen. destruct has_len; [done|]. by rewrite to_ne_length. Qed.
Lemma family_read len fam rest : 0 ≤ fam < 256 → ss_family (family len fam ++ rest) = fam.
Proof.
  intros Hf. unfold ss_family, family. destruct has_len eqn:E.
  - unfold field, from, upto. simpl. lia.
  - rewrite field_here by (unfold blen; by rewrite to_ne_length). apply from_to_ne; [lia|]. unfold bits. simpl. lia.
Qed.
Lemma blen_to_ne w n : blen (to_ne w n) = Z.of_nat w.
Proof. unfold blen. by rewrite to_ne_length. Qed.
Lemma blen_pad n mem : blen mem ≤ n → blen (pad n mem) = n.
Proof. intros Hn. unfold pad. rewrite blen_app. unfold blen in *. rewrite repeat_length. lia. Qed.
End proofs.

(** ** What the properties say *)

Definition addr_ok (a : SocketAddr) : Prop :=
  0 ≤ port_of a < 2 ^ 16 ∧
  match a with
  | V4 octets _ => blen octets = 4 ∧ bytes_ok octets
  | V6 octets _ flowinfo scope_id =>
      blen octets = 16 ∧ bytes_ok octets ∧ 0 ≤ flowinfo < 2 ^ 32 ∧ 0 ≤ scope_id < 2 ^ 32
  end.
(** Where an address's octets are. *)
Definition octets_at (a : SocketAddr) (mem : list byte) : list byte :=
  match a with V4 _ _ => field 4 4 mem | V6 _ _ _ _ => field 8 16 mem end.
Definition octets_of (a : SocketAddr) : list byte := match a with V4 octets _ | V6 octets _ _ _ => octets end.

Section sockaddr.
Context `{Platform}.

Lemma s_addr_bytes octets : blen octets = 4 → bytes_ok octets → to_ne 4 (from_ne octets) = octets.
Proof. intros Hl Ho. rewrite <-(to_from_ne octets Ho) at 2. f_equal. unfold blen in Hl. lia. Qed.

Lemma sockaddr_in_len port s_addr : blen (sockaddr_in port s_addr) = 16.
Proof. unfold sockaddr_in. by rewrite !blen_app, family_len, !blen_to_ne. Qed.
Lemma sockaddr_in6_len port flowinfo octets scope_id : blen octets = 16 → blen (sockaddr_in6 port flowinfo octets scope_id) = 28.
Proof. intros Ho. unfold sockaddr_in6. by rewrite !blen_app, family_len, !blen_to_ne, Ho. Qed.

Lemma sin_fields port s_addr rest :
  let mem := sockaddr_in port s_addr ++ rest in
  ss_family mem = AF_INET ∧ field 2 2 mem = to_ne 2 port ∧ field 4 4 mem = to_ne 4 s_addr.
Proof.
  unfold sockaddr_in. simpl. rewrite <-!app_assoc. split; [by apply family_read|]. split.
  - rewrite field_skip, family_len by by rewrite family_len. apply field_here, blen_to_ne.
  - rewrite field_skip, family_len by by rewrite family_len. rewrite field_skip, blen_to_ne by by rewrite blen_to_ne.
    apply field_here, blen_to_ne.
Qed.
Lemma sin6_fields port flowinfo octets scope_id rest : blen octets = 16 →
  let mem := sockaddr_in6 port flowinfo octets scope_id ++ rest in
  ss_family mem = AF_INET6 ∧ field 2 2 mem = to_ne 2 port ∧ field 4 4 mem = to_ne 4 flowinfo ∧
  field 8 16 mem = octets ∧ field 24 4 mem = to_ne 4 scope_id.
Proof.
  intros Ho. unfold sockaddr_in6. simpl. rewrite <-!app_assoc. pose proof AF_INET6_ok. split; [apply family_read; lia|].
  pose proof (family_len 0 AF_INET6) as Hf. pose proof (blen_to_ne 2 port) as Hp. pose proof (blen_to_ne 4 flowinfo) as Hw.
  split_and!; (rewrite field_skip, Hf by (rewrite Hf; lia)); [by apply field_here|..];
    (rewrite field_skip, Hp by (rewrite Hp; lia)); [by apply field_here|..];
    (rewrite field_skip, Hw by (rewrite Hw; lia)); [by apply field_here|].
  rewrite field_skip, Ho by (rewrite Ho; lia). apply field_here, blen_to_ne.
Qed.

Lemma port_back n : 0 ≤ n < 2 ^ 16 → from_be 2 (from_ne (to_ne 2 (to_be 2 n))) = n.
Proof.
  intros Hn. assert (from_ne (to_ne 2 (to_be 2 n)) = to_be 2 n) as ->; [|by apply from_be_to_be].
  apply from_to_ne; [lia|]. unfold to_be. pose proof (from_ne_bound (to_be_bytes 2 n)) as Hb.
  unfold to_be_bytes in *. rewrite length_rev, to_le_bytes_length in Hb. apply Hb, bytes_ok_rev, to_le_ok.
Qed.
Lemma u32_back n : 0 ≤ n < 2 ^ 32 → from_ne (to_ne 4 n) = n.
Proof. intros Hn. apply from_to_ne; [lia|exact Hn]. Qed.

(** C34: on any target - either byte order, with or without a length byte - a
    socket address packed for the kernel and read back is the address; the
    whole structure is written, within [sockaddr_storage]; port and address lie
    in it in network order; and the Windows arms write and read the same bytes. *)
Theorem sockaddr_roundtrip a :
  addr_ok a →
  let '(mem, len) := to_sockaddr a in
  from_sockaddr mem = Ok a ∧ blen mem = STORAGE ∧ 0 < len ≤ STORAGE ∧
  ss_family mem = domain_for a ∧ field 2 2 mem = to_be_bytes 2 (port_of a) ∧ octets_at a mem = octets_of a ∧
  win_to_sockaddr a = (mem, len) ∧ win_from_sockaddr mem = Ok a.
Proof.
  intros [Hp Ha]. pose proof AF_INET6_ok. destruct a as [octets port|octets port flowinfo scope_id];
    cbn [port_of domain_for octets_at octets_of to_sockaddr win_to_sockaddr] in *.
  - destruct Ha as [Hl Ho]. destruct (sin_fields (to_be 2 port) (from_ne octets) (repeat 0 (Z.to_nat (STORAGE - 16)))) as (F1 & F2 & F3).
    pose proof (sockaddr_in_len (to_be 2 port) (from_ne octets)) as Hlen.
    assert (pad STORAGE (family 0 AF_INET ++ to_ne 2 (to_be 2 port) ++ octets ++ repeat 0 8)
            = pad STORAGE (sockaddr_in (to_be 2 port) (from_ne octets))) as -> by (unfold sockaddr_in; by rewrite s_addr_bytes).
    assert (blen (pad STORAGE (sockaddr_in (to_be 2 port) (from_ne octets))) = STORAGE) as Hpad by (apply blen_pad; by rewrite Hlen).
    unfold from_sockaddr, win_from_sockaddr. unfold pad in *. rewrite Hlen in *. rewrite F1, F2, F3. cbn [Z.eqb AF_INET Pos.eqb].
    rewrite port_back, !(s_addr_bytes octets) by done. rewrite to_ne_to_be. by split_and!.
  - destruct Ha as (Hl & Ho & Hf & Hs).
    destruct (sin6_fields (to_be 2 port) flowinfo octets scope_id (repeat 0 (Z.to_nat (STORAGE - 28))) Hl) as (F1 & F2 & F3 & F4 & F5).
    pose proof (sockaddr_in6_len (to_be 2 port) flowinfo octets scope_id Hl) as Hlen.
    assert ((AF_INET6 =? AF_INET) = false) as Hne by (unfold AF_INET; lia).
    unfold from_sockaddr, win_from_sockaddr. unfold pad. rewrite Hlen, F1, F2, F3, F4, F5, Hne, Z.eqb_refl.
    rewrite port_back, !u32_back by done. rewrite to_ne_to_be. split_and!; try done.
    by rewrite blen_app, Hlen.
Qed.

(** ** Unix addresses *)

Lemma until_nul_app l rest : 0 ∉ l → until_nul (l ++ 0 :: rest) = l.
Proof.
  induction l as [|b l IH]; simpl; [done|]. intros [Hb Hl]%not_elem_of_cons.
  destruct (Z.eqb_spec b 0); [congruence|]. by rewrite IH.
Qed.
Lemma until_nul_all l : 0 ∉ l → until_nul l = l.
Proof.
  induction l as [|b l IH]; simpl; [done|]. intros [Hb Hl]%not_elem_of_cons.
  destruct (Z.eqb_spec b 0); [congruence|]. by rewrite IH.
Qed.

Lemma un_field len path n : blen path ≤ sun_path_len → 0 ≤ n → field sun_path_offset n (sockaddr_un len path) = upto n (pad sun_path_len path).
Proof.
  intros Hp Hn. unfold sockaddr_un, sun_path_offset. rewrite field_skip by by rewrite family_len.
  rewrite family_len. unfold field, from. simpl. done.
Qed.
Lemma un_blen len path : blen path ≤ sun_path_len → blen (sockaddr_un len path) = sun_path_offset + sun_path_len.
Proof. intros Hp. unfold sockaddr_un. by rewrite blen_app, family_len, blen_pad. Qed.

(** A path is refused exactly if it has a NUL or does not fit [sun_path] with
    the NUL after it, an abstract name if it does not fit after the NUL before
    it; what is packed lies within [sockaddr_un], and means the address it was
    packed from - but for the empty path.  The [unreachable!] is reached only
    by an abstract name on a target that has none. *)
Theorem unix_addr_roundtrip a :
  (to_sockaddr_un_from_addr a = None ↔ abstract_names = false ∧ ∃ name, a = Abstract name) ∧
  (∀ path, a = Pathname path →
     (to_sockaddr_un_from_addr a = Some (Err InvalidInput) ↔ 0 ∈ path ∨ sun_path_len < blen path + 1)) ∧
  (∀ name, a = Abstract name → abstract_names = true →
     (to_sockaddr_un_from_addr a = Some (Err InvalidInput) ↔ sun_path_len < 1 + blen name)) ∧
  ∀ mem len, to_sockaddr_un_from_addr a = Some (Ok (mem, len)) →
    blen mem = sun_path_offset + sun_path_len ∧ 0 < len ≤ blen mem ∧ (a ≠ Pathname [] → un_meaning mem len = a).
Proof.
  pose proof sun_path_ok as Hok. split; [|split; [|split]].
  - destruct a; simpl; [naive_solver|destruct abstract_names; naive_solver|naive_solver].
  - intros path ->. simpl. unfold to_sockaddr_un. case_bool_decide; [by split; [left|]|].
    destruct (Z.leb_spec sun_path_len (blen path)); (split; [|by intros [?|?]; (done || lia)]); [right; lia|done].
  - intros name -> Habs. simpl. rewrite Habs. unfold to_sockaddr_un_abstract.
    destruct (Z.ltb_spec sun_path_len (blen name + 1)); (split; [|lia || done]); [intros; lia|done].
  - intros mem len. destruct a as [path|name|]; simpl.
    + unfold to_sockaddr_un. case_bool_decide as Hn; [done|]. destruct (Z.leb_spec sun_path_len (blen path)); [done|].
      intros [= <- <-]. pose proof (blen_nonneg path). rewrite un_blen by lia. unfold sun_path_offset. split; [done|]. split; [lia|].
      intros Hne. unfold un_meaning. rewrite un_field by (unfold sun_path_offset; lia).
      assert (∀ n, n = blen path + 1 → upto n (pad sun_path_len path) = path ++ [0]) as Hu.
      { intros n ->. unfold pad. replace (Z.to_nat (sun_path_len - blen path)) with (S (Z.to_nat (sun_path_len - blen path - 1))) by lia.
        simpl. rewrite cons_middle, app_assoc. replace (blen path + 1) with (blen (path ++ [0])) by (rewrite blen_app; unfold blen; simpl; lia).
        apply upto_app. }
      rewrite Hu by (unfold sun_path_offset; lia). destruct path as [|b path]; [done|]. simpl.
      assert (b ≠ 0) as Hb by (intros ->; destruct Hn; left). rewrite (proj2 (Z.eqb_neq _ _) Hb), andb_false_r.
      f_equal. f_equal. apply until_nul_app. intros ?. destruct Hn. by right.
    + destruct abstract_names eqn:Habs; [|done]. unfold to_sockaddr_un_abstract.
      destruct (Z.ltb_spec sun_path_len (blen name + 1)); [done|]. intros [= <- <-]. pose proof (blen_nonneg name).
      assert (blen (0 :: name) = blen name + 1) as Hl by (unfold blen; simpl; lia).
      rewrite un_blen by lia. unfold sun_path_offset. split; [done|]. split; [lia|]. intros _.
      unfold un_meaning. rewrite un_field by (unfold sun_path_offset; lia). unfold pad.
      match goal with |- context [upto ?n _] => replace n with (blen (0 :: name)) by (unfold sun_path_offset; lia) end.
      rewrite upto_app. by rewrite Habs.
    + intros [= <- <-]. rewrite un_blen by (unfold blen; simpl; lia). unfold sun_path_offset. split; [done|]. split; [lia|]. intros _.
      unfold un_meaning. by rewrite un_field by (unfold blen, sun_path_offset; simpl; lia).
Qed.
End sockaddr.

(** ** Options *)

Lemma as_c_int_range n : - 2 ^ 31 ≤ as_c_int n < 2 ^ 31.
Proof.
  unfold as_c_int, as_signed, bits. pose proof (Z.mod_pos_bound n (2 ^ 32) ltac:(lia)).
  change (8 * Z.of_nat 4 - 1) with 31. change (8 * Z.of_nat 4) with 32. destruct (Z.ltb_spec (n `mod` 2 ^ 32) (2 ^ 31)); lia.
Qed.
Lemma as_c_int_mod n : as_c_int n `mod` 2 ^ 32 = n `mod` 2 ^ 32.
Proof.
  unfold as_c_int, as_signed, bits. change (8 * Z.of_nat 4 - 1) with 31. change (8 * Z.of_nat 4) with 32.
  destruct (n `mod` 2 ^ 32 <? 2 ^ 31); [by rewrite Z.mod_mod|].
  replace (n `mod` 2 ^ 32 - 2 ^ 32) with (n `mod` 2 ^ 32 + (-1) * 2 ^ 32) by lia. rewrite Z.mod_add by lia. by rewrite Z.mod_mod.
Qed.

(** The conversions of the options.  A [u32] survives the [c_int] it is set
    through, whatever its top bit; so does a [bool]; the kernel is never given a
    value outside [c_int].  A linger of less than [2 ^ 31] seconds reads back as
    it was set, and on Windows any does up to the 65535 it is cut at.  An
    interface's name reads back without the zeros after it. *)
Theorem options_roundtrip :
  (∀ n, 0 ≤ n < 2 ^ 32 → get_u32 (set_u32 n) = n ∧ - 2 ^ 31 ≤ set_u32 n < 2 ^ 31) ∧
  (∀ b, get_bool (set_bool b) = b) ∧
  (∀ s, 0 ≤ s < 2 ^ 31 → get_linger (set_linger (Some s)) = Some s) ∧
  (∀ s, 0 ≤ s < 2 ^ 64 → get_linger (win_set_linger (Some s)) = Some (Z.min s 65535)) ∧
  get_linger (set_linger None) = None ∧ get_linger (win_set_linger None) = None ∧
  (∀ name len, name ≠ [] → 0 ∉ name → blen name ≤ IFNAMSIZ → 0 < len → bind_device (pad IFNAMSIZ name) len = Some name) ∧
  (∀ len, bind_device (repeat 0 16) len = None).
Proof.
  split_and!; [| | | |done|done| |].
  - intros n Hn. unfold get_u32, set_u32, as_u32. split; [|apply as_c_int_range]. rewrite as_c_int_mod. by apply Z.mod_small.
  - by intros [].
  - intros s Hs. unfold get_linger, set_linger. simpl. f_equal. unfold as_c_int, as_u64, as_signed, bits.
    rewrite (Z.mod_small s) by lia. change (8 * Z.of_nat 4 - 1) with 31.
    destruct (Z.ltb_spec s (2 ^ 31)); [|lia]. apply Z.mod_small. lia.
  - intros s Hs. unfold get_linger, win_set_linger, as_u64. simpl. f_equal. apply Z.mod_small. lia.
  - intros name len Hne Hn Hl Hlen. unfold bind_device, pad. rewrite (proj2 (Z.eqb_neq _ _)) by lia.
    destruct name as [|b name]; [done|]. simpl. assert (b ≠ 0) as Hb by (intros ->; destruct Hn; left).
    rewrite (proj2 (Z.eqb_neq _ _) Hb). do 2 f_equal.
    assert (0 ∉ name) as Hn' by (intros ?; destruct Hn; by right).
    destruct (Z.to_nat (IFNAMSIZ - blen (b :: name))); simpl; [rewrite app_nil_r; by apply until_nul_all|by apply until_nul_app].
  - intros len. unfold bind_device. by rewrite orb_true_r.
Qed.

(** A linger of [2 ^ 32] seconds is one of none, which resets the connection on
    close; one of [2 ^ 31] is negative, and reads back as [2 ^ 64 - 2 ^ 31]. *)
Example linger_wraps :
  set_linger (Some (2 ^ 32)) = set_zero_linger ∧ l_linger (set_linger (Some (2 ^ 31))) = - 2 ^ 31 ∧
  get_linger (set_linger (Some (2 ^ 31))) = Some (2 ^ 64 - 2 ^ 31).
Proof. done. Qed.

(** Winsock: what makes a caller wait; a socket that is not connected does,
    where [kind_for] knows better. *)
Lemma wsa_waits {A} code :
  wsa_error (A := A) code = WouldBlock ↔ code ∈ [WSAENOTCONN; WSAEALREADY; WSAEINPROGRESS; WSAEWOULDBLOCK].
Proof.
  unfold wsa_error. rewrite !elem_of_cons, elem_of_nil. split.
  - destruct (Z.eqb_spec code WSAENOTCONN); [auto|]. destruct (Z.eqb_spec code WSAEALREADY); [auto|].
    destruct (Z.eqb_spec code WSAEINPROGRESS); [auto|]. destruct (Z.eqb_spec code WSAEWOULDBLOCK); [auto 6|done].
  - by intros [->|[->|[->|[->|[]]]]].
Qed.
Example not_connected_waits : wsa_error (A := unit) WSAENOTCONN = WouldBlock ∧ kind_for WSAENOTCONN = NotConnected.
Proof. done. Qed.

(** ** Targets *)

#[program] Definition linux_x86 : Platform := {|
  ne := LittleEndian; has_len := false; AF_INET6 := 10; sun_path_len := 108; abstract_names := true;
|}.
Solve Obligations with done.
#[program] Definition linux_s390x : Platform := {|
  ne := BigEndian; has_len := false; AF_INET6 := 10; sun_path_len := 108; abstract_names := true;
|}.
Solve Obligations with done.
#[program] Definition macos_arm : Platform := {|
  ne := LittleEndian; has_len := true; AF_INET6 := 30; sun_path_len := 104; abstract_names := false;
|}.
Solve Obligations with done.

Lemma sockaddr_roundtrip_witness :
  let a := V4 [127; 0; 0; 1] 8080 in
  @from_sockaddr linux_x86 (@to_sockaddr linux_x86 a).1 = Ok a ∧ @from_sockaddr macos_arm (@to_sockaddr macos_arm a).1 = Ok a ∧
  field 0 8 (@to_sockaddr linux_x86 a).1 = [2; 0; 31; 144; 127; 0; 0; 1] ∧
  field 0 8 (@to_sockaddr linux_s390x a).1 = [0; 2; 31; 144; 127; 0; 0; 1].
Proof.
  intros a. assert (addr_ok a) as Ha.
  { split; [by split|]. split; [done|]. repeat constructor; done. }
  pose proof (@sockaddr_roundtrip linux_x86 a Ha) as H1. pose proof (@sockaddr_roundtrip macos_arm a Ha) as H2.
  split; [exact (proj1 H1)|]. split; [exact (proj1 H2)|]. done.
Defined.

(** The empty path is packed as the empty abstract name, where [std] takes it
    for no name at all. *)
Example unix_empty_path :
  match @to_sockaddr_un linux_x86 [] with
  | Ok (mem, len) => len = 3 ∧ @un_meaning linux_x86 mem len = Abstract []
  | Err _ => False
  end.
Proof. done. Qed.
