(* ===== verification/Stdio.v ===== *)
(** The standard streams ([src/src/io/stdio.rs]): handles that send one
    operation at a time to the blocking pool, under a lock per stream.

    A [world] is one stream: its handles, who holds its lock, the operations
    that are on the pool or done, and [std]'s stream beneath.  [stdin] reads,
    [stdout] and [stderr] write; their [poll_read] and [poll_write_locked] are
    the same machine, [poll_handle]. *)

From S2P Require Import Prelude AsyncIo.

Inductive request := RRead (want : Z) | RWrite (data : list byte).

(** [State], with what its future is at: waiting for the lock, or for the pool. *)
Inductive state := Idle | Waiting (r : request) | Running (job : nat).

(** [std]'s handles: what is still to be read, what was written and seen, and
    what a line-buffered one keeps. *)
Record std_stream := mkStd { input : list byte; shown : list byte; kept : list byte; line_buffered : bool }.

Fixpoint after_last_nl (l : list byte) : list byte * list byte :=
  match l with
  | [] => ([], [])
  | b :: l =>
      match after_last_nl l with
      | ([], tail) => if b =? 10 then ([b], tail) else ([], b :: tail)
      | (lines, tail) => (b :: lines, tail)
      end
  end.
(** [write_all], whole or up to where it failed. *)
Definition std_write (data : list byte) (s : std_stream) : std_stream :=
  if s.(line_buffered) then
    match after_last_nl (s.(kept) ++ data) with (lines, tail) => mkStd s.(input) (s.(shown) ++ lines) tail true end
  else mkStd s.(input) (s.(shown) ++ data) [] false.
Definition std_read (n : Z) (s : std_stream) : list byte * std_stream :=
  (upto n s.(input), mkStd (from n s.(input)) s.(shown) s.(kept) s.(line_buffered)).

(** A write answers the length of what it wrote, here all of it. *)
Definition outcome : Type := result (list byte) io_error.

Record world := mkWorld {
  handles : gmap nat state;
  lock : option nat;
  jobs : gmap nat request;
  results : gmap nat outcome;
  next_job : nat;
  std : std_stream;
  abandoned : nat;             (* handles dropped with an operation on the pool *)
}.

Definition set_state (h : nat) (s : state) (w : world) : world :=
  mkWorld (<[h := s]> w.(handles)) w.(lock) w.(jobs) w.(results) w.(next_job) w.(std) w.(abandoned).

(** The boxed future, polled: [free] is whether the lock, when nobody has it, is
    granted now.  An operation that is done by the end of the poll that starts it
    is as one done before the next poll. *)
Definition poll_busy (free : bool) (h : nat) (s : state) (w : world) : world * poll outcome :=
  match s with
  | Idle => (w, Pending)
  | Waiting r =>
      match w.(lock) with
      | None =>
          if free then
            let w := set_state h (Running w.(next_job)) w in
            (mkWorld w.(handles) (Some h) (<[w.(next_job) := r]> w.(jobs)) w.(results) (S w.(next_job)) w.(std) w.(abandoned), Pending)
          else (set_state h s w, Pending)
      | Some _ => (set_state h s w, Pending)
      end
  | Running j =>
      match w.(results) !! j with
      | None => (w, Pending)
      | Some a =>
          let w := set_state h Idle w in
          (mkWorld w.(handles) None w.(jobs) (delete j w.(results)) w.(next_job) w.(std) w.(abandoned), Ready a)
      end
  end.
(** [poll_read] and [poll_write_locked]: [r] is what an idle handle sets out to do. *)
Definition poll_handle (free : bool) (h : nat) (r : request) (w : world) : world * poll outcome :=
  match w.(handles) !! h with
  | None | Some Idle => poll_busy free h (Waiting r) w
  | Some s => poll_busy free h s w
  end.

Definition poll_write (free : bool) (h : nat) (buf : list byte) (w : world) : world * poll (result Z io_error) :=
  match poll_handle free h (RWrite buf) w with
  | (w, Ready (Ok d)) => (w, Ready (Ok (blen d)))
  | (w, Ready (Err e)) => (w, Ready (Err e))
  | (w, Pending) => (w, Pending)
  end.
(** [None] is the panic of the slice, or of [advance]. *)
Definition poll_read (free : bool) (h : nat) (b : ReadBuf) (w : world) : option (world * poll (result unit io_error) * ReadBuf) :=
  match poll_handle free h (RRead (remaining b)) w with
  | (w, Ready (Ok d)) =>
      if blen d <=? remaining b then
        match advance (H := dev_profile) (blen d) (write_unfilled d b) with
        | Some b => Some (w, Ready (Ok tt), b)
        | None => None
        end
      else None
  | (w, Ready (Err e)) => Some (w, Ready (Err e), b)
  | (w, Pending) => Some (w, Pending, b)
  end.
Definition poll_flush (w : world) : world * poll (result unit io_error) := (w, Ready (Ok tt)).
Definition poll_shutdown (w : world) : world * poll (result unit io_error) := poll_flush w.

(** A job runs: it reads [k] bytes at most, or writes them all, or fails after
    [k]; a panic of it is [Other]. *)
Definition run_job (k : Z) (fails : option io_error) (j : nat) (w : world) : option world :=
  match w.(jobs) !! j with
  | None => None
  | Some r =>
      let '(a, s) :=
        match r, fails with
        | RRead want, None => let '(d, s) := std_read (Z.min k want) w.(std) in (Ok d, s)
        | RRead _, Some e => (Err e, w.(std))
        | RWrite data, None => (Ok data, std_write data w.(std))
        | RWrite data, Some e => (Err e, std_write (upto k data) w.(std))
        end in
      Some (mkWorld w.(handles) w.(lock) (delete j w.(jobs)) (<[j := a]> w.(results)) w.(next_job) s w.(abandoned))
  end.
(** A handle dropped: its future goes, and the guard with it; the job goes on. *)
Definition drop_handle (h : nat) (w : world) : world :=
  match w.(handles) !! h with
  | Some (Running j) =>
      mkWorld (delete h w.(handles)) None w.(jobs) w.(results) w.(next_job) w.(std)
        (w.(abandoned) + (if bool_decide (is_Some (w.(jobs) !! j)) then 1 else 0))%nat
  | _ => mkWorld (delete h w.(handles)) w.(lock) w.(jobs) w.(results) w.(next_job) w.(std) w.(abandoned)
  end.

Inductive move :=
| MPoll (free : bool) (h : nat) (r : request)
| MJob (k : Z) (fails : option io_error) (j : nat)
| MDrop (h : nat).
Definition stdio_move (m : move) (w : world) : option world :=
  match m with
  | MPoll free h r => Some (poll_handle free h r w).1
  | MJob k fails j => if 0 <=? k then run_job k fails j w else None
  | MDrop h => Some (drop_handle h w)
  end.
Definition stdio_init (s : std_stream) : world := mkWorld ∅ None ∅ ∅ 0 s 0.
Definition stdio_reachable (s : std_stream) : world → Prop := reachable (.= stdio_init s) (moves stdio_move).

(** ** The lock *)

Definition unfinished (j : nat) (w : world) : Prop := is_Some (w.(jobs) !! j).
(** The jobs nobody waits for. *)
Definition others (w : world) : gmap nat request :=
  match w.(lock) with
  | Some h => match w.(handles) !! h with Some (Running j) => delete j w.(jobs) | _ => w.(jobs) end
  | None => w.(jobs)
  end.

Record stdio_inv (w : world) : Prop := {
  i_running h j : w.(handles) !! h = Some (Running j) → w.(lock) = Some h ∧ (j < w.(next_job))%nat;
  i_lock h : w.(lock) = Some h → ∃ j, w.(handles) !! h = Some (Running j);
  i_jobs j : unfinished j w → (j < w.(next_job))%nat ∧ w.(results) !! j = None;
  i_results j : is_Some (w.(results) !! j) → (j < w.(next_job))%nat;
  i_others : (size (others w) ≤ w.(abandoned))%nat;
}.

Lemma delete_size {A} (m : gmap nat A) j : (size (delete j m) ≤ size m)%nat.
Proof. destruct (m !! j) eqn:E; [rewrite map_size_delete_Some by eauto; lia|by rewrite delete_id]. Qed.
Lemma delete_twice_size {A} (m : gmap nat A) j k : (size (delete k (delete j m)) ≤ size (delete k m))%nat.
Proof. rewrite delete_delete. apply delete_size. Qed.

(** A step that leaves lock and jobs alone, and what runs. *)
Lemma inv_set_state h s w : stdio_inv w → (∀ j, w.(handles) !! h ≠ Some (Running j)) → (∀ j, s ≠ Running j) →
  stdio_inv (set_state h s w).
Proof.
  intros [Hr Hl Hj Hres Ho] Hn Hs. unfold set_state. constructor; simpl; [| |done|done|].
  - intros h' j. rewrite lookup_insert_Some. intros [[<- ?]|[? ?]]; [by destruct (Hs j)|eauto].
  - intros h' E. destruct (Hl h' E) as [j Hj']. exists j. rewrite lookup_insert_ne; [done|]. intros ->. by apply (Hn j).
  - unfold others in *. simpl. destruct (lock w) as [h'|] eqn:E; [|done]. destruct (Hl h' eq_refl) as [j Hj'].
    rewrite lookup_insert_ne; [done|]. intros ->. by apply (Hn j).
Qed.

Lemma inv_poll_busy free h s w : stdio_inv w → s ≠ Idle →
  (w.(handles) !! h = Some s ∨ (∃ r, s = Waiting r) ∧ ∀ j, w.(handles) !! h ≠ Some (Running j)) →
  stdio_inv (poll_busy free h s w).1.
Proof.
  intros HI Hne Hs. pose proof HI as [Hr Hl Hj Hres Ho]. destruct s as [|r|j]; [done| |].
  - assert (∀ j, w.(handles) !! h ≠ Some (Running j)) as Hn by (intros j; destruct Hs as [Hs|[_ Hs]]; [by rewrite Hs|apply Hs]).
    simpl. destruct (lock w) as [h'|] eqn:El; [by apply inv_set_state|]. destruct free; [|by apply inv_set_state].
    unfold others in Ho. rewrite El in Ho. unfold set_state. constructor; simpl.
    + intros h' j. rewrite lookup_insert_Some. intros [[<- [= <-]]|[? E]]; [split; [done|lia]|].
      destruct (Hr _ _ E) as [E' _]. by rewrite E' in El.
    + intros h' [= <-]. exists (next_job w). by rewrite lookup_insert_eq.
    + intros j [r' E]. simpl in E. apply lookup_insert_Some in E as [[<- _]|[_ E]]; [|destruct (Hj j ltac:(by eexists)); split; [lia|done]].
      split; [lia|]. destruct (results w !! next_job w) eqn:E; [|done]. pose proof (i_results _ HI (next_job w) ltac:(by eexists)). lia.
    + intros j Hj'. specialize (Hres j Hj'). lia.
    + unfold others. simpl. rewrite lookup_insert_eq, delete_insert_id; [done|].
      destruct (jobs w !! next_job w) as [r'|] eqn:E; [|done]. destruct (Hj (next_job w) ltac:(by eexists)). lia.
  - destruct Hs as [Hs|[[? ?] _]]; [|done]. simpl. destruct (results w !! j) as [a|] eqn:Ea; [|done].
    destruct (Hr _ _ Hs) as [El Hlt]. unfold others in Ho. rewrite El, Hs in Ho. unfold set_state. constructor; simpl; [|done| | |].
    + intros h' j'. rewrite lookup_insert_Some. intros [[<- ?]|[Hne' E]]; [done|]. destruct (Hr _ _ E) as [E' _]. congruence.
    + intros j' H'. destruct (Hj j' H') as [? ?]. split; [done|]. by apply lookup_delete_None; right.
    + intros j' [? [_ E]%lookup_delete_Some]. apply (i_results _ HI). by eexists.
    + unfold others. simpl. rewrite delete_id in Ho; [done|].
      destruct (jobs w !! j) eqn:E; [|done]. destruct (Hj j ltac:(by eexists)). congruence.
Qed.

Lemma inv_run_job k fails j w w' : stdio_inv w → run_job k fails j w = Some w' → stdio_inv w'.
Proof.
  intros HI. pose proof HI as [Hr Hl Hj Hres Ho]. unfold run_job. destruct (jobs w !! j) as [r|] eqn:Ej; [|done].
  set (p := match r, fails with
            | RRead want, None => _ | RRead _, Some e => _ | RWrite data, None => _ | RWrite data, Some e => _ end).
  destruct p as [a s]. intros [= <-]. destruct (Hj j ltac:(by eexists)) as [Hlt _]. constructor; simpl; [done|done| | |].
  - intros j' [r' E]. simpl in E. apply lookup_delete_Some in E as [? E]. destruct (Hj j' ltac:(by eexists)).
    split; [done|]. by rewrite lookup_insert_ne.
  - intros j' [a' [[<- _]|[_ E]]%lookup_insert_Some]; [done|]. apply Hres. by eexists.
  - unfold others in *. simpl. destruct (lock w) as [h|]; [|pose proof (delete_size (jobs w) j); lia].
    destruct (handles w !! h) as [[]|]; try (pose proof (delete_size (jobs w) j); lia).
    pose proof (delete_twice_size (jobs w) j job). lia.
Qed.

Lemma inv_drop h w : stdio_inv w → stdio_inv (drop_handle h w).
Proof.
  intros HI. pose proof HI as [Hr Hl Hj Hres Ho]. unfold drop_handle.
  destruct (handles w !! h) as [[|r|j]|] eqn:Eh.
  3: { destruct (Hr _ _ Eh) as [El _]. unfold others in Ho. rewrite El, Eh in Ho. constructor; simpl; try done.
    - intros h' j' [? E]%lookup_delete_Some. destruct (Hr _ _ E). congruence.
    - unfold others. simpl. case_bool_decide as Hu; [|rewrite delete_id in Ho; [lia|by apply eq_None_not_Some]].
      rewrite map_size_delete_Some in Ho by done. lia. }
  all: constructor; simpl; try done;
    [by intros h' j' [? E]%lookup_delete_Some; apply Hr
    |intros h' E; destruct (Hl h' E) as [j' E']; exists j'; rewrite lookup_delete_ne; [done|congruence]
    |unfold others in *; simpl; destruct (lock w) as [h'|] eqn:El; [|done];
     destruct (Hl h' eq_refl) as [j' E']; rewrite lookup_delete_ne by congruence; done].
Qed.

Lemma inv_poll free h r w : stdio_inv w → stdio_inv (poll_handle free h r w).1.
Proof.
  intros HI. unfold poll_handle. destruct (handles w !! h) as [[| |j]|] eqn:Eh;
    apply inv_poll_busy; try done; [right|by left|by left|right]; (split; [eauto|]); intros j; by rewrite Eh.
Qed.

Lemma stdio_reachable_inv s w : stdio_reachable s w → stdio_inv w.
Proof.
  apply invariant_reachable.
  - intros ? ->. by constructor; try done; intros ? [].
  - intros w1 w2 HI [[free h r|k fails j|h] Hm]; simpl in Hm.
    + injection Hm as <-. by apply inv_poll.
    + destruct (0 <=? k); [|done]. by eapply inv_run_job.
    + injection Hm as <-. by apply inv_drop.
Qed.

(** A handle with an operation on the blocking pool holds the stream's
    lock, and nobody else does; so of the operations on the pool at most one is
    of a handle, and the others are those of handles dropped in the middle -
    whose guard went with their future, while the operation goes on. *)
Theorem stdio_serial s w :
  stdio_reachable s w →
  (∀ h j, w.(handles) !! h = Some (Running j) → w.(lock) = Some h) ∧
  (∀ h1 h2 j1 j2, w.(handles) !! h1 = Some (Running j1) → w.(handles) !! h2 = Some (Running j2) → h1 = h2) ∧
  (w.(lock) = None → ∀ h j, w.(handles) !! h ≠ Some (Running j)) ∧
  (size w.(jobs) ≤ S w.(abandoned))%nat.
Proof.
  intros HI%stdio_reachable_inv. destruct HI as [Hr Hl _ _ Ho]. split_and!.
  - intros h j E. by apply (Hr h j).
  - intros h1 h2 j1 j2 E1 E2. destruct (Hr _ _ E1), (Hr _ _ E2). congruence.
  - intros E h j E'. destruct (Hr _ _ E'). congruence.
  - unfold others in Ho. destruct (lock w) as [h|] eqn:El; [|lia]. destruct (Hl h eq_refl) as [j E]. rewrite E in Ho.
    destruct (jobs w !! j) eqn:Ej; [rewrite map_size_delete_Some in Ho by eauto; lia|rewrite delete_id in Ho by done; lia].
Qed.

(** ** What is written, and what is seen of it *)

Definition accepted (s : std_stream) : list byte := s.(shown) ++ s.(kept).

Lemma after_last_nl_app l : let '(lines, tail) := after_last_nl l in lines ++ tail = l ∧ 10 ∉ tail.
Proof.
  induction l as [|b l IH]; simpl; [split; [done|by apply not_elem_of_nil]|].
  destruct (after_last_nl l) as [[|x lines] tail]; destruct IH as [<- Ht].
  - destruct (Z.eqb_spec b 10) as [->|]; [done|]. split; [done|]. by apply not_elem_of_cons.
  - done.
Qed.
Lemma std_write_accepted data s : (s.(line_buffered) = false → s.(kept) = []) → accepted (std_write data s) = accepted s ++ data.
Proof.
  intros Hk. unfold std_write, accepted. destruct (line_buffered s); simpl.
  - pose proof (after_last_nl_app (kept s ++ data)) as H. destruct (after_last_nl _) as [lines tail]. destruct H as [H _].
    simpl. by rewrite <-app_assoc, H, app_assoc.
  - rewrite (Hk eq_refl), !app_nil_r. done.
Qed.

Definition fresh (h : nat) (w : world) : Prop := w.(handles) !! h = None ∨ w.(handles) !! h = Some Idle.

Lemma poll_fresh h r w : fresh h w → w.(lock) = None →
  poll_handle true h r w =
  (mkWorld (<[h := Running w.(next_job)]> w.(handles)) (Some h) (<[w.(next_job) := r]> w.(jobs)) w.(results)
     (S w.(next_job)) w.(std) w.(abandoned), Pending).
Proof. intros Hf El. unfold poll_handle, poll_busy, set_state. destruct Hf as [-> | ->]; by rewrite El. Qed.

Lemma poll_done free h r j a w : w.(handles) !! h = Some (Running j) → w.(results) !! j = Some a →
  (poll_handle free h r w).2 = Ready a ∧ (poll_handle free h r w).1.(std) = w.(std) ∧
  (poll_handle free h r w).1.(lock) = None ∧ fresh h (poll_handle free h r w).1.
Proof.
  intros Eh Er. unfold poll_handle, poll_busy. rewrite Eh, Er. simpl. split_and!; try done. right. apply lookup_insert_eq.
Qed.

(** One operation on a handle, seen through.  The first poll of a write
    waits and puts the write on the pool; once it has run, the next poll
    answers - whatever buffer that one is given - the length of the first
    buffer, all of which the stream has accepted, once, after what it had; the
    lock is free again.  If it failed, the error is the answer and a beginning
    of the buffer was accepted. *)
Theorem stdio_write_exact s w h data data' fails k free :
  stdio_reachable s w → fresh h w → w.(lock) = None → (w.(std).(line_buffered) = false → w.(std).(kept) = []) → 0 ≤ k →
  ∃ w1 w2 w3, poll_write true h data w = (w1, Pending) ∧ run_job k fails w.(next_job) w1 = Some w2 ∧
    poll_write free h data' w2 = (w3, Ready (match fails with None => Ok (blen data) | Some e => Err e end)) ∧
    accepted w3.(std) = accepted w.(std) ++ (match fails with None => data | Some _ => upto k data end) ∧
    w3.(lock) = None ∧ fresh h w3.
Proof.
  intros HR Hf El Hk H0. unfold poll_write. rewrite (poll_fresh _ _ _ Hf El).
  set (a := match fails with None => Ok data | Some e => Err e end).
  set (s2 := std_write (match fails with None => data | Some _ => upto k data end) w.(std)).
  set (w2 := mkWorld (<[h := Running w.(next_job)]> w.(handles)) (Some h) (delete w.(next_job) (<[w.(next_job) := RWrite data]> w.(jobs)))
    (<[w.(next_job) := a]> w.(results)) (S w.(next_job)) s2 w.(abandoned)).
  destruct (poll_done free h (RWrite data') w.(next_job) a w2) as (Ha & Hs & Hl & Hf2); [apply lookup_insert_eq..|].
  eexists _, w2, (poll_handle free h (RWrite data') w2).1. split; [done|]. split; [|split; [|split; [|done]]].
  - unfold run_job. simpl. rewrite lookup_insert_eq. unfold w2, s2, a. by destruct fails.
  - destruct (poll_handle free h (RWrite data') w2) as [w3 p]. simpl in Ha. subst p. unfold a. by destruct fails.
  - rewrite Hs. unfold w2, s2. simpl. by rewrite std_write_accepted.
Qed.

Definition no_lines : std_stream := mkStd [] [] [] true.

(** A line without its end is written, answered and flushed; nobody sees it. *)
Lemma stdio_write_exact_witness :
  ∃ w1 w2 w3, poll_write true 1 [104; 105] (stdio_init no_lines) = (w1, Pending) ∧ run_job 0 None 0 w1 = Some w2 ∧
    poll_write true 1 [104; 105] w2 = (w3, Ready (Ok 2)) ∧ (poll_flush w3).2 = Ready (Ok tt) ∧
    accepted (poll_flush w3).1.(std) = [104; 105] ∧ (poll_flush w3).1.(std).(shown) = [].
Proof.
  destruct (stdio_write_exact no_lines (stdio_init no_lines) 1 [104; 105] [104; 105] None 0 true
    ltac:(by apply reachable_init) ltac:(by left) eq_refl ltac:(done) ltac:(done)) as (w1 & w2 & w3 & E1 & E2 & E3 & Ha & _).
  exists w1, w2, w3. split; [exact E1|]. split; [exact E2|]. split; [exact E3|]. split; [done|]. split; [exact Ha|].
  vm_compute in E1. injection E1 as <-. vm_compute in E2. injection E2 as <-. vm_compute in E3. injection E3 as <-. done.
Defined.

(** Abandoned and taken up with another buffer: a write of one byte answers
    three, at which the loop of [write_all] panics; a read into less room than
    the first had panics itself. *)
Example stdio_stale_answers :
  let w1 := (poll_write true 1 [1; 2; 3] (stdio_init no_lines)).1 in
  let r1 := match poll_read true 1 (read_buf_new [0; 0; 0; 0]) (stdio_init (mkStd [1; 2; 3; 4] [] [] false)) with
            | Some (w, _, _) => w | None => stdio_init no_lines end in
  (match run_job 0 None 0 w1 with Some w2 => (poll_write true 1 [9] w2).2 = Ready (Ok 3) | None => False end) ∧
  match run_job 4 None 0 r1 with Some r2 => poll_read true 1 (read_buf_new [0; 0]) r2 = None | None => False end.
Proof. done. Qed.

(** A reader dropped in the middle leaves its read on the pool and the lock free:
    the next reader's goes beside it. *)
Definition two_readers : list move := [MPoll true 1 (RRead 4); MDrop 1; MPoll true 2 (RRead 4)].
Lemma stdio_serial_witness :
  match run_moves stdio_move two_readers (stdio_init no_lines) with
  | Some w => stdio_reachable no_lines w ∧ size w.(jobs) = 2%nat ∧ w.(abandoned) = 1%nat ∧ w.(lock) = Some 2%nat ∧ (size w.(jobs) ≤ 2)%nat
  | None => False
  end.
Proof.
  destruct (run_moves stdio_move two_readers (stdio_init no_lines)) as [w|] eqn:E; [|by vm_compute in E].
  assert (stdio_reachable no_lines w) as HR.
  { exists (stdio_init no_lines). split; [done|]. eapply run_moves_rtc; [|exact E]. intros m c c' ?. by exists m. }
  destruct (stdio_serial no_lines w HR) as (_ & _ & _ & Hs). vm_compute in E. injection E as <-. done.
Defined.
