(* ===== verification/ReadDir.v ===== *)
(** [fs::ReadDir] ([src/src/fs/read_dir.rs]): the entries of a directory,
    read ahead on the blocking pool in chunks of [CHUNK_SIZE].

    [std::fs::ReadDir] is an iterator over system calls: the class
    [StdReadDir].  The pool is seen as in [Files]: [pool_runs] and
    [pool_drops] are what it may do to the job of this directory between two
    polls, [quick] whether a job sent by a poll has ended by the time that
    poll looks at it. *)

From S2P Require Import Prelude AsyncIo.

(** [std::fs::ReadDir], its entries [E]: [next]. *)
Class StdReadDir (D E : Type) := std_next : D → D * option (result E io_error).

Definition CHUNK_SIZE : nat := 32.

Section read_dir.
Context {D E : Type} `{StdReadDir D E}.

(** A batch of entries, the reader if it has more, whether reading went well. *)
Definition Chunk : Type := list E * option D * result unit io_error.

Fixpoint next_chunk_from (n : nat) (buf : list E) (reader : D) : Chunk :=
  match n with
  | O => (buf, Some reader, Ok tt)
  | S n =>
      match std_next reader with
      | (reader, Some (Ok entry)) => next_chunk_from n (buf ++ [entry]) reader
      | (_, Some (Err e)) => (buf, None, Err e)
      | (_, None) => (buf, None, Ok tt)
      end
  end.
Definition next_chunk (reader : D) : Chunk := next_chunk_from CHUNK_SIZE [] reader.

(** A job on the pool: still to run, or ended, [None] if it panicked or was dropped. *)
Inductive job := Running (reader : D) | Finished (x : option Chunk).

Inductive State :=
| Idle (buf : list E) (reader : option D)
| Busy (j : job) (handle_waker : option waker)
| Poisoned.

Definition answer : Type := result (option E) io_error.
Definition poisoned_error : io_error := Other.

Definition pool_ends (x : D → option Chunk) : M State unit :=
  let! s := get in
  match s with
  | Busy (Running reader) w => put (Busy (Finished (x reader)) None) ;! wake_opt w
  | _ => ret tt
  end.
Definition pool_runs : M State unit := pool_ends (λ r, Some (next_chunk r)).
Definition pool_drops : M State unit := pool_ends (λ _, None).

(** [read_dir]: what is made of the end of its own job. *)
Definition read_dir (x : option (result D io_error)) : result State io_error :=
  match x with
  | Some (Ok reader) => Ok (Idle [] (Some reader))
  | Some (Err e) => Err e
  | None => Err poisoned_error
  end.

Fixpoint poll_next_entry_loop (fuel : nat) (quick : bool) (cx : waker) : M State (poll answer) :=
  match fuel with
  | O => panic
  | S fuel =>
      let! s := get in
      match s with
      | Idle (entry :: buf) reader => put (Idle buf reader) ;! ret (Ready (Ok (Some entry)))
      | Idle [] None => ret (Ready (Ok None))
      | Idle [] (Some reader) =>
          put (Busy (Running reader) None) ;!
          (if quick then pool_runs else ret tt) ;!
          poll_next_entry_loop fuel quick cx
      | Busy (Running reader) _ => put (Busy (Running reader) (Some cx)) ;! ret Pending
      | Busy (Finished None) _ => put Poisoned ;! ret (Ready (Err poisoned_error))
      | Busy (Finished (Some (buf, reader, res))) _ =>
          put (Idle buf reader) ;!
          match res with
          | Err e => ret (Ready (Err e))
          | Ok _ => poll_next_entry_loop fuel quick cx
          end
      | Poisoned => ret (Ready (Err poisoned_error))
      end
  end.

(** The buffer may be empty, the job ends, its chunk is looked at: three turns. *)
Definition poll_next_entry : bool → waker → M State (poll answer) := poll_next_entry_loop 3.

(** [DirEntry::metadata] and [file_type]: the end of their jobs. *)
Definition entry_call {A} (x : option (result A io_error)) : result A io_error :=
  match x with Some r => r | None => Err poisoned_error end.

(** What may happen to a directory that is being read. *)
Inductive event := Polled (cx : waker) (quick : bool) | PoolRuns | PoolDrops.

(** The answers of the polls, [Pending] ones left out. *)
Fixpoint run_events (es : list event) : M State (list answer) :=
  match es with
  | [] => ret []
  | Polled cx quick :: es =>
      let! p := poll_next_entry quick cx in
      let! l := run_events es in
      ret (match p with Ready a => a :: l | Pending => l end)
  | PoolRuns :: es => pool_runs ;! run_events es
  | PoolDrops :: es => pool_drops ;! run_events es
  end.

(** ** What a directory holds

    [lists d l o]: iterating [d] gives the entries [l], then its end
    ([o = None]) or an error. *)
Inductive lists : D → list E → option io_error → Prop :=
| lists_end d d' : std_next d = (d', None) → lists d [] None
| lists_error d d' e : std_next d = (d', Some (Err e)) → lists d [] (Some e)
| lists_entry d d' x l o : std_next d = (d', Some (Ok x)) → lists d' l o → lists d (x :: l) o.

Definition entries (l : list E) : list answer := (λ x, Ok (Some x)) <$> l.

(** The answers the module promises, before [Ok None] for ever: an error comes
    before the entries of its own chunk. *)
Definition reports (l : list E) (o : option io_error) : list answer :=
  match o with
  | None => entries l
  | Some e =>
      let whole := (length l / CHUNK_SIZE * CHUNK_SIZE)%nat in
      entries (take whole l) ++ Err e :: entries (drop whole l)
  end.

(** The specification: what is left to report, or [None] when the reader is lost. *)
Definition spec_next (rest : option (list answer)) : answer * option (list answer) :=
  match rest with
  | None => (Err poisoned_error, None)
  | Some [] => (Ok None, Some [])
  | Some (a :: l) => (a, Some l)
  end.

Fixpoint spec_answers (n : nat) (rest : option (list answer)) : list answer :=
  match n with O => [] | S n => let '(a, rest) := spec_next rest in a :: spec_answers n rest end.

Definition reader_left (o : option D) (l : list answer) : Prop :=
  match o with None => l = [] | Some d => ∃ es e, lists d es e ∧ l = reports es e end.

Definition chunk_left (c : Chunk) (l : list answer) : Prop :=
  let '(buf, reader, res) := c in
  ∃ l', reader_left reader l' ∧
    (reader = None ∨ buf ≠ []) ∧
    l = match res with Ok _ => entries buf ++ l' | Err e => Err e :: entries buf ++ l' end.

Definition refines (s : State) (rest : option (list answer)) : Prop :=
  match s with
  | Idle buf reader => ∃ l', reader_left reader l' ∧ rest = Some (entries buf ++ l')
  | Busy (Running d) _ => ∃ l, reader_left (Some d) l ∧ rest = Some l
  | Busy (Finished (Some c)) _ => ∃ l, chunk_left c l ∧ rest = Some l
  | Busy (Finished None) _ | Poisoned => rest = None
  end.

(** *** A chunk *)

Lemma next_chunk_from_lists n buf d l o :
  lists d l o →
  next_chunk_from n buf d = (buf ++ l, None, match o with None => Ok tt | Some e => Err e end) ∧
    (length l < n)%nat ∨
  (n ≤ length l)%nat ∧ ∃ d', next_chunk_from n buf d = (buf ++ take n l, Some d', Ok tt) ∧ lists d' (drop n l) o.
Proof.
  intros Hl. revert n buf. induction Hl as [d d' E1|d d' e E1|d d' x l o E1 Hl IH]; intros [|n] buf; simpl.
  1,3: right; split; [lia|]; exists d; rewrite app_nil_r; split; [done|by econstructor].
  - left. rewrite E1, app_nil_r. split; [done|lia].
  - left. rewrite E1, app_nil_r. split; [done|lia].
  - right. split; [lia|]. exists d. rewrite app_nil_r. split; [done|by econstructor].
  - rewrite E1. destruct (IH n (buf ++ [x])) as [[-> ?]|(? & d2 & -> & ?)].
    + left. rewrite <-app_assoc. split; [done|lia].
    + right. split; [lia|]. exists d2. by rewrite <-app_assoc.
Qed.

Lemma reports_step l o :
  (CHUNK_SIZE ≤ length l)%nat → reports l o = entries (take CHUNK_SIZE l) ++ reports (drop CHUNK_SIZE l) o.
Proof.
  intros Hl. unfold reports, entries. destruct o as [e|]; [|by rewrite <-fmap_app, take_drop].
  rewrite length_drop. set (n := length l) in *.
  assert ((n / CHUNK_SIZE) = S ((n - CHUNK_SIZE) / CHUNK_SIZE))%nat as ->.
  { replace n with (1 * CHUNK_SIZE + (n - CHUNK_SIZE))%nat at 1 by (unfold CHUNK_SIZE in *; lia).
    rewrite Nat.div_add_l by done. lia. }
  rewrite Nat.mul_succ_l, (Nat.add_comm _ CHUNK_SIZE), app_assoc, <-fmap_app, drop_drop.
  by rewrite take_take_drop.
Qed.

Lemma next_chunk_left d l : reader_left (Some d) l → chunk_left (next_chunk d) l.
Proof.
  intros (es & o & Hl & ->). unfold next_chunk.
  destruct (next_chunk_from_lists CHUNK_SIZE [] d es o Hl) as [[-> Hn]|(Hn & d' & -> & Hl')]; simpl.
  - exists []. split; [done|]. split; [by left|]. rewrite app_nil_r. unfold reports.
    destruct o as [e|]; [|done]. by rewrite Nat.div_small.
  - eexists. split; [by exists (drop CHUNK_SIZE es), o|]. split; [|by apply reports_step].
    right. destruct es; [simpl in Hn; unfold CHUNK_SIZE in Hn; lia|done].
Qed.

(** *** The steps *)

Lemma pool_runs_refines s rest : refines s rest →
  ∃ s' ws, pool_runs s = Some (tt, s', ws) ∧ refines s' rest.
Proof.
  intros Hs. unfold pool_runs, pool_ends. destruct s as [b r|[d|c] w|]; run_M; try by do 2 eexists.
  destruct Hs as (l & Hl & ->). do 2 eexists. split; [done|]. exists l. split; [by apply next_chunk_left|done].
Qed.

Lemma pool_drops_refines s rest : refines s rest →
  ∃ s' ws, pool_drops s = Some (tt, s', ws) ∧ (refines s' rest ∨ refines s' None).
Proof.
  intros Hs. unfold pool_drops, pool_ends. destruct s as [b r|[d|c] w|]; run_M; try by do 2 eexists; split; [|left].
  do 2 eexists. split; [done|by right].
Qed.

Definition settled (s : State) : bool := match s with Busy (Running _) _ => false | _ => true end.

Lemma loop_chunk fuel quick cx buf reader u w :
  poll_next_entry_loop (S fuel) quick cx (Busy (Finished (Some (buf, reader, Ok u))) w) =
  poll_next_entry_loop fuel quick cx (Idle buf reader).
Proof. simpl. unfold bind, get, put. by destruct (poll_next_entry_loop _ _ _ _) as [[[??]?]|]. Qed.

Lemma loop_send fuel quick cx d :
  poll_next_entry_loop (S fuel) quick cx (Idle [] (Some d)) =
  poll_next_entry_loop fuel quick cx (Busy (if quick then Finished (Some (next_chunk d)) else Running d) None).
Proof.
  destruct quick; simpl; unfold pool_runs, pool_ends; run_M;
    by destruct (poll_next_entry_loop _ _ _ _) as [[[??]?]|].
Qed.

Lemma idle_turn fuel quick cx buf reader rest :
  reader = None ∨ buf ≠ [] → refines (Idle buf reader) rest →
  ∃ s', poll_next_entry_loop (S fuel) quick cx (Idle buf reader) = Some (Ready (spec_next rest).1, s', []) ∧
    refines s' (spec_next rest).2 ∧ settled s' = true.
Proof.
  intros Hb (l' & Hl & ->). destruct buf as [|x buf]; simpl.
  - destruct Hb as [->|]; [|done]. simpl in Hl. subst l'. run_M. eexists. split; [done|by split; [exists []|]].
  - run_M. eexists. split; [done|by split; [exists l'|]].
Qed.

Lemma finished_turn fuel quick cx c w rest :
  refines (Busy (Finished c) w) rest →
  ∃ s', poll_next_entry_loop (2 + fuel) quick cx (Busy (Finished c) w) = Some (Ready (spec_next rest).1, s', []) ∧
    refines s' (spec_next rest).2 ∧ settled s' = true.
Proof.
  destruct c as [[[buf reader] res]|]; [|intros ->; run_M; by eexists].
  intros (l & (l' & Hl & Hb & ->) & ->). destruct res as [[]|e].
  - destruct (idle_turn fuel quick cx buf reader (Some (entries buf ++ l')) Hb) as (s' & E1 & ?); [by exists l'|].
    exists s'. split; [|done]. change (2 + fuel)%nat with (S (S fuel)). by rewrite loop_chunk.
  - run_M. eexists. split; [done|by split; [exists l'|]].
Qed.

(** A poll answers as the specification, or waits for the job it has on the pool. *)
Lemma poll_next_entry_refines quick cx s rest :
  refines s rest →
  (∃ s' ws, poll_next_entry quick cx s = Some (Ready (spec_next rest).1, s', ws) ∧
     refines s' (spec_next rest).2 ∧ settled s' = true) ∨
  (quick && settled s = false) ∧
    ∃ d, poll_next_entry quick cx s = Some (Pending, Busy (Running d) (Some cx), []) ∧
         refines (Busy (Running d) (Some cx)) rest.
Proof.
  intros Hs. unfold poll_next_entry. destruct s as [buf reader|[d|c] w|].
  - destruct (decide (reader = None ∨ buf ≠ [])) as [Hb|Hb].
    { left. destruct (idle_turn 2 quick cx buf reader rest Hb Hs) as (s' & ? & ?). by exists s', []. }
    destruct buf; [|by destruct Hb; right]. destruct reader as [d|]; [|by destruct Hb; left].
    destruct Hs as (l & Hl & ->). destruct quick.
    + left. destruct (finished_turn 0 true cx (Some (next_chunk d)) None (Some l)) as (s' & E1 & ?).
      { exists l. split; [by apply next_chunk_left|done]. }
      exists s', []. split; [|done]. by rewrite loop_send.
    + right. split; [done|]. exists d. run_M. split; [done|by exists l].
  - right. split; [by destruct quick|]. exists d. run_M. done.
  - left. destruct (finished_turn 1 quick cx c w rest Hs) as (s' & ? & ?). by exists s', [].
  - left. simpl in Hs. subst rest. run_M. by do 2 eexists.
Qed.

Definition drops (ev : event) : bool := match ev with PoolDrops => true | _ => false end.

Lemma spec_answers_lost n : spec_answers n None = replicate n (Err poisoned_error).
Proof. induction n as [|n IH]; simpl; [done|]. by rewrite IH. Qed.

(** The answers of any run are those of the specification, up to the point
    where the pool loses the reader. *)
Lemma run_events_refines es s rest :
  refines s rest →
  ∃ n m s' ws, run_events es s = Some (spec_answers n rest ++ replicate m (Err poisoned_error), s', ws) ∧
    (existsb drops es = false → m = 0%nat).
Proof.
  revert s rest. induction es as [|[cx quick| |] es IH]; simpl; intros s rest Hs.
  - by exists 0%nat, 0%nat, s, [].
  - destruct (poll_next_entry_refines quick cx s rest Hs) as [(s1 & w1 & E1 & Hs1 & _)|(_ & d & E1 & Hs1)];
      destruct (IH _ _ Hs1) as (n & m & s2 & w2 & E2 & Hm); unfold bind; rewrite E1, E2.
    + exists (S n), m. simpl. destruct (spec_next rest). by do 2 eexists.
    + exists n, m. by do 2 eexists.
  - destruct (pool_runs_refines s rest Hs) as (s1 & w1 & E1 & Hs1). destruct (IH _ _ Hs1) as (n & m & s2 & w2 & E2 & Hm).
    unfold bind. rewrite E1, E2. exists n, m. by do 2 eexists.
  - destruct (pool_drops_refines s rest Hs) as (s1 & w1 & E1 & [Hs1|Hs1]);
      destruct (IH _ _ Hs1) as (n & m & s2 & w2 & E2 & Hm); unfold bind; rewrite E1, E2.
    + exists n, m. by do 2 eexists.
    + exists 0%nat, (n + m)%nat. rewrite spec_answers_lost, replicate_add. by do 2 eexists.
Qed.

Lemma spec_answers_some n k l :
  (n ≤ k)%nat → spec_answers n (Some l) = take n (l ++ replicate k (Ok None)).
Proof.
  revert k l. induction n as [|n IH]; intros k [|a l] Hk; [done..| |]; destruct k as [|k]; [lia| |lia|]; simpl; f_equal.
  - apply (IH k []). lia.
  - apply (IH (S k) l). lia.
Qed.

(** C39: reading a directory that holds the entries [l], up to its end or an
    error: however the polls and the pool interleave, nothing panics, and the
    answers are, in order and each once, those of [reports] -- every entry;
    an error after the whole chunks that came before it, then the entries of
    its own chunk -- and [Ok None] from there on; if the pool loses the
    reader, the answers so far are of this kind and all others are errors. *)
Theorem read_dir_exact d l o es :
  lists d l o →
  ∃ n m s ws, run_events es (Idle [] (Some d)) =
    Some (take n (reports l o ++ replicate n (Ok None)) ++ replicate m (Err poisoned_error), s, ws) ∧
    (existsb drops es = false → m = 0%nat).
Proof.
  intros Hl. destruct (run_events_refines es (Idle [] (Some d)) (Some (reports l o))) as (n & m & s & ws & E1 & Hm).
  { exists (reports l o). split; [by exists l, o|done]. }
  exists n, m, s, ws. split; [|done]. by rewrite E1, (spec_answers_some _ _ _ (Nat.le_refl _)).
Qed.

(** A poll waits only while its job has not ended: with a pool that ends a
    job before it is looked at, every poll is answered. *)
Theorem read_dir_answers d l o (cxs : list waker) :
  lists d l o →
  ∃ s ws, run_events ((λ cx, Polled cx true) <$> cxs) (Idle [] (Some d)) =
    Some (take (length cxs) (reports l o ++ replicate (length cxs) (Ok None)), s, ws).
Proof.
  intros Hl. assert (∀ s rest, refines s rest → settled s = true →
    ∃ s' ws, run_events ((λ cx, Polled cx true) <$> cxs) s = Some (spec_answers (length cxs) rest, s', ws)) as Hall.
  { induction cxs as [|cx cxs IH]; intros s rest Hs Hr; [by do 2 eexists|].
    rewrite fmap_cons. cbn [run_events length spec_answers].
    destruct (poll_next_entry_refines true cx s rest Hs) as [(s1 & w1 & E1 & Hs1 & Hr1)|[Hq _]];
      [|by rewrite Hr in Hq].
    destruct (IH s1 _ Hs1 Hr1) as (s2 & w2 & E2). unfold bind. rewrite E1, E2. destruct (spec_next rest).
    by do 2 eexists. }
  destruct (Hall (Idle [] (Some d)) (Some (reports l o))) as (s & ws & E1); [|done|].
  { exists (reports l o). split; [by exists l, o|done]. }
  exists s, ws. by rewrite E1, (spec_answers_some _ _ _ (Nat.le_refl _)).
Qed.
End read_dir.

(** ** Concrete directories *)

(** A directory as the list of what its iterator gives. *)
#[local] Instance list_dir : StdReadDir (list (result nat io_error)) nat :=
  λ d, match d with [] => ([], None) | x :: d => (d, Some x) end.

Definition three_then_error : list (result nat io_error) := [Ok 1; Ok 2; Ok 3; Err UnexpectedEof; Ok 4]%nat.

Lemma three_lists : lists three_then_error [1; 2; 3]%nat (Some UnexpectedEof).
Proof. unfold three_then_error. do 3 (eapply lists_entry; [done|]). by eapply lists_error. Qed.

(** An error overtakes the entries read before it. *)
Example read_dir_error_first :
  run_events [Polled 7 false; PoolRuns; Polled 7 true; Polled 7 true; Polled 7 true; Polled 7 true; Polled 7 true]
    (Idle [] (Some three_then_error)) =
  Some ([Err UnexpectedEof; Ok (Some 1); Ok (Some 2); Ok (Some 3); Ok None]%nat, Idle [] None, [7%nat]).
Proof. vm_compute. reflexivity. Qed.

Lemma read_dir_exact_witness :
  lists three_then_error [1; 2; 3]%nat (Some UnexpectedEof) ∧
  ∃ n m s ws, run_events [Polled 7 false; PoolDrops; Polled 7 true] (Idle [] (Some three_then_error)) =
    Some (take n (reports [1; 2; 3]%nat (Some UnexpectedEof) ++ replicate n (Ok None)) ++ replicate m (Err poisoned_error), s, ws).
Proof.
  split; [apply three_lists|].
  destruct (read_dir_exact _ _ _ [Polled 7 false; PoolDrops; Polled 7 true] three_lists) as (n & m & s & ws & E1 & _).
  by exists n, m, s, ws.
Defined.

Lemma read_dir_answers_witness :
  ∃ s ws, run_events ((λ cx, Polled cx true) <$> [7; 7]%nat) (Idle [] (Some three_then_error)) =
    Some ([Err UnexpectedEof; Ok (Some 1%nat)], s, ws).
Proof.
  destruct (read_dir_answers _ _ _ [7; 7]%nat three_lists) as (s & ws & E1).
  exists s, ws. rewrite E1. vm_compute. reflexivity.
Defined.
