(* ===== verification/Ambient.v ===== *)
(** What a thread takes from its surroundings: the current runtime
    ([src/src/runtime/context.rs]), the current task ([src/src/task/id.rs],
    [src/src/task/builder.rs]) and the current [LocalSet]
    ([src/src/task/local.rs]).  All three are a thread-local cell, a function
    that fills it and hands out a guard, and a guard that puts back what was
    there when it is dropped. *)

From S2P Require Import Prelude Runtime Local.

(** ** A cell and its guards *)

Section guards.
Context {V : Type}.

(** [previous]. *)
Record EnterGuard := mkGuard { previous : option V }.

Definition enter (current : V) : M (option V) EnterGuard :=
  let! previous := get in put (Some current) ;! ret (mkGuard previous).
Definition guard_drop (g : EnterGuard) : M (option V) unit := put g.(previous).

(** Any number of threads, with a cell each, and the guards that are alive,
    numbered as they are handed out. *)
Record world := mkWorld { cells : gmap nat V; guards : gmap nat EnterGuard; handed_out : nat }.

Inductive move := Enter (os : nat) (v : V) | DropGuard (os g : nat).

Definition on_cell {A} (os : nat) (m : M (option V) A) (w : world) : option (A * world) :=
  match m (w.(cells) !! os) with
  | Some (a, c, _) => Some (a, mkWorld (partial_alter (λ _, c) os w.(cells)) w.(guards) w.(handed_out))
  | None => None
  end.

Definition guard_move (m : move) (w : world) : option world :=
  match m with
  | Enter os v =>
      '(g, w) ← on_cell os (enter v) w;
      Some (mkWorld w.(cells) (<[w.(handed_out) := g]> w.(guards)) (S w.(handed_out)))
  | DropGuard os n =>
      g ← w.(guards) !! n;
      '(_, w) ← on_cell os (guard_drop g) w;
      Some (mkWorld w.(cells) (delete n w.(guards)) w.(handed_out))
  end.

Definition no_guards : world := mkWorld ∅ ∅ 0.

(** What the documentation promises: a stack for each thread, as long as
    a thread drops its guards itself and the last one first. *)
Record stacks := mkStacks { stack : gmap nat (list (nat * V)); next_guard : nat }.

Definition stack_of (os : nat) (s : stacks) : list (nat * V) := default [] (s.(stack) !! os).

Definition stack_move (m : move) (s : stacks) : option stacks :=
  match m with
  | Enter os v => Some (mkStacks (<[os := (s.(next_guard), v) :: stack_of os s]> s.(stack)) (S s.(next_guard)))
  | DropGuard os n =>
      match stack_of os s with
      | (n', _) :: l => if bool_decide (n = n') then Some (mkStacks (<[os := l]> s.(stack)) s.(next_guard)) else None
      | [] => None
      end
  end.

Definition no_stacks : stacks := mkStacks ∅ 0.
Definition top (l : list (nat * V)) : option V := snd <$> head l.

(** The guards of a stack remember what is under them. *)
Fixpoint stack_ok (gs : gmap nat EnterGuard) (l : list (nat * V)) : Prop :=
  match l with [] => True | (n, v) :: l => gs !! n = Some (mkGuard (top l)) ∧ stack_ok gs l end.

Record stacks_inv (w : world) (s : stacks) : Prop := {
  si_next : w.(handed_out) = s.(next_guard);
  si_cells os : w.(cells) !! os = top (stack_of os s);
  si_guards os : stack_ok w.(guards) (stack_of os s);
  si_used os : Forall (λ x, (x.1 < s.(next_guard))%nat) (stack_of os s);
  si_once os : NoDup (stack_of os s).*1;
  si_one os os' n : n ∈ (stack_of os s).*1 → n ∈ (stack_of os' s).*1 → os = os';
}.

Lemma stack_of_insert os l s n os' :
  stack_of os' (mkStacks (<[os := l]> s.(stack)) n) = if decide (os = os') then l else stack_of os' s.
Proof. unfold stack_of. simpl. destruct (decide (os = os')) as [->|]; by simplify_map_eq. Qed.

Lemma stack_ok_ext gs gs' l :
  (∀ n, n ∈ l.*1 → gs' !! n = gs !! n) → stack_ok gs l → stack_ok gs' l.
Proof.
  induction l as [|[n v] l IH]; simpl; intros Hg; [done|]. intros [H1 H2]. split.
  - rewrite Hg; [done|]. left.
  - apply IH; [|done]. intros. apply Hg. by right.
Qed.

Lemma used_lt s (l : list (nat * V)) n : Forall (λ x, (x.1 < s)%nat) l → n ∈ l.*1 → (n < s)%nat.
Proof.
  intros Hl Hn. apply list_elem_of_fmap in Hn as ([n' v] & -> & Hn). by eapply Forall_forall in Hl.
Qed.

Lemma stacks_inv_init : stacks_inv no_guards no_stacks.
Proof. split; intros; unfold stack_of; simpl in *; rewrite ?lookup_empty in *; simpl in *; try done; [constructor..|]. by apply elem_of_nil in H. Qed.

Lemma stacks_enter os v w s :
  stacks_inv w s → ∃ w', guard_move (Enter os v) w = Some w' ∧
    stacks_inv w' (mkStacks (<[os := (s.(next_guard), v) :: stack_of os s]> s.(stack)) (S s.(next_guard))).
Proof.
  intros [H1 H2 H3 H4 H5 H6]. eexists. split; [done|]. rewrite H1.
  assert (∀ os', s.(next_guard) ∉ (stack_of os' s).*1) as Hnew.
  { intros os' Hn. pose proof (used_lt _ _ _ (H4 os') Hn). lia. }
  split; intros; rewrite ?stack_of_insert in *; simpl in *.
  - done.
  - destruct (decide (os = os0)) as [->|]; [by rewrite lookup_partial_alter_eq|].
    by rewrite lookup_partial_alter_ne.
  - destruct (decide (os = os0)) as [->|]; simpl.
    + split; [by rewrite lookup_insert_eq, H2|]. eapply stack_ok_ext; [|done]. intros n Hn.
      rewrite lookup_insert_ne; [done|]. intros <-. by apply (Hnew os0).
    + eapply stack_ok_ext; [|done]. intros n0 Hn. rewrite lookup_insert_ne; [done|]. intros <-. by apply (Hnew os0).
  - assert (Forall (λ x, (x.1 < S s.(next_guard))%nat) (stack_of os0 s)) as HF.
    { eapply Forall_impl; [apply H4|]. simpl. lia. }
    destruct (decide (os = os0)) as [->|]; [|done]. constructor; [simpl; lia|done].
  - destruct (decide (os = os0)) as [->|]; [|done]. simpl. constructor; [by apply Hnew|done].
  - assert (∀ os', n ∈ (if decide (os = os') then (s.(next_guard), v) :: stack_of os s else stack_of os' s).*1 →
      n ∈ (stack_of os' s).*1 ∨ n = s.(next_guard) ∧ os = os') as Hin.
    { intros os1 Hn. case_decide as E1; [subst|by left]. apply elem_of_cons in Hn as [Hn|Hn]; [by right|by left]. }
    apply Hin in H as [H|[-> ->]], H0 as [H0|[H0 ?]]; subst; try done; [by eapply H6|by apply Hnew in H|by apply Hnew in H0].
Qed.

Lemma stacks_drop os n v l w s :
  stacks_inv w s → stack_of os s = (n, v) :: l →
  ∃ w', guard_move (DropGuard os n) w = Some w' ∧ stacks_inv w' (mkStacks (<[os := l]> s.(stack)) s.(next_guard)).
Proof.
  intros [H1 H2 H3 H4 H5 H6] Hs. pose proof (H3 os) as Hg. rewrite Hs in Hg. destruct Hg as [Hg Hl].
  pose proof (H5 os) as Hd. rewrite Hs in Hd. simpl in Hd. apply NoDup_cons in Hd as [Hn Hd].
  pose proof (H4 os) as Hu. rewrite Hs in Hu. apply Forall_cons in Hu as [_ Hu].
  assert (∀ os' k, k ∈ (if decide (os = os') then l else stack_of os' s).*1 → k ∈ (stack_of os' s).*1 ∧ k ≠ n) as Hin.
  { intros os' k. case_decide; subst.
    - intros Hk. split; [rewrite Hs; by right|]. by intros ->.
    - intros Hk. split; [done|]. intros ->. apply H. eapply H6; [|done]. rewrite Hs. left. }
  eexists. split; [simpl; by rewrite Hg|]. split; intros; rewrite ?stack_of_insert in *; simpl in *.
  - done.
  - destruct (decide (os = os0)) as [->|]; [by rewrite lookup_partial_alter_eq|]. by rewrite lookup_partial_alter_ne.
  - specialize (Hin os0). case_decide; subst; (eapply stack_ok_ext; [|done]); intros k [? ?]%Hin; by rewrite lookup_delete_ne.
  - by case_decide.
  - by case_decide.
  - apply Hin in H as [? _], H0 as [? _]. by eapply H6.
Qed.

Lemma stacks_move_inv m w s s' :
  stacks_inv w s → stack_move m s = Some s' → ∃ w', guard_move m w = Some w' ∧ stacks_inv w' s'.
Proof.
  intros Hw Hm. destruct m as [os v|os n]; cbn [stack_move] in Hm.
  - simplify_eq. by apply stacks_enter.
  - destruct (stack_of os s) as [|[n' v] l] eqn:E1; [done|]. case_bool_decide; simplify_eq.
    by eapply stacks_drop.
Qed.

Lemma stacks_run ms w s s' :
  stacks_inv w s → run_moves stack_move ms s = Some s' →
  ∃ w', run_moves guard_move ms w = Some w' ∧ stacks_inv w' s'.
Proof.
  revert w s. induction ms as [|m ms IH]; simpl; intros w s Hw Hr; [simplify_eq; by exists w|].
  destruct (stack_move m s) as [s1|] eqn:E1; [|done].
  destruct (stacks_move_inv m w s s1 Hw E1) as (w1 & -> & Hw1). by eapply IH.
Qed.

(** As long as every thread drops its own guards, the last one first,
    nothing panics and what is current on a thread is what its youngest
    living guard was given, or nothing when it has none: scopes restore what
    was there before, whatever the other threads do. *)
Theorem ambient_scopes ms s' :
  run_moves stack_move ms no_stacks = Some s' →
  ∃ w, run_moves guard_move ms no_guards = Some w ∧ ∀ os, w.(cells) !! os = top (stack_of os s').
Proof.
  intros Hr. destruct (stacks_run ms _ _ _ stacks_inv_init Hr) as (w & Hw & Hi).
  exists w. split; [done|]. apply Hi.
Qed.

(** In any other order the cell is left with what the guard dropped last found. *)
Lemma drop_leaves os n w g :
  w.(guards) !! n = Some g →
  ∃ w', guard_move (DropGuard os n) w = Some w' ∧ w'.(cells) !! os = g.(previous) ∧
    ∀ os', os' ≠ os → w'.(cells) !! os' = w.(cells) !! os'.
Proof.
  intros Hg. simpl. rewrite Hg. eexists. split; [done|]. simpl. split.
  - by rewrite lookup_partial_alter_eq.
  - intros. by rewrite lookup_partial_alter_ne.
Qed.
End guards.
Arguments EnterGuard V : clear implicits.
Arguments world V : clear implicits.
Arguments move V : clear implicits.
Arguments stacks V : clear implicits.

(** [context::enter], as [Runtime] has it. *)
Lemma runtime_enter_is {Handle} (h : Handle) c :
  Runtime.enter h c = match enter h c with Some (g, c, ws) => Some (g.(previous), c, ws) | None => None end.
Proof. done. Qed.

(** Two scopes on a thread, left in the order they were entered: no guard is
    alive and the inner one is still current. *)
Example ambient_out_of_order :
  ∃ w, run_moves guard_move [Enter 0 10; Enter 0 20; DropGuard 0 0; DropGuard 0 1]%nat no_guards = Some w ∧
    w.(guards) = ∅ ∧ w.(cells) !! 0%nat = Some 10%nat.
Proof. eexists. split; [vm_compute; reflexivity|]. done. Qed.

(** A guard dropped on a thread that is inside a scope of its own takes that
    thread's current value away, and its own thread keeps the value. *)
Example ambient_guard_sent :
  ∃ w, run_moves guard_move [Enter 0 10; Enter 1 20; DropGuard 1 0]%nat no_guards = Some w ∧
    w.(cells) !! 0%nat = Some 10%nat ∧ w.(cells) !! 1%nat = None.
Proof. eexists. split; [vm_compute; reflexivity|]. done. Qed.

(** ** The current task *)

Definition TaskId : Type := Z.
Record CurrentTask := mkCurrent { id : TaskId; name : option nat }.

(** [TaskId::next]: [fetch_add] wraps. *)
Definition task_id_next : M Z TaskId := let! n := get in put ((n + 1) `mod` 2 ^ u64_bits) ;! ret n.

Fixpoint next_ids (n : nat) : M Z (list TaskId) :=
  match n with O => ret [] | S n => let! x := task_id_next in let! l := next_ids n in ret (x :: l) end.

Definition try_id : M (option CurrentTask) (option TaskId) := let! c := get in ret (id <$> c).
Definition try_name : M (option CurrentTask) (option nat) := let! c := get in ret (c ≫= name).

(** [task::Builder]. *)
Record Builder := mkBuilder { builder_name : option nat }.
Definition task_builder_new : Builder := mkBuilder None.
Definition task_builder_set_name (n : nat) (b : Builder) : Builder := mkBuilder (Some n).

(** [spawn] of a [Builder]: the runtime and what the task will be known by;
    [None] without an ambient runtime. *)
Definition task_builder_spawn {Handle} (current : option Handle) (b : Builder) : M Z (Handle * CurrentTask) :=
  match current with
  | None => panic
  | Some h => let! x := task_id_next in ret (h, mkCurrent x b.(builder_name))
  end.

(** What a thread does: it looks at the current task, and polls tasks --
    while it polls one it may drive others, whose polls end, by a return or
    by a panic, inside. *)
Inductive activity := Done | Look (k : activity) | PollTask (t : CurrentTask) (body k : activity).

Fixpoint run_activity (a : activity) : M (option CurrentTask) (list (option TaskId * option nat)) :=
  match a with
  | Done => ret []
  | Look k =>
      let! i := try_id in
      let! n := try_name in
      let! l := run_activity k in
      ret ((i, n) :: l)
  | PollTask t body k =>
      let! g := enter t in
      let! l1 := run_activity body in
      guard_drop g ;!
      let! l2 := run_activity k in
      ret (l1 ++ l2)
  end.

(** What every look should see, [c] being the innermost task around. *)
Fixpoint sees (c : option CurrentTask) (a : activity) : list (option TaskId * option nat) :=
  match a with
  | Done => []
  | Look k => (id <$> c, c ≫= name) :: sees c k
  | PollTask t body k => sees (Some t) body ++ sees c k
  end.

(** Code sees the identity and the name of the innermost task whose
    poll it runs inside, however polls nest, and a thread is left as it was. *)
Theorem current_task_exact a c : run_activity a c = Some (sees c a, c, []).
Proof.
  revert c. induction a as [|k IH|t body IHb k IHk]; intros c; simpl; [done|..].
  - unfold try_id, try_name. run_M. by rewrite IH.
  - unfold enter, guard_drop. run_M. rewrite IHb. simpl. by rewrite IHk.
Qed.

Lemma next_ids_from n x :
  in_range u64_bits x →
  next_ids n x = Some ((λ i, (x + Z.of_nat i) `mod` 2 ^ u64_bits) <$> seq 0 n, (x + Z.of_nat n) `mod` 2 ^ u64_bits, []).
Proof.
  revert x. induction n as [|n IH]; intros x Hx; simpl.
  - unfold ret. rewrite Z.add_0_r, Z.mod_small by done. done.
  - unfold task_id_next. run_M. rewrite IH by (apply Z.mod_pos_bound; done).
    change (list_fmap nat Z ?f ?l) with (f <$> l). rewrite <-fmap_S_seq, <-list_fmap_compose, Z.add_0_r.
    rewrite !Zplus_mod_idemp_l, (Z.mod_small x) by done.
    replace (x + 1 + Z.of_nat n) with (x + Z.of_nat (S n)) by lia.
    do 4 f_equal. apply list_fmap_ext. intros i y _. unfold compose. rewrite Zplus_mod_idemp_l. f_equal. lia.
Qed.

(** The identities handed out, whoever asks for them, are distinct as long
    as there are no more than [2 ^ 64] of them. *)
Theorem task_ids_unique n x :
  in_range u64_bits x → Z.of_nat n ≤ 2 ^ u64_bits →
  ∃ l y, next_ids n x = Some (l, y, []) ∧ NoDup l ∧ length l = n.
Proof.
  intros Hx Hn. do 2 eexists. split; [by apply next_ids_from|].
  split; [|by rewrite length_fmap, length_seq].
  apply NoDup_fmap_2_strong; [|apply NoDup_seq].
  intros i j Hi%elem_of_seq Hj%elem_of_seq He. unfold in_range in Hx.
  apply Z.cong_iff_0, Z.mod_divide in He as [k Hk]; [|done].
  assert (k = 0) by (unfold u64_bits in *; nia). lia.
Qed.

Lemma ambient_scopes_witness :
  ∃ s', run_moves stack_move [Enter 0 10; Enter 1 30; Enter 0 20; DropGuard 0 2; DropGuard 1 1]%nat no_stacks = Some s' ∧
  ∃ w, run_moves guard_move [Enter 0 10; Enter 1 30; Enter 0 20; DropGuard 0 2; DropGuard 1 1]%nat no_guards = Some w ∧
    w.(cells) !! 0%nat = Some 10%nat ∧ w.(cells) !! 1%nat = None.
Proof.
  eexists. split; [vm_compute; reflexivity|].
  destruct (ambient_scopes [Enter 0 10; Enter 1 30; Enter 0 20; DropGuard 0 2; DropGuard 1 1]%nat _
    ltac:(vm_compute; reflexivity)) as (w & Hr & Hc).
  exists w. split; [exact Hr|]. split; [exact (Hc 0%nat)|exact (Hc 1%nat)].
Defined.

Lemma task_ids_unique_witness :
  in_range u64_bits (2 ^ 64 - 1) ∧
  ∃ l y, next_ids 3 (2 ^ 64 - 1) = Some (l, y, []) ∧ NoDup l ∧ length l = 3%nat.
Proof.
  assert (in_range u64_bits (2 ^ 64 - 1)) as Hr by (unfold in_range, u64_bits; lia).
  split; [exact Hr|]. apply (task_ids_unique 3); [exact Hr|unfold u64_bits; lia].
Defined.

(** ** The current [LocalSet]

    A future of a [LocalSet] is not [Send]: it must be polled on the thread it
    was made on, its home.  Sets are numbered in the order of their creation. *)

Module LocalSets.

Record set := mkSet { owner_thread : option nat; queue : list nat (* the homes of the tasks *) }.

(** [None]: the set has been dropped.  [current_local]: [CURRENT_LOCAL] of
    each thread.  A guard is with one thread at a time; [polled]: the home of
    each future polled, and the thread that polled it. *)
Record world := mkWorld {
  sets : list (option set);
  current_local : gmap nat nat;
  guards : list (option (nat * option nat));
  polled : list (nat * nat);
}.

Definition get_set (s : nat) (w : world) : option set := mjoin (w.(sets) !! s).
Definition put_set (s : nat) (x : option set) (w : world) : world :=
  mkWorld (<[s := x]> w.(sets)) w.(current_local) w.(guards) w.(polled).

(** A method of the set that checks its thread first. *)
Definition checked (os s : nat) (w : world) : option (set * world) :=
  x ← get_set s w;
  o ← bind_or_check_thread os x.(owner_thread);
  Some (mkSet o x.(queue), put_set s (Some (mkSet o x.(queue))) w).

Definition push (s home : nat) (w : world) : option world :=
  x ← get_set s w;
  Some (put_set s (Some (mkSet x.(owner_thread) (x.(queue) ++ [home]))) w).

Inductive move :=
| NewSet
| EnterSet (os s : nat)           (* [LocalSet::enter], and [run_until] before it drives *)
| DropGuard (g : nat)             (* by the thread it is with *)
| SendGuard (g os : nat)          (* moved to another thread *)
| SpawnLocal (os : nat)           (* the free function *)
| SpawnLocalOn (os s : nat)       (* [LocalSet::spawn_local] *)
| RunNext (os s : nat)            (* the loop of [run_until] polls a task *)
| DropSet (s : nat).

Definition local_move (m : move) (w : world) : option world :=
  match m with
  | NewSet => Some (mkWorld (w.(sets) ++ [Some (mkSet None [])]) w.(current_local) w.(guards) w.(polled))
  | EnterSet os s =>
      '(_, w) ← checked os s w;
      Some (mkWorld w.(sets) (<[os := s]> w.(current_local))
              (w.(guards) ++ [Some (os, w.(current_local) !! os)]) w.(polled))
  | DropGuard g =>
      '(os, previous) ← mjoin (w.(guards) !! g);
      Some (mkWorld w.(sets) (partial_alter (λ _, previous) os w.(current_local)) (<[g := None]> w.(guards)) w.(polled))
  | SendGuard g os' =>
      '(_, previous) ← mjoin (w.(guards) !! g);
      Some (mkWorld w.(sets) w.(current_local) (<[g := Some (os', previous)]> w.(guards)) w.(polled))
  | SpawnLocal os => s ← w.(current_local) !! os; push s os w
  | SpawnLocalOn os s => '(_, w) ← checked os s w; push s os w
  | RunNext os s =>
      '(x, w) ← checked os s w;
      match x.(queue) with
      | [] => None
      | home :: q =>
          Some (mkWorld (<[s := Some (mkSet x.(owner_thread) q)]> w.(sets)) w.(current_local) w.(guards)
                  (w.(polled) ++ [(home, os)]))
      end
  | DropSet s => _ ← get_set s w; Some (put_set s None w)
  end.

Definition no_sets : world := mkWorld [] ∅ [] [].
Definition is_send (m : move) : bool := match m with SendGuard _ _ => true | _ => false end.

(** What a thread may have as its current set: one it owns, or a dropped one. *)
Definition fits (w : world) (os : nat) (o : option nat) : Prop :=
  match o with
  | None => True
  | Some s => (s < length w.(sets))%nat ∧ ∀ x, get_set s w = Some x → x.(owner_thread) = Some os
  end.

Record local_inv (w : world) : Prop := {
  li_queue s x home : get_set s w = Some x → home ∈ x.(queue) → x.(owner_thread) = Some home;
  li_current os : fits w os (w.(current_local) !! os);
  li_guards g os previous : w.(guards) !! g = Some (Some (os, previous)) → fits w os previous;
  li_polled home os : (home, os) ∈ w.(polled) → home = os;
}.

Lemma get_put s x w s' :
  (s < length w.(sets))%nat → get_set s' (put_set s x w) = if decide (s = s') then x else get_set s' w.
Proof.
  intros Hs. unfold get_set, put_set. simpl. destruct (decide (s = s')) as [->|].
  - by rewrite list_lookup_insert_eq.
  - by rewrite list_lookup_insert_ne.
Qed.

Lemma get_lt s x w : get_set s w = Some x → (s < length w.(sets))%nat.
Proof.
  unfold get_set. destruct (sets w !! s) eqn:E1; [|done]. intros _. by eapply lookup_lt_Some.
Qed.

(** A set that changes without changing hands. *)
Lemma homes_put_inv s x y w :
  local_inv w → get_set s w = Some x →
  (∀ o, x.(owner_thread) = Some o → y.(owner_thread) = Some o) →
  (∀ home, home ∈ y.(queue) → y.(owner_thread) = Some home) →
  local_inv (put_set s (Some y) w).
Proof.
  intros [Hq Hc Hg Hp] Hs Ho Hy. pose proof (get_lt _ _ _ Hs) as Hlt.
  assert (∀ os o, fits w os o → fits (put_set s (Some y) w) os o) as Hf.
  { intros os [s'|]; simpl; [|done]. rewrite length_insert. intros [? Hf]. split; [done|].
    intros z. change (mkWorld _ _ _ _) with (put_set s (Some y) w). rewrite get_put by done.
    case_decide; subst; [|apply Hf]. intros [= <-]. by apply Ho, Hf. }
  split; [|by auto|intros; eapply Hf, Hg; done|done].
  intros s' z home. rewrite get_put by done. case_decide; [intros [= <-]; apply Hy|apply Hq].
Qed.

Lemma bind_keeps_owner os o o' :
  bind_or_check_thread os o = Some o' → o' = Some os ∧ (o = None ∨ o = Some os).
Proof.
  unfold bind_or_check_thread. destruct o as [o|]; [|intros [= <-]; by auto].
  destruct (Nat.eqb_spec o os) as [->|]; intros; simplify_eq; by auto.
Qed.

Lemma checked_inv os s w x w' :
  local_inv w → checked os s w = Some (x, w') →
  local_inv w' ∧ get_set s w' = Some x ∧ x.(owner_thread) = Some os ∧
  w'.(current_local) = w.(current_local) ∧ w'.(guards) = w.(guards) ∧ w'.(polled) = w.(polled).
Proof.
  unfold checked. intros Hw. destruct (get_set s w) as [y|] eqn:Es; [|done]. simpl.
  destruct (bind_or_check_thread os (owner_thread y)) as [o|] eqn:Eb; [|done]. simpl. intros; simplify_eq.
  apply bind_keeps_owner in Eb as [-> Ho]. split_and!; try done.
  - eapply homes_put_inv; [done..| |]; simpl.
    + intros o Hy. destruct Ho as [Ho|Ho]; congruence.
    + intros home Hin. pose proof (li_queue _ Hw _ _ _ Es Hin). destruct Ho as [Ho|Ho]; congruence.
  - rewrite get_put by (by eapply get_lt). by rewrite decide_True.
Qed.

(** Sets come and go; those that stay keep their threads. *)
Lemma sets_inv w w' :
  local_inv w → (length w.(sets) ≤ length w'.(sets))%nat →
  (∀ s x, get_set s w' = Some x → (∃ y, get_set s w = Some y ∧ x.(owner_thread) = y.(owner_thread) ∧ (∀ h, h ∈ x.(queue) → h ∈ y.(queue))) ∨
     (length w.(sets) ≤ s)%nat ∧ x.(queue) = []) →
  w'.(current_local) = w.(current_local) → w'.(guards) = w.(guards) →
  (∀ home os, (home, os) ∈ w'.(polled) → home = os) →
  local_inv w'.
Proof.
  intros [Hq Hc Hg _] Hl Hs Ec Eg Hp.
  assert (∀ os o, fits w os o → fits w' os o) as Hf.
  { intros os [s|]; simpl; [|done]. intros [Hlt Hx]. split; [lia|]. intros x E1.
    destruct (Hs s x E1) as [(y & Ey & -> & _)|[? _]]; [by apply Hx|lia]. }
  split; rewrite ?Ec, ?Eg; [|by auto|intros; eapply Hf, Hg; done|done].
  intros s x home E1 Hin. destruct (Hs s x E1) as [(y & Ey & -> & Hh)|[_ En]].
  - eapply Hq; [done|by apply Hh].
  - rewrite En in Hin. by apply elem_of_nil in Hin.
Qed.

(** Cells and guards change; the sets do not. *)
Lemma cells_inv w w' :
  local_inv w → w'.(sets) = w.(sets) → w'.(polled) = w.(polled) →
  (∀ os, fits w os (w'.(current_local) !! os)) →
  (∀ g os previous, w'.(guards) !! g = Some (Some (os, previous)) → fits w os previous) →
  local_inv w'.
Proof.
  intros [Hq Hc Hg Hp] Es Ep Hc' Hg'. destruct w, w'; simpl in *; subst. split; simpl; by auto.
Qed.

Lemma guard_at g os previous w :
  mjoin (w.(guards) !! g) = Some (os, previous) → w.(guards) !! g = Some (Some (os, previous)).
Proof. by destruct (w.(guards) !! g); simpl; [intros ->|]. Qed.

Lemma local_move_inv m w w' :
  local_inv w → local_move m w = Some w' → is_send m = false → local_inv w'.
Proof.
  intros Hw Hm Hs. destruct m as [|os s|g|g os|os|os s|os s|s]; simpl in *; [..|done| | | |].
  - simplify_eq. eapply sets_inv; [done|simpl; rewrite length_app; lia| |done..|apply Hw].
    intros s x. unfold get_set. simpl. destruct (decide (s < length (sets w))%nat).
    + rewrite lookup_app_l by done. intros E1. left. by exists x.
    + rewrite lookup_app_r by lia. intros E1. right. split; [lia|].
      destruct (s - length (sets w))%nat; simpl in E1; by simplify_eq.
  - destruct (checked os s w) as [[x w1]|] eqn:Ec; [|done]. simplify_eq/=.
    destruct (checked_inv _ _ _ _ _ Hw Ec) as (Hw1 & Es & Ho & E1 & E2 & E3). rewrite <-?E1, <-?E2, <-?E3.
    assert (fits w1 os (Some s)) as Hf.
    { split; [by eapply get_lt|]. intros y Ey. by simplify_eq. }
    eapply (cells_inv w1); [done..| |]; simpl.
    + intros os'. destruct (decide (os = os')) as [->|]; simplify_map_eq; [done|apply Hw1].
    + intros g os' p Hg. apply lookup_snoc_inv in Hg as [Hg|Hg]; [by eapply Hw1|]. simplify_eq. apply Hw1.
  - destruct (mjoin (guards w !! g)) as [[os p]|] eqn:Eg; [|done]. simplify_eq/=. apply guard_at in Eg.
    eapply (cells_inv w); [done..| |]; simpl.
    + intros os'. destruct (decide (os = os')) as [->|].
      * rewrite lookup_partial_alter_eq. by eapply Hw.
      * rewrite lookup_partial_alter_ne by done. apply Hw.
    + intros g' os' p' Hg. apply list_lookup_insert_Some in Hg as [(_ & ? & _)|[_ Hg]]; [done|]. by eapply Hw.
  - destruct (current_local w !! os) as [s|] eqn:Ec; [|done]. simpl in Hm.
    pose proof (li_current _ Hw os) as Hf. rewrite Ec in Hf. destruct Hf as [_ Hf].
    unfold push in Hm. destruct (get_set s w) as [x|] eqn:Es; [|done]. simplify_eq/=.
    eapply homes_put_inv; [done..| |]; simpl; [done|]. intros home. rewrite elem_of_app, list_elem_of_singleton.
    intros [Hin| ->]; [by eapply Hw|by apply Hf].
  - destruct (checked os s w) as [[x w1]|] eqn:Ec; [|done]. simpl in Hm.
    destruct (checked_inv _ _ _ _ _ Hw Ec) as (Hw1 & Es & Ho & _).
    unfold push in Hm. rewrite Es in Hm. simplify_eq/=.
    eapply homes_put_inv; [done..| |]; simpl; [done|]. intros home. rewrite elem_of_app, list_elem_of_singleton.
    intros [Hin| ->]; [by eapply Hw1|done].
  - destruct (checked os s w) as [[x w1]|] eqn:Ec; [|done]. simpl in Hm.
    destruct (checked_inv _ _ _ _ _ Hw Ec) as (Hw1 & Es & Ho & _).
    destruct (queue x) as [|home q] eqn:Eq; simplify_eq/=.
    assert (home = os) as <-. { assert (owner_thread x = Some home); [|congruence]. eapply Hw1; [done|]. rewrite Eq. left. }
    eapply (sets_inv w1); [done|simpl; by rewrite length_insert| |done..|].
    + intros s' y Ey. left. pose proof (get_lt _ _ _ Es).
      change (get_set s' (put_set s (Some (mkSet (owner_thread x) q)) w1) = Some y) in Ey.
      rewrite get_put in Ey by done. case_decide; subst; [|by exists y]. simplify_eq.
      exists x. split_and!; [done|done|]. simpl. rewrite Eq. intros. by right.
    + simpl. intros h o. rewrite elem_of_app, list_elem_of_singleton. intros [Hin|Hin]; [by eapply Hw1|by simplify_eq].
  - destruct (get_set s w) as [x|] eqn:Es; [|done]. simplify_eq/=. pose proof (get_lt _ _ _ Es).
    eapply (sets_inv w); [done|simpl; by rewrite length_insert| |done..|apply Hw].
    intros s' y. rewrite get_put by done. case_decide; [done|]. intros. left. by exists y.
Qed.

(** C12: as long as no guard of [LocalSet::enter] is moved to another thread,
    every future of any [LocalSet] is polled only on the thread it was made
    on, whatever sets are entered, left in any order, driven and dropped. *)
Theorem local_futures_stay ms w :
  run_moves local_move ms no_sets = Some w → forallb (λ m, negb (is_send m)) ms = true →
  ∀ home os, (home, os) ∈ w.(polled) → home = os.
Proof.
  intros Hr Hm. enough (local_inv w) by apply H.
  assert (local_inv no_sets) as H0.
  { split; simpl; intros; rewrite ?lookup_empty in *; simpl; try done; unfold get_set in *; simpl in *; try done.
    by apply elem_of_nil in H. }
  revert H0 Hr. generalize no_sets. induction ms as [|m ms IH]; simpl in *; intros w0 H0 Hr; [by simplify_eq|].
  apply andb_prop in Hm as [Hm1 Hm]. destruct (local_move m w0) as [w1|] eqn:E1; [|done].
  eapply IH; [done| |done]. eapply local_move_inv; [done..|]. by destruct (is_send m).
Qed.

(** The guard is [Send], and the free [spawn_local] does not check its thread:
    thread 1 drops a guard made on thread 0, whose set becomes current there,
    and thread 0 polls what thread 1 then spawns. *)
Definition smuggle : list move :=
  [NewSet; NewSet; EnterSet 0 0; EnterSet 0 1; SendGuard 1 1; DropGuard 1; SpawnLocal 1; RunNext 0 0]%nat.

Example local_future_crosses :
  match run_moves local_move smuggle no_sets with Some w => w.(polled) | None => [] end = [(1, 0)]%nat.
Proof. vm_compute. reflexivity. Qed.

Definition two_sets : list move :=
  [NewSet; NewSet; EnterSet 0 0; EnterSet 0 1; SpawnLocal 0; DropGuard 0; DropGuard 1; SpawnLocal 0; RunNext 0 1; RunNext 0 0]%nat.

Lemma local_futures_stay_witness :
  ∃ w, run_moves local_move two_sets no_sets = Some w ∧ w.(polled) = [(0, 0); (0, 0)]%nat ∧
    ∀ home os, (home, os) ∈ w.(polled) → home = os.
Proof.
  eexists. split; [vm_compute; reflexivity|]. split; [reflexivity|].
  apply (local_futures_stay two_sets); [vm_compute; reflexivity|reflexivity].
Defined.
End LocalSets.
