(* ===== verification/SpawnBlocking.v ===== *)
(** [Handle::spawn_blocking] ([src/src/runtime/context.rs]): a closure on the
    blocking pool, the one-shot channel its outcome travels on, and the task
    whose join handle the caller gets.

    The channel is the one of [Oneshot], the end of the task and its handle
    those of [Join]; here they are put together, one access at a time. *)

From S2P Require Import Prelude Coop Oneshot Join.

Section spawn_blocking.
Context {T P : Type}.
Context (unreachable : P).     (* what the [unreachable!] of the task carries *)

(** The closure given to the pool: [catch_unwind] gives what [f] returned, or
    what its panic carries; the pool may be dropped with the closure in its
    queue. *)
Inductive job_phase := InQueue | Called (r : result T P) | Sent (r : result T P) | NeverRun.

(** The task: its body waits for the channel; it has an answer; its [JoinInner]
    has the answer. *)
Inductive task_phase := Waits | Answered (r : result T (JoinErrorPayload P)) | Finished.

Record call := mkCall {
  job : job_phase;
  chan : Oneshot.world (result T P);
  task_of : task_phase;
  join : Join.world T P;
  aborted : bool;
}.

Definition spawn_blocking : call :=
  mkCall InQueue (Oneshot.mkWorld channel TxHeld (RxHeld None)) Waits
    (Join.mkWorld join_inner_new Alive (Held None)) false.

(** The [match] on what the channel gave: a value, a panic to resume, or the
    [unreachable!], whose panics the task catches. *)
Definition task_answer (r : result (result T P) RecvError) : result T (JoinErrorPayload P) :=
  match r with
  | Ok (Ok value) => Ok value
  | Ok (Err panic_payload) => Err (PayloadPanicked panic_payload)
  | Err _ => Err (PayloadPanicked unreachable)
  end.

(** The closure after its call: [let _ = tx.send(result)], which uses the sender up. *)
Definition job_body (outcome : result T P) : M (Oneshot.State (result T P)) (result unit (result T P)) :=
  let! r := send outcome in sender_drop ;! ret r.

Inductive move :=
| MCall (r : result T P) | MSend | MNeverRun                     (* the pool *)
| MPoll (cx : waker) (b : BUDGET) | MAbort | MFinish | MFlag | MWake   (* the task *)
| MHandlePoll (cx : waker) | MHandleDrop.                        (* the caller *)

Definition with_chan (s : Oneshot.State (result T P)) t r (C : call) : call :=
  mkCall C.(job) (Oneshot.mkWorld s t r) C.(task_of) C.(join) C.(aborted).
Definition with_join (i : JoinInner T P) t h (C : call) : call :=
  mkCall C.(job) C.(chan) C.(task_of) (Join.mkWorld i t h) C.(aborted).
Definition with_job j (C : call) : call := mkCall j C.(chan) C.(task_of) C.(join) C.(aborted).
Definition with_task t (C : call) : call := mkCall C.(job) C.(chan) t C.(join) C.(aborted).

Definition call_move (m : move) (C : call) : option call :=
  let ch := C.(chan) in let jn := C.(join) in
  match m with
  | MCall r => match C.(job) with InQueue => Some (with_job (Called r) C) | _ => None end
  | MSend =>
      match C.(job) with
      | Called r =>
          '(res, s, ws) ← job_body r ch.(Oneshot.state);
          Some (with_job (Sent r)
            (with_chan s (match res with Ok _ => TxSent r | Err r => TxRejected r end) (Oneshot.deliver ws ch.(rx)) C))
      | _ => None
      end
  | MNeverRun =>
      match C.(job) with
      | InQueue =>
          '(_, s, ws) ← sender_drop ch.(Oneshot.state);
          Some (with_job NeverRun (with_chan s TxGone (Oneshot.deliver ws ch.(rx)) C))
      | _ => None
      end
  | MPoll cx b =>
      match C.(task_of), ch.(rx) with
      | Waits, RxHeld _ =>
          '(r, (_, s), ws) ← poll_receiver cx (b, ch.(Oneshot.state));
          Some (match r with
                | Ready (Ok v) => with_task (Answered (task_answer (Ok v))) (with_chan s ch.(tx) (RxGot v) C)
                | Ready (Err e) => with_task (Answered (task_answer (Err e))) (with_chan s ch.(tx) RxFailed C)
                | Pending => with_chan s ch.(tx) (Oneshot.deliver ws (RxHeld (Some cx))) C
                end)
      | _, _ => None
      end
  | MAbort =>
      match C.(task_of), ch.(rx) with
      | Waits, RxHeld _ =>
          '(_, s, _) ← receiver_drop ch.(Oneshot.state);
          Some (mkCall C.(job) (Oneshot.mkWorld s ch.(tx) RxGone) (Answered (Err Cancelled)) jn true)
      | _, _ => None
      end
  | MFinish =>
      match C.(task_of), jn.(task) with
      | Answered r, Alive =>
          '(w, i, _) ← finish_swap r jn.(inner);
          Some (with_task Finished (with_join i (Swapped r w) jn.(handle) C))
      | _, _ => None
      end
  | MFlag =>
      match jn.(task) with
      | Swapped r w => '(_, i, _) ← finish_flag jn.(inner); Some (with_join i (Flagged r w) jn.(handle) C)
      | _ => None
      end
  | MWake =>
      match jn.(task) with
      | Flagged r w =>
          '(_, i, ws) ← wake_opt w jn.(inner); Some (with_join i (Ended r) (Join.deliver ws jn.(handle)) C)
      | _ => None
      end
  | MHandlePoll cx =>
      match jn.(handle) with
      | Held _ =>
          '(x, i, _) ← join_poll cx jn.(inner);
          Some (with_join i jn.(task) (match x with Ready r => Resolved r | Pending => Held (Some cx) end) C)
      | _ => None
      end
  | MHandleDrop =>
      match jn.(handle) with Held _ => Some (with_join jn.(inner) jn.(task) Dropped C) | _ => None end
  end.

Definition call_reachable : call → Prop := reachable (.= spawn_blocking) (moves call_move).

(** What the answer of the task says of its job. *)
Definition answer_ok (j : job_phase) (ab : bool) (r : result T (JoinErrorPayload P)) : Prop :=
  match r with
  | Ok v => j = Sent (Ok v)
  | Err Cancelled => ab = true
  | Err (PayloadPanicked p) => j = Sent (Err p) ∨ (j = NeverRun ∧ p = unreachable)
  end.

Definition job_ok (j : job_phase) (t : tx_phase (T := result T P)) : Prop :=
  match j with
  | InQueue | Called _ => t = TxHeld
  | Sent r => t = TxSent r ∨ t = TxRejected r
  | NeverRun => t = TxGone
  end.
Definition task_ok (j : job_phase) (ab : bool) (t : task_phase) (r : rx_phase (T := result T P))
    (e : task_side (T := T) (P := P)) : Prop :=
  match t with
  | Waits => ended_with e = None ∧ ∃ p, r = RxHeld p
  | Answered a => ended_with e = None ∧ answer_ok j ab a
  | Finished => ∃ a, ended_with e = Some a ∧ answer_ok j ab a
  end.

Record call_inv (C : call) : Prop := {
  i_chan : Oneshot.WInv C.(chan);
  i_join : Join.WInv C.(join);
  i_job : job_ok C.(job) C.(chan).(tx);
  i_task : task_ok C.(job) C.(aborted) C.(task_of) C.(chan).(rx) C.(join).(task);
}.

(** The job goes on: nothing was said of it yet. *)
Lemma task_ok_job j j' ab t r r' e :
  task_ok j ab t r e → (j = InQueue ∨ ∃ x, j = Called x) →
  ((∃ p, r = RxHeld p) → ∃ p, r' = RxHeld p) → task_ok j' ab t r' e.
Proof.
  unfold task_ok. intros HT Hj Hr. destruct t as [|a|]; [naive_solver|destruct HT as [? HA]|destruct HT as (a & ? & HA)];
    assert (answer_ok j' ab a) by (destruct a as [|[]]; naive_solver); eauto.
Qed.
Lemma deliver_held {A} ws (r : rx_phase (T := A)) :
  (∃ p, r = RxHeld p) → ∃ p, Oneshot.deliver ws r = RxHeld p.
Proof. intros [[w|] ->]; simpl; [case_bool_decide|]; eauto. Qed.

(** Each move is a step of the channel, as [Oneshot] has it, or none, and
    likewise of the join handle. *)
Lemma job_body_parts r s res s2 ws :
  job_body r s = Some (res, s2, ws) →
  (res = Ok tt ∨ res = Err r) ∧
  ∃ s1 ws1 ws2, send r s = Some (res, s1, ws1) ∧ sender_drop s1 = Some (tt, s2, ws2) ∧ ws = ws1 ++ ws2.
Proof.
  unfold job_body, send, sender_drop. run_M.
  destruct s; run_M; intros; simplify_eq/=; (split; [by eauto|]); by repeat eexists.
Qed.

Lemma call_move_chan m C C' :
  job_ok C.(job) C.(chan).(tx) → call_move m C = Some C' →
  C'.(chan) = C.(chan) ∨ Oneshot.wstep C.(chan) C'.(chan).
Proof.
  intros Hj Hm. destruct m as [r| | |cx b| | | | |cx|]; cbv beta iota zeta delta [call_move] in Hm.
  - destruct (job C); simplify_eq. by left.
  - destruct (job C) as [|r| |]; [done| |done..]. simpl in Hj.
    apply bind_Some in Hm as ([[res s] ws] & E & [= <-]). right. simpl.
    apply job_body_parts in E as ([-> | ->] & s1 & ws1 & ws2 & E1 & E2 & ->);
      exact (Oneshot.w_send _ r _ s1 s ws1 ws2 Hj E1 E2).
  - destruct (job C); [|done..]. apply bind_Some in Hm as ([[[] s] ws] & E & [= <-]). right.
    by apply Oneshot.w_sender_drop.
  - destruct (task_of C); [|done..]. destruct (rx (chan C)) as [p| | |] eqn:Er; [|done..].
    apply bind_Some in Hm as ([[r [b' s]] ws] & E & Hm). right.
    pose proof (Oneshot.w_poll _ p cx b b' r s ws Er E) as Hst.
    by destruct r as [[v|[]]|]; injection Hm as <-.
  - destruct (task_of C); [|done..]. destruct (rx (chan C)) as [p| | |] eqn:Er; [|done..].
    apply bind_Some in Hm as ([[[] s] ws] & E & [= <-]). right. by eapply Oneshot.w_receiver_drop.
  - destruct (task_of C); [done| |done]. destruct (task (join C)); [|done..].
    apply bind_Some in Hm as ([[w i] ws] & E & [= <-]). by left.
  - destruct (task (join C)); [done| |done..]. apply bind_Some in Hm as ([[[] i] ws] & E & [= <-]). by left.
  - destruct (task (join C)); [done..| |done]. apply bind_Some in Hm as ([[[] i] ws] & E & [= <-]). by left.
  - destruct (handle (join C)); [|done..]. apply bind_Some in Hm as ([[x i] ws] & E & [= <-]). by left.
  - destruct (handle (join C)); simplify_eq. by left.
Qed.

Lemma call_move_join m C C' :
  call_move m C = Some C' → C'.(join) = C.(join) ∨
  (Join.wstep C.(join) C'.(join) ∧ C'.(job) = C.(job) ∧ C'.(chan) = C.(chan) ∧ C'.(aborted) = C.(aborted) ∧
   ((C'.(task_of) = C.(task_of) ∧ ended_with C'.(join).(task) = ended_with C.(join).(task)) ∨
    ∃ r, C.(task_of) = Answered r ∧ C'.(task_of) = Finished ∧ ended_with C'.(join).(task) = Some r)).
Proof.
  intros Hm. destruct m as [r| | |cx b| | | | |cx|]; cbv beta iota zeta delta [call_move] in Hm.
  - destruct (job C); simplify_eq. by left.
  - destruct (job C); [done| |done..]. apply bind_Some in Hm as ([[res s] ws] & E & [= <-]). by left.
  - destruct (job C); [|done..]. apply bind_Some in Hm as ([[[] s] ws] & E & [= <-]). by left.
  - destruct (task_of C); [|done..]. destruct (rx (chan C)); [|done..].
    apply bind_Some in Hm as ([[r [b' s]] ws] & E & Hm). left. by destruct r as [[v|[]]|]; injection Hm as <-.
  - destruct (task_of C); [|done..]. destruct (rx (chan C)); [|done..].
    apply bind_Some in Hm as ([[[] s] ws] & E & [= <-]). by left.
  - destruct (task_of C) as [|r|]; [done| |done]. destruct (task (join C)) eqn:Et; [|done..].
    apply bind_Some in Hm as ([[w i] ws] & E & [= <-]). right. split; [by eapply Join.w_swap|]. eauto 10.
  - destruct (task (join C)) eqn:Et; [done| |done..]. apply bind_Some in Hm as ([[[] i] ws] & E & [= <-]). right.
    split; [by eapply Join.w_flag|]. eauto 10.
  - destruct (task (join C)) eqn:Et; [done..| |done]. apply bind_Some in Hm as ([[[] i] ws] & E & [= <-]). right.
    split; [by eapply Join.w_wake|]. eauto 10.
  - destruct (handle (join C)) eqn:Eh; [|done..]. apply bind_Some in Hm as ([[x i] ws] & E & [= <-]). right.
    split; [by eapply Join.w_join_poll|]. eauto 10.
  - destruct (handle (join C)) eqn:Eh; simplify_eq. right. split; [by eapply Join.w_handle_drop|]. eauto 10.
Qed.

Lemma polled_answer j x (W : Oneshot.world (result T P)) ab :
  Oneshot.WInv W → job_ok j W.(tx) →
  W.(rx) = match x with Ok v => RxGot v | Err _ => RxFailed end → answer_ok j ab (task_answer x).
Proof.
  unfold Oneshot.WInv, job_ok. intros HW Hj E. rewrite E in HW.
  destruct x as [[v|p]|[]], (tx W), j; simpl; naive_solver.
Qed.


(** The job and the task agree. *)
Lemma call_move_job m C C' :
  call_inv C → Oneshot.WInv C'.(chan) → call_move m C = Some C' → C'.(join) = C.(join) →
  job_ok C'.(job) C'.(chan).(tx) ∧
  task_ok C'.(job) C'.(aborted) C'.(task_of) C'.(chan).(rx) C'.(join).(task).
Proof.
  intros [Hc Hj Hjob Htask] Hc' Hm Ej. destruct m as [r| | |cx b| | | | |cx|]; cbv beta iota zeta delta [call_move] in Hm.
  - destruct (job C) eqn:Eq; simplify_eq. split; [done|]. eapply task_ok_job; eauto.
  - destruct (job C) as [|r| |] eqn:Eq; [done| |done..].
    apply bind_Some in Hm as ([[res s] ws] & [Hres _]%job_body_parts & [= <-]). simpl in *.
    split; [destruct Hres as [->| ->]; eauto|]. eapply task_ok_job; eauto using deliver_held.
  - destruct (job C) eqn:Eq; [|done..]. apply bind_Some in Hm as ([[[] s] ws] & E & [= <-]).
    split; [done|]. simpl. eapply task_ok_job; eauto using deliver_held.
  - destruct (task_of C) eqn:Et; [|done..]. destruct (rx (chan C)) eqn:Er; [|done..]. destruct Htask as [Ha _].
    apply bind_Some in Hm as ([[r [b' s]] ws] & E & Hm).
    destruct r as [[v|[]]|]; injection Hm as <-; (split; [done|]); simpl; [split; [done|]..|].
    + exact (polled_answer _ (Ok v) _ _ Hc' Hjob eq_refl).
    + exact (polled_answer _ (Err mkRecvError) _ (aborted C) Hc' Hjob eq_refl).
    + rewrite Et. split; [done|]. case_bool_decide; eauto.
  - destruct (task_of C) eqn:Et; [|done..]. destruct (rx (chan C)) eqn:Er; [|done..]. destruct Htask as [Ha _].
    apply bind_Some in Hm as ([[[] s] ws] & E & [= <-]). done.
  - destruct (task_of C); [done| |done]. destruct (task (join C)) eqn:Et; [|done..].
    apply bind_Some in Hm as ([[w i] ws] & E & [= <-]). apply (f_equal task) in Ej. simpl in Ej. congruence.
  - destruct (task (join C)) eqn:Et; [done| |done..]. apply bind_Some in Hm as ([[[] i] ws] & E & [= <-]).
    apply (f_equal task) in Ej. simpl in Ej. congruence.
  - destruct (task (join C)) eqn:Et; [done..| |done]. apply bind_Some in Hm as ([[[] i] ws] & E & [= <-]).
    apply (f_equal task) in Ej. simpl in Ej. congruence.
  - destruct (handle (join C)); [|done..]. by apply bind_Some in Hm as ([[x i] ws] & E & [= <-]).
  - by destruct (handle (join C)); simplify_eq.
Qed.

Lemma call_inv_step C C' : call_inv C → moves call_move C C' → call_inv C'.
Proof.
  intros HI [m Hm]. pose proof HI as [Hc Hj Hjob Htask].
  assert (Oneshot.WInv C'.(chan)) as Hc' by
    (destruct (call_move_chan m C C' Hjob Hm) as [->|]; eauto using oneshot_WInv_step).
  destruct (call_move_join m C C' Hm) as [Ej|(Hst & E1 & E2 & E3 & E4)].
  - destruct (call_move_job m C C' HI Hc' Hm Ej). split; [done| |done..]. by rewrite Ej.
  - split; [done|by eapply join_WInv_step|by rewrite E1, E2|]. rewrite E1, E2, E3. unfold task_ok in *.
    destruct E4 as [[-> ->]|(r & Er & -> & ->)]; [done|]. rewrite Er in Htask. exists r. by destruct Htask.
Qed.

Lemma call_reachable_inv C : call_reachable C → call_inv C.
Proof.
  apply invariant_reachable; [|eauto using call_inv_step]. intros ? ->.
  split; simpl; [by left|done|done|eauto].
Qed.

(** C28: nothing is lost or made up between the closure and the caller.  In every
    interleaving of the pool, the task, an abort of it and its handle: the
    handle resolves to the value only if the closure returned it, to a panic
    only if the closure panicked with it - or was dropped without having run,
    which only the end of the pool does - and to a cancellation only if the
    task was aborted.  And nobody sleeps through it: once the closure is over
    the task has been woken and finds the outcome in the channel, and when the
    task has its answer in place the handle's waker is called, or is about to
    be. *)
Theorem spawn_blocking_delivers C :
  call_reachable C →
  (∀ v, C.(join).(handle) = Resolved (Ok v) → C.(job) = Sent (Ok v)) ∧
  (∀ p, C.(join).(handle) = Resolved (Err (mkJoinError (Some p))) →
    C.(job) = Sent (Err p) ∨ (C.(job) = NeverRun ∧ p = unreachable)) ∧
  (C.(join).(handle) = Resolved (Err (mkJoinError None)) → C.(aborted) = true) ∧
  (∀ r, C.(job) = Sent r → C.(task_of) = Waits →
    C.(chan).(rx) = RxHeld None ∧ C.(chan).(Oneshot.state) = Value r) ∧
  (∀ w, C.(task_of) = Finished → C.(join).(handle) = Held (Some w) → owed C.(join).(task) = Some w).
Proof.
  intros [Hc [_ Hj] Hjob Htask]%call_reachable_inv.
  assert (∀ x, C.(join).(handle) = Resolved x → ∃ a, x = join_result a ∧ answer_ok C.(job) C.(aborted) a) as Hres.
  { intros x E. rewrite E in Hj. destruct Hj as (r & Er & -> & _). exists r. split; [done|].
    destruct (task_of C); simpl in Htask; [destruct Htask; congruence..|]. destruct Htask as (a & Ea & HA). congruence. }
  split_and!.
  - intros v (a & Ea & HA)%Hres. destruct a; [|done]. by injection Ea as ->.
  - intros p (a & Ea & HA)%Hres. destruct a as [|[]]; [done..|]. by injection Ea as ->.
  - intros (a & Ea & HA)%Hres. by destruct a as [|[]].
  - intros r Ej Et. rewrite Ej in Hjob. rewrite Et in Htask. destruct Htask as [_ [p Ep]].
    unfold Oneshot.WInv in Hc. rewrite Ep in Hc. destruct Hjob as [E|E]; rewrite E in Hc; [|done].
    by destruct Hc as [? ->].
  - intros w Et Eh. rewrite Et in Htask. destruct Htask as (a & Ea & _). rewrite Eh, Ea in Hj. by apply Hj.
Qed.
End spawn_blocking.

(** The closure runs, its outcome is sent while the task waits, the task is
    polled and ends, and the caller polls its handle. *)
Definition finished_call : call (T := nat) (P := unit) :=
  mkCall (Sent (Ok 7%nat)) (Oneshot.mkWorld Closed (TxSent (Ok 7%nat)) (RxGot (Ok 7%nat))) Finished
    (Join.mkWorld (mkInner Taken true) (Ended (Ok 7%nat)) (Resolved (Ok 7%nat))) false.

Lemma finished_call_reachable : call_reachable tt finished_call.
Proof.
  eexists. split; [done|].
  eapply (run_moves_rtc (call_move tt) _
    [MPoll 1%nat None; MHandlePoll 2%nat; MCall (Ok 7%nat); MSend; MPoll 1%nat None; MFinish; MFlag; MWake; MHandlePoll 2%nat]).
  - intros m c c'. by exists m.
  - reflexivity.
Qed.

Lemma spawn_blocking_delivers_witness :
  call_reachable tt finished_call ∧ finished_call.(job) = Sent (Ok 7%nat).
Proof.
  split; [exact finished_call_reachable|].
  destruct (spawn_blocking_delivers tt _ finished_call_reachable) as [H _].
  apply (H 7%nat). reflexivity.
Defined.
