(* ===== verification/Resolve.v ===== *)
(** [ToSocketAddrs] and [lookup_host] ([src/src/io/addr.rs], [lookup.rs]):
    what a socket's address may be given as, and the functions that try one
    resolved address after the other ([connect], [bind_addrs],
    [connect_addrs] of [tcp.rs] and [udp.rs]).

    The parser of addresses and the resolver are the standard library's and
    the system's: the class [Resolver], with the documented fact that the
    resolver takes a literal address as it is. *)

From S2P Require Import Prelude AsyncIo Net Sockaddr.
From stdpp Require Import strings.
#[local] Open Scope Z_scope.

Inductive IpAddr := Ip4 (octets : list byte) | Ip6 (octets : list byte).
(** [SocketAddr::new]. *)
Definition socket_addr (ip : IpAddr) (port : Z) : SocketAddr :=
  match ip with Ip4 octets => V4 octets port | Ip6 octets => V6 octets port 0 0 end.

(** [str::parse] and [std::net::ToSocketAddrs] of a string and of a pair. *)
Class Resolver := {
  parse_socket_addr : string → option SocketAddr;
  parse_ip : string → option IpAddr;
  std_resolve : string → result (list SocketAddr) io_error;
  std_resolve_pair : string → Z → result (list SocketAddr) io_error;
}.

Class LawfulResolver `{Resolver} := {
  resolve_literal s a : parse_socket_addr s = Some a → std_resolve s = Ok [a];
  resolve_ip_literal s ip port : parse_ip s = Some ip → std_resolve_pair s port = Ok [socket_addr ip port];
}.

(** The closure a lookup sends to the blocking pool, and what is awaited. *)
Inductive resolving :=
| Known (addrs : list SocketAddr)
| LookupHost (job : result (list SocketAddr) io_error).

(** The end of an [await]; [ran] says whether the pool ran the job or lost it
    ([blocking_pool_panicked]). *)
Definition lookup_host (ran : bool) (job : result (list SocketAddr) io_error) : result (list SocketAddr) io_error :=
  if ran then job else Err Other.
Definition await_addrs (ran : bool) (r : resolving) : result (list SocketAddr) io_error :=
  match r with Known addrs => Ok addrs | LookupHost job => lookup_host ran job end.

Class ToSocketAddrs (T : Type) := to_socket_addrs : T → resolving.

Section forms.
Context `{Resolver}.

Definition SocketAddr_addrs (a : SocketAddr) : resolving := Known [a].
#[export] Instance SocketAddr_ToSocketAddrs : ToSocketAddrs SocketAddr := SocketAddr_addrs.
Record SocketAddrV4 := mkV4 { v4_ip : list byte; v4_port : Z }.
Definition SocketAddrV4_addrs (a : SocketAddrV4) : resolving := Known [V4 a.(v4_ip) a.(v4_port)].
#[export] Instance SocketAddrV4_ToSocketAddrs : ToSocketAddrs SocketAddrV4 := SocketAddrV4_addrs.
Record SocketAddrV6 := mkV6 { v6_ip : list byte; v6_port : Z; v6_flowinfo : Z; v6_scope_id : Z }.
Definition SocketAddrV6_addrs (a : SocketAddrV6) : resolving :=
  Known [V6 a.(v6_ip) a.(v6_port) a.(v6_flowinfo) a.(v6_scope_id)].
#[export] Instance SocketAddrV6_ToSocketAddrs : ToSocketAddrs SocketAddrV6 := SocketAddrV6_addrs.
Definition IpAddr_u16_addrs (a : IpAddr * Z) : resolving := Known [socket_addr a.1 a.2].
#[export] Instance IpAddr_u16_ToSocketAddrs : ToSocketAddrs (IpAddr * Z) := IpAddr_u16_addrs.
Definition slice_addrs (addrs : list SocketAddr) : resolving := Known addrs.
#[export] Instance slice_ToSocketAddrs : ToSocketAddrs (list SocketAddr) := slice_addrs.
(** [str]; [&str] and [String] hand over to it. *)
Definition str_addrs (s : string) : resolving :=
  match parse_socket_addr s with
  | Some addr => Known [addr]
  | None => LookupHost (std_resolve s)
  end.
#[export] Instance str_ToSocketAddrs : ToSocketAddrs string := str_addrs.
(** [(&str, u16)] and [(String, u16)]. *)
Definition host_port_addrs (a : string * Z) : resolving :=
  match parse_ip a.1 with
  | Some ip => Known [socket_addr ip a.2]
  | None => LookupHost (std_resolve_pair a.1 a.2)
  end.
#[export] Instance host_port_ToSocketAddrs : ToSocketAddrs (string * Z) := host_port_addrs.

(** What the standard library's own trait gives, blocking. *)
Class StdToSocketAddrs (T : Type) := std_to_socket_addrs : T → result (list SocketAddr) io_error.
#[export] Instance std_SocketAddr : StdToSocketAddrs SocketAddr := λ a, Ok [a].
#[export] Instance std_V4 : StdToSocketAddrs SocketAddrV4 := λ a, Ok [V4 a.(v4_ip) a.(v4_port)].
#[export] Instance std_V6 : StdToSocketAddrs SocketAddrV6 := λ a,
  Ok [V6 a.(v6_ip) a.(v6_port) a.(v6_flowinfo) a.(v6_scope_id)].
#[export] Instance std_ip_port : StdToSocketAddrs (IpAddr * Z) := λ a, Ok [socket_addr a.1 a.2].
#[export] Instance std_slice : StdToSocketAddrs (list SocketAddr) := λ l, Ok l.
#[export] Instance std_str : StdToSocketAddrs string := std_resolve.
#[export] Instance std_host_port : StdToSocketAddrs (string * Z) := λ a, std_resolve_pair a.1 a.2.

(** The forms that are supported. *)
Inductive form : Type :=
| FAddr (a : SocketAddr) | FV4 (a : SocketAddrV4) | FV6 (a : SocketAddrV6) | FIp (ip : IpAddr) (port : Z)
| FSlice (l : list SocketAddr) | FStr (s : string) | FHost (host : string) (port : Z).
#[export] Instance form_addrs : ToSocketAddrs form := λ f,
  match f with
  | FAddr a => to_socket_addrs a | FV4 a => to_socket_addrs a | FV6 a => to_socket_addrs a
  | FIp ip port => to_socket_addrs (ip, port) | FSlice l => to_socket_addrs l
  | FStr s => to_socket_addrs s | FHost host port => to_socket_addrs (host, port)
  end.
#[export] Instance std_form : StdToSocketAddrs form := λ f,
  match f with
  | FAddr a => std_to_socket_addrs a | FV4 a => std_to_socket_addrs a | FV6 a => std_to_socket_addrs a
  | FIp ip port => std_to_socket_addrs (ip, port) | FSlice l => std_to_socket_addrs l
  | FStr s => std_to_socket_addrs s | FHost host port => std_to_socket_addrs (host, port)
  end.

(** Whether a form is only known by a name. *)
Definition is_name (f : form) : bool :=
  match f with
  | FStr s => negb (bool_decide (is_Some (parse_socket_addr s)))
  | FHost host _ => negb (bool_decide (is_Some (parse_ip host)))
  | _ => false
  end.
End forms.

(** ** One address after the other *)

(** [addrs] resolved, then [attempt] for each until one succeeds. *)
Fixpoint for_addrs {N A} (attempt : SocketAddr → M N (result A io_error)) (last_err : option io_error)
    (addrs : list SocketAddr) : M N (result A io_error) :=
  match addrs with
  | [] => ret (Err (default InvalidInput last_err))
  | addr :: addrs =>
      let! r := attempt addr in
      match r with
      | Ok a => ret (Ok a)
      | Err e => for_addrs attempt (Some e) addrs
      end
  end.
Definition try_addrs {N A} `{ToSocketAddrs T} (ran : bool) (attempt : SocketAddr → M N (result A io_error)) (addr : T)
    : M N (result A io_error) :=
  match await_addrs ran (to_socket_addrs addr) with
  | Err e => ret (Err e)
  | Ok addrs => for_addrs attempt None addrs
  end.

(** The attempts that are made: up to the first success. *)
Inductive attempts {N A} (attempt : SocketAddr → M N (result A io_error)) :
    list SocketAddr → N → list (result A io_error) → N → list waker → Prop :=
| at_nil N0 : attempts attempt [] N0 [] N0 []
| at_ok addr addrs N0 N1 a ws :
    attempt addr N0 = Some (Ok a, N1, ws) → attempts attempt (addr :: addrs) N0 [Ok a] N1 ws
| at_err addr addrs N0 N1 N2 e ws ws' l :
    attempt addr N0 = Some (Err e, N1, ws) → attempts attempt addrs N1 l N2 ws' →
    attempts attempt (addr :: addrs) N0 (Err e :: l) N2 (ws ++ ws').

Lemma for_addrs_attempts {N A} (attempt : SocketAddr → M N (result A io_error)) addrs l N0 N1 ws last_err :
  attempts attempt addrs N0 l N1 ws →
  for_addrs attempt last_err addrs N0 = Some (try_each last_err l, N1, ws).
Proof.
  intros Ha. revert last_err. induction Ha as [| |addr addrs N0 N1 N2 e ws ws' l E1 _ IH]; intros last_err; simpl.
  - done.
  - unfold bind, ret. rewrite H. by rewrite app_nil_r.
  - eapply bind_some; [done|]. apply IH.
Qed.

(** For every form an address may be given in, a pool that runs its jobs
    gives the addresses the standard library gives; only names go to the
    pool, and without it -- its job lost -- they alone fail; [connect],
    [bind_addrs] and [connect_addrs] then try the addresses in order, each
    once and none past the first success, and answer with that success, the
    last error, or [InvalidInput] when there is no address. *)
Theorem resolve_exact `{LawfulResolver} {N A} (attempt : SocketAddr → M N (result A io_error)) (f : form) ran :
  await_addrs true (to_socket_addrs f) = std_to_socket_addrs f ∧
  ((∃ addrs, to_socket_addrs f = Known addrs) ↔ is_name f = false) ∧
  (is_name f = true → await_addrs false (to_socket_addrs f) = Err Other) ∧
  ∀ addrs, await_addrs ran (to_socket_addrs f) = Ok addrs →
    ∀ N0 l N1 ws, attempts attempt addrs N0 l N1 ws →
      try_addrs ran attempt f N0 = Some (try_each None l, N1, ws).
Proof.
  split_and!.
  - destruct f as [| | | | |s|host port]; [done..| |]; unfold to_socket_addrs, form_addrs, to_socket_addrs; simpl.
    + unfold str_ToSocketAddrs, str_addrs. destruct (parse_socket_addr s) as [a|] eqn:E1; [|done]. symmetry. by apply resolve_literal.
    + unfold host_port_ToSocketAddrs, host_port_addrs. simpl. destruct (parse_ip host) as [ip|] eqn:E1; [|done]. symmetry. by apply resolve_ip_literal.
  - destruct f as [| | | | |s|host port]; simpl; try (split; [done|intros _; by eexists]);
      unfold to_socket_addrs, form_addrs, to_socket_addrs, str_ToSocketAddrs, host_port_ToSocketAddrs, str_addrs, host_port_addrs; simpl.
    + destruct (parse_socket_addr s) as [a|] eqn:E1; simpl; split; [done|intros _; by eexists|by intros [? ?]|done].
    + destruct (parse_ip host) as [ip|] eqn:E1; simpl; split; [done|intros _; by eexists|by intros [? ?]|done].
  - destruct f as [| | | | |s|host port]; try done; simpl;
      unfold to_socket_addrs, form_addrs, to_socket_addrs, str_ToSocketAddrs, host_port_ToSocketAddrs, str_addrs, host_port_addrs; simpl.
    + by destruct (parse_socket_addr s).
    + by destruct (parse_ip host).
  - intros addrs E1 N0 l N1 ws Ha. unfold try_addrs. rewrite E1. by apply for_addrs_attempts.
Qed.

(** ** A concrete resolver *)

#[local] Instance hosts_file : Resolver := {|
  parse_socket_addr s := if bool_decide (s = "127.0.0.1:80") then Some (V4 [127; 0; 0; 1] 80) else None;
  parse_ip s := if bool_decide (s = "127.0.0.1") then Some (Ip4 [127; 0; 0; 1]) else None;
  std_resolve s :=
    if bool_decide (s = "127.0.0.1:80") then Ok [V4 [127; 0; 0; 1] 80]
    else if bool_decide (s = "db:80") then Ok [V4 [10; 0; 0; 1] 80; V4 [10; 0; 0; 2] 80] else Err NotFound;
  std_resolve_pair s port :=
    if bool_decide (s = "127.0.0.1") then Ok [V4 [127; 0; 0; 1] port] else Err NotFound;
|}.
#[local] Instance hosts_lawful : LawfulResolver.
Proof.
  split; simpl; intros.
  - case_bool_decide; by simplify_eq.
  - case_bool_decide; by simplify_eq.
Qed.

(** An [attempt] that logs its address; only [10.0.0.2] answers. *)
Definition dial (a : SocketAddr) : M (list SocketAddr) (result SocketAddr io_error) :=
  let! l := get in
  put (l ++ [a]) ;!
  ret (match a with V4 [10; 0; 0; 2] _ => Ok a | _ => Err (OsError 111) end).

Lemma resolve_exact_witness :
  let f := FStr "db:80" in
  await_addrs true (to_socket_addrs f) = Ok [V4 [10; 0; 0; 1] 80; V4 [10; 0; 0; 2] 80] ∧
  try_addrs true dial f [] = Some (Ok (V4 [10; 0; 0; 2] 80), [V4 [10; 0; 0; 1] 80; V4 [10; 0; 0; 2] 80], []).
Proof.
  destruct (resolve_exact dial (FStr "db:80") true) as (_ & _ & _ & Ht).
  split; [reflexivity|].
  refine (Ht [V4 [10; 0; 0; 1] 80; V4 [10; 0; 0; 2] 80] _ [] [Err (OsError 111); Ok (V4 [10; 0; 0; 2] 80)] _ [] _).
  - reflexivity.
  - apply (at_err dial _ _ [] [V4 [10; 0; 0; 1] 80] _ (OsError 111) [] []); [reflexivity|].
    apply at_ok. reflexivity.
Defined.
