(* ===== verification/Descriptors.v ===== *)
(** How the crate makes its file descriptors, sockets and handles
    ([src/src/io/socket/posix.rs], [windows.rs], [io/pipe.rs], [signal.rs],
    and the constructors of the reactors and of the [io_uring] driver).

    The kernel is a table of open descriptors with their two flags and a
    script that says which of the calls to come fail.  [owning] is what Rust
    does with an [OwnedFd] that is a local variable: an early return drops it.
    The reactors, which keep raw descriptors, close them by hand, as here. *)

From S2P Require Import Prelude AsyncIo.

Record flags := mkFlags { nonblocking : bool; cloexec : bool }.
Record kernel := mkKernel { open : gmap nat flags; calls : list (option io_error) }.

(** ** System calls *)

Definition bind_ok {A B} (m : M kernel (result A io_error)) (k : A → M kernel (result B io_error))
    : M kernel (result B io_error) :=
  let! r := m in match r with Ok a => k a | Err e => ret (Err e) end.
#[local] Notation "'try!' x := m 'in' k" := (bind_ok m (λ x, k))
  (at level 10, x pattern, m at level 100, k at level 200) : rust_scope.

(** The next call of the script; the calls after it succeed. *)
Definition syscall : M kernel (result unit io_error) :=
  let! o := get in
  match o.(calls) with
  | [] => ret (Ok tt)
  | c :: cs => put (mkKernel o.(open) cs) ;! ret (match c with Some e => Err e | None => Ok tt end)
  end.

Definition allocate (f : flags) : M kernel nat :=
  let! o := get in
  let fd := fresh (dom o.(open)) in
  put (mkKernel (<[fd := f]> o.(open)) o.(calls)) ;! ret fd.
(** [socket], [eventfd], [kqueue] and the like; [socketpair], [pipe]. *)
Definition open1 (f : flags) : M kernel (result nat io_error) :=
  try! _ := syscall in let! fd := allocate f in ret (Ok fd).
Definition open2 (f : flags) : M kernel (result (nat * nat) io_error) :=
  try! _ := syscall in let! a := allocate f in let! b := allocate f in ret (Ok (a, b)).

Definition change (g : flags → flags) (fd : nat) : M kernel (result unit io_error) :=
  try! _ := syscall in
  let! o := get in put (mkKernel (alter g fd o.(open)) o.(calls)) ;! ret (Ok tt).
Definition set_nonblocking (b : bool) : nat → M kernel (result unit io_error) :=
  change (λ f, mkFlags b f.(cloexec)).
Definition set_cloexec : nat → M kernel (result unit io_error) :=
  change (λ f, mkFlags f.(nonblocking) true).

Definition close (fd : nat) : M kernel unit :=
  let! o := get in put (mkKernel (delete fd o.(open)) o.(calls)).
Fixpoint close_all (fds : list nat) : M kernel unit :=
  match fds with [] => ret tt | fd :: fds => close fd ;! close_all fds end.

Definition owning {A} (fds : list nat) (m : M kernel (result A io_error)) : M kernel (result A io_error) :=
  let! r := m in
  match r with Ok a => ret (Ok a) | Err e => close_all fds ;! ret (Err e) end.
(** A variable that is dropped whatever happens. *)
Definition dropping {A} (fds : list nat) (m : M kernel (result A io_error)) : M kernel (result A io_error) :=
  let! r := m in close_all fds ;! ret r.

(** ** POSIX *)

Inductive Target := Linux | Bsd | Macos.
Definition has_sock_flags (t : Target) : bool := match t with Linux => true | _ => false end.
Definition has_pipe2 (t : Target) : bool := match t with Macos => false | _ => true end.

Definition both (fd : nat) : M kernel (result unit io_error) :=
  try! _ := set_nonblocking true fd in set_cloexec fd.
Definition new_socket (t : Target) : M kernel (result nat io_error) :=
  if has_sock_flags t then open1 (mkFlags true true)
  else try! fd := open1 (mkFlags false false) in owning [fd] (try! _ := both fd in ret (Ok fd)).
Definition new_tcp_socket := new_socket.
Definition new_unix_socket := new_socket.
Definition new_unix_datagram_socket := new_socket.

Definition unix_socketpair (t : Target) : M kernel (result (nat * nat) io_error) :=
  try! (a, b) := open2 (if has_sock_flags t then mkFlags true true else mkFlags false false) in
  owning [a; b]
    (if has_sock_flags t then ret (Ok (a, b))
     else try! _ := both a in try! _ := both b in ret (Ok (a, b))).

(** [set_nonblocking] of [pipe.rs]: the flags are read first. *)
Definition pipe_set_nonblocking (fd : nat) : M kernel (result unit io_error) :=
  try! _ := syscall in set_nonblocking true fd.
Definition new_pipe (t : Target) : M kernel (result (nat * nat) io_error) :=
  if has_pipe2 t then open2 (mkFlags true true)
  else
    try! (r, w) := open2 (mkFlags false false) in
    owning [r; w]
      (try! _ := pipe_set_nonblocking r in try! _ := set_cloexec r in
       try! _ := pipe_set_nonblocking w in try! _ := set_cloexec w in
       ret (Ok (r, w))).
(** [pipe]: each end is registered with the reactor, and owned by its
    [PipeSender] or [PipeReceiver] from then on. *)
Definition pipe (t : Target) : M kernel (result (nat * nat) io_error) :=
  try! (r, w) := new_pipe t in
  owning [r; w] (try! _ := syscall in try! _ := syscall in ret (Ok (w, r))).

(** [make_pipe] of [signal.rs]: what [F_SETFD] answers is not looked at. *)
Definition make_pipe (t : Target) : M kernel (result (nat * nat) io_error) :=
  if has_pipe2 t then open2 (mkFlags true true)
  else
    try! (r, w) := open2 (mkFlags false false) in
    owning [r; w]
      (try! _ := set_nonblocking true r in try! _ := set_nonblocking true w in
       let! _ := set_cloexec r in let! _ := set_cloexec w in
       ret (Ok (r, w))).

(** ** The reactors *)

Definition epoll_new : M kernel (result (nat * nat) io_error) :=
  try! epoll_fd := open1 (mkFlags false true) in
  let! r := open1 (mkFlags true true) in
  match r with
  | Err e => close epoll_fd ;! ret (Err e)
  | Ok wake_fd =>
      let! r := syscall in     (* [epoll_ctl] *)
      match r with
      | Err e => close wake_fd ;! close epoll_fd ;! ret (Err e)
      | Ok _ => ret (Ok (epoll_fd, wake_fd))
      end
  end.
Definition epoll_drop (r : nat * nat) : M kernel unit := close r.2 ;! close r.1.

Definition kqueue_new : M kernel (result nat io_error) :=
  try! kq_fd := open1 (mkFlags false false) in
  let! r := syscall in         (* [kevent] *)
  match r with
  | Err e => close kq_fd ;! ret (Err e)
  | Ok _ => ret (Ok kq_fd)
  end.
Definition kqueue_drop (kq_fd : nat) : M kernel unit := close kq_fd.

(** [Reactor::new] on [io_uring]: the ring is a value of the crate [io_uring]
    that closes its own descriptor. *)
Definition uring_new : M kernel (result (nat * nat) io_error) :=
  try! ring := open1 (mkFlags false true) in
  owning [ring] (try! wake_fd := open1 (mkFlags true true) in ret (Ok (ring, wake_fd))).
(** The thread, and with it the ring, is gone before the reactor is dropped. *)
Definition uring_drop (r : nat * nat) : M kernel unit := close r.1 ;! close r.2.

(** [IoUringDriver::new] and its [drop], after its thread has been joined. *)
Definition uring_driver_new : M kernel (result (nat * nat) io_error) := uring_new.
Definition uring_driver_drop : nat * nat → M kernel unit := uring_drop.

(** ** Windows *)

Definition afd_new : M kernel (result nat io_error) :=
  try! handle := open1 (mkFlags false false) in     (* [NtCreateFile] *)
  owning [handle]
    (try! _ := syscall in                           (* [CreateIoCompletionPort] *)
     try! _ := syscall in                           (* [SetFileCompletionNotificationModes] *)
     ret (Ok handle)).
Definition windows_reactor_new : M kernel (result (nat * nat) io_error) :=
  try! cp := open1 (mkFlags false false) in
  let! r := afd_new in
  match r with
  | Err e => close cp ;! ret (Err e)
  | Ok afd => ret (Ok (cp, afd))
  end.
Definition windows_reactor_drop (r : nat * nat) : M kernel unit := close r.1 ;! close r.2.

Definition windows_new_tcp_socket : M kernel (result nat io_error) :=
  try! sock := open1 (mkFlags false false) in
  owning [sock] (try! _ := set_nonblocking true sock in ret (Ok sock)).
Definition windows_new_udp_socket : M kernel (result nat io_error) :=
  try! sock := open1 (mkFlags false false) in
  owning [sock] (try! _ := set_nonblocking true sock in try! _ := syscall in ret (Ok sock)).
Definition windows_listener_bind : M kernel (result nat io_error) :=
  try! sock := windows_new_tcp_socket in
  owning [sock] (try! _ := syscall in try! _ := syscall in ret (Ok sock)).
(** An accepted socket has its listener's mode; reading the peer's address may fail. *)
Definition windows_accept (listener : nat) : M kernel (result nat io_error) :=
  let! o := get in
  try! sock := open1 (default (mkFlags false false) (o.(open) !! listener)) in
  owning [sock] (try! _ := syscall in ret (Ok sock)).
Definition new_blocking_tcp_socket : M kernel (result nat io_error) :=
  try! sock := windows_new_tcp_socket in
  owning [sock] (try! _ := set_nonblocking false sock in ret (Ok sock)).
Definition windows_socket_pair : M kernel (result (nat * nat) io_error) :=
  try! listener := new_blocking_tcp_socket in
  dropping [listener]
    (try! _ := syscall in      (* [bind] *)
     try! _ := syscall in      (* [listen] *)
     try! _ := syscall in      (* [local_addr] *)
     try! connector := new_blocking_tcp_socket in
     owning [connector]
       (try! _ := syscall in   (* [connect] *)
        try! accepted := windows_accept listener in
        ret (Ok (accepted, connector)))).

(** ** A logic of descriptors

    [leads m σ no ok]: from the table [σ], whatever calls fail, [m] ends; with
    an error the table satisfies [no], with a value it satisfies [ok]. *)

Definition leads {A} (m : M kernel (result A io_error)) (σ : gmap nat flags)
    (no : gmap nat flags → Prop) (ok : A → gmap nat flags → Prop) : Prop :=
  ∀ cs, ∃ r o, m (mkKernel σ cs) = Some (r, o, []) ∧
    match r with Ok a => ok a o.(open) | Err _ => no o.(open) end.

Section rules.
Implicit Types (σ : gmap nat flags).

Lemma leads_ret {A} (a : A) σ no ok : ok a σ → leads (ret (Ok a)) σ no ok.
Proof. intros H cs. by do 2 eexists. Qed.

Lemma leads_bind {A B} (m : M kernel (result A io_error)) (k : A → M kernel (result B io_error)) σ no mid ok :
  leads m σ no mid → (∀ a σ', mid a σ' → leads (k a) σ' no ok) → leads (bind_ok m k) σ no ok.
Proof.
  intros Hm Hk cs. destruct (Hm cs) as (r & [σ' cs'] & E & Hr). unfold bind_ok. rewrite (bind_silent _ _ _ _ _ E).
  destruct r as [a|e]; [by apply Hk|by do 2 eexists].
Qed.

Lemma leads_weaken {A} (m : M kernel (result A io_error)) σ (no no' : gmap nat flags → Prop) (ok ok' : A → gmap nat flags → Prop) :
  leads m σ no ok → (∀ σ', no σ' → no' σ') → (∀ a σ', ok a σ' → ok' a σ') → leads m σ no' ok'.
Proof. intros Hm Hn Ho cs. destruct (Hm cs) as ([a|e] & o & E & Hr); do 2 eexists; (split; [exact E|]); simpl; auto. Qed.

Lemma leads_syscall σ : leads syscall σ (.= σ) (λ _ σ', σ' = σ).
Proof. intros [|[e|] cs]; by do 2 eexists. Qed.

Lemma leads_open1 f σ : leads (open1 f) σ (.= σ) (λ fd σ', σ !! fd = None ∧ σ' = <[fd := f]> σ).
Proof.
  eapply leads_bind; [apply leads_syscall|]. intros _ ? -> cs. do 2 eexists. split; [done|]. simpl. split; [|done].
  apply not_elem_of_dom, is_fresh.
Qed.

Lemma leads_open2 f σ : leads (open2 f) σ (.= σ)
  (λ '(a, b) σ', a ≠ b ∧ σ !! a = None ∧ σ !! b = None ∧ σ' = <[b := f]> (<[a := f]> σ)).
Proof.
  eapply leads_bind; [apply leads_syscall|]. intros _ ? -> cs. do 2 eexists. split; [done|]. simpl.
  set (a := fresh (dom σ)). set (b := fresh (dom (<[a := f]> σ))).
  assert (<[a := f]> σ !! b = None) as Hb by apply not_elem_of_dom, is_fresh.
  assert (a ≠ b) as Hab by (intros Hab; rewrite <-Hab, lookup_insert_eq in Hb; done).
  split; [done|]. rewrite lookup_insert_ne in Hb by done. split; [apply not_elem_of_dom, is_fresh|done].
Qed.

Lemma leads_change g fd σ : leads (change g fd) σ (.= σ) (λ _ σ', σ' = alter g fd σ).
Proof. eapply leads_bind; [apply leads_syscall|]. intros _ ? -> cs. by do 2 eexists. Qed.

Definition delete_all (fds : list nat) σ : gmap nat flags := foldr delete σ fds.

Lemma close_all_deletes fds o : close_all fds o = Some (tt, mkKernel (foldl (λ σ fd, delete fd σ) o.(open) fds) o.(calls), []).
Proof.
  revert o. induction fds as [|fd fds IH]; intros [σ cs]; simpl; [done|]. unfold close. run_M. by rewrite IH.
Qed.

Lemma leads_owning {A} fds (m : M kernel (result A io_error)) σ no ok :
  leads m σ (λ σ', no (foldl (λ σ fd, delete fd σ) σ' fds)) ok → leads (owning fds m) σ no ok.
Proof.
  intros Hm cs. destruct (Hm cs) as (r & o & E & Hr). unfold owning. rewrite (bind_silent _ _ _ _ _ E).
  destruct r as [a|e]; [by do 2 eexists|]. rewrite (bind_silent _ _ _ _ _ (close_all_deletes _ _)). by do 2 eexists.
Qed.

Lemma leads_dropping {A} fds (m : M kernel (result A io_error)) σ no ok :
  leads m σ (λ σ', no (foldl (λ σ fd, delete fd σ) σ' fds)) (λ a σ', ok a (foldl (λ σ fd, delete fd σ) σ' fds)) →
  leads (dropping fds m) σ no ok.
Proof.
  intros Hm cs. destruct (Hm cs) as (r & o & E & Hr). unfold dropping. rewrite (bind_silent _ _ _ _ _ E).
  rewrite (bind_silent _ _ _ _ _ (close_all_deletes _ _)). do 2 eexists. split; [done|]. by destruct r.
Qed.
End rules.

(** Equations of tables, by their entries. *)
Ltac table :=
  repeat match goal with
  | |- foldl _ _ _ = _ => simpl; apply map_eq; intros ?
  | |- @eq (gmap nat flags) _ _ => apply map_eq; intros ?
  | |- context [delete _ _ !! _] => rewrite lookup_delete
  | |- context [alter _ _ _ !! _] => rewrite lookup_alter
  | |- context [insert _ _ _ !! _] => rewrite lookup_insert
  | H : context [insert _ _ _ !! _] |- _ => rewrite lookup_insert in H
  | H : context [alter _ _ _ !! _] |- _ => rewrite lookup_alter in H
  | |- context [decide ?P] => destruct (decide P); subst; simplify_eq/=
  | H : context [decide ?P] |- _ => destruct (decide P); subst; simplify_eq/=
  end; simplify_option_eq; try done; try congruence.

(** [makes m made]: however its calls fail, [m] ends with an error and the
    table as it was, or with new open descriptors, distinct, with the flags
    [made] says, which may depend on what the calls answered; closing them
    gives the table as it was. *)
Definition makes (m : M kernel (result (list nat) io_error)) (made : list (option io_error) → list flags) : Prop :=
  ∀ σ cs, ∃ r o, m (mkKernel σ cs) = Some (r, o, []) ∧
    match r with
    | Err _ => o.(open) = σ
    | Ok fds =>
        NoDup fds ∧ foldl (λ σ fd, delete fd σ) o.(open) fds = σ ∧ (∀ fd, fd ∈ fds → σ !! fd = None) ∧
        Forall2 (λ fd f, o.(open) !! fd = Some f) fds (made cs)
    end.

Definition results {A} (g : A → list nat) (m : M kernel (result A io_error)) : M kernel (result (list nat) io_error) :=
  try! a := m in ret (Ok (g a)).
Definition one (fd : nat) : list nat := [fd].
Definition two (fds : nat * nat) : list nat := [fds.1; fds.2].

Lemma makes_leads m fl :
  (∀ σ, leads m σ (.= σ) (λ fds σ', NoDup fds ∧ foldl (λ σ fd, delete fd σ) σ' fds = σ ∧
     (∀ fd, fd ∈ fds → σ !! fd = None) ∧ Forall2 (λ fd f, σ' !! fd = Some f) fds fl)) →
  makes m (λ _, fl).
Proof. intros Hm σ cs. apply Hm. Qed.

Lemma makes_one m f :
  (∀ σ, leads m σ (.= σ) (λ fd σ', σ !! fd = None ∧ σ' = <[fd := f]> σ)) →
  makes (results one m) (λ _, [f]).
Proof.
  intros Hm. apply makes_leads. intros σ. eapply leads_bind; [apply Hm|]. intros fd ? (Hn & ->). apply leads_ret.
  split; [apply NoDup_singleton|]. split; [table|]. split; [by intros fd' ->%list_elem_of_singleton|].
  repeat constructor. by rewrite lookup_insert_eq.
Qed.

(** The table after a pair was made. *)
Lemma pair_ok (σ σ' : gmap nat flags) a b f g :
  a ≠ b → σ !! a = None → σ !! b = None →
  σ' !! a = Some f → σ' !! b = Some g → foldl (λ σ fd, delete fd σ) σ' [a; b] = σ →
  NoDup [a; b] ∧ foldl (λ σ fd, delete fd σ) σ' [a; b] = σ ∧
  (∀ fd, fd ∈ [a; b] → σ !! fd = None) ∧ Forall2 (λ fd h, σ' !! fd = Some h) [a; b] [f; g].
Proof.
  intros Hab Ha Hb Ha' Hb' Hd. split_and!; [|done| |by repeat constructor].
  - by apply NoDup_cons; split; [intros ?%list_elem_of_singleton|apply NoDup_singleton].
  - by intros fd [-> | ->%list_elem_of_singleton]%elem_of_cons.
Qed.

Lemma makes_two m f g :
  (∀ σ, leads m σ (.= σ) (λ '(a, b) σ', a ≠ b ∧ σ !! a = None ∧ σ !! b = None ∧ σ' = <[b := g]> (<[a := f]> σ))) →
  makes (results two m) (λ _, [f; g]).
Proof.
  intros Hm. apply makes_leads. intros σ. eapply leads_bind; [apply Hm|].
  intros [a b] ? (Hab & Ha & Hb & ->). apply leads_ret. apply pair_ok; try done; table.
Qed.

(** One call, its error leaving the table in a state the caller allows. *)
Lemma leads_call {A B} (m : M kernel (result A io_error)) (k : A → M kernel (result B io_error)) (σ : gmap nat flags) (no : gmap nat flags → Prop) mid ok :
  leads m σ (.= σ) mid → no σ → (∀ a σ', mid a σ' → leads (k a) σ' no ok) → leads (bind_ok m k) σ no ok.
Proof.
  intros Hm Hn Hk. eapply leads_bind; [|done]. eapply leads_weaken; [done|by intros ? ->|done].
Qed.

Lemma leads_assoc {A B C} (m : M kernel (result A io_error)) (k : A → M kernel (result B io_error)) (k' : B → M kernel (result C io_error)) (σ : gmap nat flags) no ok :
  leads (bind_ok m (λ a, bind_ok (k a) k')) σ no ok → leads (bind_ok (bind_ok m k) k') σ no ok.
Proof.
  intros H cs. destruct (H cs) as (r & o & E & Hr). exists r, o. split; [|done]. rewrite <-E.
  unfold bind_ok, bind, ret. destruct (m (mkKernel σ cs)) as [[[[a|e] o1] w1]|]; [|simpl; by rewrite ?app_nil_r|done].
  simpl. destruct (k a o1) as [[[[b|e] o2] w2]|]; [| |done].
  - destruct (k' b o2) as [[[c o3] w3]|]; [|done]. by rewrite app_assoc.
  - simpl. by rewrite !app_nil_r.
Qed.

(** An error is handed on after some descriptors have been closed by hand. *)
Lemma leads_match {A B} fds (m : M kernel (result A io_error)) (h : io_error → M kernel (result B io_error)) (k : A → M kernel (result B io_error)) (σ : gmap nat flags) (no : gmap nat flags → Prop) mid ok :
  (∀ e o, h e o = Some (Err e, mkKernel (foldl (λ σ fd, delete fd σ) o.(open) fds) o.(calls), [])) →
  leads m σ (.= σ) mid → no (foldl (λ σ fd, delete fd σ) σ fds) → (∀ a σ', mid a σ' → leads (k a) σ' no ok) →
  leads (bind m (λ r, match r with Ok a => k a | Err e => h e end)) σ no ok.
Proof.
  intros Hh Hm Hn Hk cs. destruct (Hm cs) as (r & [σ' cs'] & E & Hr). rewrite (bind_silent _ _ _ _ _ E).
  destruct r as [a|e]; [by apply Hk|]. simpl in Hr. subst. rewrite Hh. by do 2 eexists.
Qed.

Create HintDb kernel.
#[export] Hint Resolve leads_syscall leads_open1 leads_open2 leads_change : kernel.

(** The next call; what it did to the table. *)
Ltac call :=
  match goal with
  | |- leads (owning _ _) _ _ _ => apply leads_owning
  | |- leads (dropping _ _) _ _ _ => apply leads_dropping
  | |- leads (ret (Ok _)) _ _ _ => apply leads_ret
  | |- leads (bind_ok (bind_ok _ _) _) _ _ _ => apply leads_assoc
  | |- leads (bind_ok _ _) _ _ _ =>
      eapply leads_call; [by eauto with kernel|try by table|];
      let a := fresh "a" in let Ha := fresh in
      intros a ? Ha; match type of a with nat => idtac | _ => destruct a end; cbv beta iota in Ha; destruct_and?; subst
  end.
Ltac calls := repeat call.

Lemma new_socket_leads t σ :
  leads (new_socket t) σ (.= σ) (λ fd σ', σ !! fd = None ∧ σ' = <[fd := mkFlags true true]> σ).
Proof.
  unfold new_socket. destruct (has_sock_flags t); [by eauto with kernel|].
  unfold both, set_nonblocking, set_cloexec. calls. split; [done|]. table.
Qed.

Lemma windows_new_tcp_socket_leads σ :
  leads windows_new_tcp_socket σ (.= σ) (λ fd σ', σ !! fd = None ∧ σ' = <[fd := mkFlags true false]> σ).
Proof. unfold windows_new_tcp_socket, set_nonblocking. calls. split; [done|]. table. Qed.

Lemma afd_new_leads σ :
  leads afd_new σ (.= σ) (λ fd σ', σ !! fd = None ∧ σ' = <[fd := mkFlags false false]> σ).
Proof. unfold afd_new. calls. by split. Qed.
#[export] Hint Resolve new_socket_leads windows_new_tcp_socket_leads afd_new_leads : kernel.

Lemma new_blocking_tcp_socket_leads σ :
  leads new_blocking_tcp_socket σ (.= σ) (λ fd σ', σ !! fd = None ∧ σ' = <[fd := mkFlags false false]> σ).
Proof. unfold new_blocking_tcp_socket. unfold set_nonblocking. calls. split; [done|]. table. Qed.

Lemma windows_accept_leads listener σ :
  leads (windows_accept listener) σ (.= σ) (λ fd σ', σ !! fd = None ∧
    σ' = <[fd := default (mkFlags false false) (σ !! listener)]> σ).
Proof.
  unfold windows_accept. intros cs. rewrite (bind_silent _ _ _ _ _ (eq_refl : get _ = _)). revert cs.
  change (leads (try! sock := open1 (default (mkFlags false false) (σ !! listener)) in owning [sock] (try! _ := syscall in ret (Ok sock)))
    σ (.= σ) (λ fd σ', σ !! fd = None ∧ σ' = <[fd := default (mkFlags false false) (σ !! listener)]> σ)).
  calls. by split.
Qed.

Lemma new_pipe_leads t σ :
  leads (new_pipe t) σ (.= σ) (λ '(a, b) σ', a ≠ b ∧ σ !! a = None ∧ σ !! b = None ∧
    σ' = <[b := mkFlags true true]> (<[a := mkFlags true true]> σ)).
Proof.
  unfold new_pipe. destruct (has_pipe2 t); [by eauto with kernel|].
  unfold pipe_set_nonblocking, set_nonblocking, set_cloexec. calls. split_and!; try done. table.
Qed.
#[export] Hint Resolve new_blocking_tcp_socket_leads windows_accept_leads new_pipe_leads : kernel.

(** ** Every constructor *)

Inductive ctor :=
| CTcp (t : Target) | CUnix (t : Target) | CDatagram (t : Target) | CSocketPair (t : Target)
| CPipe (t : Target) | CSignalPipe (t : Target)
| CEpoll | CKqueue | CUring | CUringDriver | CAfdReactor
| CWinTcp | CWinUdp | CWinListener | CWinPair.

Definition construct (c : ctor) : M kernel (result (list nat) io_error) :=
  match c with
  | CTcp t => results one (new_tcp_socket t)
  | CUnix t => results one (new_unix_socket t)
  | CDatagram t => results one (new_unix_datagram_socket t)
  | CSocketPair t => results two (unix_socketpair t)
  | CPipe t => results two (pipe t)
  | CSignalPipe t => results two (make_pipe t)
  | CEpoll => results two epoll_new
  | CKqueue => results one kqueue_new
  | CUring => results two uring_new
  | CUringDriver => results two uring_driver_new
  | CAfdReactor => results two windows_reactor_new
  | CWinTcp => results one windows_new_tcp_socket
  | CWinUdp => results one windows_new_udp_socket
  | CWinListener => results one windows_listener_bind
  | CWinPair => results two windows_socket_pair
  end.

(** Whether the [n]th call fails. *)
Definition fails (n : nat) (cs : list (option io_error)) : bool :=
  match cs !! n with Some (Some _) => true | _ => false end.

(** The flags its descriptors have, in order; on macOS those of the signal pipe
    depend on its fourth and fifth calls, the two [F_SETFD]. *)
Definition made (c : ctor) (cs : list (option io_error)) : list flags :=
  match c with
  | CTcp _ | CUnix _ | CDatagram _ => [mkFlags true true]
  | CSocketPair _ | CPipe _ => [mkFlags true true; mkFlags true true]
  | CSignalPipe t =>
      if has_pipe2 t then [mkFlags true true; mkFlags true true]
      else [mkFlags true (negb (fails 3 cs)); mkFlags true (negb (fails 4 cs))]
  | CEpoll | CUring | CUringDriver => [mkFlags false true; mkFlags true true]
  | CKqueue => [mkFlags false false]
  | CAfdReactor | CWinPair => [mkFlags false false; mkFlags false false]
  | CWinTcp | CWinUdp | CWinListener => [mkFlags true false]
  end.

(** What is read and written by the crate's futures. *)
Definition transfers (c : ctor) : bool :=
  match c with
  | CTcp _ | CUnix _ | CDatagram _ | CSocketPair _ | CPipe _ | CSignalPipe _ | CWinTcp | CWinUdp | CWinListener => true
  | _ => false
  end.
Definition posix (c : ctor) : bool :=
  match c with CAfdReactor | CWinTcp | CWinUdp | CWinListener | CWinPair => false | _ => true end.
(** The descriptors that another program may inherit: [kqueue] asks for no
    flag, and a failed [F_SETFD] of the signal pipe is overlooked. *)
Definition inheritable (c : ctor) (cs : list (option io_error)) : bool :=
  match c with
  | CKqueue => true
  | CSignalPipe t => negb (has_pipe2 t) && (fails 3 cs || fails 4 cs)
  | _ => false
  end.

(** What dropping it closes. *)
Definition destroy (c : ctor) (fds : list nat) : M kernel unit :=
  match c, fds with
  | CEpoll, [a; b] => epoll_drop (a, b)
  | CUring, [a; b] => uring_drop (a, b)
  | CUringDriver, [a; b] => uring_driver_drop (a, b)
  | CAfdReactor, [a; b] => windows_reactor_drop (a, b)
  | CKqueue, [a] => kqueue_drop a
  | _, _ => close_all fds
  end.

(** A call that changes flags, by the script. *)
Lemma change_answers g fd σ cs :
  change g fd (mkKernel σ cs) =
    Some (match cs with Some e :: _ => Err e | _ => Ok tt end,
          mkKernel (if fails 0 cs then σ else alter g fd σ) (tail cs), []).
Proof. by destruct cs as [|[e|] cs]. Qed.

Lemma make_pipe_makes t : makes (results two (make_pipe t)) (made (CSignalPipe t)).
Proof.
  unfold make_pipe, made. destruct (has_pipe2 t) eqn:Et.
  { apply makes_two. intros σ. by eauto with kernel. }
  intros σ cs. unfold results, bind_ok, owning.
  destruct (leads_open2 (mkFlags false false) σ cs) as (r & [σ' cs'] & E & Hr).
  assert (cs' = tail cs) as ->.
  { unfold open2, bind_ok, syscall, allocate in E. destruct cs as [|[e|] cs]; run_M; by simplify_eq/=. }
  run_M. rewrite E. destruct r as [[a b]|e]; simpl in Hr; [|by do 2 eexists]. destruct Hr as (Hab & Ha & Hb & ->).
  unfold set_nonblocking, set_cloexec.
  destruct cs as [|c0 [|[e1|] [|[e2|] [|[e3|] [|[e4|] cs]]]]]; simpl;
    repeat (rewrite ?change_answers, ?close_all_deletes; simpl); do 2 eexists; (split; [done|]); simpl; try by table.
  all: apply pair_ok; try done; table.
Qed.

Lemma pipe_leads t σ :
  leads (pipe t) σ (.= σ) (λ '(a, b) σ', a ≠ b ∧ σ !! a = None ∧ σ !! b = None ∧
    σ' = <[b := mkFlags true true]> (<[a := mkFlags true true]> σ)).
Proof. unfold pipe. calls. split_and!; try done. table. Qed.

Lemma unix_socketpair_leads t σ :
  leads (unix_socketpair t) σ (.= σ) (λ '(a, b) σ', a ≠ b ∧ σ !! a = None ∧ σ !! b = None ∧
    σ' = <[b := mkFlags true true]> (<[a := mkFlags true true]> σ)).
Proof.
  unfold unix_socketpair, both, set_nonblocking, set_cloexec. destruct (has_sock_flags t); calls;
    split_and!; try done; table.
Qed.

Lemma epoll_new_leads σ :
  leads epoll_new σ (.= σ) (λ '(a, b) σ', a ≠ b ∧ σ !! a = None ∧ σ !! b = None ∧
    σ' = <[b := mkFlags true true]> (<[a := mkFlags false true]> σ)).
Proof.
  unfold epoll_new. call. eapply (leads_match [a]); [done|by eauto with kernel|by table|]. intros b ? [Hb ->].
  apply lookup_insert_None in Hb as [Hb Hab].
  eapply (leads_match [b; a]); [done|by eauto with kernel|by table|]. intros _ ? ->.
  apply leads_ret. split_and!; try done.
Qed.

Lemma kqueue_new_leads σ :
  leads kqueue_new σ (.= σ) (λ a σ', σ !! a = None ∧ σ' = <[a := mkFlags false false]> σ).
Proof.
  unfold kqueue_new. call. eapply (leads_match [a]); [done|by eauto with kernel|by table|]. intros _ ? ->.
  by apply leads_ret.
Qed.

Lemma uring_new_leads σ :
  leads uring_new σ (.= σ) (λ '(a, b) σ', a ≠ b ∧ σ !! a = None ∧ σ !! b = None ∧
    σ' = <[b := mkFlags true true]> (<[a := mkFlags false true]> σ)).
Proof.
  unfold uring_new. calls. match goal with H : _ !! _ = None |- _ => apply lookup_insert_None in H as [??] end.
  split_and!; try done.
Qed.

Lemma windows_reactor_new_leads σ :
  leads windows_reactor_new σ (.= σ) (λ '(a, b) σ', a ≠ b ∧ σ !! a = None ∧ σ !! b = None ∧
    σ' = <[b := mkFlags false false]> (<[a := mkFlags false false]> σ)).
Proof.
  unfold windows_reactor_new. call. eapply (leads_match [a]); [done|by eauto with kernel|by table|]. intros b ? [Hb ->].
  apply lookup_insert_None in Hb as [Hb Hab]. apply leads_ret. split_and!; try done.
Qed.

Lemma windows_socket_pair_leads σ :
  leads windows_socket_pair σ (.= σ) (λ '(a, b) σ', a ≠ b ∧ σ !! a = None ∧ σ !! b = None ∧
    σ' = <[b := mkFlags false false]> (<[a := mkFlags false false]> σ)).
Proof.
  unfold windows_socket_pair. calls.
  repeat match goal with H : insert _ _ _ !! _ = None |- _ => apply lookup_insert_None in H as [??] end.
  split_and!; try done.
  rewrite lookup_insert_ne, lookup_insert_eq by done. simpl. table.
Qed.

Lemma construct_makes c : makes (construct c) (made c).
Proof.
  destruct c; [| | | | |apply make_pipe_makes|..]; first [apply makes_one|apply makes_two]; intros σ;
    eauto using new_socket_leads, unix_socketpair_leads, pipe_leads, epoll_new_leads, kqueue_new_leads,
      uring_new_leads, windows_reactor_new_leads, windows_new_tcp_socket_leads, windows_socket_pair_leads.
  - unfold windows_new_udp_socket, set_nonblocking. calls. split; [done|]. table.
  - unfold windows_listener_bind. calls. by split.
Qed.

(** The flags of each descriptor, uniformly. *)
Lemma made_flags c cs f :
  f ∈ made c cs →
  (posix c = true → f.(cloexec) = false → inheritable c cs = true) ∧ (transfers c = true → f.(nonblocking) = true).
Proof.
  destruct c; simpl; try destruct (has_pipe2 t); simpl;
    rewrite ?elem_of_cons, ?elem_of_nil; intros Hf; destruct_or?; subst; try done; simpl; split; try done;
    destruct (fails 3 cs), (fails 4 cs); done.
Qed.

Lemma destroy_closes c fds o : destroy c fds o = close_all (match c, fds with CEpoll, [a; b] => [b; a] | _, _ => fds end) o.
Proof.
  destruct c, fds as [|a [|b [|? ?]]]; try done; simpl;
    unfold epoll_drop, kqueue_drop, uring_driver_drop, uring_drop, windows_reactor_drop, close; run_M; done.
Qed.

(** C37: no constructor leaks or breaks a descriptor: whichever of its system
    calls fails, an error leaves the table of open descriptors as it was; a
    success adds open descriptors, distinct, none of them open before, with
    exactly the flags [made] lists, and destroying what was made leaves the
    table as it was.  Those that the crate reads and writes are non-blocking.
    On POSIX all are closed on [exec], with two exceptions: the descriptor of
    [kqueue], made without flags, and the ends of the signal pipe of macOS,
    when a call to [F_SETFD] failed, which [make_pipe] overlooks. *)
Theorem descriptors_exact c o :
  ∃ r o', construct c o = Some (r, o', []) ∧
    match r with
    | Err _ => o'.(open) = o.(open)
    | Ok fds =>
        NoDup fds ∧ (∀ fd, fd ∈ fds → o.(open) !! fd = None) ∧
        Forall2 (λ fd f, o'.(open) !! fd = Some f) fds (made c o.(calls)) ∧
        (∀ fd f, fd ∈ fds → o'.(open) !! fd = Some f →
           (transfers c = true → f.(nonblocking) = true) ∧
           (posix c = true → f.(cloexec) = false → inheritable c o.(calls) = true)) ∧
        ∃ o'', destroy c fds o' = Some (tt, o'', []) ∧ o''.(open) = o.(open)
    end.
Proof.
  destruct o as [σ cs]. destruct (construct_makes c σ cs) as (r & o' & E & Hr). exists r, o'. split; [exact E|].
  destruct r as [fds|e]; [|exact Hr]. destruct Hr as (Hd & Hc & Hn & Hf). split_and!; [done..| |].
  - intros fd f [i Hi]%list_elem_of_lookup Hl.
    destruct (Forall2_lookup_l _ _ _ _ _ Hf Hi) as (h & Hi' & Hl'). rewrite Hl in Hl'. injection Hl' as ->.
    apply list_elem_of_lookup_2 in Hi'. by destruct (made_flags c cs h Hi').
  - rewrite destroy_closes, close_all_deletes. eexists. split; [done|]. simpl in *. rewrite <-Hc.
    destruct c, fds as [|a [|b [|? ?]]]; try done. simpl. apply delete_delete.
Qed.

(** ** Concrete runs *)

(** [epoll_ctl] fails: both descriptors are closed. *)
Example epoll_third_call_fails :
  construct CEpoll (mkKernel {[ 0%nat := mkFlags false false ]} [None; None; Some (OsError 12)]) =
  Some (Err (OsError 12), mkKernel {[ 0%nat := mkFlags false false ]} [], []).
Proof. vm_compute. reflexivity. Qed.

(** The signal pipe of macOS, its [F_SETFD] calls failing: a success, with a
    pipe that every program this process starts inherits. *)
Example signal_pipe_inherited :
  ∃ o', construct (CSignalPipe Macos) (mkKernel ∅ [None; None; None; Some (OsError 9); Some (OsError 9)]) =
    Some (Ok [0; 1]%nat, o', []) ∧ o'.(open) !! 0%nat = Some (mkFlags true false).
Proof. eexists. split; [vm_compute; reflexivity|done]. Qed.
