(* ===== verification/Bytes.v ===== *)
(** The rest of [AsyncReadExt], [AsyncWriteExt], [AsyncSeekExt] and
    [AsyncBufReadExt] ([src/src/io/async_io.rs]): reading to the end, into a
    [String], moving bytes between a stream and a buffer of the crate [bytes],
    [fill_buf] and the seeks.

    [Buf] and [BufMut] are traits of the crate [bytes]: classes, with the
    promises its documentation makes. *)

From S2P Require Import Prelude AsyncIo Buffered Files.

(** ** Buffers of the crate [bytes] *)

Class BufMut (B : Type) := {
  remaining_mut : B → Z;
  put_slice : list byte → B → option B;     (* [None]: the panic when it does not fit *)
}.
Class LawfulBufMut (B : Type) `{BufMut B} := {
  written : B → list byte;
  remaining_mut_range b : 0 ≤ remaining_mut b;
  put_slice_law b l : blen l ≤ remaining_mut b → ∃ b', put_slice l b = Some b' ∧ written b' = written b ++ l;
}.

Class Buf (B : Type) := {
  has_remaining : B → bool;
  chunk : B → list byte;
  buf_advance : Z → B → option B;           (* [None]: the panic past the end *)
}.
Class LawfulBuf (B : Type) `{Buf B} := {
  unread : B → list byte;
  has_remaining_law b : has_remaining b = negb (bool_decide (unread b = []));
  chunk_law b : ∃ rest, unread b = chunk b ++ rest;
  chunk_some b : unread b ≠ [] → chunk b ≠ [];
  chunk_size b : blen (chunk b) < 2 ^ (usize_bits - 1);
  buf_advance_law b n : 0 ≤ n ≤ blen (unread b) → ∃ b', buf_advance n b = Some b' ∧ unread b' = from n (unread b);
}.

(** One poll of [read_buf]; it remembers the [want] bytes of its chunk it reads
    into, once it has begun. *)
Definition read_buf_want `{BufMut B} (b : B) : Z := Z.min 8192 (remaining_mut b).
Definition read_buf `{AsyncRead R} `{BufMut B} (cx : waker) (st : option (list byte)) (b : B)
    : M R (poll (result Z io_error) * (option (list byte) * B)) :=
  let go dst :=
    let! r := read cx dst in
    match r with
    | (Ready (Ok n), dst) => let! b' := lift (put_slice (upto n dst) b) in ret (Ready (Ok n), (Some dst, b'))
    | (Ready (Err e), dst) => ret (Ready (Err e), (Some dst, b))
    | (Pending, dst) => ret (Pending, (Some dst, b))
    end in
  match st with
  | Some dst => go dst
  | None =>
      if remaining_mut b <=? 0 then ret (Ready (Ok 0), (None, b))
      else go (repeat 0 (Z.to_nat (read_buf_want b)))
  end.

(** One poll of [write_buf]. *)
Definition write_buf `{AsyncWrite W} `{Buf B} (cx : waker) (b : B) : M W (poll (result Z io_error) * B) :=
  if has_remaining b then
    let! r := write cx (chunk b) in
    match r with
    | Ready (Ok n) => let! b' := lift (buf_advance n b) in ret (Ready (Ok n), b')
    | Ready (Err e) => ret (Ready (Err e), b)
    | Pending => ret (Pending, b)
    end
  else ret (Ready (Ok 0), b).

(** One poll of [write_all_buf]. *)
Fixpoint write_all_buf `{AsyncWrite W} `{Buf B} (fuel : nat) (cx : waker) (b : B)
    : M W (poll (result unit io_error) * B) :=
  if has_remaining b then
    match fuel with
    | O => panic
    | S fuel =>
        let! r := write_buf cx b in
        match r with
        | (Ready (Ok n), b) => if n =? 0 then ret (Ready (Err WriteZero), b) else write_all_buf fuel cx b
        | (Ready (Err e), b) => ret (Ready (Err e), b)
        | (Pending, b) => ret (Pending, b)
        end
    end
  else ret (Ready (Ok tt), b).

(** ** [read_to_string] *)

(** One poll; it remembers the state of its [read_to_end] on a vector of its own. *)
Definition read_to_string_start : list byte * list byte := (repeat 0 (Z.to_nat 8192), []).
Definition read_to_string `{AsyncRead R} (fuel : nat) (cx : waker) (st : (list byte * list byte) * list byte)
    : M R (poll (result Z io_error) * ((list byte * list byte) * list byte)) :=
  let! r := read_to_end fuel cx 0 st.1.1 st.1.2 in
  match r with
  | (Ready (Ok n), st') =>
      match from_utf8 st'.2 with
      | Some text => ret (Ready (Ok n), (st', st.2 ++ text))
      | None => ret (Ready (Err InvalidData), (st', st.2))
      end
  | (Ready (Err e), st') => ret (Ready (Err e), (st', st.2))
  | (Pending, st') => ret (Pending, (st', st.2))
  end.

(** ** [write_vectored], [fill_buf], seeking *)

Definition write_vectored `{AsyncWrite W} (cx : waker) (bufs : list (list byte)) : M W (poll (result Z io_error)) :=
  poll_write_vectored cx bufs.

(** [FillBuf]: [true] while it still has its reader; without it a poll panics. *)
Definition fill_buf_poll `{AsyncBufRead R} (cx : waker) (has_reader : bool)
    : M R (poll (result (list byte) io_error) * bool) :=
  if has_reader then
    let! r := poll_fill_buf cx in
    match r with
    | Ready (Ok slice) => ret (Ready (Ok slice), false)
    | Ready (Err e) => ret (Ready (Err e), false)
    | Pending => ret (Pending, true)
    end
  else panic.

Section seeks.
Context {S : Type} (poll_seek : waker → seek_from → M S (poll (result Z io_error))).
Definition seek (cx : waker) (pos : seek_from) : M S (poll (result Z io_error)) := poll_seek cx pos.
Definition stream_position (cx : waker) : M S (poll (result Z io_error)) := seek cx (SeekCurrent 0).
Definition rewind (cx : waker) : M S (poll (result unit io_error)) :=
  let! r := seek cx (SeekStart 0) in
  ret (match r with Ready (Ok _) => Ready (Ok tt) | Ready (Err e) => Ready (Err e) | Pending => Pending end).
End seeks.

(** ** Reading to the end *)

Section reading.
Context {R : Type} `{LawfulRead R}.
Implicit Types (r : R).

(** An error the reader itself gives. *)
Definition reader_error (e : io_error) : Prop :=
  ∃ cx b r b' r' ws, poll_read cx b r = Some ((Ready (Err e), b'), r', ws).

Lemma read_error cx dst r e dst' r' ws : read cx dst r = Some ((Ready (Err e), dst'), r', ws) → reader_error e.
Proof.
  unfold read. intros E. M_inv.
  match goal with E : poll_read _ _ _ = _ |- _ => by do 6 eexists end.
Qed.

(** One poll, whatever it has read before: [vec] gains what the stream loses. *)
Lemma read_to_end_spec fuel cx start_len chunk vec r :
  read_ok r → chunk ≠ [] → blen chunk < 2 ^ (usize_bits - 1) → (length (stream r) < fuel)%nat →
  ∃ p chunk' vec' r' ws, read_to_end fuel cx start_len chunk vec r = Some ((p, (chunk', vec')), r', ws) ∧
    read_ok r' ∧ length chunk' = length chunk ∧ vec' ++ stream r' = vec ++ stream r ∧
    (length (stream r') ≤ length (stream r))%nat ∧
    match p with
    | Ready (Ok n) => stream r' = [] ∧ n = blen vec' - start_len
    | Ready (Err e) => reader_error e
    | Pending => True
    end.
Proof.
  revert chunk vec r. induction fuel as [|fuel IH]; intros chunk vec r Hr Hc Hl Hf; [lia|]. simpl.
  destruct (async_read_spec cx chunk r Hr Hc Hl) as (p & chunk' & r' & ws & E & Hr' & Hlen & Hp).
  unfold bind. rewrite E. destruct p as [[n|e]|].
  - destruct Hp as (Hn & Hs & Hz). destruct (Z.eqb_spec n 0) as [->|Hnz].
    + do 5 eexists. split; [done|]. assert (stream r' = stream r) as Heq by (by rewrite Hs).
      rewrite Heq. split_and!; auto.
    + assert (length (upto n chunk') = Z.to_nat n) as Hu.
      { unfold blen in Hn. unfold upto. rewrite length_take. lia. }
      assert (length (stream r) = Z.to_nat n + length (stream r'))%nat as Hlr by (by rewrite Hs, length_app, Hu).
      destruct (IH chunk' (vec ++ upto n chunk') r' Hr') as (p & c2 & v2 & r2 & ws2 & E2 & ? & ? & Hv & ? & ?).
      { intros ->. by destruct chunk. }
      { unfold blen in *. by rewrite Hlen. }
      { lia. }
      rewrite E2. do 5 eexists. split; [done|]. split_and!; try done; [congruence| |lia].
      rewrite Hv, Hs. by rewrite app_assoc.
  - apply read_error in E. do 5 eexists. split; [done|]. split_and!; try done; by rewrite Hp.
  - do 5 eexists. split; [done|]. split_and!; try done; by rewrite Hp.
Qed.

(** Whatever the polls of a [read_to_string] find ready, it loses nothing
    of what it has taken from the stream while it waits, and touches the
    [String] only to append the whole of a stream that is valid UTF-8; the
    count is that of the bytes; a stream that is not valid is consumed with
    the error, and the [String] unchanged. *)
Theorem read_to_string_exact fuel polls text r :
  read_ok r → (length (stream r) < fuel)%nat →
  ∃ p chunk vec text' r' ws,
    run_polls (λ cx st, read_to_string fuel cx st) polls (read_to_string_start, text) r =
      Some ((p, ((chunk, vec), text')), r', ws) ∧ read_ok r' ∧ vec ++ stream r' = stream r ∧
    match p with
    | Ready (Ok n) => stream r' = [] ∧ utf8_valid (stream r) = true ∧ text' = text ++ stream r ∧ n = blen (stream r)
    | Ready (Err e) => text' = text ∧ (stream r' = [] ∧ utf8_valid (stream r) = false ∧ e = InvalidData ∨ reader_error e)
    | Pending => text' = text
    end.
Proof.
  intros Hr Hf.
  destruct (run_polls_inv (λ cx st, read_to_string fuel cx st)
    (λ st r1, read_ok r1 ∧ st.1.1 ≠ [] ∧ blen st.1.1 < 2 ^ (usize_bits - 1) ∧ (length (stream r1) < fuel)%nat ∧
      st.1.2 ++ stream r1 = stream r ∧ st.2 = text)
    (λ a st r1, read_ok r1 ∧ st.1.2 ++ stream r1 = stream r ∧
      match a with
      | Ok n => stream r1 = [] ∧ utf8_valid (stream r) = true ∧ st.2 = text ++ stream r ∧ n = blen (stream r)
      | Err e => st.2 = text ∧ (stream r1 = [] ∧ utf8_valid (stream r) = false ∧ e = InvalidData ∨ reader_error e)
      end)) with (polls := polls) (st := (read_to_string_start, text)) (s := r)
    as (p & [[c v] t] & r' & ws & E & Hp).
  - intros cx [[c v] t] r1 (Hr1 & Hc & Hl & Hf1 & Hv & Ht). simpl in *. subst t.
    destruct (read_to_end_spec fuel cx 0 c v r1 Hr1 Hc Hl Hf1) as (p & c' & v' & r' & ws & E & Hr' & Hlen & Hv' & Hle & Hp).
    unfold read_to_string. simpl. unfold bind. rewrite E. rewrite Hv in Hv'. destruct p as [[n|e]|].
    + destruct Hp as [Hs ->]. rewrite Hs, app_nil_r in Hv'. simpl. unfold from_utf8.
      destruct (utf8_valid v') eqn:Eu; unfold ret; do 4 eexists; (split; [done|]); simpl; rewrite Hs, app_nil_r, <-Hv'.
      * split_and!; try done. lia.
      * split_and!; try done. by left.
    + unfold ret. do 4 eexists. split; [done|]. simpl. split_and!; try done. by right.
    + unfold ret. do 4 eexists. split; [done|]. simpl. split_and!; try done; [|unfold blen in *; by rewrite Hlen|lia].
      intros ->. by destruct c.
  - unfold read_to_string_start. cbn [fst snd]. split_and!; try done.
  - exists p, c, v, t, r', ws. split; [exact E|]. destruct p as [[n|e]|]; naive_solver.
Qed.
End reading.

(** ** Bytes between a stream and a buffer *)

Section read_buf.
Context {R B : Type} `{LawfulRead R} `{LawfulBufMut B}.

(** What a [read_buf] that has not resolved remembers. *)
Definition buf_pending (b : B) (st : option (list byte)) : Prop :=
  match st with None => True | Some dst => blen dst = read_buf_want b ∧ dst ≠ [] end.

Lemma read_into_buf cx dst (b : B) (r : R) :
  read_ok r → dst ≠ [] → blen dst = read_buf_want b →
  ∃ p st b' r' ws,
    bind (read cx dst) (λ x,
      match x with
      | (Ready (Ok n), dst) => let! b' := lift (put_slice (upto n dst) b) in ret (Ready (Ok n), (Some dst, b'))
      | (Ready (Err e), dst) => ret (Ready (Err e), (Some dst, b))
      | (Pending, dst) => ret (Pending, (Some dst, b))
      end) r = Some ((p, (st, b')), r', ws) ∧ read_ok r' ∧
    match p with
    | Ready (Ok n) => ∃ data, stream r = data ++ stream r' ∧ written b' = written b ++ data ∧ n = blen data ∧
        blen data ≤ remaining_mut b ∧ (data = [] → stream r = [])
    | _ => b' = b ∧ stream r' = stream r ∧ buf_pending b st
    end.
Proof.
  intros Hr Hd Hw. assert (blen dst < 2 ^ (usize_bits - 1)) as Hl.
  { assert (8192 < 2 ^ (usize_bits - 1)) by done. unfold read_buf_want in Hw. lia. }
  destruct (async_read_spec cx dst r Hr Hd Hl) as (p & dst' & r' & ws & E & Hr' & Hlen & Hp).
  assert (blen dst' = blen dst) as Hbl by (unfold blen; by rewrite Hlen).
  unfold bind at 1. rewrite E. destruct p as [[n|e]|].
  - destruct Hp as (Hn & Hs & Hz). destruct (put_slice_law b (upto n dst')) as (b' & Ep & Hb').
    { rewrite blen_upto by lia. unfold read_buf_want in Hw. lia. }
    rewrite Ep. run_M. do 5 eexists. split; [done|]. split; [done|]. exists (upto n dst').
    rewrite blen_upto by lia. split_and!; try done; [unfold read_buf_want in Hw; lia|].
    intros Hu. apply Hz. rewrite <-(blen_upto n dst') by lia. by rewrite Hu.
  - run_M. do 5 eexists. split; [done|]. split_and!; try done. split; [by rewrite Hbl|]. intros ->. by destruct dst.
  - run_M. do 5 eexists. split; [done|]. split_and!; try done. split; [by rewrite Hbl|]. intros ->. by destruct dst.
Qed.

(** [read_buf] moves bytes from the stream to the buffer and loses none:
    while it waits, or fails, both are as they were -- so that it may be
    dropped at any time -- and when it resolves the buffer has gained, in
    order, the [n] bytes the stream has lost, no more than there was room for,
    none only when the buffer was full or the stream at its end. *)
Theorem read_buf_exact polls (b : B) (r : R) :
  read_ok r →
  ∃ p st b' r' ws,
    run_polls (λ cx st, read_buf cx st.1 st.2) polls (None, b) r = Some ((p, (st, b')), r', ws) ∧ read_ok r' ∧
    match p with
    | Ready (Ok n) => ∃ data, stream r = data ++ stream r' ∧ written b' = written b ++ data ∧ n = blen data ∧
        blen data ≤ remaining_mut b ∧ (data = [] → remaining_mut b = 0 ∨ stream r = [])
    | _ => b' = b ∧ stream r' = stream r
    end.
Proof.
  intros Hr.
  destruct (run_polls_inv (λ cx st, read_buf cx st.1 st.2)
    (λ st r1, read_ok r1 ∧ stream r1 = stream r ∧ st.2 = b ∧ buf_pending b st.1)
    (λ a st r1, read_ok r1 ∧
      match a with
      | Ok n => ∃ data, stream r = data ++ stream r1 ∧ written st.2 = written b ++ data ∧ n = blen data ∧
          blen data ≤ remaining_mut b ∧ (data = [] → remaining_mut b = 0 ∨ stream r = [])
      | Err _ => st.2 = b ∧ stream r1 = stream r
      end)) with (polls := polls) (st := (@None (list byte), b)) (s := r)
    as (p & [st b'] & r' & ws & E & Hp); [|done|].
  - intros cx [st b1] r1 (Hr1 & Hs & Hb & Hst). simpl in *. subst b1.
    assert (∀ dst, dst ≠ [] → blen dst = read_buf_want b → st = Some dst ∨ st = None ∧ (remaining_mut b <=? 0) = false ∧ dst = repeat 0 (Z.to_nat (read_buf_want b)) →
      ∃ p st' s' ws, read_buf cx st b r1 = Some ((p, st'), s', ws) ∧
        match p with
        | Ready a => read_ok s' ∧ match a with
          | Ok n => ∃ data, stream r = data ++ stream s' ∧ written st'.2 = written b ++ data ∧ n = blen data ∧
              blen data ≤ remaining_mut b ∧ (data = [] → remaining_mut b = 0 ∨ stream r = [])
          | Err _ => st'.2 = b ∧ stream s' = stream r
          end
        | Pending => read_ok s' ∧ stream s' = stream r ∧ st'.2 = b ∧ buf_pending b st'.1
        end) as Hgo.
    { intros dst Hd Hw Hc. destruct (read_into_buf cx dst b r1 Hr1 Hd Hw) as (p & st' & b' & r' & ws & E & Hr' & Hp).
      exists p, (st', b'), r', ws. split.
      { unfold read_buf. destruct Hc as [->|(-> & -> & ->)]; exact E. }
      destruct p as [[n|e]|]; simpl.
      - destruct Hp as (data & ? & ? & ? & ? & Hz). split; [done|]. exists data. rewrite <-Hs. split_and!; try done. intros Hd0. right. by apply Hz.
      - destruct Hp as (? & ? & ?). naive_solver congruence.
      - destruct Hp as (? & ? & ?). naive_solver congruence. }
    destruct st as [dst|]; [destruct Hst as [Hw Hd]; apply (Hgo dst); by auto|].
    pose proof (remaining_mut_range b) as Hrm. destruct (Z.leb_spec (remaining_mut b) 0) as [Hz|Hz].
    + unfold read_buf. destruct (Z.leb_spec (remaining_mut b) 0); [|lia]. unfold ret. do 4 eexists. split; [done|].
      simpl. split; [done|]. exists []. rewrite app_nil_r. split_and!; try done. intros _. left. lia.
    + apply (Hgo (repeat 0 (Z.to_nat (read_buf_want b)))); [| |right; split_and!; [done| |done]].
      * unfold read_buf_want. destruct (Z.to_nat (8192 `min` remaining_mut b)) eqn:Ez; [lia|done].
      * unfold blen. rewrite repeat_length. unfold read_buf_want. lia.
      * destruct (Z.leb_spec (remaining_mut b) 0); [lia|done].
  - exists p, st, b', r', ws. split; [exact E|]. destruct p as [[n|e]|]; naive_solver.
Qed.
End read_buf.

Section write_buf.
Context {W B : Type} `{LawfulWrite W} `{LawfulBuf B}.

Lemma unread_some (b : B) : has_remaining b = true → unread b ≠ [] ∧ chunk b ≠ [].
Proof.
  rewrite has_remaining_law. intros Hb. apply negb_true_iff, bool_decide_eq_false in Hb.
  split; [done|by apply chunk_some].
Qed.

Lemma write_buf_spec cx (b : B) (w : W) :
  write_ok w → has_remaining b = true →
  ∃ p b' w' ws, write_buf cx b w = Some ((p, b'), w', ws) ∧ write_ok w' ∧
    sink w' ++ unread b' = sink w ++ unread b ∧
    match p with
    | Ready (Ok n) => 0 ≤ n ∧ blen (unread b') = blen (unread b) - n
    | _ => b' = b
    end.
Proof.
  intros Hw Hb. destruct (unread_some b Hb) as [_ Hc]. unfold write_buf. rewrite Hb.
  destruct (write_law cx (chunk b) w Hw Hc (chunk_size b)) as (p & w' & ws & E & Hw' & Hp).
  unfold write. unfold bind at 1. rewrite E. destruct p as [[n|e]|].
  - destruct Hp as [Hn Hs]. destruct (chunk_law b) as [rest Hrest].
    assert (blen (chunk b) ≤ blen (unread b)) as Hle by (rewrite Hrest, blen_app; pose proof (blen_nonneg rest); lia).
    destruct (buf_advance_law b n) as (b' & Ea & Hb'); [lia|].
    rewrite Ea. run_M. do 4 eexists. split; [done|]. split_and!; try done; [|lia|].
    + rewrite Hs, Hb', Hrest, <-app_assoc. f_equal. unfold upto, from.
      rewrite drop_app_le by (unfold blen in Hn; lia). by rewrite app_assoc, take_drop.
    + rewrite Hb', blen_from by lia. done.
  - run_M. do 4 eexists. split; [done|]. split_and!; try done. by rewrite Hp.
  - run_M. do 4 eexists. split; [done|]. split_and!; try done. by rewrite Hp.
Qed.

(** One poll of [write_all_buf] ends, and however it ends -- and so
    whenever its future is dropped -- the bytes the writer has accepted and
    those left in the buffer are together the ones there were: none is lost,
    repeated or reordered; it succeeds with the buffer empty. *)
Theorem write_all_buf_conserves cx (b : B) (w : W) fuel :
  write_ok w → (length (unread b) ≤ fuel)%nat →
  ∃ p b' w' ws, write_all_buf fuel cx b w = Some ((p, b'), w', ws) ∧ write_ok w' ∧
    sink w' ++ unread b' = sink w ++ unread b ∧ (p = Ready (Ok tt) → unread b' = []).
Proof.
  revert b w. induction fuel as [|fuel IH]; intros b w Hw Hf; simpl; destruct (has_remaining b) eqn:Hb.
  - destruct (unread_some b Hb) as [Hn _]. destruct (unread b); [done|simpl in Hf; lia].
  - do 4 eexists. split; [done|]. split_and!; try done. intros _. rewrite has_remaining_law in Hb.
    by apply negb_false_iff, bool_decide_eq_true in Hb.
  - destruct (write_buf_spec cx b w Hw Hb) as (p & b1 & w1 & ws1 & E1 & Hw1 & Hs1 & Hp).
    unfold bind. rewrite E1. destruct p as [[n|e]|].
    + destruct Hp as [Hn Hl]. destruct (Z.eqb_spec n 0) as [->|Hnz].
      { unfold ret. do 4 eexists. split; [done|]. by split_and!. }
      destruct (IH b1 w1 Hw1) as (p & b2 & w2 & ws2 & E2 & ? & Hs2 & ?); [unfold blen in Hl; lia|].
      rewrite E2. do 4 eexists. split; [done|]. split_and!; try done. by rewrite Hs2.
    + subst b1. unfold ret. do 4 eexists. split; [done|]. by split_and!.
    + subst b1. unfold ret. do 4 eexists. split; [done|]. by split_and!.
  - do 4 eexists. split; [done|]. split_and!; try done. intros _. rewrite has_remaining_law in Hb.
    by apply negb_false_iff, bool_decide_eq_true in Hb.
Qed.
End write_buf.

(** ** Concrete buffers *)

(** A vector with a limit ([bytes::buf::Limit]), and a buffer that hands out
    three bytes at a time. *)
Record Limited := mkLimited { limited : list byte; room : nat }.
#[export] Instance limited_mut : BufMut Limited := {|
  remaining_mut b := Z.of_nat b.(room);
  put_slice l b := if bool_decide (length l ≤ b.(room))%nat then Some (mkLimited (b.(limited) ++ l) (b.(room) - length l)) else None;
|}.
#[export] Instance limited_lawful : LawfulBufMut Limited.
Proof.
  refine {| written := limited |}; simpl; [lia|]. intros b l Hl. unfold blen in Hl.
  rewrite bool_decide_eq_true_2 by lia. by eexists.
Defined.

Record Parts := mkParts { parts : list byte }.
#[export] Instance parts_buf : Buf Parts := {|
  has_remaining b := negb (bool_decide (b.(parts) = []));
  chunk b := take 3 b.(parts);
  buf_advance n b := if (0 <=? n) && (n <=? blen b.(parts)) then Some (mkParts (from n b.(parts))) else None;
|}.
#[export] Instance parts_lawful : LawfulBuf Parts.
Proof.
  refine {| unread := parts |}; simpl; intros.
  - done.
  - exists (drop 3 b.(parts)). by rewrite take_drop.
  - by destruct (parts b).
  - apply (Z.le_lt_trans _ 3); [|done]. unfold blen. rewrite length_take. lia.
  - destruct (Z.leb_spec 0 n), (Z.leb_spec n (blen (parts b))); try lia. by eexists.
Defined.

Lemma read_to_string_exact_witness :
  let r := mkMem [104; 195; 169] 2 false in
  read_ok r ∧ ∃ p chunk vec text' r' ws,
    run_polls (λ cx st, read_to_string 4 cx st) (repeat 0%nat 9) (read_to_string_start, [33]) r =
      Some ((p, ((chunk, vec), text')), r', ws) ∧ (p = Ready (Ok 3) → text' = [33; 104; 195; 169]).
Proof.
  intros r. assert (read_ok r) as Hr by (apply Nat.lt_0_succ). split; [exact Hr|].
  destruct (read_to_string_exact 4 (repeat 0%nat 9) [33] r Hr ltac:(simpl; lia))
    as (p & c & v & t & r' & ws & E & _ & _ & Hp).
  exists p, c, v, t, r', ws. split; [exact E|]. intros ->. destruct Hp as (_ & _ & -> & _). reflexivity.
Defined.

Lemma read_buf_exact_witness :
  let r := mkMem [1; 2; 3; 4] 9 false in
  read_ok r ∧ ∃ p st b' r' ws,
    run_polls (λ cx st, read_buf cx st.1 st.2) [0; 0]%nat (None, mkLimited [9] 3) r = Some ((p, (st, b')), r', ws) ∧
    (∀ n, p = Ready (Ok n) → n ≤ 3).
Proof.
  intros r. assert (read_ok r) as Hr by (apply Nat.lt_0_succ). split; [exact Hr|].
  destruct (read_buf_exact [0; 0]%nat (mkLimited [9] 3) r Hr) as (p & st & b' & r' & ws & E & _ & Hp).
  exists p, st, b', r', ws. split; [exact E|]. intros n ->. destruct Hp as (d & _ & _ & -> & Hd & _). exact Hd.
Defined.

Lemma write_all_buf_conserves_witness :
  ∃ p b' w' ws, write_all_buf 4 0%nat (mkParts [1; 2; 3; 4]) ([] : list byte) = Some ((p, b'), w', ws) ∧
    w' ++ unread b' = [1; 2; 3; 4] ∧ p = Ready (Ok tt).
Proof.
  assert (write_ok ([] : list byte)) as Hw by (vm_compute; exact I).
  destruct (write_all_buf_conserves 0%nat (mkParts [1; 2; 3; 4]) ([] : list byte) 4 Hw)
    as (p & b' & w' & ws & E & _ & Hs & _); [apply Nat.leb_le; vm_compute; reflexivity|].
  exists p, b', w', ws. split; [exact E|]. split; [exact Hs|].
  vm_compute in E. by simplify_eq.
Defined.
