(* ===== verification/WaitOutput.v ===== *)
(** [Child::wait_with_output] ([src/src/process/mod.rs]): the [try_join!] of a
    [wait] and of two [read_to_end]s, put together from [Process], [Macros] and
    [AsyncIo]. *)

From S2P Require Import Prelude AsyncIo Macros Files Process Bytes.

(** ** A rule for [try_join!]

    [J n outs s]: the state of the pass after its first [n] futures; [K e s]
    when one has failed. *)
Section rule.
Context {S A E : Type} (J : nat → list (option A) → S → Prop) (K : E → S → Prop).

Definition branch_ok (j : nat) (f : future (S := S) (result A E)) : Prop :=
  ∀ cx outs s, J j outs s →
  match outs !! j with
  | Some None => ∃ r s' ws, f cx s = Some (r, s', ws) ∧
      match r with
      | Ready (Ok v) => J (Datatypes.S j) (<[j := Some v]> outs) s'
      | Ready (Err e) => K e s'
      | Pending => J (Datatypes.S j) outs s'
      end
  | Some (Some _) => J (Datatypes.S j) outs s
  | None => True
  end.

Lemma try_join_pass_rule fs pre outs cx s :
  (∀ j f, fs !! j = Some f → branch_ok (length pre + j) f) → length fs = length outs →
  J (length pre) (pre ++ outs) s →
  ∃ r s' ws, try_join_pass fs outs cx s = Some (r, s', ws) ∧
    match r with Ok outs' => length outs' = length outs ∧ J (length pre + length outs) (pre ++ outs') s' | Err e => K e s' end.
Proof.
  revert pre outs s. induction fs as [|f fs IH]; intros pre [|o outs] s Hf Hl HJ; simpl in Hl; try lia.
  { do 3 eexists. split; [done|]. rewrite Nat.add_0_r. done. }
  pose proof (Hf 0%nat f eq_refl) as Hb. rewrite Nat.add_0_r in Hb. specialize (Hb cx _ s HJ).
  rewrite list_lookup_middle in Hb by done.
  assert (∀ o' s1, J (Datatypes.S (length pre)) (pre ++ o' :: outs) s1 →
    ∃ r s' ws, (let! r := try_join_pass fs outs cx in
                ret (match r with Ok outs => Ok (o' :: outs) | Err e => Err e end)) s1 = Some (r, s', ws) ∧
      match r with
      | Ok outs' => length outs' = Datatypes.S (length outs) ∧ J (length pre + Datatypes.S (length outs)) (pre ++ outs') s'
      | Err e => K e s'
      end) as Hgo.
  { intros o' s1 HJ1. destruct (IH (pre ++ [o']) outs s1) as (r & s' & ws & E1 & Hr).
    - intros j g Hj. specialize (Hf (Datatypes.S j) g Hj). rewrite length_app; simpl.
      by replace (length pre + 1 + j)%nat with (length pre + Datatypes.S j)%nat by lia.
    - lia.
    - rewrite length_app, <- app_assoc. simpl. by rewrite Nat.add_1_r.
    - do 3 eexists. split; [by eapply bind_some|]. destruct r as [outs'|e]; [|done].
      destruct Hr as [Hl' HJ']. simpl. rewrite length_app, <- app_assoc in HJ'. simpl in HJ'. split; [lia|].
      by replace (length pre + Datatypes.S (length outs))%nat with (length pre + 1 + length outs)%nat by lia. }
  simpl. destruct o as [v|].
  - rewrite (bind_silent _ _ _ _ _ eq_refl). simpl. by apply Hgo.
  - destruct Hb as (r & s1 & ws1 & E1 & Hr).
    destruct r as [[v|e]|].
    + rewrite insert_app_r_alt in Hr by lia. rewrite Nat.sub_diag in Hr.
      destruct (Hgo (Some v) s1 Hr) as (r & s' & ws & E2 & ?).
      do 3 eexists. split; [eapply bind_some; [by eapply bind_some|exact E2]|done].
    + do 3 eexists. split; [eapply bind_some; [by eapply bind_some|done]|done].
    + destruct (Hgo None s1 Hr) as (r & s' & ws & E2 & ?).
      do 3 eexists. split; [eapply bind_some; [by eapply bind_some|exact E2]|done].
Qed.
End rule.

Lemma try_join_answer {S A E} (fs : list (future (S := S) (result A E))) cx outs s r s' ws :
  try_join_pass fs outs cx s = Some (r, s', ws) →
  try_join fs cx outs s =
    Some (match r with
          | Ok outs' => match mapM id outs' with
                        | Some values => (Ready (Ok values), map (λ _, None) outs')
                        | None => (Pending, outs')
                        end
          | Err e => (Ready (Err e), outs)
          end, s', ws).
Proof.
  intros Er. unfold try_join, bind. rewrite Er. destruct r as [outs'|e]; [destruct (mapM id outs')|];
    unfold ret; by rewrite app_nil_r.
Qed.

(** ** [wait_with_output] *)

Section wait_with_output.
Context {O E : Type} `{LawfulRead O} `{LawfulRead E}.

(** One of the two streams, [stdout_fut] or [stderr_fut]: its pipe, if there is
    one, and the [read_to_end] of it with its chunk and its vector. *)
Record draining (R : Type) := mkDrain { pipe : option R; chunk : list byte; collected : list byte }.
Arguments mkDrain {R}.
Arguments pipe {R}.
Arguments chunk {R}.
Arguments collected {R}.

Record gathering := mkGathering { child : Child; stdin : bool; out : draining O; err : draining E }.

Definition drain_start {R} (p : option R) : draining R := mkDrain p (repeat 0 (Z.to_nat 8192)) [].
(** [drop(self.stdin.take())], and both [take]s. *)
Definition gathering_start (c : Child) (stdout : option O) (stderr : option E) : gathering :=
  mkGathering c false (drain_start stdout) (drain_start stderr).

(** What a branch resolves to. *)
Inductive piece := Exited (st : Z) | Drained.

(** [status_fut]: [wait], which hands its job to the pool in its first poll and
    has the outcome in a later one. *)
Definition status_fut (cx : waker) : M gathering (poll (result piece io_error)) :=
  let! g := get in
  let exited (r : result Z io_error) := Ready (match r with Ok st => Ok (Exited st) | Err e => Err e end) in
  let save c := put (mkGathering c g.(stdin) g.(out) g.(err)) in
  if g.(child).(waiting) then
    match g.(child).(job_result) with
    | Some r => let '(c, r) := wait_resume r g.(child) in save c ;! ret (exited r)
    | None => ret Pending
    end
  else
    match wait g.(child) with
    | (c, Return r) => save c ;! ret (exited r)
    | (c, Continue _) => save c ;! ret Pending
    | (_, Panicked) => panic
    end.

Definition drain_fut `{AsyncRead R} (fuel : nat) (cx : waker) : M (draining R) (poll (result piece io_error)) :=
  let! d := get in
  match d.(pipe) with
  | None => ret (Ready (Ok Drained))
  | Some r =>
      let! x := zoom (λ _, r) (λ r d, mkDrain (Some r) d.(chunk) d.(collected))
                  (read_to_end fuel cx 0 d.(chunk) d.(collected)) in
      let '(p, (ch, v)) := x in
      let! d := get in
      put (mkDrain d.(pipe) ch v) ;!
      ret (match p with Ready (Ok _) => Ready (Ok Drained) | Ready (Err e) => Ready (Err e) | Pending => Pending end)
  end.

Definition branches (fuel : nat) : list (future (S := gathering) (result piece io_error)) :=
  [ status_fut;
    λ cx, zoom out (λ d g, mkGathering g.(child) g.(stdin) d g.(err)) (drain_fut fuel cx);
    λ cx, zoom err (λ d g, mkGathering g.(child) g.(stdin) g.(out) d) (drain_fut fuel cx) ].

Record Output := mkOutput { exit_status : Z; stdout : list byte; stderr : list byte }.

(** One poll; the tuple pattern takes the status from the first branch. *)
Definition wait_with_output (fuel : nat) (cx : waker) (outs : list (option piece))
    : M gathering (poll (result Output io_error) * list (option piece)) :=
  let! r := try_join (branches fuel) cx outs in
  match r with
  | (Ready (Ok (Exited st :: _)), outs) =>
      let! g := get in
      ret (Ready (Ok (mkOutput st g.(out).(collected) g.(err).(collected))), outs)
  | (Ready (Ok _), _) => panic
  | (Ready (Err e), outs) => ret (Ready (Err e), outs)
  | (Pending, outs) => ret (Pending, outs)
  end.

(** What happens to the child while the future waits. *)
Inductive event := EPoll (cx : waker) | EExit (st : Z) | EJob (failed : option io_error).

Definition child_event (m : child_move) : M gathering unit :=
  let! g := get in
  match child_step m g.(child) with
  | Some (c, _) => put (mkGathering c g.(stdin) g.(out) g.(err))
  | None => ret tt
  end.

Fixpoint run_output (fuel : nat) (evs : list event) (outs : list (option piece))
    : M gathering (poll (result Output io_error) * list (option piece)) :=
  match evs with
  | [] => ret (Pending, outs)
  | EPoll cx :: evs =>
      let! r := wait_with_output fuel cx outs in
      match r with
      | (Ready a, outs) => ret (Ready a, outs)
      | (Pending, outs) => run_output fuel evs outs
      end
  | EExit st :: evs => child_event (MExit st) ;! run_output fuel evs outs
  | EJob failed :: evs => child_event (MJob failed) ;! run_output fuel evs outs
  end.

Definition outs_start : list (option piece) := [None; None; None].

(** ** What each branch keeps *)

(** The reader's last answer was that it has to wait. *)
Definition reader_waits `{AsyncRead R} (r : R) : Prop :=
  ∃ cx b r0 b' ws, poll_read cx b r0 = Some ((Pending, b'), r, ws).

Lemma read_waits `{AsyncRead R} cx dst (r : R) dst' r' ws :
  read cx dst r = Some ((Pending, dst'), r', ws) → reader_waits r'.
Proof.
  unfold read. intros Er. M_inv.
  match goal with Ep : poll_read _ _ _ = _ |- _ => by do 5 eexists end.
Qed.

Lemma read_to_end_waits `{AsyncRead R} fuel cx start_len ch v (r : R) st r' ws :
  read_to_end fuel cx start_len ch v r = Some ((Pending, st), r', ws) → reader_waits r'.
Proof.
  revert ch v r ws. induction fuel as [|fuel IH]; intros ch v r ws; simpl; [done|].
  intros (x & s1 & w1 & w2 & E1 & E2 & ->)%bind_inv. destruct x as [[[n|e]|] ch'].
  - destruct (n =? 0); [done|]. by eapply IH.
  - done.
  - apply ret_inv in E2 as (_ & -> & ->). by eapply read_waits.
Qed.

Definition drain_inv `{LawfulRead R} (whole : list byte) (fuel : nat) (d : draining R) : Prop :=
  match d.(pipe) with
  | None => whole = [] ∧ d.(collected) = []
  | Some r => read_ok r ∧ d.(chunk) ≠ [] ∧ blen d.(chunk) < 2 ^ (usize_bits - 1) ∧
      (length (stream r) < fuel)%nat ∧ d.(collected) ++ stream r = whole
  end.
Definition drain_waits `{AsyncRead R} (d : draining R) : Prop := ∃ r, d.(pipe) = Some r ∧ reader_waits r.

Lemma drain_fut_spec `{LawfulRead R} whole fuel cx (d : draining R) :
  drain_inv whole fuel d →
  ∃ p d' ws, drain_fut fuel cx d = Some (p, d', ws) ∧ drain_inv whole fuel d' ∧
    match p with
    | Ready (Ok x) => x = Drained ∧ d'.(collected) = whole
    | Ready (Err e) => reader_error (R := R) e
    | Pending => drain_waits d'
    end.
Proof.
  unfold drain_inv, drain_fut. intros Hd. destruct d as [[r|] ch v]; simpl in *.
  - destruct Hd as (Hr & Hc & Hl & Hf & Hv).
    destruct (read_to_end_spec fuel cx 0 ch v r Hr Hc Hl Hf) as (p & ch' & v' & r' & ws & Er & Hr' & Hlen & Hv' & Hle & Hp).
    rewrite (bind_silent get _ _ _ _ eq_refl). simpl.
    do 3 eexists. split; [eapply bind_some; [by eapply zoom_some|]; run_M; done|]. simpl. split.
    + split_and!; [done| | |lia|congruence].
      * intros ->. by destruct ch.
      * unfold blen in *. by rewrite Hlen.
    + destruct p as [[n|e]|].
      * destruct Hp as [Hs _]. rewrite Hs, app_nil_r in Hv'. split; [done|congruence].
      * done.
      * exists r'. split; [done|]. by eapply read_to_end_waits.
  - destruct Hd as [-> ->]. by do 3 eexists.
Qed.
(** The child between two steps, [errs] being the failures its job may have. *)
Definition child_ok (errs : io_error → Prop) (c : Child) : Prop :=
  child_inv c ∧ c.(broken) = false ∧ c.(dropped) = false ∧ ∀ e, c.(job_result) = Some (Err e) → errs e.

Lemma status_fut_spec errs cx (g : gathering) :
  child_ok errs g.(child) →
  ∃ r c, status_fut cx g = Some (r, mkGathering c g.(stdin) g.(out) g.(err), []) ∧
    match r with
    | Ready (Ok x) => ∃ st, x = Exited st ∧ c.(status) = Some st ∧ child_ok errs c
    | Ready (Err e) => errs e
    | Pending => child_ok errs c ∧ c.(waiting) = true ∧ c.(job_result) = None
    end.
Proof.
  destruct g as [c si o e]. unfold child_ok, status_fut. simpl. intros (Hi & Hb & Hd & He).
  destruct Hi as [p kd Hu|p kd Hu|p kd r Hr|st kd dr|p h kd dr Hh|p h kd Hh]; simplify_eq/=; run_M.
  - do 2 eexists. split; [done|]. by repeat constructor.
  - do 2 eexists. split; [done|]. by repeat constructor.
  - destruct r as [st|e']; run_M; do 2 eexists; (split; [done|]); [|by apply He]. exists st.
    split_and!; try done. rewrite (Hr st eq_refl). constructor.
  - do 2 eexists. split; [done|]. exists st. split_and!; try done. constructor.
Qed.

Lemma child_event_spec errs m (g : gathering) :
  child_ok errs g.(child) → (∃ st, m = MExit st) ∨ (∃ f, m = MJob f ∧ ∀ e, f = Some e → errs e) →
  ∃ c, child_event m g = Some (tt, mkGathering c g.(stdin) g.(out) g.(err), []) ∧
    child_ok errs c ∧ c.(status) = g.(child).(status).
Proof.
  destruct g as [c si o e]. unfold child_ok, child_event. simpl. intros (Hi & Hb & Hd & He) Hm.
  rewrite (bind_silent get _ _ _ _ eq_refl). simpl.
  destruct (child_step m c) as [[c' a]|] eqn:Es; [|by eexists].
  exists c'. split; [done|]. pose proof (child_step_inv m c c' a Hi Es) as Hi'.
  destruct Hm as [[st ->]|(f & -> & Hf)]; simpl in Es; repeat (case_match; simplify_eq/=); split_and!; try done; naive_solver.
Qed.

Section runs.
Context (fuel : nat) (errs : io_error → Prop) (wo we : list byte).

(** A branch that has not resolved and was polled waits. *)
Definition slot_ok {R} `{AsyncRead R} (polled : Prop) (whole : list byte) (s : option piece) (d : draining R) : Prop :=
  match s with Some _ => d.(collected) = whole | None => polled → drain_waits d end.
Definition status_ok (polled : Prop) (s : option piece) (c : Child) : Prop :=
  match s with
  | Some (Exited st) => c.(status) = Some st
  | Some Drained => False
  | None => polled → c.(waiting) = true ∧ c.(job_result) = None
  end.

Definition pass_inv (n : nat) (outs : list (option piece)) (g : gathering) : Prop :=
  ∃ s0 s1 s2, outs = [s0; s1; s2] ∧ child_ok errs g.(child) ∧
    drain_inv wo fuel g.(out) ∧ drain_inv we fuel g.(err) ∧
    status_ok (0 < n)%nat s0 g.(child) ∧ slot_ok (1 < n)%nat wo s1 g.(out) ∧ slot_ok (2 < n)%nat we s2 g.(err).
Definition failed_inv (e : io_error) (g : gathering) : Prop :=
  drain_inv wo fuel g.(out) ∧ drain_inv we fuel g.(err) ∧
  (errs e ∨ reader_error (R := O) e ∨ reader_error (R := E) e).

Lemma slot_ok_mono {R} `{AsyncRead R} (P Q : Prop) whole s (d : draining R) :
  (Q → s = None → P) → slot_ok P whole s d → slot_ok Q whole s d.
Proof. destruct s; simpl; auto. Qed.
Lemma status_ok_mono (P Q : Prop) s c : (Q → s = None → P) → status_ok P s c → status_ok Q s c.
Proof. destruct s as [[]|]; simpl; auto. Qed.
#[local] Hint Extern 1 (slot_ok _ _ _ _) => (eapply slot_ok_mono; [|eassumption]; intros; (lia || done)) : core.
#[local] Hint Extern 1 (status_ok _ _ _) => (eapply status_ok_mono; [|eassumption]; intros; (lia || done)) : core.

Lemma branches_ok j f : branches fuel !! j = Some f → branch_ok pass_inv failed_inv j f.
Proof.
  intros Hf cx outs g (s0 & s1 & s2 & -> & Hc & Ho & He & Hs0 & Hs1 & Hs2).
  destruct j as [|[|[|j]]]; simplify_eq/=.
  - destruct s0 as [x|]; [exists (Some x), s1, s2; split_and!; auto|].
    destruct (status_fut_spec errs cx g Hc) as (r & c & Er & Hr). do 3 eexists. split; [exact Er|].
    destruct r as [[x|e]|].
    + destruct Hr as (st & -> & Hst & Hc'). exists (Some (Exited st)), s1, s2. split_and!; simpl; auto.
    + split_and!; simpl; auto.
    + destruct Hr as (Hc' & Hw & Hj). exists None, s1, s2. split_and!; simpl; auto.
  - destruct s1 as [x|]; [exists s0, (Some x), s2; split_and!; auto|].
    destruct (drain_fut_spec wo fuel cx g.(out) Ho) as (r & d & ws & Er & Hd & Hr).
    do 3 eexists. split; [by eapply zoom_some|]. destruct r as [[x|e]|].
    + destruct Hr as [-> Hr]. exists s0, (Some Drained), s2. split_and!; simpl; auto.
    + split_and!; simpl; auto.
    + exists s0, None, s2. split_and!; simpl; auto.
  - destruct s2 as [x|]; [exists s0, s1, (Some x); split_and!; auto|].
    destruct (drain_fut_spec we fuel cx g.(err) He) as (r & d & ws & Er & Hd & Hr).
    do 3 eexists. split; [by eapply zoom_some|]. destruct r as [[x|e]|].
    + destruct Hr as [-> Hr]. exists s0, s1, (Some Drained). split_and!; simpl; auto.
    + split_and!; simpl; auto.
    + exists s0, s1, None. split_and!; simpl; auto.
Qed.

(** One poll. *)
Definition output_ok (o : Output) (g : gathering) : Prop :=
  g.(child).(proc) = PReaped o.(exit_status) ∧ o.(stdout) = wo ∧ o.(stderr) = we.

Lemma wait_with_output_spec cx outs g :
  pass_inv 0 outs g →
  ∃ p outs' g' ws, wait_with_output fuel cx outs g = Some ((p, outs'), g', ws) ∧
    match p with
    | Ready (Ok o) => output_ok o g' ∧ drain_inv wo fuel g'.(out) ∧ drain_inv we fuel g'.(err)
    | Ready (Err e) => failed_inv e g'
    | Pending => pass_inv 3 outs' g'
    end.
Proof.
  intros HJ. pose proof HJ as (s0 & s1 & s2 & -> & _).
  destruct (try_join_pass_rule pass_inv failed_inv (branches fuel) [] [s0; s1; s2] cx g)
    as (r & g' & ws & Er & Hr); [apply branches_ok|done|done|].
  apply try_join_answer in Er. unfold wait_with_output. destruct r as [outs'|e].
  - destruct Hr as [_ (t0 & t1 & t2 & Eo & Hc & Ho & He & Ht0 & Ht1 & Ht2)]. simpl in Eo. subst outs'.
    destruct t0 as [[st|]|], t1 as [x1|], t2 as [x2|]; try done; cbn in Er;
      do 4 eexists; (split; [eapply bind_some; [exact Er|reflexivity]|]);
      try (do 3 eexists; split_and!; by eauto).
    simpl in Ht0, Ht1, Ht2. unfold output_ok. split_and!; try done. simpl.
    destruct Hc as (Hi & _). destruct Hi; by simplify_eq/=.
  - do 4 eexists. by split; [eapply bind_some; [exact Er|reflexivity]|].
Qed.

Lemma pass_inv_next outs g : pass_inv 3 outs g → pass_inv 0 outs g.
Proof.
  intros (s0 & s1 & s2 & -> & Hc & Ho & He & Hs0 & Hs1 & Hs2). exists s0, s1, s2. split_and!; auto.
Qed.

Lemma pass_inv_event m outs g :
  pass_inv 0 outs g → (∃ st, m = MExit st) ∨ (∃ f, m = MJob f ∧ ∀ e, f = Some e → errs e) →
  ∃ g', child_event m g = Some (tt, g', []) ∧ pass_inv 0 outs g'.
Proof.
  intros (s0 & s1 & s2 & -> & Hc & Ho & He & Hs0 & Hs1 & Hs2) Hm.
  destruct (child_event_spec errs m g Hc Hm) as (c & Ec & Hc' & Est). eexists. split; [exact Ec|].
  exists s0, s1, s2. split_and!; simpl; try done; auto.
  destruct s0 as [[st|]|]; simpl in *; [congruence|done|lia].
Qed.

Lemma run_output_spec evs outs g :
  (∀ e, EJob (Some e) ∈ evs → errs e) → pass_inv 0 outs g →
  ∃ p outs' g' ws, run_output fuel evs outs g = Some ((p, outs'), g', ws) ∧
    match p with
    | Ready (Ok o) => output_ok o g' ∧ drain_inv wo fuel g'.(out) ∧ drain_inv we fuel g'.(err)
    | Ready (Err e) => failed_inv e g'
    | Pending => pass_inv 0 outs' g' ∧ (∀ cx, last evs = Some (EPoll cx) → pass_inv 3 outs' g')
    end.
Proof.
  revert outs g. induction evs as [|ev evs IH]; intros outs g Herr HJ; simpl.
  { do 4 eexists. by split. }
  assert (∀ e, EJob (Some e) ∈ evs → errs e) as Herr' by (intros e ?; apply Herr; by right).
  assert (∀ outs1 g1, pass_inv 0 outs1 g1 → (∀ cx, ev = EPoll cx → pass_inv 3 outs1 g1) →
    ∃ p outs' g' ws, run_output fuel evs outs1 g1 = Some ((p, outs'), g', ws) ∧
    match p with
    | Ready (Ok o) => output_ok o g' ∧ drain_inv wo fuel g'.(out) ∧ drain_inv we fuel g'.(err)
    | Ready (Err e) => failed_inv e g'
    | Pending => pass_inv 0 outs' g' ∧ (∀ cx, last (ev :: evs) = Some (EPoll cx) → pass_inv 3 outs' g')
    end) as Hgo.
  { intros outs1 g1 HJ1 H3. destruct evs as [|ev' evs].
    - do 4 eexists. split; [done|]. simpl. split; [done|]. intros cx [= ->]. by eapply H3.
    - rewrite last_cons_cons. by apply IH. }
  destruct ev as [cx|st|f].
  - destruct (wait_with_output_spec cx outs g HJ) as (p & outs1 & g1 & ws1 & E1 & Hp).
    destruct p as [a|].
    + do 4 eexists. split; [eapply bind_some; [exact E1|reflexivity]|]. by destruct a.
    + destruct (Hgo outs1 g1) as (p & outs' & g' & ws & E2 & Hp2); [by apply pass_inv_next|done|].
      do 4 eexists. split; [eapply bind_some; [exact E1|exact E2]|done].
  - destruct (pass_inv_event (MExit st) outs g HJ) as (g1 & E1 & HJ1); [eauto|].
    rewrite (bind_silent _ _ _ _ _ E1). by apply Hgo.
  - destruct (pass_inv_event (MJob f) outs g HJ) as (g1 & E1 & HJ1).
    { right. exists f. split; [done|]. intros e ->. apply Herr. by left. }
    rewrite (bind_silent _ _ _ _ _ E1). by apply Hgo.
Qed.
End runs.

(** The bytes of a pipe that may not be there, and its promise. *)
Definition contents {R} `{LawfulRead R} (p : option R) : list byte := from_option stream [] p.
Definition pipe_ok {R} `{LawfulRead R} (fuel : nat) (p : option R) : Prop :=
  match p with Some r => read_ok r ∧ (length (stream r) < fuel)%nat | None => True end.

Lemma drain_start_inv {R} `{LawfulRead R} fuel (p : option R) :
  pipe_ok fuel p → drain_inv (contents p) fuel (drain_start p).
Proof.
  unfold drain_inv, drain_start, contents. destruct p as [r|]; simpl; [|done].
  intros [Hr Hf]. split_and!; done.
Qed.
Lemma drain_kept {R} `{LawfulRead R} whole fuel (d : draining R) :
  drain_inv whole fuel d → d.(collected) ++ contents d.(pipe) = whole.
Proof. unfold drain_inv, contents. destruct (pipe d); simpl; [naive_solver|intros [-> ->]; done]. Qed.

(** A [Child] that has lost its process panics in the first poll. *)
Definition polls (evs : list event) : bool :=
  existsb (λ ev, match ev with EPoll _ => true | _ => false end) evs.

Lemma forgotten_panics c : child_inv c → c.(broken) = true → c.(waiting) = false ∧ wait c = (c, Panicked).
Proof.
  intros [| | | |p h kd dr Hh|] Hb; simplify_eq/=. split; [done|].
  by destruct Hh as [[-> _]| ->].
Qed.

Lemma run_output_forgotten fuel evs outs (g : gathering) :
  child_inv g.(child) → g.(child).(broken) = true → head outs = Some None →
  run_output fuel evs outs g = None ↔ polls evs = true.
Proof.
  revert g. induction evs as [|ev evs IH]; intros g Hi Hb Ho; simpl; [done|].
  assert (∀ m, (∃ st, m = MExit st) ∨ (∃ f, m = MJob f) →
    (child_event m ;! run_output fuel evs outs) g = None ↔ polls evs = true) as Hev.
  { intros m Hm. destruct g as [c si o e]. simpl in *.
    assert (∃ c', child_event m (mkGathering c si o e) = Some (tt, mkGathering c' si o e, []) ∧
      child_inv c' ∧ c'.(broken) = true) as (c' & Ew & ? & ?).
    { unfold child_event. rewrite (bind_silent get _ _ _ _ eq_refl). simpl.
      destruct (child_step m c) as [[c' a]|] eqn:Es; [|by eexists]. exists c'. split_and!; [done|by eapply child_step_inv|].
      destruct Hm as [[st ->]|[f ->]]; simpl in Es; repeat (case_match; simplify_eq/=); done. }
    rewrite (bind_silent _ _ _ _ _ Ew). by apply IH. }
  destruct ev as [cx|st|f]; simpl; [|apply Hev; eauto..].
  split; [done|intros _]. destruct outs as [|[x|] outs]; simplify_eq/=.
  destruct (forgotten_panics _ Hi Hb) as [Hw Hp].
  assert (status_fut cx g = None) as Ew.
  { unfold status_fut. rewrite (bind_silent get _ _ _ _ eq_refl). simpl. by rewrite Hw, Hp. }
  unfold wait_with_output, try_join, branches. simpl. unfold bind. by rewrite Ew.
Qed.

(** C23: [wait_with_output] says how the process ended and gives all it wrote.
    Whatever the order of its polls, of the end of the process and of the
    pool's job, and whatever its pipes find ready at each poll: it does not
    panic; what it has collected and what is still in a pipe is what the pipe
    had, byte for byte; its status is the one the process was reaped with and
    its two vectors are the whole of both streams; it fails only with the
    failure of the job or of a pipe; and when a poll says [Pending], each
    stream that is not at its end has told its reader to wait - a child that
    blocks on a full pipe is always drained - and the status is missing only
    because the job runs.  That is so unless an earlier [wait] of the same
    [Child] was dropped or failed: then, and only then, the first poll panics. *)
Theorem wait_with_output_exact evs fuel c (so : option O) (se : option E) :
  child_inv c → free c = true → pipe_ok fuel so → pipe_ok fuel se →
  (run_output fuel evs outs_start (gathering_start c so se) = None ↔
     c.(broken) = true ∧ polls evs = true) ∧
  (c.(broken) = false → ∃ p outs g ws,
    run_output fuel evs outs_start (gathering_start c so se) = Some ((p, outs), g, ws) ∧
    g.(out).(collected) ++ contents g.(out).(pipe) = contents so ∧
    g.(err).(collected) ++ contents g.(err).(pipe) = contents se ∧
    match p with
    | Ready (Ok o) => g.(child).(proc) = PReaped o.(exit_status) ∧
        o.(stdout) = contents so ∧ o.(stderr) = contents se
    | Ready (Err e) => EJob (Some e) ∈ evs ∨ reader_error (R := O) e ∨ reader_error (R := E) e
    | Pending => ∀ cx, last evs = Some (EPoll cx) →
        (g.(child).(job_result) = None) ∧
        (g.(out).(collected) = contents so ∨ drain_waits g.(out)) ∧
        (g.(err).(collected) = contents se ∨ drain_waits g.(err))
    end).
Proof.
  intros Hi Hf Hso Hse. destruct (broken c) eqn:Hb.
  { split; [|done]. rewrite (run_output_forgotten fuel evs outs_start (gathering_start c so se) Hi Hb eq_refl). tauto. }
  destruct (run_output_spec fuel (λ e, EJob (Some e) ∈ evs) (contents so) (contents se) evs outs_start
    (gathering_start c so se)) as (p & outs & g & ws & Er & Hp); [done| |].
  { exists None, None, None. split_and!; simpl; try done; try lia; try by apply drain_start_inv.
    split; [done|]. unfold free in Hf. destruct Hi as [| | |st kd []| |]; simplify_eq/=; by split_and!. }
  split; [rewrite Er; by split; [|intros []]|]. intros _.
  exists p, outs, g, ws. split; [exact Er|]. destruct p as [[o|e]|].
  - destruct Hp as ((? & ? & ?) & Ho & He). split_and!; try done; by eapply drain_kept.
  - destruct Hp as (Ho & He & Hk). split_and!; try done; by eapply drain_kept.
  - destruct Hp as [(s0 & s1 & s2 & -> & Hc & Ho & He & _) H3].
    split_and!; [by eapply drain_kept..|]. intros cx Hl.
    destruct (H3 cx Hl) as (t0 & t1 & t2 & [= -> -> ->] & (Hc' & _) & _ & _ & Ht0 & Ht1 & Ht2).
    split_and!; [|destruct t1; auto with lia|destruct t2; auto with lia].
    destruct t0 as [[st|]|]; [simpl in Ht0|done|apply Ht0; lia]. destruct Hc'; simplify_eq/=; done.
Qed.
End wait_with_output.
Arguments mkDrain {R}.
Arguments pipe {R}.
Arguments chunk {R}.
Arguments collected {R}.

#[local] Existing Instance dev_profile.

(** A child that writes four bytes to its standard output, for which its reader
    has to wait, none to its standard error, and exits with 3. *)
Definition demo_events : list event :=
  [EPoll 1%nat; EExit 3; EPoll 1%nat; EJob None; EPoll 1%nat; EPoll 1%nat; EPoll 1%nat].
Definition demo_stdout : option MemReader := Some (mkMem [1; 2; 3; 4] 3 false).

Example wait_with_output_demo :
  match run_output 9 demo_events outs_start (gathering_start (E := MemReader) (child_init false) demo_stdout None) with
  | Some ((Ready (Ok o), _), _, _) => o = mkOutput 3 [1; 2; 3; 4] []
  | _ => False
  end.
Proof. vm_compute. reflexivity. Qed.

Lemma wait_with_output_exact_witness :
  child_inv (child_init false) ∧ ∃ p outs g ws,
    run_output 9 demo_events outs_start (gathering_start (E := MemReader) (child_init false) demo_stdout None)
      = Some ((p, outs), g, ws) ∧ g.(out).(collected) ++ contents g.(out).(pipe) = [1; 2; 3; 4].
Proof.
  assert (child_inv (child_init false)) as Hi by (by apply ph_held). split; [exact Hi|].
  destruct (wait_with_output_exact demo_events 9 (child_init false) demo_stdout (None : option MemReader) Hi
    eq_refl ltac:(split; simpl; lia) I) as [_ Hex].
  destruct (Hex eq_refl) as (p & outs & g & ws & Er & Hs & _).
  exists p, outs, g, ws. split; [exact Er|exact Hs].
Defined.
