(* ===== verification/Split.v ===== *)
(** [io::split] ([src/src/io/split.rs]) and the [futures_io] shim
    ([src/src/io/compat.rs]).

    Two halves refer to one stream behind a [std::sync::Mutex] that each poll
    takes for its duration.  A poll that panics poisons it, which is for ever:
    every later [lock().unwrap()] panics, [into_inner().unwrap()] too. *)

From S2P Require Import Prelude AsyncIo Pipes.

(** A stream both of whose directions are independent. *)
Class LawfulDuplex (T : Type) `{LawfulRead T} `{LawfulWrite T} := {
  read_keeps cx b t x t' ws : poll_read cx b t = Some (x, t', ws) →
    write_ok t → write_ok t' ∧ sink t' = sink t;
  write_keeps cx data t x t' ws : poll_write cx data t = Some (x, t', ws) →
    read_ok t → read_ok t' ∧ stream t' = stream t;
  flush_keeps cx t x t' ws : poll_flush cx t = Some (x, t', ws) →
    read_ok t → read_ok t' ∧ stream t' = stream t;
  shutdown_keeps cx t x t' ws : poll_shutdown cx t = Some (x, t', ws) →
    read_ok t → read_ok t' ∧ stream t' = stream t;
}.

Section split.
Context {T : Type} `{AsyncRead T} `{AsyncWrite T}.

(** [Mutex<T>]. *)
Inductive Inner := Clean (t : T) | Poisoned.

(** [let mut guard = stream.lock().unwrap(); m(&mut *guard)]; the answer is
    [None] when the call panics. *)
Definition with_lock {A} (m : M T A) (i : Inner) : option A * Inner * list waker :=
  match i with
  | Poisoned => (None, Poisoned, [])
  | Clean t => match m t with Some (a, t', ws) => (Some a, Clean t', ws) | None => (None, Poisoned, []) end
  end.

Definition split_poll_read (cx : waker) (b : ReadBuf) := with_lock (poll_read (R := T) cx b).
Definition split_poll_write (cx : waker) (data : list byte) := with_lock (poll_write (W := T) cx data).
Definition split_poll_flush (cx : waker) := with_lock (poll_flush (W := T) cx).
Definition split_poll_shutdown (cx : waker) := with_lock (poll_shutdown (W := T) cx).

(** The [Arc] of one [split]: how many halves refer to it; gone without any. *)
Definition shared : Type := option (nat * Inner).
Definition split (t : T) : shared := Some (2%nat, Clean t).
Definition drop_split_half (s : shared) : shared :=
  match s with Some (S (S n), i) => Some (S n, i) | _ => None end.

(** [unsplit]: [same] is what [Arc::ptr_eq] says.  A panic drops both halves;
    the other of a foreign pair belongs to another [split]. *)
Inductive reunited := Whole (t : T) | UnsplitPanics.
Definition unsplit (same : bool) (s : shared) : reunited * shared :=
  let s := drop_split_half s in
  if same then
    match s with
    | Some (1%nat, Clean t) => (Whole t, None)
    | Some (1%nat, Poisoned) => (UnsplitPanics, None)
    | s => (UnsplitPanics, s)                  (* [unreachable!] *)
    end
  else (UnsplitPanics, s).

(** ** The halves in use *)

Inductive move :=
| MRead (cx : waker) (b : ReadBuf)
| MWrite (cx : waker) (data : list byte)
| MFlush (cx : waker)
| MShutdown (cx : waker)
| MDropRead
| MDropWrite
| MUnsplit
| MUnsplitOther (read : bool).        (* one half with a half of another [split] *)

(** What a program has and saw: which halves, the bytes read and accepted, the
    stream it got back, and whether any call panicked that should not. *)
Record world := mkWorld {
  arc : shared; read_half : bool; write_half : bool;
  got : list byte; accepted : list byte; whole : option T; panicked : bool;
}.

Definition polled {A} (r : option A * Inner * list waker) (n : nat) (gain : A → list byte * list byte) (W : world) : world :=
  let '(a, i, _) := r in
  match a with
  | Some a => mkWorld (Some (n, i)) W.(read_half) W.(write_half) (W.(got) ++ (gain a).1) (W.(accepted) ++ (gain a).2) W.(whole) W.(panicked)
  | None => mkWorld (Some (n, i)) W.(read_half) W.(write_half) W.(got) W.(accepted) W.(whole) true
  end.
Definition read_gain (b : ReadBuf) (x : poll (result unit io_error) * ReadBuf) : list byte * list byte :=
  (drop (length (filled_bytes b)) (filled_bytes x.2), []).
Definition write_gain (data : list byte) (x : poll (result Z io_error)) : list byte * list byte :=
  ([], match x with Ready (Ok n) => upto n data | _ => [] end).

Definition split_move (m : move) (W : world) : option world :=
  match W.(arc) with
  | None => None
  | Some (n, i) =>
      match m with
      | MRead cx b => if W.(read_half) then Some (polled (split_poll_read cx b i) n (read_gain b) W) else None
      | MWrite cx data => if W.(write_half) then Some (polled (split_poll_write cx data i) n (write_gain data) W) else None
      | MFlush cx => if W.(write_half) then Some (polled (split_poll_flush cx i) n (λ _, ([], [])) W) else None
      | MShutdown cx => if W.(write_half) then Some (polled (split_poll_shutdown cx i) n (λ _, ([], [])) W) else None
      | MDropRead =>
          if W.(read_half) then Some (mkWorld (drop_split_half W.(arc)) false W.(write_half) W.(got) W.(accepted) W.(whole) W.(panicked)) else None
      | MDropWrite =>
          if W.(write_half) then Some (mkWorld (drop_split_half W.(arc)) W.(read_half) false W.(got) W.(accepted) W.(whole) W.(panicked)) else None
      | MUnsplit =>
          if W.(read_half) && W.(write_half) then
            let '(r, s) := unsplit true W.(arc) in
            Some (mkWorld s false false W.(got) W.(accepted)
              (match r with Whole t => Some t | UnsplitPanics => W.(whole) end)
              (match r with Whole _ => W.(panicked) | UnsplitPanics => true end))
          else None
      | MUnsplitOther read =>
          if (if read then W.(read_half) else W.(write_half)) then
            let s := (unsplit false W.(arc)).2 in
            Some (mkWorld s (W.(read_half) && negb read) (W.(write_half) && read) W.(got) W.(accepted) W.(whole) W.(panicked))
          else None
      end
  end.

Definition split_start (t : T) : world := mkWorld (split t) true true [] [] None false.
End split.
Arguments Inner : clear implicits.
Arguments world : clear implicits.

Section exact.
Context {T : Type} `{LawfulDuplex T}.
Implicit Types (t : T) (W : world T).

(** What [got] and [accepted] say of the stream, [t0] being what was split. *)
Definition carried (t0 t : T) (W : world T) : Prop :=
  read_ok t ∧ write_ok t ∧ stream t0 = W.(got) ++ stream t ∧ sink t = sink t0 ++ W.(accepted).

Definition split_inv (t0 : T) (W : world T) : Prop :=
  W.(panicked) = false ∧
  match W.(arc) with
  | Some (n, i) => n = (Nat.b2n W.(read_half) + Nat.b2n W.(write_half))%nat ∧ (0 < n)%nat ∧ W.(whole) = None ∧
      ∃ t, i = Clean t ∧ carried t0 t W
  | None => W.(read_half) = false ∧ W.(write_half) = false ∧ ∀ t, W.(whole) = Some t → carried t0 t W
  end.

(** Polls as [read] and [write_all] make them: room to read into, bytes to write. *)
Definition move_ok (m : move) : Prop :=
  match m with
  | MRead _ b => buf_ok b ∧ 0 < remaining b
  | MWrite _ data => data ≠ [] ∧ blen data < 2 ^ (usize_bits - 1)
  | _ => True
  end.

Lemma drop_filled (x y : list byte) : drop (length x) (x ++ y) = y.
Proof. by rewrite drop_app_length. Qed.

Lemma split_inv_step t0 m W W' : move_ok m → split_inv t0 W → split_move m W = Some W' → split_inv t0 W'.
Proof.
  unfold split_inv, split_move. intros Hm [Hp Ha] Hs. destruct (arc W) as [[n i]|] eqn:Ea; [|done].
  destruct Ha as (Hn & Hpos & Hw & t & -> & Hr & Hwr & Hgot & Hacc).
  destruct m as [cx b|cx data|cx|cx| | | |rd]; simpl in Hm.
  - destruct (read_half W) eqn:Eh; [|done]. injection Hs as <-. destruct Hm as [Hb Hrem].
    destruct (read_law cx b t Hr Hb Hrem) as (p & b' & t' & ws & E & Hr' & _ & _ & Hx).
    destruct (read_keeps cx b t _ t' ws E Hwr) as [Hwr' Hsk].
    unfold split_poll_read, with_lock. rewrite E. simpl. rewrite Eh. split; [done|]. split_and!; try done.
    exists t'. unfold carried, read_gain. simpl. rewrite app_nil_r, Hsk. split_and!; try done. rewrite Hgot.
    destruct p as [[[]|]|]; [destruct Hx as (c & -> & -> & _)|destruct Hx as [-> ->]..].
    + by rewrite drop_filled, app_assoc.
    + by rewrite drop_all, app_nil_r.
    + by rewrite drop_all, app_nil_r.
  - destruct (write_half W) eqn:Eh; [|done]. injection Hs as <-. destruct Hm as [Hd Hl].
    destruct (write_law cx data t Hwr Hd Hl) as (p & t' & ws & E & Hwr' & Hx).
    destruct (write_keeps cx data t _ t' ws E Hr) as [Hr' Hsk].
    unfold split_poll_write, with_lock. rewrite E. simpl. rewrite Eh. split; [done|]. split_and!; try done.
    exists t'. unfold carried, write_gain. simpl. rewrite app_nil_r, Hsk. split_and!; try done.
    destruct p as [[k|]|]; [destruct Hx as [_ ->]|rewrite Hx, app_nil_r; done..]. by rewrite Hacc, app_assoc.
  - destruct (write_half W) eqn:Eh; [|done]. injection Hs as <-.
    destruct (flush_law cx t Hwr) as (p & t' & ws & E & Hwr' & Hsk).
    destruct (flush_keeps cx t _ t' ws E Hr) as [Hr' Hst].
    unfold split_poll_flush, with_lock. rewrite E. simpl. rewrite Eh. split; [done|]. split_and!; try done.
    exists t'. unfold carried. simpl. rewrite !app_nil_r, Hsk, Hst. done.
  - destruct (write_half W) eqn:Eh; [|done]. injection Hs as <-.
    destruct (shutdown_law cx t Hwr) as (p & t' & ws & E & Hwr' & Hsk).
    destruct (shutdown_keeps cx t _ t' ws E Hr) as [Hr' Hst].
    unfold split_poll_shutdown, with_lock. rewrite E. simpl. rewrite Eh. split; [done|]. split_and!; try done.
    exists t'. unfold carried. simpl. rewrite !app_nil_r, Hsk, Hst. done.
  - destruct (read_half W) eqn:Eh; [|done]. injection Hs as <-. subst n.
    destruct (write_half W) eqn:E2; simpl in *; rewrite ?Hw; (split; [done|]); split_and!; try done; first [lia|by exists t].
  - destruct (write_half W) eqn:Eh; [|done]. injection Hs as <-. subst n.
    destruct (read_half W) eqn:E2; simpl in *; rewrite ?Hw; (split; [done|]); split_and!; try done; first [lia|by exists t].
  - destruct (read_half W) eqn:E1, (write_half W) eqn:E2; try done. subst n. simpl in Hs. injection Hs as <-. simpl.
    split; [done|]. split_and!; try done. intros ? [= <-]. done.
  - destruct (read_half W) eqn:E1, (write_half W) eqn:E2, rd; try done; subst n; simpl in Hs; injection Hs as <-; simpl;
      rewrite ?Hw; (split; [done|]); split_and!; try done; first [lia|by exists t].
Qed.

(** The two halves together are the stream.  Whatever polls of the two halves
    follow each other, in whatever order the halves are dropped or handed to
    [unsplit], with each other or with a half of another stream: no poll
    panics, the bytes read and those still to come are those the stream had,
    the bytes accepted are all in its sink, and [unsplit] of both halves gives
    back that very stream - its [unreachable!] is not reached. *)
Theorem split_exact t0 ms W :
  read_ok t0 → write_ok t0 → Forall move_ok ms → run_moves split_move ms (split_start t0) = Some W →
  W.(panicked) = false ∧
  (∀ t, W.(whole) = Some t → stream t0 = W.(got) ++ stream t ∧ sink t = sink t0 ++ W.(accepted)) ∧
  (W.(read_half) = true → W.(write_half) = true →
    ∃ t, unsplit true W.(arc) = (Whole t, None) ∧
      stream t0 = W.(got) ++ stream t ∧ sink t = sink t0 ++ W.(accepted)).
Proof.
  intros Hr Hw Hms Hrun. assert (split_inv t0 W) as [Hp Ha].
  { assert (split_inv t0 (split_start t0)) as HI.
    { split; [done|]. simpl. split_and!; try done; [lia|]. exists t0. unfold carried. simpl. by rewrite app_nil_r. }
    revert HI Hrun. generalize (split_start t0). induction Hms as [|m ms Hm Hms IH]; simpl; intros W0 HI Hrun; [by simplify_eq|].
    destruct (split_move m W0) as [W1|] eqn:E; [|done]. by eapply IH; [eapply split_inv_step|]. }
  split; [done|]. destruct (arc W) as [[n i]|].
  - destruct Ha as (-> & _ & Hwh & t & -> & Hc). split; [by intros; rewrite Hwh in *|].
    intros -> ->. exists t. split; [done|]. by destruct Hc as (_ & _ & ? & ?).
  - destruct Ha as (-> & -> & Hc). split; [|done]. intros t Et. by destruct (Hc t Et) as (_ & _ & ? & ?).
Qed.
End exact.

(** ** [Compat] *)

Section compat.
Context {T : Type} `{AsyncRead T} `{AsyncWrite T}.

(** [futures_io]'s [poll_read] of a slice: how many bytes, and the slice. *)
Definition compat_poll_read (cx : waker) (slice : list byte) : M T (poll (result Z io_error) * list byte) :=
  let! r := poll_read cx (read_buf_new slice) in
  match r with
  | (Ready (Ok _), read_buf) => ret (Ready (Ok (blen (filled_bytes read_buf))), read_buf.(buf))
  | (Ready (Err e), read_buf) => ret (Ready (Err e), read_buf.(buf))
  | (Pending, read_buf) => ret (Pending, read_buf.(buf))
  end.
Definition compat_poll_write (cx : waker) (data : list byte) : M T (poll (result Z io_error)) := poll_write cx data.
Definition compat_poll_flush (cx : waker) : M T (poll (result unit io_error)) := poll_flush cx.
Definition compat_poll_close (cx : waker) : M T (poll (result unit io_error)) := poll_shutdown cx.
End compat.

(** The shim keeps [futures_io]'s contract: a read reports as many bytes as it
    put at the front of the slice, the next ones of the stream, and none only
    at its end. *)
Theorem compat_read_exact {T} `{LawfulRead T} cx slice (t : T) :
  read_ok t → slice ≠ [] → blen slice < 2 ^ (usize_bits - 1) →
  ∃ p slice' t' ws, compat_poll_read cx slice t = Some ((p, slice'), t', ws) ∧ length slice' = length slice ∧
    match p with
    | Ready (Ok n) => 0 ≤ n ≤ blen slice ∧ stream t = upto n slice' ++ stream t' ∧ (n = 0 → stream t = [])
    | _ => stream t' = stream t
    end.
Proof.
  intros Hr Hs Hl. destruct (async_read_spec cx slice t Hr Hs Hl) as (p & s' & t' & ws & E & _ & Hlen & Hp).
  exists p, s', t', ws. split; [exact E|]. by split.
Qed.

(** ** Streams that are duplex: a reader and a writer joined *)

Lemma zoom_some_inv {S B A} (view : S → B) (update : B → S → S) (m : M B A) s a s' ws :
  zoom view update m s = Some (a, s', ws) → ∃ b, m (view s) = Some (a, b, ws) ∧ s' = update b s.
Proof. unfold zoom. destruct (m (view s)) as [[[a' b] ws']|]; [|done]. intros [= -> <- ->]. by exists b. Qed.

#[export] Instance io_join_duplex `{LawfulRead R} `{LawfulWrite W} : LawfulDuplex (IoJoin R W).
Proof.
  split; intros; simpl in *; match goal with E : _ = Some _ |- _ => apply zoom_some_inv in E as (? & _ & ->) end; done.
Qed.

Definition demo_stream : IoJoin MemReader (list byte) := mkIoJoin (mkMem [1; 2; 3] 2 true) [].
Definition demo_moves : list move :=
  [MRead 0%nat (mkReadBuf [0; 0] 0); MWrite 0%nat [7; 8]; MRead 0%nat (mkReadBuf [0; 0] 0)].
Definition demo_end : world (IoJoin MemReader (list byte)) :=
  mkWorld (Some (2%nat, Clean (mkIoJoin (mkMem [3] 2 true) [7; 8]))) true true [1; 2] [7; 8] None false.

Lemma split_exact_witness :
  run_moves split_move demo_moves (split_start demo_stream) = Some demo_end ∧
  ∃ t, unsplit true demo_end.(arc) = (Whole t, None) ∧ sink t = [7; 8].
Proof.
  assert (run_moves split_move demo_moves (split_start demo_stream) = Some demo_end) as Er by (vm_compute; reflexivity).
  split; [exact Er|].
  assert (Forall move_ok demo_moves) as Hok.
  { repeat constructor; vm_compute; congruence. }
  assert (read_ok demo_stream) as Hr by (simpl; lia). assert (write_ok demo_stream) as Hw by done.
  destruct (split_exact demo_stream demo_moves demo_end Hr Hw Hok Er)
    as (_ & _ & Hu).
  destruct (Hu eq_refl eq_refl) as (t & E & _ & Hs). exists t. split; [exact E|]. rewrite Hs. reflexivity.
Defined.

Lemma compat_read_exact_witness :
  ∃ p slice' t' ws, compat_poll_read 0%nat [0; 0] (mkMem [1; 2; 3] 2 true) = Some ((p, slice'), t', ws) ∧
    length slice' = 2%nat.
Proof.
  destruct (compat_read_exact 0%nat [0; 0] (mkMem [1; 2; 3] 2 true)) as (p & s & t' & ws & E & Hl & _);
    [apply Nat.lt_0_succ|discriminate|reflexivity|].
  exists p, s, t', ws. split; [exact E|exact Hl].
Defined.
