(* ===== verification/Attributes.v ===== *)
(** The attribute macros [#[rusty_tokio::main]] and [#[rusty_tokio::test]]
    ([src/rusty_tokio-macros/src/lib.rs], [src/rusty_tokio-macros/src/args.rs]):
    the arguments they accept, the functions they accept, and the runtime the
    expansion builds.

    The parser of Rust, [syn], is outside: a parsed argument is a [meta], a
    parsed function an [item_fn].  What the expansion evaluates to is the
    builder of [Runtime]. *)

From S2P Require Import Prelude Runtime.
From stdpp Require Import strings.
Open Scope Z_scope.

(** [syn::Expr]; [parsed] is what [base10_parse::<usize>] makes of the digits. *)
Inductive expr := LitStr (s : string) | LitInt (parsed : option Z) | OtherExpr.
(** [syn::Meta]: [path = value], the path being one identifier; or another form. *)
Inductive meta := NameValue (path : string) (value : expr) | OtherMeta.

Inductive syn_error :=
| UnsupportedFlavor | UnsupportedArgument | ExpectedStr | ExpectedInt | IntOutOfRange
| MissingAsync | TakesArguments | HasGenerics | NotAFunction.

Record MacroArgs := mkArgs { args_threads : option Z; args_flavor : option string }.

Definition literal_str (e : expr) : result string syn_error :=
  match e with LitStr s => Ok s | _ => Err ExpectedStr end.
Definition literal_usize (e : expr) : result Z syn_error :=
  match e with LitInt (Some n) => Ok n | LitInt None => Err IntOutOfRange | _ => Err ExpectedInt end.

(** One turn of the loop of [MacroArgs::parse], and the loop. *)
Definition parse_meta (a : MacroArgs) (m : meta) : result MacroArgs syn_error :=
  match m with
  | NameValue path value =>
      if String.eqb path "worker_threads" then
        match literal_usize value with
        | Ok n => Ok (mkArgs (Some n) a.(args_flavor))
        | Err e => Err e
        end
      else if String.eqb path "flavor" then
        match literal_str value with
        | Ok s => if String.eqb s "thread_per_core" then Ok (mkArgs a.(args_threads) (Some s)) else Err UnsupportedFlavor
        | Err e => Err e
        end
      else Err UnsupportedArgument
  | OtherMeta => Err UnsupportedArgument
  end.
Fixpoint parse_metas (a : MacroArgs) (metas : list meta) : result MacroArgs syn_error :=
  match metas with
  | [] => Ok a
  | m :: metas => match parse_meta a m with Ok a => parse_metas a metas | Err e => Err e end
  end.
Definition parse (metas : list meta) : result MacroArgs syn_error := parse_metas (mkArgs None None) metas.

(** The expression of [runtime_expr]: a constructor, and the call of
    [worker_threads] if there is one. *)
Inductive constructor := BuilderNew | BuilderNewThreadPerCore.
Record runtime_code := mkCode { constructor_of : constructor; threads_of : option Z }.
Definition runtime_expr (a : MacroArgs) : runtime_code :=
  mkCode (match a.(args_flavor) with
          | Some s => if String.eqb s "thread_per_core" then BuilderNewThreadPerCore else BuilderNew
          | None => BuilderNew
          end) a.(args_threads).

(** [syn::ItemFn], as far as the macro looks at it. *)
Record item_fn := mkItem { asyncness : bool; inputs : nat; generics : nat; body : nat }.
(** The expansion: the [#[test]] attribute, the runtime, the block it drives. *)
Record expansion := mkExpansion { test_attr : bool; rt_expr : runtime_code; block : nat }.

Definition expand (metas : list meta) (item : option item_fn) (is_test : bool) : result expansion syn_error :=
  match item with
  | None => Err NotAFunction
  | Some input =>
      match parse metas with
      | Err e => Err e
      | Ok macro_args =>
          if negb input.(asyncness) then Err MissingAsync
          else if negb (input.(inputs) =? 0)%nat then Err TakesArguments
          else if negb (input.(generics) =? 0)%nat then Err HasGenerics
          else Ok (mkExpansion is_test (runtime_expr macro_args) input.(body))
      end
  end.
Definition main (metas : list meta) (item : option item_fn) := expand metas item false.
Definition test (metas : list meta) (item : option item_fn) := expand metas item true.

(** What the expression does when the program runs; [None] is a panic. *)
Definition eval_code (parallelism : option Z) (c : runtime_code) : option Builder :=
  let b := match c.(constructor_of) with
           | BuilderNew => builder_new parallelism
           | BuilderNewThreadPerCore => builder_new_thread_per_core parallelism
           end in
  match c.(threads_of) with Some n => set_worker_threads n b | None => Some b end.

(** ** What the arguments mean *)

(** The error of the first argument that is not accepted. *)
Definition meta_error (m : meta) : option syn_error :=
  match parse_meta (mkArgs None None) m with Err e => Some e | Ok _ => None end.
Definition meta_threads (m : meta) : option Z :=
  match m with
  | NameValue path (LitInt (Some n)) => if String.eqb path "worker_threads" then Some n else None
  | _ => None
  end.
Definition meta_per_core (m : meta) : bool :=
  match m with NameValue path (LitStr s) => String.eqb path "flavor" && String.eqb s "thread_per_core" | _ => false end.

Definition args_of (a : MacroArgs) (metas : list meta) : MacroArgs :=
  mkArgs (match last (omap meta_threads metas) with Some n => Some n | None => a.(args_threads) end)
    (if existsb meta_per_core metas then Some "thread_per_core"%string else a.(args_flavor)).

Lemma parse_meta_spec a m :
  parse_meta a m =
    match meta_error m with
    | Some e => Err e
    | None => Ok (mkArgs (match meta_threads m with Some n => Some n | None => a.(args_threads) end)
                    (if meta_per_core m then Some "thread_per_core"%string else a.(args_flavor)))
    end.
Proof.
  unfold meta_error. destruct m as [path value|]; simpl; [|done].
  destruct (String.eqb_spec path "worker_threads") as [->|?].
  - destruct value as [s|[k|]|]; simpl; done.
  - destruct (String.eqb_spec path "flavor") as [->|?].
    + destruct value as [s|[k|]|]; simpl; try done. by destruct (String.eqb_spec s "thread_per_core") as [->|].
    + by destruct value as [s|[k|]|].
Qed.

Lemma parse_metas_spec a metas :
  parse_metas a metas =
    match head (omap meta_error metas) with Some e => Err e | None => Ok (args_of a metas) end.
Proof.
  revert a. induction metas as [|m metas IH]; intros a; simpl; [by destruct a|].
  rewrite parse_meta_spec. destruct (meta_error m); [done|]. rewrite IH.
  destruct (head _); [done|]. f_equal. unfold args_of. simpl.
  destruct (meta_threads m); simpl; [|by destruct (meta_per_core m), (existsb meta_per_core metas)].
  rewrite last_cons. by destruct (last _), (meta_per_core m), (existsb meta_per_core metas).
Qed.

(** The attribute accepts what it documents and builds the runtime it is asked
    for.  It expands exactly when the item is an [async fn] without arguments
    and generic parameters and every argument of the attribute is accepted -
    else the first bad argument is reported, before the shape of the function;
    and the program it expands to builds, of the flavour some argument asks
    for, a runtime with as many worker threads as the last [worker_threads]
    says, as many as there are processors without one, and panics when that
    number is 0. *)
Theorem attribute_exact metas item is_test parallelism :
  match expand metas (Some item) is_test with
  | Ok e =>
      item.(asyncness) = true ∧ item.(inputs) = 0%nat ∧ item.(generics) = 0%nat ∧ omap meta_error metas = [] ∧
      e.(test_attr) = is_test ∧ e.(block) = item.(body) ∧
      (let flavour := if existsb meta_per_core metas then ThreadPerCoreFlavor else MultiThreadFlavor in
       eval_code parallelism e.(rt_expr) =
         match last (omap meta_threads metas) with
         | None => Some (mkBuilder flavour (default 1 parallelism) 32 None 10)
         | Some n => if 0 <? n then Some (mkBuilder flavour n 32 None 10) else None
         end)
  | Err e => head (omap meta_error metas) = Some e ∨
      omap meta_error metas = [] ∧ (item.(asyncness) = false ∨ (0 < item.(inputs))%nat ∨ (0 < item.(generics))%nat)
  end.
Proof.
  unfold expand, parse. rewrite parse_metas_spec. destruct (omap meta_error metas) as [|e es] eqn:Ee; simpl; [|by left].
  destruct (asyncness item); simpl; [|right; auto].
  destruct (Nat.eqb_spec (inputs item) 0); simpl; [|right; split; [done|lia]].
  destruct (Nat.eqb_spec (generics item) 0); simpl; [|right; split; [done|lia]].
  split_and!; try done. unfold eval_code, runtime_expr, args_of, set_worker_threads. simpl.
  destruct (existsb meta_per_core metas), (last (omap meta_threads metas)) as [n|]; simpl; try done.
Qed.

(** [#[main(worker_threads = 0)]] compiles and panics when it runs. *)
Example attribute_zero_threads item :
  asyncness item = true → inputs item = 0%nat → generics item = 0%nat →
  match main [NameValue "worker_threads" (LitInt (Some 0))] (Some item) with
  | Ok e => eval_code (Some 8) e.(rt_expr) = None
  | Err _ => False
  end.
Proof. unfold main, expand. intros -> -> ->. reflexivity. Qed.
