(* ===== verification/FsOps.v ===== *)
(** The functions of [fs] on paths, [OpenOptions] and [DirBuilder]
    ([src/src/fs/mod.rs]).

    Each is one closure on the blocking pool, around a function of [std] on the
    file system.  That is a program of several system calls (the class
    [StdFs]): the closures of several calls run on several threads, and their
    system calls interleave. *)

From S2P Require Import Prelude AsyncIo.
From stdpp Require Import strings.
#[local] Open Scope Z_scope.

(** [std::fs::OpenOptions]. *)
Record OpenOptions := mkOpenOptions {
  o_read : bool; o_write : bool; o_append : bool; o_truncate : bool;
  o_create : bool; o_create_new : bool; o_mode : option Z; o_custom_flags : Z;
}.
Definition open_options_new : OpenOptions := mkOpenOptions false false false false false false None 0.
Definition options_read b (o : OpenOptions) : OpenOptions :=
  mkOpenOptions b o.(o_write) o.(o_append) o.(o_truncate) o.(o_create) o.(o_create_new) o.(o_mode) o.(o_custom_flags).
Definition options_write b (o : OpenOptions) : OpenOptions :=
  mkOpenOptions o.(o_read) b o.(o_append) o.(o_truncate) o.(o_create) o.(o_create_new) o.(o_mode) o.(o_custom_flags).
Definition options_append b (o : OpenOptions) : OpenOptions :=
  mkOpenOptions o.(o_read) o.(o_write) b o.(o_truncate) o.(o_create) o.(o_create_new) o.(o_mode) o.(o_custom_flags).
Definition options_truncate b (o : OpenOptions) : OpenOptions :=
  mkOpenOptions o.(o_read) o.(o_write) o.(o_append) b o.(o_create) o.(o_create_new) o.(o_mode) o.(o_custom_flags).
Definition options_create b (o : OpenOptions) : OpenOptions :=
  mkOpenOptions o.(o_read) o.(o_write) o.(o_append) o.(o_truncate) b o.(o_create_new) o.(o_mode) o.(o_custom_flags).
Definition options_create_new b (o : OpenOptions) : OpenOptions :=
  mkOpenOptions o.(o_read) o.(o_write) o.(o_append) o.(o_truncate) o.(o_create) b o.(o_mode) o.(o_custom_flags).
Definition options_mode m (o : OpenOptions) : OpenOptions :=
  mkOpenOptions o.(o_read) o.(o_write) o.(o_append) o.(o_truncate) o.(o_create) o.(o_create_new) (Some m) o.(o_custom_flags).
Definition options_custom_flags f (o : OpenOptions) : OpenOptions :=
  mkOpenOptions o.(o_read) o.(o_write) o.(o_append) o.(o_truncate) o.(o_create) o.(o_create_new) o.(o_mode) f.

(** [DirBuilder], which keeps its own settings. *)
Record DirBuilder := mkDirBuilder { recursive : bool; dir_mode : option Z }.
Definition dir_builder_new : DirBuilder := mkDirBuilder false None.
Definition set_recursive b (d : DirBuilder) : DirBuilder := mkDirBuilder b d.(dir_mode).
Definition set_dir_mode m (d : DirBuilder) : DirBuilder := mkDirBuilder d.(recursive) (Some m).

(** The calls to [std]. *)
Inductive std_call :=
| StdOpen (path : string) (opts : OpenOptions)
| StdFileCreate (path : string) | StdFileCreateNew (path : string) | StdFileOpen (path : string)
| StdCreateDir (path : string) | StdCreateDirAll (path : string)
| StdRemoveDir (path : string) | StdRemoveDirAll (path : string)
| StdCanonicalize (path : string) | StdMetadata (path : string) | StdSymlinkMetadata (path : string)
| StdTryExists (path : string) | StdSetPermissions (path : string) (perm : Z)
| StdRename (from to : string) | StdHardLink (original link : string) | StdReadLink (path : string)
| StdRemoveFile (path : string) | StdCopy (from to : string)
| StdSymlink (original link : string) | StdSymlinkFile (original link : string) | StdSymlinkDir (original link : string)
| StdRead (path : string) | StdReadToString (path : string) | StdWrite (path : string) (contents : list byte)
| StdDirCreate (path : string) (std_recursive : bool) (std_mode : option Z).

(** A function of [std], as it goes from one system call to the next: each
    changes the disk at once, and the last one gives the answer ([None]: it
    panics). *)
Class StdFs (D V : Type) := {
  std_prog : Type;
  std_begin : std_call → std_prog;
  std_step : std_prog → D → D * (std_prog + option (result V io_error));
}.

Section fs.
Context {D V : Type} `{StdFs D V}.

(** A call of this crate's: its closure is in the pool's queue, is run by one
    of its threads, or has ended, or the future has resolved.  [made_at]: how
    many system calls there had been when it was made; [answered_before]: what
    had resolved. *)
Inductive fs_phase := InQueue | Running (p : std_prog) | Ran (r : option (result V io_error)) | Answered (r : result V io_error).
Record fs_call := mkFsCall {
  closure : std_call; phase : fs_phase;
  made_at : nat; answered_before : list nat;
}.
(** The disk, the calls made, and the system calls there have been: who made
    one, and the disk before and after it. *)
Record world := mkWorld { disk : D; calls : list fs_call; log : list (nat * (D * D)) }.

Definition is_answered (c : fs_call) : bool := match c.(phase) with Answered _ => true | _ => false end.
Definition answered_calls (cs : list fs_call) : list nat :=
  omap (λ i, c ← cs !! i; if is_answered c then Some i else None) (seq 0 (length cs)).

(** [crate::spawn_blocking(closure)]: the number of the call. *)
Definition spawn_call (c : std_call) (W : world) : world * nat :=
  (mkWorld W.(disk) (W.(calls) ++ [mkFsCall c InQueue (length W.(log)) (answered_calls W.(calls))]) W.(log), length W.(calls)).

(** ** The functions *)

Definition file_open path := spawn_call (StdFileOpen path).
Definition file_create path := spawn_call (StdFileCreate path).
Definition file_create_new path := spawn_call (StdFileCreateNew path).
Definition options_open (o : OpenOptions) path := spawn_call (StdOpen path o).
Definition create_dir path := spawn_call (StdCreateDir path).
Definition create_dir_all path := spawn_call (StdCreateDirAll path).
Definition remove_dir path := spawn_call (StdRemoveDir path).
Definition remove_dir_all path := spawn_call (StdRemoveDirAll path).
Definition canonicalize path := spawn_call (StdCanonicalize path).
Definition metadata path := spawn_call (StdMetadata path).
Definition symlink_metadata path := spawn_call (StdSymlinkMetadata path).
Definition try_exists path := spawn_call (StdTryExists path).
Definition set_permissions path perm := spawn_call (StdSetPermissions path perm).
Definition rename src dst := spawn_call (StdRename src dst).
Definition hard_link original link := spawn_call (StdHardLink original link).
Definition read_link path := spawn_call (StdReadLink path).
Definition remove_file path := spawn_call (StdRemoveFile path).
Definition fs_copy src dst := spawn_call (StdCopy src dst).
Definition symlink original link := spawn_call (StdSymlink original link).
Definition symlink_file original link := spawn_call (StdSymlinkFile original link).
Definition symlink_dir original link := spawn_call (StdSymlinkDir original link).
Definition fs_read path := spawn_call (StdRead path).
Definition fs_read_to_string path := spawn_call (StdReadToString path).
Definition fs_write path contents := spawn_call (StdWrite path contents).
(** The closure assembles [std]'s builder from the fields. *)
Definition dir_create (d : DirBuilder) path := spawn_call (StdDirCreate path d.(recursive) d.(dir_mode)).

(** ** All of them together *)





(** *** What [std] promises *)








(** *** What is known of a call *)










End fs.
Arguments world : clear implicits.
Arguments world D V {_}.
Arguments fs_phase : clear implicits.

(** ** A disk of names and contents

    [write] opens the file, which empties it, and then writes; [copy] opens the
    source and then the destination, and copies. *)

Inductive demo_prog := DCall (c : std_call) | DWrite (path : string) (contents : list byte).
#[local] Instance demo_fs : StdFs (gmap string (list byte)) (list byte) := {
  std_prog := demo_prog;
  std_begin := DCall;
  std_step p d :=
    match p with
    | DCall (StdWrite path contents) => (<[path := []]> d, inl (DWrite path contents))
    | DWrite path contents => (<[path := contents]> d, inr (Some (Ok contents)))
    | DCall (StdRead path) => (d, inr (Some (match d !! path with Some b => Ok b | None => Err NotFound end)))
    | _ => (d, inr None)
    end;
}.



